(* ===== verification/_CoqProject ===== *)
-Q . S2P
Prelude.v
Clock.v
Storage.v
ReplicationLog.v
Strconv.v
Filepath.v
Fs.v
Config.v
Json.v
JsonStruct.v
Wal.v
Snapshot.v
DiskState.v
Total.v
StateMachine.v
Durability.v
Replica.v
Wire.v
Handlers.v
Write.v
Kv.v
Recovery.v
Election.v
Rounds.v
Progress.v
ShardMap.v
Membership.v
Leader.v
Migration.v
Coordinator.v
Server.v
Group.v
Http.v
KvHttp.v
Node.v
Placement.v
Prometheus.v
Metrics.v
Cluster.v
Status.v
CoordinatorMetrics.v
Harness.v
SqlLexer.v
SqlParser.v
SqlPrint.v
SqlAnalyzer.v
Float.v
SqlPlanner.v
SqlExecutor.v
SqlRefine.v
