(* ===== verification/Prelude.v ===== *)
(** * Verification of doki, a sharded replicated key-value store

    doki (Go, under src/) keeps named shards of a key-value map on several nodes.
    A coordinator process holds the shard map: which nodes replicate which shard,
    who leads it, in which term.  A node hosts one replica per shard assigned to
    it.  The leader of a shard takes the writes, sends each to the followers it
    has heard from, and acknowledges it once a majority of these has applied it;
    every replica logs its writes to disk before applying them and takes
    snapshots.  A follower that falls behind recovers from the leader by log
    entries or by a snapshot, and followers that miss the leader elect a new one.
    A SQL front end (lexer, parser, analyzer, planner, executor) stores rows in a
    key-value store.

    ** Files

    The definitions follow the Go code function by function and keep its names;
    a record stands for a struct, and a method is a function of the record.

    Foundations
    - [Prelude]: results, record update, machine integers ([u64], [int64] and
      their wrap-around), times and durations, the order of Go's map iteration.
    - [Strconv], [Filepath], [Json], [JsonStruct], [Float]: what the program uses
      of Go's strconv, path/filepath and encoding/json, at byte level.
    - [Fs]: the files under a node, an oracle that decides which disk operations
      fail and where the process dies, and the monad of programs over them.

    One replica
    - [Storage]: internal/storage and its memory engine; an interface with laws.
    - [ReplicationLog]: internal/replicationlog.
    - [Wal], [Snapshot], [DiskState]: internal/wal, internal/snapshot,
      node/diskstate.go.
    - [Total]: total correctness of programs, and the operations of node/diskstate.go
      on a disk that works.
    - [StateMachine], [Durability]: node/statemachine.go, alone and on its disk.
    - [Replica]: node/replica.go, recovery_state.go, write_guard.go, quorum.go.

    Between replicas
    - [Wire], [Handlers]: the messages, the handlers of node/grpc.go and the HTTP
      handlers of node/server.go and node/election.go.
    - [Write], [Kv]: leaderWrite with its fan-out (node/server.go,
      node/replication.go), and handleKV, the client's endpoint.
    - [Recovery], [Election]: node/recovery.go, node/election.go.
    - [Rounds]: a whole election and a whole round of heartbeats, each peer
      running its own handler.
    - [Progress]: total correctness of the above: writes, recovery and elections
      that must succeed do.
    - [Group]: the replicas of a shard with elections, writes and recovery
      interleaved, and what an election keeps of the writes.

    Processes
    - [Config], [Clock]: internal/config, internal/clock.
    - [ShardMap], [Membership], [Leader], [Migration], [Coordinator]:
      internal/shardmap and coordinator/.
    - [Server]: the node's server, node/server.go, and its shard map client.
    - [Node]: the dispatch of requests to the replicas of a server (node/grpc.go),
      which share one disk.
    - [Http], [KvHttp]: routing, JSON request bodies and status codes of both
      servers, the main functions of cmd/ up to Start, and the key-value endpoint
      from bytes to bytes with a client.
    - [Status]: what the processes report about themselves.
    - [Prometheus], [Metrics], [CoordinatorMetrics]: the Prometheus client as an
      interface, and the metrics of internal/metrics with the places in node/ and
      coordinator/ that update them.
    - [Harness]: fault injection, load and assertions of test/reliability.

    The whole system
    - [Placement]: what the handlers and jobs of a replica leave alone: the shard,
      the peers and the map version it was given, and its statistics.
    - [Cluster]: the coordinator and the nodes, with their replicas and disks, as
      one transition system over a network that loses and delays; every step runs
      the operations of the other files.

    SQL (internal/sql)
    - [SqlLexer], [SqlParser], [SqlPrint]: token.go, lexer.go, ast.go, parser.go.
    - [SqlAnalyzer]: catalog.go, analyzer.go.
    - [SqlPlanner], [SqlExecutor], [SqlRefine]: planner.go, executor.go, and the
      whole pipeline as a database.

    ** What the theorems show

    - Durability.  Whatever disk operation fails, with the node going on after
      errors, and wherever the process dies, the log and the snapshots give back
      the acknowledged writes in order ([Wal], [Snapshot], [DiskState],
      [Durability]), and a node restarted on its files comes back with exactly
      these, or these and one that was attempted ([Server]).  This is for runs
      that start from a whole log, with entries of UTF-8 strings that fit a log
      line, in which nothing is acknowledged after a failed sync, fewer snapshots
      fail in a row than are retained, and recovery installs no snapshot; theorems
      without a number show what happens otherwise.
    - Replication.  Any session with the state machine is answered from the
      history of its entries; a write is acknowledged when as many followers as
      the quorum plan asks for have applied it or were already past it;
      redelivered and reordered requests take no replica back; a recovery that
      succeeds makes the follower equal to the leader; the client sees a map on
      which exactly the acknowledged writes were carried out.
    - Election.  A vote is granted exactly when the rules say so.  In every
      execution of a fixed set of replicas of a shard no term has two winners,
      and the winner of a later term knows of every write that a majority of the
      configured replicas held when it was acknowledged.  Both leave out restarts
      and snapshots of lower terms, since votes and terms are kept in memory only.
    - Progress.  A candidate that a majority can vote for wins; a write that
      enough peers can acknowledge is acknowledged; a follower whose leader is
      reachable catches up in one turn; and after a takeover the shard serves
      writes again ([Rounds], [Progress]).
    - Control.  From any configuration that parses, the coordinator keeps its
      books: shards and nodes under their ids, terms and migrations in step with
      the map, and leaders among the replicas but for those the configuration
      named otherwise; a tick of its monitor replaces a
      silent leader, by a most advanced live replica, independently of map order;
      migrations end exactly when the new replicas are ready; an unchanged map
      version means an unchanged map; a node hosts what the map assigns to it,
      and its shards do not interfere, in memory or on disk, if their ids are
      plain file names; the status page, the gRPC status and the gauges agree.
    - System.  In every state the coordinator and the nodes reach together, each
      node is at a version the shard map has had, never ahead of it, and hosts
      exactly what that version assigns to it; one heartbeat exchange brings it
      up to date; and after a leader falls silent, the tick that notices and one
      exchange it survives leave the appointed replica leading ([Cluster]).
      Restarts of the coordinator are left out: its map is in memory only.
    - SQL.  The lexer does what a declarative grammar of tokens says, byte by
      byte; parsing terminates on every input and inverts printing; the analyzer
      accepts exactly the statements a declarative account of the schema allows;
      and a session of statements over a key-value store is a session on tables of
      rows.
    - Interfaces.  HTTP and gRPC handlers of the same name agree; over HTTP only
      the admin requests change the coordinator; the shard map survives its JSON
      form, and a snapshot its file.
      Whatever a replica or the coordinator does, no update of a metric panics,
      and the counters account for it: elections, recoveries and writes as the
      status page has them, the version by the entries applied, heartbeats,
      notices and reassignments one by one.
    - Test harness.  Faults are local to a node and can be healed; polling ends;
      the tracker of the load holds exactly one key for every acknowledged write;
      and the assertions on quorum, lag, convergence, split brain and lost writes
      hold exactly when what they describe does, by the answers they are given.

    Several theorems record behaviour that differs from the documentation or that
    nobody will have meant; they carry no numbered claim and are named for what
    happens (for example [Write.isolated_leader_acknowledges]).

    ** Conventions

    Integers are [Z] with the wrap-around of their Go type written out where an
    operation can leave the range.  Go strings are byte strings.  A Go map is a
    [gmap]; where the code iterates over one, the visiting order is an argument
    and the theorems hold for every order.  Clock readings and random draws are
    arguments.  A mutex is not modelled: a critical section is one step.  Where
    the code releases a lock in the middle of an operation and it matters
    ([startElection], [leaderWrite], [CheckAndReassign]), the operation is split into steps and
    the theorems let other steps in between.

    Fuel.  [Json.parse_value] runs on the length of its input, [SqlLexer.Lex] on
    one unit for every byte and one for the end, [SqlParser.Parse] on one unit
    more than there are tokens: each step consumes input, and termination of the
    SQL front end is a theorem.  [Strconv.FormatUint] has 20 digits, enough for
    64 bits, and [Float.FormatFloat] 17, enough to tell two doubles apart.

    ** Not modelled

    - Listening, connections, goroutine start and shutdown, retries with timers,
      signals and flags (the Start functions): plumbing around the handlers and
      loop bodies, which are modelled.
    - Protocol buffers, gRPC, YAML and Prometheus: third-party code.  Messages are
      records, YAML decoding is an argument, the Prometheus client an interface
      with laws.  Log lines and response headers are left out.
    - The system's clock and random source, whose readings are arguments.
    - Power loss: a process death keeps the bytes already handed to the kernel,
      so a file never loses synced or unsynced bytes; [Sync] matters through the
      errors it returns.
    - The real scheduler: data races inside a critical section do not exist, and
      the network is an adversary that loses, delays and repeats messages.
    - Of the test harnesses under test/, the start of servers and listeners, the
      throttle and the floating-point statistics of the load, and the gRPC calls
      of test/integration. *)

From stdpp Require Export base numbers strings gmap fin_maps sets option list_numbers.
From stdpp Require Export list.
From Stdlib Require Import Lia ZArith.

Declare Scope doki_scope.
Delimit Scope doki_scope with doki.
#[global] Open Scope doki_scope.
#[global] Open Scope Z_scope.

Create HintDb doki.
Create Rewrite HintDb doki_rw.

(** ** Results of fallible Go functions

    A Go function returning [(T, error)] is a [result E T]: [Ok v] for a nil
    error and [Fail e] otherwise.  [E] is the error type of the component. *)

Inductive result (E A : Type) : Type :=
| Ok (a : A)
| Fail (e : E).
Arguments Ok {E A} a.
Arguments Fail {E A} e.

Definition result_bind {E A B} (c : result E A) (k : A -> result E B) : result E B :=
  match c with Ok a => k a | Fail e => Fail e end.

Definition result_map_err {E F A} (f : E -> F) (c : result E A) : result F A :=
  match c with Ok a => Ok a | Fail e => Fail (f e) end.

Definition is_ok {E A} (c : result E A) : bool :=
  match c with Ok _ => true | Fail _ => false end.

Notation "'try' x <- c ; k" := (result_bind c (fun x => k))
  (at level 100, x pattern, c at next level, k at level 200, right associativity) : doki_scope.

Lemma result_bind_ok {E A B} (c : result E A) (k : A -> result E B) b :
  result_bind c k = Ok b <-> exists a, c = Ok a /\ k a = Ok b.
Proof. destruct c; simpl; naive_solver. Qed.

(** ** Functional record update

    [r <| p := v |>] is [r] with field [p] replaced.  A record type opts in by
    giving its eta expansion ([Eta]); the setter of one projection is obtained
    by abstracting that projection in the eta expansion. *)

Class Eta (R : Type) := eta_of : R -> R.
Class FieldSetter {R T : Type} (p : R -> T) := set_field : (T -> T) -> R -> R.

Ltac derive_setter :=
  lazymatch goal with
  | |- @FieldSetter ?R ?T ?p =>
      let e := constr:(_ : Eta R) in
      let e := eval hnf in e in
      let e := eval cbv beta in e in
      lazymatch eval pattern p in e with
      | (fun _ => ?constant) _ => fail "no field" p
      | ?body _ => exact (fun (f : T -> T) => body (fun r => f (p r)))
      end
  end.

#[global] Hint Extern 1 (FieldSetter _) => derive_setter : typeclass_instances.

#[warnings="-postfix-notation-not-level-1"]
Notation "r <| p := v |>" := (set_field (p := p) (fun _ => v) r)
  (at level 12, left associativity, format "r  <| p  :=  v |>") : doki_scope.
#[warnings="-postfix-notation-not-level-1"]
Notation "r <| p ::= f |>" := (set_field (p := p) f r)
  (at level 12, left associativity, format "r  <| p  ::=  f |>") : doki_scope.

(** ** Machine integers

    Go's [uint64] and [int64] values are integers kept in range; arithmetic
    that can leave the range wraps around, and the wrap is written out. *)

Definition two64 : Z := 18446744073709551616.
Definition max_int64 : Z := 9223372036854775807.
Definition min_int64 : Z := -9223372036854775808.

Definition wrap64 (z : Z) : Z := z mod two64.

(** [x + 1] on a [uint64]. *)
Definition u64_succ (z : Z) : Z := wrap64 (z + 1).

(** Conversion of an exact result to [int64] (two's complement). *)
Definition wrap_int64 (z : Z) : Z :=
  let w := z mod two64 in if w <=? max_int64 then w else w - two64.

Definition u64 (z : Z) : Prop := 0 <= z < two64.
Definition int64 (z : Z) : Prop := min_int64 <= z <= max_int64.

Lemma u64_succ_lt z : u64 z -> z < two64 - 1 -> u64_succ z = z + 1.
Proof. unfold u64, u64_succ, wrap64. intros. apply Z.mod_small. lia. Qed.

Lemma u64_succ_range z : u64 (u64_succ z).
Proof. unfold u64, u64_succ, wrap64. apply Z.mod_pos_bound. done. Qed.

Lemma wrap64_id z : u64 z -> wrap64 z = z.
Proof. apply Z.mod_small. Qed.

Lemma wrap_int64_id z : int64 z -> wrap_int64 z = z.
Proof.
  unfold int64, wrap_int64, two64, max_int64, min_int64. intros H.
  destruct (decide (0 <= z)).
  - rewrite Z.mod_small by lia. case (Z.leb_spec z 9223372036854775807); lia.
  - rewrite <- (Z.mod_add _ 1) by done. rewrite Z.mod_small by lia.
    case (Z.leb_spec (z + 1 * 18446744073709551616) 9223372036854775807); lia.
Qed.

Lemma wrap_int64_range z : int64 (wrap_int64 z).
Proof.
  unfold int64, wrap_int64, min_int64, max_int64. pose proof (Z.mod_pos_bound z two64 eq_refl). unfold two64 in *.
  case Z.leb_spec; lia.
Qed.

Lemma wrap_int64_add a b : wrap_int64 (wrap_int64 a + b) = wrap_int64 (a + b).
Proof.
  enough (Hm : (wrap_int64 a + b) mod two64 = (a + b) mod two64) by (unfold wrap_int64 at 1 3; by rewrite Hm).
  unfold wrap_int64. case Z.leb_spec; intros _; [by rewrite Z.add_mod_idemp_l|].
  replace (a mod two64 - two64 + b) with (a mod two64 + b + -1 * two64) by lia. rewrite Z.mod_add, Z.add_mod_idemp_l by done. done.
Qed.

Lemma wrap64_add a b : wrap64 (wrap64 a + b) = wrap64 (a + b).
Proof. unfold wrap64. by rewrite Z.add_mod_idemp_l. Qed.

Lemma wrap64_range z : u64 (wrap64 z).
Proof. apply Z.mod_pos_bound. done. Qed.

(** ** Time

    A [time.Time] is the number of nanoseconds since the zero [time.Time];
    [time.Duration] is an [int64] nanosecond count, and [Time.Sub] saturates. *)

Definition time_IsZero (t : Z) : bool := t =? 0.
Definition time_Sub (a b : Z) : Z := Z.max min_int64 (Z.min max_int64 (a - b)).
Definition millisecond : Z := 1000000.
Definition second : Z := 1000000000.

(** ** Automation *)

(** Case analysis on every boolean test or match that blocks the goal or a
    hypothesis. *)
Ltac case_tests :=
  repeat match goal with
  | |- context [if ?b then _ else _] => destruct b eqn:?
  | H : context [if ?b then _ else _] |- _ => destruct b eqn:?
  end.

Ltac case_matches :=
  repeat match goal with
  | |- context [match ?b with _ => _ end] => destruct b eqn:?
  | H : context [match ?b with _ => _ end] |- _ => destruct b eqn:?
  end.

(** Turn boolean comparisons in the context into arithmetic facts. *)
Ltac bool_facts :=
  repeat match goal with
  | H : (_ && _)%bool = true |- _ => apply andb_true_iff in H as [? ?]
  | H : (_ || _)%bool = false |- _ => apply orb_false_iff in H as [? ?]
  | H : negb _ = true |- _ => apply negb_true_iff in H
  | H : negb _ = false |- _ => apply negb_false_iff in H
  | H : (_ =? _)%Z = true |- _ => apply Z.eqb_eq in H
  | H : (_ =? _)%Z = false |- _ => apply Z.eqb_neq in H
  | H : (_ <? _)%Z = true |- _ => apply Z.ltb_lt in H
  | H : (_ <? _)%Z = false |- _ => apply Z.ltb_ge in H
  | H : (_ <=? _)%Z = true |- _ => apply Z.leb_le in H
  | H : (_ <=? _)%Z = false |- _ => apply Z.leb_gt in H
  | H : String.eqb _ _ = true |- _ => apply String.eqb_eq in H
  | H : String.eqb _ _ = false |- _ => apply String.eqb_neq in H
  | H : bool_decide _ = true |- _ => apply bool_decide_eq_true in H
  | H : bool_decide _ = false |- _ => apply bool_decide_eq_false in H
  end.

Ltac zify_bool := case_tests; bool_facts; subst; try lia.

(** ** Iterating over a map

    Go visits the entries of a map in an order of its own choosing; a loop over
    a map takes the order as an argument. *)

Definition iterates {A} (order : gmap string A -> list (string * A)) : Prop :=
  forall m, order m ≡ₚ map_to_list m.

Lemma iterates_NoDup {A} order (m : gmap string A) : iterates order -> NoDup (order m).*1.
Proof. intros Ho. rewrite (Ho m). apply NoDup_fst_map_to_list. Qed.

Lemma iterates_elem {A} order (m : gmap string A) k x : iterates order -> (k, x) ∈ order m <-> m !! k = Some x.
Proof. intros Ho. rewrite (Ho m). apply elem_of_map_to_list. Qed.

Lemma iterates_map_to_list {A} : iterates (fun m : gmap string A => map_to_list m).
Proof. by intros m. Qed.

(** ** Lists *)

Lemma not_elem_of_take {A} (x : A) n l : x ∉ l -> x ∉ take n l.
Proof. intros Hx. rewrite <- (take_drop n l) in Hx. set_solver. Qed.
