(* ===== verification/Clock.v ===== *)
(** The clock of the servers, src/internal/clock/clock.go.

    The other files take readings of the clock as arguments ([now]); this one has
    the interface they stand for and the manual clock of the tests.  Times are
    nanoseconds.  [Real] is the system's clock and has no definition here. *)

From S2P Require Import Prelude.

(** A clock that can be read, slept on and waited for; [After] is the time its
    channel delivers. *)
Class Clock (C : Type) := {
  Now : C -> Z;
  Sleep : Z -> C -> C;
  After : Z -> C -> Z * C;
}.

Record Fake := mkFake { current : Z }.

Definition NewFake (start : Z) : Fake := mkFake start.
Definition Fake_Now (f : Fake) : Z := current f.
Definition Advance (d : Z) (f : Fake) : Fake := mkFake (current f + d).
Definition Fake_Sleep (_ : Z) (f : Fake) : Fake := f.
Definition Fake_After (_ : Z) (f : Fake) : Z * Fake := (current f, f).

#[global] Instance Fake_clock : Clock Fake := { Now := Fake_Now; Sleep := Fake_Sleep; After := Fake_After }.

Inductive clock_op := DoAdvance (d : Z) | DoSleep (d : Z) | DoAfter (d : Z).

Definition clock_run (op : clock_op) (f : Fake) : Fake :=
  match op with
  | DoAdvance d => Advance d f
  | DoSleep d => Sleep d f
  | DoAfter d => (After d f).2
  end.

Definition advanced_by (op : clock_op) : Z := match op with DoAdvance d => d | _ => 0 end.

(** The manual clock moves by what it is advanced and by nothing else: sleeping
    and waiting return at once. *)
Lemma Fake_moves_by_Advance ops start :
  Now (foldl (fun f op => clock_run op f) (NewFake start) ops) = start + foldr (fun op n => advanced_by op + n) 0 ops.
Proof.
  revert start. induction ops as [|op ops IH]; intros start; [simpl; lia|].
  destruct op as [d|d|d]; simpl; [|apply IH|apply IH].
  pose proof (IH (start + d)) as E. unfold NewFake, Advance in *. simpl in *. rewrite E. lia.
Qed.
