(* ===== verification/Storage.v ===== *)
(** Key-value storage of one shard replica.

    [Storage] is the interface [storage.Storage] of
    src/internal/storage/storage.go with the laws its comments promise;
    [Store] is the in-memory engine of src/internal/storage/memory/memory.go.
    The laws describe every operation by its effect on the abstract state
    [Snapshot], a finite map, so that a client proved against the interface
    never looks inside an engine. *)

From S2P Require Import Prelude.

(** ** The interface *)

Class Storage (S : Type) := {
  storage_Get : S -> string -> option string;
  storage_Put : S -> string -> string -> S;
  storage_Delete : S -> string -> S;
  storage_Snapshot : S -> gmap string string;
  storage_ApplySnapshot : S -> gmap string string -> S;
  storage_Size : S -> nat;
}.

Class StorageLaws (S : Type) `{Storage S} : Prop := {
  storage_get_snapshot : forall s k, storage_Get s k = storage_Snapshot s !! k;
  storage_put_snapshot : forall s k v,
    storage_Snapshot (storage_Put s k v) = <[k := v]> (storage_Snapshot s);
  storage_delete_snapshot : forall s k,
    storage_Snapshot (storage_Delete s k) = delete k (storage_Snapshot s);
  storage_apply_snapshot : forall s m, storage_Snapshot (storage_ApplySnapshot s m) = m;
  storage_size_snapshot : forall s, storage_Size s = size (storage_Snapshot s);
}.

(** ** The in-memory engine *)

Record Store := mkStore { data : gmap string string }.

Definition Store_New : Store := mkStore ∅.

Definition Store_Get (s : Store) (key : string) : option string := data s !! key.

Definition Store_Put (s : Store) (key value : string) : Store :=
  mkStore (<[key := value]> (data s)).

Definition Store_Delete (s : Store) (key : string) : Store :=
  mkStore (delete key (data s)).

(** The Go code copies the map entry by entry into a fresh map. *)
Definition Store_Snapshot (s : Store) : gmap string string :=
  map_fold (fun k v snap => <[k := v]> snap) ∅ (data s).

Definition Store_ApplySnapshot (s : Store) (snap : gmap string string) : Store :=
  mkStore snap.

Definition Store_Size (s : Store) : nat := size (data s).

#[global] Instance Store_Storage : Storage Store := {
  storage_Get := Store_Get;
  storage_Put := Store_Put;
  storage_Delete := Store_Delete;
  storage_Snapshot := Store_Snapshot;
  storage_ApplySnapshot := Store_ApplySnapshot;
  storage_Size := Store_Size;
}.

(** ** The engine implements the interface *)

Lemma map_fold_insert_copy (m : gmap string string) :
  map_fold (fun k v snap => <[k := v]> snap) (∅ : gmap string string) m = m.
Proof.
  apply (map_fold_weak_ind (fun (r m : gmap string string) => r = m)); naive_solver.
Qed.

Lemma Store_Snapshot_data s : Store_Snapshot s = data s.
Proof. apply map_fold_insert_copy. Qed.
#[export] Hint Rewrite Store_Snapshot_data : doki_rw.

#[global] Instance Store_laws : StorageLaws Store.
Proof. split; intros; simpl; autorewrite with doki_rw; done. Qed.

(** ** Consequences for any engine *)

Section laws.
Context `{HS : StorageLaws St}.

Lemma storage_get_put s k v k' :
  storage_Get (storage_Put s k v) k' = if decide (k = k') then Some v else storage_Get s k'.
Proof. rewrite !storage_get_snapshot, storage_put_snapshot. apply lookup_insert. Qed.

Lemma storage_get_delete s k k' :
  storage_Get (storage_Delete s k) k' = if decide (k = k') then None else storage_Get s k'.
Proof. rewrite !storage_get_snapshot, storage_delete_snapshot. apply lookup_delete. Qed.
End laws.
