(* ===== verification/ReplicationLog.v ===== *)
(** The bounded in-memory replication log, src/internal/replicationlog.

    [Log] is the struct, one definition per method.  The abstract view of a
    replica's writes is a [history]: the unbounded list of applied entries with
    consecutive versions.  The log refines it as a bounded suffix window
    ([log_of]), and [Since] is shown to answer from the window exactly what the
    whole history would answer, or to refuse. *)

From S2P Require Import Prelude.

Record Entry := mkEntry {
  eTerm : Z;
  eVersion : Z;
  eOp : string;
  eKey : string;
  eValue : string;
}.

#[global] Instance Entry_eq_dec : EqDecision Entry.
Proof. solve_decision. Defined.

Record Log := mkLog { entries : list Entry; maxSize : Z }.

Definition Log_New (maxSize : Z) : Log :=
  mkLog [] (if maxSize <=? 0 then 1000 else maxSize).

Definition Log_Append (l : Log) (e : Entry) : Log :=
  let kept := if maxSize l <=? Z.of_nat (length (entries l))
              then tail (entries l) else entries l in
  mkLog (kept ++ [e]) (maxSize l).

Definition Log_Since (l : Log) (sinceVersion : Z) : list Entry * bool :=
  match entries l with
  | [] => ([], true)
  | e0 :: _ =>
      if u64_succ sinceVersion <? eVersion e0 then ([], false)
      else (filter (fun e => sinceVersion < eVersion e) (entries l), true)
  end.

Definition Log_Len (l : Log) : nat := length (entries l).

Definition Log_Reset (l : Log) : Log := mkLog [] (maxSize l).

Definition Log_OldestVersion (l : Log) : Z :=
  match entries l with [] => 0 | e :: _ => eVersion e end.

(** ** Histories *)

(** [contig b es]: the versions of [es] are [b+1], [b+2], ... *)
Fixpoint contig (b : Z) (es : list Entry) : Prop :=
  match es with
  | [] => True
  | e :: es => eVersion e = b + 1 /\ contig (b + 1) es
  end.

Lemma contig_app b xs ys :
  contig b (xs ++ ys) <-> contig b xs /\ contig (b + Z.of_nat (length xs)) ys.
Proof.
  revert b. induction xs as [|x xs IH]; intros b; simpl.
  - rewrite Z.add_0_r. tauto.
  - rewrite IH. replace (b + 1 + Z.of_nat (length xs)) with (b + Z.of_nat (S (length xs))) by lia.
    tauto.
Qed.

Lemma contig_lookup b es i e :
  contig b es -> es !! i = Some e -> eVersion e = b + 1 + Z.of_nat i.
Proof.
  revert b i. induction es as [|x es IH]; intros b i Hc Hi; [done|].
  destruct Hc as [Hx Hc]. destruct i as [|i]; simplify_eq/=; [lia|].
  rewrite (IH (b + 1) i) by done. lia.
Qed.

Lemma contig_filter_all b es v :
  contig b es -> v <= b -> filter (fun e => v < eVersion e) es = es.
Proof.
  revert b. induction es as [|x es IH]; intros b; [done|]. intros [Hx Hc] Hv.
  rewrite filter_cons_True by lia. f_equal. eapply IH; eauto; lia.
Qed.

Lemma contig_filter_none b es v :
  contig b es -> b + Z.of_nat (length es) <= v -> filter (fun e => v < eVersion e) es = [].
Proof.
  revert b. induction es as [|x es IH]; intros b; [done|]. simpl. intros [Hx Hc] Hv.
  rewrite filter_cons_False by lia. eapply IH; eauto; lia.
Qed.

(** The entries after version [v] are the entries after position [v - b]. *)
Lemma contig_filter_drop b es v :
  contig b es -> b <= v -> filter (fun e => v < eVersion e) es = drop (Z.to_nat (v - b)) es.
Proof.
  revert b. induction es as [|x es IH]; intros b; [by rewrite drop_nil|].
  intros [Hx Hc] Hv. destruct (decide (b = v)) as [->|].
  - rewrite Z.sub_diag. simpl. apply (contig_filter_all v); simpl; [done|lia].
  - rewrite filter_cons_False by lia. rewrite (IH (b + 1)) by (done || lia).
    replace (Z.to_nat (v - b)) with (S (Z.to_nat (v - (b + 1)))) by lia. done.
Qed.

(** ** The log is a bounded window on the history *)

(** [log_of base hist l]: the replica was last reset (by a snapshot, or at
    creation) at version [base], has since applied [hist], and [l] holds a
    suffix of [hist] of at most [maxSize l] entries. *)
Record log_of (base : Z) (hist : list Entry) (l : Log) : Prop := {
  lo_size : 0 < maxSize l;
  lo_contig : contig base hist;
  lo_suffix : entries l `suffix_of` hist;
  lo_bound : Z.of_nat (length (entries l)) <= maxSize l;
}.

Lemma log_of_new base n : log_of base [] (Log_New n).
Proof.
  unfold Log_New. split; simpl; try done; try lia.
  - case (Z.leb_spec n 0); lia.
  - case (Z.leb_spec n 0); lia.
Qed.

Lemma log_of_reset base base' hist l : log_of base hist l -> log_of base' [] (Log_Reset l).
Proof. intros []. split; simpl; try done; lia. Qed.

(** [ResetLog] empties the window without touching the history. *)
Lemma log_of_forget base hist l : log_of base hist l -> log_of base hist (Log_Reset l).
Proof. intros []. split; simpl; try done; [apply suffix_nil|lia]. Qed.

Lemma Log_Append_suffix l e : entries (Log_Append l e) `suffix_of` entries l ++ [e].
Proof.
  unfold Log_Append; simpl. apply suffix_app. destruct (maxSize l <=? _); [|reflexivity].
  destruct (entries l) as [|x xs]; simpl; [reflexivity|]. by exists [x].
Qed.

Lemma Log_Append_len l e :
  0 < maxSize l -> Z.of_nat (length (entries l)) <= maxSize l ->
  Z.of_nat (length (entries (Log_Append l e))) = Z.min (maxSize l) (Z.of_nat (length (entries l)) + 1).
Proof.
  intros. unfold Log_Append; simpl. rewrite length_app. simpl.
  destruct (Z.leb_spec (maxSize l) (Z.of_nat (length (entries l)))); [|lia].
  destruct (entries l); simpl in *; lia.
Qed.

Lemma log_of_append base hist l e :
  log_of base hist l -> eVersion e = base + Z.of_nat (length hist) + 1 ->
  log_of base (hist ++ [e]) (Log_Append l e).
Proof.
  intros [] He. split.
  - done.
  - apply contig_app. simpl. auto.
  - etrans; [apply Log_Append_suffix|]. by apply suffix_app.
  - rewrite Log_Append_len by done. simpl. lia.
Qed.
#[export] Hint Resolve log_of_new log_of_reset log_of_forget log_of_append : doki.

Lemma log_of_contig base hist l :
  log_of base hist l ->
  contig (base + Z.of_nat (length hist) - Z.of_nat (length (entries l))) (entries l).
Proof.
  intros [_ Hc [pre ->] _]. apply contig_app in Hc as [_ Hc]. rewrite length_app.
  replace (_ + _ - _) with (base + Z.of_nat (length pre)) by lia. done.
Qed.

(** ** Theorems *)

Lemma Log_Append_fold l es :
  entries l = [] -> 0 < maxSize l ->
  entries (fold_left Log_Append es l) = drop (length es - Z.to_nat (maxSize l)) es /\
  maxSize (fold_left Log_Append es l) = maxSize l.
Proof.
  intros Hnil Hpos. induction es as [|e es [IH1 IH2]] using rev_ind; [done|].
  rewrite fold_left_app. cbn [fold_left]. split; [|done].
  unfold Log_Append at 1. cbn [entries]. rewrite IH1, IH2, length_app, length_drop. cbn [length].
  set (m := maxSize l) in *.
  destruct (Z.leb_spec m (Z.of_nat (length es - (length es - Z.to_nat m)))).
  - rewrite drop_app_le by lia. f_equal.
    replace (length es + 1 - Z.to_nat m)%nat with ((length es - Z.to_nat m) + 1)%nat by lia.
    rewrite <- drop_drop. by destruct (drop _ es).
  - replace (length es - Z.to_nat m)%nat with 0%nat by lia.
    replace (length es + 1 - Z.to_nat m)%nat with 0%nat by lia. done.
Qed.

(** The window after a sequence of appends is exactly the last [maxSize]
    entries. *)
Lemma Log_Append_window (n : Z) (es : list Entry) :
  entries (fold_left Log_Append es (Log_New n)) =
    drop (length es - Z.to_nat (if n <=? 0 then 1000 else n)) es.
Proof. apply (Log_Append_fold (Log_New n)); [done|apply (log_of_new 0 n)]. Qed.

(** When [Since] answers with entries, the answer is exactly the part of the
    whole history after [v]; when it refuses, the entry [v+1] has been evicted. *)
Lemma Log_Since_complete base hist l v :
  log_of base hist l -> u64 v -> v < two64 - 1 -> entries l <> [] ->
  match Log_Since l v with
  | (res, true) => res = filter (fun e => v < eVersion e) hist
  | (res, false) => res = [] /\ v + 1 < Log_OldestVersion l /\
                    forall e, e ∈ entries l -> eVersion e <> v + 1
  end.
Proof.
  intros Hl Hv Hv' Hne. pose proof (log_of_contig _ _ _ Hl) as Hc.
  destruct Hl as [_ Hh [pre ->] _]. unfold Log_Since, Log_OldestVersion.
  destruct (entries l) as [|e0 es]; [done|]. rewrite u64_succ_lt by done.
  destruct (Z.ltb_spec (v + 1) (eVersion e0)) as [Hlt|Hge].
  - split_and!; [done..|]. intros e [i Hi]%list_elem_of_lookup.
    pose proof (contig_lookup _ _ _ _ Hc Hi). destruct Hc as [He0 _]. lia.
  - rewrite list.filter_app, (contig_filter_none base pre v); [done|by apply contig_app in Hh as []|].
    apply contig_app in Hh as [_ [He0 _]]. lia.
Qed.

(** C24: After any sequence of appends with consecutive versions, the log holds
    exactly the last [maxSize] of them; asked for what follows version [v], it
    answers with exactly the part of the whole sequence after [v], or refuses,
    and then the entry [v+1] is one it has evicted. *)
Theorem Log_answers (n : Z) (es : list Entry) base v :
  let l := fold_left Log_Append es (Log_New n) in
  contig base es -> es <> [] -> 0 <= v < two64 - 1 ->
  entries l = drop (length es - Z.to_nat (if n <=? 0 then 1000 else n)) es /\
  match Log_Since l v with
  | (res, true) => res = filter (fun e => v < eVersion e) es
  | (res, false) => res = [] /\ v + 1 < Log_OldestVersion l /\
                    forall e, e ∈ entries l -> eVersion e <> v + 1
  end.
Proof.
  intros l Hc Hne Hv. pose proof (Log_Append_window n es) as Hw. fold l in Hw. split; [done|].
  assert (Hsize : maxSize l = if n <=? 0 then 1000 else n).
  { apply (Log_Append_fold (Log_New n)); [done|apply (log_of_new 0 n)]. }
  set (m := if n <=? 0 then 1000 else n) in *.
  assert (Hm : 0 < m) by (subst m; destruct (Z.leb_spec n 0); lia).
  apply (Log_Since_complete base es l v); [|unfold u64; lia|lia|].
  - split; rewrite ?Hsize; [done|done| |].
    + rewrite Hw. apply suffix_drop.
    + rewrite Hw, length_drop. lia.
  - intros Hnil. apply (f_equal length) in Hnil. rewrite Hw, length_drop in Hnil. simpl in Hnil.
    destruct es; [done|]. simpl in Hnil. lia.
Qed.

Definition three_entries : list Entry :=
  [mkEntry 1 1 "put" "a" "1"; mkEntry 1 2 "put" "b" "2"; mkEntry 1 3 "delete" "a" ""].

Lemma Log_answers_witness :
  entries (fold_left Log_Append three_entries (Log_New 2)) = drop 1 three_entries /\
  Log_Since (fold_left Log_Append three_entries (Log_New 2)) 1 = (drop 1 three_entries, true) /\
  fst (Log_Since (fold_left Log_Append three_entries (Log_New 2)) 2) =
    filter (fun e => 2 < eVersion e) three_entries.
Proof.
  destruct (Log_answers 2 three_entries 0 2) as [H1 H2]; [by vm_compute|done|done|].
  split_and!; [exact H1|by vm_compute|].
  exact H2.
Defined.
