(* ===== verification/Strconv.v ===== *)
(** Bytes, and decimal numbers as package [strconv] reads and writes them. *)

From S2P Require Import Prelude.
From Stdlib Require Import Ascii.

Abbreviation bytes := (list ascii).

Definition bz (c : ascii) : Z := Z.of_N (N_of_ascii c).
Definition zb (z : Z) : ascii := ascii_of_N (Z.to_N z).

(** [between lo hi c]: the byte [c] is in a range. *)
Definition between (lo hi : Z) (c : ascii) : bool := (lo <=? bz c) && (bz c <=? hi).

Definition isdigit (c : ascii) : bool := between 48 57 c.

Definition of_str (s : string) : bytes := String.list_ascii_of_string s.
Definition to_str (b : bytes) : string := String.string_of_list_ascii b.

Lemma to_of_str s : to_str (of_str s) = s.
Proof. apply String.string_of_list_ascii_of_string. Qed.
Lemma of_to_str b : of_str (to_str b) = b.
Proof. apply String.list_ascii_of_string_of_list_ascii. Qed.
#[export] Hint Rewrite to_of_str of_to_str : doki_rw.

#[global] Instance of_str_inj : Inj (=) (=) of_str.
Proof. intros s t H. by rewrite <- (to_of_str s), H, to_of_str. Qed.

Lemma of_str_app s t : of_str (s +:+ t) = of_str s ++ of_str t.
Proof. induction s as [|c s IH]; [done|]. unfold of_str in *. simpl. by rewrite IH. Qed.

Lemma bz_range c : 0 <= bz c < 256.
Proof. unfold bz. pose proof (N_ascii_bounded c). lia. Qed.

Lemma bz_zb z : 0 <= z < 256 -> bz (zb z) = z.
Proof. intros. unfold bz, zb. rewrite N_ascii_embedding by lia. lia. Qed.

Lemma zb_bz c : zb (bz c) = c.
Proof. unfold bz, zb. rewrite N2Z.id. apply ascii_N_embedding. Qed.

(** ** Decimal *)

(** The value of a digit string, [acc] being the value of the digits before it. *)
Fixpoint dec_val (acc : Z) (s : bytes) : option Z :=
  match s with
  | [] => Some acc
  | c :: s' => if isdigit c then dec_val (acc * 10 + (bz c - 48)) s' else None
  end.

Fixpoint dec_digits (fuel : nat) (n : Z) (acc : bytes) : bytes :=
  match fuel with
  | O => acc
  | S f => if n <? 10 then zb (48 + n) :: acc
           else dec_digits f (n / 10) (zb (48 + n mod 10) :: acc)
  end.

(** [strconv.FormatUint(n, 10)]; twenty digits hold every [uint64]. *)
Definition FormatUint (n : Z) : bytes := dec_digits 20 n [].

(** [strconv.FormatInt(n, 10)] *)
Definition FormatInt (n : Z) : bytes :=
  if n <? 0 then "-"%char :: FormatUint (- n) else FormatUint n.

Inductive numerr := ErrSyntax | ErrRange.

(** [strconv.ParseUint(s, 10, 64)] *)
Definition ParseUint (s : bytes) : result numerr Z :=
  if decide (s = []) then Fail ErrSyntax
  else match dec_val 0 s with
       | None => Fail ErrSyntax
       | Some n => if n <? two64 then Ok n else Fail ErrRange
       end.

(** [strconv.ParseInt(s, 10, 64)] *)
Definition ParseInt (s : bytes) : result numerr Z :=
  let '(neg, digits) :=
    match s with
    | c :: r => if decide (c = "-"%char) then (true, r)
                else if decide (c = "+"%char) then (false, r) else (false, s)
    | [] => (false, s)
    end in
  match ParseUint digits with
  | Fail ErrSyntax => Fail ErrSyntax
  | Fail ErrRange => Fail ErrRange
  | Ok n =>
      if neg then if n <=? max_int64 + 1 then Ok (- n) else Fail ErrRange
      else if n <=? max_int64 then Ok n else Fail ErrRange
  end.

Lemma isdigit_zb d : 0 <= d < 10 -> isdigit (zb (48 + d)) = true.
Proof.
  intros. unfold isdigit, between. rewrite bz_zb by lia.
  apply andb_true_iff. split; apply Z.leb_le; lia.
Qed.

Lemma dec_val_digits fuel n acc :
  0 <= n < 10 ^ Z.of_nat fuel -> dec_val 0 (dec_digits fuel n acc) = dec_val n acc.
Proof.
  revert n acc. induction fuel as [|f IH]; intros n acc Hn.
  - simpl in *. by replace n with 0 by lia.
  - cbn [dec_digits]. destruct (Z.ltb_spec n 10).
    + cbn [dec_val]. rewrite isdigit_zb, bz_zb by lia. f_equal. lia.
    + rewrite IH. 2:{ split; [apply Z.div_pos; lia|]. apply Z.div_lt_upper_bound; [lia|].
        rewrite <- Z.pow_succ_r, <- Nat2Z.inj_succ by lia. lia. }
      pose proof (Z.mod_pos_bound n 10). cbn [dec_val]. rewrite isdigit_zb, bz_zb by lia.
      f_equal. pose proof (Z.div_mod n 10). lia.
Qed.

Lemma dec_digits_forall fuel n acc :
  0 <= n -> forallb isdigit acc = true -> forallb isdigit (dec_digits fuel n acc) = true.
Proof.
  revert n acc. induction fuel as [|f IH]; intros n acc Hn Ha; [done|].
  cbn [dec_digits]. pose proof (Z.mod_pos_bound n 10). pose proof (Z.div_pos n 10).
  destruct (Z.ltb_spec n 10); [|apply IH; [lia|]];
    cbn [forallb]; rewrite Ha, isdigit_zb by lia; done.
Qed.

Lemma dec_digits_length fuel n acc : (length acc <= length (dec_digits fuel n acc))%nat.
Proof.
  revert n acc. induction fuel as [|f IH]; intros n acc; cbn [dec_digits]; [done|].
  case_tests; cbn [length]; [lia|]. specialize (IH (n / 10) (zb (48 + n mod 10) :: acc)).
  cbn [length] in IH. lia.
Qed.

Lemma dec_digits_nonempty fuel n acc : dec_digits (S fuel) n acc <> [].
Proof.
  cbn [dec_digits]. case_tests; [done|]. intros H.
  pose proof (dec_digits_length fuel (n / 10) (zb (48 + n mod 10) :: acc)) as Hl.
  rewrite H in Hl. simpl in Hl. lia.
Qed.

Lemma FormatUint_val n : u64 n -> dec_val 0 (FormatUint n) = Some n.
Proof.
  intros [??]. unfold FormatUint. rewrite dec_val_digits; [done|]. unfold two64 in *.
  split; [done|]. etrans; [eassumption|]. done.
Qed.

Lemma FormatUint_digits n : u64 n -> forallb isdigit (FormatUint n) = true.
Proof. intros []. by apply dec_digits_forall. Qed.

Lemma FormatUint_nonempty n : FormatUint n <> [].
Proof. apply dec_digits_nonempty. Qed.

Lemma ParseUint_FormatUint n : u64 n -> ParseUint (FormatUint n) = Ok n.
Proof.
  intros Hn. unfold ParseUint. rewrite FormatUint_val by done.
  rewrite decide_False by apply FormatUint_nonempty.
  destruct Hn. by destruct (Z.ltb_spec n two64); [|lia].
Qed.

Lemma digit_not_sign c : isdigit c = true -> c <> "-"%char /\ c <> "+"%char.
Proof. intros H. split; intros ->; done. Qed.

Lemma FormatUint_head n : u64 n -> exists c r, FormatUint n = c :: r /\ isdigit c = true.
Proof.
  intros Hn. pose proof (FormatUint_nonempty n). pose proof (FormatUint_digits n Hn).
  destruct (FormatUint n) as [|c r]; [done|]. simpl in *. bool_facts. eauto.
Qed.

(** Every [int64] reads back as itself. *)
Lemma ParseInt_FormatInt n : int64 n -> ParseInt (FormatInt n) = Ok n.
Proof.
  unfold int64, FormatInt, ParseInt, max_int64, min_int64. intros Hn.
  destruct (Z.ltb_spec n 0).
  - rewrite decide_True by done. rewrite ParseUint_FormatUint by (unfold u64, two64; lia).
    destruct (Z.leb_spec (- n) (9223372036854775807 + 1)); [f_equal; lia|lia].
  - assert (Hu : u64 n) by (unfold u64, two64; lia).
    destruct (FormatUint_head n Hu) as (c & r & Hf & Hd). rewrite Hf.
    apply digit_not_sign in Hd as [? ?]. rewrite !decide_False by done. rewrite <- Hf.
    rewrite ParseUint_FormatUint by done.
    by destruct (Z.leb_spec n 9223372036854775807); [|lia].
Qed.

Lemma FormatInt_inj n m : int64 n -> int64 m -> FormatInt n = FormatInt m -> n = m.
Proof.
  intros Hn Hm Heq. pose proof (ParseInt_FormatInt n Hn) as H1.
  pose proof (ParseInt_FormatInt m Hm) as H2. rewrite Heq, H2 in H1. by simplify_eq.
Qed.
