(* ===== verification/Filepath.v ===== *)
(** [filepath.Join] and [filepath.Clean] (Unix), as the node builds the paths
    of its shard files with them. *)

From S2P Require Import Prelude Strconv.
From Stdlib Require Import Ascii.

Definition slash : ascii := "/"%char.

(** The components between slashes, empty ones included; [cur] is the current
    component, reversed. *)
Fixpoint split_from (cur : bytes) (s : bytes) : list bytes :=
  match s with
  | [] => [reverse cur]
  | c :: s' => if decide (c = slash) then reverse cur :: split_from [] s' else split_from (c :: cur) s'
  end.

Definition components (s : bytes) : list bytes := split_from [] s.

(** One component of [Clean]; [out] is the output so far, last component
    first. *)
Definition clean_step (rooted : bool) (out : list bytes) (comp : bytes) : list bytes :=
  if decide (comp = [] \/ comp = of_str ".") then out
  else if decide (comp = of_str "..") then
    match out with
    | [] => if rooted then [] else [comp]
    | top :: rest => if decide (top = of_str "..") then comp :: out else rest
    end
  else comp :: out.

Definition is_rooted (s : bytes) : bool :=
  match s with c :: _ => bool_decide (c = slash) | [] => false end.

Fixpoint join_slash (cs : list bytes) : bytes :=
  match cs with
  | [] => []
  | [c] => c
  | c :: cs' => c ++ slash :: join_slash cs'
  end.

Definition clean_components (s : bytes) : list bytes :=
  reverse (foldl (clean_step (is_rooted s)) [] (components s)).

Definition Clean (s : bytes) : bytes :=
  let cs := clean_components s in
  if is_rooted s then slash :: join_slash cs
  else match cs with [] => of_str "." | _ => join_slash cs end.

(** [filepath.Join(dir, name)]; empty elements are ignored. *)
Definition Join (dir name : string) : string :=
  let d := of_str dir in
  let n := of_str name in
  to_str (match d, n with
          | [], [] => []
          | [], _ => Clean n
          | _, [] => Clean d
          | _, _ => Clean (d ++ slash :: n)
          end).

(** A file name: one component that [Clean] keeps. *)
Definition simple_name (n : bytes) : Prop :=
  n <> [] /\ n <> of_str "." /\ n <> of_str ".." /\ slash ∉ n.

Lemma split_from_app cur s n :
  slash ∉ n -> split_from cur (s ++ slash :: n) = split_from cur s ++ [n].
Proof.
  intros Hn. assert (Hlast : forall m cur, slash ∉ m -> split_from cur m = [reverse cur ++ m]).
  { clear. induction m as [|c m IH]; intros cur Hm; simpl; [by rewrite app_nil_r|].
    rewrite decide_False by set_solver. rewrite IH by set_solver.
    by rewrite reverse_cons, <- (assoc_L (++)). }
  revert cur. induction s as [|c s IH]; intros cur; simpl.
  - by rewrite Hlast.
  - case_decide; by rewrite IH.
Qed.

Lemma clean_step_name rooted out n : simple_name n -> clean_step rooted out n = n :: out.
Proof. intros (?&?&?&?). unfold clean_step. rewrite !decide_False; naive_solver. Qed.

Lemma join_slash_snoc cs n :
  join_slash (cs ++ [n]) = (match cs with [] => [] | _ => join_slash cs ++ [slash] end) ++ n.
Proof.
  induction cs as [|c cs IH]; [done|]. destruct cs as [|c' cs].
  - simpl. by rewrite <- (assoc_L (++)).
  - change (join_slash ((c :: c' :: cs) ++ [n])) with (c ++ slash :: join_slash ((c' :: cs) ++ [n])).
    rewrite IH. change (join_slash (c :: c' :: cs)) with (c ++ slash :: join_slash (c' :: cs)).
    by rewrite <- !(assoc_L (++)).
Qed.

(** Joining keeps the file name as the end of the path, after a prefix that
    depends on the directory alone. *)
Lemma Join_suffix dir :
  exists pre, forall name, simple_name (of_str name) -> Join dir name = to_str (pre ++ of_str name).
Proof.
  unfold Join. destruct (of_str dir) as [|c d] eqn:Hd.
  - exists []. intros name Hn. pose proof Hn as (Hne & _ & _ & Hs).
    assert (Hsplit : components (of_str name) = [of_str name]).
    { unfold components. pose proof (split_from_app [] [] (of_str name) Hs) as H. simpl in H.
      by injection H. }
    assert (Hr : is_rooted (of_str name) = false).
    { destruct (of_str name) as [|a r]; [done|]. simpl. rewrite bool_decide_false; set_solver. }
    unfold Clean, clean_components. rewrite Hr, Hsplit. simpl. rewrite clean_step_name by done.
    destruct (of_str name); done.
  - set (s := c :: d).
    exists ((if is_rooted s then [slash] else []) ++
            match clean_components s with [] => [] | cs => join_slash cs ++ [slash] end).
    intros name Hn. pose proof Hn as (Hne & _ & _ & Hs).
    assert (Hc : clean_components (s ++ slash :: of_str name) = clean_components s ++ [of_str name]).
    { unfold clean_components, components. rewrite split_from_app, foldl_app by done. simpl.
      by rewrite clean_step_name, reverse_cons. }
    destruct (of_str name) as [|a r] eqn:Hname; [done|]. f_equal.
    unfold Clean. rewrite Hc, join_slash_snoc.
    change (is_rooted (s ++ slash :: a :: r)) with (is_rooted s).
    by destruct (is_rooted s), (clean_components s).
Qed.
