(* ===== verification/Fs.v ===== *)
(** The file system under a node's data directory, and programs over it.

    The Go code reaches the disk through [os.Create], [File.Write], [File.Sync],
    [os.Rename], [os.Remove], [os.Stat], [os.ReadFile] and [os.OpenFile].  A
    [World] is the content of the files together with a schedule that says, for
    each successive operation, whether it succeeds, returns an error, or is the
    point where the process dies.  A write that does not succeed may have put
    any prefix of its data on disk.  Process death is modelled, power loss is
    not: bytes handed to the kernel survive.

    Programs are in the state-and-error monad [M]: the state survives an error,
    as mutated Go objects do, and a [Crashed] outcome stops the program at once,
    skipping error handling and deferred cleanup. *)

From S2P Require Import Prelude Strconv.
From Stdlib Require Import Ascii.

Inductive fault := FOk | FErr (n : nat) | FCrash (n : nat).

Record World := mkWorld { files : gmap string bytes; sched : list fault }.
#[global] Instance World_eta : Eta World := fun w => mkWorld (files w) (sched w).

Inductive outcome (E A : Type) := Ret (a : A) | Err (e : E) | Crashed.
Arguments Ret {E A} a.
Arguments Err {E A} e.
Arguments Crashed {E A}.

(** ** The monad *)

Definition M (S E A : Type) : Type := S -> outcome E A * S.

Definition io_ret {S E A} (a : A) : M S E A := fun s => (Ret a, s).
Definition io_fail {S E A} (e : E) : M S E A := fun s => (Err e, s).
Definition io_bind {S E A B} (c : M S E A) (k : A -> M S E B) : M S E B := fun s =>
  match c s with
  | (Ret a, s') => k a s'
  | (Err e, s') => (Err e, s')
  | (Crashed, s') => (Crashed, s')
  end.
Definition io_get {S E} : M S E S := fun s => (Ret s, s).
Definition io_modify {S E} (f : S -> S) : M S E unit := fun s => (Ret tt, f s).

(** Run [c] and hand its error to the continuation instead of propagating it
    (the [if err := ...; err != nil] idiom); death still propagates. *)
Definition attempt {S E F A} (c : M S E A) : M S F (result E A) := fun s =>
  match c s with
  | (Ret a, s') => (Ret (Ok a), s')
  | (Err e, s') => (Ret (Fail e), s')
  | (Crashed, s') => (Crashed, s')
  end.

(** [_ = c]: the error is dropped. *)
Definition ignore {S E F A} (c : M S E A) : M S F unit :=
  io_bind (attempt c) (fun _ => io_ret tt).

(** Wrap an error ([fmt.Errorf] with [%w]). *)
Definition io_map_err {S E F A} (f : E -> F) (c : M S E A) : M S F A := fun s =>
  match c s with
  | (Ret a, s') => (Ret a, s')
  | (Err e, s') => (Err (f e), s')
  | (Crashed, s') => (Crashed, s')
  end.

(** Run a program on a component of the state. *)
Definition zoom {S T E A} (get : S -> T) (put : T -> S -> S) (c : M T E A) : M S E A := fun s =>
  let '(r, t) := c (get s) in (r, put t s).

Notation "'do' x <- c ; k" := (io_bind c (fun x => k))
  (at level 100, x pattern, c at next level, k at level 200, right associativity) : doki_scope.
Notation "'do_' c ; k" := (io_bind c (fun _ => k))
  (at level 100, c at next level, k at level 200, right associativity) : doki_scope.

(** ** Operations of package [os] *)

Inductive ioerr := EIO | ENotExist.

Abbreviation io := (M World ioerr).

(** One operation: [full] is its effect, [err n] what a failed attempt leaves,
    [crash n] what a death in the middle leaves. *)
Definition os_op (full : gmap string bytes -> gmap string bytes)
    (err crash : nat -> gmap string bytes -> gmap string bytes) : io unit := fun w =>
  match sched w with
  | [] => (Ret tt, mkWorld (full (files w)) [])
  | FOk :: s => (Ret tt, mkWorld (full (files w)) s)
  | FErr n :: s => (Err EIO, mkWorld (err n (files w)) s)
  | FCrash n :: s => (Crashed, mkWorld (crash n (files w)) s)
  end.

(** An operation with no intermediate state. *)
Definition os_atomic (full : gmap string bytes -> gmap string bytes) : io unit :=
  os_op full (fun _ fs => fs) (fun n fs => match n with O => fs | _ => full fs end).

Definition append_to (path : string) (data : bytes) (fs : gmap string bytes) : gmap string bytes :=
  <[path := default [] (fs !! path) ++ data]> fs.

Definition file_Write (path : string) (data : bytes) : io unit :=
  os_op (append_to path data) (fun n => append_to path (take n data))
        (fun n => append_to path (take n data)).

Definition os_Create (path : string) : io unit := os_atomic (fun fs => <[path := []]> fs).

Definition file_Truncate (path : string) : io unit := os_atomic (fun fs => <[path := []]> fs).

Definition file_Sync : io unit := os_atomic (fun fs => fs).

Definition file_Close : io unit := os_atomic (fun fs => fs).

Definition os_Remove (path : string) : io unit := fun w =>
  match files w !! path with
  | Some _ => os_atomic (fun fs => delete path fs) w
  | None => (Err ENotExist, w)
  end.

Definition rename_files (old new : string) (fs : gmap string bytes) : gmap string bytes :=
  match fs !! old with
  | Some d => <[new := d]> (delete old fs)
  | None => fs
  end.

Definition os_Rename (old new : string) : io unit := fun w =>
  match files w !! old with
  | Some _ => os_atomic (rename_files old new) w
  | None => (Err ENotExist, w)
  end.

(** [os.Stat(path)] used as an existence test. *)
Definition os_Stat (path : string) : io unit := fun w =>
  match os_atomic (fun fs => fs) w with
  | (Ret _, w') => (match files w !! path with Some _ => Ret tt | None => Err ENotExist end, w')
  | r => r
  end.

Definition os_ReadFile (path : string) : io bytes := fun w =>
  match os_atomic (fun fs => fs) w with
  | (Ret _, w') => (match files w !! path with Some d => Ret d | None => Err ENotExist end, w')
  | (Err e, w') => (Err e, w')
  | (Crashed, w') => (Crashed, w')
  end.

(** [os.OpenFile(path, O_CREATE|O_WRONLY|O_APPEND)]. *)
Definition os_OpenAppend (path : string) : io unit :=
  os_atomic (fun fs => match fs !! path with Some _ => fs | None => <[path := []]> fs end).

(** Directories are not represented: [os.MkdirAll] can only fail. *)
Definition os_MkdirAll (dir : string) : io unit := os_atomic (fun fs => fs).

(** ** Codecs

    What the disk layer relies on of [encoding/json]: a value accepted by
    [codec_ok] reads back, its encoding is a non-empty single line, and a
    strict prefix of an encoding (a torn write) does not decode. *)

Class Codec (A : Type) := {
  codec_enc : A -> bytes;
  codec_dec : bytes -> option A;
  codec_ok : A -> Prop;
}.

#[global] Arguments codec_enc : simpl never.
#[global] Arguments codec_dec : simpl never.

Definition newline : ascii := "010"%char.
Definition cr : ascii := "013"%char.

Class CodecLaws (A : Type) `{Codec A} : Prop := {
  codec_roundtrip : forall a : A, codec_ok a -> codec_dec (codec_enc a) = Some a;
  codec_no_newline : forall a : A, codec_ok a -> newline ∉ codec_enc a;
  codec_no_cr : forall a : A, codec_ok a -> cr ∉ codec_enc a;
  codec_nonempty : forall a : A, codec_ok a -> codec_enc a <> [];
  codec_torn : forall (a : A) n, codec_ok a -> (n < length (codec_enc a))%nat ->
    codec_dec (take n (codec_enc a)) = None;
}.

(** ** Reasoning about programs under every schedule

    [wp c Q s]: run from [s], the outcome and the final state of [c] satisfy
    [Q].  Each operation of package [os] has one rule, whose premises are its
    possible endings: success, an error, death before or after the effect. *)

Definition wp {S E A} (c : M S E A) (Q : outcome E A -> S -> Prop) (s : S) : Prop :=
  let '(o, s') := c s in Q o s'.

Section wp.
Context {S E : Type}.

Lemma wp_use {A} (c : M S E A) Q s o s' : wp c Q s -> c s = (o, s') -> Q o s'.
Proof. unfold wp. intros H Hc. by rewrite Hc in H. Qed.

Lemma wp_intro {A} (c : M S E A) (Q : outcome E A -> S -> Prop) s :
  (forall o s', c s = (o, s') -> Q o s') -> wp c Q s.
Proof. unfold wp. destruct (c s). eauto. Qed.

Lemma wp_mono {A} (c : M S E A) (Q R : outcome E A -> S -> Prop) s :
  wp c Q s -> (forall o s', Q o s' -> R o s') -> wp c R s.
Proof. unfold wp. destruct (c s). eauto. Qed.

Lemma wp_ret {A} (a : A) (Q : outcome E A -> S -> Prop) s : Q (Ret a) s -> wp (io_ret a) Q s.
Proof. done. Qed.

Lemma wp_fail {A} e (Q : outcome E A -> S -> Prop) s : Q (Err e) s -> wp (io_fail e) Q s.
Proof. done. Qed.

Lemma wp_get (Q : outcome E S -> S -> Prop) s : Q (Ret s) s -> wp io_get Q s.
Proof. done. Qed.

Lemma wp_modify f (Q : outcome E unit -> S -> Prop) s : Q (Ret tt) (f s) -> wp (io_modify f) Q s.
Proof. done. Qed.

Lemma wp_bind {A B} (c : M S E A) (k : A -> M S E B) Q s :
  wp c (fun o s' => match o with
                    | Ret a => wp (k a) Q s'
                    | Err e => Q (Err e) s'
                    | Crashed => Q Crashed s'
                    end) s ->
  wp (io_bind c k) Q s.
Proof. unfold wp, io_bind. by destruct (c s) as [[] ?]. Qed.

Lemma wp_attempt {F A} (c : M S F A) (Q : outcome E (result F A) -> S -> Prop) s :
  wp c (fun o s' => match o with
                    | Ret a => Q (Ret (Ok a)) s'
                    | Err e => Q (Ret (Fail e)) s'
                    | Crashed => Q Crashed s'
                    end) s ->
  wp (attempt c) Q s.
Proof. unfold wp, attempt. by destruct (c s) as [[] ?]. Qed.

Lemma wp_ignore {F A} (c : M S F A) (Q : outcome E unit -> S -> Prop) s :
  wp c (fun o s' => match o with Crashed => Q Crashed s' | _ => Q (Ret tt) s' end) s ->
  wp (ignore c) Q s.
Proof. unfold wp, ignore, io_bind, attempt. by destruct (c s) as [[] ?]. Qed.

Lemma wp_zoom {T A} (get : S -> T) put (c : M T E A) Q s :
  wp c (fun o t => Q o (put t s)) (get s) -> wp (zoom get put c) Q s.
Proof. unfold wp, zoom. by destruct (c (get s)). Qed.

Lemma wp_map_err {F A} (f : F -> E) (c : M S F A) Q s :
  wp c (fun o s' => match o with
                    | Ret a => Q (Ret a) s'
                    | Err e => Q (Err (f e)) s'
                    | Crashed => Q Crashed s'
                    end) s ->
  wp (io_map_err f c) Q s.
Proof. unfold wp, io_map_err. by destruct (c s) as [[] ?]. Qed.
End wp.

Lemma wp_op full err crash w (Q : outcome ioerr unit -> World -> Prop) :
  (forall sc, Q (Ret tt) (mkWorld (full (files w)) sc)) ->
  (forall n sc, Q (Err EIO) (mkWorld (err n (files w)) sc)) ->
  (forall n sc, Q Crashed (mkWorld (crash n (files w)) sc)) ->
  wp (os_op full err crash) Q w.
Proof. intros. unfold wp, os_op. by destruct (sched w) as [|[]]. Qed.

Lemma wp_atomic full w (Q : outcome ioerr unit -> World -> Prop) :
  (forall sc, Q (Ret tt) (mkWorld (full (files w)) sc)) ->
  (forall sc, Q (Err EIO) (mkWorld (files w) sc)) ->
  (forall sc, Q Crashed (mkWorld (files w) sc)) ->
  (forall sc, Q Crashed (mkWorld (full (files w)) sc)) ->
  wp (os_atomic full) Q w.
Proof. intros. apply wp_op; [done..|]. by intros [|n]. Qed.

(** An operation that leaves the files alone. *)
Lemma wp_skip w (Q : outcome ioerr unit -> World -> Prop) :
  (forall o sc, Q o (mkWorld (files w) sc)) -> wp (os_atomic (fun fs => fs)) Q w.
Proof. intros. by apply wp_atomic. Qed.

Lemma wp_Rename old new w (Q : outcome ioerr unit -> World -> Prop) :
  (forall sc, is_Some (files w !! old) -> Q (Ret tt) (mkWorld (rename_files old new (files w)) sc)) ->
  (forall e sc, Q (Err e) (mkWorld (files w) sc)) ->
  (forall sc, Q Crashed (mkWorld (files w) sc)) ->
  (forall sc, Q Crashed (mkWorld (rename_files old new (files w)) sc)) ->
  wp (os_Rename old new) Q w.
Proof.
  intros. unfold wp, os_Rename. destruct (files w !! old) eqn:Ho.
  - apply wp_atomic; eauto.
  - by destruct w.
Qed.

Lemma wp_Remove path w (Q : outcome ioerr unit -> World -> Prop) :
  (forall o sc, Q o (mkWorld (delete path (files w)) sc)) ->
  (forall o sc, o <> Ret tt -> Q o (mkWorld (files w) sc)) ->
  wp (os_Remove path) Q w.
Proof.
  intros. unfold wp, os_Remove. destruct (files w !! path) eqn:Ho.
  - apply wp_atomic; eauto.
  - destruct w. eauto.
Qed.

Lemma wp_Stat path w (Q : outcome ioerr unit -> World -> Prop) :
  (forall sc, is_Some (files w !! path) -> Q (Ret tt) (mkWorld (files w) sc)) ->
  (forall e sc, (e = ENotExist -> files w !! path = None) -> Q (Err e) (mkWorld (files w) sc)) ->
  (forall sc, Q Crashed (mkWorld (files w) sc)) ->
  wp (os_Stat path) Q w.
Proof.
  intros HR HE HC. unfold wp, os_Stat, os_atomic, os_op.
  destruct (sched w) as [|[|n|[|n]] sc]; simpl; eauto;
    try (apply HE; done); destruct (files w !! path) eqn:Hp; eauto.
Qed.

Lemma wp_ReadFile path w (Q : outcome ioerr bytes -> World -> Prop) :
  (forall d sc, files w !! path = Some d -> Q (Ret d) (mkWorld (files w) sc)) ->
  (forall e sc, (e = ENotExist -> files w !! path = None) -> Q (Err e) (mkWorld (files w) sc)) ->
  (forall sc, Q Crashed (mkWorld (files w) sc)) ->
  wp (os_ReadFile path) Q w.
Proof.
  intros HR HE HC. unfold wp, os_ReadFile, os_atomic, os_op.
  destruct (sched w) as [|[|n|[|n]] sc]; simpl; eauto;
    try (apply HE; done); destruct (files w !! path) eqn:Hp; eauto.
Qed.

(** On a disk that answers every request. *)
Definition healthy (fs : gmap string bytes) : World := mkWorld fs [].
