(* ===== verification/Config.v ===== *)
(** Configuration of the coordinator and of a node, src/internal/config.

    The YAML parser (gopkg.in/yaml.v3) is not part of the program: it is the
    argument [unmarshal] of the two parsers. *)

From S2P Require Import Prelude Strconv Fs.

Record CoordinatorConfig := mkCoordinatorConfig {
  ccAddress : string;
  ccHeartbeatInterval : Z;
  ccHeartbeatIntervalMs : Z;
  ccFailureTimeout : Z;
  ccFailureTimeoutMs : Z;
}.
#[global] Instance CoordinatorConfig_eta : Eta CoordinatorConfig := fun c =>
  mkCoordinatorConfig (ccAddress c) (ccHeartbeatInterval c) (ccHeartbeatIntervalMs c)
    (ccFailureTimeout c) (ccFailureTimeoutMs c).

Record NodeSpec := mkNodeSpec { nsID : string; nsAddress : string }.

Record ShardSpec := mkShardSpec {
  spID : string;
  spReplicas : list string;
  spInitialLeader : string;
}.

Record ReplicationConfig := mkReplicationConfig {
  rcQuorumTimeoutMs : Z;
  rcMaxLagVersions : Z;
  rcMaxBufferedVersions : Z;
}.
#[global] Instance ReplicationConfig_eta : Eta ReplicationConfig := fun c =>
  mkReplicationConfig (rcQuorumTimeoutMs c) (rcMaxLagVersions c) (rcMaxBufferedVersions c).

Record ClusterConfig := mkClusterConfig {
  clCoordinator : CoordinatorConfig;
  clNodes : list NodeSpec;
  clShards : list ShardSpec;
  clReplication : ReplicationConfig;
}.
#[global] Instance ClusterConfig_eta : Eta ClusterConfig := fun c =>
  mkClusterConfig (clCoordinator c) (clNodes c) (clShards c) (clReplication c).

Inductive cfgerr :=
| CfgRead
| CfgParse
| CfgNoCoordinatorAddress
| CfgNoNodes
| CfgNoShards
| CfgNodeID
| CfgNodeAddress (id : string)
| CfgShardID
| CfgShardReplicas (id : string)
| CfgUnknownReplica (shard replica : string)
| CfgUnknownLeader (shard leader : string)
| CfgNotFound (id : string)
| CfgNodeIDRequired
| CfgNodeAddressRequired
| CfgCoordinatorRequired
| CfgSnapshotInterval
| CfgSnapshotRetention.

Definition or_default (v d : Z) : Z := if v =? 0 then d else v.

(** [time.Duration(ms) * time.Millisecond] on [int64]. *)
Definition ms_duration (ms : Z) : Z := wrap_int64 (ms * millisecond).

(** ** The cluster configuration *)

Definition Cluster_applyDefaults (c : ClusterConfig) : ClusterConfig :=
  let co := clCoordinator c in
  let co := co <| ccHeartbeatIntervalMs := or_default (ccHeartbeatIntervalMs co) 500 |>
               <| ccFailureTimeoutMs := or_default (ccFailureTimeoutMs co) 1500 |> in
  let co := co <| ccHeartbeatInterval := ms_duration (ccHeartbeatIntervalMs co) |>
               <| ccFailureTimeout := ms_duration (ccFailureTimeoutMs co) |> in
  let re := clReplication c in
  let re := re <| rcQuorumTimeoutMs := or_default (rcQuorumTimeoutMs re) 1000 |>
               <| rcMaxLagVersions := or_default (rcMaxLagVersions re) 1000 |>
               <| rcMaxBufferedVersions := or_default (rcMaxBufferedVersions re) 100 |> in
  c <| clCoordinator := co |> <| clReplication := re |>.

(** The loop over [c.Nodes]: the set of known ids. *)
Fixpoint validate_nodes (ns : list NodeSpec) (ids : gset string) : result cfgerr (gset string) :=
  match ns with
  | [] => Ok ids
  | n :: ns' =>
      if decide (nsID n = "") then Fail CfgNodeID
      else if decide (nsAddress n = "") then Fail (CfgNodeAddress (nsID n))
      else validate_nodes ns' ({[nsID n]} ∪ ids)
  end.

Fixpoint validate_replicas (shard : string) (ids : gset string) (rs : list string) : result cfgerr unit :=
  match rs with
  | [] => Ok tt
  | r :: rs' => if decide (r ∈ ids) then validate_replicas shard ids rs'
                else Fail (CfgUnknownReplica shard r)
  end.

Fixpoint validate_shards (ids : gset string) (ss : list ShardSpec) : result cfgerr unit :=
  match ss with
  | [] => Ok tt
  | s :: ss' =>
      if decide (spID s = "") then Fail CfgShardID
      else if decide (spReplicas s = []) then Fail (CfgShardReplicas (spID s))
      else
        try _ <- validate_replicas (spID s) ids (spReplicas s);
        if decide (spInitialLeader s <> "" /\ spInitialLeader s ∉ ids)
        then Fail (CfgUnknownLeader (spID s) (spInitialLeader s))
        else validate_shards ids ss'
  end.

Definition Cluster_validate (c : ClusterConfig) : result cfgerr unit :=
  if decide (ccAddress (clCoordinator c) = "") then Fail CfgNoCoordinatorAddress
  else if decide (clNodes c = []) then Fail CfgNoNodes
  else if decide (clShards c = []) then Fail CfgNoShards
  else try ids <- validate_nodes (clNodes c) ∅; validate_shards ids (clShards c).

Definition ParseClusterConfig (unmarshal : bytes -> option ClusterConfig) (data : bytes)
    : result cfgerr ClusterConfig :=
  match unmarshal data with
  | None => Fail CfgParse
  | Some cfg => try _ <- Cluster_validate cfg; Ok (Cluster_applyDefaults cfg)
  end.

Definition LoadClusterConfig (unmarshal : bytes -> option ClusterConfig) (path : string)
    : M World cfgerr ClusterConfig :=
  do r <- attempt (os_ReadFile path);
  match r with
  | Fail _ => io_fail CfgRead
  | Ok data => match ParseClusterConfig unmarshal data with Ok c => io_ret c | Fail e => io_fail e end
  end.

Definition NodeByID (c : ClusterConfig) (id : string) : result cfgerr NodeSpec :=
  match find (fun n => bool_decide (nsID n = id)) (clNodes c) with
  | Some n => Ok n
  | None => Fail (CfgNotFound id)
  end.

(** ** The node configuration *)

Record NodeConfig := mkNodeConfig {
  ncNode : NodeSpec;
  ncCoordinatorAddress : string;
  ncDataDir : string;
  ncHeartbeatInterval : Z;
  ncHeartbeatIntervalMs : Z;
  ncQuorumTimeout : Z;
  ncQuorumTimeoutMs : Z;
  ncSnapshotInterval : Z;
  ncSnapshotRetention : Z;
  ncReplicationLogSize : Z;
  ncLeaderHeartbeatMs : Z;
  ncLeaderHeartbeat : Z;
  ncElectionTimeoutMinMs : Z;
  ncElectionTimeoutMaxMs : Z;
  ncElectionTimeoutMin : Z;
  ncElectionTimeoutMax : Z;
}.
#[global] Instance NodeConfig_eta : Eta NodeConfig := fun c =>
  mkNodeConfig (ncNode c) (ncCoordinatorAddress c) (ncDataDir c) (ncHeartbeatInterval c)
    (ncHeartbeatIntervalMs c) (ncQuorumTimeout c) (ncQuorumTimeoutMs c) (ncSnapshotInterval c)
    (ncSnapshotRetention c) (ncReplicationLogSize c) (ncLeaderHeartbeatMs c) (ncLeaderHeartbeat c)
    (ncElectionTimeoutMinMs c) (ncElectionTimeoutMaxMs c) (ncElectionTimeoutMin c)
    (ncElectionTimeoutMax c).

Definition Node_applyDefaults (c : NodeConfig) : NodeConfig :=
  let heartbeatMs := or_default (ncHeartbeatIntervalMs c) 500 in
  let quorumMs := or_default (ncQuorumTimeoutMs c) 500 in
  let leaderMs := or_default (ncLeaderHeartbeatMs c) 150 in
  let minMs := or_default (ncElectionTimeoutMinMs c) 300 in
  let maxMs := or_default (ncElectionTimeoutMaxMs c) 600 in
  {| ncNode := ncNode c;
     ncCoordinatorAddress := ncCoordinatorAddress c;
     ncDataDir := ncDataDir c;
     ncHeartbeatIntervalMs := heartbeatMs;
     ncHeartbeatInterval := or_default (ncHeartbeatInterval c) (ms_duration heartbeatMs);
     ncQuorumTimeoutMs := quorumMs;
     ncQuorumTimeout := or_default (ncQuorumTimeout c) (ms_duration quorumMs);
     ncSnapshotInterval := or_default (ncSnapshotInterval c) 100;
     ncSnapshotRetention := or_default (ncSnapshotRetention c) 2;
     ncReplicationLogSize := or_default (ncReplicationLogSize c) 1000;
     ncLeaderHeartbeatMs := leaderMs;
     ncLeaderHeartbeat := ms_duration leaderMs;
     ncElectionTimeoutMinMs := minMs;
     ncElectionTimeoutMaxMs := maxMs;
     ncElectionTimeoutMin := ms_duration minMs;
     ncElectionTimeoutMax := ms_duration maxMs |}.

Definition EnsureDefaults (c : NodeConfig) : NodeConfig := Node_applyDefaults c.

Definition Node_validate (c : NodeConfig) : result cfgerr unit :=
  if decide (nsID (ncNode c) = "") then Fail CfgNodeIDRequired
  else if decide (nsAddress (ncNode c) = "") then Fail CfgNodeAddressRequired
  else if decide (ncCoordinatorAddress c = "") then Fail CfgCoordinatorRequired
  else if ncSnapshotInterval c <? 0 then Fail CfgSnapshotInterval
  else if ncSnapshotRetention c <? 0 then Fail CfgSnapshotRetention
  else Ok tt.

Definition ParseNodeConfig (unmarshal : bytes -> option NodeConfig) (data : bytes)
    : result cfgerr NodeConfig :=
  match unmarshal data with
  | None => Fail CfgParse
  | Some cfg => try _ <- Node_validate cfg; Ok (Node_applyDefaults cfg)
  end.

Definition LoadNodeConfig (unmarshal : bytes -> option NodeConfig) (path : string)
    : M World cfgerr NodeConfig :=
  do r <- attempt (os_ReadFile path);
  match r with
  | Fail _ => io_fail CfgRead
  | Ok data => match ParseNodeConfig unmarshal data with Ok c => io_ret c | Fail e => io_fail e end
  end.

(** ** Facts *)

Lemma validate_nodes_ok ns ids ids' :
  validate_nodes ns ids = Ok ids' ->
  ids' = list_to_set (nsID <$> ns) ∪ ids /\ Forall (fun n => nsID n <> "" /\ nsAddress n <> "") ns.
Proof.
  revert ids. induction ns as [|n ns IH]; intros ids; simpl.
  - intros [= <-]. split; [set_solver|constructor].
  - repeat case_decide; try done. intros [-> Hf]%IH. split; [set_solver|]. by constructor.
Qed.

Lemma validate_nodes_accepts ns ids :
  Forall (fun n => nsID n <> "" /\ nsAddress n <> "") ns -> exists ids', validate_nodes ns ids = Ok ids'.
Proof.
  intros Hf. revert ids. induction Hf as [|n ns [Hid Hadr] _ IH]; intros ids; simpl; [eauto|].
  by rewrite !decide_False.
Qed.

Lemma validate_replicas_ok shard ids rs :
  validate_replicas shard ids rs = Ok tt <-> Forall (fun r => r ∈ ids) rs.
Proof.
  induction rs as [|r rs IH]; simpl; [by split|]. rewrite Forall_cons.
  case_decide; [rewrite IH; naive_solver|naive_solver].
Qed.

(** A shard the coordinator can be started with. *)
Definition shard_ok (ids : gset string) (s : ShardSpec) : Prop :=
  spID s <> "" /\ spReplicas s <> [] /\ Forall (fun r => r ∈ ids) (spReplicas s) /\
  (spInitialLeader s = "" \/ spInitialLeader s ∈ ids).

Lemma validate_shards_ok ids ss :
  validate_shards ids ss = Ok tt <-> Forall (shard_ok ids) ss.
Proof.
  induction ss as [|s ss IH]; simpl; [by split|]. rewrite Forall_cons. unfold shard_ok at 1.
  repeat case_decide; try naive_solver.
  - destruct (validate_replicas (spID s) ids (spReplicas s)) as [[]|] eqn:Hv; simpl.
    + naive_solver.
    + split; [done|]. intros ((_ & _ & Hr & _) & _). apply (validate_replicas_ok (spID s)) in Hr. congruence.
  - destruct (validate_replicas (spID s) ids (spReplicas s)) as [[]|] eqn:Hv; simpl.
    + apply validate_replicas_ok in Hv. rewrite IH. split; [|naive_solver]. intros. split_and!; try done.
      destruct (decide (spInitialLeader s = "")); [by left|right].
      destruct (decide (spInitialLeader s ∈ ids)); [done|]. exfalso. auto.
    + split; [done|]. intros ((_ & _ & Hr & _) & _). apply (validate_replicas_ok (spID s)) in Hr. congruence.
Qed.

(** A cluster configuration is accepted exactly when the coordinator has an
    address, there are nodes and shards, every node has an id and an address,
    and every shard has an id, at least one replica, only known nodes as
    replicas, and no initial leader or a known node as initial leader. *)
Theorem Cluster_validate_iff c :
  Cluster_validate c = Ok tt <->
  ccAddress (clCoordinator c) <> "" /\ clNodes c <> [] /\ clShards c <> [] /\
  Forall (fun n => nsID n <> "" /\ nsAddress n <> "") (clNodes c) /\
  Forall (shard_ok (list_to_set (nsID <$> clNodes c))) (clShards c).
Proof.
  unfold Cluster_validate. repeat case_decide; try naive_solver.
  rewrite result_bind_ok. split.
  - intros (ids & Hn & Hs). apply validate_nodes_ok in Hn as [-> Hf].
    rewrite union_empty_r_L in Hs. apply validate_shards_ok in Hs. done.
  - intros (_ & _ & _ & Hf & Hs). destruct (validate_nodes_accepts _ ∅ Hf) as [ids Hn].
    exists ids. split; [done|]. apply validate_nodes_ok in Hn as [-> _].
    rewrite union_empty_r_L. by apply validate_shards_ok.
Qed.

Lemma or_default_idem v d : or_default (or_default v d) d = or_default v d.
Proof. unfold or_default. by destruct (Z.eqb_spec v 0); [case_match|rewrite (proj2 (Z.eqb_neq _ _))]. Qed.

Lemma or_default_nonzero v d : d <> 0 -> or_default v d <> 0.
Proof. unfold or_default. destruct (Z.eqb_spec v 0); lia. Qed.

Lemma or_default_pos v d : 0 <= v -> 0 < d -> 0 < or_default v d.
Proof. unfold or_default. destruct (Z.eqb_spec v 0); lia. Qed.

(** Filling in the defaults a second time changes nothing, as [NewServer]
    does to a parsed configuration. *)
Theorem Node_applyDefaults_idem c : Node_applyDefaults (Node_applyDefaults c) = Node_applyDefaults c.
Proof. unfold Node_applyDefaults. simpl. by rewrite !or_default_idem. Qed.

(** A node configuration that parses has an identity, addresses and a
    snapshot interval and retention that [openDiskState] accepts; explicit
    values survive. *)
Theorem ParseNodeConfig_usable unmarshal data c :
  ParseNodeConfig unmarshal data = Ok c ->
  exists raw, unmarshal data = Some raw /\
    ncNode c = ncNode raw /\ nsID (ncNode c) <> "" /\ nsAddress (ncNode c) <> "" /\
    ncCoordinatorAddress c <> "" /\
    0 < ncSnapshotInterval c /\ 0 < ncSnapshotRetention c /\ ncReplicationLogSize c <> 0 /\
    (0 < ncSnapshotRetention raw -> ncSnapshotRetention c = ncSnapshotRetention raw).
Proof.
  unfold ParseNodeConfig. destruct (unmarshal data) as [raw|]; [|done].
  rewrite result_bind_ok. intros ([] & Hv & [= <-]). exists raw. split; [done|].
  unfold Node_validate in Hv. repeat case_decide; try done.
  destruct (Z.ltb_spec (ncSnapshotInterval raw) 0); [done|].
  destruct (Z.ltb_spec (ncSnapshotRetention raw) 0); [done|].
  split_and!; simpl; try done.
  - by apply or_default_pos.
  - by apply or_default_pos.
  - by apply or_default_nonzero.
  - unfold or_default. destruct (Z.eqb_spec (ncSnapshotRetention raw) 0); lia.
Qed.

Definition node_config1 : NodeConfig :=
  mkNodeConfig (mkNodeSpec "n1" "127.0.0.1:7001") "127.0.0.1:7000" "data" 0 0 0 0 0 3 0 0 0 0 0 0 0.

Lemma ParseNodeConfig_usable_witness :
  exists raw, Some node_config1 = Some raw /\
    ncNode (Node_applyDefaults node_config1) = ncNode raw /\
    nsID (ncNode (Node_applyDefaults node_config1)) <> "" /\
    nsAddress (ncNode (Node_applyDefaults node_config1)) <> "" /\
    ncCoordinatorAddress (Node_applyDefaults node_config1) <> "" /\
    0 < ncSnapshotInterval (Node_applyDefaults node_config1) /\
    0 < ncSnapshotRetention (Node_applyDefaults node_config1) /\
    ncReplicationLogSize (Node_applyDefaults node_config1) <> 0 /\
    (0 < ncSnapshotRetention raw ->
     ncSnapshotRetention (Node_applyDefaults node_config1) = ncSnapshotRetention raw).
Proof.
  apply (ParseNodeConfig_usable (fun _ => Some node_config1) []). by vm_compute.
Defined.

(** An initial leader that is not one of the shard's replicas is accepted. *)
Theorem validate_accepts_foreign_leader :
  Cluster_validate
    (mkClusterConfig (mkCoordinatorConfig "c" 0 0 0 0) [mkNodeSpec "n1" "a1"; mkNodeSpec "n2" "a2"]
       [mkShardSpec "s" ["n1"] "n2"] (mkReplicationConfig 0 0 0)) = Ok tt.
Proof. by vm_compute. Qed.
