(* ===== verification/Json.v ===== *)
(** JSON text as [encoding/json] (Go 1.24) writes and reads it.

    The write-ahead log, the snapshot files and the SQL rows are JSON.  This
    file models the text layer: [quote] is [appendString] with HTML escaping,
    [unquote] the scanner and [unquoteBytes], [print_json] the compact encoder
    and [parse_json] the checker and decoder over the generic value type
    [json].  Struct fields are matched in the files that own the structs.

    Go strings are byte strings: text that is not UTF-8 is written with the
    replacement escape, so the round trip holds for UTF-8 strings only. *)

From S2P Require Import Prelude Strconv Fs.
From Stdlib Require Import Ascii.

Definition dquote : ascii := "034"%char.
Definition backslash : ascii := "092"%char.

(** ** UTF-8 (package [unicode/utf8]) *)

Definition cont (c : ascii) : bool := between 128 191 c.

Definition seq2 (a b : ascii) : bool := between 194 223 a && cont b.

Definition seq3 (a b c : ascii) : bool :=
  ((bz a =? 224) && between 160 191 b
   || (between 225 236 a || between 238 239 a) && cont b
   || (bz a =? 237) && between 128 159 b) && cont c.

Definition seq4 (a b c d : ascii) : bool :=
  ((bz a =? 240) && between 144 191 b
   || between 241 243 a && cont b
   || (bz a =? 244) && between 128 143 b) && cont c && cont d.

Inductive utf8 : bytes -> Prop :=
| utf8_nil : utf8 []
| utf8_1 c s : (bz c <? 128) = true -> utf8 s -> utf8 (c :: s)
| utf8_2 a b s : (bz a <? 128) = false -> seq2 a b = true -> utf8 s -> utf8 (a :: b :: s)
| utf8_3 a b c s : (bz a <? 128) = false -> seq2 a b = false -> seq3 a b c = true ->
    utf8 s -> utf8 (a :: b :: c :: s)
| utf8_4 a b c d s : (bz a <? 128) = false -> seq2 a b = false -> seq3 a b c = false ->
    seq4 a b c d = true -> utf8 s -> utf8 (a :: b :: c :: d :: s).
#[export] Hint Constructors utf8 : doki.

(** [utf8.EncodeRune]; values that are not runes encode as U+FFFD. *)
Definition replacement : bytes := [zb 239; zb 191; zb 189].
Definition utf8_enc (r : Z) : bytes :=
  if (r <? 0) then replacement
  else if r <? 128 then [zb r]
  else if r <? 2048 then [zb (192 + r / 64); zb (128 + r mod 64)]
  else if (55296 <=? r) && (r <=? 57343) || (1114111 <? r) then replacement
  else if r <? 65536 then
    [zb (224 + r / 4096); zb (128 + r / 64 mod 64); zb (128 + r mod 64)]
  else [zb (240 + r / 262144); zb (128 + r / 4096 mod 64);
        zb (128 + r / 64 mod 64); zb (128 + r mod 64)].

(** ** Strings *)

Definition hexdig (n : Z) : ascii := if n <? 10 then zb (48 + n) else zb (87 + n).

Definition u00 (c : ascii) : bytes :=
  [backslash; "u"; "0"; "0"; hexdig (bz c / 16); hexdig (bz c mod 16)]%char.

Definition quote1 (c : ascii) : bytes :=
  if decide (c = dquote) then [backslash; dquote]
  else if decide (c = backslash) then [backslash; backslash]
  else if bz c =? 8 then [backslash; "b"%char]
  else if bz c =? 12 then [backslash; "f"%char]
  else if bz c =? 10 then [backslash; "n"%char]
  else if bz c =? 13 then [backslash; "r"%char]
  else if bz c =? 9 then [backslash; "t"%char]
  else if (bz c <? 32) || bool_decide (c = "<"%char) || bool_decide (c = ">"%char)
          || bool_decide (c = "&"%char) then u00 c
  else [c].

(** U+2028 and U+2029 are escaped although they are valid UTF-8. *)
Definition quote3 (a b c : ascii) : bytes :=
  if (bz a =? 226) && (bz b =? 128) && between 168 169 c
  then [backslash; "u"; "2"; "0"; "2"; hexdig (bz c mod 16)]%char
  else [a; b; c].

Definition bad_rune : bytes := [backslash; "u"; "f"; "f"; "f"; "d"]%char.

Fixpoint quote_body (s : bytes) : bytes :=
  match s with
  | [] => []
  | a :: s1 =>
      if bz a <? 128 then quote1 a ++ quote_body s1 else
      match s1 with
      | [] => bad_rune ++ quote_body s1
      | b :: s2 =>
          if seq2 a b then [a; b] ++ quote_body s2 else
          match s2 with
          | [] => bad_rune ++ quote_body s1
          | c :: s3 =>
              if seq3 a b c then quote3 a b c ++ quote_body s3 else
              match s3 with
              | [] => bad_rune ++ quote_body s1
              | d :: s4 =>
                  if seq4 a b c d then [a; b; c; d] ++ quote_body s4
                  else bad_rune ++ quote_body s1
              end
          end
      end
  end.

Definition quote (s : bytes) : bytes := dquote :: quote_body s ++ [dquote].
Arguments quote : simpl never.

Definition unhex (c : ascii) : option Z :=
  if between 48 57 c then Some (bz c - 48)
  else if between 97 102 c then Some (bz c - 87)
  else if between 65 70 c then Some (bz c - 55)
  else None.

Definition hex4 (a b c d : ascii) : option Z :=
  match unhex a, unhex b, unhex c, unhex d with
  | Some w, Some x, Some y, Some z => Some (w * 4096 + x * 256 + y * 16 + z)
  | _, _, _, _ => None
  end.

Definition is_surrogate (r : Z) : bool := (55296 <=? r) && (r <? 57344).

(** [utf16.DecodeRune]; [None] for an unpaired surrogate. *)
Definition utf16_decode (r1 r2 : Z) : option Z :=
  if (55296 <=? r1) && (r1 <? 56320) && (56320 <=? r2) && (r2 <? 57344)
  then Some ((r1 - 55296) * 1024 + (r2 - 56320) + 65536) else None.

Definition simple_escape (e : ascii) : option ascii :=
  if decide (e = dquote) then Some dquote
  else if decide (e = backslash) then Some backslash
  else if decide (e = "/"%char) then Some "/"%char
  else if decide (e = "b"%char) then Some (zb 8)
  else if decide (e = "f"%char) then Some (zb 12)
  else if decide (e = "n"%char) then Some (zb 10)
  else if decide (e = "r"%char) then Some (zb 13)
  else if decide (e = "t"%char) then Some (zb 9)
  else None.

Definition emit (x : bytes) (r : option (bytes * bytes)) : option (bytes * bytes) :=
  match r with Some (s, rest) => Some (x ++ s, rest) | None => None end.

(** [unquote s]: [s] starts just after an opening quote; the decoded content
    and what follows the closing quote. *)
Fixpoint unquote (s : bytes) : option (bytes * bytes) :=
  match s with
  | [] => None
  | a :: s1 =>
      if decide (a = dquote) then Some ([], s1)
      else if decide (a = backslash) then
        match s1 with
        | [] => None
        | e :: s2 =>
            if decide (e = "u"%char) then
              match s2 with
              | h1 :: h2 :: h3 :: h4 :: s6 =>
                  match hex4 h1 h2 h3 h4 with
                  | None => None
                  | Some r =>
                      if is_surrogate r then
                        match s6 with
                        | x :: y :: k1 :: k2 :: k3 :: k4 :: s12 =>
                            if decide (x = backslash /\ y = "u"%char) then
                              match hex4 k1 k2 k3 k4 with
                              | Some r2 =>
                                  match utf16_decode r r2 with
                                  | Some rr => emit (utf8_enc rr) (unquote s12)
                                  | None => emit replacement (unquote s6)
                                  end
                              | None => emit replacement (unquote s6)
                              end
                            else emit replacement (unquote s6)
                        | _ => emit replacement (unquote s6)
                        end
                      else emit (utf8_enc r) (unquote s6)
                  end
              | _ => None
              end
            else match simple_escape e with
                 | Some x => emit [x] (unquote s2)
                 | None => None
                 end
        end
      else if bz a <? 32 then None
      else if bz a <? 128 then emit [a] (unquote s1)
      else
        match s1 with
        | [] => emit replacement (unquote s1)
        | b :: s2 =>
            if seq2 a b then emit [a; b] (unquote s2) else
            match s2 with
            | [] => emit replacement (unquote s1)
            | c :: s3 =>
                if seq3 a b c then emit [a; b; c] (unquote s3) else
                match s3 with
                | [] => emit replacement (unquote s1)
                | d :: s4 =>
                    if seq4 a b c d then emit [a; b; c; d] (unquote s4)
                    else emit replacement (unquote s1)
                end
            end
        end
  end.

(** ** The string round trip *)

Lemma unquote_quote1 c rest :
  (bz c <? 128) = true -> unquote (quote1 c ++ rest) = emit [c] (unquote rest).
Proof.
  destruct c as [[] [] [] [] [] [] [] []]; intros H; vm_compute in H; try discriminate H; reflexivity.
Qed.

Lemma unquote_quote3 a b c rest :
  (bz a <? 128) = false -> seq2 a b = false -> seq3 a b c = true ->
  unquote (quote3 a b c ++ rest) = emit [a; b; c] (unquote rest).
Proof.
  intros Ha H2 H3. unfold quote3.
  assert (Hd : a <> dquote /\ a <> backslash) by (split; intros ->; done). destruct Hd.
  destruct ((bz a =? 226) && (bz b =? 128) && between 168 169 c) eqn:Hsep.
  - clear Ha H2 H3. destruct c as [[] [] [] [] [] [] [] []]; try (by rewrite andb_false_r in Hsep);
      bool_facts;
      (replace a with (zb 226) by (rewrite <- (ascii_N_embedding a); unfold zb, bz in *; f_equal; lia));
      (replace b with (zb 128) by (rewrite <- (ascii_N_embedding b); unfold zb, bz in *; f_equal; lia));
      reflexivity.
  - simpl. rewrite !decide_False by done.
    destruct (Z.ltb_spec (bz a) 32); [bool_facts; lia|]. by rewrite Ha, H2, H3.
Qed.

Lemma unquote_quote_body s rest :
  utf8 s -> unquote (quote_body s ++ dquote :: rest) = Some (s, rest).
Proof.
  induction 1 as [|c s Hc _ IH|a b s Ha Hb _ IH|a b c s Ha Hb Hc _ IH|a b c d s Ha Hb Hc Hd _ IH].
  - done.
  - simpl. by rewrite Hc, <- (assoc_L (++)), unquote_quote1, IH.
  - cbn [quote_body]. rewrite Ha, Hb. rewrite <- (assoc_L (++)).
    assert (a <> dquote /\ a <> backslash) as [? ?] by (split; intros ->; done).
    simpl. rewrite !decide_False by done.
    destruct (Z.ltb_spec (bz a) 32); [bool_facts; lia|]. by rewrite Ha, Hb, IH.
  - cbn [quote_body]. rewrite Ha, Hb, Hc, <- (assoc_L (++)). by rewrite unquote_quote3, IH.
  - cbn [quote_body]. rewrite Ha, Hb, Hc, Hd, <- (assoc_L (++)).
    assert (a <> dquote /\ a <> backslash) as [? ?] by (split; intros ->; done).
    simpl. rewrite !decide_False by done.
    destruct (Z.ltb_spec (bz a) 32); [bool_facts; lia|]. by rewrite Ha, Hb, Hc, Hd, IH.
Qed.

(** The encoder never puts a control character on the wire, whatever the
    bytes of the string. *)
Definition printable (c : ascii) : Prop := (32 <=? bz c) = true.

Lemma quote1_printable c : Forall printable (quote1 c).
Proof. destruct c as [[] [] [] [] [] [] [] []]; repeat constructor. Qed.

Lemma high_printable c : (128 <=? bz c) = true -> printable c.
Proof. unfold printable. intros. bool_facts. apply Z.leb_le. lia. Qed.

Lemma cont_printable c : cont c = true -> printable c.
Proof. unfold cont, between, printable. intros. bool_facts. apply Z.leb_le. lia. Qed.

Lemma quote3_printable a b c :
  printable a -> printable b -> printable c -> Forall printable (quote3 a b c).
Proof.
  intros. unfold quote3. case_tests; [|repeat constructor; done].
  repeat constructor. destruct c as [[] [] [] [] [] [] [] []]; done.
Qed.

Lemma seq2_printable a b : seq2 a b = true -> printable b.
Proof. unfold seq2. intros. bool_facts. by apply cont_printable. Qed.

Lemma between_printable lo hi c : 32 <= lo -> between lo hi c = true -> printable c.
Proof. unfold between, printable. intros. bool_facts. apply Z.leb_le. lia. Qed.

Lemma seq3_printable a b c : seq3 a b c = true -> printable b /\ printable c.
Proof.
  unfold seq3. intros H. bool_facts. split; [|by apply cont_printable].
  apply orb_true_iff in H as [[H|H]%orb_true_iff|H]; bool_facts;
    eauto using between_printable, cont_printable with lia.
  - by apply (between_printable 160 191).
  - by apply (between_printable 128 159).
Qed.

Lemma seq4_printable a b c d : seq4 a b c d = true -> printable b /\ printable c /\ printable d.
Proof.
  unfold seq4. intros H. bool_facts. split_and!; [|by apply cont_printable..].
  apply orb_true_iff in H as [[H|H]%orb_true_iff|H]; bool_facts.
  - by apply (between_printable 144 191).
  - by apply cont_printable.
  - by apply (between_printable 128 143).
Qed.

Lemma quote_body_printable s : Forall printable (quote_body s).
Proof.
  remember (length s) as n eqn:Hn. revert s Hn.
  induction n as [n IH] using lt_wf_ind. intros [|a s1] ->; [constructor|].
  assert (IH1 : forall t, (length t <= length s1)%nat -> Forall printable (quote_body t)).
  { intros t Ht. eapply IH; [|done]. simpl. lia. }
  assert (Hbad : Forall printable (bad_rune ++ quote_body s1)).
  { apply Forall_app. split; [repeat constructor|by apply IH1]. }
  cbn [quote_body]. destruct (bz a <? 128) eqn:Ha.
  { apply Forall_app. split; [apply quote1_printable|by apply IH1]. }
  assert (Hpa : printable a) by (apply high_printable; bool_facts; apply Z.leb_le; lia).
  destruct s1 as [|b s2]; [done|]. destruct (seq2 a b) eqn:H2.
  { apply seq2_printable in H2. repeat constructor; [done..|]. apply IH1. simpl. lia. }
  destruct s2 as [|c s3]; [done|]. destruct (seq3 a b c) eqn:H3.
  { apply seq3_printable in H3 as [? ?]. apply Forall_app. split; [by apply quote3_printable|].
    apply IH1. simpl. lia. }
  destruct s3 as [|d s4]; [done|]. destruct (seq4 a b c d) eqn:H4; [|done].
  apply seq4_printable in H4 as (?&?&?). repeat constructor; [done..|]. apply IH1. simpl. lia.
Qed.

(** ** Values *)

Inductive json :=
| JNull
| JBool (b : bool)
| JNum (lit : bytes)
| JStr (s : bytes)
| JArr (l : list json)
| JObj (ms : list (bytes * json)).

Definition isspace (c : ascii) : bool := (bz c =? 32) || (bz c =? 9) || (bz c =? 10) || (bz c =? 13).

Fixpoint skip_ws (s : bytes) : bytes :=
  match s with
  | c :: s' => if isspace c then skip_ws s' else s
  | [] => []
  end.

(** Characters that can occur in a number literal. *)
Definition numchar (c : ascii) : bool :=
  isdigit c || bool_decide (c = "-"%char) || bool_decide (c = "+"%char) || bool_decide (c = "."%char)
  || bool_decide (c = "e"%char) || bool_decide (c = "E"%char).

Fixpoint span (p : ascii -> bool) (s : bytes) : bytes * bytes :=
  match s with
  | c :: s' => if p c then let '(a, b) := span p s' in (c :: a, b) else ([], s)
  | [] => ([], [])
  end.

(** The number grammar: [-] (0 | 1-9 digits) [. digits] [e [+-] digits]. *)
Definition valid_exp (s : bytes) : bool :=
  match s with
  | [] => true
  | e :: r =>
      if bool_decide (e = "e"%char) || bool_decide (e = "E"%char) then
        let r := match r with
                 | c :: r' => if bool_decide (c = "-"%char) || bool_decide (c = "+"%char) then r' else r
                 | [] => r
                 end in
        match r with [] => false | _ => forallb isdigit r end
      else false
  end.

Definition valid_frac (s : bytes) : bool :=
  match s with
  | c :: r =>
      if bool_decide (c = "."%char) then
        match span isdigit r with
        | ([], _) => false
        | (_, r') => valid_exp r'
        end
      else valid_exp s
  | [] => true
  end.

Definition valid_number (s : bytes) : bool :=
  let s := match s with
           | c :: r => if bool_decide (c = "-"%char) then r else s
           | [] => s
           end in
  match s with
  | c :: r =>
      if bool_decide (c = "0"%char) then valid_frac r
      else if isdigit c then valid_frac (snd (span isdigit r))
      else false
  | [] => false
  end.

Fixpoint eat (w s : bytes) : option bytes :=
  match w, s with
  | [], _ => Some s
  | a :: w', b :: s' => if decide (a = b) then eat w' s' else None
  | _ :: _, [] => None
  end.

Fixpoint parse_value (fuel : nat) (s : bytes) : option (json * bytes) :=
  match fuel with
  | O => None
  | S f =>
      match skip_ws s with
      | [] => None
      | c :: s1 =>
          if decide (c = "{"%char) then
            match eat ["}"%char] (skip_ws s1) with
            | Some s2 => Some (JObj [], s2)
            | None => match parse_members f s1 with
                      | Some (ms, r) => Some (JObj ms, r)
                      | None => None
                      end
            end
          else if decide (c = "["%char) then
            match eat ["]"%char] (skip_ws s1) with
            | Some s2 => Some (JArr [], s2)
            | None => match parse_elems f s1 with
                      | Some (l, r) => Some (JArr l, r)
                      | None => None
                      end
            end
          else if decide (c = dquote) then
            match unquote s1 with Some (x, r) => Some (JStr x, r) | None => None end
          else if decide (c = "t"%char) then
            match eat (of_str "rue") s1 with Some r => Some (JBool true, r) | None => None end
          else if decide (c = "f"%char) then
            match eat (of_str "alse") s1 with Some r => Some (JBool false, r) | None => None end
          else if decide (c = "n"%char) then
            match eat (of_str "ull") s1 with Some r => Some (JNull, r) | None => None end
          else
            let '(lit, r) := span numchar (c :: s1) in
            if valid_number lit then Some (JNum lit, r) else None
      end
  end
with parse_members (fuel : nat) (s : bytes) : option (list (bytes * json) * bytes) :=
  match fuel with
  | O => None
  | S f =>
      match eat [dquote] (skip_ws s) with
      | None => None
      | Some s1 =>
          match unquote s1 with
          | None => None
          | Some (k, s2) =>
              match eat [":"%char] (skip_ws s2) with
              | None => None
              | Some s3 =>
                  match parse_value f s3 with
                  | None => None
                  | Some (v, s4) =>
                      match skip_ws s4 with
                      | [] => None
                      | c :: s5 =>
                          if decide (c = ","%char) then
                            match parse_members f s5 with
                            | Some (ms, r) => Some ((k, v) :: ms, r)
                            | None => None
                            end
                          else if decide (c = "}"%char) then Some ([(k, v)], s5)
                          else None
                      end
                  end
              end
          end
      end
  end
with parse_elems (fuel : nat) (s : bytes) : option (list json * bytes) :=
  match fuel with
  | O => None
  | S f =>
      match parse_value f s with
      | None => None
      | Some (v, s4) =>
          match skip_ws s4 with
          | [] => None
          | c :: s5 =>
              if decide (c = ","%char) then
                match parse_elems f s5 with
                | Some (l, r) => Some (v :: l, r)
                | None => None
                end
              else if decide (c = "]"%char) then Some ([v], s5)
              else None
          end
      end
  end.

(** [checkValid] and the decoder on a whole document. *)
Definition parse_json (s : bytes) : option json :=
  match parse_value (S (length s)) s with
  | Some (j, r) => match skip_ws r with [] => Some j | _ => None end
  | None => None
  end.

(** ** Printing *)

Section printing.
Context (print : json -> bytes).

Fixpoint print_members (ms : list (bytes * json)) : bytes :=
  match ms with
  | [] => []
  | [(k, v)] => quote k ++ ":"%char :: print v
  | (k, v) :: ms' => quote k ++ ":"%char :: print v ++ ","%char :: print_members ms'
  end.

Fixpoint print_elems (l : list json) : bytes :=
  match l with
  | [] => []
  | [v] => print v
  | v :: l' => print v ++ ","%char :: print_elems l'
  end.
End printing.

Fixpoint print_json (j : json) : bytes :=
  match j with
  | JNull => of_str "null"
  | JBool true => of_str "true"
  | JBool false => of_str "false"
  | JNum lit => lit
  | JStr s => quote s
  | JArr l => "["%char :: print_elems print_json l ++ ["]"%char]
  | JObj ms => "{"%char :: print_members print_json ms ++ ["}"%char]
  end.

(** ** The document round trip *)

Fixpoint wf_json (j : json) : Prop :=
  match j with
  | JNum lit => valid_number lit = true /\ forallb numchar lit = true
  | JStr s => utf8 s
  | JArr l => foldr (fun v acc => wf_json v /\ acc) True l
  | JObj ms => foldr (fun kv acc => (utf8 (fst kv) /\ wf_json (snd kv)) /\ acc) True ms
  | _ => True
  end.

(** What may follow a value without being read as part of it. *)
Definition delimited (rest : bytes) : Prop :=
  match rest with c :: _ => numchar c = false | [] => True end.

Lemma span_numchar lit rest :
  forallb numchar lit = true -> delimited rest -> span numchar (lit ++ rest) = (lit, rest).
Proof.
  induction lit as [|c lit IH]; simpl; intros H Hr.
  - destruct rest as [|c rest]; [done|]. simpl in *. by rewrite Hr.
  - bool_facts. rewrite H, IH; done.
Qed.

Lemma valid_number_head lit :
  valid_number lit = true -> exists c l, lit = c :: l /\ (c = "-"%char \/ isdigit c = true).
Proof.
  destruct lit as [|c l]; [done|]. intros H. exists c, l. split; [done|].
  unfold valid_number in H. case_bool_decide; [auto|].
  case_bool_decide; [subst; auto|]. destruct (isdigit c); auto.
Qed.

Lemma parse_number f lit rest :
  valid_number lit = true -> forallb numchar lit = true -> delimited rest ->
  parse_value (S f) (lit ++ rest) = Some (JNum lit, rest).
Proof.
  intros Hv Hn Hr. destruct (valid_number_head _ Hv) as (c & l & -> & Hc).
  pose proof (span_numchar _ _ Hn Hr) as Hs.
  assert (Hws : skip_ws ((c :: l) ++ rest) = (c :: l) ++ rest).
  { simpl. destruct Hc as [->|Hc]; [done|].
    destruct c as [[] [] [] [] [] [] [] []]; vm_compute in Hc; try discriminate Hc; reflexivity. }
  cbn [parse_value]. rewrite Hws. simpl app at 1. cbv beta iota.
  assert (Hne : forall d : ascii, d = "{"%char \/ d = "["%char \/ d = dquote \/ d = "t"%char
     \/ d = "f"%char \/ d = "n"%char -> c <> d).
  { intros d Hd ->. destruct Hc as [Hc|Hc]; naive_solver. }
  rewrite !decide_False by (apply Hne; tauto).
  change (c :: l ++ rest) with ((c :: l) ++ rest). by rewrite Hs, Hv.
Qed.

Lemma eat_app w s : eat w (w ++ s) = Some s.
Proof. induction w as [|a w IH]; simpl; [by destruct s|]. by rewrite decide_True. Qed.

(** The text of a value starts with neither white space nor a closing bracket. *)
Lemma print_json_head j :
  wf_json j -> exists c l, print_json j = c :: l /\ isspace c = false /\ c <> "]"%char /\ c <> "}"%char.
Proof.
  destruct j as [|[]|lit|s|l|ms]; simpl; intros Hwf; try (by eexists _, _).
  destruct Hwf as [Hv _]. apply valid_number_head in Hv as (c & l & -> & Hc).
  eexists _, _. split; [done|]. destruct Hc as [->|Hc]; [done|].
  destruct c as [[] [] [] [] [] [] [] []]; vm_compute in Hc; try discriminate Hc; done.
Qed.

Lemma print_members_cons p k v ms :
  ms <> [] -> print_members p ((k, v) :: ms) = quote k ++ ":"%char :: p v ++ ","%char :: print_members p ms.
Proof. by destruct ms. Qed.

Lemma print_elems_cons p v l : l <> [] -> print_elems p (v :: l) = p v ++ ","%char :: print_elems p l.
Proof. by destruct l. Qed.

Lemma parse_member_key f k s :
  utf8 k ->
  parse_members (S f) (quote k ++ ":"%char :: s) =
    match parse_value f s with
    | None => None
    | Some (v, s4) =>
        match skip_ws s4 with
        | [] => None
        | c :: s5 =>
            if decide (c = ","%char) then
              match parse_members f s5 with
              | Some (ms, r) => Some ((k, v) :: ms, r)
              | None => None
              end
            else if decide (c = "}"%char) then Some ([(k, v)], s5)
            else None
        end
    end.
Proof.
  intros Hk. cbn [parse_members]. unfold quote. simpl.
  rewrite <- (assoc_L (++)). simpl. by rewrite unquote_quote_body.
Qed.

Lemma parse_value_obj f s :
  parse_value (S f) ("{"%char :: s) =
    match eat ["}"%char] (skip_ws s) with
    | Some s2 => Some (JObj [], s2)
    | None => match parse_members f s with Some (ms, r) => Some (JObj ms, r) | None => None end
    end.
Proof. reflexivity. Qed.

Lemma parse_value_arr f s :
  parse_value (S f) ("["%char :: s) =
    match eat ["]"%char] (skip_ws s) with
    | Some s2 => Some (JArr [], s2)
    | None => match parse_elems f s with Some (l, r) => Some (JArr l, r) | None => None end
    end.
Proof. reflexivity. Qed.

Lemma parse_value_str f s :
  parse_value (S f) (dquote :: s) =
    match unquote s with Some (x, r) => Some (JStr x, r) | None => None end.
Proof. reflexivity. Qed.

Section roundtrip.
Context (f : nat)
  (IHv : forall j rest, wf_json j -> (length (print_json j) < f)%nat -> delimited rest ->
     parse_value f (print_json j ++ rest) = Some (j, rest))
  (IHm : forall ms rest, ms <> [] -> wf_json (JObj ms) ->
     (length (print_members print_json ms) < f)%nat ->
     parse_members f (print_members print_json ms ++ "}"%char :: rest) = Some (ms, rest))
  (IHe : forall l rest, l <> [] -> wf_json (JArr l) ->
     (S (length (print_elems print_json l)) < f)%nat ->
     parse_elems f (print_elems print_json l ++ "]"%char :: rest) = Some (l, rest)).

Lemma parse_value_step j rest :
  wf_json j -> (length (print_json j) < S f)%nat -> delimited rest ->
  parse_value (S f) (print_json j ++ rest) = Some (j, rest).
Proof using IHm IHe.
  destruct j as [|[]|lit|s|[|v l]|[|[k v] ms]]; try (intros; reflexivity).
  - intros [] ??. by apply parse_number.
  - intros Hs _ _. unfold print_json, quote. simpl app. rewrite parse_value_str.
    rewrite <- (assoc_L (++)). simpl. by rewrite unquote_quote_body.
  - intros Hwf Hlen _. pose proof Hwf as [Hv _].
    destruct (print_json_head v Hv) as (c & t & Hp & Hsp & Hc1 & Hc2).
    assert (Hhd : exists t', print_elems print_json (v :: l) = c :: t').
    { destruct l; simpl; rewrite Hp; eauto. } destruct Hhd as [t' Ht'].
    pose proof (IHe (v :: l) rest) as IH. cbn [print_json] in *.
    remember (print_elems print_json (v :: l)) as E. simpl app. rewrite parse_value_arr.
    rewrite <- (assoc_L (++)). simpl app.
    assert (eat ["]"%char] (skip_ws (E ++ "]"%char :: rest)) = None) as ->.
    { rewrite Ht'. simpl. rewrite Hsp. by rewrite decide_False. }
    rewrite IH; [done..|]. simpl in Hlen. rewrite length_app in Hlen. simpl in *. lia.
  - intros Hwf Hlen _.
    assert (Hhd : exists t', print_members print_json ((k, v) :: ms) = dquote :: t').
    { destruct ms; unfold print_members, quote; simpl; eauto. } destruct Hhd as [t' Ht'].
    pose proof (IHm ((k, v) :: ms) rest) as IH. cbn [print_json] in *.
    remember (print_members print_json ((k, v) :: ms)) as E. simpl app. rewrite parse_value_obj.
    rewrite <- (assoc_L (++)). simpl app.
    assert (eat ["}"%char] (skip_ws (E ++ "}"%char :: rest)) = None) as ->.
    { by rewrite Ht'. }
    rewrite IH; [done..|]. simpl in Hlen. rewrite length_app in Hlen. simpl in *. lia.
Qed.

Lemma parse_members_step ms rest :
  ms <> [] -> wf_json (JObj ms) -> (length (print_members print_json ms) < S f)%nat ->
  parse_members (S f) (print_members print_json ms ++ "}"%char :: rest) = Some (ms, rest).
Proof using IHv IHm.
  destruct ms as [|[k v] ms]; [done|]. intros _ [[Hk Hv] Hms] Hlen. simpl in Hk, Hv.
  destruct (decide (ms = [])) as [->|Hne].
  - cbn [print_members] in *. rewrite <- (assoc_L (++)). rewrite <- app_comm_cons, parse_member_key by done.
    rewrite length_app in Hlen. simpl in Hlen. by rewrite IHv by (done || lia).
  - rewrite print_members_cons in * by done.
    rewrite ?length_app, ?length_cons, ?length_app, ?length_cons in Hlen.
    rewrite <- (assoc_L (++)), <- app_comm_cons, parse_member_key by done.
    rewrite <- (assoc_L (++)). simpl. rewrite IHv by (done || lia). simpl.
    rewrite IHm by (done || lia). done.
Qed.

Lemma parse_elems_step l rest :
  l <> [] -> wf_json (JArr l) -> (S (length (print_elems print_json l)) < S f)%nat ->
  parse_elems (S f) (print_elems print_json l ++ "]"%char :: rest) = Some (l, rest).
Proof using IHv IHe.
  destruct l as [|v l]; [done|]. intros _ [Hv Hl] Hlen.
  destruct (decide (l = [])) as [->|Hne].
  - simpl in *. rewrite IHv by (done || lia). done.
  - rewrite print_elems_cons in * by done.
    rewrite !length_app in Hlen. simpl in Hlen.
    rewrite <- (assoc_L (++)). cbn [parse_elems]. simpl. rewrite IHv by (done || lia). simpl.
    rewrite IHe by (done || lia). done.
Qed.
End roundtrip.

Theorem parse_print_value fuel :
  (forall j rest, wf_json j -> (length (print_json j) < fuel)%nat -> delimited rest ->
     parse_value fuel (print_json j ++ rest) = Some (j, rest)) /\
  (forall ms rest, ms <> [] -> wf_json (JObj ms) ->
     (length (print_members print_json ms) < fuel)%nat ->
     parse_members fuel (print_members print_json ms ++ "}"%char :: rest) = Some (ms, rest)) /\
  (forall l rest, l <> [] -> wf_json (JArr l) ->
     (S (length (print_elems print_json l)) < fuel)%nat ->
     parse_elems fuel (print_elems print_json l ++ "]"%char :: rest) = Some (l, rest)).
Proof.
  induction fuel as [|f (IHv & IHm & IHe)]; [split_and!; intros; lia|].
  split_and!; intros;
    [by apply parse_value_step|by apply parse_members_step|by apply parse_elems_step].
Qed.

(** Every well-formed document reads back as itself. *)
Theorem parse_print_json j : wf_json j -> parse_json (print_json j) = Some j.
Proof.
  intros Hj. unfold parse_json.
  pose proof (proj1 (parse_print_value (S (length (print_json j)))) j [] Hj) as H.
  rewrite app_nil_r in H. rewrite H; [done|lia|done].
Qed.

(** ** Reading is not affected by what follows *)

(** The branch of [unquote] taken after a surrogate escape. *)
Definition after_surrogate (r : Z) (s6 : bytes) : option (bytes * bytes) :=
  match s6 with
  | x :: y :: k1 :: k2 :: k3 :: k4 :: s12 =>
      if decide (x = backslash /\ y = "u"%char) then
        match hex4 k1 k2 k3 k4 with
        | Some r2 =>
            match utf16_decode r r2 with
            | Some rr => emit (utf8_enc rr) (unquote s12)
            | None => emit replacement (unquote s6)
            end
        | None => emit replacement (unquote s6)
        end
      else emit replacement (unquote s6)
  | _ => emit replacement (unquote s6)
  end.

Lemma after_surrogate_plain r s :
  (forall s', s <> backslash :: "u"%char :: s') -> after_surrogate r s = emit replacement (unquote s).
Proof.
  intros H. unfold after_surrogate.
  destruct s as [|x [|y [|k1 [|k2 [|k3 [|k4 s12]]]]]]; try done.
  rewrite decide_False; [done|]. intros [-> ->]. by eapply H.
Qed.

Lemma emit_app x s r t (o o' : option (bytes * bytes)) :
  (forall y r, o = Some (y, r) -> o' = Some (y, r ++ t)) ->
  emit x o = Some (s, r) -> emit x o' = Some (s, r ++ t).
Proof.
  intros H. destruct o as [[y r']|]; simpl; [|done]. intros [= <- <-]. by rewrite (H y r').
Qed.

Lemma unquote_high s : Forall (fun c => (bz c <? 128) = false) s -> unquote s = None.
Proof.
  remember (length s) as n eqn:Hn. revert s Hn.
  induction n as [n IH] using lt_wf_ind. intros s -> Hs.
  assert (IH' : forall a t, suffix t s -> t <> s -> emit a (unquote t) = None).
  { intros a t [p ->] Hne. rewrite (IH (length t)); [done| |done|].
    - rewrite length_app. destruct p; [done|]. simpl. lia.
    - by apply Forall_app in Hs as []. }
  destruct s as [|a s1]; [done|]. apply Forall_cons in Hs as [Ha _].
  assert (a <> dquote /\ a <> backslash) as [? ?] by (split; intros ->; done).
  cbn [unquote]. rewrite !decide_False by done.
  destruct (Z.ltb_spec (bz a) 32); [done|]. rewrite Ha.
  assert (Hlen : forall u v : bytes, length u <> length v -> u <> v) by congruence.
  destruct s1 as [|b s2]; [done|]. destruct (seq2 a b).
  { apply IH'; [by exists [a; b]|apply Hlen; simpl; lia]. }
  assert (Hb : emit replacement (unquote (b :: s2)) = None).
  { apply IH'; [by exists [a]|apply Hlen; simpl; lia]. }
  destruct s2 as [|c s3]; [done|]. destruct (seq3 a b c).
  { apply IH'; [by exists [a; b; c]|apply Hlen; simpl; lia]. }
  destruct s3 as [|d s4]; [done|]. destruct (seq4 a b c d); [|done].
  apply IH'; [by exists [a; b; c; d]|apply Hlen; simpl; lia].
Qed.

Lemma between_high lo hi c : 128 <= lo -> between lo hi c = true -> (bz c <? 128) = false.
Proof. unfold between. intros. bool_facts. apply Z.ltb_ge. lia. Qed.

Lemma seq3_high a b c : seq3 a b c = true -> (bz b <? 128) = false.
Proof.
  unfold seq3, cont. intros H. bool_facts.
  apply orb_true_iff in H as [[H|H]%orb_true_iff|H]; bool_facts;
    (eapply between_high; [|eassumption]; lia).
Qed.

Lemma seq4_high a b c d : seq4 a b c d = true -> (bz b <? 128) = false /\ (bz c <? 128) = false.
Proof.
  unfold seq4, cont. intros H. bool_facts. split; [|eapply between_high; [|eassumption]; lia].
  apply orb_true_iff in H as [[H|H]%orb_true_iff|H]; bool_facts;
    (eapply between_high; [|eassumption]; lia).
Qed.

Lemma after_surrogate_app q s t x r :
  (forall u p z, (length u <= length s)%nat ->
     emit p (unquote u) = Some (x, z) -> emit p (unquote (u ++ t)) = Some (x, z ++ t)) ->
  after_surrogate q s = Some (x, r) -> after_surrogate q (s ++ t) = Some (x, r ++ t).
Proof.
  intros IH. destruct s as [|x1 [|x2 s']].
  - done.
  - destruct (decide (x1 = backslash)) as [->|Hx1]; [done|].
    rewrite (after_surrogate_plain q [x1]), (after_surrogate_plain q ([x1] ++ t))
      by (intros ? [=]; done). by apply IH.
  - destruct (decide (x1 = backslash /\ x2 = "u"%char)) as [[-> ->]|Hno].
    + destruct s' as [|k1 [|k2 [|k3 [|k4 s12]]]]; try done.
      unfold after_surrogate. cbn [app]. rewrite !decide_True by done.
      destruct (hex4 k1 k2 k3 k4) as [q2|]; [destruct (utf16_decode q q2)|];
        rewrite ?app_comm_cons; apply IH; simpl; lia.
    + rewrite (after_surrogate_plain q (x1 :: x2 :: s')), (after_surrogate_plain q (_ ++ t))
        by (intros ? [=]; naive_solver). by apply IH.
Qed.

Lemma unquote_app s t x r : unquote s = Some (x, r) -> unquote (s ++ t) = Some (x, r ++ t).
Proof.
  remember (length s) as n eqn:Hn. revert s x r Hn.
  induction n as [n IH] using lt_wf_ind. intros s x r ->.
  assert (IH' : forall u p z, (length u < length s)%nat ->
    emit p (unquote u) = Some (x, z) -> emit p (unquote (u ++ t)) = Some (x, z ++ t)).
  { intros u p z Hlt. apply emit_app. intros y r' Hy. by apply (IH (length u)). }
  destruct s as [|a s1]; [done|]. cbn [unquote app].
  case_decide; [by intros [= <- <-]|]. case_decide.
  { destruct s1 as [|e s2]; [done|]. cbn [app]. case_decide.
    - destruct s2 as [|h1 [|h2 [|h3 [|h4 s6]]]]; try done. cbn [app].
      destruct (hex4 h1 h2 h3 h4) as [q|]; [|done].
      destruct (is_surrogate q); [|apply IH'; simpl; lia].
      apply (after_surrogate_app q s6 t). intros u p z Hu. apply IH'. simpl. lia.
    - destruct (simple_escape e); [|done]. apply IH'; simpl; lia. }
  destruct (bz a <? 32); [done|]. destruct (bz a <? 128); [apply IH'; simpl; lia|].
  destruct s1 as [|b s2]; [done|]. cbn [app].
  destruct (seq2 a b); [apply IH'; simpl; lia|].
  pose proof (IH' (b :: s2) replacement r ltac:(simpl; lia)) as Hbad.
  destruct s2 as [|c s3].
  { intros Hx. destruct (bz b <? 128) eqn:Hb; [|by rewrite unquote_high in Hx by auto].
    apply Hbad in Hx. cbn [app] in *. destruct t as [|c t']; [done|].
    destruct (seq3 a b c) eqn:H3; [by rewrite (seq3_high _ _ _ H3) in Hb|].
    destruct t' as [|d t']; [done|].
    destruct (seq4 a b c d) eqn:H4; [by apply seq4_high in H4 as [H4 _]; rewrite H4 in Hb|done]. }
  cbn [app]. destruct (seq3 a b c); [apply IH'; simpl; lia|].
  destruct s3 as [|d s4].
  { intros Hx. apply Hbad in Hx as Hx'. cbn [app] in Hx' |- *. destruct t as [|d t']; [done|].
    destruct (seq4 a b c d) eqn:H4; [|done]. apply seq4_high in H4 as [? ?].
    by rewrite unquote_high in Hx by auto. }
  cbn [app]. destruct (seq4 a b c d); [apply IH'; simpl; lia|]. done.
Qed.

Lemma skip_ws_app s c s1 t : skip_ws s = c :: s1 -> skip_ws (s ++ t) = c :: s1 ++ t.
Proof.
  induction s as [|x s IH]; simpl; [done|]. destruct (isspace x); [done|]. by intros [= -> ->].
Qed.

Lemma eat_Some w s r : eat w s = Some r -> s = w ++ r.
Proof.
  revert s. induction w as [|a w IH]; intros [|b s]; simpl; try naive_solver.
  case_decide; [|done]. intros ?%IH. by subst.
Qed.

Lemma eat_ext w s r t : eat w s = Some r -> eat w (s ++ t) = Some (r ++ t).
Proof. intros ->%eat_Some. by rewrite <- (assoc_L (++)), eat_app. Qed.

Lemma eat_skip_ext a s r t :
  eat [a] (skip_ws s) = Some r -> eat [a] (skip_ws (s ++ t)) = Some (r ++ t).
Proof.
  intros H. pose proof (eat_Some _ _ _ H) as Hs. simpl in Hs.
  rewrite (skip_ws_app _ _ _ t Hs). simpl. by rewrite decide_True.
Qed.

Lemma span_ext p s lit r t : r <> [] -> span p s = (lit, r) -> span p (s ++ t) = (lit, r ++ t).
Proof.
  revert lit. induction s as [|c s IH]; intros lit Hr; simpl; [by intros [= <- <-]|].
  destruct (p c); [|by intros [= <- <-]].
  destruct (span p s) as [l' r'] eqn:Hs. intros [= <- <-]. by rewrite (IH l').
Qed.

Definition is_num (j : json) : bool := match j with JNum _ => true | _ => false end.

Section extension.
Context (f f' : nat) (t : bytes)
  (IHv : forall s j r, parse_value f s = Some (j, r) -> (r = [] -> is_num j = false) ->
     parse_value f' (s ++ t) = Some (j, r ++ t))
  (IHm : forall s ms r, parse_members f s = Some (ms, r) ->
     parse_members f' (s ++ t) = Some (ms, r ++ t))
  (IHe : forall s l r, parse_elems f s = Some (l, r) ->
     parse_elems f' (s ++ t) = Some (l, r ++ t)).

Lemma parse_members_head g s ms r :
  parse_members g s = Some (ms, r) -> exists s1, skip_ws s = dquote :: s1.
Proof.
  destruct g; [done|]. cbn [parse_members].
  destruct (eat [dquote] (skip_ws s)) eqn:He; [|done]. apply eat_Some in He. eauto.
Qed.

Lemma parse_elems_head g s l r :
  parse_elems g s = Some (l, r) -> exists c s1, skip_ws s = c :: s1 /\ (c <> "]"%char).
Proof.
  destruct g as [|[|g]]; [done..|]. cbn [parse_elems parse_value].
  destruct (skip_ws s) as [|c s1] eqn:Hs; [done|]. intros H. exists c, s1. split; [done|].
  intros ->. simpl in H. done.
Qed.

Lemma parse_value_ext s j r :
  parse_value (S f) s = Some (j, r) -> (r = [] -> is_num j = false) ->
  parse_value (S f') (s ++ t) = Some (j, r ++ t).
Proof using IHm IHe.
  cbn [parse_value]. destruct (skip_ws s) as [|c s1] eqn:Hs; [done|].
  rewrite (skip_ws_app _ _ _ t Hs). intros H Hnum. repeat case_decide.
  - destruct (eat ["}"%char] (skip_ws s1)) as [s2|] eqn:He.
    + rewrite (eat_skip_ext _ _ _ t He). by simplify_eq.
    + destruct (parse_members f s1) as [[ms r']|] eqn:Hm; [|done]. simplify_eq.
      destruct (parse_members_head _ _ _ _ Hm) as [s2 Hs2].
      rewrite (skip_ws_app _ _ _ t Hs2). simpl. by rewrite (IHm _ _ _ Hm).
  - destruct (eat ["]"%char] (skip_ws s1)) as [s2|] eqn:He.
    + rewrite (eat_skip_ext _ _ _ t He). by simplify_eq.
    + destruct (parse_elems f s1) as [[l r']|] eqn:Hm; [|done]. simplify_eq.
      destruct (parse_elems_head _ _ _ _ Hm) as (x & s2 & Hs2 & Hx).
      rewrite (skip_ws_app _ _ _ t Hs2). simpl. rewrite decide_False by done.
      by rewrite (IHe _ _ _ Hm).
  - destruct (unquote s1) as [[x r']|] eqn:Hu; [|done]. simplify_eq.
    by rewrite (unquote_app _ t _ _ Hu).
  - destruct (eat _ s1) as [r'|] eqn:He; [|done]. simplify_eq. by rewrite (eat_ext _ _ _ t He).
  - destruct (eat _ s1) as [r'|] eqn:He; [|done]. simplify_eq. by rewrite (eat_ext _ _ _ t He).
  - destruct (eat _ s1) as [r'|] eqn:He; [|done]. simplify_eq. by rewrite (eat_ext _ _ _ t He).
  - destruct (span numchar (c :: s1)) as [lit r'] eqn:Hsp.
    destruct (valid_number lit) eqn:Hv; [|done]. simplify_eq.
    assert (r <> []) by (intros ->; by specialize (Hnum eq_refl)).
    rewrite app_comm_cons, (span_ext _ _ _ _ t H Hsp). by rewrite Hv.
Qed.

Lemma parse_members_ext s ms r :
  parse_members (S f) s = Some (ms, r) -> parse_members (S f') (s ++ t) = Some (ms, r ++ t).
Proof using IHv IHm.
  cbn [parse_members].
  destruct (eat [dquote] (skip_ws s)) as [s1|] eqn:He; [|done]. rewrite (eat_skip_ext _ _ _ t He).
  destruct (unquote s1) as [[k s2]|] eqn:Hu; [|done]. rewrite (unquote_app _ t _ _ Hu).
  destruct (eat [":"%char] (skip_ws s2)) as [s3|] eqn:Hc; [|done]. rewrite (eat_skip_ext _ _ _ t Hc).
  destruct (parse_value f s3) as [[v s4]|] eqn:Hv; [|done].
  destruct (skip_ws s4) as [|c s5] eqn:Hs4; [done|].
  rewrite (IHv _ _ _ Hv) by (by intros ->). rewrite (skip_ws_app _ _ _ t Hs4).
  case_decide; [|case_decide; [|done]; by intros [= <- <-]].
  destruct (parse_members f s5) as [[ms' r']|] eqn:Hm; [|done]. rewrite (IHm _ _ _ Hm).
  by intros [= <- <-].
Qed.

Lemma parse_elems_ext s l r :
  parse_elems (S f) s = Some (l, r) -> parse_elems (S f') (s ++ t) = Some (l, r ++ t).
Proof using IHv IHe.
  cbn [parse_elems]. destruct (parse_value f s) as [[v s4]|] eqn:Hv; [|done].
  destruct (skip_ws s4) as [|c s5] eqn:Hs4; [done|].
  rewrite (IHv _ _ _ Hv) by (by intros ->). rewrite (skip_ws_app _ _ _ t Hs4).
  case_decide; [|case_decide; [|done]; by intros [= <- <-]].
  destruct (parse_elems f s5) as [[ms' r']|] eqn:Hm; [|done]. rewrite (IHe _ _ _ Hm).
  by intros [= <- <-].
Qed.
End extension.

(** More fuel and more input do not change what has been read. *)
Lemma parse_ext f f' t :
  (f <= f')%nat ->
  (forall s j r, parse_value f s = Some (j, r) -> (r = [] -> is_num j = false) ->
     parse_value f' (s ++ t) = Some (j, r ++ t)) /\
  (forall s ms r, parse_members f s = Some (ms, r) ->
     parse_members f' (s ++ t) = Some (ms, r ++ t)) /\
  (forall s l r, parse_elems f s = Some (l, r) ->
     parse_elems f' (s ++ t) = Some (l, r ++ t)).
Proof.
  revert f'. induction f as [|f IH]; intros [|f'] Hle; try (split_and!; done || lia).
  destruct (IH f') as (IHv & IHm & IHe); [lia|].
  split_and!; eauto using parse_value_ext, parse_members_ext, parse_elems_ext.
Qed.

(** A strict prefix of an encoded object is not a document. *)
Theorem torn_object ms n :
  wf_json (JObj ms) -> (n < length (print_json (JObj ms)))%nat ->
  parse_json (take n (print_json (JObj ms))) = None.
Proof.
  intros Hwf Hn. set (s := print_json (JObj ms)) in *.
  unfold parse_json. destruct (parse_value _ (take n s)) as [[j r]|] eqn:Hp; [|done].
  destruct (skip_ws r) eqn:Hr; [|done]. exfalso.
  assert (Hj : is_num j = false).
  { destruct n; [done|]. unfold s in Hp. cbn [print_json] in Hp. simpl take in Hp.
    rewrite parse_value_obj in Hp. by destruct (eat _ _); [|destruct (parse_members _ _) as [[]|]];
      simplify_eq. }
  pose proof (proj1 (parse_print_value (S (length s))) (JObj ms) [] Hwf ltac:(unfold s; lia) I) as Hv.
  rewrite app_nil_r in Hv. fold s in Hv. rewrite <- (take_drop n s) in Hv at 2.
  rewrite (proj1 (parse_ext (S (length (take n s))) (S (length s)) (drop n s)
    ltac:(rewrite length_take; lia)) _ _ _ Hp) in Hv by done.
  simplify_eq. assert (length (drop n s) = 0%nat) as Hd.
  { destruct (r ++ drop n s) eqn:Hz; [|done]. apply app_eq_nil in Hz as [_ ->]. done. }
  rewrite length_drop in Hd. lia.
Qed.
