(* ===== verification/JsonStruct.v ===== *)
(** Go structs and maps through [encoding/json]: field lookup, the decoders of
    the field types the program uses, and the laws a struct codec inherits from
    the document round trip. *)

From stdpp Require Import sorting.
From S2P Require Import Prelude Strconv Fs Json.
From Stdlib Require Import Ascii.

(** ** Decoding *)

(** [foldName]: ASCII letters fold to upper case; the only other runes with
    an ASCII fold are U+017F (long s) and U+212A (Kelvin sign). *)
Definition to_upper (c : ascii) : ascii := if between 97 122 c then zb (bz c - 32) else c.

Fixpoint fold_name (s : bytes) : bytes :=
  match s with
  | [] => []
  | a :: s1 =>
      match s1 with
      | [] => [to_upper a]
      | b :: s2 =>
          if (bz a =? 197) && (bz b =? 191) then "S"%char :: fold_name s2
          else match s2 with
               | [] => to_upper a :: fold_name s1
               | c :: s3 =>
                   if (bz a =? 226) && (bz b =? 132) && (bz c =? 170) then "K"%char :: fold_name s3
                   else to_upper a :: fold_name s1
               end
      end
  end.

(** A struct field: its JSON name and the assignment of a decoded value. *)
Record field (A : Type) := mkField { fname : string; fset : json -> A -> option A }.
Arguments mkField {A} fname fset.
Arguments fname {A} f.
Arguments fset {A} f j a.

Section struct.
Context {A : Type}.

Definition find_field (fs : list (field A)) (k : bytes) : option (field A) :=
  match find (fun f => bool_decide (of_str (fname f) = k)) fs with
  | Some f => Some f
  | None => find (fun f => bool_decide (fold_name (of_str (fname f)) = fold_name k)) fs
  end.

(** Members in order; unknown names are skipped; any mistyped value makes the
    whole call an error. *)
Fixpoint set_members (fs : list (field A)) (ms : list (bytes * json)) (a : A) : option A :=
  match ms with
  | [] => Some a
  | (k, v) :: ms' =>
      match find_field fs k with
      | None => set_members fs ms' a
      | Some f => match fset f v a with
                  | Some a' => set_members fs ms' a'
                  | None => None
                  end
      end
  end.

(** [json.Unmarshal(s, &a)] from the zero value. *)
Definition unmarshal_struct (fs : list (field A)) (zero : A) (s : bytes) : option A :=
  match parse_json s with
  | Some (JObj ms) => set_members fs ms zero
  | Some JNull => Some zero
  | _ => None
  end.
End struct.

Definition set_uint {A} (set : Z -> A -> A) (j : json) (a : A) : option A :=
  match j with
  | JNull => Some a
  | JNum lit => match ParseUint lit with Ok n => Some (set n a) | Fail _ => None end
  | _ => None
  end.

Definition set_int {A} (set : Z -> A -> A) (j : json) (a : A) : option A :=
  match j with
  | JNull => Some a
  | JNum lit => match ParseInt lit with Ok n => Some (set n a) | Fail _ => None end
  | _ => None
  end.

Definition set_string {A} (set : string -> A -> A) (j : json) (a : A) : option A :=
  match j with
  | JNull => Some a
  | JStr s => Some (set (to_str s) a)
  | _ => None
  end.

(** A [map[string]string]: the members are added in order; [null] for an
    element leaves the zero value. *)
Fixpoint add_strings (ms : list (bytes * json)) (m : gmap string string) : option (gmap string string) :=
  match ms with
  | [] => Some m
  | (k, JStr v) :: ms' => add_strings ms' (<[to_str k := to_str v]> m)
  | (k, JNull) :: ms' => add_strings ms' (<[to_str k := EmptyString]> m)
  | _ => None
  end.

Definition set_string_map {A} (get : A -> gmap string string) (set : gmap string string -> A -> A)
    (j : json) (a : A) : option A :=
  match j with
  | JNull => Some (set ∅ a)
  | JObj ms => match add_strings ms (get a) with Some m => Some (set m a) | None => None end
  | _ => None
  end.

(** ** Encoding *)

Definition j_uint (n : Z) : json := JNum (FormatUint n).
Definition j_int (n : Z) : json := JNum (FormatInt n).
Definition j_string (s : string) : json := JStr (of_str s).

(** Maps are written with their keys sorted. *)
Definition key_le {V} (x y : string * V) : Prop := String.leb (fst x) (fst y) = true.
#[global] Instance key_le_dec {V} (x y : string * V) : Decision (key_le x y).
Proof. unfold key_le. apply _. Defined.

Definition sorted_members {V} (m : gmap string V) : list (string * V) :=
  merge_sort key_le (map_to_list m).

Definition j_string_map (m : gmap string string) : json :=
  JObj ((fun kv => (of_str (fst kv), j_string (snd kv))) <$> sorted_members m).

(** [utf8_str s]: [s] is valid UTF-8, so that JSON carries it unchanged. *)
Definition utf8_str (s : string) : Prop := utf8 (of_str s).

Ltac utf8_ascii := repeat first [apply utf8_nil | apply utf8_1; [reflexivity|]].

(** ** Laws *)

Lemma sorted_members_perm {V} (m : gmap string V) : sorted_members m ≡ₚ map_to_list m.
Proof. apply merge_sort_Permutation. Qed.

Lemma sorted_members_NoDup {V} (m : gmap string V) : NoDup ((sorted_members m).*1).
Proof. rewrite sorted_members_perm. apply NoDup_fst_map_to_list. Qed.

Lemma foldl_insert_app {V} (l : list (string * V)) (m : gmap string V) :
  NoDup l.*1 -> foldl (fun m kv => <[fst kv := snd kv]> m) m l = list_to_map l ∪ m.
Proof.
  revert m. induction l as [|[k v] l IH]; intros m Hnd; simpl in *.
  - by rewrite map_empty_union.
  - apply NoDup_cons in Hnd as [Hk Hnd]. rewrite IH by done.
    rewrite <- insert_union_r; [by rewrite <- insert_union_l|]. by apply not_elem_of_list_to_map.
Qed.

Lemma foldl_insert_sorted {V} (m : gmap string V) :
  foldl (fun m kv => <[fst kv := snd kv]> m) ∅ (sorted_members m) = m.
Proof.
  rewrite foldl_insert_app by apply sorted_members_NoDup.
  rewrite map_union_empty, (list_to_map_proper _ _ (sorted_members_NoDup m) (sorted_members_perm m)).
  apply list_to_map_to_list.
Qed.

Lemma add_strings_foldl l m :
  add_strings ((fun kv => (of_str (fst kv), j_string (snd kv))) <$> l) m =
    Some (foldl (fun m kv => <[fst kv := snd kv]> m) m l).
Proof.
  revert m. induction l as [|[k v] l IH]; intros m; simpl; [done|]. by rewrite IH, !to_of_str.
Qed.

Lemma add_strings_members (m : gmap string string) :
  add_strings ((fun kv => (of_str (fst kv), j_string (snd kv))) <$> sorted_members m) ∅ = Some m.
Proof. by rewrite add_strings_foldl, foldl_insert_sorted. Qed.

Definition utf8_map (m : gmap string string) : Prop :=
  map_Forall (fun k v => utf8_str k /\ utf8_str v) m.

Lemma foldr_Forall {A} (P : A -> Prop) l : foldr (fun v acc => P v /\ acc) True l <-> Forall P l.
Proof. induction l; simpl; rewrite ?Forall_cons; naive_solver. Qed.

Lemma wf_members ms :
  wf_json (JObj ms) <-> Forall (fun kv => utf8 (fst kv) /\ wf_json (snd kv)) ms.
Proof. apply (foldr_Forall (fun kv => utf8 (fst kv) /\ wf_json (snd kv))). Qed.

Lemma wf_string_map m : utf8_map m -> wf_json (j_string_map m).
Proof.
  intros Hm. apply wf_members, Forall_fmap, Forall_forall. intros [k v] Hin.
  rewrite sorted_members_perm in Hin. apply elem_of_map_to_list in Hin. by apply Hm in Hin.
Qed.

Lemma dec_digits_lead fuel n acc :
  0 < n < 10 ^ Z.of_nat fuel -> exists c r, dec_digits fuel n acc = c :: r /\ c <> "0"%char.
Proof.
  revert n acc. induction fuel as [|f IH]; intros n acc Hn; [simpl in Hn; lia|].
  cbn [dec_digits]. destruct (Z.ltb_spec n 10).
  - eexists _, _. split; [done|]. intros Hc. apply (f_equal bz) in Hc. rewrite bz_zb in Hc by lia.
    change (bz "0"%char) with 48 in Hc. lia.
  - apply IH. split; [apply Z.div_str_pos; lia|]. apply Z.div_lt_upper_bound; [lia|].
    rewrite <- Z.pow_succ_r, <- Nat2Z.inj_succ by lia. lia.
Qed.

Lemma span_all p s : forallb p s = true -> span p s = (s, []).
Proof. induction s as [|c s IH]; simpl; [done|]. intros. bool_facts. by rewrite H, IH. Qed.

Lemma valid_number_digits c r :
  forallb isdigit (c :: r) = true -> (c = "0"%char -> r = []) -> valid_number (c :: r) = true.
Proof.
  intros Hd Hz. simpl in Hd. bool_facts. unfold valid_number.
  pose proof (digit_not_sign c H) as [? ?]. rewrite bool_decide_false by done.
  case_bool_decide; [by rewrite Hz|]. by rewrite H, span_all.
Qed.

Lemma digits_numchar s : forallb isdigit s = true -> forallb numchar s = true.
Proof.
  induction s as [|c s IH]; simpl; [done|]. intros. bool_facts. unfold numchar at 1. by rewrite H, IH.
Qed.

Lemma FormatUint_valid n :
  u64 n -> valid_number (FormatUint n) = true /\ forallb numchar (FormatUint n) = true.
Proof.
  intros Hn. pose proof (FormatUint_digits n Hn) as Hd. split; [|by apply digits_numchar].
  destruct (decide (n = 0)) as [->|Hz]; [done|].
  destruct (dec_digits_lead 20 n []) as (c & r & Hf & Hc).
  { unfold u64, two64 in Hn. split; [lia|]. etrans; [apply Hn|done]. }
  unfold FormatUint in *. rewrite Hf in *. by apply valid_number_digits.
Qed.

Lemma wf_uint n : u64 n -> wf_json (j_uint n).
Proof. apply FormatUint_valid. Qed.

Lemma wf_string s : utf8_str s -> wf_json (j_string s).
Proof. done. Qed.

Lemma wf_int n : int64 n -> wf_json (j_int n).
Proof.
  unfold int64, max_int64, min_int64. intros Hn. unfold j_int, FormatInt.
  destruct (Z.ltb_spec n 0); [|apply FormatUint_valid; unfold u64, two64; lia].
  destruct (FormatUint_valid (- n)) as [Hv Hc]; [unfold u64, two64; lia|].
  destruct (FormatUint_head (- n)) as (c & r & Hf & Hd); [unfold u64, two64; lia|].
  rewrite Hf in *. pose proof (digit_not_sign c Hd) as [? ?].
  split; [|by simpl in *]. unfold valid_number in *. by rewrite bool_decide_false in Hv.
Qed.

Lemma set_uint_j {A} (set : Z -> A -> A) n a : u64 n -> set_uint set (j_uint n) a = Some (set n a).
Proof. intros. unfold set_uint, j_uint. by rewrite ParseUint_FormatUint. Qed.

Lemma set_int_j {A} (set : Z -> A -> A) n a : int64 n -> set_int set (j_int n) a = Some (set n a).
Proof. intros. unfold set_int, j_int. by rewrite ParseInt_FormatInt. Qed.

Lemma set_string_j {A} (set : string -> A -> A) s a : set_string set (j_string s) a = Some (set s a).
Proof. unfold set_string, j_string. by rewrite to_of_str. Qed.

Lemma set_string_map_j {A} get (set : gmap string string -> A -> A) m a :
  get a = ∅ -> set_string_map get set (j_string_map m) a = Some (set m a).
Proof. intros Hg. unfold set_string_map, j_string_map. by rewrite Hg, add_strings_members. Qed.

(** The encoding of a well-formed value is one line of printable bytes. *)
Lemma numchar_printable c : numchar c = true -> printable c.
Proof. destruct c as [[] [] [] [] [] [] [] []]; done. Qed.

Lemma quote_printable s : Forall printable (quote s).
Proof.
  apply Forall_cons. split; [done|]. apply Forall_app. split; [apply quote_body_printable|].
  repeat constructor.
Qed.

Lemma print_members_printable (p : json -> bytes) ms :
  Forall (fun kv => Forall printable (p (snd kv))) ms -> Forall printable (print_members p ms).
Proof.
  induction 1 as [|[k v] ms Hv _ IH]; [constructor|]. simpl in Hv.
  destruct ms as [|kv ms];
    [change (print_members p [(k, v)]) with (quote k ++ ":"%char :: p v)
    |rewrite print_members_cons by done];
    apply Forall_app; (split; [apply quote_printable|]).
  - apply Forall_cons. by split.
  - apply Forall_cons. split; [done|]. apply Forall_app. split; [done|]. apply Forall_cons. by split.
Qed.

Lemma print_elems_printable (p : json -> bytes) l :
  Forall (fun v => Forall printable (p v)) l -> Forall printable (print_elems p l).
Proof.
  induction 1 as [|v l Hv _ IH]; [constructor|].
  destruct l as [|w l]; [done|]. rewrite print_elems_cons by done. apply Forall_app. split; [done|]. apply Forall_cons. by split.
Qed.

Lemma bracket_printable a b s :
  printable a -> printable b -> Forall printable s -> Forall printable (a :: s ++ [b]).
Proof. intros. apply Forall_cons. split; [done|]. apply Forall_app. by repeat constructor. Qed.

Lemma print_json_printable j : wf_json j -> Forall printable (print_json j).
Proof.
  revert j. fix IH 1. intros [|[]|lit|s|l|ms]; simpl.
  1-3: repeat constructor.
  - intros [_ Hn]. clear IH. induction lit as [|c lit IHl]; simpl in *; bool_facts; constructor;
      auto using numchar_printable.
  - intros _. apply quote_printable.
  - intros Hl. apply bracket_printable; [done..|]. apply print_elems_printable.
    induction l as [|v l IHl]; constructor; destruct Hl; auto.
  - intros Hl. apply bracket_printable; [done..|]. apply print_members_printable.
    induction ms as [|[k v] ms IHl]; constructor; destruct Hl as [[? ?] ?]; simpl; auto.
Qed.

Lemma printable_not_elem c s : (32 <=? bz c) = false -> Forall printable s -> c ∉ s.
Proof. intros Hc Hs Hin. rewrite Forall_forall in Hs. apply Hs in Hin. unfold printable in Hin. congruence. Qed.

Lemma set_members_cons {A} (fs : list (field A)) k v ms a f a' :
  find_field fs k = Some f -> fset f v a = Some a' ->
  set_members fs ((k, v) :: ms) a = set_members fs ms a'.
Proof. intros Hf Hv. simpl. by rewrite Hf, Hv. Qed.

(** Well-formedness and assignment of the members of a concrete struct. *)
Ltac struct_wf :=
  apply wf_members;
  repeat (apply Forall_cons; split;
          [split; [utf8_ascii|cbn [snd]; auto using wf_uint, wf_int, wf_string, wf_string_map]|]);
  try apply Forall_nil_2.

Ltac struct_set :=
  repeat (erewrite set_members_cons;
          [|reflexivity
           |cbn [fset]; (apply set_uint_j || apply set_int_j || apply set_string_j
                         || apply set_string_map_j); done]);
  try reflexivity.

(** The laws of [Codec] for a type encoded as an object. *)
Lemma struct_codec_laws {A} `{Codec A} (members : A -> list (bytes * json)) fs zero :
  (forall a, codec_enc a = print_json (JObj (members a))) ->
  (forall s, codec_dec s = unmarshal_struct fs zero s) ->
  (forall a, codec_ok a -> wf_json (JObj (members a)) /\ set_members fs (members a) zero = Some a) ->
  CodecLaws A.
Proof.
  intros He Hd Hok. constructor; intros a; [| | | |intros n]; intros Ha; rewrite He;
    destruct (Hok a Ha) as [Hwf Hset].
  - rewrite Hd. unfold unmarshal_struct. by rewrite parse_print_json.
  - by apply printable_not_elem, print_json_printable.
  - by apply printable_not_elem, print_json_printable.
  - done.
  - intros Hn. rewrite Hd. unfold unmarshal_struct. by rewrite torn_object.
Qed.

#[global] Arguments print_json : simpl never.
#[global] Arguments unmarshal_struct : simpl never.
