(* ===== verification/Wal.v ===== *)
(** The write-ahead log of a shard, src/internal/wal/wal.go.

    A log file is one JSON object per line.  [WAL_Append] goes through a
    [json.Encoder], which hands the whole line to one [Write] call and refuses
    every later [Encode] once a write has failed ([encErr]); [WAL_Truncate]
    replaces the encoder.  [ReadAll] goes through a [bufio.Scanner], which
    splits on newlines, drops a trailing carriage return, and stops at a line
    of [maxScanTokenSize] bytes or more; the scanner's error is not consulted. *)

From S2P Require Import Prelude Strconv Fs Json JsonStruct.
From Stdlib Require Import Ascii.

Record WalEntry := mkWalEntry {
  wTerm : Z;
  wVersion : Z;
  wOp : string;
  wKey : string;
  wValue : string;
}.

#[global] Instance WalEntry_eq_dec : EqDecision WalEntry.
Proof. solve_decision. Defined.

Record WAL := mkWAL { walFilePath : string; encErr : bool }.

(** ** [bufio.Scanner] with the default line splitter *)

Definition maxScanTokenSize : Z := 65536.

Definition dropCR (line : bytes) : bytes :=
  match last line with
  | Some c => if decide (c = cr) then take (length line - 1) line else line
  | None => line
  end.

Definition too_long (line : bytes) : bool := maxScanTokenSize <=? Z.of_nat (length line).

(** [cur] is the current line so far, reversed. *)
Fixpoint scan_from (cur : bytes) (d : bytes) : list bytes :=
  match d with
  | [] =>
      match cur with
      | [] => []
      | _ => if too_long cur then [] else [dropCR (reverse cur)]
      end
  | c :: d' =>
      if decide (c = newline)
      then if too_long cur then [] else dropCR (reverse cur) :: scan_from [] d'
      else scan_from (c :: cur) d'
  end.

Definition scan_lines (d : bytes) : list bytes := scan_from [] d.

Section wal.
Context `{Codec WalEntry}.

(** ** Operations *)

Definition WAL_Open (path : string) : io WAL :=
  do_ os_OpenAppend path; io_ret (mkWAL path false).

Definition on_world {T E A} (c : M World E A) : M (T * World) E A :=
  zoom snd (fun w s => (fst s, w)) c.

(** [enc.Encode(e)] *)
Definition encoder_Encode (e : WalEntry) : M (WAL * World) ioerr unit := fun s =>
  if encErr (fst s) then (Err EIO, s)
  else match on_world (file_Write (walFilePath (fst s)) (codec_enc e ++ [newline])) s with
       | (Err x, (w, W)) => (Err x, (mkWAL (walFilePath w) true, W))
       | r => r
       end.

Definition WAL_Append (e : WalEntry) : M (WAL * World) ioerr unit :=
  do_ encoder_Encode e; on_world file_Sync.

Definition WAL_Truncate : M (WAL * World) ioerr unit :=
  do s <- io_get;
  do_ on_world (file_Truncate (walFilePath (fst s)));
  io_modify (fun s => (mkWAL (walFilePath (fst s)) false, snd s)).

Definition WAL_Close : M (WAL * World) ioerr unit := on_world file_Close.

(** The decoding loop of [ReadAll] over the scanner's lines. *)
Fixpoint decode_lines (lines : list bytes) : list WalEntry :=
  match lines with
  | [] => []
  | [] :: rest => decode_lines rest
  | line :: rest =>
      match codec_dec line with
      | Some e => e :: decode_lines rest
      | None => []
      end
  end.

(** Reading through the scanner: an error after [n] bytes ends the scan there. *)
Definition file_ReadSome (path : string) : io bytes := fun w =>
  let d := default [] (files w !! path) in
  match sched w with
  | [] => (Ret d, w)
  | FOk :: s => (Ret d, mkWorld (files w) s)
  | FErr n :: s => (Ret (take n d), mkWorld (files w) s)
  | FCrash _ :: s => (Crashed, mkWorld (files w) s)
  end.

Definition ReadAll (path : string) : io (list WalEntry) :=
  do opened <- attempt (os_Stat path);
  match opened with
  | Fail ENotExist => io_ret []
  | Fail e => io_fail e
  | Ok _ =>
      do d <- file_ReadSome path;
      do_ ignore (E := ioerr) file_Close;
      io_ret (decode_lines (scan_lines d))
  end.

(** The entries a log file's bytes stand for. *)
Definition wal_entries (d : bytes) : list WalEntry := decode_lines (scan_lines d).

(** The bytes of a log that was written by successful appends. *)
Definition wal_line (e : WalEntry) : bytes := codec_enc e ++ [newline].
Definition wal_bytes (es : list WalEntry) : bytes := mjoin (wal_line <$> es).

(** An entry the log can carry: it survives the codec and fits the scanner. *)
Definition wal_ok (e : WalEntry) : Prop :=
  codec_ok e /\ Z.of_nat (length (codec_enc e)) < maxScanTokenSize.

(** ** Scanning *)

Lemma scan_from_line cur l d :
  newline ∉ l ->
  scan_from cur (l ++ newline :: d) =
    if too_long (reverse l ++ cur) then [] else dropCR (reverse cur ++ l) :: scan_lines d.
Proof.
  revert cur. induction l as [|c l IH]; intros cur Hn; simpl.
  - by rewrite app_nil_r.
  - rewrite decide_False by set_solver. rewrite IH by set_solver.
    by rewrite !reverse_cons, <- !(assoc_L (++)).
Qed.

Lemma scan_from_last cur l :
  newline ∉ l -> reverse l ++ cur <> [] ->
  scan_from cur l = if too_long (reverse l ++ cur) then [] else [dropCR (reverse cur ++ l)].
Proof.
  revert cur. induction l as [|c l IH]; intros cur Hn Hne; simpl.
  - rewrite app_nil_r. by destruct cur.
  - rewrite decide_False by set_solver.
    rewrite IH; [|set_solver|rewrite reverse_cons, <- (assoc_L (++)) in Hne; done].
    by rewrite !reverse_cons, <- !(assoc_L (++)).
Qed.

Lemma too_long_reverse l : too_long (reverse l) = too_long l.
Proof. unfold too_long. by rewrite length_reverse. Qed.

Lemma scan_lines_line l d :
  newline ∉ l -> cr ∉ l -> scan_lines (l ++ newline :: d) = if too_long l then [] else l :: scan_lines d.
Proof.
  intros Hn Hc. unfold scan_lines. rewrite scan_from_line by done.
  rewrite app_nil_r, too_long_reverse. simpl.
  replace (dropCR l) with l; [done|]. unfold dropCR.
  destruct (last l) as [x|] eqn:Hl; [|done].
  rewrite decide_False; [done|]. intros ->. apply last_Some in Hl as [? ->]. set_solver.
Qed.

Lemma scan_lines_last l :
  newline ∉ l -> cr ∉ l -> l <> [] -> scan_lines l = if too_long l then [] else [l].
Proof.
  intros Hn Hc Hne. unfold scan_lines. rewrite scan_from_last; [|done|].
  2:{ rewrite app_nil_r. intros E. apply Hne. apply (f_equal reverse) in E. by rewrite reverse_involutive in E. }
  rewrite app_nil_r, too_long_reverse. simpl.
  replace (dropCR l) with l; [done|]. unfold dropCR.
  destruct (last l) as [x|] eqn:Hl; [|done].
  rewrite decide_False; [done|]. intros ->. apply last_Some in Hl as [? ->]. set_solver.
Qed.

(** ** Reading back *)

Context `{!CodecLaws WalEntry}.

Lemma wal_bytes_app es es' : wal_bytes (es ++ es') = wal_bytes es ++ wal_bytes es'.
Proof. unfold wal_bytes. by rewrite fmap_app, join_app. Qed.

Lemma wal_bytes_one e : wal_bytes [e] = wal_line e.
Proof. unfold wal_bytes. simpl. apply app_nil_r. Qed.

Lemma wal_entries_nil : wal_entries [] = [].
Proof. done. Qed.

Lemma wal_entries_line e d :
  wal_ok e -> wal_entries (wal_line e ++ d) = e :: wal_entries d.
Proof.
  intros [Hok Hlen]. unfold wal_entries, wal_line. rewrite <- (assoc_L (++)). simpl.
  rewrite scan_lines_line by (by apply codec_no_newline || by apply codec_no_cr).
  unfold too_long. destruct (Z.leb_spec maxScanTokenSize (Z.of_nat (length (codec_enc e)))); [lia|].
  simpl. rewrite codec_roundtrip by done.
  pose proof (codec_nonempty e Hok). by destruct (codec_enc e).
Qed.

Lemma wal_entries_app es d :
  Forall wal_ok es -> wal_entries (wal_bytes es ++ d) = es ++ wal_entries d.
Proof.
  induction 1 as [|e es He _ IH]; [done|].
  change (wal_bytes (e :: es)) with (wal_line e ++ wal_bytes es).
  rewrite <- (assoc_L (++)), wal_entries_line by done. by rewrite IH.
Qed.

Lemma wal_entries_bytes es : Forall wal_ok es -> wal_entries (wal_bytes es) = es.
Proof. intros. rewrite <- (app_nil_r (wal_bytes es)), wal_entries_app by done. apply app_nil_r. Qed.

(** What a torn line reads back as: nothing, unless only the newline is
    missing. *)
Lemma wal_entries_torn e n :
  wal_ok e ->
  wal_entries (take n (wal_line e)) = if decide (n < length (codec_enc e))%nat then [] else [e].
Proof.
  intros He. pose proof He as [Hok Hlen]. unfold wal_line.
  pose proof (codec_no_newline e Hok). pose proof (codec_no_cr e Hok). pose proof (codec_nonempty e Hok).
  case_decide as Hn.
  - rewrite take_app_le by lia. unfold wal_entries.
    destruct (decide (take n (codec_enc e) = [])) as [->|Hne]; [done|].
    rewrite scan_lines_last; [| |  |done].
    + destruct (too_long _); [done|]. simpl. destruct (take n (codec_enc e)) eqn:Ht; [done|].
      by rewrite <- Ht, codec_torn.
    + by apply not_elem_of_take.
    + by apply not_elem_of_take.
  - destruct (decide (n = length (codec_enc e))) as [->|].
    + rewrite take_app_length. unfold wal_entries. rewrite scan_lines_last by done.
      unfold too_long.
      destruct (Z.leb_spec maxScanTokenSize (Z.of_nat (length (codec_enc e)))); [lia|].
      simpl. rewrite codec_roundtrip by done. by destruct (codec_enc e).
    + rewrite take_ge by (rewrite length_app; simpl; lia).
      fold (wal_line e). by rewrite <- (app_nil_r (wal_line e)), (wal_entries_line e []).
Qed.

(** ** Effect of appends under every schedule *)

(** The whole line reached the file, or some prefix of it did and the log
    takes no more entries. *)
Lemma WAL_Append_cases e w W r w' W' :
  WAL_Append e (w, W) = (r, (w', W')) ->
  walFilePath w' = walFilePath w /\
  (encErr w = true /\ w' = w /\ W' = W /\ r = Err EIO \/
   encErr w = false /\ encErr w' = false /\
     files W' = append_to (walFilePath w) (wal_line e) (files W) \/
   encErr w = false /\ r <> Ret tt /\ (encErr w' = true \/ r = Crashed) /\
     exists n, files W' = append_to (walFilePath w) (take n (wal_line e)) (files W)).
Proof.
  unfold WAL_Append, io_bind, encoder_Encode, on_world, zoom, file_Write, file_Sync, os_atomic, os_op.
  simpl. fold (wal_line e). intros Heq.
  destruct (encErr w) eqn:He; [simplify_eq/=; auto 10|].
  destruct (sched W) as [|[|n|n] [|[|m|m] s]] eqn:Hs; simplify_eq/=; rewrite ?He; split; try done;
    right; try destruct m;
    first [by left | right; split_and!; [done|done|first [by left|by right]|by exists n]].
Qed.

Lemma append_to_lookup path d fs : append_to path d fs !! path = Some (default [] (fs !! path) ++ d).
Proof. apply lookup_insert_eq. Qed.

Lemma append_to_lookup_ne path d fs q : q <> path -> append_to path d fs !! q = fs !! q.
Proof. intros. by apply lookup_insert_ne. Qed.

(** Appends one after the other, as the node issues them: an error is
    reported and the node goes on, death stops everything.  The first component
    is the list of acknowledged entries. *)
Fixpoint append_all (es : list WalEntry) (s : WAL * World) : list WalEntry * (WAL * World) :=
  match es with
  | [] => ([], s)
  | e :: es' =>
      match WAL_Append e s with
      | (Ret _, s') => let '(acked, s'') := append_all es' s' in (e :: acked, s'')
      | (Err _, s') => append_all es' s'
      | (Crashed, s') => ([], s')
      end
  end.

Lemma append_all_stuck es w W : encErr w = true -> append_all es (w, W) = ([], (w, W)).
Proof.
  intros He. induction es as [|e es IH]; simpl; [done|].
  unfold WAL_Append, io_bind, encoder_Encode. simpl. by rewrite He.
Qed.

(** What a torn line adds to the entries read back. *)
Lemma wal_entries_torn_app es e n :
  Forall wal_ok es -> wal_ok e ->
  exists t, wal_entries (wal_bytes es ++ take n (wal_line e)) = es ++ t /\ t `sublist_of` [e].
Proof.
  intros Hes He. exists (wal_entries (take n (wal_line e))).
  rewrite wal_entries_app by done. split; [done|]. rewrite wal_entries_torn by done.
  case_decide; [apply sublist_nil_l|done].
Qed.

Lemma append_all_entries es base w W acked w' W' :
  append_all es (w, W) = (acked, (w', W')) ->
  files W !! walFilePath w = Some (wal_bytes base) ->
  Forall wal_ok base -> Forall wal_ok es ->
  exists d added, files W' !! walFilePath w = Some d /\ wal_entries d = base ++ added /\
    acked `sublist_of` added /\ added `sublist_of` es.
Proof.
  revert base w W acked. induction es as [|e es IH]; intros base w W acked; simpl.
  { intros [= <- <- <-] Hf Hb _. exists (wal_bytes base), [].
    rewrite wal_entries_bytes, app_nil_r by done. split_and!; auto using sublist_nil. }
  intros Heq Hf Hb [He Hes]%Forall_cons.
  destruct (WAL_Append e (w, W)) as [r [w1 W1]] eqn:Ha.
  apply WAL_Append_cases in Ha as (Hp & [(Hs & -> & -> & ->)|[(Hs & Hs1 & Hf1)|(Hs & Hr & Hst & n & Hf1)]]).
  - rewrite append_all_stuck in Heq by done. simplify_eq. exists (wal_bytes base), [].
    rewrite wal_entries_bytes, app_nil_r by done. split_and!; auto using sublist_nil, sublist_nil_l.
  - assert (Hf1' : files W1 !! walFilePath w1 = Some (wal_bytes (base ++ [e]))).
    { rewrite Hf1, Hp, append_to_lookup, Hf. simpl. by rewrite wal_bytes_app, wal_bytes_one. }
    assert (Hb1 : Forall wal_ok (base ++ [e])) by (apply Forall_app; auto).
    destruct r as [[]|x|].
    1: destruct (append_all es (w1, W1)) as [acked' s'] eqn:Hall; simplify_eq.
    1,2: destruct (IH _ _ _ _ ltac:(eassumption) Hf1' Hb1 Hes) as (d & added & ? & Hd & ? & ?);
      exists d, (e :: added); rewrite <- Hp; rewrite Hd, <- (assoc_L (++));
      split_and!; auto using sublist_skip, sublist_cons.
    simplify_eq. exists (wal_bytes (base ++ [e])), [e]. rewrite <- Hp, wal_entries_bytes by done.
    split_and!; auto using sublist_nil_l, sublist_skip.
  - assert (acked = [] /\ w' = w1 /\ W' = W1) as (-> & -> & ->).
    { destruct r as [[]|x|]; [done| |by simplify_eq].
      destruct Hst as [Hst|]; [|done]. rewrite append_all_stuck in Heq by done. by simplify_eq. }
    destruct (wal_entries_torn_app base e n Hb He) as (t & Ht & Hsub).
    exists (wal_bytes base ++ take n (wal_line e)), t.
    rewrite Hf1, append_to_lookup, Hf. split_and!; [done..|apply sublist_nil_l|].
    etrans; [exact Hsub|]. apply sublist_skip, sublist_nil_l.
Qed.

(** [ReadAll] on a disk that answers returns the entries of the file. *)
Lemma ReadAll_entries path fs :
  ReadAll path (mkWorld fs []) = (Ret (wal_entries (default [] (fs !! path))), mkWorld fs []).
Proof.
  unfold ReadAll, io_bind, attempt, os_Stat. simpl. unfold os_atomic, os_op. simpl.
  destruct (fs !! path) as [d|] eqn:Hf; simpl; [|done].
  unfold io_bind, file_ReadSome, ignore, attempt. simpl. by rewrite Hf.
Qed.


(** A line the scanner cannot hold hides itself and everything after it
    from [ReadAll], acknowledged or not, and no error is reported. *)
Theorem ReadAll_long_line path base e rest fs :
  fs !! path = Some (wal_bytes base ++ wal_line e ++ rest) ->
  Forall wal_ok base -> codec_ok e -> maxScanTokenSize <= Z.of_nat (length (codec_enc e)) ->
  ReadAll path (mkWorld fs []) = (Ret base, mkWorld fs []).
Proof.
  intros Hf Hb He Hlen. rewrite ReadAll_entries, Hf. simpl. rewrite wal_entries_app by done.
  unfold wal_entries, wal_line. rewrite <- (assoc_L (++)). simpl.
  rewrite scan_lines_line by (by apply codec_no_newline || by apply codec_no_cr).
  unfold too_long. destruct (Z.leb_spec maxScanTokenSize (Z.of_nat (length (codec_enc e)))); [|lia].
  by rewrite app_nil_r.
Qed.

End wal.

(** ** The codec of [wal.Entry] *)

#[global] Instance WalEntry_eta : Eta WalEntry :=
  fun e => mkWalEntry (wTerm e) (wVersion e) (wOp e) (wKey e) (wValue e).

Definition WalEntry_zero : WalEntry := mkWalEntry 0 0 "" "" "".

Definition WalEntry_members (e : WalEntry) : list (bytes * json) :=
  [(of_str "term", j_uint (wTerm e)); (of_str "version", j_uint (wVersion e));
   (of_str "op", j_string (wOp e)); (of_str "key", j_string (wKey e))]
  ++ (if decide (wValue e = EmptyString) then [] else [(of_str "value", j_string (wValue e))]).

Definition WalEntry_fields : list (field WalEntry) :=
  [mkField "term" (set_uint (fun n e => e <| wTerm := n |>));
   mkField "version" (set_uint (fun n e => e <| wVersion := n |>));
   mkField "op" (set_string (fun s e => e <| wOp := s |>));
   mkField "key" (set_string (fun s e => e <| wKey := s |>));
   mkField "value" (set_string (fun s e => e <| wValue := s |>))].

#[global] Instance WalEntry_codec : Codec WalEntry := {
  codec_enc e := print_json (JObj (WalEntry_members e));
  codec_dec := unmarshal_struct WalEntry_fields WalEntry_zero;
  codec_ok e := u64 (wTerm e) /\ u64 (wVersion e) /\
    utf8_str (wOp e) /\ utf8_str (wKey e) /\ utf8_str (wValue e);
}.

#[global] Instance WalEntry_codec_laws : CodecLaws WalEntry.
Proof.
  eapply struct_codec_laws; [done..|]. intros [t v o k x] (Ht & Hv & Ho & Hk & Hx).
  cbn [wTerm wVersion wOp wKey wValue] in *. unfold WalEntry_members.
  cbn [wTerm wVersion wOp wKey wValue app]. case_decide as Hx0; [subst x|];
    (split; [struct_wf|struct_set]).
Qed.

(** ** Concrete runs *)

Lemma utf8_replicate c n : (bz c <? 128) = true -> utf8 (replicate n c).
Proof. intros. induction n; simpl; eauto with doki. Qed.

Definition put1 : WalEntry := mkWalEntry 1 1 "put" "k1" "v1".
Definition put2 : WalEntry := mkWalEntry 1 2 "put" "k2" "v2".
Definition put3 : WalEntry := mkWalEntry 1 3 "delete" "k1" "".

Ltac wal_ok_concrete :=
  repeat (apply Forall_cons; split; [|]); try apply Forall_nil_2;
  (split; [split_and!; try (split; [by vm_compute|by vm_compute]); utf8_ascii | by vm_compute]).

(** A run in which the second sync and the third write fail. *)
Definition wal_run : list WalEntry * (WAL * World) :=
  append_all [put1; put2; put3]
    (mkWAL "w" false, mkWorld {["w" := []]} [FOk; FOk; FOk; FErr 0; FErr 9]).


Definition long_put : WalEntry :=
  mkWalEntry 1 2 "put" "k" (to_str (replicate (Z.to_nat 65536) "a"%char)).

Lemma long_put_ok : codec_ok long_put.
Proof.
  unfold codec_ok, WalEntry_codec, long_put. cbn [wTerm wVersion wOp wKey wValue].
  split_and!; [by split|by split|utf8_ascii|utf8_ascii|].
  unfold utf8_str. rewrite of_to_str. by apply utf8_replicate.
Qed.

Lemma ReadAll_long_line_witness :
  ReadAll "w" (mkWorld {["w" := wal_bytes [put1] ++ wal_line long_put ++ wal_bytes [put3]]} []) =
    (Ret [put1], mkWorld {["w" := wal_bytes [put1] ++ wal_line long_put ++ wal_bytes [put3]]} []).
Proof.
  apply (ReadAll_long_line "w" [put1] long_put (wal_bytes [put3])).
  - apply lookup_singleton_eq.
  - wal_ok_concrete.
  - exact long_put_ok.
  - apply Z.leb_le. by vm_compute.
Defined.

(** After a restart on a log with a torn last line, the next append lands on
    that line: it is acknowledged, and is not read back. *)
Definition torn_log : gmap string bytes := {["w" := wal_bytes [put1] ++ take 9 (wal_line put2)]}.

Theorem reopened_torn_log_loses_entry :
  let '(r, (_, W)) := match WAL_Open "w" (mkWorld torn_log []) with
    | (Ret w, W) => WAL_Append put2 (w, W)
    | (_, W) => (Crashed, (mkWAL "w" true, W))
    end in
  r = Ret tt /\ fst (ReadAll "w" W) = Ret [put1].
Proof. by vm_compute. Qed.
