(* ===== verification/Snapshot.v ===== *)
(** Snapshot files, src/internal/snapshot/snapshot.go. *)

From S2P Require Import Prelude Strconv Fs Json JsonStruct.
From Stdlib Require Import Ascii.

Record Snapshot := mkSnapshot {
  FormatVersion : Z;
  snTerm : Z;
  snVersion : Z;
  snKV : gmap string string;
}.

#[global] Instance Snapshot_eta : Eta Snapshot :=
  fun s => mkSnapshot (FormatVersion s) (snTerm s) (snVersion s) (snKV s).

#[global] Instance Snapshot_eq_dec : EqDecision Snapshot.
Proof. solve_decision. Defined.

Definition CurrentFormatVersion : Z := 1.

(** ** The codec of [Snapshot] *)

Definition Snapshot_zero : Snapshot := mkSnapshot 0 0 0 ∅.

Definition Snapshot_members (s : Snapshot) : list (bytes * json) :=
  [(of_str "format_version", j_int (FormatVersion s)); (of_str "term", j_uint (snTerm s));
   (of_str "version", j_uint (snVersion s)); (of_str "kv", j_string_map (snKV s))].

Definition Snapshot_fields : list (field Snapshot) :=
  [mkField "format_version" (set_int (fun n s => s <| FormatVersion := n |>));
   mkField "term" (set_uint (fun n s => s <| snTerm := n |>));
   mkField "version" (set_uint (fun n s => s <| snVersion := n |>));
   mkField "kv" (set_string_map snKV (fun m s => s <| snKV := m |>))].

#[global] Instance Snapshot_codec : Codec Snapshot := {
  codec_enc s := print_json (JObj (Snapshot_members s));
  codec_dec := unmarshal_struct Snapshot_fields Snapshot_zero;
  codec_ok s := int64 (FormatVersion s) /\ u64 (snTerm s) /\ u64 (snVersion s) /\ utf8_map (snKV s);
}.

#[global] Instance Snapshot_codec_laws : CodecLaws Snapshot.
Proof.
  eapply struct_codec_laws; [done..|]. intros [f t v m] (Hf & Ht & Hv & Hm).
  cbn [FormatVersion snTerm snVersion snKV] in *. unfold Snapshot_members.
  cbn [FormatVersion snTerm snVersion snKV]. split; [struct_wf|struct_set].
Qed.

(** ** Operations *)

Inductive snaperr := SnapUnsupported (v : Z) | SnapIO (e : ioerr) | SnapParse.

Definition writeAndSync (path : string) (data : bytes) : io unit :=
  do_ os_Create path;
  do written <- attempt (file_Write path data);
  match written with
  | Fail e => do_ ignore (E := ioerr) file_Close; io_fail e
  | Ok _ =>
      do synced <- attempt file_Sync;
      match synced with
      | Fail e => do_ ignore (E := ioerr) file_Close; io_fail e
      | Ok _ => file_Close
      end
  end.

Definition tmp_path (path : string) : string := path +:+ ".tmp".

(** The defaulting of the format version at the head of [Save] and at the end
    of [Load]. *)
Definition with_format (s : Snapshot) : Snapshot :=
  if FormatVersion s =? 0 then s <| FormatVersion := CurrentFormatVersion |> else s.

Definition Save (path : string) (s : Snapshot) : M World snaperr unit :=
  let s := with_format s in
  if negb (FormatVersion s =? CurrentFormatVersion) then io_fail (SnapUnsupported (FormatVersion s))
  else
    let data := codec_enc s in
    let tmp := tmp_path path in
    do_ io_map_err SnapIO (writeAndSync tmp data);
    do renamed <- attempt (os_Rename tmp path);
    match renamed with
    | Fail e => do_ ignore (os_Remove tmp); io_fail (SnapIO e)
    | Ok _ => io_ret tt
    end.

(** [None] is the [exists = false] result. *)
Definition Load (path : string) : M World snaperr (option Snapshot) :=
  do r <- attempt (os_ReadFile path);
  match r with
  | Fail ENotExist => io_ret None
  | Fail e => io_fail (SnapIO e)
  | Ok data =>
      match codec_dec data with
      | None => io_fail SnapParse
      | Some s =>
          let s := with_format s in
          if negb (FormatVersion s =? CurrentFormatVersion)
          then io_fail (SnapUnsupported (FormatVersion s))
          else io_ret (Some s)
      end
  end.

(** What [Load] makes of a file's bytes. *)
Definition snapshot_of (d : bytes) : option Snapshot :=
  match codec_dec d with
  | Some s => if FormatVersion (with_format s) =? CurrentFormatVersion then Some (with_format s) else None
  | None => None
  end.

(** ** Facts *)

Lemma tmp_path_ne path : tmp_path path <> path.
Proof.
  unfold tmp_path. intros H. apply (f_equal (length ∘ of_str)) in H.
  simpl in H. rewrite of_str_app, length_app in H. simpl in H. lia.
Qed.

Lemma with_format_current s : FormatVersion s = CurrentFormatVersion -> with_format s = s.
Proof. unfold with_format. by intros ->. Qed.

Lemma snapshot_of_enc s :
  codec_ok s -> FormatVersion s = CurrentFormatVersion -> snapshot_of (codec_enc s) = Some s.
Proof.
  intros Hok Hf. unfold snapshot_of. rewrite codec_roundtrip by done.
  rewrite with_format_current by done. by rewrite Hf.
Qed.

(** [writeAndSync] touches one file, and on success that file is the data. *)
Lemma wp_writeAndSync path data w :
  wp (writeAndSync path data)
     (fun o w' => (forall q, q <> path -> files w' !! q = files w !! q) /\
                  (o = Ret tt -> files w' !! path = Some data)) w.
Proof.
  assert (Hne : forall q x, q <> path -> <[path := x]> (files w) !! q = files w !! q)
    by (intros; by apply lookup_insert_ne).
  unfold writeAndSync. apply wp_bind, wp_atomic; intros sc; simpl; try (split; eauto; done).
  apply wp_bind, wp_attempt, wp_op; intros; simpl.
  - assert (Hd : forall sc', (forall q, q <> path -> files (mkWorld (append_to path data (<[path:=[]]> (files w))) sc') !! q = files w !! q) /\
      files (mkWorld (append_to path data (<[path:=[]]> (files w))) sc') !! path = Some data).
    { intros sc'. simpl. unfold append_to. rewrite insert_insert_eq, !lookup_insert_eq. simpl. by split; eauto. }
    apply wp_bind, wp_attempt, wp_skip. intros [[]|e|] sc1; simpl.
    + apply wp_skip. intros o sc2. destruct (Hd sc2). auto.
    + apply wp_bind, wp_ignore, wp_skip. intros [[]|e1|] sc2; simpl; destruct (Hd sc2); by split.
    + destruct (Hd sc1). by split.
  - apply wp_bind, wp_ignore, wp_skip. intros [[]|e1|] sc2; simpl; unfold append_to;
      rewrite insert_insert_eq; by split; eauto.
  - unfold append_to; rewrite insert_insert_eq; by split; eauto.
Qed.

(** What a call of [Save] does to the files. *)
Definition saved (path : string) (s : Snapshot) (fs fs' : gmap string bytes) : Prop :=
  (forall q, q <> path -> q <> tmp_path path -> fs' !! q = fs !! q) /\
  fs' !! path = Some (codec_enc s).

Definition not_saved (path : string) (fs fs' : gmap string bytes) : Prop :=
  forall q, q <> tmp_path path -> fs' !! q = fs !! q.

Lemma wp_Save path s w :
  FormatVersion (with_format s) = CurrentFormatVersion ->
  wp (Save path s)
     (fun o w' => saved path (with_format s) (files w) (files w') /\ (o = Ret tt \/ o = Crashed) \/
                  not_saved path (files w) (files w') /\ o <> Ret tt) w.
Proof.
  intros Hf. unfold Save. rewrite Hf. simpl.
  apply wp_bind, wp_map_err. eapply wp_mono; [apply wp_writeAndSync|]. cbn beta.
  intros [[]|e|] w1 [Ho Ht]; [|right; by split..]. specialize (Ht eq_refl).
  apply wp_bind, wp_attempt.
  assert (Hs : saved path (with_format s) (files w) (rename_files (tmp_path path) path (files w1))).
  { unfold rename_files. rewrite Ht. split; [|by rewrite lookup_insert_eq].
    intros q Hq Hqt. rewrite lookup_insert_ne, lookup_delete_ne by done. by apply Ho. }
  apply wp_Rename; intros; simpl.
  - left. auto.
  - apply wp_bind, wp_ignore, wp_Remove; intros [] sc1; intros; simpl; right;
      (split; [|done]); intros q Hq; simpl; rewrite ?lookup_delete_ne by done; by apply Ho.
  - right. by split.
  - left. auto.
Qed.

(** C21: [Save] is atomic under every failure and every point of death, for every
    snapshot it is given: the bytes under [path] are the old ones, and the call
    did not return nil, or they are the complete encoding of the snapshot, in the
    current format, and the call returned nil or the process died; besides
    [path] only the temporary file is touched.  A snapshot without a format, as
    the node passes it, is stamped with the current one, and one of an unknown
    format is refused without touching any file. *)
Theorem Save_atomic path s w o w' :
  Save path s w = (o, w') ->
  (files w' !! path = files w !! path /\ o <> Ret tt \/
   files w' !! path = Some (codec_enc (with_format s)) /\ FormatVersion (with_format s) = CurrentFormatVersion /\
     (o = Ret tt \/ o = Crashed)) /\
  (forall q, q <> path -> q <> tmp_path path -> files w' !! q = files w !! q) /\
  (FormatVersion s = 0 -> FormatVersion (with_format s) = CurrentFormatVersion) /\
  (FormatVersion (with_format s) <> CurrentFormatVersion -> w' = w).
Proof.
  intros Hs. pose proof (tmp_path_ne path). destruct (decide (FormatVersion (with_format s) = CurrentFormatVersion)) as [Hf|Hf].
  - destruct (wp_use _ _ _ _ _ (wp_Save path s w Hf) Hs) as [[[? ?] ?]|[Hn ?]]; simpl in *; [by split_and!; auto|].
    split_and!; [left; split; [apply Hn; congruence|done]|eauto|done|done].
  - unfold Save in Hs. rewrite (proj2 (Z.eqb_neq _ _) Hf) in Hs. injection Hs as <- <-.
    split_and!; [by left|done| |done]. intros H0. unfold with_format. by rewrite H0.
Qed.

(** [Load] on a disk that answers. *)
Lemma Load_healthy path fs :
  Load path (healthy fs) =
    (match fs !! path with
     | None => Ret None
     | Some d => match codec_dec d with
                 | None => Err SnapParse
                 | Some s => if FormatVersion (with_format s) =? CurrentFormatVersion
                             then Ret (Some (with_format s))
                             else Err (SnapUnsupported (FormatVersion (with_format s)))
                 end
     end, healthy fs).
Proof.
  unfold Load, io_bind, attempt, os_ReadFile, healthy. simpl.
  destruct (fs !! path) as [d|]; [|done]. destruct (codec_dec d); [|done].
  by destruct (FormatVersion (with_format s) =? CurrentFormatVersion).
Qed.

(** C33: A snapshot saved with success is what [Load] returns from a disk that can
    be read, stamped with the current format, whatever happened to other files in
    between and whatever term, version and contents it has, as long as these are
    UTF-8: the encoding replaces other bytes. *)
Theorem Save_Load path s w w' fs :
  codec_ok (with_format s) ->
  Save path s w = (Ret tt, w') -> fs !! path = files w' !! path ->
  Load path (healthy fs) = (Ret (Some (with_format s)), healthy fs).
Proof.
  intros Hok Hs Hfs.
  assert (Hf : FormatVersion (with_format s) = CurrentFormatVersion).
  { unfold Save in Hs. destruct (Z.eqb_spec (FormatVersion (with_format s)) CurrentFormatVersion); [done|by injection Hs]. }
  destruct (wp_use _ _ _ _ _ (wp_Save path s w Hf) Hs) as [[[? Hp] _]|[_ ?]]; [|done].
  rewrite Load_healthy, Hfs. simpl in Hp. rewrite Hp, codec_roundtrip by done.
  rewrite with_format_current by done. by rewrite Hf.
Qed.

(** As the node passes it to [Save]. *)
Definition snap1 : Snapshot := mkSnapshot 0 2 7 {["k" := "v"]}.

Lemma snap1_ok : codec_ok (with_format snap1).
Proof.
  split_and!; [by split|by split|by split|]. unfold utf8_map. cbn [snKV snap1 with_format].
  apply map_Forall_singleton. split; utf8_ascii.
Qed.

(** A run that dies while the temporary file is written. *)
Lemma Save_atomic_witness :
  let '(o, w') := Save "s" snap1 (mkWorld {["s" := [newline]]} [FOk; FCrash 10]) in
  (files w' !! "s" = Some [newline] /\ o <> Ret tt \/
   files w' !! "s" = Some (codec_enc (with_format snap1)) /\ FormatVersion (with_format snap1) = CurrentFormatVersion /\
     (o = Ret tt \/ o = Crashed)) /\
  (forall q, q <> "s" -> q <> tmp_path "s" ->
    files w' !! q = ({["s" := [newline]]} : gmap string bytes) !! q) /\
  (FormatVersion snap1 = 0 -> FormatVersion (with_format snap1) = CurrentFormatVersion) /\
  (FormatVersion (with_format snap1) <> CurrentFormatVersion -> w' = mkWorld {["s" := [newline]]} [FOk; FCrash 10]).
Proof.
  destruct (Save _ _ _) as [o w'] eqn:Hs.
  exact (Save_atomic "s" snap1 (mkWorld {["s" := [newline]]} [FOk; FCrash 10]) o w' Hs).
Defined.

Lemma Save_Load_witness :
  Load "s" (healthy (files (snd (Save "s" snap1 (healthy ∅))))) =
    (Ret (Some (with_format snap1)), healthy (files (snd (Save "s" snap1 (healthy ∅))))).
Proof.
  apply (Save_Load "s" snap1 (healthy ∅) (snd (Save "s" snap1 (healthy ∅)))).
  - exact snap1_ok.
  - by vm_compute.
  - done.
Defined.
