(* ===== verification/DiskState.v ===== *)
(** The on-disk state of a shard replica, src/node/diskstate.go: a write-ahead
    log next to a set of rotated snapshot files. *)

From stdpp Require Import sorting.
From S2P Require Import Prelude Strconv Filepath Fs Json JsonStruct Wal Snapshot.
From Stdlib Require Import Ascii.

Record diskState := mkDiskState {
  walFile : WAL;
  walPath : string;
  snapshotPath : string;
  writesSinceSnapshot : Z;
  snapshotInterval : Z;
  snapshotRetention : Z;
}.
#[global] Instance diskState_eta : Eta diskState := fun d =>
  mkDiskState (walFile d) (walPath d) (snapshotPath d) (writesSinceSnapshot d)
    (snapshotInterval d) (snapshotRetention d).

Record diskLoadResult := mkLoadResult {
  dlTerm : Z;
  dlVersion : Z;
  dlKV : gmap string string;
  dlValid : bool;
}.

Inductive dserr :=
| DsMkdir (e : ioerr)
| DsInterval
| DsRetention
| DsOpenWal (e : ioerr)
| DsReadWal (e : ioerr)
| DsWalOrder (i : Z) (last v : Z)
| DsWalAppend (e : ioerr)
| DsRotate (e : ioerr)
| DsSave (e : snaperr)
| DsTruncate (e : ioerr)
| DsClose (e : ioerr).

(** ** Opening and loading *)

Definition openDiskState (dir : string) (interval retention : Z) : M World dserr diskState :=
  do_ io_map_err DsMkdir (os_MkdirAll dir);
  if interval <=? 0 then io_fail DsInterval
  else if retention <=? 0 then io_fail DsRetention
  else
    let walPath := Join dir "wal.jsonl" in
    do w <- io_map_err DsOpenWal (WAL_Open walPath);
    io_ret (mkDiskState w walPath (Join dir "snapshot.json") 0 interval retention).

Definition snapshotPathFor (basePath : string) (index : Z) : string :=
  if index =? 0 then basePath else basePath +:+ "." +:+ to_str (FormatInt index).

(** The running best of the loop of [loadLatestSnapshot]. *)
Definition better (best : option Snapshot) (s : Snapshot) : option Snapshot :=
  match best with
  | Some b => if snVersion b <? snVersion s then Some s else best
  | None => Some s
  end.

Fixpoint load_from (n : nat) (basePath : string) (i : Z) (best : option Snapshot)
    : M World dserr (option Snapshot) :=
  match n with
  | O => io_ret best
  | S n' =>
      do r <- attempt (Load (snapshotPathFor basePath i));
      let best := match r with
                  | Fail _ => best
                  | Ok None => best
                  | Ok (Some s) => better best s
                  end in
      load_from n' basePath (i + 1) best
  end.

Definition loadLatestSnapshot (basePath : string) (retention : Z) : M World dserr (option Snapshot) :=
  load_from (Z.to_nat retention) basePath 0 None.

Fixpoint monotonic_from (i last : Z) (es : list WalEntry) : result dserr unit :=
  match es with
  | [] => Ok tt
  | e :: es' => if wVersion e <? last then Fail (DsWalOrder i last (wVersion e))
                else monotonic_from (i + 1) (wVersion e) es'
  end.

Definition ensureMonotonicWAL (es : list WalEntry) : result dserr unit :=
  match es with
  | [] => Ok tt
  | e :: es' => monotonic_from 1 (wVersion e) es'
  end.

(** One iteration of the replay loop of [load]. *)
Definition replay_entry (r : diskLoadResult) (e : WalEntry) : diskLoadResult :=
  if wVersion e <=? dlVersion r then r
  else mkLoadResult
         (if dlTerm r <? wTerm e then wTerm e else dlTerm r)
         (wVersion e)
         (if decide (wOp e = "put") then <[wKey e := wValue e]> (dlKV r)
          else if decide (wOp e = "delete") then delete (wKey e) (dlKV r)
          else dlKV r)
         (dlValid r).

Definition no_disk_state : diskLoadResult := mkLoadResult 0 0 ∅ false.

(** The in-memory part of [load], from the best snapshot and the entries. *)
Definition build_state (best : option Snapshot) (es : list WalEntry) : result dserr diskLoadResult :=
  match best, es with
  | None, [] => Ok no_disk_state
  | _, _ =>
      try _ <- ensureMonotonicWAL es;
      let snap := default Snapshot_zero best in
      Ok (foldl replay_entry (mkLoadResult (snTerm snap) (snVersion snap) (snKV snap) true) es)
  end.

Definition of_result {S E A} (r : result E A) : M S E A :=
  match r with Ok a => io_ret a | Fail e => io_fail e end.

Definition load (ds : diskState) : M World dserr diskLoadResult :=
  do r <- attempt (loadLatestSnapshot (snapshotPath ds) (snapshotRetention ds));
  match r with
  | Fail _ => io_ret no_disk_state
  | Ok best =>
      do es <- io_map_err DsReadWal (ReadAll (walPath ds));
      of_result (build_state best es)
  end.

(** ** Writing *)

(** Run an operation of package [wal] on the log of the disk state. *)
Definition on_wal {A} (c : M (WAL * World) ioerr A) : M (diskState * World) ioerr A :=
  zoom (fun s => (walFile (fst s), snd s)) (fun t s => (fst s <| walFile := fst t |>, snd t)) c.

Definition appendWAL (e : WalEntry) : M (diskState * World) dserr unit :=
  do_ io_map_err DsWalAppend (on_wal (WAL_Append e));
  io_modify (fun s => (fst s <| writesSinceSnapshot ::= fun n => wrap_int64 (n + 1) |>, snd s)).

(** Shift the file of index [i] to index [i + 1] if it is there. *)
Definition rotate_step (basePath : string) (i : Z) : M World dserr unit :=
  do st <- attempt (os_Stat (snapshotPathFor basePath i));
  match st with
  | Ok _ => io_map_err DsRotate (os_Rename (snapshotPathFor basePath i) (snapshotPathFor basePath (i + 1)))
  | Fail _ => io_ret tt
  end.

(** The loop of [rotateSnapshots], from index [n] down to 1. *)
Fixpoint rotate_from (n : nat) (basePath : string) (retention : Z) : M World dserr unit :=
  match n with
  | O => io_ret tt
  | S n' =>
      let i := Z.of_nat n in
      do_ (if i =? retention - 1 then ignore (os_Remove (snapshotPathFor basePath (i + 1))) else io_ret tt);
      do_ rotate_step basePath i;
      rotate_from n' basePath retention
  end.

Definition rotateSnapshots (basePath : string) (retention : Z) : M World dserr unit :=
  if retention <=? 1 then io_ret tt
  else
    do_ rotate_from (Z.to_nat (retention - 1)) basePath retention;
    rotate_step basePath 0.

(** The common body of [takeSnapshot] and [resetSnapshot]. *)
Definition replaceSnapshot (term version : Z) (kv : gmap string string)
    : M (diskState * World) dserr unit :=
  do s <- io_get;
  let ds := fst s in
  do_ on_world (rotateSnapshots (snapshotPath ds) (snapshotRetention ds));
  do_ on_world (io_map_err DsSave (Save (snapshotPath ds) (mkSnapshot 0 term version kv)));
  do_ io_map_err DsTruncate (on_wal WAL_Truncate);
  io_modify (fun s => (fst s <| writesSinceSnapshot := 0 |>, snd s)).

Definition takeSnapshot := replaceSnapshot.
Definition resetSnapshot := replaceSnapshot.

Definition maybeSnapshot (term version : Z) (kv : gmap string string)
    : M (diskState * World) dserr unit :=
  do s <- io_get;
  if negb (snapshotInterval (fst s) <=? writesSinceSnapshot (fst s)) then io_ret tt
  else takeSnapshot term version kv.

Definition ds_close : M (diskState * World) dserr unit := io_map_err DsClose (on_wal WAL_Close).

(** ** What [load] sees *)

(** The snapshot in the file of index [i], if it can be loaded. *)
Definition snap_at (basePath : string) (fs : gmap string bytes) (i : Z) : option Snapshot :=
  match fs !! snapshotPathFor basePath i with Some d => snapshot_of d | None => None end.

Definition pick (best o : option Snapshot) : option Snapshot :=
  match o with Some s => better best s | None => best end.

Fixpoint latest_from (n : nat) (basePath : string) (fs : gmap string bytes) (i : Z)
    (best : option Snapshot) : option Snapshot :=
  match n with
  | O => best
  | S n' => latest_from n' basePath fs (i + 1) (pick best (snap_at basePath fs i))
  end.

Definition latest (ds : diskState) (fs : gmap string bytes) : option Snapshot :=
  latest_from (Z.to_nat (snapshotRetention ds)) (snapshotPath ds) fs 0 None.

Definition log_entries (ds : diskState) (fs : gmap string bytes) : list WalEntry :=
  wal_entries (default [] (fs !! walPath ds)).

(** The state a restart would recover. *)
Definition disk_view (ds : diskState) (fs : gmap string bytes) : result dserr diskLoadResult :=
  build_state (latest ds fs) (log_entries ds fs).

Lemma load_from_healthy n base i best fs :
  load_from n base i best (healthy fs) = (Ret (latest_from n base fs i best), healthy fs).
Proof.
  revert i best. induction n as [|n IH]; intros i best; simpl; [done|].
  unfold io_bind, attempt. rewrite Load_healthy. unfold snap_at, snapshot_of.
  destruct (fs !! snapshotPathFor base i) as [d|]; [|by rewrite IH].
  destruct (codec_dec d) as [s|]; [|by rewrite IH].
  destruct (FormatVersion (with_format s) =? CurrentFormatVersion); by rewrite IH.
Qed.

Lemma load_healthy ds fs :
  load ds (healthy fs) =
    (match disk_view ds fs with Ok r => Ret r | Fail e => Err e end, healthy fs).
Proof.
  unfold load, io_bind, attempt, loadLatestSnapshot. rewrite load_from_healthy.
  unfold io_map_err, healthy. rewrite ReadAll_entries. unfold disk_view, of_result.
  fold (latest ds fs). fold (log_entries ds fs). by destruct (build_state _ _).
Qed.

(** The choice of the best snapshot. *)
Lemma latest_from_none n base fs i best :
  (forall k, i <= k < i + Z.of_nat n -> snap_at base fs k = None) ->
  latest_from n base fs i best = best.
Proof.
  revert i best. induction n as [|n IH]; intros i best Hn; simpl; [done|].
  rewrite Hn by lia. apply IH. intros k Hk. apply Hn. lia.
Qed.

Lemma latest_from_keep n base fs i s :
  (forall k s', i <= k < i + Z.of_nat n -> snap_at base fs k = Some s' -> snVersion s' <= snVersion s) ->
  latest_from n base fs i (Some s) = Some s.
Proof.
  revert i. induction n as [|n IH]; intros i Hn; simpl; [done|].
  assert (Hp : pick (Some s) (snap_at base fs i) = Some s).
  { unfold pick, better. destruct (snap_at base fs i) as [s'|] eqn:Hs; [|done].
    destruct (Z.ltb_spec (snVersion s) (snVersion s')); [|done].
    apply Hn in Hs; lia. }
  rewrite Hp. apply IH. intros k s' Hk. apply Hn. lia.
Qed.

Lemma latest_from_best n base fs i j s :
  i <= j < i + Z.of_nat n ->
  snap_at base fs j = Some s ->
  (forall k, i <= k < j -> snap_at base fs k = None) ->
  (forall k s', i <= k < i + Z.of_nat n -> snap_at base fs k = Some s' -> snVersion s' <= snVersion s) ->
  latest_from n base fs i None = Some s.
Proof.
  revert i. induction n as [|n IH]; intros i Hj Hs Hbelow Hle; simpl; [lia|].
  destruct (decide (i = j)) as [->|Hij].
  - rewrite Hs. simpl. apply latest_from_keep. intros k s' Hk. apply Hle. lia.
  - rewrite Hbelow by lia. simpl. apply IH; [lia|done| |]; intros k *; [intros|intros ?]; [apply Hbelow|apply Hle]; lia.
Qed.

(** ** Paths *)

Lemma snapshotPathFor_inj base i j :
  int64 i -> int64 j -> snapshotPathFor base i = snapshotPathFor base j -> i = j.
Proof.
  unfold snapshotPathFor. intros Hi Hj Heq. apply (f_equal of_str) in Heq.
  destruct (Z.eqb_spec i 0), (Z.eqb_spec j 0); subst; try done;
    rewrite ?of_str_app, ?of_to_str in Heq.
  - apply (f_equal length) in Heq. rewrite !length_app in Heq. simpl in Heq. lia.
  - apply (f_equal length) in Heq. rewrite !length_app in Heq. simpl in Heq. lia.
  - apply app_inv_head in Heq. simplify_eq/=. by apply FormatInt_inj.
Qed.

Lemma snapshotPathFor_tmp base i : 0 <= i -> int64 i -> snapshotPathFor base i <> tmp_path base.
Proof.
  unfold snapshotPathFor, tmp_path. intros Hi Hi64 Heq. apply (f_equal of_str) in Heq.
  destruct (Z.eqb_spec i 0); subst; rewrite ?of_str_app, ?of_to_str in Heq.
  - apply (f_equal length) in Heq. rewrite length_app in Heq. simpl in Heq. lia.
  - apply app_inv_head in Heq. simplify_eq/=.
    assert (Hu : u64 i) by (unfold int64, u64, max_int64, two64 in *; lia).
    destruct (FormatUint_head i Hu) as (c & r & Hc & Hd). unfold FormatInt in Heq.
    destruct (Z.ltb_spec i 0); [lia|]. rewrite Hc in Heq. by simplify_eq/=.
Qed.

(** ** Rotation *)

Section rotation.
Context (base : string) (ret : Z) (Hret : 1 <= ret < max_int64).
Local Abbreviation p := (snapshotPathFor base).

Lemma index64 i : 0 <= i <= ret -> int64 i.
Proof using Hret. unfold int64, min_int64. lia. Qed.

Lemma p_ne i j : 0 <= i <= ret -> 0 <= j <= ret -> i <> j -> p i <> p j.
Proof using Hret.
  intros Hi Hj Hij Heq. apply Hij. by apply (snapshotPathFor_inj base); [apply index64..|].
Qed.

(** Rotation only moves files to higher indices, and touches no other path. *)
Definition moved (fs0 fs : gmap string bytes) : Prop :=
  (forall q, (forall i, 0 <= i <= ret -> q <> p i) -> fs !! q = fs0 !! q) /\
  (forall i d, 0 <= i <= ret -> fs !! p i = Some d -> exists k, 0 <= k <= i /\ fs0 !! p k = Some d).

Lemma moved_refl fs : moved fs fs.
Proof using. split; [done|]. intros i d Hi Hd. exists i. split; [lia|done]. Qed.

Lemma moved_trans fs1 fs2 fs3 : moved fs1 fs2 -> moved fs2 fs3 -> moved fs1 fs3.
Proof using.
  intros [Hf1 Ho1] [Hf2 Ho2]. split.
  - intros q Hq. by rewrite Hf2, Hf1.
  - intros i d Hi Hd. destruct (Ho2 i d Hi Hd) as (k & Hk & Hd').
    destruct (Ho1 k d ltac:(lia) Hd') as (k' & ? & ?). exists k'. split; [lia|done].
Qed.

Lemma moved_delete fs i : 0 <= i <= ret -> moved fs (delete (p i) fs).
Proof using.
  intros Hi. split.
  - intros q Hq. rewrite lookup_delete_ne; [done|]. intros Heq. by apply (Hq i).
  - intros k d Hk Hd. apply lookup_delete_Some in Hd as [_ Hd]. exists k. split; [lia|done].
Qed.

Lemma moved_rename fs i : 0 <= i < ret -> moved fs (rename_files (p i) (p (i + 1)) fs).
Proof using Hret.
  intros Hi. unfold rename_files. destruct (fs !! p i) as [x|] eqn:Hx; [|apply moved_refl].
  split.
  - intros q Hq. rewrite lookup_insert_ne, lookup_delete_ne; [done|..]; intros Heq;
      [apply (Hq i)|apply (Hq (i + 1))]; (lia || done).
  - intros k d Hk Hd. destruct (decide (k = i + 1)) as [->|Hne].
    + rewrite lookup_insert_eq in Hd. simplify_eq. exists i. split; [lia|done].
    + rewrite lookup_insert_ne in Hd by (apply p_ne; lia).
      apply lookup_delete_Some in Hd as [_ Hd]. exists k. split; [lia|done].
Qed.

(** [d] is the file of index [j], and no file has a lower index. *)
Definition at_top (d : bytes) (j : Z) (fs : gmap string bytes) : Prop :=
  fs !! p j = Some d /\ forall i, 0 <= i < j -> fs !! p i = None.

Lemma at_top_delete d j fs : 0 <= j < ret -> at_top d j fs -> at_top d j (delete (p ret) fs).
Proof using Hret.
  intros Hj [Hd Hn]. split.
  - rewrite lookup_delete_ne by (apply p_ne; lia). done.
  - intros i Hi. rewrite lookup_delete_ne by (apply p_ne; lia). by apply Hn.
Qed.

Lemma at_top_rename d j i fs :
  0 <= j <= ret -> 0 <= i < ret -> is_Some (fs !! p i) -> at_top d j fs ->
  i <> j /\ at_top d j (rename_files (p i) (p (i + 1)) fs) \/
  i = j /\ at_top d (j + 1) (rename_files (p i) (p (i + 1)) fs).
Proof using Hret.
  intros Hj Hi [x Hx] [Hd Hn]. unfold rename_files. rewrite Hx.
  destruct (decide (i = j)) as [->|Hij]; [right|left]; (split; [done|]); split.
  - simplify_eq. apply lookup_insert_eq.
  - intros k Hk. rewrite lookup_insert_ne by (apply p_ne; lia).
    destruct (decide (k = j)) as [->|]; [by rewrite lookup_delete_eq|].
    rewrite lookup_delete_ne by (apply p_ne; lia). apply Hn. lia.
  - assert (j < i). { destruct (decide (i < j)); [|lia]. rewrite Hn in Hx; [done|lia]. }
    rewrite lookup_insert_ne, lookup_delete_ne by (apply p_ne; lia). done.
  - intros k Hk. assert (j < i). { destruct (decide (i < j)); [|lia]. rewrite Hn in Hx; [done|lia]. }
    rewrite lookup_insert_ne, lookup_delete_ne by (apply p_ne; lia). by apply Hn.
Qed.

(** The effect of rotating from the files [fs] to the files [fs'], when only
    indices accepted by [sel] may have been shifted. *)
Definition rotated (sel : Z -> Prop) (ok : Z -> Prop) (fs fs' : gmap string bytes) : Prop :=
  moved fs fs' /\
  forall d j, 0 <= j <= ret -> ok j -> at_top d j fs ->
    at_top d j fs' \/ sel j /\ at_top d (j + 1) fs'.

Lemma rotated_refl sel ok fs : rotated sel ok fs fs.
Proof using. split; [apply moved_refl|auto]. Qed.

Lemma wp_rotate_step i w :
  0 <= i < ret ->
  wp (rotate_step base i)
     (fun _ w' => rotated (fun j => j = i) (fun _ => True) (files w) (files w')) w.
Proof using Hret.
  intros Hi. unfold rotate_step. apply wp_bind, wp_attempt, wp_Stat; intros; simpl;
    try apply wp_ret; try apply rotated_refl.
  assert (Hr : rotated (fun j => j = i) (fun _ => True) (files w) (rename_files (p i) (p (i + 1)) (files w))).
  { split; [by apply moved_rename|]. intros d j Hj _ Ht.
    destruct (at_top_rename d j i (files w)) as [[_ ?]|[-> ?]]; auto. }
  apply wp_map_err, wp_Rename; simpl; auto using rotated_refl.
Qed.

Lemma rotated_trans sel1 sel2 sel ok1 ok2 ok fs1 fs2 fs3 :
  (forall j, ok j -> ok1 j) -> (forall j, 0 <= j <= ret -> ok j -> ok2 j) ->
  (forall j, sel1 j -> j < ret) ->
  (forall j, sel1 j -> ok j -> ok2 (j + 1) /\ ~ sel2 (j + 1)) ->
  (forall j, sel1 j \/ sel2 j -> sel j) ->
  rotated sel1 ok1 fs1 fs2 -> rotated sel2 ok2 fs2 fs3 -> rotated sel ok fs1 fs3.
Proof using.
  intros Hok1 Hok2 Hlt Hnext Hsel [Hm1 H1] [Hm2 H2]. split; [by eapply moved_trans|].
  intros d j Hj Hok Ht. destruct (H1 d j Hj (Hok1 j Hok) Ht) as [Ht1|[Hs Ht1]].
  - destruct (H2 d j Hj (Hok2 j Hj Hok) Ht1) as [|[??]]; [by left|right]. auto.
  - destruct (Hnext j Hs Hok). pose proof (Hlt j Hs).
    destruct (H2 d (j + 1) ltac:(lia) ltac:(done) Ht1) as [|[??]]; [right; auto|done].
Qed.

(** Removing the file that falls off the end. *)
Lemma wp_rotate_remove i w :
  wp (E := dserr) (if i =? ret - 1 then ignore (os_Remove (p (i + 1))) else io_ret tt)
     (fun _ w' => rotated (fun _ => False) (fun j => i = ret - 1 -> j < ret) (files w) (files w')) w.
Proof using Hret.
  destruct (Z.eqb_spec i (ret - 1)) as [->|Hi]; [|apply wp_ret, rotated_refl].
  replace (ret - 1 + 1) with ret by lia.
  assert (Hd : rotated (fun _ => False) (fun j => ret - 1 = ret - 1 -> j < ret) (files w) (delete (p ret) (files w))).
  { split; [apply moved_delete; lia|]. intros d j Hj Hlt Ht. left.
    apply at_top_delete; [|done]. specialize (Hlt eq_refl). lia. }
  apply wp_ignore, wp_Remove; intros [] sc; intros; auto using rotated_refl.
Qed.

Lemma wp_rotate_from n w :
  Z.of_nat n <= ret - 1 ->
  wp (rotate_from n base ret)
     (fun _ w' => rotated (fun j => 1 <= j <= Z.of_nat n) (fun j => Z.of_nat n = ret - 1 -> j < ret)
                          (files w) (files w')) w.
Proof using Hret.
  revert w. induction n as [|n IH]; intros w Hn; [apply rotated_refl|]. cbn [rotate_from].
  apply wp_bind. eapply wp_mono; [apply wp_rotate_remove|]. cbn beta. intros o w1 H1.
  assert (Hgo : forall sel fs', rotated sel (fun _ => True) (files w1) fs' ->
            (forall j, sel j -> 1 <= j <= Z.of_nat (S n)) ->
            rotated (fun j => 1 <= j <= Z.of_nat (S n)) (fun j => Z.of_nat (S n) = ret - 1 -> j < ret)
              (files w) fs').
  { intros sel fs' Hr Hs. eapply rotated_trans, Hr; [..|exact H1]; naive_solver. }
  destruct o as [[]|e|]; [|apply (Hgo (fun _ => False)); [apply rotated_refl|done]..].
  apply wp_bind. eapply wp_mono; [apply wp_rotate_step; lia|]. cbn beta. intros o w2 H2.
  destruct o as [[]|e|]; [|apply (Hgo _ _ H2); lia..].
  eapply wp_mono; [apply IH; lia|]. cbn beta. intros o w3 H3.
  eapply Hgo; [eapply rotated_trans; [..|exact H2|exact H3]|].
  - auto.
  - intros j ? _ ?. lia.
  - intros j ->. lia.
  - intros j -> _. split; lia.
  - intros j H. exact H.
  - intros j [->|?]; simpl; lia.
Qed.

(** One whole rotation: files move up by at most one place. *)
Lemma wp_rotateSnapshots w :
  wp (rotateSnapshots base ret)
     (fun _ w' => rotated (fun j => 1 < ret) (fun j => j < ret) (files w) (files w')) w.
Proof using Hret.
  unfold rotateSnapshots. destruct (Z.leb_spec ret 1); [apply wp_ret, rotated_refl|].
  apply wp_bind. eapply wp_mono; [apply wp_rotate_from; lia|]. cbn beta.
  rewrite Z2Nat.id by lia. intros o w1 [Hm H1].
  destruct o as [[]|e|]; [|split; [done|]; intros d j Hj Hlt Ht; destruct (H1 d j Hj) as [|[??]]; auto..].
  eapply wp_mono; [apply wp_rotate_step; lia|]. cbn beta. intros o w2 H2.
  eapply rotated_trans; [..|exact (conj Hm H1)|exact H2]; try naive_solver lia.
Qed.
End rotation.

(** ** Crash safety *)

(** What [openDiskState] sets up: the log and the snapshot files do not share
    paths. *)
Definition ds_wf (ds : diskState) : Prop :=
  walFilePath (walFile ds) = walPath ds /\
  1 <= snapshotRetention ds < max_int64 /\
  (forall i, 0 <= i <= snapshotRetention ds -> walPath ds <> snapshotPathFor (snapshotPath ds) i) /\
  walPath ds <> tmp_path (snapshotPath ds).

(** The newest snapshot is the file of index [b], and no file comes before it. *)
Definition best_at (ds : diskState) (fs : gmap string bytes) (best : option Snapshot) (b : Z) : Prop :=
  match best with
  | None => forall i, 0 <= i < snapshotRetention ds -> snap_at (snapshotPath ds) fs i = None
  | Some s =>
      0 <= b < snapshotRetention ds /\
      (exists d, at_top (snapshotPath ds) d b fs /\ snapshot_of d = Some s) /\
      (forall i s', 0 <= i < snapshotRetention ds ->
         snap_at (snapshotPath ds) fs i = Some s' -> snVersion s' <= snVersion s)
  end.

(** One rotation does not push index [b] out of the retained range. *)
Definition headroom (ds : diskState) (b : Z) : Prop := 1 < snapshotRetention ds -> b + 1 < snapshotRetention ds.

Lemma best_latest ds fs best b : best_at ds fs best b -> latest ds fs = best.
Proof.
  unfold latest. destruct best as [s|]; simpl.
  - intros (Hb & (d & [Hd Hn] & Hs) & Hle).
    apply (latest_from_best _ _ _ _ b); rewrite ?Z2Nat.id by lia; [lia| | |].
    + unfold snap_at. by rewrite Hd.
    + intros k Hk. unfold snap_at. by rewrite Hn.
    + intros k s' Hk. apply Hle. lia.
  - intros Hn. apply latest_from_none. intros k Hk. apply Hn. lia.
Qed.

(** Everything that can be loaded after a rotation was there before it. *)
Lemma rotated_snap_at ds sel ok fs fs' i s :
  rotated (snapshotPath ds) (snapshotRetention ds) sel ok fs fs' ->
  0 <= i < snapshotRetention ds -> snap_at (snapshotPath ds) fs' i = Some s ->
  exists k, 0 <= k <= i /\ snap_at (snapshotPath ds) fs k = Some s.
Proof.
  intros [[_ Ho] _] Hi. unfold snap_at.
  destruct (fs' !! snapshotPathFor (snapshotPath ds) i) as [d|] eqn:Hd; [|done].
  apply Ho in Hd as (k & Hk & Hd); [|lia]. intros Hs. exists k. by rewrite Hd.
Qed.

Abbreviation rotated_once ds :=
  (rotated (snapshotPath ds) (snapshotRetention ds) (fun _ => 1 < snapshotRetention ds)
           (fun j => j < snapshotRetention ds)).

(** A rotation keeps the newest snapshot and moves it up by one at most. *)
Lemma rotated_best ds fs fs' best b :
  rotated_once ds fs fs' -> best_at ds fs best b -> headroom ds b ->
  exists b', best_at ds fs' best b' /\ (b' = b \/ 1 < snapshotRetention ds /\ b' = b + 1).
Proof.
  intros Hr Hb Hroom. destruct best as [s|].
  - destruct Hb as (Hb & (d & Hd & Hs) & Hle).
    assert (Hle' : forall k s', 0 <= k < snapshotRetention ds ->
      snap_at (snapshotPath ds) fs' k = Some s' -> snVersion s' <= snVersion s).
    { intros k s' Hk Hk'. destruct (rotated_snap_at _ _ _ _ _ _ _ Hr Hk Hk') as (k' & ? & Hs').
      apply (Hle k'); [lia|done]. }
    destruct Hr as [_ Ht]. destruct (Ht d b ltac:(lia) ltac:(lia) Hd) as [?|[Hmany ?]].
    + exists b. split; [|by left]. split_and!; [lia..|by exists d|done].
    + exists (b + 1). split; [|by right]. specialize (Hroom Hmany). split_and!; [lia..|by exists d|done].
  - exists b. split; [|by left]. intros k Hk.
    destruct (snap_at (snapshotPath ds) fs' k) as [s|] eqn:Hs; [|done].
    apply (rotated_snap_at _ _ _ _ _ _ _ Hr) in Hs as (k' & ? & Hs); [|lia].
    simpl in Hb. rewrite Hb in Hs; [done|lia].
Qed.

(** The same files and settings; the counter and the encoder may differ. *)
Definition ds_same (ds ds' : diskState) : Prop :=
  walFilePath (walFile ds') = walFilePath (walFile ds) /\ walPath ds' = walPath ds /\
  snapshotPath ds' = snapshotPath ds /\ snapshotInterval ds' = snapshotInterval ds /\
  snapshotRetention ds' = snapshotRetention ds.

Lemma ds_same_refl ds : ds_same ds ds.
Proof. done. Qed.
#[export] Hint Resolve ds_same_refl : doki.

Lemma ds_same_wf ds ds' : ds_same ds ds' -> ds_wf ds -> ds_wf ds'.
Proof. unfold ds_wf. by intros (-> & -> & -> & _ & ->). Qed.

Lemma ds_same_view ds ds' fs : ds_same ds ds' -> disk_view ds' fs = disk_view ds fs.
Proof. unfold disk_view, latest, log_entries. by intros (_ & -> & -> & _ & ->). Qed.

Lemma ds_same_best ds ds' fs best b : ds_same ds ds' -> best_at ds fs best b -> best_at ds' fs best b.
Proof. unfold best_at. by intros (_ & _ & -> & _ & ->). Qed.

(** What one call of [takeSnapshot] or [resetSnapshot] can leave behind. *)
Inductive replaced (ds : diskState) (new : Snapshot) (fs : gmap string bytes)
    : outcome dserr unit -> gmap string bytes -> Prop :=
| replaced_old fs1 fs2 o :
    rotated_once ds fs fs1 -> not_saved (snapshotPath ds) fs1 fs2 -> o <> Ret tt ->
    replaced ds new fs o fs2
| replaced_new fs1 fs2 o :
    rotated_once ds fs fs1 -> saved (snapshotPath ds) new fs1 fs2 -> o <> Ret tt ->
    replaced ds new fs o fs2
| replaced_done fs1 fs2 o :
    rotated_once ds fs fs1 -> saved (snapshotPath ds) new fs1 fs2 -> o = Ret tt \/ o = Crashed ->
    replaced ds new fs o (<[walPath ds := []]> fs2).

Lemma wp_on_world {T E A} (c : M World E A) (Q : outcome E A -> T * World -> Prop) s :
  wp c (fun o w => Q o (fst s, w)) (snd s) -> wp (on_world c) Q s.
Proof. exact (wp_zoom snd (fun w s => (fst s, w)) c Q s). Qed.

Lemma not_saved_refl path fs : not_saved path fs fs.
Proof. done. Qed.
#[export] Hint Resolve not_saved_refl : doki.

Lemma wp_replaceSnapshot t v kv ds W :
  ds_wf ds ->
  wp (replaceSnapshot t v kv)
     (fun o s' => replaced ds (mkSnapshot 1 t v kv) (files W) o (files (snd s')) /\
                  ds_same ds (fst s') /\
                  encErr (walFile (fst s')) = match o with Ret _ => false | _ => encErr (walFile ds) end) (ds, W).
Proof.
  intros (Hwal & Hret & Hpath & Htmp). unfold replaceSnapshot.
  apply wp_bind, wp_get. simpl. apply wp_bind, wp_on_world.
  eapply wp_mono; [by apply wp_rotateSnapshots|]. simpl. intros o w1 Hrot.
  destruct o as [[]|e|]; [|split; [by eapply replaced_old; eauto with doki|by split]..].
  apply wp_bind, wp_on_world, wp_map_err.
  eapply wp_mono; [by apply wp_Save|]. simpl.
  change (with_format (mkSnapshot 0 t v kv)) with (mkSnapshot 1 t v kv).
  intros o w2 [[Hs Ho]|[Hs Ho]].
  2:{ destruct o as [[]|e|]; [done|split; [by eapply replaced_old|by split]..]. }
  destruct o as [[]|e|]; [|by destruct Ho|split; [by eapply replaced_new|by split]].
  apply wp_bind, wp_map_err. unfold on_wal. apply wp_zoom. simpl. unfold WAL_Truncate.
  apply wp_bind, wp_get. simpl. apply wp_bind, wp_on_world. rewrite Hwal.
  apply wp_atomic; intros sc; simpl;
    [|split; [by eapply replaced_new|by split]..|split; [by eapply replaced_done; auto|by split]].
  apply wp_modify. simpl. apply wp_modify. split; [by eapply replaced_done; auto|by split].
Qed.

(** ** Replay *)

#[global] Instance diskLoadResult_eta : Eta diskLoadResult := fun r =>
  mkLoadResult (dlTerm r) (dlVersion r) (dlKV r) (dlValid r).

Lemma replay_skip es r :
  Forall (fun e => wVersion e <= dlVersion r) es -> foldl replay_entry r es = r.
Proof.
  induction 1 as [|e es He _ IH]; [done|]. simpl. unfold replay_entry at 2.
  by destruct (Z.leb_spec (wVersion e) (dlVersion r)); [|lia].
Qed.

Lemma replay_entry_ge r e :
  dlVersion r <= dlVersion (replay_entry r e) /\ wVersion e <= dlVersion (replay_entry r e).
Proof. unfold replay_entry. destruct (Z.leb_spec (wVersion e) (dlVersion r)); simpl; lia. Qed.

Lemma replay_ge es r :
  dlVersion r <= dlVersion (foldl replay_entry r es) /\
  Forall (fun e => wVersion e <= dlVersion (foldl replay_entry r es)) es.
Proof.
  revert r. induction es as [|e es IH]; intros r; [by split|]. simpl.
  destruct (IH (replay_entry r e)) as [H1 H2]. pose proof (replay_entry_ge r e).
  split; [lia|]. constructor; [lia|done].
Qed.

Lemma monotonic_from_app i last es e :
  monotonic_from i last es = Ok tt ->
  monotonic_from i last (es ++ [e]) = Ok tt \/ Exists (fun e' => wVersion e < wVersion e') es \/ wVersion e < last.
Proof.
  revert i last. induction es as [|e' es IH]; intros i last; simpl.
  - intros _. destruct (Z.ltb_spec (wVersion e) last); auto.
  - destruct (wVersion e' <? last); [done|]. intros H. destruct (IH _ _ H) as [|[|]]; auto.
Qed.

Lemma ensureMonotonicWAL_snoc es e :
  ensureMonotonicWAL es = Ok tt -> Forall (fun e' => wVersion e' <= wVersion e) es ->
  ensureMonotonicWAL (es ++ [e]) = Ok tt.
Proof.
  destruct es as [|e0 es]; [done|]. simpl. intros Hm [H0 Hes]%Forall_cons.
  destruct (monotonic_from_app 1 (wVersion e0) es e Hm) as [|[Hx|]]; [done| |lia].
  rewrite Exists_exists in Hx. destruct Hx as (e' & Hin & ?).
  rewrite Forall_forall in Hes. apply Hes in Hin. lia.
Qed.

(** The versions of a log that was accepted never decrease. *)
Lemma monotonic_from_sorted i last es :
  monotonic_from i last es = Ok tt <-> Sorted Z.le (last :: (wVersion <$> es)).
Proof.
  revert i last. induction es as [|e es IH]; intros i last; simpl.
  - split; [repeat constructor|done].
  - destruct (Z.ltb_spec (wVersion e) last); split.
    + done.
    + intros Hs. inversion Hs as [|??? Hd]. inversion Hd. lia.
    + intros Hm. constructor; [by apply (IH (i + 1))|]. by constructor.
    + intros Hs. inversion Hs. by apply IH.
Qed.

(** What [build_state] starts from. *)
Definition base_state (best : option Snapshot) : diskLoadResult :=
  let snap := default Snapshot_zero best in mkLoadResult (snTerm snap) (snVersion snap) (snKV snap) true.

Definition live (r : diskLoadResult) : diskLoadResult := r <| dlValid := true |>.

Lemma replay_valid es r : dlValid (foldl replay_entry r es) = dlValid r.
Proof.
  revert r. induction es as [|e es IH]; intros r; simpl; [done|]. rewrite IH.
  unfold replay_entry. by destruct (wVersion e <=? dlVersion r).
Qed.

Lemma live_id r : dlValid r = true -> live r = r.
Proof. destruct r. simpl. by intros ->. Qed.

Lemma live_replay best es :
  live (foldl replay_entry (base_state best) es) = foldl replay_entry (base_state best) es.
Proof. apply live_id. by rewrite replay_valid. Qed.

Lemma build_state_ok best es r :
  build_state best es = Ok r ->
  ensureMonotonicWAL es = Ok tt /\ live r = foldl replay_entry (base_state best) es.
Proof.
  unfold build_state. fold (base_state best).
  destruct best as [s|], es as [|e es].
  3: { intros [= <-]. done. }
  all: destruct (ensureMonotonicWAL _) as [[]|]; simpl; [|done]; intros [= <-];
    (split; [done|]); apply (live_replay _ (_ :: _)) || apply (live_replay _ []).
Qed.

Lemma build_state_live best es :
  ensureMonotonicWAL es = Ok tt -> is_Some best \/ es <> [] ->
  build_state best es = Ok (foldl replay_entry (base_state best) es).
Proof.
  intros Hm Hne. unfold build_state. rewrite Hm.
  destruct best as [s|], es as [|e es]; try done. by destruct Hne as [[? ?]|?].
Qed.

Lemma build_state_snapshot s es :
  ensureMonotonicWAL es = Ok tt -> Forall (fun e => wVersion e <= snVersion s) es ->
  build_state (Some s) es = Ok (base_state (Some s)).
Proof. intros Hm Hle. rewrite build_state_live by eauto. by rewrite replay_skip. Qed.

(** ** The log is out of the way of the snapshots *)

Lemma rotated_wal ds fs fs' sel ok :
  ds_wf ds -> rotated (snapshotPath ds) (snapshotRetention ds) sel ok fs fs' ->
  fs' !! walPath ds = fs !! walPath ds.
Proof. intros (_ & _ & Hp & _) [[Hf _] _]. by apply Hf. Qed.

Lemma saved_wal ds s fs fs' :
  ds_wf ds -> saved (snapshotPath ds) s fs fs' -> fs' !! walPath ds = fs !! walPath ds.
Proof.
  intros (_ & Hr & Hp & Ht) [Hf _]. apply Hf; [|done]. apply (Hp 0). lia.
Qed.

Lemma snap_at_wal ds fs d i :
  ds_wf ds -> 0 <= i < snapshotRetention ds ->
  snap_at (snapshotPath ds) (<[walPath ds := d]> fs) i = snap_at (snapshotPath ds) fs i.
Proof.
  intros (_ & _ & Hp & _) Hi. unfold snap_at. rewrite lookup_insert_ne; [done|]. apply Hp. lia.
Qed.

Lemma latest_from_ext n base fs fs' i best :
  (forall k, i <= k < i + Z.of_nat n -> snap_at base fs k = snap_at base fs' k) ->
  latest_from n base fs i best = latest_from n base fs' i best.
Proof.
  revert i best. induction n as [|n IH]; intros i best Hk; simpl; [done|].
  rewrite Hk by lia. apply IH. intros k ?. apply Hk. lia.
Qed.

Lemma latest_ext ds fs fs' :
  (forall k, 0 <= k < snapshotRetention ds ->
     snap_at (snapshotPath ds) fs k = snap_at (snapshotPath ds) fs' k) ->
  latest ds fs = latest ds fs'.
Proof. intros H. apply latest_from_ext. intros k Hk. apply H. lia. Qed.

Lemma latest_wal ds fs d : ds_wf ds -> latest ds (<[walPath ds := d]> fs) = latest ds fs.
Proof. intros. apply latest_ext. intros. by apply snap_at_wal. Qed.

Lemma best_at_wal ds fs d best b :
  ds_wf ds -> best_at ds fs best b -> best_at ds (<[walPath ds := d]> fs) best b.
Proof.
  intros Hwf. destruct best as [s|]; simpl.
  - intros (Hb & (x & [Hx Hn] & Hs) & Hle). pose proof Hwf as (_ & _ & Hp & _).
    split_and!; [lia..| |].
    + exists x. split; [|done]. split; [|intros i Hi]; rewrite lookup_insert_ne by (apply Hp; lia); auto.
    + intros i s' Hi. rewrite snap_at_wal by done. by apply Hle.
  - intros Hn i Hi. rewrite snap_at_wal by done. by apply Hn.
Qed.

(** ** After a save *)

Lemma not_saved_lookup ds fs fs' k :
  ds_wf ds -> not_saved (snapshotPath ds) fs fs' -> 0 <= k < snapshotRetention ds ->
  fs' !! snapshotPathFor (snapshotPath ds) k = fs !! snapshotPathFor (snapshotPath ds) k.
Proof.
  intros (_ & Hr & _ & _) Hn Hk. apply Hn, snapshotPathFor_tmp; [lia|]. eapply index64; [done|lia].
Qed.

Lemma not_saved_best ds fs fs' best b :
  ds_wf ds -> not_saved (snapshotPath ds) fs fs' -> best_at ds fs best b -> best_at ds fs' best b.
Proof.
  intros Hwf Hn. pose proof (fun k => not_saved_lookup ds fs fs' k Hwf Hn) as Hl. destruct best as [s|].
  - intros (Hb & (d & [Hd Ht] & Hs) & Hle). split_and!; [lia..| |].
    + exists d. split; [|done]. split; [by rewrite Hl|]. intros i Hi. rewrite Hl by lia. by apply Ht.
    + intros i s' Hi. unfold snap_at. rewrite Hl by done. by apply Hle.
  - intros Hnone i Hi. unfold snap_at. rewrite Hl by done. by apply Hnone.
Qed.

Lemma saved_best ds s fs fs1 fs2 best b :
  ds_wf ds -> best_at ds fs best b -> rotated_once ds fs fs1 -> saved (snapshotPath ds) s fs1 fs2 ->
  snapshot_of (codec_enc s) = Some s -> snVersion (default Snapshot_zero best) <= snVersion s ->
  best_at ds fs2 (Some s) 0.
Proof.
  intros (_ & Hr & _ & _) Hb Hrot [Hf Hs] Henc Hle. simpl. split_and!; [lia..| |].
  - exists (codec_enc s). split; [|done]. split; [done|]. lia.
  - intros i s' Hi Hs'. destruct (decide (i = 0)) as [->|Hi0].
    { unfold snap_at in Hs'. change (snapshotPathFor (snapshotPath ds) 0) with (snapshotPath ds) in Hs'.
      rewrite Hs, Henc in Hs'. by simplify_eq. }
    assert (Hs1 : snap_at (snapshotPath ds) fs1 i = Some s').
    { unfold snap_at in *. rewrite <- Hf; [done| |].
      - apply (p_ne _ _ Hr i 0); lia.
      - apply snapshotPathFor_tmp; [lia|]. eapply index64; [done|lia]. }
    destruct (rotated_snap_at _ _ _ _ _ _ _ Hrot Hi Hs1) as (k & Hk & Hs0).
    destruct best as [s0|].
    + destruct Hb as (_ & _ & Hmax). etrans; [apply (Hmax k); [lia|done]|done].
    + rewrite Hb in Hs0; [done|lia].
Qed.

(** Taking a snapshot of the current state does not change what a restart
    recovers.  When the call returns nil the log is empty and the new snapshot is
    the newest one.  When it fails, or the process dies between rotating the old
    snapshots, saving the new one and truncating the log, [load] still returns
    the same key-value contents and version (the term is the old one or the one
    being saved), provided the newest snapshot was not the one that a rotation
    drops; after a failure the log is as it was, and the newest snapshot has moved
    up by one at most. *)
Lemma takeSnapshot_crash_safe ds W best b r t o ds' W' :
  ds_wf ds -> best_at ds (files W) best b -> 0 <= b ->
  disk_view ds (files W) = Ok r ->
  codec_ok (mkSnapshot 1 t (dlVersion r) (dlKV r)) ->
  takeSnapshot t (dlVersion r) (dlKV r) (ds, W) = (o, (ds', W')) ->
  let r' := mkLoadResult t (dlVersion r) (dlKV r) true in
  (o = Ret tt -> disk_view ds (files W') = Ok r' /\ files W' !! walPath ds = Some [] /\
                 best_at ds (files W') (Some (mkSnapshot 1 t (dlVersion r) (dlKV r))) 0) /\
  (headroom ds b -> o <> Ret tt ->
     (disk_view ds (files W') = Ok r \/ disk_view ds (files W') = Ok r') /\
     (o <> Crashed -> files W' !! walPath ds = files W !! walPath ds /\
        exists best' b', best_at ds (files W') best' b' /\ 0 <= b' /\ (1 < snapshotRetention ds -> b' <= b + 1))).
Proof.
  intros Hwf Hb Hb0 Hview Hok Heq r'. set (new := mkSnapshot 1 t (dlVersion r) (dlKV r)) in *.
  pose proof (best_latest _ _ _ _ Hb) as Hl.
  pose proof (wp_use _ _ _ _ _ (wp_replaceSnapshot t (dlVersion r) (dlKV r) ds W Hwf) Heq) as [Hrep _].
  fold new in Hrep. simpl in Hrep. unfold disk_view in *. rewrite Hl in Hview.
  pose proof Hview as Hview0. apply build_state_ok in Hview as [Hm Hr].
  assert (Hver : dlVersion r = dlVersion (foldl replay_entry (base_state best) (log_entries ds (files W))))
    by (by rewrite <- Hr).
  destruct (replay_ge (log_entries ds (files W)) (base_state best)) as [Hge Hall]. rewrite <- Hver in *.
  assert (Henc : snapshot_of (codec_enc new) = Some new) by by apply snapshot_of_enc.
  destruct Hrep as [fs1 fs2 o Hrot Hns Ho|fs1 fs2 o Hrot Hsv Ho|fs1 fs2 o Hrot Hsv Ho].
  - split; [done|]. intros Hroom _. destruct (rotated_best _ _ _ _ _ Hrot Hb Hroom) as (b1 & Hb1 & Hle).
    apply (not_saved_best _ _ _ _ _ Hwf Hns) in Hb1.
    assert (Hw : fs2 !! walPath ds = files W !! walPath ds)
      by (rewrite Hns by apply Hwf; by rewrite (rotated_wal _ _ _ _ _ Hwf Hrot)).
    split; [left|intros _; split; [done|]; exists best, b1; split_and!; [done|lia|lia]].
    rewrite (best_latest _ _ _ _ Hb1). unfold log_entries. by rewrite Hw.
  - pose proof (saved_best _ _ _ _ _ _ _ Hwf Hb Hrot Hsv Henc Hge) as Hb'. split; [done|]. intros _ _.
    assert (Hw : fs2 !! walPath ds = files W !! walPath ds)
      by (by rewrite (saved_wal _ _ _ _ Hwf Hsv), (rotated_wal _ _ _ _ _ Hwf Hrot)).
    split; [right|intros _; split; [done|]; exists (Some new), 0; split_and!; [done|lia|lia]].
    rewrite (best_latest _ _ _ _ Hb'). unfold log_entries. rewrite Hw. by rewrite build_state_snapshot.
  - pose proof (saved_best _ _ _ _ _ _ _ Hwf Hb Hrot Hsv Henc Hge) as Hb'.
    assert (Hlog : log_entries ds (<[walPath ds:=[]]> fs2) = [])
      by (unfold log_entries; by rewrite lookup_insert_eq).
    rewrite latest_wal, (best_latest _ _ _ _ Hb'), Hlog by done.
    split; [|intros _ Hne; split; [by right|by destruct Ho]].
    intros _. split_and!; [done|apply lookup_insert_eq|]. by apply best_at_wal.
Qed.

(** ** Appending *)

(** The log holds whole lines only. *)
Definition log_is (ds : diskState) (fs : gmap string bytes) (es : list WalEntry) : Prop :=
  fs !! walPath ds = Some (wal_bytes es) /\ Forall wal_ok es.

Lemma log_is_entries ds fs es : log_is ds fs es -> log_entries ds fs = es.
Proof. intros [Hf Hok]. unfold log_entries. rewrite Hf. simpl. by apply wal_entries_bytes. Qed.

(** The effect of [appendWAL] on the log file. *)
Lemma wp_appendWAL e ds W es :
  ds_wf ds -> encErr (walFile ds) = false -> log_is ds (files W) es -> wal_ok e ->
  wp (appendWAL e)
     (fun o s' => exists d, files (snd s') = <[walPath ds := d]> (files W) /\ ds_same ds (fst s') /\
        (encErr (walFile (fst s')) = false /\ d = wal_bytes (es ++ [e]) \/
         o <> Ret tt /\ (encErr (walFile (fst s')) = true \/ o = Crashed) /\
           exists n, d = wal_bytes es ++ take n (wal_line e))) (ds, W).
Proof.
  intros (Hwal & _) Henc [Hf Hok] He. unfold appendWAL. apply wp_bind, wp_map_err. unfold on_wal.
  apply wp_zoom. simpl. apply wp_intro. intros o [w' W'] Heq.
  apply WAL_Append_cases in Heq as (Hsame & [(Hs & _)|[(_ & Henc' & Hf1)|(_ & Ho & Hst & n & Hf1)]]);
    [congruence|..]; rewrite Hwal in Hf1; unfold append_to in Hf1; rewrite Hf in Hf1; simpl in Hf1.
  - assert (Hd : wal_bytes es ++ wal_line e = wal_bytes (es ++ [e]))
      by (by rewrite wal_bytes_app, wal_bytes_one).
    rewrite Hd in Hf1. destruct o as [[]|x|]; try apply wp_modify; simpl; rewrite Hf1;
      eexists; (split_and!; [done..|by left]).
  - destruct o as [[]|x|]; [done|..]; simpl; rewrite Hf1; eexists; (split_and!; [done..|]); right;
      (split_and!; [done|destruct Hst; auto; done|eauto]).
Qed.

(** An entry at the end of the log that is newer than the state before it is
    replayed; those after it of the same version are not. *)
Lemma build_state_shadow best es e junk r :
  build_state best es = Ok r -> dlVersion r < wVersion e -> Forall (fun x => wVersion x = wVersion e) junk ->
  build_state best (es ++ e :: junk) = Ok (replay_entry (live r) e).
Proof.
  intros [Hm Hr]%build_state_ok Hlt Hjunk.
  assert (Hver : dlVersion r = dlVersion (foldl replay_entry (base_state best) es)) by (by rewrite <- Hr).
  destruct (replay_ge es (base_state best)) as [_ Hall]. rewrite <- Hver in Hall.
  assert (Hm' : ensureMonotonicWAL (es ++ e :: junk) = Ok tt).
  { induction junk as [|x junk IH] using rev_ind.
    - apply ensureMonotonicWAL_snoc; [done|]. eapply Forall_impl; [exact Hall|]. simpl. lia.
    - apply Forall_app in Hjunk as [Hjunk Hx]. rewrite Forall_singleton in Hx. specialize (IH Hjunk).
      change (es ++ e :: junk ++ [x]) with (es ++ (e :: junk) ++ [x]). rewrite (assoc_L (++)).
      apply ensureMonotonicWAL_snoc; [done|]. apply Forall_app. split.
      + eapply Forall_impl; [exact Hall|]. cbn beta. intros y Hy. lia.
      + constructor; [lia|]. eapply Forall_impl; [exact Hjunk|]. cbn beta. intros y Hy. lia. }
  rewrite build_state_live, foldl_app, <- Hr; [|done|right; by destruct es]. simpl.
  rewrite replay_skip; [done|]. eapply Forall_impl; [exact Hjunk|]. cbn beta. intros x ->.
  apply (replay_entry_ge (live r) e).
Qed.

(** Appending an entry newer than the state on disk is atomic and durable:
    whatever fails, a restart recovers the old state or the old state with that
    one entry applied, and it recovers the latter when the call returned nil. *)
Lemma appendWAL_durable ds W es e r o ds' W' :
  ds_wf ds -> encErr (walFile ds) = false -> log_is ds (files W) es -> wal_ok e ->
  disk_view ds (files W) = Ok r -> dlVersion r < wVersion e ->
  appendWAL e (ds, W) = (o, (ds', W')) ->
  (disk_view ds (files W') = Ok r \/ disk_view ds (files W') = Ok (replay_entry (live r) e)) /\
  (o = Ret tt -> disk_view ds (files W') = Ok (replay_entry (live r) e) /\ log_is ds (files W') (es ++ [e])).
Proof.
  intros Hwf Henc Hlog He Hview Hlt Heq.
  destruct (wp_use _ _ _ _ _ (wp_appendWAL e ds W es Hwf Henc Hlog He) Heq) as (d & Hf & _ & Hd).
  simpl in Hf. rewrite Hf. unfold disk_view in *. rewrite latest_wal by done.
  rewrite (log_is_entries _ _ _ Hlog) in Hview. destruct Hlog as [_ Hok].
  pose proof (build_state_shadow _ _ e [] _ Hview Hlt (Forall_nil_2 _)) as Hnew.
  assert (Hle : forall d, log_entries ds (<[walPath ds:=d]> (files W)) = wal_entries d)
    by (intros; unfold log_entries; by rewrite lookup_insert_eq).
  rewrite Hle. destruct Hd as [[_ ->]|(Ho & _ & n & ->)].
  - assert (Hok' : Forall wal_ok (es ++ [e])) by (apply Forall_app; auto).
    rewrite wal_entries_bytes by done. split; [by right|]. intros _. split; [done|].
    split; [apply lookup_insert_eq|done].
  - split; [|done]. rewrite wal_entries_app, wal_entries_torn by done.
    case_decide; [left; by rewrite app_nil_r|by right].
Qed.

Lemma simple_name_files :
  simple_name (of_str "wal.jsonl") /\ simple_name (of_str "snapshot.json").
Proof. split; (split_and!; [done..|]); by apply (bool_decide_eq_true_1 _). Qed.

Lemma Join_wal_ne dir suffix : Join dir "wal.jsonl" <> Join dir "snapshot.json" +:+ suffix.
Proof.
  destruct (Join_suffix dir) as [pre Hpre], simple_name_files. rewrite !Hpre by done.
  intros Heq. apply (f_equal of_str) in Heq. rewrite of_str_app, !of_to_str, <- (assoc_L (++)) in Heq.
  by apply app_inv_head in Heq.
Qed.

Lemma snapshotPathFor_suffix base i : exists suffix, snapshotPathFor base i = base +:+ suffix.
Proof.
  unfold snapshotPathFor. case_match; [|eauto]. exists "". apply (inj of_str).
  by rewrite of_str_app, app_nil_r.
Qed.

Lemma opened_wf dir interval retention n :
  1 <= retention < max_int64 ->
  ds_wf (mkDiskState (mkWAL (Join dir "wal.jsonl") false) (Join dir "wal.jsonl")
           (Join dir "snapshot.json") n interval retention).
Proof.
  intros Hr. split_and!; [done|simpl; lia..| |apply Join_wal_ne]. simpl. intros i Hi.
  destruct (snapshotPathFor_suffix (Join dir "snapshot.json") i) as [x ->]. apply Join_wal_ne.
Qed.

(** A disk state that [openDiskState] hands out has its files on distinct
    paths, an intact log handle and accepted settings; the log it opens keeps
    its bytes, and no other file changes. *)
Theorem openDiskState_wf dir interval retention w ds w' :
  openDiskState dir interval retention w = (Ret ds, w') -> retention < max_int64 ->
  ds_wf ds /\ encErr (walFile ds) = false /\ 0 < snapshotInterval ds /\
  writesSinceSnapshot ds = 0 /\
  files w' = <[walPath ds := default [] (files w !! walPath ds)]> (files w).
Proof.
  intros Heq Hmax.
  enough (Hwp : wp (openDiskState dir interval retention)
    (fun o w' => forall ds, o = Ret ds ->
       ds_wf ds /\ encErr (walFile ds) = false /\ 0 < snapshotInterval ds /\
       writesSinceSnapshot ds = 0 /\
       files w' = <[walPath ds := default [] (files w !! walPath ds)]> (files w)) w)
    by exact (wp_use _ _ _ _ _ Hwp Heq ds eq_refl).
  clear Heq ds w'. unfold openDiskState. apply wp_bind, wp_map_err, wp_skip. intros [[]|e|] sc; try done.
  destruct (Z.leb_spec interval 0); [done|]. destruct (Z.leb_spec retention 0); [done|].
  apply wp_bind, wp_map_err. unfold WAL_Open. apply wp_bind, wp_atomic; intros sc'; simpl; try done.
  apply wp_ret. intros ds [= <-]. cbn [walFile encErr snapshotInterval writesSinceSnapshot walPath].
  split_and!; [apply opened_wf; lia|done|lia|done|]. simpl.
  destruct (files w !! Join dir "wal.jsonl") as [d|] eqn:Hd; simpl; [|done].
  symmetry. by apply insert_id.
Qed.

(** ** Concrete runs *)

Definition ds1 : diskState :=
  mkDiskState (mkWAL "d/wal.jsonl" false) "d/wal.jsonl" "d/snapshot.json" 0 100 2.

Definition snapA : Snapshot := mkSnapshot 1 1 1 {["k1" := "v1"]}.

(** A snapshot at version 1 and a log with version 2. *)
Definition disk1 : gmap string bytes :=
  {["d/snapshot.json" := codec_enc snapA; "d/wal.jsonl" := wal_bytes [put2]]}.

Definition state1 : diskLoadResult := mkLoadResult 1 2 {["k1" := "v1"; "k2" := "v2"]} true.

Lemma ds1_opened : openDiskState "d" 100 2 (healthy ∅) = (Ret ds1, healthy {["d/wal.jsonl" := []]}).
Proof. by vm_compute. Qed.

Lemma ds1_wf : ds_wf ds1.
Proof. exact (opened_wf "d" 100 2 0 ltac:(split; [done|reflexivity])). Qed.

Lemma disk1_best : best_at ds1 disk1 (Some snapA) 0.
Proof.
  split_and!; [done|done| |].
  - exists (codec_enc snapA). split; [|by vm_compute]. split; [by vm_compute|lia].
  - intros i s' Hi. assert (i = 0 \/ i = 1) as [-> | ->] by (simpl in Hi; lia);
      intros Hs; vm_compute in Hs; by simplify_eq.
Qed.

Lemma disk1_view : disk_view ds1 disk1 = Ok state1.
Proof. by vm_compute. Qed.

Lemma disk1_log : log_is ds1 disk1 [put2].
Proof. split; [by vm_compute|]. wal_ok_concrete. Qed.

Lemma snap1_state_ok : codec_ok (mkSnapshot 1 1 2 (dlKV state1)).
Proof.
  split_and!; [by split|by split|by split|]. unfold utf8_map. cbn [snKV dlKV state1].
  apply map_Forall_insert_2; [split; utf8_ascii|]. apply map_Forall_singleton. split; utf8_ascii.
Qed.

Lemma openDiskState_wf_witness :
  ds_wf ds1 /\ encErr (walFile ds1) = false /\ 0 < snapshotInterval ds1 /\ writesSinceSnapshot ds1 = 0 /\
  files (healthy {["d/wal.jsonl" := []]}) =
    <[walPath ds1 := default [] (files (healthy ∅) !! walPath ds1)]> (files (healthy ∅)).
Proof.
  apply (openDiskState_wf "d" 100 2 (healthy ∅) ds1 (healthy {["d/wal.jsonl" := []]})).
  - exact ds1_opened.
  - done.
Defined.

(** ** Two behaviours of the retained snapshots *)

(** Resetting to an older version (a follower rolled back by its leader)
    leaves the rotated newer snapshot in place: the reset is acknowledged, and
    the next start loads the state that was rolled back. *)
Theorem resetSnapshot_rollback_undone :
  let disk := {["d/snapshot.json" := codec_enc (mkSnapshot 1 1 5 {["k" := "old"]}); "d/wal.jsonl" := []]} in
  let '(o, (_, W)) := resetSnapshot 2 3 {["k" := "new"]} (ds1, healthy disk) in
  o = Ret tt /\ disk_view ds1 (files W) = Ok (mkLoadResult 1 5 {["k" := "old"]} true).
Proof. by vm_compute. Qed.

(** With the default retention of two, two snapshots in a row that fail to
    create their temporary file push the only good snapshot out of the range
    [load] looks at: the keys it held are gone after a restart. *)
Theorem two_failed_snapshots_lose_data :
  let '(o1, s1) := takeSnapshot 1 2 (dlKV state1) (ds1, mkWorld disk1 [FOk; FOk; FOk; FErr 0]) in
  let '(o2, (_, W2)) := takeSnapshot 1 2 (dlKV state1) (fst s1, mkWorld (files (snd s1)) [FOk; FOk; FOk; FErr 0]) in
  o1 <> Ret tt /\ o2 <> Ret tt /\
  disk_view ds1 disk1 = Ok state1 /\
  disk_view ds1 (files W2) = Ok (mkLoadResult 1 2 {["k2" := "v2"]} true).
Proof. by vm_compute. Qed.
