(* ===== verification/Total.v ===== *)
(** Total correctness, and disks that work: operations that return, with a
    postcondition, and the operations of a shard's disk state (src/node/diskstate.go)
    on a disk that answers every request. *)

From S2P Require Import Prelude Fs JsonStruct Wal Snapshot DiskState.

(** ** Total correctness *)

(** [c] returns, and its result and final state satisfy [Q]. *)
Definition twp {S E A} (c : M S E A) (Q : A -> S -> Prop) (s : S) : Prop :=
  wp c (fun o s' => match o with Ret a => Q a s' | _ => False end) s.

Section twp.
Context {S E : Type}.

Lemma twp_ret {A} (a : A) (Q : A -> S -> Prop) s : Q a s -> twp (E := E) (io_ret a) Q s.
Proof. done. Qed.

Lemma twp_get (Q : S -> S -> Prop) s : Q s s -> twp (E := E) io_get Q s.
Proof. done. Qed.

Lemma twp_modify f (Q : unit -> S -> Prop) s : Q tt (f s) -> twp (E := E) (io_modify f) Q s.
Proof. done. Qed.

Lemma twp_bind {A B} (c : M S E A) (k : A -> M S E B) Q s :
  twp c (fun a s' => twp (k a) Q s') s -> twp (io_bind c k) Q s.
Proof. unfold twp. intros H. apply wp_bind. eapply wp_mono; [exact H|]. by intros [a|e|] s'. Qed.

Lemma twp_attempt {F A} (c : M S F A) (Q : result F A -> S -> Prop) s :
  twp c (fun a s' => Q (Ok a) s') s -> twp (E := E) (attempt c) Q s.
Proof. unfold twp. intros H. apply wp_attempt. eapply wp_mono; [exact H|]. by intros [a|e|] s'. Qed.

Lemma twp_map_err {F A} (f : F -> E) (c : M S F A) Q s : twp c Q s -> twp (io_map_err f c) Q s.
Proof. unfold twp. intros H. apply wp_map_err. eapply wp_mono; [exact H|]. by intros [a|e|] s'. Qed.

Lemma twp_zoom {T A} (get : S -> T) put (c : M T E A) Q s :
  twp c (fun a t => Q a (put t s)) (get s) -> twp (zoom get put c) Q s.
Proof. unfold twp. intros H. by apply wp_zoom. Qed.

Lemma twp_mono {A} (c : M S E A) (Q R : A -> S -> Prop) s :
  twp c Q s -> (forall a s', Q a s' -> R a s') -> twp c R s.
Proof. unfold twp. intros H HR. eapply wp_mono; [exact H|]. intros [a|e|] s'; eauto. Qed.

(** What holds of every result holds of the one it has. *)
Lemma twp_and {A} (c : M S E A) (Q : A -> S -> Prop) P s :
  twp c Q s -> wp c P s -> twp c (fun a s' => Q a s' /\ P (Ret a) s') s.
Proof. unfold twp, wp. destruct (c s) as [[a|e|] s']; naive_solver. Qed.

Lemma twp_use {A} (c : M S E A) (Q : A -> S -> Prop) s :
  twp c Q s -> exists a s', c s = (Ret a, s') /\ Q a s'.
Proof. unfold twp, wp. destruct (c s) as [[a|e|] s']; naive_solver. Qed.
End twp.

(** ** A disk that works *)

Lemma twp_op full err crash w (Q : unit -> World -> Prop) :
  sched w = [] -> Q tt (healthy (full (files w))) -> twp (os_op full err crash) Q w.
Proof. unfold twp, wp, os_op. by intros ->. Qed.

Lemma twp_atomic full w (Q : unit -> World -> Prop) :
  sched w = [] -> Q tt (healthy (full (files w))) -> twp (os_atomic full) Q w.
Proof. apply twp_op. Qed.

Lemma twp_Rename old new w (Q : unit -> World -> Prop) :
  sched w = [] -> is_Some (files w !! old) -> Q tt (healthy (rename_files old new (files w))) ->
  twp (os_Rename old new) Q w.
Proof. intros Hs [d Hd] HQ. unfold twp, wp, os_Rename. rewrite Hd. by apply twp_atomic. Qed.

(** An operation whose error is dropped cannot fail. *)
Lemma twp_ignore {T E F A} (c : M T F A) (Q : unit -> T -> Prop) s :
  wp c (fun o s' => o <> Crashed /\ Q tt s') s -> twp (E := E) (ignore c) Q s.
Proof. unfold twp. intros H. apply wp_ignore. eapply wp_mono; [exact H|]. by intros [a|e|] s' [? ?]. Qed.

Lemma twp_ignore_ok {T E F A} (c : M T F A) (Q : unit -> T -> Prop) s :
  twp c (fun _ s' => Q tt s') s -> twp (E := E) (ignore c) Q s.
Proof. intros Hc. apply twp_ignore. eapply wp_mono; [exact Hc|]. by intros [a|e|] s' ?. Qed.

Lemma twp_Remove_ignored {F} path w :
  sched w = [] -> twp (E := F) (ignore (os_Remove path)) (fun _ w' => sched w' = []) w.
Proof.
  intros Hs. apply twp_ignore. unfold wp, os_Remove. destruct (files w !! path); [|done].
  unfold os_atomic, os_op. by rewrite Hs.
Qed.

Section disk.
Context `{Codec WalEntry} `{Codec Snapshot}.

Lemma twp_writeAndSync path data w :
  sched w = [] -> twp (writeAndSync path data) (fun _ w' => sched w' = [] /\ is_Some (files w' !! path)) w.
Proof.
  intros Hs. unfold writeAndSync. apply twp_bind, twp_atomic; [done|]. cbn beta.
  apply twp_bind, twp_attempt, twp_op; [done|]. apply twp_bind, twp_attempt, twp_atomic; [done|].
  apply twp_atomic; [done|]. split; [done|]. simpl. unfold append_to. rewrite lookup_insert_eq. eauto.
Qed.

Lemma twp_Save path s w :
  FormatVersion s = 0 -> sched w = [] -> twp (Save path s) (fun _ w' => sched w' = []) w.
Proof.
  intros Hf Hs. unfold Save, with_format. rewrite Hf. simpl. apply twp_bind, twp_map_err.
  eapply twp_mono; [by apply twp_writeAndSync|]. cbn beta. intros _ w1 [Hs1 Htmp].
  apply twp_bind, twp_attempt, twp_Rename; [done..|]. done.
Qed.

Lemma twp_rotate_step base i w :
  sched w = [] -> twp (rotate_step base i) (fun _ w' => sched w' = []) w.
Proof.
  intros Hs. unfold rotate_step. unfold twp, wp, io_bind, attempt, os_Stat, os_atomic, os_op. rewrite Hs. simpl.
  destruct (files w !! snapshotPathFor base i) eqn:Hf; [|done].
  apply (twp_map_err DsRotate). apply twp_Rename; [done|by eexists|done].
Qed.

Lemma twp_rotateSnapshots base retention w :
  sched w = [] -> twp (rotateSnapshots base retention) (fun _ w' => sched w' = []) w.
Proof.
  intros Hs. unfold rotateSnapshots. destruct (retention <=? 1); [done|]. apply twp_bind.
  apply (twp_mono _ (fun _ w' => sched w' = [])); [|intros _ w' Hs'; by apply twp_rotate_step].
  generalize (Z.to_nat (retention - 1)). intros n. revert w Hs. induction n as [|n IH]; intros w Hs; [done|].
  cbn [rotate_from]. apply twp_bind.
  apply (twp_mono _ (fun _ w' => sched w' = [])).
  { destruct (_ =? _); [by apply twp_Remove_ignored|done]. }
  intros _ w1 Hs1. apply twp_bind. eapply twp_mono; [by apply twp_rotate_step|]. eauto.
Qed.

(** The write-ahead log is usable: no earlier write has failed. *)
Definition usable (ds : diskState) : Prop := encErr (walFile ds) = false.

Lemma twp_appendWAL e ds W :
  usable ds -> sched W = [] -> twp (appendWAL e) (fun _ s' => usable (fst s') /\ sched (snd s') = []) (ds, W).
Proof.
  intros Hu Hs. unfold appendWAL. apply twp_bind, twp_map_err, twp_zoom. cbn [fst snd].
  unfold WAL_Append. apply twp_bind. unfold twp, wp, encoder_Encode, on_world, zoom. cbn [fst snd].
  unfold usable in Hu. rewrite Hu. unfold file_Write, os_op. rewrite Hs. cbn [fst snd]. done.
Qed.

Lemma twp_replaceSnapshot term version kv ds W :
  sched W = [] -> twp (replaceSnapshot term version kv) (fun _ s' => usable (fst s') /\ sched (snd s') = []) (ds, W).
Proof.
  intros Hs. unfold replaceSnapshot. apply twp_bind, twp_get. cbn [fst]. apply twp_bind, twp_zoom. cbn [snd].
  eapply twp_mono; [by apply twp_rotateSnapshots|]. cbn beta. intros _ W1 Hs1.
  apply twp_bind, twp_zoom. cbn [fst snd]. apply twp_map_err.
  eapply twp_mono; [by apply twp_Save|]. cbn beta. intros _ W2 Hs2.
  apply twp_bind, twp_map_err, twp_zoom. cbn [fst snd]. unfold WAL_Truncate. apply twp_bind, twp_get. cbn [fst].
  apply twp_bind, twp_zoom. cbn [snd]. apply twp_atomic; [done|]. cbn [fst snd]. by apply twp_modify, twp_modify.
Qed.

Lemma twp_maybeSnapshot term version kv ds W :
  usable ds -> sched W = [] ->
  twp (maybeSnapshot term version kv) (fun _ s' => usable (fst s') /\ sched (snd s') = []) (ds, W).
Proof.
  intros Hu Hs. unfold maybeSnapshot. apply twp_bind, twp_get. cbn [fst].
  destruct (negb _); [by apply twp_ret|by apply twp_replaceSnapshot].
Qed.
End disk.
