(* ===== verification/StateMachine.v ===== *)
(** The shard state machine, src/node/statemachine.go: the one place where
    entries and snapshots are applied to a replica's storage, replication log,
    term, version and disk state.

    The Go struct holds pointers to the replica's [Term] and [Version]; here the
    two numbers live in the state machine and the replica reads them from it.
    The storage engine is any instance of [Storage]. *)

From S2P Require Import Prelude Strconv Fs JsonStruct Storage ReplicationLog Wal Snapshot DiskState Total.

Inductive ApplyMode := ApplyWithWAL | ApplyWithoutWAL.
Inductive SnapshotMode := SnapshotPersist | SnapshotNoPersist.

Record StateSnapshot := mkStateSnapshot {
  ssTerm : Z;
  ssVersion : Z;
  ssKV : gmap string string;
}.

Record shardStateMachine (St : Type) := mkSM {
  smKV : St;
  repLog : Log;
  smTerm : Z;
  smVersion : Z;
  smDs : option diskState;
}.
Arguments mkSM {St}.
Arguments smKV {St}.
Arguments repLog {St}.
Arguments smTerm {St}.
Arguments smVersion {St}.
Arguments smDs {St}.
#[global] Instance shardStateMachine_eta St : Eta (shardStateMachine St) := fun s =>
  mkSM (smKV s) (repLog s) (smTerm s) (smVersion s) (smDs s).

Inductive smerr :=
| SmNonMonotonic (current entry : Z)
| SmStaleTerm (current entry : Z)
| SmWal (e : dserr)
| SmUnknownOp (op : string)
| SmDiskReset (e : dserr).

(** server.go: [walEntryFrom]. *)
Definition walEntryFrom (op key value : string) (term version : Z) : WalEntry :=
  mkWalEntry term version op key value.

Section statemachine.
Context {St : Type} `{Storage St}.
Local Abbreviation SM := (shardStateMachine St).

Definition newShardStateMachine (kv : St) (log : Log) (term version : Z) (ds : option diskState) : SM :=
  mkSM kv log term version ds.

Definition SM_SetDiskState (ds : option diskState) (sm : SM) : SM := sm <| smDs := ds |>.

Definition SM_Get (sm : SM) (key : string) : option string := storage_Get (smKV sm) key.

Definition SM_Size (sm : SM) : nat := storage_Size (smKV sm).

Definition SM_Snapshot (sm : SM) : StateSnapshot :=
  mkStateSnapshot (smTerm sm) (smVersion sm) (storage_Snapshot (smKV sm)).

(** Run an operation on the attached disk state; without one there is nothing
    to do. *)
Definition on_ds (c : M (diskState * World) dserr unit) : M (SM * World) dserr unit := fun s =>
  match smDs (fst s) with
  | None => (Ret tt, s)
  | Some ds => let '(r, (ds', w)) := c (ds, snd s) in (r, (fst s <| smDs := Some ds' |>, w))
  end.

(** The operation of an entry on the storage engine. *)
Definition apply_op (e : Entry) (kv : St) : result smerr St :=
  if decide (eOp e = "put") then Ok (storage_Put kv (eKey e) (eValue e))
  else if decide (eOp e = "delete") then Ok (storage_Delete kv (eKey e))
  else Fail (SmUnknownOp (eOp e)).

(** The in-memory half of [Apply]. *)
Definition SM_commit (e : Entry) : M (SM * World) smerr unit :=
  do s <- io_get;
  do kv <- of_result (apply_op e (smKV (fst s)));
  io_modify (fun s => (fst s <| smKV := kv |> <| smVersion := eVersion e |> <| smTerm := eTerm e |>
                             <| repLog ::= fun l => Log_Append l e |>, snd s)).

Definition SM_Apply (e : Entry) (mode : ApplyMode) : M (SM * World) smerr unit :=
  do s <- io_get;
  let sm := fst s in
  if negb (eVersion e =? u64_succ (smVersion sm))
  then io_fail (SmNonMonotonic (smVersion sm) (eVersion e))
  else if eTerm e <? smTerm sm then io_fail (SmStaleTerm (smTerm sm) (eTerm e))
  else
    do_ match mode with
        | ApplyWithWAL =>
            io_map_err SmWal (on_ds (appendWAL
              (walEntryFrom (eOp e) (eKey e) (eValue e) (eTerm e) (eVersion e))))
        | ApplyWithoutWAL => io_ret tt
        end;
    SM_commit e.

Definition SM_ApplySnapshot (snap : StateSnapshot) (mode : SnapshotMode) : M (SM * World) smerr unit :=
  do_ io_modify (fun s => (fst s <| smKV ::= fun kv => storage_ApplySnapshot kv (ssKV snap) |>
                                 <| smVersion := ssVersion snap |> <| smTerm := ssTerm snap |>
                                 <| repLog ::= Log_Reset |>, snd s));
  match mode with
  | SnapshotPersist =>
      io_map_err SmDiskReset (on_ds (resetSnapshot (ssTerm snap) (ssVersion snap) (ssKV snap)))
  | SnapshotNoPersist => io_ret tt
  end.

Definition SM_EntriesSince (sm : SM) (version : Z) : list Entry * bool := Log_Since (repLog sm) version.

Definition SM_ResetLog (sm : SM) : SM := sm <| repLog ::= Log_Reset |>.

Definition SM_LogLen (sm : SM) : nat := Log_Len (repLog sm).

(** ** The abstract state machine

    A replica is a version, a term and a finite map; entries move it forward. *)

Definition kv_step (m : gmap string string) (e : Entry) : gmap string string :=
  if decide (eOp e = "put") then <[eKey e := eValue e]> m
  else if decide (eOp e = "delete") then delete (eKey e) m else m.

Definition known_op (e : Entry) : Prop := eOp e = "put" \/ eOp e = "delete".

Definition contents (sm : SM) : gmap string string := storage_Snapshot (smKV sm).

Context `{!StorageLaws St}.

Lemma apply_op_contents e kv kv' :
  apply_op e kv = Ok kv' -> known_op e /\ storage_Snapshot kv' = kv_step (storage_Snapshot kv) e.
Proof.
  unfold apply_op, kv_step, known_op. repeat case_decide; intros; simplify_eq; split; auto.
  - apply storage_put_snapshot.
  - apply storage_delete_snapshot.
Qed.

Lemma apply_op_known e kv : known_op e -> exists kv', apply_op e kv = Ok kv'.
Proof. unfold apply_op. intros [-> | ->]; simpl; eauto. Qed.

(** [e] is the next entry for [sm]. *)
Definition next_entry (sm : SM) (e : Entry) : Prop :=
  eVersion e = u64_succ (smVersion sm) /\ smTerm sm <= eTerm e.

(** The state after [e], whatever happened to the disk. *)
Definition advanced (sm : SM) (e : Entry) (sm' : SM) : Prop :=
  smVersion sm' = eVersion e /\ smTerm sm' = eTerm e /\
  contents sm' = kv_step (contents sm) e /\ repLog sm' = Log_Append (repLog sm) e.

(** The state as it was, up to the disk. *)
Definition unmoved (sm sm' : SM) : Prop :=
  smVersion sm' = smVersion sm /\ smTerm sm' = smTerm sm /\ smKV sm' = smKV sm /\ repLog sm' = repLog sm.

Lemma unmoved_refl sm : unmoved sm sm.
Proof. done. Qed.

Lemma on_ds_unmoved c s : wp (on_ds c) (fun _ s' => unmoved (fst s) (fst s')) s.
Proof.
  unfold wp, on_ds. destruct (smDs (fst s)); [|apply unmoved_refl]. by destruct (c _) as [? [? ?]].
Qed.

(** [Apply] either advances the replica by exactly the given entry (only
    when it is the next version, its term is not stale and its operation is
    known, and then version, term, contents and replication log all move
    together) or leaves version, term, contents and log as they were,
    whichever check or disk operation refused it. *)
Lemma SM_Apply_spec e mode sm W :
  let '(o, (sm', _)) := SM_Apply e mode (sm, W) in
  (o = Ret tt -> next_entry sm e /\ known_op e /\ advanced sm e sm') /\
  (o <> Ret tt -> unmoved sm sm').
Proof.
  enough (Hwp : wp (SM_Apply e mode) (fun o s' =>
    (o = Ret tt -> next_entry sm e /\ known_op e /\ advanced sm e (fst s')) /\
    (o <> Ret tt -> unmoved sm (fst s'))) (sm, W)).
  { unfold wp in Hwp. by destruct (SM_Apply e mode (sm, W)) as [o [sm' W']]. }
  unfold SM_Apply. apply wp_bind, wp_get. simpl.
  destruct (Z.eqb_spec (eVersion e) (u64_succ (smVersion sm))); [simpl|by split].
  destruct (Z.ltb_spec (eTerm e) (smTerm sm)); [by split|].
  apply wp_bind.
  assert (Hgo : forall s' : SM * World, unmoved sm (fst s') ->
    wp (SM_commit e)
       (fun o s' => (o = Ret tt -> next_entry sm e /\ known_op e /\ advanced sm e (fst s')) /\
                    (o <> Ret tt -> unmoved sm (fst s'))) s').
  { intros s' (Hv & Ht & Hkv & Hl). unfold SM_commit. apply wp_bind, wp_get. simpl. apply wp_bind. rewrite Hkv.
    destruct (apply_op e (smKV sm)) as [kv|err] eqn:Ha; simpl.
    - apply apply_op_contents in Ha as [Hk Hc]. apply wp_ret, wp_modify. split; [|done]. intros _.
      split_and!; [by split|done|]. split_and!; simpl; [done|done|done|by rewrite Hl].
    - apply wp_fail. by split. }
  destruct mode; [|apply wp_ret, Hgo, unmoved_refl].
  apply wp_map_err. eapply wp_mono; [apply on_ds_unmoved|]. simpl. intros o s' Hu.
  destruct o as [[]|x|]; [by apply Hgo|by split|by split].
Qed.

(** ** Refinement of the history of writes

    [refines base kv0 hist sm]: [sm] is the replica that was last reset to the
    contents [kv0] at version [base] and has applied [hist] since. *)
Definition refines (base : Z) (kv0 : gmap string string) (hist : list Entry) (sm : SM) : Prop :=
  log_of base hist (repLog sm) /\ smVersion sm = base + Z.of_nat (length hist) /\
  contents sm = foldl kv_step kv0 hist.

Lemma unmoved_refines base kv0 hist sm sm' :
  unmoved sm sm' -> refines base kv0 hist sm -> refines base kv0 hist sm'.
Proof. unfold refines, contents. by intros (-> & _ & -> & ->). Qed.

Lemma advanced_refines base kv0 hist sm e sm' :
  refines base kv0 hist sm -> advanced sm e sm' -> eVersion e = smVersion sm + 1 ->
  refines base kv0 (hist ++ [e]) sm'.
Proof.
  intros (Hl & Hv & Hc) (Hv' & _ & Hc' & Hl') He. split_and!.
  - rewrite Hl'. apply log_of_append; [done|lia].
  - rewrite Hv', length_app. simpl. lia.
  - by rewrite Hc', Hc, foldl_app.
Qed.

(** [ApplySnapshot] sets the memory whatever happens to the disk. *)
Lemma wp_SM_ApplySnapshot snap pmode sm W :
  wp (SM_ApplySnapshot snap pmode) (fun _ s' =>
    smVersion (fst s') = ssVersion snap /\ smTerm (fst s') = ssTerm snap /\
    contents (fst s') = ssKV snap /\ repLog (fst s') = Log_Reset (repLog sm)) (sm, W).
Proof.
  unfold SM_ApplySnapshot. apply wp_bind, wp_modify. cbn [fst snd].
  match goal with |- wp _ _ (?a, W) => set (sm1 := a) end.
  assert (Hc : contents sm1 = ssKV snap) by apply storage_apply_snapshot.
  destruct pmode; [|by apply wp_ret].
  apply wp_map_err. eapply wp_mono; [apply on_ds_unmoved|]. cbn [fst].
  unfold contents in *. intros o s' (Hv & Ht & Hk & Hl). rewrite <- Hk in Hc. by destruct o.
Qed.

(** ** Sessions

    What a state machine is for its replica: the entries applied since the last
    snapshot, from which the contents, the version and the answers of the bounded
    log are computed.  [hLogged] of the entries have been applied since the log
    was last emptied; the replica also sets the term on its own. *)
Record history := mkHistory {
  hBase : Z;
  hStart : gmap string string;
  hTerm : Z;
  hEntries : list Entry;
  hLogged : nat;
}.
#[local] Instance history_eta : Eta history := fun h =>
  mkHistory (hBase h) (hStart h) (hTerm h) (hEntries h) (hLogged h).

Definition h_version (h : history) : Z := hBase h + Z.of_nat (length (hEntries h)).
Definition h_contents (h : history) : gmap string string := foldl kv_step (hStart h) (hEntries h).

Definition h_push (e : Entry) (h : history) : history :=
  h <| hEntries ::= fun es => es ++ [e] |> <| hTerm := eTerm e |> <| hLogged ::= S |>.

Definition h_install (snap : StateSnapshot) : history := mkHistory (ssVersion snap) (ssKV snap) (ssTerm snap) [] 0.

(** The entries after version [v]: all of them, as long as the one after [v] is
    among the last [size] entries since the log was emptied. *)
Definition h_kept (size : Z) (h : history) : Z := Z.min size (Z.of_nat (hLogged h)).
Definition h_since (size : Z) (h : history) (v : Z) : list Entry * bool :=
  if (hLogged h =? 0)%nat then ([], true)
  else if u64_succ v <=? h_version h - h_kept size h then ([], false)
  else (filter (fun e => v < eVersion e) (hEntries h), true).

Inductive sm_op :=
| OpApply (e : Entry) (mode : ApplyMode)
| OpInstall (snap : StateSnapshot) (mode : SnapshotMode)
| OpResetLog
| OpTerm (term : Z)
| OpGet (key : string)
| OpEntriesSince (version : Z).

Inductive sm_answer := Done (r : result smerr unit) | Value (o : option string) | Entries (res : list Entry * bool).

(** The session of a history.  The disk may fail an entry that passed the checks
    of its version and term, and the saving of a snapshot, which is in memory by
    then. *)
Inductive hist_step (size : Z) (h : history) : sm_op -> sm_answer -> history -> Prop :=
| hist_apply e mode :
    eVersion e = h_version h + 1 -> hTerm h <= eTerm e -> known_op e ->
    hist_step size h (OpApply e mode) (Done (Ok tt)) (h_push e h)
| hist_gap e mode :
    eVersion e <> h_version h + 1 ->
    hist_step size h (OpApply e mode) (Done (Fail (SmNonMonotonic (h_version h) (eVersion e)))) h
| hist_stale e mode :
    eVersion e = h_version h + 1 -> eTerm e < hTerm h ->
    hist_step size h (OpApply e mode) (Done (Fail (SmStaleTerm (hTerm h) (eTerm e)))) h
| hist_unknown e mode :
    eVersion e = h_version h + 1 -> hTerm h <= eTerm e -> ~ known_op e ->
    hist_step size h (OpApply e mode) (Done (Fail (SmUnknownOp (eOp e)))) h
| hist_unlogged e x :
    eVersion e = h_version h + 1 -> hTerm h <= eTerm e ->
    hist_step size h (OpApply e ApplyWithWAL) (Done (Fail (SmWal x))) h
| hist_install snap mode :
    hist_step size h (OpInstall snap mode) (Done (Ok tt)) (h_install snap)
| hist_unsaved snap x :
    hist_step size h (OpInstall snap SnapshotPersist) (Done (Fail (SmDiskReset x))) (h_install snap)
| hist_reset : hist_step size h OpResetLog (Done (Ok tt)) (h <| hLogged := 0%nat |>)
| hist_term t : hist_step size h (OpTerm t) (Done (Ok tt)) (h <| hTerm := t |>)
| hist_get k : hist_step size h (OpGet k) (Value (h_contents h !! k)) h
| hist_since v : hist_step size h (OpEntriesSince v) (Entries (h_since size h v)) h.

Inductive hist_run (size : Z) : history -> list sm_op -> list sm_answer -> history -> Prop :=
| hist_nil h : hist_run size h [] [] h
| hist_cons h op a h1 ops answers h2 :
    hist_step size h op a h1 -> hist_run size h1 ops answers h2 -> hist_run size h (op :: ops) (a :: answers) h2.

(** One call; [None] when the process dies in it. *)
Definition sm_done (res : outcome smerr unit * (SM * World)) : option sm_answer * (SM * World) :=
  (match fst res with Ret _ => Some (Done (Ok tt)) | Err e => Some (Done (Fail e)) | Crashed => None end, snd res).

Definition sm_call (op : sm_op) (s : SM * World) : option sm_answer * (SM * World) :=
  match op with
  | OpApply e mode => sm_done (SM_Apply e mode s)
  | OpInstall snap mode => sm_done (SM_ApplySnapshot snap mode s)
  | OpResetLog => (Some (Done (Ok tt)), (SM_ResetLog (fst s), snd s))
  | OpTerm t => (Some (Done (Ok tt)), (fst s <| smTerm := t |>, snd s))
  | OpGet k => (Some (Value (SM_Get (fst s) k)), s)
  | OpEntriesSince v => (Some (Entries (SM_EntriesSince (fst s) v)), s)
  end.

(** Calls until the process dies, with their answers. *)
Fixpoint sm_session (ops : list sm_op) (s : SM * World) : list sm_answer * (SM * World) :=
  match ops with
  | [] => ([], s)
  | op :: ops' =>
      match sm_call op s with
      | (None, s') => ([], s')
      | (Some a, s') => let '(answers, s'') := sm_session ops' s' in (a :: answers, s'')
      end
  end.

(** [sm] holds the history [h], with a log of [size] entries. *)
Record holds_history (size : Z) (h : history) (sm : SM) : Prop := {
  hh_size : maxSize (repLog sm) = size /\ 0 < size;
  hh_base : 0 <= hBase h;
  hh_version : smVersion sm = h_version h;
  hh_term : smTerm sm = hTerm h;
  hh_contents : contents sm = h_contents h;
  hh_contig : contig (hBase h) (hEntries h);
  hh_logged : (hLogged h <= length (hEntries h))%nat;
  hh_log : entries (repLog sm) = drop (length (hEntries h) - Z.to_nat (h_kept size h)) (hEntries h);
}.

Lemma holds_history_unmoved size h sm sm' : unmoved sm sm' -> holds_history size h sm -> holds_history size h sm'.
Proof. intros (Hv & Ht & Hk & Hl) []. split; unfold contents in *; by rewrite ?Hv, ?Ht, ?Hk, ?Hl. Qed.

Lemma holds_history_push size h sm e sm' :
  holds_history size h sm -> advanced sm e sm' -> eVersion e = h_version h + 1 -> holds_history size (h_push e h) sm'.
Proof.
  intros [[Hs Hs0] Hb Hv Ht Hc Hcon Hlg Hlog] (Hv' & Ht' & Hc' & Hl') He.
  assert (Hlen : length (hEntries (h_push e h)) = S (length (hEntries h))) by (simpl; rewrite length_app; simpl; lia).
  split; rewrite ?Hl'; try done.
  - unfold h_version in *. rewrite Hlen. simpl. lia.
  - rewrite Hc', Hc. unfold h_contents. simpl. by rewrite foldl_app.
  - simpl. apply contig_app. split; [done|]. simpl. split; [|done]. unfold h_version in He. lia.
  - rewrite Hlen. simpl. lia.
  - unfold Log_Append. cbn [entries maxSize]. rewrite Hs, Hlog, Hlen, length_drop. unfold h_kept in *.
    change (hLogged (h_push e h)) with (S (hLogged h)). change (hEntries (h_push e h)) with (hEntries h ++ [e]).
    set (n := length (hEntries h)) in *. set (k := Z.to_nat (Z.min size (Z.of_nat (hLogged h)))) in *.
    rewrite drop_app_le by (fold n; lia). f_equal.
    destruct (Z.leb_spec size (Z.of_nat (n - (n - k)))).
    + replace (S n - Z.to_nat (Z.min size (Z.of_nat (S (hLogged h)))))%nat with ((n - k) + 1)%nat by lia.
      rewrite <- drop_drop. by destruct (drop _ (hEntries h)).
    + f_equal. lia.
Qed.

Lemma holds_history_install size h sm snap sm' :
  holds_history size h sm -> 0 <= ssVersion snap ->
  smVersion sm' = ssVersion snap -> smTerm sm' = ssTerm snap -> contents sm' = ssKV snap ->
  repLog sm' = Log_Reset (repLog sm) -> holds_history size (h_install snap) sm'.
Proof.
  intros [Hs _ _ _ _ _ _ _] H0 Hv Ht Hc Hl. split; rewrite ?Hl; try done. unfold h_version. simpl. lia.
Qed.

(** The log answers from its window what the history answers. *)
Lemma holds_history_since size h sm v :
  holds_history size h sm -> u64 v -> SM_EntriesSince sm v = h_since size h v.
Proof.
  intros [[Hs Hs0] Hb Hv Ht Hc Hcon Hlg Hlog] Hu. unfold SM_EntriesSince, Log_Since, h_since. rewrite Hlog.
  unfold h_kept in *. set (n := length (hEntries h)) in *. set (k := Z.to_nat (Z.min size (Z.of_nat (hLogged h)))) in *.
  destruct (Nat.eqb_spec (hLogged h) 0) as [H0|H0]; [by rewrite drop_ge by (fold n; lia)|].
  rewrite <- (take_drop (n - k) (hEntries h)) in Hcon. apply contig_app in Hcon as [Hpre Hsuf].
  assert (Hpl : length (take (n - k) (hEntries h)) = (n - k)%nat) by (rewrite length_take; fold n; lia).
  rewrite Hpl in Hsuf.
  assert (Hlen : length (drop (n - k) (hEntries h)) = k) by (rewrite length_drop; fold n; lia).
  assert (Hfilter : hBase h + Z.of_nat (n - k) <= v ->
    filter (fun e => v < eVersion e) (hEntries h) = filter (fun e => v < eVersion e) (drop (n - k) (hEntries h))).
  { intros Hw. rewrite <- (take_drop (n - k) (hEntries h)) at 1. rewrite list.filter_app.
    rewrite (contig_filter_none (hBase h)); [done|done|lia]. }
  destruct (drop (n - k) (hEntries h)) as [|e0 es] eqn:Hd; [simpl in Hlen; lia|].
  destruct Hsuf as [He0 _]. rewrite He0. unfold h_version. fold n.
  replace (hBase h + Z.of_nat n - Z.min size (Z.of_nat (hLogged h))) with (hBase h + Z.of_nat (n - k)) by lia.
  destruct (Z.ltb_spec (u64_succ v) (hBase h + Z.of_nat (n - k) + 1)), (Z.leb_spec (u64_succ v) (hBase h + Z.of_nat (n - k)));
    try lia; [done|].
  rewrite Hfilter; [done|]. unfold u64_succ, wrap64, u64, two64 in *.
  pose proof (Z.mod_le (v + 1) 18446744073709551616). lia.
Qed.

(** Why [Apply] answered as it did. *)
Definition apply_answer (sm : SM) (e : Entry) (mode : ApplyMode) (o : outcome smerr unit) : Prop :=
  let next := eVersion e = smVersion sm + 1 in
  let current := smTerm sm <= eTerm e in
  match o with
  | Ret _ => next /\ current /\ known_op e
  | Err (SmNonMonotonic cur v) => ~ next /\ cur = smVersion sm /\ v = eVersion e
  | Err (SmStaleTerm cur t) => next /\ eTerm e < smTerm sm /\ cur = smTerm sm /\ t = eTerm e
  | Err (SmUnknownOp op) => next /\ current /\ ~ known_op e /\ op = eOp e
  | Err (SmWal _) => next /\ current /\ mode = ApplyWithWAL
  | Err (SmDiskReset _) => False
  | Crashed => True
  end.

Lemma wp_SM_Apply_answer e mode sm W : 0 <= smVersion sm < two64 - 1 ->
  wp (SM_Apply e mode) (fun o _ => apply_answer sm e mode o) (sm, W).
Proof.
  intros Hv. unfold SM_Apply. apply wp_bind, wp_get. cbn [fst snd]. rewrite u64_succ_lt by (unfold u64; lia).
  destruct (Z.eqb_spec (eVersion e) (smVersion sm + 1)) as [He|He]; cbn [negb]; [|by apply wp_fail].
  destruct (Z.ltb_spec (eTerm e) (smTerm sm)); [by apply wp_fail|]. apply wp_bind.
  assert (Hcommit : forall s, wp (SM_commit e) (fun o _ => apply_answer sm e mode o) s).
  { intros s. unfold SM_commit. apply wp_bind, wp_get, wp_bind. unfold apply_op, apply_answer, known_op.
    repeat case_decide; simpl; [apply wp_ret, wp_modify; auto..|apply wp_fail; tauto]. }
  destruct mode; [|by apply wp_ret]. apply wp_map_err, wp_intro. intros [[]|x|] s _; [apply Hcommit|by split_and!|done].
Qed.

Lemma wp_SM_ApplySnapshot_answer snap mode s :
  wp (SM_ApplySnapshot snap mode) (fun o _ => match o with
    | Err (SmDiskReset _) => mode = SnapshotPersist | Err _ => False | _ => True end) s.
Proof.
  unfold SM_ApplySnapshot. apply wp_bind, wp_modify. destruct mode; [|by apply wp_ret].
  apply wp_map_err, wp_intro. by intros [[]|x|] s' _.
Qed.

(** The snapshots and numbers a call may be given: versions that [n] more entries
    do not take past the end of the counter. *)
Definition op_room (n : nat) (op : sm_op) : Prop :=
  match op with
  | OpInstall snap _ => 0 <= ssVersion snap < two64 - Z.of_nat n
  | OpEntriesSince v => u64 v
  | _ => True
  end.

Lemma sm_call_step size h sm W op n :
  holds_history size h sm -> h_version h < two64 - Z.of_nat (S n) -> op_room (S n) op ->
  match sm_call op (sm, W) with
  | (None, _) => True
  | (Some a, (sm', _)) => exists h', hist_step size h op a h' /\ holds_history size h' sm' /\ h_version h' < two64 - Z.of_nat n
  end.
Proof.
  intros Hh Hroom Hop. pose proof Hh as [_ Hb Hv Ht Hc _ _ _].
  assert (Hrange : 0 <= smVersion sm < two64 - 1) by (unfold h_version in *; lia).
  destruct op as [e mode|snap mode| |t|k|v]; cbn [sm_call op_room] in *.
  - pose proof (SM_Apply_spec e mode sm W) as Hs. pose proof (wp_SM_Apply_answer e mode sm W Hrange) as Ha. unfold wp in Ha.
    destruct (SM_Apply e mode (sm, W)) as [o [sm' W']]. destruct Hs as [Hret Herr]. unfold sm_done. cbn [fst snd].
    unfold apply_answer in Ha. rewrite Hv, Ht in Ha. destruct o as [[]|x|]; [| |done].
    + destruct Ha as (? & ? & ?). destruct (Hret eq_refl) as (_ & _ & Hadv). exists (h_push e h).
      split_and!; [by constructor|by eapply holds_history_push|]. unfold h_version in *. simpl. rewrite length_app. simpl. lia.
    + exists h. split_and!; [|eapply holds_history_unmoved; [by apply Herr|done]|lia].
      destruct x; try done; [destruct Ha as (? & -> & ->)|destruct Ha as (? & ? & -> & ->)|destruct Ha as (? & ? & ->)|destruct Ha as (? & ? & ? & ->)];
        by constructor.
  - pose proof (wp_SM_ApplySnapshot snap mode sm W) as Hs. pose proof (wp_SM_ApplySnapshot_answer snap mode (sm, W)) as Ha.
    unfold wp in Hs, Ha. destruct (SM_ApplySnapshot snap mode (sm, W)) as [o [sm' W']]. unfold sm_done. cbn [fst snd] in *.
    destruct Hs as (? & ? & ? & ?). destruct o as [[]|x|]; [| |done]; exists (h_install snap);
      (split_and!; [|eapply holds_history_install; try done; lia|unfold h_version; simpl; lia]); [by constructor|].
    destruct x; try done. subst mode. constructor.
  - exists (h <| hLogged := 0%nat |>). split_and!; [constructor| |unfold h_version in *; simpl; lia].
    destruct Hh. split; try done; simpl; [lia|]. unfold h_kept. simpl. by rewrite drop_ge by lia.
  - exists (h <| hTerm := t |>). split_and!; [constructor|by destruct Hh|unfold h_version in *; simpl; lia].
  - exists h. split_and!; [|done|lia]. unfold SM_Get. cbn [fst]. rewrite storage_get_snapshot.
    unfold contents in Hc. rewrite Hc. constructor.
  - exists h. split_and!; [|done|lia]. cbn [fst]. rewrite (holds_history_since _ _ _ _ Hh Hop). constructor.
Qed.

(** *** On a disk that works *)

(** The disk answers, and the log has not failed before. *)
Definition sm_works (s : SM * World) : Prop :=
  sched (snd s) = [] /\ match smDs (fst s) with Some ds => usable ds | None => True end.

(** Disk operations of a state machine with or without a disk. *)
Lemma twp_on_ds (c : M (diskState * World) dserr unit) sm W :
  sm_works (sm, W) ->
  (forall ds, smDs sm = Some ds -> twp c (fun _ s' => usable (fst s') /\ sched (snd s') = []) (ds, W)) ->
  twp (on_ds c) (fun _ s' => sm_works s' /\ smTerm (fst s') = smTerm sm /\ smVersion (fst s') = smVersion sm) (sm, W).
Proof.
  intros Hw Hc. unfold twp, wp, on_ds. cbn [fst snd]. destruct (smDs sm) as [ds|] eqn:Hds; [|done].
  specialize (Hc ds eq_refl). apply twp_use in Hc as ([] & [ds' W'] & -> & Hu & Hs). by split_and!.
Qed.

Lemma twp_SM_Apply e sm W :
  next_entry sm e -> known_op e -> sm_works (sm, W) ->
  twp (SM_Apply e ApplyWithWAL) (fun _ s' => sm_works s') (sm, W).
Proof.
  intros [Hv Ht] Hk Hw. unfold SM_Apply. apply twp_bind, twp_get. cbn [fst]. rewrite Hv, Z.eqb_refl. cbn [negb].
  destruct (Z.ltb_spec (eTerm e) (smTerm sm)); [lia|]. apply twp_bind, twp_map_err.
  eapply twp_mono; [apply twp_on_ds; [done|]|].
  { intros ds Hds. destruct Hw as [Hs Hu]. cbn [fst snd] in *. rewrite Hds in Hu. by apply twp_appendWAL. }
  cbn beta. intros _ [sm1 W1] ((Hs & Hu) & _). unfold SM_commit. apply twp_bind, twp_get. cbn [fst].
  destruct (apply_op_known e (smKV sm1) Hk) as [kv' ->]. apply twp_bind, twp_ret, twp_modify. by split.
Qed.

Lemma twp_SM_ApplySnapshot snap sm W :
  sched W = [] -> twp (SM_ApplySnapshot snap SnapshotPersist) (fun _ s' => sm_works s') (sm, W).
Proof.
  intros Hs. unfold SM_ApplySnapshot. apply twp_bind, twp_modify. cbn [fst snd]. apply twp_map_err.
  unfold twp, wp, on_ds. cbn [fst snd smDs].
  match goal with |- context [smDs ?x] => set (sm1 := x) end.
  destruct (smDs sm1) as [ds|] eqn:Hds; [|by split; [|cbn [fst]; rewrite Hds]].
  destruct (twp_use _ _ _ (twp_replaceSnapshot (ssTerm snap) (ssVersion snap) (ssKV snap) ds W Hs))
    as ([] & [ds' W'] & Heq & Hu & Hs').
  unfold resetSnapshot. rewrite Heq. by split.
Qed.
(** Then nothing fails for the disk's sake. *)
Definition disk_error (a : sm_answer) : Prop :=
  match a with Done (Fail (SmWal _ | SmDiskReset _)) => True | _ => False end.

Lemma sm_call_works op s : sm_works s ->
  exists a s', sm_call op s = (Some a, s') /\ ~ disk_error a /\ sm_works s'.
Proof.
  destruct s as [sm W]. intros Hw.
  assert (Hdone : forall c : M (SM * World) smerr unit,
    wp c (fun o s' => o <> Crashed /\ (forall x, o <> Err (SmWal x)) /\ (forall x, o <> Err (SmDiskReset x)) /\ sm_works s') (sm, W) ->
    exists a s', sm_done (c (sm, W)) = (Some a, s') /\ ~ disk_error a /\ sm_works s').
  { intros c. unfold wp, sm_done. destruct (c (sm, W)) as [[[]|x|] s']; cbn [fst snd]; intros (Hc & H1 & H2 & Hs'); [| |done].
    - exists (Done (Ok tt)), s'. split_and!; [done|by intros []|done].
    - exists (Done (Fail x)), s'. split_and!; [done| |done]. intros Hx. destruct x; try done; [by eapply H1|by eapply H2]. }
  destruct op as [e mode|snap mode| |t|k|v]; cbn [sm_call]; try (eexists _, _; split_and!; [reflexivity|by intros []|exact Hw]).
  - apply Hdone. unfold SM_Apply. apply wp_bind, wp_get. cbn [fst]. destruct (negb _); [by apply wp_fail|].
    destruct (_ <? _); [by apply wp_fail|].
    assert (Hcommit : forall s1, sm_works s1 -> wp (SM_commit e) (fun o s' => o <> Crashed /\ (forall x, o <> Err (SmWal x)) /\
      (forall x, o <> Err (SmDiskReset x)) /\ sm_works s') s1).
    { intros [sm1 W1] [Hs1 Hu1]. unfold SM_commit. apply wp_bind, wp_get, wp_bind. unfold apply_op.
      repeat case_decide; simpl; [apply wp_ret, wp_modify; by split_and!..|by apply wp_fail; split_and!]. }
    apply wp_bind. destruct mode; [|apply wp_ret; by apply Hcommit]. apply wp_map_err.
    eapply wp_mono; [apply (twp_on_ds _ sm W Hw)|cbn beta; intros [[]|x|] s1 Hs1; [|done|done]; apply Hcommit, Hs1].
    intros ds Hds. destruct Hw as [Hs Hu]. cbn [fst snd] in *. rewrite Hds in Hu. by apply twp_appendWAL.
  - apply Hdone. destruct mode; [|unfold SM_ApplySnapshot; apply wp_bind, wp_modify, wp_ret; by split_and!].
    eapply wp_mono; [apply twp_SM_ApplySnapshot, Hw|]. by intros [[]|x|] s' Hs'.
Qed.

Lemma sm_session_works ops s answers s' : sm_works s -> sm_session ops s = (answers, s') ->
  length answers = length ops /\ Forall (fun a => ~ disk_error a) answers.
Proof.
  revert s answers. induction ops as [|op ops IH]; intros s answers Hs; cbn [sm_session]; [by intros [= <- <-]|].
  destruct (sm_call_works op s Hs) as (a & s1 & -> & Ha & Hs1). destruct (sm_session ops s1) as [answers1 s2] eqn:Hrun.
  intros [= <- <-]. destruct (IH _ _ Hs1 Hrun) as [Hl Hall]. simpl. split; [by rewrite Hl|by constructor].
Qed.

(** C16: The state machine refines the history of its entries.  In every session
    of applied entries, installed snapshots, log resets, changes of the term,
    reads and requests for the entries after a version, with any failures of the
    disk, every answer is the one computed from the history: an entry extends it
    by one, or is refused, for a stated reason, with no effect; a snapshot starts
    a new one even if it cannot be saved; a key reads as in the history's
    contents; and the entries after a version are exactly those of the history,
    unless the first of them has been evicted from the bounded log or forgotten
    with a reset.  On a disk that works every call is answered, and none is
    refused for the disk's sake.  (Until the version has been counted up 2^64
    times.) *)
Theorem SM_refines_history size h sm W ops answers sm' W' :
  holds_history size h sm -> h_version h < two64 - Z.of_nat (length ops) -> Forall (op_room (length ops)) ops ->
  sm_session ops (sm, W) = (answers, (sm', W')) ->
  exists h', hist_run size h (take (length answers) ops) answers h' /\
    (length answers = length ops -> holds_history size h' sm') /\
    (sm_works (sm, W) -> length answers = length ops /\ Forall (fun a => ~ disk_error a) answers).
Proof.
  intros Hh Hroom Hops Hrun0. pose proof (fun Hw => sm_session_works ops (sm, W) answers (sm', W') Hw Hrun0) as Hworks.
  enough (exists h', hist_run size h (take (length answers) ops) answers h' /\
    (length answers = length ops -> holds_history size h' sm')) as (h' & ? & ?) by (by exists h').
  clear Hworks. revert Hrun0. assert (Hall : Forall (op_room (length ops)) ops) by done. clear Hops.
  revert h sm W answers Hh Hroom Hall. generalize (Nat.le_refl (length ops)). generalize (length ops) at 2 4 as n.
  induction ops as [|op ops IH]; intros n Hn h sm W answers Hh Hroom Hall Hrun; cbn [sm_session] in Hrun.
  { simplify_eq. exists h. split; [constructor|done]. }
  apply Forall_cons in Hall as [Hop Hall]. simpl in Hroom.
  assert (Hop' : op_room (S (length ops)) op) by (destruct op; simpl in *; lia || done).
  pose proof (sm_call_step size h sm W op (length ops) Hh Hroom Hop') as Hcall.
  destruct (sm_call op (sm, W)) as [[a|] [sm1 W1]]; [|simplify_eq; exists h; split; [constructor|done]].
  destruct Hcall as (h1 & Hstep & Hh1 & Hroom1). destruct (sm_session ops (sm1, W1)) as [answers1 s1] eqn:Hs. simplify_eq.
  destruct (IH n ltac:(simpl in Hn; lia) h1 sm1 W1 answers1 Hh1 Hroom1 Hall Hs) as (h2 & Hrest & Hend).
  exists h2. split; [by econstructor|]. intros [= Heq]. auto.
Qed.
End statemachine.

(** A new state machine holds the empty history. *)
Lemma new_holds_history `{StorageLaws St} (kv : St) n ds :
  storage_Snapshot kv = ∅ -> holds_history (if n <=? 0 then 1000 else n) (mkHistory 0 ∅ 0 [] 0) (mkSM kv (Log_New n) 0 0 ds).
Proof.
  intros Hkv. destruct (log_of_new 0 n) as [Hs _ _ _]. split; try done.
Qed.

(** Three entries into a log of two, a key that was deleted, a gap, and a disk
    that fails to write the last entry. *)
Definition session1 : list sm_op :=
  [OpApply (mkEntry 1 1 "put" "a" "1") ApplyWithoutWAL; OpApply (mkEntry 1 2 "put" "b" "2") ApplyWithoutWAL;
   OpApply (mkEntry 1 3 "delete" "a" "") ApplyWithoutWAL; OpGet "a"; OpGet "b"; OpEntriesSince 0; OpEntriesSince 1;
   OpApply (mkEntry 1 5 "put" "c" "3") ApplyWithoutWAL; OpApply (mkEntry 1 4 "put" "c" "3") ApplyWithWAL].

Definition session1_run := sm_session session1 (mkSM Store_New (Log_New 2) 0 0 (Some ds1), mkWorld disk1 [FErr 0]).

Lemma SM_refines_history_witness :
  fst session1_run =
    [Done (Ok tt); Done (Ok tt); Done (Ok tt); Value None; Value (Some "2"); Entries ([], false);
     Entries ([mkEntry 1 2 "put" "b" "2"; mkEntry 1 3 "delete" "a" ""], true);
     Done (Fail (SmNonMonotonic 3 5)); Done (Fail (SmWal (DsWalAppend EIO)))] /\
  exists h', hist_run 2 (mkHistory 0 ∅ 0 [] 0) (take (length (fst session1_run)) session1) (fst session1_run) h' /\
    (length (fst session1_run) = length session1 -> holds_history 2 h' (fst (snd session1_run))) /\
    (sm_works (mkSM Store_New (Log_New 2) 0 0 (Some ds1), mkWorld disk1 [FErr 0]) ->
     length (fst session1_run) = length session1 /\ Forall (fun a => ~ disk_error a) (fst session1_run)).
Proof.
  split; [by vm_compute|]. destruct session1_run as [answers [sm' W']] eqn:Hrun. cbn [fst snd].
  refine (SM_refines_history 2 (mkHistory 0 ∅ 0 [] 0) (mkSM Store_New (Log_New 2) 0 0 (Some ds1)) (mkWorld disk1 [FErr 0])
            session1 answers sm' W' _ _ _ Hrun).
  - exact (new_holds_history Store_New 2 (Some ds1) eq_refl).
  - by vm_compute.
  - repeat apply Forall_cons_2; try done; try apply Forall_nil_2; by split.
Defined.
