(* ===== verification/Durability.v ===== *)
(** Durability of a replica: the state machine together with its disk state.

    [durable m sm ds fs] ties the in-memory state to the files: a restart that
    loads the shard's directory recovers the same version and contents, and the
    newest snapshot is at most the [m]-th of the retained ones.  It is kept by
    every acknowledged [Apply] and by every snapshot, taken or failed, and at
    every point of failure in between the files still recover the last
    acknowledged state or that state with one entry that was not acknowledged.
    Runs go on after errors, as the node does. *)

From S2P Require Import Prelude Strconv Filepath Fs JsonStruct Storage ReplicationLog Wal Snapshot DiskState StateMachine.

(** What a restart on the directory of [ds] would bring back. *)
Definition recovers (ds : diskState) (fs : gmap string bytes) (v : Z) (kv : gmap string string) : Prop :=
  exists r, disk_view ds fs = Ok r /\ dlVersion r = v /\ dlKV r = kv.

Definition wal_entry (e : Entry) : WalEntry :=
  walEntryFrom (eOp e) (eKey e) (eValue e) (eTerm e) (eVersion e).

Section durability.
Context {St : Type} `{StorageLaws St}.
Local Abbreviation SM := (shardStateMachine St).

Record durable (m : Z) (sm : SM) (ds : diskState) (fs : gmap string bytes) : Prop := {
  du_ds : smDs sm = Some ds;
  du_wf : ds_wf ds;
  du_enc : encErr (walFile ds) = false;
  du_log : exists es, log_is ds fs es;
  du_best : exists best b, best_at ds fs best b /\ 0 <= b /\ (1 < snapshotRetention ds -> b <= m);
  du_view : exists r, disk_view ds fs = Ok r /\ dlVersion r = smVersion sm /\
              dlKV r = contents sm /\ dlTerm r <= smTerm sm;
  du_ok : codec_ok (mkSnapshot 1 (smTerm sm) (smVersion sm) (contents sm));
}.

Lemma durable_recovers m sm ds fs : durable m sm ds fs -> recovers ds fs (smVersion sm) (contents sm).
Proof. intros [_ _ _ _ _ (r & ? & ? & ? & ?) _]. by exists r. Qed.

Lemma ds_same_recovers ds ds' fs v kv : ds_same ds ds' -> recovers ds' fs v kv <-> recovers ds fs v kv.
Proof. intros Hs. unfold recovers. by rewrite (ds_same_view _ _ _ Hs). Qed.

Lemma ds_same_latest ds ds' fs d : ds_same ds ds' -> ds_wf ds -> latest ds' (<[walPath ds := d]> fs) = latest ds fs.
Proof. intros (_ & _ & Hsp & _ & Hrt) Hwf. rewrite <- (latest_wal ds fs d Hwf). unfold latest. by rewrite Hsp, Hrt. Qed.

Lemma replay_wal_entry r e :
  dlVersion r < eVersion e -> dlTerm r <= eTerm e ->
  replay_entry (live r) (wal_entry e) = mkLoadResult (eTerm e) (eVersion e) (kv_step (dlKV r) e) true.
Proof.
  intros Hv Ht. unfold replay_entry. simpl.
  destruct (Z.leb_spec (eVersion e) (dlVersion r)); [lia|].
  destruct (Z.ltb_spec (dlTerm r) (eTerm e)); f_equal; lia.
Qed.

(** A UTF-8 entry keeps the contents encodable. *)
Lemma kv_step_utf8 m e : utf8_map m -> wal_ok (wal_entry e) -> utf8_map (kv_step m e).
Proof.
  intros Hm [(_ & _ & _ & Hk & Hx) _]. unfold kv_step. repeat case_decide; [| |done].
  - by apply map_Forall_insert_2.
  - by apply map_Forall_delete.
Qed.

(** The log append inside [Apply]. *)
Lemma append_durable m sm ds W e :
  durable m sm ds (files W) -> next_entry sm e -> smVersion sm < two64 - 1 -> wal_ok (wal_entry e) ->
  wp (appendWAL (wal_entry e)) (fun o s' =>
    (recovers ds (files (snd s')) (smVersion sm) (contents sm) \/
     recovers ds (files (snd s')) (eVersion e) (kv_step (contents sm) e)) /\
    (o = Ret tt -> recovers ds (files (snd s')) (eVersion e) (kv_step (contents sm) e) /\
       forall sm', smDs sm' = Some (fst s') -> advanced sm e sm' -> durable m sm' (fst s') (files (snd s'))))
    (ds, W).
Proof.
  intros [Hds Hwf Henc (es & Hlog) (best & b & Hbest & Hb0 & Hbm) (r & Hview & Hv & Hkv & Ht) Hok] [Hver Hterm] Hmax He.
  rewrite u64_succ_lt in Hver by (destruct Hok as (_ & _ & ? & _); done).
  apply wp_intro. intros o [ds' W'] Heq.
  destruct (wp_use _ _ _ _ _ (wp_appendWAL _ _ _ _ Hwf Henc Hlog He) Heq) as (d & Hf & Hsame & Hd).
  destruct (appendWAL_durable _ _ _ _ _ _ _ _ Hwf Henc Hlog He Hview ltac:(simpl; lia) Heq) as [Hany Hret].
  rewrite replay_wal_entry in Hany, Hret by lia. rewrite Hkv in Hany, Hret. simpl in *. split.
  - destruct Hany; [left; by exists r|right; eexists; by split_and!].
  - intros Ho. destruct (Hret Ho) as [Hview' Hlog']. split; [eexists; by split_and!|].
    intros sm' Hds' (Hv' & Ht' & Hc' & Hl'). split.
    + done.
    + by eapply ds_same_wf.
    + destruct Hd as [[? _]|[? _]]; [done|contradiction].
    + exists (es ++ [wal_entry e]). destruct Hlog' as [Hlog' ?]. split; [|done].
      by destruct Hsame as (_ & -> & _).
    + exists best, b. split_and!; [|done|by destruct Hsame as (_ & _ & _ & _ & ->)].
      eapply ds_same_best; [done|]. rewrite Hf. by apply best_at_wal.
    + rewrite (ds_same_view _ _ _ Hsame). eexists. split; [done|]. simpl. rewrite Hv', Ht', Hc'. by split_and!.
    + destruct Hok as (_ & _ & _ & Hu). pose proof He as [(Hu1 & Hu2 & _) _].
      rewrite Hv', Ht', Hc'. split_and!; try done. by apply kv_step_utf8.
Qed.

(** *** Entries that were logged and refused

    A write whose log entry could not be written or synced is refused.  If the
    write failed, the log takes no more entries; if the sync failed, the line is
    there, and a restart replays it in place of any later entry of its version.
    [closed e sm ds fs]: the files hold the state of [sm], or that state and the
    entry [e], and they go on doing so as long as nothing is acknowledged. *)
Record closed (e : Entry) (sm : SM) (ds : diskState) (fs : gmap string bytes) : Prop := {
  cl_ds : smDs sm = Some ds;
  cl_wf : ds_wf ds;
  cl_range : u64 (smVersion sm) /\ smVersion sm < two64 - 1;
  cl_log :
    encErr (walFile ds) = true /\
      (recovers ds fs (smVersion sm) (contents sm) \/ recovers ds fs (smVersion sm + 1) (kv_step (contents sm) e)) \/
    encErr (walFile ds) = false /\ exists es junk r,
      log_is ds fs (es ++ wal_entry e :: junk) /\ Forall (fun x => wVersion x = smVersion sm + 1) junk /\
      build_state (latest ds fs) es = Ok r /\ dlVersion r = smVersion sm /\ dlKV r = contents sm /\
      dlTerm r <= eTerm e /\ eVersion e = smVersion sm + 1;
}.

(** What the files hold, with a further line of the same version or a part of it
    at the end of the log. *)
Lemma shadowed_recovers e sm ds fs es junk r d :
  build_state (latest ds fs) es = Ok r -> dlVersion r = smVersion sm -> dlKV r = contents sm ->
  dlTerm r <= eTerm e -> eVersion e = smVersion sm + 1 -> ds_wf ds ->
  wal_entries d = es ++ wal_entry e :: junk -> Forall (fun x => wVersion x = smVersion sm + 1) junk ->
  recovers ds (<[walPath ds := d]> fs) (smVersion sm + 1) (kv_step (contents sm) e).
Proof.
  intros Hb Hv Hkv Ht He Hwf Hd Hjunk.
  assert (Hj : Forall (fun x => wVersion x = wVersion (wal_entry e)) junk)
    by (eapply Forall_impl; [exact Hjunk|]; cbn beta; intros x ->; simpl; lia).
  eexists. unfold disk_view. rewrite latest_wal by done. unfold log_entries. rewrite lookup_insert_eq. simpl.
  rewrite Hd, (build_state_shadow _ _ (wal_entry e) junk r Hb ltac:(simpl; lia) Hj).
  rewrite replay_wal_entry by lia. split; [done|]. simpl. rewrite He, Hkv. done.
Qed.

Lemma closed_recovers e sm ds fs : closed e sm ds fs ->
  recovers ds fs (smVersion sm) (contents sm) \/ recovers ds fs (smVersion sm + 1) (kv_step (contents sm) e).
Proof.
  intros [_ Hwf _ [[_ ?]|(_ & es & junk & r & [Hf Hok] & Hj & Hb & Hv & Hkv & Ht & He)]]; [done|right].
  rewrite <- (insert_id fs (walPath ds) _ Hf).
  by apply (shadowed_recovers e sm ds fs es junk r); try done; apply wal_entries_bytes.
Qed.

(** The term may be raised at any time. *)
Lemma closed_term e sm ds fs t : closed e sm ds fs -> closed e (sm <| smTerm := t |>) ds fs.
Proof. by intros []. Qed.

(** [Apply] leaves the checks of the version and the term to itself: after them
    it is the log append and, if that went well, the change in memory. *)
Lemma SM_Apply_split e sm ds W o sm' W' :
  smDs sm = Some ds -> u64 (smVersion sm) -> smVersion sm < two64 - 1 -> known_op e ->
  SM_Apply e ApplyWithWAL (sm, W) = (o, (sm', W')) ->
  ((exists x, o = Err x /\ match x with SmWal _ => False | _ => True end) /\ sm' = sm /\ W' = W) \/
  (eVersion e = smVersion sm + 1 /\ next_entry sm e /\
   exists oa ds', appendWAL (wal_entry e) (ds, W) = (oa, (ds', W')) /\
     match oa with
     | Ret _ => o = Ret tt /\ advanced sm e sm' /\ smDs sm' = Some ds'
     | Err x => o = Err (SmWal x) /\ sm' = sm <| smDs := Some ds' |>
     | Crashed => o = Crashed
     end).
Proof.
  intros Hds Hu Hmax Hk. unfold SM_Apply, io_bind, io_get. cbn [fst snd].
  destruct (Z.eqb_spec (eVersion e) (u64_succ (smVersion sm))) as [Hver|]; cbn [negb];
    [|intros [= <- <- <-]; left; split_and!; [by eexists|done..]].
  destruct (Z.ltb_spec (eTerm e) (smTerm sm)); [intros [= <- <- <-]; left; split_and!; [by eexists|done..]|].
  unfold io_map_err, on_ds. cbn [fst snd]. rewrite Hds. fold (wal_entry e).
  destruct (appendWAL (wal_entry e) (ds, W)) as [oa [ds' W1]] eqn:Ha.
  assert (Hnext : next_entry sm e) by done.
  rewrite u64_succ_lt in Hver by done. intros Heq. right. split_and!; [done|done|].
  exists oa, ds'. destruct oa as [[]|x|]; simplify_eq; [|by split_and!..].
  unfold SM_commit, io_bind, io_get in Heq. cbn [fst snd] in Heq.
  destruct (apply_op_known e (smKV sm) Hk) as [kv Hkv]. simpl in Heq. rewrite Hkv in Heq. simpl in Heq.
  apply apply_op_contents in Hkv as [_ Hc]. unfold io_modify in Heq. simplify_eq. by split_and!.
Qed.

(** A further attempt that is not acknowledged. *)
Lemma closed_attempt e0 e sm ds W o sm' W' :
  closed e0 sm ds (files W) -> known_op e -> wal_ok (wal_entry e) ->
  SM_Apply e ApplyWithWAL (sm, W) = (o, (sm', W')) -> o <> Ret tt ->
  (o <> Crashed -> exists ds', ds_same ds ds' /\ closed e0 sm' ds' (files W') /\
     smVersion sm' = smVersion sm /\ contents sm' = contents sm) /\
  (recovers ds (files W') (smVersion sm) (contents sm) \/
   recovers ds (files W') (smVersion sm + 1) (kv_step (contents sm) e0)).
Proof.
  intros Hcl Hk Hok Heq Ho. pose proof Hcl as [Hds Hwf [Hu Hmax] Hlog].
  apply (SM_Apply_split e sm ds W) in Heq as [(_ & -> & ->)|(Hver & _ & oa & ds' & Ha & Hoa)]; try done.
  { split; [|by apply closed_recovers]. intros _. by exists ds. }
  destruct Hlog as [[Henc Hrec]|(Henc & es & junk & r & Hlog & Hj & Hb & Hv & Hkv & Ht & He)].
  - unfold appendWAL, io_bind, io_map_err, on_wal, zoom, WAL_Append, io_bind, encoder_Encode in Ha. cbn [fst snd] in Ha.
    rewrite Henc in Ha. simplify_eq. destruct Hoa as [-> ->]. split; [|done]. intros _. eexists.
    split; [|split_and!; [split; try done; by left|done..]]. by destruct ds as [[] ? ? ? ? ?].
  - destruct (wp_use _ _ _ _ _ (wp_appendWAL _ _ _ _ Hwf Henc Hlog Hok) Ha) as (d & Hf & Hsame & Hd). simpl in Hf, Hsame, Hd.
    assert (Hj' : Forall (fun x => wVersion x = smVersion sm + 1) (junk ++ [wal_entry e]))
      by (apply Forall_app; split; [done|by apply Forall_singleton]).
    assert (Hread : exists t, wal_entries d = es ++ wal_entry e0 :: junk ++ t /\ t `sublist_of` [wal_entry e]).
    { destruct Hlog as [_ Hall]. destruct Hd as [[_ ->]|(_ & _ & n & ->)].
      - exists [wal_entry e]. rewrite wal_entries_bytes; [by rewrite <- (assoc_L (++))|]. apply Forall_app. by split; [|apply Forall_singleton].
      - destruct (wal_entries_torn_app _ (wal_entry e) n Hall Hok) as (t & -> & Hsub). exists t. by rewrite <- (assoc_L (++)). }
    destruct Hread as (t & Hread & Hsub).
    assert (Hjt : Forall (fun x => wVersion x = smVersion sm + 1) (junk ++ t)).
    { apply Forall_app in Hj' as [? ?]. apply Forall_app. split; [done|]. rewrite Forall_forall in *.
      eauto using elem_of_submseteq, sublist_submseteq. }
    assert (Hrec : recovers ds (files W') (smVersion sm + 1) (kv_step (contents sm) e0))
      by (rewrite Hf; by apply (shadowed_recovers e0 sm ds (files W) es (junk ++ t) r)).
    split; [|by right]. intros Hnc. destruct oa as [[]|x|]; [by destruct Hoa|destruct Hoa as [-> ->]|by destruct Hnc].
    exists ds'. split; [done|]. split; [|done]. split; [done|by eapply ds_same_wf|done|].
    destruct (encErr (walFile ds')) eqn:Henc'; [left; split; [done|right; by apply (ds_same_recovers ds)]|right].
    split; [done|]. destruct Hd as [[_ ->]|(_ & Hd)].
    + exists es, (junk ++ [wal_entry e]), r. rewrite Hf. split_and!; try done.
      * destruct Hlog as [_ Hall]. destruct Hsame as (_ & Hwp & _). split; [by rewrite Hwp, lookup_insert_eq, <- (assoc_L (++))|].
        rewrite <- (assoc_L (++)) in *. change (wal_entry e0 :: junk ++ [wal_entry e]) with ((wal_entry e0 :: junk) ++ [wal_entry e]).
        rewrite (assoc_L (++)). apply Forall_app. by split; [|apply Forall_singleton].
      * by rewrite (ds_same_latest ds).
    + destruct Hd as ([?|?] & _); congruence.
Qed.

(** One [Apply] with the log, from a clean state. *)
Lemma durable_attempt m e sm ds W o sm' W' :
  durable m sm ds (files W) -> smVersion sm < two64 - 1 -> known_op e -> wal_ok (wal_entry e) ->
  SM_Apply e ApplyWithWAL (sm, W) = (o, (sm', W')) ->
  match o with
  | Ret _ => exists ds', ds_same ds ds' /\ durable m sm' ds' (files W') /\
      smVersion sm' = smVersion sm + 1 /\ contents sm' = kv_step (contents sm) e
  | Err (SmWal _) => exists ds', ds_same ds ds' /\ closed e sm' ds' (files W') /\
      smVersion sm' = smVersion sm /\ contents sm' = contents sm
  | Err _ => sm' = sm /\ W' = W
  | Crashed => recovers ds (files W') (smVersion sm) (contents sm) \/
               recovers ds (files W') (smVersion sm + 1) (kv_step (contents sm) e)
  end.
Proof.
  intros Hdu Hmax Hk Hok Heq. pose proof Hdu as [Hds Hwf Henc (es & Hlog) _ (r & Hview & Hv & Hkv & Ht) (_ & _ & Hu & _)].
  apply (SM_Apply_split e sm ds W) in Heq as [((x & -> & Hx) & -> & ->)|(Hver & Hnext & oa & ds' & Ha & Hoa)]; try done.
  { by destruct x. }
  destruct (wp_use _ _ _ _ _ (append_durable m sm ds W e Hdu Hnext Hmax Hok) Ha) as [Hany Hret]. cbn [fst snd] in *.
  rewrite Hver in Hany, Hret.
  destruct (wp_use _ _ _ _ _ (wp_appendWAL _ _ _ _ Hwf Henc Hlog Hok) Ha) as (d & Hf & Hsame & Hd). cbn [fst snd] in *.
  destruct oa as [[]|x|].
  - destruct Hoa as (-> & Hadv & Hds'). destruct (Hret eq_refl) as [_ Hnew]. exists ds'.
    pose proof Hadv as (Hv' & _ & Hc' & _). split_and!; [done|by apply Hnew|lia|done].
  - destruct Hoa as [-> ->]. exists ds'. split; [done|]. split; [|done]. split; [done|by eapply ds_same_wf|done|].
    cbn [smVersion smDs]. change (contents (sm <| smDs := Some ds' |>)) with (contents sm).
    destruct Hd as [[Henc' ->]|(_ & [Henc'|?] & _)]; [right|left; split; [done|]|done].
    + split; [done|]. exists es, [], r. pose proof Hsame as (_ & Hwp & _). destruct Hnext. rewrite Hf. split_and!; try done; [| |lia].
      * split; [by rewrite Hwp, lookup_insert_eq|]. destruct Hlog as [_ Hall]. apply Forall_app. by split; [|apply Forall_singleton].
      * rewrite (ds_same_latest ds) by done. by rewrite <- (log_is_entries _ _ _ Hlog).
    + by rewrite !(ds_same_recovers _ _ _ _ _ Hsame).
  - subst o. exact Hany.
Qed.

Definition snapshot_due (sm : SM) : bool :=
  match smDs sm with Some ds => snapshotInterval ds <=? writesSinceSnapshot ds | None => false end.

(** The snapshot that may follow: taken, failed or cut short. *)
Lemma maybeSnapshot_durable m sm ds W o ds' W' :
  durable m sm ds (files W) ->
  maybeSnapshot (smTerm sm) (smVersion sm) (contents sm) (ds, W) = (o, (ds', W')) ->
  ds_same ds ds' /\
  match o with
  | Ret _ => durable (if snapshot_due sm then 0 else m) (sm <| smDs := Some ds' |>) ds' (files W')
  | Err _ => headroom ds m -> durable (m + 1) (sm <| smDs := Some ds' |>) ds' (files W')
  | Crashed => headroom ds m -> recovers ds (files W') (smVersion sm) (contents sm)
  end.
Proof.
  intros Hdu. pose proof (durable_recovers _ _ _ _ Hdu) as Hrec.
  destruct Hdu as [Hds Hwf Henc (es & Hlog) (best & b & Hbest & Hb0 & Hbm) (r & Hview & Hv & Hkv & Ht) Hok].
  unfold maybeSnapshot, io_bind, io_get, snapshot_due. cbn [fst]. rewrite Hds.
  destruct (snapshotInterval ds <=? writesSinceSnapshot ds); cbn [negb].
  2:{ intros [= <- <- <-]. split; [done|]. split; simpl; eauto 10. }
  intros Heq. destruct (wp_use _ _ _ _ _ (wp_replaceSnapshot _ _ _ _ _ Hwf) Heq) as (_ & Hsame & Henc'). cbn [fst snd] in *.
  split; [done|]. pose proof Hsame as (_ & Hwp & _ & _ & Hrt). pose proof Hok. rewrite <- Hv, <- Hkv in Heq, Hok.
  destruct (takeSnapshot_crash_safe _ _ _ _ _ _ _ _ _ Hwf Hbest Hb0 Hview Hok Heq) as [Hret Herr].
  assert (Hroom : headroom ds m -> headroom ds b) by (unfold headroom; lia).
  destruct o as [[]|x|].
  - destruct (Hret eq_refl) as (Hview' & Hlog' & Hbest'). split; simpl; auto.
    + by eapply ds_same_wf.
    + exists []. split; [by rewrite Hwp|done].
    + eexists _, 0. split_and!; [by eapply ds_same_best|done|done].
    + rewrite (ds_same_view _ _ _ Hsame). eexists. split; [done|]. by split_and!.
  - intros Hm. destruct (Herr (Hroom Hm) ltac:(done)) as [Hany Hkeep].
    destruct (Hkeep ltac:(done)) as (Hw & best' & b' & Hbest' & Hb0' & Hb'). split; simpl; auto.
    + by eapply ds_same_wf.
    + by rewrite Henc'.
    + exists es. destruct Hlog as [Hl ?]. split; [by rewrite Hwp, Hw|done].
    + exists best', b'. rewrite Hrt. split_and!; [by eapply ds_same_best|done|]. lia.
    + rewrite (ds_same_view _ _ _ Hsame). destruct Hany as [->| ->]; eexists; by split_and!.
  - intros Hm. destruct (Herr (Hroom Hm) ltac:(done)) as [Hany _]. rewrite <- Hv, <- Hkv. destruct Hany; eexists; by split_and!.
Qed.

(** ** Runs

    What the node does to a replica on its disk between two restarts, short of
    installing a snapshot: entries applied through the log, each followed by a
    snapshot if one is due (a leader) or not (a follower), and new terms.  Errors
    are reported, or logged, and the node goes on; only death ends the run. *)

Inductive disk_op := DApply (e : Entry) (snap : bool) | DTerm (t : Z).

Inductive snap_event := SnapNotDue | SnapTaken | SnapFailed | SnapDied.
Inductive disk_event :=
| EvTerm
| EvRefused
| EvUnsynced
| EvApplied (snap : snap_event)
| EvDied.

Definition run_snapshot (s : SM * World) : snap_event * (SM * World) :=
  let snap := SM_Snapshot (fst s) in
  match on_ds (maybeSnapshot (ssTerm snap) (ssVersion snap) (ssKV snap)) s with
  | (Ret _, s') => (if snapshot_due (fst s) then SnapTaken else SnapNotDue, s')
  | (Err _, s') => (SnapFailed, s')
  | (Crashed, s') => (SnapDied, s')
  end.

(** The log has failed to write and takes no more entries. *)
Definition log_stuck (sm : SM) : bool := match smDs sm with Some ds => encErr (walFile ds) | None => false end.

Definition disk_run_op (op : disk_op) (s : SM * World) : disk_event * (SM * World) :=
  match op with
  | DTerm t => (EvTerm, (if smTerm (fst s) <? t then fst s <| smTerm := t |> else fst s, snd s))
  | DApply e snap =>
      match SM_Apply e ApplyWithWAL s with
      | (Ret _, s') => if snap then let '(ev, s'') := run_snapshot s' in (EvApplied ev, s'') else (EvApplied SnapNotDue, s')
      | (Err (SmWal _), s') => (if log_stuck (fst s') then EvRefused else EvUnsynced, s')
      | (Err _, s') => (EvRefused, s')
      | (Crashed, s') => (EvDied, s')
      end
  end.

Definition ev_died (ev : disk_event) : bool := match ev with EvDied | EvApplied SnapDied => true | _ => false end.
Definition ev_applied (ev : disk_event) : bool := match ev with EvApplied _ => true | _ => false end.
Definition ev_acked (ev : disk_event) : bool := ev_applied ev && negb (ev_died ev).

(** What happened to each operation, up to the death of the process. *)
Fixpoint disk_run (ops : list disk_op) (s : SM * World) : list disk_event * (SM * World) :=
  match ops with
  | [] => ([], s)
  | op :: ops' =>
      let '(ev, s') := disk_run_op op s in
      if ev_died ev then ([ev], s') else let '(evs, s'') := disk_run ops' s' in (ev :: evs, s'')
  end.

(** The entries that were attempted and acknowledged, or not. *)
Fixpoint attempted (acked : bool) (ops : list disk_op) (evs : list disk_event) : list Entry :=
  match ops, evs with
  | DApply e _ :: ops', ev :: evs' =>
      if bool_decide (ev_acked ev = acked) then e :: attempted acked ops' evs' else attempted acked ops' evs'
  | DTerm _ :: ops', _ :: evs' => attempted acked ops' evs'
  | _, _ => []
  end.

Lemma attempted_nil acked ops : attempted acked ops [] = [].
Proof. by destruct ops as [|[]]. Qed.

Lemma attempted_cons acked op ops ev evs :
  attempted acked (op :: ops) (ev :: evs) =
    match op with DApply e _ => if bool_decide (ev_acked ev = acked) then [e] else [] | DTerm _ => [] end ++
    attempted acked ops evs.
Proof. destruct op; simpl; by repeat case_match. Qed.

Lemma attempted_app1 acked op ops ev evs :
  attempted acked (op :: ops) (ev :: evs) = attempted acked [op] [ev] ++ attempted acked ops evs.
Proof. by rewrite !attempted_cons, attempted_nil, app_nil_r. Qed.

Lemma died_unacked op ev : ev_died ev = true -> attempted true [op] [ev] = [].
Proof. intros Hd. rewrite attempted_cons. unfold ev_acked. rewrite Hd, andb_false_r. by destruct op. Qed.

(** No write is applied after one whose sync failed. *)
Fixpoint syncs_hold (evs : list disk_event) : bool :=
  match evs with
  | [] => true
  | EvUnsynced :: evs' => forallb (fun ev => negb (ev_applied ev)) evs'
  | _ :: evs' => syncs_hold evs'
  end.

Lemma syncs_hold_quiet evs : forallb (fun ev => negb (ev_applied ev)) evs = true -> syncs_hold evs = true.
Proof. induction evs as [|ev evs IH]; [done|]. simpl. intros [? ?]%andb_prop. destruct ev; auto. Qed.

Lemma syncs_hold_tail ev evs : syncs_hold (ev :: evs) = true -> syncs_hold evs = true.
Proof. destruct ev; simpl; auto using syncs_hold_quiet. Qed.

(** Fewer snapshots in a row fail than there are retained files, of which the
    newest is the [m]-th to begin with; a single file is never rotated. *)
Fixpoint snapshots_hold (retention m : Z) (evs : list disk_event) : bool :=
  match evs with
  | [] => true
  | EvApplied SnapTaken :: evs' => snapshots_hold retention 0 evs'
  | EvApplied (SnapFailed | SnapDied) :: evs' =>
      ((retention <=? 1) || (m + 1 <? retention)) && snapshots_hold retention (m + 1) evs'
  | _ :: evs' => snapshots_hold retention m evs'
  end.

Definition op_ok (op : disk_op) : Prop :=
  match op with DApply e _ => known_op e /\ wal_ok (wal_entry e) | DTerm t => u64 t end.

Lemma durable_term m sm ds fs t : durable m sm ds fs -> u64 t -> smTerm sm < t -> durable m (sm <| smTerm := t |>) ds fs.
Proof.
  intros [? ? ? ? ? (r & ? & ? & ? & ?) (? & ? & ? & ?)] Ht Hlt. split; try done.
  - exists r. simpl. split_and!; [done..|lia].
Qed.
(** The state after a run, in terms of the one before it. *)
Definition rebuilds (ds : diskState) (fs : gmap string bytes) (sm : SM) (es : list Entry) : Prop :=
  recovers ds fs (smVersion sm + Z.of_nat (length es)) (foldl kv_step (contents sm) es).

Lemma rebuilds_same ds ds' fs sm es : ds_same ds ds' -> rebuilds ds' fs sm es <-> rebuilds ds fs sm es.
Proof. apply ds_same_recovers. Qed.

Lemma rebuilds_cons ds fs sm sm1 e es :
  smVersion sm1 = smVersion sm + 1 -> contents sm1 = kv_step (contents sm) e ->
  rebuilds ds fs sm1 es -> rebuilds ds fs sm (e :: es).
Proof. unfold rebuilds. intros -> ->. simpl. by replace (smVersion sm + 1 + _) with (smVersion sm + Z.of_nat (S (length es))) by lia. Qed.

(** The same memory, whatever became of the term and the disk. *)
Definition same_memory (sm sm1 : SM) : Prop := smVersion sm1 = smVersion sm /\ contents sm1 = contents sm.

Lemma rebuilds_memory ds fs sm sm1 es : same_memory sm sm1 -> rebuilds ds fs sm1 es -> rebuilds ds fs sm es.
Proof. by unfold rebuilds; intros [-> ->]. Qed.

(** What one operation does to a shard that refuses to acknowledge. *)
Lemma closed_op e0 op sm ds W ev sm' W' :
  closed e0 sm ds (files W) -> op_ok op -> disk_run_op op (sm, W) = (ev, (sm', W')) -> ev_applied ev = false ->
  (ev_died ev = false -> exists ds', ds_same ds ds' /\ closed e0 sm' ds' (files W') /\ same_memory sm sm') /\
  (rebuilds ds (files W') sm [] \/ rebuilds ds (files W') sm [e0]).
Proof.
  intros Hcl Hop. unfold disk_run_op, rebuilds. simpl. rewrite Z.add_0_r. destruct op as [e snap|t].
  - destruct Hop as [Hk Hok]. destruct (SM_Apply e ApplyWithWAL (sm, W)) as [o [sm1 W1]] eqn:Ha. intros Hrun Hev.
    assert (Ho : o <> Ret tt) by (intros ->; destruct snap; [destruct (run_snapshot _)|]; by simplify_eq).
    destruct (closed_attempt _ _ _ _ _ _ _ _ Hcl Hk Hok Ha Ho) as [Hgo Hrec].
    destruct o as [[]|[]|]; simplify_eq; (split; [|done]); intros Hd; try done; by apply Hgo.
  - intros [= <- <- <-] _. cbn [fst snd]. split; [|by apply closed_recovers]. intros _. exists ds. split; [apply ds_same_refl|].
    case_match; split; try done. by apply closed_term.
Qed.

Lemma closed_run e0 ops sm ds W evs sm' W' :
  closed e0 sm ds (files W) -> Forall op_ok ops -> disk_run ops (sm, W) = (evs, (sm', W')) ->
  forallb (fun ev => negb (ev_applied ev)) evs = true ->
  attempted true ops evs = [] /\ (rebuilds ds (files W') sm [] \/ rebuilds ds (files W') sm [e0]).
Proof.
  revert sm ds W evs. induction ops as [|op ops IH]; intros sm ds W evs Hcl Hops; cbn [disk_run].
  { intros [= <- <- <-] _. split; [done|]. unfold rebuilds. simpl. rewrite Z.add_0_r. by apply closed_recovers. }
  apply Forall_cons in Hops as [Hop Hops]. destruct (disk_run_op op (sm, W)) as [ev [sm1 W1]] eqn:Hrun. intros Hevs Hq.
  assert (Hev : ev_applied ev = false).
  { destruct (ev_died ev); [|destruct (disk_run ops (sm1, W1))]; simplify_eq; simpl in Hq; by apply andb_prop in Hq as [?%negb_true_iff _]. }
  destruct (closed_op _ _ _ _ _ _ _ _ Hcl Hop Hrun Hev) as [Hgo Hrec].
  assert (Hna : ev_acked ev = false) by (unfold ev_acked; by rewrite Hev).
  destruct (ev_died ev) eqn:Hdied.
  { simplify_eq. split; [|done]. rewrite attempted_cons, attempted_nil, Hna. by destruct op. }
  destruct (disk_run ops (sm1, W1)) as [evs' s2] eqn:Hruns. simplify_eq. destruct (Hgo eq_refl) as (ds1 & Hsame & Hcl1 & Hmem).
  simpl in Hq. apply andb_prop in Hq as [_ Hq]. destruct (IH _ _ _ _ Hcl1 Hops Hruns Hq) as [Hnone Hend].
  split; [rewrite attempted_cons, Hna, Hnone; by destruct op|].
  rewrite !(rebuilds_same _ _ _ _ _ Hsame) in Hend. destruct Hend; [left|right]; by eapply rebuilds_memory.
Qed.

(** Once the log cannot be written, nothing is applied any more. *)
Lemma stuck_op op s ev s' : log_stuck (fst s) = true -> disk_run_op op s = (ev, s') ->
  ev_applied ev = false /\ log_stuck (fst s') = true.
Proof.
  destruct s as [sm W]. unfold log_stuck. cbn [fst]. destruct (smDs sm) as [ds|] eqn:Hds; [|done]. intros Henc.
  destruct op as [e snap|t]; simpl; [|intros [= <- <-]; simpl; destruct (_ <? t); simpl; by rewrite Hds].
  unfold SM_Apply, io_bind, io_get. cbn [fst snd].
  destruct (negb _); [intros [= <- <-]; simpl; by rewrite Hds|].
  destruct (_ <? _); [intros [= <- <-]; simpl; by rewrite Hds|].
  unfold io_map_err, on_ds, appendWAL, io_bind, io_map_err, on_wal, zoom, WAL_Append, io_bind, encoder_Encode.
  cbn [fst snd]. rewrite Hds. cbn [fst snd]. rewrite Henc. simpl. intros [= <- <-]. by destruct (log_stuck _).
Qed.

Lemma stuck_run ops s evs s' : log_stuck (fst s) = true -> disk_run ops s = (evs, s') ->
  forallb (fun ev => negb (ev_applied ev)) evs = true.
Proof.
  revert s evs. induction ops as [|op ops IH]; intros s evs Hs; simpl; [by intros [= <- <-]|].
  destruct (disk_run_op op s) as [ev s1] eqn:Hop. destruct (stuck_op _ _ _ _ Hs Hop) as [Hev Hs1].
  destruct (ev_died ev); [intros [= <- <-]; simpl; by rewrite Hev|].
  destruct (disk_run ops s1) as [evs' s2] eqn:Hrun. intros [= <- <-]. simpl. rewrite Hev. by eapply IH.
Qed.

(** Where the newest snapshot is afterwards. *)
Definition snap_level (m : Z) (ev : disk_event) : Z :=
  match ev with EvApplied SnapTaken => 0 | EvApplied (SnapFailed | SnapDied) => m + 1 | _ => m end.

Lemma snapshots_hold_cons retention m ev evs :
  snapshots_hold retention m (ev :: evs) = true ->
  snapshots_hold retention m [ev] = true /\ snapshots_hold retention (snap_level m ev) evs = true.
Proof. destruct ev as [| | |[]|]; simpl; try done. all: intros [-> ?]%andb_prop; done. Qed.

Lemma run_snapshot_durable m sm ds W ev sm' W' :
  durable m sm ds (files W) -> run_snapshot (sm, W) = (ev, (sm', W')) ->
  snapshots_hold (snapshotRetention ds) m [EvApplied ev] = true ->
  if ev_died (EvApplied ev) then recovers ds (files W') (smVersion sm) (contents sm)
  else exists ds', ds_same ds ds' /\ durable (snap_level m (EvApplied ev)) sm' ds' (files W') /\ same_memory sm sm'.
Proof.
  intros Hdu. pose proof Hdu as [Hds _ _ _ _ _ _]. unfold run_snapshot, on_ds. cbn [fst snd SM_Snapshot ssTerm ssVersion ssKV].
  rewrite Hds. fold (contents sm). destruct (maybeSnapshot _ _ _ (ds, W)) as [o [ds' W1]] eqn:Hms.
  destruct (maybeSnapshot_durable _ _ _ _ _ _ _ Hdu Hms) as [Hsame Hd].
  destruct o as [[]|x|]; simpl.
  - intros [= <- <- <-] _. destruct (snapshot_due sm); by exists ds'.
  - intros [= <- <- <-]. rewrite andb_true_r. intros Hm. exists ds'. split_and!; [done| |done..]. apply Hd. unfold headroom. lia.
  - intros [= <- <- <-]. rewrite andb_true_r. intros Hm. apply Hd. unfold headroom. lia.
Qed.

Lemma ds_same_trans ds1 ds2 ds3 : ds_same ds1 ds2 -> ds_same ds2 ds3 -> ds_same ds1 ds3.
Proof. unfold ds_same. naive_solver congruence. Qed.

(** What one operation does to a clean shard. *)
Lemma durable_op m op sm ds W ev sm' W' :
  durable m sm ds (files W) -> smVersion sm < two64 - 1 -> op_ok op ->
  disk_run_op op (sm, W) = (ev, (sm', W')) -> snapshots_hold (snapshotRetention ds) m [ev] = true ->
  (ev_died ev = true ->
     rebuilds ds (files W') sm [] \/ exists e, attempted false [op] [ev] = [e] /\ rebuilds ds (files W') sm [e]) /\
  (ev_died ev = false -> exists ds', ds_same ds ds' /\
     ((exists e, attempted true [op] [ev] = [e] /\ durable (snap_level m ev) sm' ds' (files W') /\
         smVersion sm' = smVersion sm + 1 /\ contents sm' = kv_step (contents sm) e) \/
      attempted true [op] [ev] = [] /\ same_memory sm sm' /\
      (durable (snap_level m ev) sm' ds' (files W') \/
       exists e, attempted false [op] [ev] = [e] /\ closed e sm' ds' (files W') /\ (ev = EvUnsynced \/ log_stuck sm' = true)))).
Proof.
  intros Hdu Hmax Hop Hrun Hm. unfold rebuilds. destruct op as [e snap|t]; simpl in Hrun.
  2:{ simplify_eq. split; [done|]. intros _. exists ds. split; [apply ds_same_refl|]. right. split; [done|].
      destruct (Z.ltb_spec (smTerm sm) t); (split; [done|left]); [by apply durable_term|done]. }
  destruct Hop as [Hk Hok]. destruct (SM_Apply e ApplyWithWAL (sm, W)) as [o [sm1 W1]] eqn:Ha.
  pose proof (durable_attempt _ _ _ _ _ _ _ _ Hdu Hmax Hk Hok Ha) as Hd. simpl. rewrite Z.add_0_r. destruct o as [[]|x|].
  - destruct Hd as (ds1 & Hsame & Hdu1 & Hv & Hc). destruct snap; [|simplify_eq; split; [done|]; intros _; exists ds1; eauto 10].
    destruct (run_snapshot (sm1, W1)) as [sev [sm2 W2]] eqn:Hsn. simplify_eq.
    pose proof Hsame as (_ & _ & _ & _ & Hrt). rewrite <- Hrt in Hm.
    pose proof (run_snapshot_durable _ _ _ _ _ _ _ Hdu1 Hsn Hm) as Hs.
    destruct (ev_died (EvApplied sev)) eqn:Hdied; split; try done; intros _.
    + rewrite (ds_same_recovers _ _ _ _ _ Hsame), Hv, Hc in Hs. right. exists e. by destruct sev.
    + destruct Hs as (ds2 & Hsame2 & Hdu2 & Hv2 & Hc2). exists ds2. split; [by eapply ds_same_trans|]. left. exists e.
      split_and!; [by destruct sev|done|congruence|congruence].
  - destruct x; simplify_eq; 
      try (destruct Hd as [-> ->]; split; [done|]; intros _; exists ds; split; [apply ds_same_refl|]; right; by split_and!; [| |left]).
    destruct Hd as (ds1 & Hsame & Hcl & Hmem). split; [by case_match|]. intros _. exists ds1. split; [done|]. right.
    cbn [fst]. destruct (log_stuck sm') eqn:Hst; (split; [done|]); (split; [done|]); right; exists e; auto.
  - simplify_eq. split; [|done]. intros _. destruct Hd; eauto.
Qed.

Definition one_of (extra es : list Entry) : Prop := extra = [] \/ exists e, extra = [e] /\ e ∈ es.

Lemma one_of_sub extra es es' : es ⊆ es' -> one_of extra es -> one_of extra es'.
Proof. intros Hsub [?|(e & ? & ?)]; [by left|right; exists e; auto]. Qed.

(** The files at the end of any run give back the state of its acknowledged
    writes, possibly with one more write that was attempted. *)
Lemma run_recoverable m ops sm ds W evs sm' W' :
  durable m sm ds (files W) -> Forall op_ok ops -> smVersion sm + Z.of_nat (length ops) < two64 ->
  disk_run ops (sm, W) = (evs, (sm', W')) ->
  syncs_hold evs = true -> snapshots_hold (snapshotRetention ds) m evs = true ->
  exists extra, one_of extra (attempted false ops evs) /\ rebuilds ds (files W') sm (attempted true ops evs ++ extra).
Proof.
  revert m sm ds W evs. induction ops as [|op ops IH]; intros m sm ds W evs Hdu Hops Hmax; cbn [disk_run].
  { intros [= <- <- <-] _ _. exists []. split; [by left|]. unfold rebuilds. simpl. rewrite Z.add_0_r. by eapply durable_recovers. }
  apply Forall_cons in Hops as [Hop Hops]. simpl in Hmax.
  destruct (disk_run_op op (sm, W)) as [ev [sm1 W1]] eqn:Hrun. intros Hruns Hsync Hsnap.
  assert (Hev : exists evs', evs = ev :: evs') by (destruct (ev_died ev); [|destruct (disk_run ops (sm1, W1))]; simplify_eq; eauto).
  destruct Hev as [evs' ->]. apply snapshots_hold_cons in Hsnap as [Hsn Hsnap].
  destruct (durable_op _ _ _ _ _ _ _ _ Hdu ltac:(lia) Hop Hrun Hsn) as [Hdie Hgo].
  rewrite !(attempted_app1 _ op ops). destruct (ev_died ev) eqn:Hdied.
  { simplify_eq. rewrite !attempted_nil, !app_nil_r, (died_unacked op ev Hdied).
    destruct (Hdie eq_refl) as [?|(e & -> & ?)]; [exists []; split; [by left|done]|exists [e]; split; [right; by exists e; set_solver|done]]. }
  destruct (disk_run ops (sm1, W1)) as [evs1 s2] eqn:Hruns1. simplify_eq.
  destruct (Hgo eq_refl) as (ds1 & Hsame & Hcase). pose proof Hsame as (_ & _ & _ & _ & Hrt).
  pose proof (syncs_hold_tail _ _ Hsync) as Hs. rewrite <- Hrt in Hsnap.
  destruct Hcase as [(e & -> & Hdu1 & Hv & Hc)|(-> & Hmem & [Hdu1|(e & Hun & Hcl & Hwhy)])].
  - destruct (IH _ _ _ _ _ Hdu1 Hops ltac:(lia) Hruns1 Hs Hsnap) as (extra & Hex & Hreb).
    exists extra. split; [by eapply one_of_sub; [|done]; set_solver|].
    apply (rebuilds_cons _ _ sm sm1); [done|done|]. by apply (rebuilds_same _ _ _ _ _ Hsame).
  - destruct (IH _ _ _ _ _ Hdu1 Hops ltac:(destruct Hmem as [-> _]; lia) Hruns1 Hs Hsnap) as (extra & Hex & Hreb).
    exists extra. split; [by eapply one_of_sub; [|done]; set_solver|].
    apply (rebuilds_memory _ _ sm sm1); [done|]. by apply (rebuilds_same _ _ _ _ _ Hsame).
  - assert (Hq : forallb (fun ev => negb (ev_applied ev)) evs' = true)
      by (destruct Hwhy as [->|?]; [done|by eapply (stuck_run _ (sm1, W1))]).
    destruct (closed_run _ _ _ _ _ _ _ _ Hcl Hops Hruns1 Hq) as [-> Hend]. rewrite !(rebuilds_same _ _ _ _ _ Hsame) in Hend.
    destruct Hend as [Hend|Hend]; apply (rebuilds_memory _ _ _ _ _ Hmem) in Hend;
      [exists []; split; [by left|done]|exists [e]; split; [|done]].
    right. exists e. rewrite Hun. split; [done|by left].
Qed.

End durability.

(** ** Starting points *)

(** A shard directory in which only an empty log has been created. *)
Lemma fresh_durable `{StorageLaws St} dir interval ret (kv : St) log n :
  1 <= ret < max_int64 -> storage_Snapshot kv = ∅ ->
  let ds := mkDiskState (mkWAL (Join dir "wal.jsonl") false) (Join dir "wal.jsonl")
              (Join dir "snapshot.json") n interval ret in
  durable 0 (mkSM kv log 0 0 (Some ds)) ds {[Join dir "wal.jsonl" := []]}.
Proof.
  intros Hr Hkv ds. pose proof (opened_wf dir interval ret n Hr) as Hwf. fold ds in Hwf.
  assert (Hnone : forall i, 0 <= i < ret -> snap_at (snapshotPath ds) {[Join dir "wal.jsonl" := []]} i = None).
  { intros i Hi. unfold snap_at. destruct Hwf as (_ & _ & Hp & _).
    rewrite lookup_singleton_ne; [done|]. apply (Hp i). simpl. lia. }
  assert (Hlatest : latest ds {[Join dir "wal.jsonl" := []]} = None) by (by apply (best_latest _ _ None 0)).
  split; simpl; try done.
  - exists []. split; [apply lookup_singleton_eq|done].
  - exists None, 0. by split_and!.
  - exists no_disk_state. unfold disk_view, log_entries. rewrite Hlatest, lookup_singleton_eq.
    unfold contents. simpl. by rewrite Hkv.
  - unfold contents. simpl. rewrite Hkv. by split_and!.
Qed.

(** ** Concrete runs *)

Definition entry1 : Entry := mkEntry 1 1 "put" "k1" "v1".
Definition entry2 : Entry := mkEntry 1 2 "put" "k2" "v2".

Definition ds2 : diskState :=
  mkDiskState (mkWAL "d/wal.jsonl" false) "d/wal.jsonl" "d/snapshot.json" 0 1 2.
Definition sm2 : shardStateMachine Store := mkSM Store_New (Log_New 10) 0 0 (Some ds2).

(** Two writes with a snapshot in between; the process dies while the second
    entry is written. *)
Definition world2 : World :=
  mkWorld {["d/wal.jsonl" := []]}
    [FOk; FOk; FOk; FOk; FOk; FOk; FOk; FOk; FOk; FOk; FCrash 7].

Lemma entry1_ok : wal_ok (wal_entry entry1).
Proof. wal_ok_concrete. Qed.
Lemma entry2_ok : wal_ok (wal_entry entry2).
Proof. wal_ok_concrete. Qed.

Lemma sm2_durable : durable 0 sm2 ds2 (files world2).
Proof.
  pose proof (fresh_durable "d" 1 2 Store_New (Log_New 10) 0 ltac:(split; [done|reflexivity]) eq_refl) as Hd.
  assert (Hw : Join "d" "wal.jsonl" = "d/wal.jsonl") by by vm_compute.
  assert (Hs : Join "d" "snapshot.json" = "d/snapshot.json") by by vm_compute.
  cbn zeta in Hd. rewrite Hw, Hs in Hd. exact Hd.
Qed.

(** An entry whose log append failed in [Sync] stays in the log.  The same
    version applied again with other contents is acknowledged, and a restart
    brings back the contents that were refused. *)
Theorem sync_error_shadows_next_write :
  let '(o1, s1) := SM_Apply (mkEntry 1 1 "put" "k" "refused") ApplyWithWAL
                     (sm2, mkWorld {["d/wal.jsonl" := []]} [FOk; FErr 0]) in
  let '(o2, (_, W2)) := SM_Apply (mkEntry 1 1 "put" "k" "acknowledged") ApplyWithWAL s1 in
  o1 <> Ret tt /\ o2 = Ret tt /\
  disk_view ds2 (files W2) = Ok (mkLoadResult 1 1 {["k" := "refused"]} true).
Proof. by vm_compute. Qed.
