(* ===== verification/Replica.v ===== *)
(** A shard replica of a node: its state (src/node/replica.go), the recovery
    posture (recovery_state.go), the write guard (write_guard.go) and the
    quorum plan of the leader (quorum.go).

    [Term] and [Version] are the fields of the state machine.  The counters
    updated with [sync/atomic] are plain numbers. *)

From S2P Require Import Prelude Strconv Fs Storage ReplicationLog DiskState StateMachine.

Inductive Role := RoleLeader | RoleFollower | RoleUnknown.
#[global] Instance Role_eq_dec : EqDecision Role.
Proof. solve_decision. Defined.

Inductive RecoveryState :=
| RecoveryStateHealthy
| RecoveryStateLagging
| RecoveryStateRecovering
| RecoveryStateUnavailable.
#[global] Instance RecoveryState_eq_dec : EqDecision RecoveryState.
Proof. solve_decision. Defined.

Definition recoverySourceLeader (leaderID : string) : string :=
  if decide (leaderID = "") then "" else "leader:" +:+ leaderID.

Definition recoverySourceBootstrap (shardID : string) : string :=
  if decide (shardID = "") then "" else "bootstrap:" +:+ shardID.

Record ReplicaState := mkReplica {
  rShardID : string;
  rNodeID : string;
  rRole : Role;
  rLeaderID : string;
  rIsReady : bool;
  rRecoveryState : RecoveryState;
  rRecoverySource : string;
  rPeers : list string;
  rShardMapVersion : Z;
  rSM : shardStateMachine Store;
  rLastLeaderContact : Z;
  rVotedFor : string;
  rVotedForTerm : Z;
  rElectionTimeout : Z;
  rPeerLastContact : gmap string Z;
  rBootstrapShardID : string;
  rBootstrapLeaderAddr : string;
  rElectionCount : Z;
  rRecoveryCount : Z;
  rWriteOpsTotal : Z;
  rWriteErrTotal : Z;
}.
#[global] Instance ReplicaState_eta : Eta ReplicaState := fun r =>
  mkReplica (rShardID r) (rNodeID r) (rRole r) (rLeaderID r) (rIsReady r) (rRecoveryState r)
    (rRecoverySource r) (rPeers r) (rShardMapVersion r) (rSM r) (rLastLeaderContact r)
    (rVotedFor r) (rVotedForTerm r) (rElectionTimeout r) (rPeerLastContact r)
    (rBootstrapShardID r) (rBootstrapLeaderAddr r) (rElectionCount r) (rRecoveryCount r)
    (rWriteOpsTotal r) (rWriteErrTotal r).

Definition rTerm (r : ReplicaState) : Z := smTerm (rSM r).
Definition rVersion (r : ReplicaState) : Z := smVersion (rSM r).
Definition set_term (t : Z) (r : ReplicaState) : ReplicaState := r <| rSM ::= fun sm => sm <| smTerm := t |> |>.

Definition NewReplicaState (shardID nodeID : string) (peers : list string) (logSize electionTimeout : Z)
    : ReplicaState := {|
  rShardID := shardID;
  rNodeID := nodeID;
  rRole := RoleFollower;
  rLeaderID := "";
  rIsReady := false;
  rRecoveryState := RecoveryStateLagging;
  rRecoverySource := "";
  rPeers := peers;
  rShardMapVersion := 0;
  rSM := newShardStateMachine Store_New (Log_New logSize) 0 0 None;
  rLastLeaderContact := 0;
  rVotedFor := "";
  rVotedForTerm := 0;
  rElectionTimeout := electionTimeout;
  rPeerLastContact := ∅;
  rBootstrapShardID := "";
  rBootstrapLeaderAddr := "";
  rElectionCount := 0;
  rRecoveryCount := 0;
  rWriteOpsTotal := 0;
  rWriteErrTotal := 0;
|}.

Record ReplicaStatusSnapshot := mkStatus {
  stShardID : string;
  stRole : Role;
  stLeaderID : string;
  stTerm : Z;
  stVersion : Z;
  stIsReady : bool;
  stRecoveryState : RecoveryState;
  stRecoverySource : string;
  stPeers : list string;
  stLastLeaderContactMs : Z;
  stElectionCount : Z;
  stRecoveryCount : Z;
  stWriteOpsTotal : Z;
  stWriteErrTotal : Z;
}.

(** [now] is the wall clock ([time.Since]); [Milliseconds] truncates. *)
Definition StatusSnapshot (now : Z) (r : ReplicaState) : ReplicaStatusSnapshot := {|
  stShardID := rShardID r;
  stRole := rRole r;
  stLeaderID := rLeaderID r;
  stTerm := rTerm r;
  stVersion := rVersion r;
  stIsReady := rIsReady r;
  stRecoveryState := rRecoveryState r;
  stRecoverySource := rRecoverySource r;
  stPeers := rPeers r;
  stLastLeaderContactMs :=
    if time_IsZero (rLastLeaderContact r) then 0
    else Z.quot (time_Sub now (rLastLeaderContact r)) millisecond;
  stElectionCount := rElectionCount r;
  stRecoveryCount := rRecoveryCount r;
  stWriteOpsTotal := rWriteOpsTotal r;
  stWriteErrTotal := rWriteErrTotal r;
|}.

(** ** The write guard *)

Inductive guarderr := errNotLeader | errNotReady | errShardMapStale.

Definition ensureLeaderReady (r : ReplicaState) : result guarderr unit :=
  if decide (rRole r <> RoleLeader) then Fail errNotLeader
  else if negb (rIsReady r) then Fail errNotReady
  else Ok tt.

(** ** The quorum plan *)

Record QuorumInfo := mkQuorumInfo {
  LivePeers : gmap string string;
  TotalEligible : Z;
  Quorum : Z;
  NeededFollowers : Z;
}.

Record WriteResult := mkWriteResult {
  AppliedVersion : Z;
  wrQuorum : Z;
  AckedFollowers : Z;
  wrTotalEligible : Z;
}.

Definition live_peer (peerLast : gmap string Z) (now window : Z) (id : string) : bool :=
  match peerLast !! id with Some last => time_Sub now last <=? window | None => false end.

Definition planQuorum (peerAddrs : gmap string string) (peerLast : gmap string Z) (now window : Z)
    : QuorumInfo :=
  let live := if window <=? 0 then peerAddrs
              else filter (fun p => live_peer peerLast now window p.1 = true) peerAddrs in
  let totalEligible := Z.of_nat (size live) + 1 in
  let quorum := totalEligible / 2 + 1 in
  mkQuorumInfo live totalEligible quorum (quorum - 1).

Definition hasLiveQuorum (q : QuorumInfo) : bool :=
  NeededFollowers q <=? Z.of_nat (size (LivePeers q)).

Definition quorum_result (q : QuorumInfo) (appliedVersion acked : Z) : WriteResult :=
  mkWriteResult appliedVersion (Quorum q) acked (TotalEligible q).

Lemma planQuorum_majority addrs last now window :
  let q := planQuorum addrs last now window in
  TotalEligible q < 2 * Quorum q <= TotalEligible q + 2 /\ NeededFollowers q = Quorum q - 1.
Proof.
  intros q. assert (Hq : Quorum q = TotalEligible q / 2 + 1) by done.
  assert (Hn : NeededFollowers q = Quorum q - 1) by done.
  pose proof (Z.div_mod (TotalEligible q) 2). pose proof (Z.mod_pos_bound (TotalEligible q) 2). lia.
Qed.

(** The leader's quorum plan counts the peers it has heard from within the
    window and nobody else; the quorum is a strict majority of these and itself
    (never of the shard's configured replicas), it never asks for more followers
    than there are live ones, so the liveness check that follows it cannot fail,
    and with no live peer it asks for none. *)
Theorem planQuorum_spec addrs last now window :
  let q := planQuorum addrs last now window in
  (forall id addr, LivePeers q !! id = Some addr <->
     addrs !! id = Some addr /\
     (window <= 0 \/ exists t, last !! id = Some t /\ time_Sub now t <= window)) /\
  TotalEligible q = Z.of_nat (size (LivePeers q)) + 1 /\
  TotalEligible q < 2 * Quorum q <= TotalEligible q + 2 /\
  NeededFollowers q = Quorum q - 1 /\
  hasLiveQuorum q = true /\
  (NeededFollowers q = 0 <-> LivePeers q = ∅).
Proof.
  intros q. destruct (planQuorum_majority addrs last now window) as [Hmaj Hn]. fold q in Hmaj, Hn.
  assert (Ht : TotalEligible q = Z.of_nat (size (LivePeers q)) + 1) by done.
  split_and!; [|done|lia|lia|done| |].
  - intros id addr. subst q. unfold planQuorum. cbn [LivePeers].
    destruct (Z.leb_spec window 0); [naive_solver|].
    rewrite map_lookup_filter_Some. cbn [fst]. unfold live_peer.
    destruct (last !! id) as [t|] eqn:Hl; [rewrite Z.leb_le|]; naive_solver lia.
  - unfold hasLiveQuorum. apply Z.leb_le. lia.
  - rewrite <- (map_size_empty_iff (LivePeers q)). split; intros; lia.
Qed.

(** A leader that has not heard from any of its peers still commits: the plan
    of a five-replica shard whose four followers are silent needs no follower. *)
Theorem isolated_leader_needs_no_follower :
  NeededFollowers (planQuorum {["b" := "b:1"; "c" := "c:1"; "d" := "d:1"; "e" := "e:1"]}
    {["b" := 1; "c" := 1; "d" := 1; "e" := 1]} (10 * second) (300 * millisecond)) = 0.
Proof. by vm_compute. Qed.
