(* ===== verification/Wire.v ===== *)
(** Messages between nodes, and their conversions (src/node/grpc.go,
    recovery.go).

    The generated message types are records; a pointer to a message that can be
    nil is an option, and [bytes] fields are strings.  The order in which Go
    iterates over a map is arbitrary: it is the argument [order] of [kvToProto]. *)

From S2P Require Import Prelude JsonStruct Storage ReplicationLog StateMachine.

Inductive OperationType := TYPE_UNSPECIFIED | TYPE_PUT | TYPE_DELETE.

Record Operation := mkOperation { opType : OperationType; opKey : string; opValue : string }.

Record LogEntry := mkLogEntry { leTerm : Z; leVersion : Z; leOp : option Operation }.

Record ReplicateRequest := mkReplicateRequest {
  rqShardId : string;
  rqTerm : Z;
  rqVersion : Z;
  rqOp : option Operation;
}.
Record ReplicateResponse := mkReplicateResponse { rsSuccess : bool; rsTerm : Z }.

Inductive RecoverType := RECOVER_UNSPECIFIED | RECOVER_ENTRIES | RECOVER_SNAPSHOT.

Record RecoverResponse := mkRecoverResponse {
  rvType : RecoverType;
  rvVersion : Z;
  rvEntries : list LogEntry;
  rvTerm : Z;
  rvKv : list (string * string);
}.

Record VoteRequest := mkVoteRequest { vqTerm : Z; vqCandidateId : string; vqVersion : Z; vqShardId : string }.
Record VoteResponse := mkVoteResponse { vsTerm : Z; vsVoteGranted : bool }.

Record LeaderHeartbeatRequest := mkHeartbeatRequest {
  hqTerm : Z;
  hqVersion : Z;
  hqLeaderId : string;
  hqShardId : string;
}.

(** ** Conversions *)

Definition opFromProto (op : option Operation) : string * string * string :=
  match op with
  | None => ("", "", "")
  | Some o => match opType o with
              | TYPE_PUT => ("put", opKey o, opValue o)
              | TYPE_DELETE => ("delete", opKey o, "")
              | TYPE_UNSPECIFIED => ("", opKey o, opValue o)
              end
  end.

Definition opTypeFromProto (op : option Operation) : string :=
  match op with
  | None => ""
  | Some o => match opType o with
              | TYPE_PUT => "put"
              | TYPE_DELETE => "delete"
              | TYPE_UNSPECIFIED => ""
              end
  end.

Definition opToProto (op key value : string) : Operation :=
  if decide (op = "put") then mkOperation TYPE_PUT key value
  else if decide (op = "delete") then mkOperation TYPE_DELETE key ""
  else mkOperation TYPE_UNSPECIFIED key value.

Definition entriesToProto (es : list Entry) : list LogEntry :=
  (fun e => mkLogEntry (eTerm e) (eVersion e) (Some (opToProto (eOp e) (eKey e) (eValue e)))) <$> es.

(** The entry [doIncrementalRecovery] builds from a received log entry. *)
Definition entryFromProto (e : LogEntry) : Entry :=
  mkEntry (leTerm e) (leVersion e) (opTypeFromProto (leOp e))
    (match leOp e with Some o => opKey o | None => "" end)
    (match leOp e with Some o => opValue o | None => "" end).

Definition kvToProto (order : gmap string string -> list (string * string)) (kv : gmap string string)
    : list (string * string) := order kv.

Definition kvFromProto (es : list (string * string)) : gmap string string :=
  foldl (fun kv e => <[e.1 := e.2]> kv) ∅ es.

(** ** Round trips *)

(** Entries the write path produces: a put, or a delete without a value. *)
Definition wire_entry (e : Entry) : Prop := eOp e = "put" \/ eOp e = "delete" /\ eValue e = "".

Lemma entryFromProto_toProto es :
  Forall wire_entry es -> entryFromProto <$> entriesToProto es = es.
Proof.
  induction 1 as [|[t v op k x] es He _ IH]; [done|]. simpl. f_equal; [|done].
  unfold entryFromProto, opToProto, wire_entry in *. simpl in *.
  destruct He as [-> | [-> ->]]; done.
Qed.

(** A snapshot survives the wire whatever order the sender's map iteration
    produced. *)
Lemma kv_proto_roundtrip order kv : iterates order -> kvFromProto (kvToProto order kv) = kv.
Proof.
  unfold iterates. intros Ho. unfold kvFromProto, kvToProto.
  assert (Hnd : NoDup ((order kv).*1)) by (rewrite Ho; apply NoDup_fst_map_to_list).
  rewrite foldl_insert_app, map_union_empty by done.
  rewrite (list_to_map_proper _ _ Hnd (Ho kv)). apply list_to_map_to_list.
Qed.
