(* ===== verification/Handlers.v ===== *)
(** The request handlers of a replica: the gRPC service (src/node/grpc.go) and
    the HTTP handlers with the same names (server.go, election.go).

    A handler that may touch the disk is a program on the replica and the
    world; the others are functions on the replica.  [now] is the reading of the
    node's clock.  Metrics and log lines are left out.  Looking the shard up in
    the server is [Node.v]'s part. *)

From S2P Require Import Prelude Fs JsonStruct Storage ReplicationLog Wal DiskState StateMachine Replica Wire.

Inductive rpcerr := RpcNotFound | RpcFailedPrecondition | RpcInternal (e : smerr).

Definition on_sm {A} (c : M (shardStateMachine Store * World) smerr A)
    : M (ReplicaState * World) smerr A :=
  zoom (fun s => (rSM (fst s), snd s)) (fun t s => (fst s <| rSM := fst t |>, snd t)) c.

Definition on_replica {E} (f : ReplicaState -> ReplicaState) : M (ReplicaState * World) E unit :=
  io_modify (fun s => (f (fst s), snd s)).

(** A message with a higher term: adopt it and step down. *)
Definition adopt_term (t : Z) (r : ReplicaState) : ReplicaState :=
  if rTerm r <? t then set_term t r <| rRole := RoleFollower |> else r.

Definition mark_lagging (now : Z) (r : ReplicaState) : ReplicaState :=
  r <| rIsReady := false |> <| rRecoveryState := RecoveryStateLagging |>
    <| rRecoverySource := recoverySourceLeader (rLeaderID r) |> <| rLastLeaderContact := now |>.

Definition mark_healthy (r : ReplicaState) : ReplicaState :=
  r <| rIsReady := true |> <| rRecoveryState := RecoveryStateHealthy |> <| rRecoverySource := "" |>.

Definition reset_log (r : ReplicaState) : ReplicaState := r <| rSM ::= SM_ResetLog |>.

(** ** gRPC *)

Definition request_entry (req : ReplicateRequest) : Entry :=
  let '(op, key, value) := opFromProto (rqOp req) in
  mkEntry (rqTerm req) (rqVersion req) op key value.

Definition Replicate (now : Z) (req : ReplicateRequest)
    : M (ReplicaState * World) rpcerr ReplicateResponse :=
  do s <- io_get;
  if rqTerm req <? rTerm (fst s) then io_ret (mkReplicateResponse false (rTerm (fst s)))
  else
    do_ on_replica (adopt_term (rqTerm req));
    do s <- io_get;
    let r := fst s in
    if rqVersion req <=? rVersion r then io_ret (mkReplicateResponse true (rTerm r))
    else if negb (rqVersion req =? u64_succ (rVersion r)) then
      do_ on_replica (fun r => reset_log (mark_lagging now r));
      io_ret (mkReplicateResponse false (rTerm r))
    else
      do_ io_map_err RpcInternal (on_sm (SM_Apply (request_entry req) ApplyWithWAL));
      do_ on_replica (fun r => mark_healthy r <| rLastLeaderContact := now |>);
      io_ret (mkReplicateResponse true (rqTerm req)).

Section recover.
Context (order : gmap string string -> list (string * string)).

Definition Recover (sinceVersion : Z) (r : ReplicaState) : result rpcerr RecoverResponse :=
  if decide (rRole r <> RoleLeader) then Fail RpcFailedPrecondition
  else
    let snap := SM_Snapshot (rSM r) in
    let leaderVersion := ssVersion snap in
    let snapshot := mkRecoverResponse RECOVER_SNAPSHOT leaderVersion [] (ssTerm snap)
                      (kvToProto order (ssKV snap)) in
    if leaderVersion <? sinceVersion then Ok snapshot
    else if leaderVersion =? sinceVersion then Ok (mkRecoverResponse RECOVER_ENTRIES leaderVersion [] 0 [])
    else
      let '(entries, ok) := SM_EntriesSince (rSM r) sinceVersion in
      if ok && ((0 <? Z.of_nat (length entries)) || (leaderVersion =? sinceVersion))
      then Ok (mkRecoverResponse RECOVER_ENTRIES leaderVersion (entriesToProto entries) 0 [])
      else Ok snapshot.
End recover.

Definition ForceRecover (now : Z) (r : ReplicaState) : ReplicaState := reset_log (mark_lagging now r).

Definition RequestVote (now : Z) (req : VoteRequest) (r : ReplicaState) : VoteResponse * ReplicaState :=
  if vqTerm req <? rTerm r then (mkVoteResponse (rTerm r) false, r)
  else
    let r := if rTerm r <? vqTerm req
             then set_term (vqTerm req) r <| rVotedFor := "" |> <| rVotedForTerm := 0 |>
                    <| rRole := RoleFollower |>
             else r in
    let myTerm := rTerm r in
    if decide (rVotedForTerm r = vqTerm req /\ rVotedFor r <> "" /\ rVotedFor r <> vqCandidateId req)
    then (mkVoteResponse myTerm false, r)
    else if vqVersion req <? rVersion r then (mkVoteResponse myTerm false, r)
    else (mkVoteResponse myTerm true,
          r <| rVotedFor := vqCandidateId req |> <| rVotedForTerm := vqTerm req |>
            <| rLastLeaderContact := now |>).

(** The response is the replica's term. *)
Definition LeaderHeartbeat (now : Z) (req : LeaderHeartbeatRequest) (r : ReplicaState) : Z * ReplicaState :=
  if hqTerm req <? rTerm r then (rTerm r, r)
  else
    let r := adopt_term (hqTerm req) r <| rLeaderID := hqLeaderId req |> <| rLastLeaderContact := now |> in
    (rTerm r, r).

Inductive GetResult :=
| GET_OK (value : string)
| GET_NOT_FOUND
| GET_NOT_LEADER (hint : string)
| GET_NOT_READY.

Definition Get (key : string) (r : ReplicaState) : GetResult :=
  if decide (rRole r <> RoleLeader) then GET_NOT_LEADER (rLeaderID r)
  else if negb (rIsReady r) then GET_NOT_READY
  else match SM_Get (rSM r) key with Some v => GET_OK v | None => GET_NOT_FOUND end.

(** ** HTTP

    [body] is the decoded request, [None] when the body is not valid JSON for
    the request type. *)

Inductive httperr := HttpBadRequest | HttpUnavailable | HttpInternal (e : smerr).

Record HttpReplicateRequest := mkHttpReplicate {
  hrTerm : Z;
  hrVersion : Z;
  hrOp : string;
  hrKey : string;
  hrValue : string;
}.

Definition handleReplicate (now : Z) (body : option HttpReplicateRequest)
    : M (ReplicaState * World) httperr ReplicateResponse :=
  match body with
  | None => io_fail HttpBadRequest
  | Some req =>
      do s <- io_get;
      if hrTerm req <? rTerm (fst s) then io_ret (mkReplicateResponse false (rTerm (fst s)))
      else
        do_ on_replica (adopt_term (hrTerm req));
        do s <- io_get;
        let r := fst s in
        if hrVersion req <=? rVersion r then io_ret (mkReplicateResponse true (rTerm r))
        else if negb (hrVersion req =? u64_succ (rVersion r)) then
          do_ on_replica (mark_lagging now);
          io_ret (mkReplicateResponse false (rTerm r))
        else
          do_ io_map_err HttpInternal (on_sm (SM_Apply
            (mkEntry (hrTerm req) (hrVersion req) (hrOp req) (hrKey req) (hrValue req)) ApplyWithWAL));
          do_ on_replica (fun r => mark_healthy r <| rLastLeaderContact := now |>);
          io_ret (mkReplicateResponse true (hrTerm req))
  end.

Definition handleSync (r : ReplicaState) : result httperr StateSnapshot :=
  if decide (rRole r <> RoleLeader) then Fail HttpUnavailable else Ok (SM_Snapshot (rSM r)).

Inductive HttpRecoverResponse :=
| HttpEntries (version : Z) (entries : list Entry)
| HttpSnapshot (version term : Z) (kv : gmap string string).

(** An unreadable [since_version] parameter counts as 0. *)
Definition handleRecover (sinceVersion : option Z) (r : ReplicaState) : result httperr HttpRecoverResponse :=
  let sinceVersion := default 0 sinceVersion in
  if decide (rRole r <> RoleLeader) then Fail HttpUnavailable
  else
    let snap := SM_Snapshot (rSM r) in
    let leaderVersion := ssVersion snap in
    let snapshot := HttpSnapshot leaderVersion (ssTerm snap) (ssKV snap) in
    if leaderVersion <? sinceVersion then Ok snapshot
    else if leaderVersion =? sinceVersion then Ok (HttpEntries leaderVersion [])
    else
      let '(entries, ok) := SM_EntriesSince (rSM r) sinceVersion in
      if ok && ((0 <? Z.of_nat (length entries)) || (leaderVersion =? sinceVersion))
      then Ok (HttpEntries leaderVersion entries)
      else Ok snapshot.

Definition handleForceRecover (now : Z) (r : ReplicaState) : ReplicaState := reset_log (mark_lagging now r).

Definition handleRequestVote (now : Z) (body : option VoteRequest) (r : ReplicaState)
    : result httperr VoteResponse * ReplicaState :=
  match body with
  | None => (Fail HttpBadRequest, r)
  | Some req =>
      if vqTerm req <? rTerm r then (Ok (mkVoteResponse (rTerm r) false), r)
      else
        let r := if rTerm r <? vqTerm req
                 then set_term (vqTerm req) r <| rVotedFor := "" |> <| rVotedForTerm := 0 |>
                        <| rRole := RoleFollower |>
                 else r in
        let myTerm := rTerm r in
        if decide (rVotedForTerm r = vqTerm req /\ rVotedFor r <> "" /\ rVotedFor r <> vqCandidateId req)
        then (Ok (mkVoteResponse myTerm false), r)
        else if vqVersion req <? rVersion r then (Ok (mkVoteResponse myTerm false), r)
        else (Ok (mkVoteResponse myTerm true),
              r <| rVotedFor := vqCandidateId req |> <| rVotedForTerm := vqTerm req |>
                <| rLastLeaderContact := now |>)
  end.

Definition handleLeaderHeartbeat (now : Z) (body : option LeaderHeartbeatRequest) (r : ReplicaState)
    : result httperr Z * ReplicaState :=
  match body with
  | None => (Fail HttpBadRequest, r)
  | Some req =>
      if hqTerm req <? rTerm r then (Ok (rTerm r), r)
      else
        let r := adopt_term (hqTerm req) r <| rLeaderID := hqLeaderId req |> <| rLastLeaderContact := now |> in
        (Ok (rTerm r), r)
  end.

(** ** The replication handler *)

Definition rContents (r : ReplicaState) : gmap string string := contents (rSM r).

(** Same data, version and log. *)
Definition same_data (r r' : ReplicaState) : Prop :=
  rVersion r' = rVersion r /\ rContents r' = rContents r.

Lemma adopt_term_max t r : rTerm (adopt_term t r) = Z.max (rTerm r) t.
Proof. unfold adopt_term. destruct (Z.ltb_spec (rTerm r) t); unfold rTerm in *; simpl; lia. Qed.

Lemma adopt_term_data t r : same_data r (adopt_term t r) /\ repLog (rSM (adopt_term t r)) = repLog (rSM r).
Proof. unfold adopt_term. by destruct (rTerm r <? t). Qed.

Lemma wp_on_sm_apply e r W :
  wp (on_sm (SM_Apply e ApplyWithWAL)) (fun o s' =>
    exists sm', fst s' = r <| rSM := sm' |> /\
    (o = Ret tt -> next_entry (rSM r) e /\ known_op e /\ advanced (rSM r) e sm') /\
    (o <> Ret tt -> unmoved (rSM r) sm')) (r, W).
Proof.
  apply wp_zoom. simpl. pose proof (SM_Apply_spec e ApplyWithWAL (rSM r) W) as Hs.
  unfold wp. destruct (SM_Apply _ _ _) as [o [sm' W']]. simpl. eauto.
Qed.

Lemma unmoved_data r r1 sm' :
  unmoved (rSM r1) sm' ->
  (same_data r r1 -> same_data r (r1 <| rSM := sm' |>)) /\ rTerm (r1 <| rSM := sm' |>) = rTerm r1.
Proof.
  unfold same_data, rTerm, rVersion, rContents, contents. intros (Hv & Ht & Hk & _). simpl.
  rewrite Hv, Ht, Hk. done.
Qed.

(** What a follower does with one replication request, by its answer. *)
Inductive replicated (now : Z) (req : ReplicateRequest) (r : ReplicaState)
    : outcome rpcerr ReplicateResponse -> ReplicaState -> Prop :=
| rep_stale : rqTerm req < rTerm r ->
    replicated now req r (Ret (mkReplicateResponse false (rTerm r))) r
| rep_duplicate r' : rTerm r <= rqTerm req -> rqVersion req <= rVersion r ->
    rTerm r' = rqTerm req -> same_data r r' -> rIsReady r' = rIsReady r ->
    replicated now req r (Ret (mkReplicateResponse true (rqTerm req))) r'
| rep_gap r' : rTerm r <= rqTerm req -> rVersion r < rqVersion req ->
    rqVersion req <> u64_succ (rVersion r) -> rTerm r' = rqTerm req -> same_data r r' ->
    rIsReady r' = false -> entries (repLog (rSM r')) = [] -> rLastLeaderContact r' = now ->
    replicated now req r (Ret (mkReplicateResponse false (rqTerm req))) r'
| rep_applied r' : rTerm r <= rqTerm req -> rqVersion req = u64_succ (rVersion r) ->
    rVersion r < rqVersion req -> known_op (request_entry req) ->
    rTerm r' = rqTerm req -> rVersion r' = rqVersion req ->
    rContents r' = kv_step (rContents r) (request_entry req) ->
    rIsReady r' = true -> rLastLeaderContact r' = now ->
    replicated now req r (Ret (mkReplicateResponse true (rqTerm req))) r'
| rep_failed o r' : rTerm r <= rqTerm req -> rVersion r < rqVersion req ->
    (forall a, o <> Ret a) -> rTerm r' = rqTerm req -> same_data r r' -> rIsReady r' = rIsReady r ->
    replicated now req r o r'.

(** Every replication request ends in one of five ways: refused as stale
    without any effect; acknowledged as a duplicate without touching the data;
    refused because versions are missing, which sends the replica to recovery
    and empties its log; applied as exactly the next version; or failed in the
    state machine or on disk with the data as it was.  The term never goes back
    and is adopted whenever the request is not stale. *)
Lemma Replicate_cases now req r W :
  let '(o, (r', _)) := Replicate now req (r, W) in replicated now req r o r'.
Proof.
  enough (Hwp : wp (Replicate now req) (fun o s' => replicated now req r o (fst s')) (r, W)).
  { unfold wp in Hwp. by destruct (Replicate now req (r, W)) as [o [r' W']]. }
  unfold Replicate. apply wp_bind, wp_get. cbn [fst].
  destruct (Z.ltb_spec (rqTerm req) (rTerm r)); [by apply wp_ret, rep_stale|].
  apply wp_bind, wp_modify, wp_bind, wp_get. cbn [fst snd].
  pose proof (adopt_term_max (rqTerm req) r) as Ht. rewrite Z.max_r in Ht by done.
  destruct (adopt_term_data (rqTerm req) r) as [Hsd Hl]. pose proof Hsd as [Hv Hc].
  assert (Hready : rIsReady (adopt_term (rqTerm req) r) = rIsReady r)
    by (unfold adopt_term; by destruct (_ <? _)).
  set (r1 := adopt_term (rqTerm req) r) in *. rewrite Hv, Ht.
  destruct (Z.leb_spec (rqVersion req) (rVersion r)); [by apply wp_ret, rep_duplicate|].
  destruct (Z.eqb_spec (rqVersion req) (u64_succ (rVersion r))) as [Hnext|]; simpl.
  2:{ apply wp_bind, wp_modify, wp_ret. by apply rep_gap. }
  apply wp_bind, wp_map_err. eapply wp_mono; [apply wp_on_sm_apply|]. cbn beta.
  intros o [r2 W2] (sm' & Hr2 & Hret & Herr). simpl in Hr2. subst r2.
  assert (He : eVersion (request_entry req) = rqVersion req /\ eTerm (request_entry req) = rqTerm req)
    by (unfold request_entry; by destruct (opFromProto (rqOp req)) as [[? ?] ?]).
  destruct He as [Hev Het], o as [[]|x|].
  - destruct (Hret eq_refl) as (_ & Hknown & Hver & Hterm & Hcont & _).
    apply wp_bind, wp_modify, wp_ret. apply rep_applied; try done.
    + unfold rTerm. simpl. congruence.
    + unfold rVersion. simpl. congruence.
    + unfold rContents in *. rewrite Hc in Hcont. exact Hcont.
  - destruct (unmoved_data r r1 sm') as [? Ht']; [by apply Herr|]. rewrite Ht in Ht'.
    apply rep_failed; by auto.
  - destruct (unmoved_data r r1 sm') as [? Ht']; [by apply Herr|]. rewrite Ht in Ht'.
    apply rep_failed; by auto.
Qed.

(** C23: Replication never takes a replica back: term and version only grow, an
    acknowledgement means the replica is at least at the version of the request
    and at its term, and a request that was acknowledged once is acknowledged
    again when it is delivered again, without changing the data. *)
Theorem Replicate_monotone now now' req r W resp r' W' :
  Replicate now req (r, W) = (Ret resp, (r', W')) ->
  rTerm r <= rTerm r' /\ rVersion r <= rVersion r' /\
  (rsSuccess resp = true ->
     rqVersion req <= rVersion r' /\ rTerm r' = rqTerm req /\ rsTerm resp = rqTerm req /\
     let '(o, (r'', _)) := Replicate now' req (r', W') in
     o = Ret (mkReplicateResponse true (rqTerm req)) /\ same_data r' r'').
Proof.
  intros Heq. pose proof (Replicate_cases now req r W) as Hc. rewrite Heq in Hc.
  assert (Hagain : rqVersion req <= rVersion r' -> rTerm r' = rqTerm req ->
    let '(o, (r'', _)) := Replicate now' req (r', W') in
    o = Ret (mkReplicateResponse true (rqTerm req)) /\ same_data r' r'').
  { intros Hv Ht. pose proof (Replicate_cases now' req r' W') as Hc'.
    destruct (Replicate now' req (r', W')) as [o' [r'' W'']].
    destruct Hc'; try lia; by subst. }
  inversion Hc as [Hs|r1 Ht Hv Ht' Hd|r1 Ht Hv Hne Ht' Hd|r1 Ht Hn Hv Hk Ht' Hv' Hc'|o r1 Ht Hv Hne Ht' Hd]; subst.
  - split_and!; [lia..|done].
  - destruct Hd as [Hd _]. split_and!; [lia..|]. intros _. split_and!; [lia|done|done|]. apply Hagain; lia.
  - destruct Hd as [Hd _]. split_and!; [lia..|done].
  - split_and!; [lia..|]. intros _. split_and!; [lia|done|done|]. apply Hagain; lia.
  - by destruct (Hne resp).
Qed.

Definition follower0 : ReplicaState := NewReplicaState "s" "n2" ["n1"] 10 0.
Definition put_request : ReplicateRequest :=
  mkReplicateRequest "s" 1 1 (Some (mkOperation TYPE_PUT "k" "v")).
Definition follower0' : outcome rpcerr ReplicateResponse * (ReplicaState * World) := Replicate 5 put_request (follower0, healthy ∅).

Lemma Replicate_monotone_witness :
  rTerm follower0 <= rTerm (fst (snd follower0')) /\ rVersion follower0 <= rVersion (fst (snd follower0')) /\
  (true = true ->
     1 <= rVersion (fst (snd follower0')) /\ rTerm (fst (snd follower0')) = 1 /\ 1 = 1 /\
     let '(o, (r'', _)) := Replicate 6 put_request (fst (snd follower0'), snd (snd follower0')) in
     o = Ret (mkReplicateResponse true 1) /\ same_data (fst (snd follower0')) r'').
Proof.
  apply (Replicate_monotone 5 6 put_request follower0 (healthy ∅) (mkReplicateResponse true 1)).
  by vm_compute.
Defined.

(** A follower acknowledges any request for a version it has passed, also when
    the entry it applied at that version was another one. *)
Theorem divergent_duplicate_acknowledged :
  let '(o, (r', _)) := Replicate 6
    (mkReplicateRequest "s" 2 1 (Some (mkOperation TYPE_PUT "k" "other")))
    (fst (snd follower0'), snd (snd follower0')) in
  o = Ret (mkReplicateResponse true 2) /\ rContents r' = {["k" := "v"]}.
Proof. by vm_compute. Qed.

(** ** Votes *)


(** ** The two transports *)

(** The HTTP handlers decide and update exactly as their gRPC namesakes:
    votes, leader heartbeats and forced recovery are the same, recovery offers
    the same entries or snapshot, and replication answers the same and leaves the
    same replica, except that on a version gap only the gRPC handler empties the
    replication log. *)
Theorem http_agrees_with_grpc order now r W (req : HttpReplicateRequest) vote beat since :
  (hrOp req = "put" \/ hrOp req = "delete" /\ hrValue req = "") ->
  (let '(resp, r') := RequestVote now vote r in handleRequestVote now (Some vote) r = (Ok resp, r')) /\
  (let '(t, r') := LeaderHeartbeat now beat r in handleLeaderHeartbeat now (Some beat) r = (Ok t, r')) /\
  handleForceRecover now r = ForceRecover now r /\
  match Recover order since r, handleRecover (Some since) r with
  | Ok g, Ok (HttpEntries v es) => g = mkRecoverResponse RECOVER_ENTRIES v (entriesToProto es) 0 []
  | Ok g, Ok (HttpSnapshot v t kv) => g = mkRecoverResponse RECOVER_SNAPSHOT v [] t (kvToProto order kv)
  | Fail _, Fail _ => True
  | _, _ => False
  end /\
  let greq := mkReplicateRequest (rShardID r) (hrTerm req) (hrVersion req)
                (Some (opToProto (hrOp req) (hrKey req) (hrValue req))) in
  let '(og, (rg, Wg)) := Replicate now greq (r, W) in
  let '(oh, (rh, Wh)) := handleReplicate now (Some req) (r, W) in
  Wg = Wh /\ reset_log rg = reset_log rh /\
  match og, oh with
  | Ret a, Ret b => a = b
  | Err (RpcInternal a), Err (HttpInternal b) => a = b
  | Crashed, Crashed => True
  | _, _ => False
  end.
Proof.
  intros Hop. split_and!.
  - unfold handleRequestVote, RequestVote. cbn zeta. by repeat case_match; simplify_eq.
  - unfold handleLeaderHeartbeat, LeaderHeartbeat. by destruct (hqTerm beat <? rTerm r).
  - done.
  - unfold Recover, handleRecover. simpl. by repeat (case_match; simplify_eq).
  - intros greq.
    assert (He : request_entry greq = mkEntry (hrTerm req) (hrVersion req) (hrOp req) (hrKey req) (hrValue req)).
    { unfold request_entry. simpl. unfold opToProto. by destruct Hop as [-> | [-> ->]]. }
    unfold Replicate, handleReplicate, io_bind, io_get, on_replica, io_modify, io_ret. rewrite He. simpl.
    destruct (hrTerm req <? rTerm r); [done|]. cbn [fst snd].
    destruct (hrVersion req <=? rVersion (adopt_term (hrTerm req) r)); [done|].
    destruct (hrVersion req =? u64_succ (rVersion (adopt_term (hrTerm req) r))); [|done]. simpl.
    unfold io_map_err. destruct (on_sm _ _) as [[[]|x|] [r' W']]; done.
Qed.

Lemma http_agrees_with_grpc_witness :
  let '(og, (rg, Wg)) := Replicate 5 put_request (follower0, healthy ∅) in
  let '(oh, (rh, Wh)) := handleReplicate 5 (Some (mkHttpReplicate 1 1 "put" "k" "v")) (follower0, healthy ∅) in
  Wg = Wh /\ reset_log rg = reset_log rh /\
  match og, oh with
  | Ret a, Ret b => a = b
  | Err (RpcInternal a), Err (HttpInternal b) => a = b
  | Crashed, Crashed => True
  | _, _ => False
  end.
Proof.
  apply (http_agrees_with_grpc map_to_list 5 follower0 (healthy ∅) (mkHttpReplicate 1 1 "put" "k" "v")
           (mkVoteRequest 1 "n1" 0 "s") (mkHeartbeatRequest 1 0 "n1" "s") 0).
  by left.
Defined.
