(* ===== verification/Write.v ===== *)
(** The write path of a shard leader: [leaderWrite] (src/node/server.go), the
    replication fan-out (replication.go) and the gRPC entry points [Put] and
    [Delete] (grpc.go).

    The state is the leader's replica with its disk, and the other nodes of the
    shard with theirs.  The network is an argument: for each peer, whether the
    request is lost, delivered, or delivered with the reply lost (a timeout is
    one of the last two).  The requests go out in parallel to distinct nodes, so
    the order in which they are listed does not matter. *)

From S2P Require Import Prelude Fs JsonStruct Storage ReplicationLog Wal DiskState StateMachine Durability Replica Wire Handlers.

Abbreviation node := (ReplicaState * World)%type.
Abbreviation cluster := (gmap string node).

Inductive delivery := LostRequest | Delivered | LostReply.

(** ** Fan-out *)

Definition sendReplicateRequest (now : Z) (d : delivery) (req : ReplicateRequest) (peer : string) (c : cluster)
    : bool * cluster :=
  match d, c !! peer with
  | LostRequest, _ => (false, c)
  | _, None => (false, c)
  | _, Some n =>
      let '(o, n') := Replicate now req n in
      (match d, o with Delivered, Ret resp => rsSuccess resp | _, _ => false end, <[peer := n']> c)
  end.

(** The peers that acknowledged, and the nodes afterwards. *)
Fixpoint fanOutReplicate (now : Z) (net : string -> delivery) (req : ReplicateRequest)
    (peers : list string) (c : cluster) : list string * cluster :=
  match peers with
  | [] => ([], c)
  | p :: ps =>
      let '(ok, c1) := sendReplicateRequest now (net p) req p c in
      let '(acked, c2) := fanOutReplicate now net req ps c1 in
      (if ok then p :: acked else acked, c2)
  end.

Definition sendForceRecoverRequest (now : Z) (d : delivery) (peer : string) (c : cluster) : bool * cluster :=
  match d, c !! peer with
  | LostRequest, _ => (false, c)
  | _, None => (false, c)
  | _, Some (r, W) =>
      (match d with Delivered => true | _ => false end, <[peer := (ForceRecover now r, W)]> c)
  end.

Fixpoint fanOutForceRecover (now : Z) (net : string -> delivery) (addrs : gmap string string)
    (peers : list string) (c : cluster) : nat * cluster :=
  match peers with
  | [] => (O, c)
  | p :: ps =>
      match addrs !! p with
      | None => fanOutForceRecover now net addrs ps c
      | Some _ =>
          let '(ok, c1) := sendForceRecoverRequest now (net p) p c in
          let '(n, c2) := fanOutForceRecover now net addrs ps c1 in
          (if ok then S n else n, c2)
      end
  end.

(** ** The write *)

Record KVRequest := mkKVRequest { kqOp : string; kqKey : string; kqValue : string }.

Inductive writeerr :=
| WGuard (e : guarderr)
| WApply (e : smerr)
| WNoLiveQuorum (needed live : Z)
| WQuorum (got needed : Z).

(** What [leaderWrite] reads of the server: the shard map version, the node
    addresses, the liveness window (twice the leader heartbeat), and the order
    in which it visits the live peers. *)
Record write_env := mkWriteEnv {
  weMapVersion : Z;
  weAddresses : gmap string string;
  weLeaderHeartbeat : Z;
  weOrder : gmap string string -> list string;
  weNet : string -> delivery;
  weNetRecover : string -> delivery;
}.

Definition on_leader {E A} (c : M node E A) : M (node * cluster) E A :=
  zoom fst (fun n s => (n, snd s)) c.

(** Apply locally, then snapshot if one is due; a snapshot error is only logged. *)
Definition commit_local (e : Entry) : M node writeerr unit :=
  do_ io_map_err WApply (on_sm (SM_Apply e ApplyWithWAL));
  do_ on_replica mark_healthy;
  do s <- io_get;
  let snap := SM_Snapshot (rSM (fst s)) in
  do_ ignore (on_sm (io_map_err SmWal (on_ds (maybeSnapshot (eTerm e) (eVersion e) (ssKV snap)))));
  on_replica (fun r => r <| rWriteOpsTotal ::= fun n => wrap_int64 (n + 1) |>).

Definition count_error (r : ReplicaState) : ReplicaState :=
  r <| rWriteErrTotal ::= fun n => wrap_int64 (n + 1) |>.

Definition peer_addresses (peers : list string) (addrs : gmap string string) : gmap string string :=
  filter (fun p => p.1 ∈ peers) addrs.

Definition leaderWrite (now : Z) (env : write_env) (req : KVRequest) : M (node * cluster) writeerr WriteResult :=
  do s <- io_get;
  let r := fst (fst s) in
  match ensureLeaderReady r with
  | Fail e => io_fail (WGuard e)
  | Ok _ =>
      if negb (rShardMapVersion r =? weMapVersion env) then io_fail (WGuard errShardMapStale)
      else
        let entry := mkEntry (rTerm r) (u64_succ (rVersion r)) (kqOp req) (kqKey req) (kqValue req) in
        let plan := planQuorum (peer_addresses (rPeers r) (weAddresses env)) (rPeerLastContact r) now
                      (wrap_int64 (weLeaderHeartbeat env * 2)) in
        let needed := NeededFollowers plan in
        if needed =? 0 then
          do_ on_leader (commit_local entry);
          io_ret (quorum_result plan (eVersion entry) 0)
        else if negb (hasLiveQuorum plan) then
          do_ on_leader (on_replica count_error);
          io_fail (WNoLiveQuorum needed (Z.of_nat (size (LivePeers plan))))
        else
          let replReq := mkReplicateRequest (rShardID r) (eTerm entry) (eVersion entry)
                           (Some (opToProto (eOp entry) (eKey entry) (eValue entry))) in
          let '(acked, c) := fanOutReplicate now (weNet env) replReq (weOrder env (LivePeers plan)) (snd s) in
          do_ io_modify (fun s => (fst s, c));
          if Z.of_nat (length acked) <? needed then
            do_ io_modify (fun s => (fst s, (fanOutForceRecover now (weNetRecover env) (LivePeers plan) acked (snd s)).2));
            do_ on_leader (on_replica count_error);
            io_fail (WQuorum (Z.of_nat (length acked)) needed)
          else
            do_ on_leader (on_replica (fun r =>
                  r <| rPeerLastContact ::= fun m => foldr (fun p m => <[p := now]> m) m acked |>));
            do_ on_leader (commit_local entry);
            io_ret (quorum_result plan (eVersion entry) (Z.of_nat (length acked)))
  end.

(** ** Put and Delete *)

Inductive PutResult :=
| PUT_OK
| PUT_NOT_LEADER (hint : string)
| PUT_NOT_READY
| PUT_QUORUM_UNAVAILABLE.

(** [leaderWrite] checks the guard again after the handler has. *)
Definition handleWrite (now : Z) (env : write_env) (req : KVRequest) (s : node * cluster)
    : outcome rpcerr PutResult * (node * cluster) :=
  match ensureLeaderReady (fst (fst s)) with
  | Fail errNotLeader => (Ret (PUT_NOT_LEADER (rLeaderID (fst (fst s)))), s)
  | Fail _ => (Ret PUT_NOT_READY, s)
  | Ok _ =>
      match leaderWrite now env req s with
      | (Ret _, s') => (Ret PUT_OK, s')
      | (Err (WGuard errShardMapStale), s') => (Ret PUT_NOT_READY, s')
      | (Err _, s') => (Ret PUT_QUORUM_UNAVAILABLE, s')
      | (Crashed, s') => (Crashed, s')
      end
  end.

Definition Put (now : Z) (env : write_env) (key value : string) := handleWrite now env (mkKVRequest "put" key value).

(** [Delete] answers with a result type of its own. *)
Inductive DeleteResult :=
| DELETE_OK
| DELETE_NOT_LEADER (hint : string)
| DELETE_NOT_READY
| DELETE_QUORUM_UNAVAILABLE.

Definition mapWriteResult (r : PutResult) : DeleteResult :=
  match r with
  | PUT_OK => DELETE_OK
  | PUT_NOT_LEADER hint => DELETE_NOT_LEADER hint
  | PUT_NOT_READY => DELETE_NOT_READY
  | PUT_QUORUM_UNAVAILABLE => DELETE_QUORUM_UNAVAILABLE
  end.

Definition Delete (now : Z) (env : write_env) (key : string) : M (node * cluster) rpcerr DeleteResult :=
  do r <- handleWrite now env (mkKVRequest "delete" key "");
  io_ret (mapWriteResult r).

(** ** The fan-out *)

(** One acknowledged request. *)
Definition ack_of (now : Z) (req : ReplicateRequest) (c c' : cluster) (p : string) : Prop :=
  exists n n' resp, c !! p = Some n /\ c' !! p = Some n' /\
    Replicate now req n = (Ret resp, n') /\ rsSuccess resp = true.

Lemma sendReplicateRequest_spec now d req p c ok c' :
  sendReplicateRequest now d req p c = (ok, c') ->
  (forall q, q <> p -> c' !! q = c !! q) /\ (ok = true -> ack_of now req c c' p).
Proof.
  unfold sendReplicateRequest.
  destruct d, (c !! p) as [n|] eqn:Hp; try (intros [= <- <-]; split; [done|done]).
  - destruct (Replicate now req n) as [o n'] eqn:Hr. intros [= <- <-]. split.
    + intros q Hq. by rewrite lookup_insert_ne.
    + destruct o as [resp|e|]; [|done|done]. intros Hs. exists n, n', resp.
      by rewrite lookup_insert_eq.
  - destruct (Replicate now req n) as [o n'] eqn:Hr. intros [= <- <-]. split; [|done].
    intros q Hq. by rewrite lookup_insert_ne.
Qed.

Lemma fanOutReplicate_spec now net req ps c acked c' :
  fanOutReplicate now net req ps c = (acked, c') -> NoDup ps ->
  acked `sublist_of` ps /\ (forall q, q ∉ ps -> c' !! q = c !! q) /\
  (forall p, p ∈ acked -> ack_of now req c c' p).
Proof.
  revert c acked. induction ps as [|p ps IH]; intros c acked; simpl.
  { intros [= <- <-] _. split_and!; [done|done|set_solver]. }
  destruct (sendReplicateRequest now (net p) req p c) as [ok c1] eqn:Hs.
  destruct (fanOutReplicate now net req ps c1) as [acked1 c2] eqn:Hf.
  intros [= <- <-] [Hp Hnd]%NoDup_cons. apply sendReplicateRequest_spec in Hs as [Hother Hack].
  destruct (IH _ _ Hf Hnd) as (Hsub & Hkeep & Hacks). split_and!.
  - destruct ok; [by apply sublist_skip|by apply sublist_cons].
  - intros q Hq. rewrite Hkeep, Hother by set_solver. done.
  - assert (Hrest : forall q, q ∈ acked1 -> ack_of now req c c2 q).
    { intros q Hq. destruct (Hacks q Hq) as (n & n' & resp & Hn & ?). exists n, n', resp.
      assert (q ∈ ps) by (by eapply elem_of_sublist). rewrite <- Hother by set_solver. done. }
    destruct ok; [|done]. intros q [->|Hq]%elem_of_cons; [|auto].
    destruct (Hack eq_refl) as (n & n' & resp & Hn & Hn' & ?). exists n, n', resp. by rewrite Hkeep.
Qed.

(** ** Commit *)

Lemma wp_commit_local e r W :
  wp (commit_local e) (fun o s' => o = Ret tt ->
    rVersion (fst s') = eVersion e /\ rTerm (fst s') = eTerm e /\
    rContents (fst s') = kv_step (rContents r) e /\ rIsReady (fst s') = true /\
    next_entry (rSM r) e /\ known_op e) (r, W).
Proof.
  unfold commit_local. apply wp_bind, wp_map_err. eapply wp_mono; [apply wp_on_sm_apply|]. cbn beta.
  intros o [r2 W2] (sm' & Hr2 & Hret & _). simpl in Hr2. subst r2.
  destruct o as [[]|x|]; [|done|done]. destruct (Hret eq_refl) as (Hn & Hk & Hv & Ht & Hc & _).
  apply wp_bind, wp_modify, wp_bind, wp_get. cbn [fst snd]. apply wp_bind, wp_ignore, wp_zoom. cbn [fst snd].
  apply wp_map_err. eapply wp_mono; [apply on_ds_unmoved|]. cbn beta. intros o [sm2 W3] (Hv2 & Ht2 & Hk2 & _).
  assert (Hgoal : forall b : ReplicaState, rSM b = sm2 -> rIsReady b = true ->
    rVersion b = eVersion e /\ rTerm b = eTerm e /\ rContents b = kv_step (rContents r) e /\
    rIsReady b = true /\ next_entry (rSM r) e /\ known_op e).
  { intros b Hb Hrdy. unfold rVersion, rTerm, rContents, contents in *. rewrite Hb. simpl in *.
    rewrite Hv2, Ht2, Hk2. by split_and!. }
  destruct o as [[]|x|]; [..|done]; apply wp_modify; intros _; by apply Hgoal.
Qed.

(** On the disk of the shard a local commit is the application of an entry with
    the snapshot that follows it. *)
Lemma commit_local_run_op e r W o r' W' :
  commit_local e (r, W) = (o, (r', W')) ->
  exists ev, disk_run_op (DApply e true) (rSM r, W) = (ev, (rSM r', W')) /\
    match o with Ret _ => ev_acked ev = true | Err _ => ev_applied ev = false | Crashed => ev_died ev = true end.
Proof.
  unfold commit_local, io_bind, io_map_err, on_sm, zoom. cbn [fst snd disk_run_op].
  pose proof (SM_Apply_spec e ApplyWithWAL (rSM r) W) as Hspec.
  destruct (SM_Apply e ApplyWithWAL (rSM r, W)) as [oa [sm1 W1]]. destruct oa as [[]|x|]; cbn [fst snd].
  - destruct Hspec as [Hadv _]. destruct (Hadv eq_refl) as (_ & _ & Hv & Ht & _).
    unfold run_snapshot, ignore, attempt, io_bind, io_map_err, on_replica, io_modify, io_get. cbn [fst snd].
    change (rSM (mark_healthy (r <| rSM := sm1 |>))) with sm1. cbn [SM_Snapshot ssTerm ssVersion ssKV]. rewrite Hv, Ht.
    destruct (on_ds _ (sm1, W1)) as [[[]|x|] [sm2 W2]]; cbn [fst snd]; intros [= <- <- <-]; eexists; (split; [reflexivity|]).
    all: by destruct (snapshot_due sm1).
  - intros [= <- <- <-]. by destruct x; eexists; (split; [reflexivity|]); try case_match.
  - intros [= <- <- <-]. by eexists.
Qed.

Definition visits (order : gmap string string -> list string) : Prop :=
  forall m, NoDup (order m) /\ forall p, p ∈ order m <-> is_Some (m !! p).

(** The entry of a write. *)
Definition write_entry (r : ReplicaState) (req : KVRequest) : Entry :=
  mkEntry (rTerm r) (u64_succ (rVersion r)) (kqOp req) (kqKey req) (kqValue req).

Definition write_request (r : ReplicaState) (req : KVRequest) : ReplicateRequest :=
  mkReplicateRequest (rShardID r) (rTerm r) (u64_succ (rVersion r))
    (Some (opToProto (kqOp req) (kqKey req) (kqValue req))).

(** The follower applies what the leader applies. *)
Lemma write_request_step r req m :
  known_op (write_entry r req) -> kv_step m (request_entry (write_request r req)) = kv_step m (write_entry r req).
Proof. unfold known_op, request_entry, kv_step. simpl. by intros [-> | ->]. Qed.

(** What an acknowledgement of the entry [e] says of the follower: it applied
    exactly this entry at its place, or it was already there and did nothing. *)
Definition follower_ok (e : Entry) (c c' : cluster) (p : string) : Prop :=
  exists n n', c !! p = Some n /\ c' !! p = Some n' /\
    rTerm (fst n) <= eTerm e /\ rTerm (fst n') = eTerm e /\
    (u64_succ (rVersion (fst n)) = eVersion e /\ rVersion (fst n') = eVersion e /\
       rContents (fst n') = kv_step (rContents (fst n)) e \/
     eVersion e <= rVersion (fst n) /\ same_data (fst n) (fst n')).

(** A follower that agreed with the leader applied the entry and agrees with it again. *)
Lemma follower_ok_agrees r req r' c c' p n :
  0 <= rVersion r < two64 - 1 ->
  rVersion r' = rVersion r + 1 -> rContents r' = kv_step (rContents r) (write_entry r req) ->
  follower_ok (write_entry r req) c c' p -> c !! p = Some n -> same_data r (fst n) ->
  exists n', c' !! p = Some n' /\ same_data r' (fst n').
Proof.
  intros Hv Hv' Hc' (n0 & n' & Hn & Hn' & _ & _ & Hor) Hn0 [Hvf Hcf]. simplify_eq. exists n'. split; [done|].
  assert (Hver : eVersion (write_entry r req) = rVersion r + 1) by (apply u64_succ_lt; [unfold u64; lia|lia]).
  destruct Hor as [(_ & Hv1 & Hc1)|[? _]]; [|lia]. split; [lia|]. by rewrite Hc1, Hc', Hcf.
Qed.

Lemma ack_follower_ok now r req c c' p :
  known_op (write_entry r req) ->
  ack_of now (write_request r req) c c' p -> follower_ok (write_entry r req) c c' p.
Proof.
  intros Hk ([rf Wf] & [rf' Wf'] & resp & Hn & Hn' & Hr & Hs).
  pose proof (Replicate_cases now (write_request r req) rf Wf) as Hcases. rewrite Hr in Hcases.
  exists (rf, Wf), (rf', Wf'). split_and!; [done|done|..]; cbn [fst];
    inversion Hcases as [Hst|x Ht Hle Ht' [Hd Hd']|x Ht Hlt Hne Ht' Hd|x Ht Hnx Hlt Hkn Ht' Hvx Hcx|o x Ht Hlt Hno];
    simplify_eq/=; try (by destruct (Hno resp)); try done.
  - by right.
  - left. by rewrite Hcx, write_request_step.
Qed.

(** C7: A write that the leader acknowledges was made by a ready leader with a
    current shard map, is the next version, and is applied by the leader.  At
    least as many followers acknowledged it as the quorum over the replicas it
    counts as live asks for.  Each of them was at the leader's version and applied
    exactly this entry, or was at the version of the write or beyond and kept its
    data, in the term of the write; one that agreed with the leader before the
    write agrees with it after.  A follower of the second kind may hold something
    else at that version, and the quorum may be the leader alone
    ([isolated_leader_acknowledges]). *)
Theorem leaderWrite_commit now env req r W c res r' W' c' :
  visits (weOrder env) -> 0 <= rVersion r < two64 - 1 ->
  leaderWrite now env req ((r, W), c) = (Ret res, ((r', W'), c')) ->
  rRole r = RoleLeader /\ rIsReady r = true /\ rShardMapVersion r = weMapVersion env /\
  AppliedVersion res = rVersion r + 1 /\ rVersion r' = rVersion r + 1 /\ rTerm r' = rTerm r /\
  rContents r' = kv_step (rContents r) (write_entry r req) /\
  exists acked, NoDup acked /\ AckedFollowers res = Z.of_nat (length acked) /\
    wrQuorum res <= 1 + AckedFollowers res /\ wrTotalEligible res < 2 * wrQuorum res /\
    forall p, p ∈ acked -> follower_ok (write_entry r req) c c' p /\
      (forall n, c !! p = Some n -> same_data r (fst n) -> exists n', c' !! p = Some n' /\ same_data r' (fst n')).
Proof.
  intros Horder Hv. revert res r' W' c'.
  enough (Hwp : wp (leaderWrite now env req) (fun o s' => forall res, o = Ret res ->
    rRole r = RoleLeader /\ rIsReady r = true /\ rShardMapVersion r = weMapVersion env /\
    AppliedVersion res = rVersion r + 1 /\ rVersion (fst (fst s')) = rVersion r + 1 /\
    rTerm (fst (fst s')) = rTerm r /\
    rContents (fst (fst s')) = kv_step (rContents r) (write_entry r req) /\
    exists acked, NoDup acked /\ AckedFollowers res = Z.of_nat (length acked) /\
      wrQuorum res <= 1 + AckedFollowers res /\ wrTotalEligible res < 2 * wrQuorum res /\
      forall p, p ∈ acked -> follower_ok (write_entry r req) c (snd s') p /\
        (forall n, c !! p = Some n -> same_data r (fst n) ->
           exists n', snd s' !! p = Some n' /\ same_data (fst (fst s')) (fst n'))) ((r, W), c)).
  { intros res r' W' c' Heq. exact (wp_use _ _ _ _ _ Hwp Heq res eq_refl). }
  unfold leaderWrite. apply wp_bind, wp_get. cbn [fst snd].
  unfold ensureLeaderReady. case_decide as Hrole; [done|]. destruct (rIsReady r) eqn:Hready; [|done].
  assert (Hlead : rRole r = RoleLeader) by (destruct (decide (rRole r = RoleLeader)); [done|by destruct Hrole]).
  cbn [negb]. destruct (Z.eqb_spec (rShardMapVersion r) (weMapVersion env)); [|done]. cbn [negb].
  fold (write_entry r req).
  set (plan := planQuorum _ _ _ _).
  pose proof (planQuorum_majority (peer_addresses (rPeers r) (weAddresses env)) (rPeerLastContact r) now
                (wrap_int64 (weLeaderHeartbeat env * 2))) as [Hmaj Hneeded]. fold plan in Hmaj, Hneeded.
  assert (Hnext : eVersion (write_entry r req) = rVersion r + 1) by (apply u64_succ_lt; [unfold u64; lia|lia]).
  destruct (Z.eqb_spec (NeededFollowers plan) 0).
  - apply wp_bind, wp_zoom. cbn [fst snd]. eapply wp_mono; [apply wp_commit_local|]. cbn beta.
    intros [[]|x|] [r2 W2] Hs; [|done|done]. destruct (Hs eq_refl) as (Hv2 & Ht2 & Hc2 & _).
    apply wp_ret. intros res [= <-]. cbn [fst snd quorum_result AppliedVersion wrQuorum AckedFollowers wrTotalEligible] in *.
    split_and!; try done; try lia. exists []. split_and!; [constructor|done|lia|lia|set_solver].
  - destruct (negb (hasLiveQuorum plan)); [by apply wp_bind, wp_zoom, wp_modify|].
    change (mkReplicateRequest _ _ _ _) with (write_request r req).
    destruct (fanOutReplicate _ _ _ _ _) as [acked c1] eqn:Hfan.
    destruct (Horder (LivePeers plan)) as [Hnd _].
    destruct (fanOutReplicate_spec _ _ _ _ _ _ _ Hfan Hnd) as (Hsub & _ & Hacks).
    apply wp_bind, wp_modify. cbn [fst snd].
    destruct (Z.ltb_spec (Z.of_nat (length acked)) (NeededFollowers plan)).
    { apply wp_bind, wp_modify, wp_bind, wp_zoom, wp_modify. done. }
    apply wp_bind, wp_zoom, wp_modify, wp_bind, wp_zoom. cbn [fst snd].
    eapply wp_mono; [apply wp_commit_local|]. cbn beta.
    intros [[]|x|] [r2 W2] Hs; [|done|done]. destruct (Hs eq_refl) as (Hv2 & Ht2 & Hc2 & _ & _ & Hk).
    apply wp_ret. intros res [= <-]. cbn [fst snd quorum_result AppliedVersion wrQuorum AckedFollowers wrTotalEligible] in *.
    change (rContents (r <| rPeerLastContact ::= _ |>)) with (rContents r) in Hc2.
    split_and!; try done; try lia. exists acked. split_and!; [by eapply sublist_NoDup|done|lia|lia|].
    intros p Hp. assert (Hok : follower_ok (write_entry r req) c c1 p) by (eapply ack_follower_ok; [done|by apply Hacks]).
    split; [done|]. intros f Hf Hs1. eapply follower_ok_agrees; eauto. lia.
Qed.

(** ** Concrete writes *)

Definition key_order (m : gmap string string) : list string := (map_to_list m).*1.

Lemma key_order_visits : visits key_order.
Proof.
  intros m. split; [apply NoDup_fst_map_to_list|]. intros p. unfold key_order.
  rewrite list_elem_of_fmap. split.
  - intros ([k v] & -> & Hin). apply elem_of_map_to_list in Hin. by exists v.
  - intros [v Hv]. exists (p, v). split; [done|]. by apply elem_of_map_to_list.
Qed.

Definition write_leader : ReplicaState :=
  NewReplicaState "s" "n1" ["n2"; "n3"] 10 0
    <| rRole := RoleLeader |> <| rIsReady := true |> <| rShardMapVersion := 1 |>
    <| rPeerLastContact := {["n2" := 100; "n3" := 100]} |>.

Definition write_follower (id : string) : node := (NewReplicaState "s" id ["n1"] 10 0, healthy ∅).

Definition write_env1 : write_env :=
  mkWriteEnv 1 {["n2" := "n2:1"; "n3" := "n3:1"]} (150 * millisecond) key_order
    (fun p => if decide (p = "n3") then LostReply else Delivered) (fun _ => Delivered).

Definition write_others : cluster := {["n2" := write_follower "n2"; "n3" := write_follower "n3"]}.

Definition write_run := leaderWrite 200 write_env1 (mkKVRequest "put" "k" "v") ((write_leader, healthy ∅), write_others).

Lemma write_run_result : exists res, fst write_run = Ret res /\ AckedFollowers res = 1.
Proof. exists (mkWriteResult 1 2 1 3). split; by vm_compute. Qed.

Lemma leaderWrite_commit_witness :
  match write_run with
  | (Ret res, ((r', _), c')) =>
      AckedFollowers res = 1 /\ rContents r' = {["k" := "v"]} /\
      exists acked, Z.of_nat (length acked) = 1 /\
        forall p, p ∈ acked -> follower_ok (write_entry write_leader (mkKVRequest "put" "k" "v")) write_others c' p
  | _ => False
  end.
Proof.
  assert (Hv : 0 <= rVersion write_leader < two64 - 1) by by vm_compute.
  destruct write_run as [o [[r' W'] c']] eqn:Hrun.
  destruct write_run_result as (res & Ho & Hacked). rewrite Hrun in Ho. cbn [fst] in Ho. subst o.
  pose proof (leaderWrite_commit 200 write_env1 (mkKVRequest "put" "k" "v") write_leader (healthy ∅)
              write_others res r' W' c' key_order_visits Hv Hrun) as (_ & _ & _ & _ & _ & _ & Hc & acked & _ & Hl & _ & _ & Hf).
  clear Hrun. split_and!; [exact Hacked|rewrite Hc; by vm_compute|].
  exists acked. split; [by rewrite <- Hl|]. intros p Hp. exact (proj1 (Hf p Hp)).
Defined.

(** The leader of a shard with two followers it has not heard from for ten
    seconds acknowledges a write that no other node has. *)
Theorem isolated_leader_acknowledges :
  let '(o, (_, c)) :=
    leaderWrite (10 * second) write_env1 (mkKVRequest "put" "k" "v")
      ((write_leader, healthy ∅), write_others) in
  o = Ret (mkWriteResult 1 1 0 1) /\ c = write_others.
Proof. by vm_compute. Qed.
