(* ===== verification/Kv.v ===== *)
(** The client's view of a shard: the HTTP endpoint [handleKV]
    (src/node/server.go) over the write path of [Write.v].

    A client that sends its requests to the shard's leader one after another
    sees a key-value map: reads return what the acknowledged writes before them
    left, and a refused write is never seen. *)

From S2P Require Import Prelude Fs JsonStruct Storage ReplicationLog Wal DiskState StateMachine Replica Wire Handlers Write.

(** The replies, one constructor per branch of the handler; the status code is
    200 unless noted.  For a refused write the body carries the error's text,
    here the error itself. *)
Inductive KVReply :=
| KV_NOT_LEADER (leaderID leaderAddress : string)   (* 421 *)
| KV_NOT_READY                                      (* 503 *)
| KV_BAD_REQUEST                                    (* 400 *)
| KV_NOT_FOUND
| KV_VALUE (value : string)
| KV_SHARD_MAP_STALE                                (* 503 *)
| KV_REFUSED (e : writeerr)                         (* 503 *)
| KV_APPLIED (appliedVersion quorum : Z)
| KV_UNKNOWN_OP (op : string).                      (* 400 *)

(** [body] is the decoded request, [None] when it is not JSON of that type. *)
Definition handleKV (now : Z) (env : write_env) (body : option KVRequest) (s : node * cluster)
    : outcome Empty_set KVReply * (node * cluster) :=
  let r := fst (fst s) in
  match ensureLeaderReady r with
  | Fail errNotLeader => (Ret (KV_NOT_LEADER (rLeaderID r) (default "" (weAddresses env !! rLeaderID r))), s)
  | Fail _ => (Ret KV_NOT_READY, s)
  | Ok _ =>
      match body with
      | None => (Ret KV_BAD_REQUEST, s)
      | Some req =>
          if decide (kqOp req = "get") then
            (Ret match SM_Get (rSM r) (kqKey req) with Some v => KV_VALUE v | None => KV_NOT_FOUND end, s)
          else if decide (kqOp req = "put" \/ kqOp req = "delete") then
            match leaderWrite now env req s with
            | (Ret res, s') => (Ret (KV_APPLIED (AppliedVersion res) (wrQuorum res)), s')
            | (Err (WGuard errShardMapStale), s') => (Ret KV_SHARD_MAP_STALE, s')
            | (Err e, s') => (Ret (KV_REFUSED e), s')
            | (Crashed, s') => (Crashed, s')
            end
          else (Ret (KV_UNKNOWN_OP (kqOp req)), s)
      end
  end.

(** ** What a write does to the leader *)

(** Everything of the leader a client can see. *)
Definition visible (r r' : ReplicaState) : Prop :=
  rRole r' = rRole r /\ rIsReady r' = rIsReady r /\ rLeaderID r' = rLeaderID r /\ same_data r r'.

(** The write took effect on the leader. *)
Definition took_effect (r r' : ReplicaState) (req : KVRequest) : Prop :=
  rRole r' = rRole r /\ rIsReady r' = true /\ rLeaderID r' = rLeaderID r /\
  rVersion r' = u64_succ (rVersion r) /\ rContents r' = kv_step (rContents r) (write_entry r req).

Lemma commit_local_effect r req W r0 :
  visible r r0 -> rTerm r0 = rTerm r ->
  wp (commit_local (write_entry r req)) (fun o s' => match o with
    | Ret _ => took_effect r (fst s') req
    | Err _ => visible r (fst s')
    | Crashed => True
    end) (r0, W).
Proof.
  intros (Hrole & Hready & Hlead & Hv & Hc) Ht. unfold commit_local.
  apply wp_bind, wp_map_err. eapply wp_mono; [apply wp_on_sm_apply|]. cbn beta.
  intros o [r2 W2] (sm' & Hr2 & Hret & Herr). simpl in Hr2. subst r2.
  destruct o as [[]|x|]; [| |done].
  - destruct (Hret eq_refl) as (_ & _ & Hv' & _ & Hc' & _).
    apply wp_bind, wp_modify, wp_bind, wp_get. cbn [fst snd]. apply wp_bind, wp_ignore, wp_zoom. cbn [fst snd].
    apply wp_map_err. eapply wp_mono; [apply on_ds_unmoved|]. cbn beta. intros o [sm2 W3] (Hv2 & _ & Hk2 & _).
    assert (Hgoal : forall b : ReplicaState, rSM b = sm2 -> rRole b = rRole r0 -> rIsReady b = true ->
      rLeaderID b = rLeaderID r0 -> took_effect r b req).
    { intros b Hb Hbr Hrdy Hbl. unfold took_effect, rVersion, rContents, contents in *. rewrite Hb, Hbr, Hbl. simpl in *.
      rewrite Hv2, Hk2, Hv', Hc', Hc. by split_and!. }
    destruct o as [[]|x|]; [..|done]; apply wp_modify; by apply Hgoal.
  - destruct (Herr ltac:(done)) as (Hv' & _ & Hk' & _).
    unfold visible, same_data, rVersion, rContents, contents in *. simpl in *. rewrite Hv', Hk'. by split_and!.
Qed.

Lemma leaderWrite_effect now env req r W c :
  wp (leaderWrite now env req) (fun o s' => match o with
    | Ret res => took_effect r (fst (fst s')) req /\ AppliedVersion res = u64_succ (rVersion r)
    | Err _ => visible r (fst (fst s'))
    | Crashed => True
    end) ((r, W), c).
Proof.
  assert (Hrefl : visible r r) by done.
  unfold leaderWrite. apply wp_bind, wp_get. cbn [fst snd].
  destruct (ensureLeaderReady r); [|done]. destruct (negb _); [done|]. fold (write_entry r req).
  set (plan := planQuorum _ _ _ _). destruct (NeededFollowers plan =? 0).
  - apply wp_bind, wp_zoom. cbn [fst snd]. eapply wp_mono; [by apply (commit_local_effect r req W r)|]. cbn beta.
    intros [[]|x|] [r2 W2] Hs; [|done|done]. by apply wp_ret.
  - destruct (negb (hasLiveQuorum plan)); [by apply wp_bind, wp_zoom, wp_modify|].
    destruct (fanOutReplicate _ _ _ _ _) as [acked c1]. apply wp_bind, wp_modify. cbn [fst snd].
    destruct (_ <? _); [by apply wp_bind, wp_modify, wp_bind, wp_zoom, wp_modify|].
    apply wp_bind, wp_zoom, wp_modify, wp_bind, wp_zoom. cbn [fst snd].
    eapply wp_mono; [by apply (commit_local_effect r req W)|]. cbn beta.
    intros [[]|x|] [r2 W2] Hs; [|done|done]. by apply wp_ret.
Qed.

(** ** The client's map *)

(** A request, with the time it arrives and what the server sees of the rest. *)
Definition call : Type := Z * write_env * option KVRequest.

(** The replies to a sequence of requests, up to a crash of the leader. *)
Fixpoint kv_session (calls : list call) (s : node * cluster) : list (call * KVReply) :=
  match calls with
  | [] => []
  | (now, env, body) as c :: rest =>
      match handleKV now env body s with
      | (Ret reply, s') => (c, reply) :: kv_session rest s'
      | _ => []
      end
  end.

(** A map with its version, and what a reply says of it. *)
Definition kv_answers (m : gmap string string) (v : Z) (body : option KVRequest) (reply : KVReply) : Prop :=
  match reply with
  | KV_VALUE x => exists req, body = Some req /\ kqOp req = "get" /\ m !! kqKey req = Some x
  | KV_NOT_FOUND => exists req, body = Some req /\ kqOp req = "get" /\ m !! kqKey req = None
  | KV_APPLIED v' _ => v' = u64_succ v /\ exists req, body = Some req /\ (kqOp req = "put" \/ kqOp req = "delete")
  | KV_BAD_REQUEST => body = None
  | KV_UNKNOWN_OP op => exists req, body = Some req /\ op = kqOp req /\ op <> "get" /\ op <> "put" /\ op <> "delete"
  | _ => True
  end.

Definition kv_apply (m : gmap string string) (req : KVRequest) : gmap string string :=
  if decide (kqOp req = "put") then <[kqKey req := kqValue req]> m else delete (kqKey req) m.

(** The replies are those of a map on which exactly the acknowledged writes are
    carried out, in order. *)
Fixpoint kv_spec (m : gmap string string) (v : Z) (log : list (call * KVReply)) : Prop :=
  match log with
  | [] => True
  | ((_, _, body), reply) :: rest =>
      kv_answers m v body reply /\
      match reply, body with
      | KV_APPLIED v' _, Some req => kv_spec (kv_apply m req) v' rest
      | _, _ => kv_spec m v rest
      end
  end.

Lemma handleKV_answers now env body r W c :
  let '(o, s') := handleKV now env body ((r, W), c) in
  match o with
  | Ret reply => kv_answers (rContents r) (rVersion r) body reply /\
      match reply, body with
      | KV_APPLIED v _, Some req => rContents (fst (fst s')) = kv_apply (rContents r) req /\ rVersion (fst (fst s')) = v
      | _, _ => same_data r (fst (fst s'))
      end
  | _ => True
  end.
Proof.
  unfold handleKV. cbn [fst].
  destruct (ensureLeaderReady r) as [[]|[]]; try done. destruct body as [req|]; [|done].
  case_decide as Hget.
  { unfold SM_Get. rewrite storage_get_snapshot. change (storage_Snapshot (smKV (rSM r))) with (rContents r).
    destruct (rContents r !! kqKey req) eqn:Hk; (split; [by exists req|done]). }
  case_decide as Hop; [|by split; [exists req; split_and!; naive_solver|]].
  pose proof (leaderWrite_effect now env req r W c) as He. unfold wp in He.
  destruct (leaderWrite now env req _) as [[res|[[]| | |]|] s']; try (by destruct He as (_ & _ & _ & ?)); [|done].
  destruct He as [(_ & _ & _ & Hv & Hc) Hres]. split; [split; [done|by exists req]|]. rewrite Hc, Hv, Hres. split; [|done].
  unfold kv_step, kv_apply, write_entry. simpl. destruct Hop as [->| ->]; done.
Qed.

(** C5: The HTTP endpoint of a shard's leader is a key-value map.  For any
    sequence of requests, well formed or not, while peers fail, requests and
    replies are lost, the shard map changes and the disk errs, the replies are
    those of a map on which exactly the acknowledged writes are carried out, in
    order, with consecutive versions: a read returns the last acknowledged value
    of its key, and a refused write is never seen. *)
Theorem kv_session_refines calls r W c : kv_spec (rContents r) (rVersion r) (kv_session calls ((r, W), c)).
Proof.
  revert r W c. induction calls as [|[[now env] body] rest IH]; intros r W c; [done|]. cbn [kv_session].
  pose proof (handleKV_answers now env body r W c) as Hone.
  destruct (handleKV now env body (r, W, c)) as [[reply|e|] [[r' W'] c']]; [|done|done]. cbn [fst kv_spec] in *.
  destruct Hone as [Hans Hnext]. split; [done|]. specialize (IH r' W' c').
  destruct reply, body as [req|]; destruct Hnext as [H1 H2]; rewrite H1, H2 in IH; exact IH.
Qed.

(** ** HTTP and gRPC *)

(** The gRPC result that says the same. *)
Definition put_result (reply : KVReply) : option PutResult :=
  match reply with
  | KV_NOT_LEADER id _ => Some (PUT_NOT_LEADER id)
  | KV_NOT_READY | KV_SHARD_MAP_STALE => Some PUT_NOT_READY
  | KV_REFUSED _ => Some PUT_QUORUM_UNAVAILABLE
  | KV_APPLIED _ _ => Some PUT_OK
  | _ => None
  end.

Definition get_result (reply : KVReply) : option GetResult :=
  match reply with
  | KV_NOT_LEADER id _ => Some (GET_NOT_LEADER id)
  | KV_NOT_READY => Some GET_NOT_READY
  | KV_NOT_FOUND => Some GET_NOT_FOUND
  | KV_VALUE v => Some (GET_OK v)
  | _ => None
  end.

Definition delete_result (reply : KVReply) : option DeleteResult := mapWriteResult <$> put_result reply.

Definition same_write {R} (view : KVReply -> option R) (h : outcome Empty_set KVReply * (node * cluster))
    (g : outcome rpcerr R * (node * cluster)) : Prop :=
  snd h = snd g /\
  match fst h, fst g with
  | Ret reply, Ret result => view reply = Some result
  | Crashed, Crashed => True
  | _, _ => False
  end.

Lemma handleKV_write now env req s :
  kqOp req = "put" \/ kqOp req = "delete" -> same_write put_result (handleKV now env (Some req) s) (handleWrite now env req s).
Proof.
  intros Hop. unfold handleKV, handleWrite, same_write.
  destruct (ensureLeaderReady (fst (fst s))) as [[]|[]]; try done.
  rewrite decide_False by (destruct Hop as [->| ->]; done). rewrite decide_True by done.
  by destruct (leaderWrite now env req s) as [[res|[[]| | |]|] s'].
Qed.

Lemma same_delete h now env key s :
  same_write put_result h (handleWrite now env (mkKVRequest "delete" key "") s) ->
  same_write delete_result h (Delete now env key s).
Proof.
  unfold same_write, Delete, io_bind, delete_result. destruct h as [[reply|e|] sh], (handleWrite _ _ _ s) as [[r|e'|] sg];
    intros [Hs Hr]; split; try done. cbn [fst] in *. by rewrite Hr.
Qed.

(** C31: A client that speaks HTTP and one that speaks gRPC are served alike: put,
    delete and get change the replicas in the same way and are answered with
    corresponding results. *)
Theorem handleKV_agrees_with_grpc now env key value s :
  same_write put_result (handleKV now env (Some (mkKVRequest "put" key value)) s) (Put now env key value s) /\
  same_write delete_result (handleKV now env (Some (mkKVRequest "delete" key "")) s) (Delete now env key s) /\
  (exists reply, handleKV now env (Some (mkKVRequest "get" key value)) s = (Ret reply, s) /\
     get_result reply = Some (Get key (fst (fst s)))).
Proof.
  split_and!; [apply handleKV_write; by left|apply same_delete, handleKV_write; by right|].
  unfold handleKV, Get, ensureLeaderReady. destruct s as [[r W] c]. cbn [fst snd]. case_decide; [by eexists; split|].
  destruct (rIsReady r); [|by eexists; split]. cbn [negb].
  rewrite decide_True by done. eexists. split; [done|]. cbn [kqKey]. by destruct (SM_Get (rSM r) key).
Qed.

(** A session: a write that reaches the live follower, a read of it, a write the
    shard map guard refuses, and the read again. *)
Definition stale_env : write_env :=
  mkWriteEnv 2 (weAddresses write_env1) (weLeaderHeartbeat write_env1) key_order (fun _ => Delivered) (fun _ => Delivered).

Lemma kv_session_example :
  snd <$> kv_session
    [(200, write_env1, Some (mkKVRequest "put" "k" "v")); (201, write_env1, Some (mkKVRequest "get" "k" ""));
     (202, stale_env, Some (mkKVRequest "delete" "k" "")); (203, write_env1, Some (mkKVRequest "get" "k" ""))]
    ((write_leader, healthy ∅), write_others) =
  [KV_APPLIED 1 2; KV_VALUE "v"; KV_SHARD_MAP_STALE; KV_VALUE "v"].
Proof. by vm_compute. Qed.
