(* ===== verification/Recovery.v ===== *)
(** Recovery of a lagging replica, src/node/recovery.go: one attempt
    ([doIncrementalRecovery]) and one turn of the recovery loop. *)

From S2P Require Import Prelude Fs JsonStruct Storage ReplicationLog Wal DiskState StateMachine Replica Wire Handlers.

Inductive recerr :=
| RecRequest
| RecGap (expected got : Z)
| RecApply (e : smerr)
| RecSnapshot (e : smerr)
| RecUnknownType.

Inductive RecoveryKind := Incremental | FromSnapshot.

(** The shard and the version to ask for: a split shard starts from its source. *)
Definition recovery_request (r : ReplicaState) : string * Z :=
  if decide (rBootstrapShardID r <> "") then (rBootstrapShardID r, 0) else (rShardID r, rVersion r).

(** The first loop over the received entries. *)
Fixpoint check_gap (version expected : Z) (es : list LogEntry) : result recerr unit :=
  match es with
  | [] => Ok tt
  | e :: es' =>
      if leVersion e <=? version then check_gap version expected es'
      else if negb (leVersion e =? expected) then Fail (RecGap expected (leVersion e))
      else check_gap version (u64_succ expected) es'
  end.

(** The second loop. *)
Fixpoint apply_entries (es : list LogEntry) : M (ReplicaState * World) recerr unit :=
  match es with
  | [] => io_ret tt
  | e :: es' =>
      do s <- io_get;
      if leVersion e <=? rVersion (fst s) then apply_entries es'
      else
        do_ io_map_err RecApply (on_sm (SM_Apply (entryFromProto e) ApplyWithWAL));
        apply_entries es'
  end.

Definition recovered (r : ReplicaState) : ReplicaState :=
  mark_healthy r <| rBootstrapShardID := "" |> <| rBootstrapLeaderAddr := "" |>.

(** The part of [doIncrementalRecovery] after the reply, under the lock. *)
Definition recovery_apply (resp : RecoverResponse) : M (ReplicaState * World) recerr RecoveryKind :=
  match rvType resp with
  | RECOVER_ENTRIES =>
      do s <- io_get;
      do_ of_result (check_gap (rVersion (fst s)) (u64_succ (rVersion (fst s))) (rvEntries resp));
      do_ apply_entries (rvEntries resp);
      do_ on_replica recovered;
      io_ret Incremental
  | RECOVER_SNAPSHOT =>
      do_ io_map_err RecSnapshot (on_sm (SM_ApplySnapshot
            (mkStateSnapshot (rvTerm resp) (rvVersion resp) (kvFromProto (rvKv resp))) SnapshotPersist));
      do_ on_replica recovered;
      io_ret FromSnapshot
  | RECOVER_UNSPECIFIED => io_fail RecUnknownType
  end.

(** [rpc shard since] is the leader's answer, or [None] when the leader cannot
    be reached or refuses. *)
Definition doIncrementalRecovery (rpc : string -> Z -> option RecoverResponse)
    : M (ReplicaState * World) recerr RecoveryKind :=
  do s <- io_get;
  let '(shard, since) := recovery_request (fst s) in
  match rpc shard since with
  | None => io_fail RecRequest
  | Some resp => recovery_apply resp
  end.

(** One tick of [runRecoveryLoop].  [leaderAddr] is what [getLeaderAddr]
    returns, [rpc] the network as seen from an address; the result is the type of
    recovery that succeeded, if one did. *)
Definition recovery_tick (leaderAddr : string) (rpc : string -> string -> Z -> option RecoverResponse)
    : M (ReplicaState * World) recerr (option RecoveryKind) :=
  do s <- io_get;
  let r := fst s in
  let hasBootstrap := bool_decide (rBootstrapShardID r <> "") in
  if rIsReady r then
    do_ on_replica (fun r => r <| rRecoveryState := RecoveryStateHealthy |> <| rRecoverySource := "" |>);
    io_ret None
  else
    let addr := if hasBootstrap && bool_decide (rBootstrapLeaderAddr r <> "") then rBootstrapLeaderAddr r
                else if decide (leaderAddr = "") then rBootstrapLeaderAddr r else leaderAddr in
    if decide (addr = "") then
      do_ on_replica (fun r => r <| rRecoveryState := RecoveryStateUnavailable |> <| rRecoverySource := "" |>);
      io_ret None
    else
      let source := if hasBootstrap then recoverySourceBootstrap (rBootstrapShardID r)
                    else recoverySourceLeader (rLeaderID r) in
      do_ on_replica (fun r => r <| rRecoveryState := RecoveryStateRecovering |> <| rRecoverySource := source |>);
      do res <- attempt (doIncrementalRecovery (rpc addr));
      match res with
      | Fail _ =>
          do_ on_replica (fun r => r <| rRecoveryState := RecoveryStateLagging |> <| rRecoverySource := source |>);
          io_ret None
      | Ok kind =>
          do_ on_replica (fun r => r <| rRecoveryCount ::= fun n => wrap_int64 (n + 1) |>);
          io_ret (Some kind)
      end.

(** ** Applying a run of entries *)

Lemma contig_check_gap b es version :
  contig b (entryFromProto <$> es) -> version = b -> b + Z.of_nat (length es) < two64 - 1 -> 0 <= b ->
  check_gap version (b + 1) es = Ok tt.
Proof.
  intros Hc ->. assert (Hge : forall b' es, b <= b' -> contig b' (entryFromProto <$> es) ->
    b' + Z.of_nat (length es) < two64 - 1 -> 0 <= b' -> check_gap b (b' + 1) es = Ok tt); [|intros; by apply Hge].
  clear. intros b' es. revert b'. induction es as [|e es IH]; intros b' Hb Hc Hmax H0; simpl in *; [done|].
  destruct Hc as [He Hc]. destruct (Z.leb_spec (leVersion e) b); [lia|]. rewrite He, Z.eqb_refl. simpl.
  rewrite u64_succ_lt by (unfold u64, two64 in *; lia). apply IH; [lia|done|lia|lia].
Qed.

(** Acknowledged, the loop leaves exactly the entries applied. *)
Lemma wp_apply_entries es b r W :
  contig b (entryFromProto <$> es) -> rVersion r = b -> b + Z.of_nat (length es) < two64 - 1 -> 0 <= b ->
  wp (apply_entries es) (fun o s' => o = Ret tt ->
    rVersion (fst s') = b + Z.of_nat (length es) /\
    rContents (fst s') = foldl kv_step (rContents r) (entryFromProto <$> es)) (r, W).
Proof.
  revert b r W. induction es as [|e es IH]; intros b r W Hc Hv Hmax H0.
  { apply wp_ret. intros _. simpl. split; [lia|done]. }
  cbn [apply_entries]. apply wp_bind, wp_get. cbn [fst]. destruct Hc as [He Hc].
  cbn [fmap list_fmap contig] in He. change (eVersion (entryFromProto e)) with (leVersion e) in He.
  destruct (Z.leb_spec (leVersion e) (rVersion r)); [lia|].
  apply wp_bind, wp_map_err. eapply wp_mono; [apply wp_on_sm_apply|]. cbn beta.
  intros o [r2 W2] (sm' & Hr2 & Hret & _). simpl in Hr2. subst r2.
  destruct o as [[]|x|]; [|done|done].
  destruct (Hret eq_refl) as (_ & _ & Hv' & _ & Hc' & _).
  change (eVersion (entryFromProto e)) with (leVersion e) in Hv'.
  assert (Hv2 : rVersion (r <| rSM := sm' |>) = b + 1) by (unfold rVersion; simpl; congruence).
  simpl in Hmax.
  eapply wp_mono; [apply (IH (b + 1) _ W2 Hc Hv2); lia|]. cbn beta. intros o s' Hs Ho.
  destruct (Hs Ho) as [Hv3 Hc3]. split; [simpl; lia|]. rewrite Hc3. cbn [fmap list_fmap foldl]. f_equal. exact Hc'.
Qed.

(** ** What the leader offers *)

Section convergence.
Context (order : gmap string string -> list (string * string)) (Horder : iterates order).

(** [recovery_offer base hist leader v resp]: the answer to a follower at
    version [v]. *)
Inductive recovery_offer (base : Z) (hist : list Entry) (leader : ReplicaState) (v : Z)
    : RecoverResponse -> Prop :=
| offer_entries :
    base <= v <= rVersion leader ->
    recovery_offer base hist leader v
      (mkRecoverResponse RECOVER_ENTRIES (rVersion leader)
         (entriesToProto (drop (Z.to_nat (v - base)) hist)) 0 [])
| offer_snapshot :
    recovery_offer base hist leader v
      (mkRecoverResponse RECOVER_SNAPSHOT (rVersion leader) [] (rTerm leader)
         (kvToProto order (rContents leader))).

Lemma Recover_offer base kv0 hist leader v resp :
  refines base kv0 hist (rSM leader) -> 0 <= base <= v \/ 0 <= v < base -> rVersion leader < two64 - 1 ->
  Recover order v leader = Ok resp -> recovery_offer base hist leader v resp.
Proof.
  intros (Hl & Hver & Hc) Hv Hmax. unfold Recover. case_decide; [done|]. simpl.
  fold (rVersion leader). fold (rTerm leader). fold (rContents leader).
  destruct (Z.ltb_spec (rVersion leader) v); [intros [= <-]; apply offer_snapshot|].
  destruct (Z.eqb_spec (rVersion leader) v) as [Heq|].
  - intros [= <-].
    assert (Hnil : entriesToProto (drop (Z.to_nat (v - base)) hist) = []).
    { rewrite drop_ge; [done|]. unfold rVersion in *. lia. }
    rewrite <- Hnil. apply offer_entries. unfold rVersion in *. lia.
  - unfold SM_EntriesSince. destruct (Log_Since (repLog (rSM leader)) v) as [es ok] eqn:Hs.
    rewrite orb_false_r. destruct ok, (Z.ltb_spec 0 (Z.of_nat (length es))); simpl; intros [= <-];
      try apply offer_snapshot.
    assert (Hne : entries (repLog (rSM leader)) <> []).
    { intros Hnil. unfold Log_Since in Hs. rewrite Hnil in Hs. by simplify_eq. }
    pose proof (Log_Since_complete base hist (repLog (rSM leader)) v Hl) as Hcomp.
    rewrite Hs in Hcomp. specialize (Hcomp ltac:(unfold u64; lia) ltac:(lia) Hne).
    pose proof (lo_contig _ _ _ Hl) as Hcon. assert (Hb : base <= v).
    { unfold Log_Since in Hs. pose proof (log_of_contig _ _ _ Hl) as Hc'.
      destruct (entries (repLog (rSM leader))) as [|e0 es0] eqn:He; [done|]. destruct Hc' as [He0 _].
      rewrite u64_succ_lt in Hs by (unfold u64; lia).
      destruct (Z.ltb_spec (v + 1) (eVersion e0)); [done|].
      destruct (lo_suffix _ _ _ Hl) as [pre Hpre]. rewrite He in Hpre.
      rewrite Hpre, length_app in He0. lia. }
    rewrite Hcomp, (contig_filter_drop base) by done. apply offer_entries. lia.
Qed.

Lemma wp_recovery_apply base kv0 hist leader r W resp :
  refines base kv0 hist (rSM leader) -> Forall wire_entry hist ->
  0 <= base -> rVersion leader < two64 - 1 ->
  (base <= rVersion r <= rVersion leader ->
     rContents r = foldl kv_step kv0 (take (Z.to_nat (rVersion r - base)) hist)) ->
  recovery_offer base hist leader (rVersion r) resp ->
  wp (recovery_apply resp) (fun o s' => forall k, o = Ret k ->
    rVersion (fst s') = rVersion leader /\ rContents (fst s') = rContents leader /\
    rIsReady (fst s') = true) (r, W).
Proof using Horder.
  intros (Hl & Hver & Hc) Hwire Hb Hmax Hprefix [Hrange|]; unfold recovery_apply; cbn [rvType rvEntries].
  - set (missing := drop (Z.to_nat (rVersion r - base)) hist).
    assert (Hback : entryFromProto <$> entriesToProto missing = missing)
      by (apply entryFromProto_toProto, Forall_drop, Hwire).
    assert (Hlen : rVersion r + Z.of_nat (length (entriesToProto missing)) = rVersion leader).
    { unfold entriesToProto, missing. rewrite length_fmap, length_drop. unfold rVersion in *. lia. }
    assert (Hcon : contig (rVersion r) missing).
    { pose proof (lo_contig _ _ _ Hl) as Hcon. unfold missing.
      rewrite <- (take_drop (Z.to_nat (rVersion r - base)) hist) in Hcon.
      apply contig_app in Hcon as [_ Hcon]. rewrite length_take in Hcon. unfold rVersion in *.
      replace (base + _) with (smVersion (rSM r)) in Hcon by lia. done. }
    apply wp_bind, wp_get. cbn [fst]. rewrite u64_succ_lt by (unfold u64; lia).
    rewrite (contig_check_gap (rVersion r)) by (rewrite ?Hback; done || lia). simpl.
    apply wp_bind, wp_ret, wp_bind.
    eapply wp_mono; [apply (wp_apply_entries _ (rVersion r)); rewrite ?Hback; done || lia|]. cbn beta.
    intros [[]|e|] s' Hs; [|done|done]. destruct (Hs eq_refl) as [Hv' Hc'].
    apply wp_bind, wp_modify, wp_ret. intros k _. cbn [fst snd]. split_and!; [|..|done].
    + unfold recovered, rVersion in *. simpl. lia.
    + change (rContents (recovered (fst s'))) with (rContents (fst s')).
      rewrite Hc', Hback, (Hprefix Hrange), <- foldl_app. unfold missing. rewrite take_drop. by rewrite <- Hc.
  - apply wp_bind, wp_map_err, wp_zoom. cbn [fst snd rvTerm rvVersion rvKv].
    rewrite kv_proto_roundtrip by done.
    eapply wp_mono; [apply wp_SM_ApplySnapshot|]. cbn beta. intros o [sm' W'] (Hv' & _ & Hc' & _).
    destruct o as [[]|e|]; [|done|done]. apply wp_bind, wp_modify, wp_ret. by intros k _.
Qed.

(** C11: A recovery attempt that succeeds leaves the follower ready, with exactly
    the version and contents of the leader, whether the leader's log covered the
    gap or it sent a snapshot, and also when the follower was ahead of the leader
    and is rolled back.  A follower that is not ahead must hold a prefix of the
    leader's writes. *)
Theorem recovery_converges base kv0 hist leader r W k r' W' :
  refines base kv0 hist (rSM leader) -> Forall wire_entry hist ->
  0 <= base -> rVersion leader < two64 - 1 -> 0 <= rVersion r ->
  rBootstrapShardID r = "" ->
  (base <= rVersion r <= rVersion leader ->
     rContents r = foldl kv_step kv0 (take (Z.to_nat (rVersion r - base)) hist)) ->
  doIncrementalRecovery (fun _ v => match Recover order v leader with Ok resp => Some resp | Fail _ => None end)
    (r, W) = (Ret k, (r', W')) ->
  rVersion r' = rVersion leader /\ rContents r' = rContents leader /\ rIsReady r' = true.
Proof.
  intros Href Hwire Hb Hmax Hv Hboot Hprefix. unfold doIncrementalRecovery, io_bind, io_get, recovery_request. simpl.
  rewrite decide_False by naive_solver.
  destruct (Recover order (rVersion r) leader) as [resp|] eqn:Hrec; [|done].
  apply (Recover_offer base kv0 hist) in Hrec; [|done|lia|done].
  intros Heq. exact (wp_use _ _ _ _ _ (wp_recovery_apply _ _ _ _ r W _ Href Hwire Hb Hmax Hprefix Hrec) Heq k eq_refl).
Qed.
End convergence.

(** C38: Entries of an older term than the follower has already adopted are
    refused: a follower that has heard a heartbeat of the new term cannot take
    the missing entries written in an earlier one, the attempt fails and leaves
    it as it was, and every later attempt with the same entries fails the same
    way. *)
Theorem recovery_refuses_older_term e es v r W :
  leVersion e = rVersion r + 1 -> 0 <= rVersion r < two64 - 1 -> leTerm e < rTerm r ->
  check_gap (rVersion r) (rVersion r + 1) (e :: es) = Ok tt ->
  recovery_apply (mkRecoverResponse RECOVER_ENTRIES v (e :: es) 0 []) (r, W) =
    (Err (RecApply (SmStaleTerm (rTerm r) (leTerm e))), (r, W)).
Proof.
  intros He Hv Ht Hgap. unfold recovery_apply, io_bind, io_get. cbn [rvType rvEntries fst].
  rewrite u64_succ_lt by (unfold u64; lia). rewrite Hgap. simpl of_result. unfold io_ret.
  cbn [apply_entries]. unfold io_bind, io_get. cbn [fst].
  destruct (Z.leb_spec (leVersion e) (rVersion r)); [lia|].
  unfold io_map_err, on_sm, zoom, SM_Apply, io_bind, io_get. cbn [fst snd].
  fold (rVersion r). fold (rTerm r).
  change (eVersion (entryFromProto e)) with (leVersion e).
  change (eTerm (entryFromProto e)) with (leTerm e).
  rewrite u64_succ_lt, He, Z.eqb_refl by (unfold u64; lia). simpl.
  destruct (Z.ltb_spec (leTerm e) (rTerm r)); [|lia]. simpl. by destruct r.
Qed.

(** ** Concrete recoveries *)

Definition leader1 : ReplicaState :=
  NewReplicaState "s" "n1" ["n2"] 2 0
    <| rRole := RoleLeader |>
    <| rSM := mkSM (mkStore {["b" := "2"]}) (mkLog (drop 1 three_entries) 2) 1 3 None |>.

Definition follower1 : ReplicaState :=
  NewReplicaState "s" "n2" ["n1"] 2 0
    <| rSM := mkSM (mkStore {["a" := "1"]}) (Log_New 2) 1 1 None |>.

Definition network1 (_ : string) (v : Z) : option RecoverResponse :=
  match Recover map_to_list v leader1 with Ok resp => Some resp | Fail _ => None end.

Lemma leader1_refines : refines 0 ∅ three_entries (rSM leader1).
Proof.
  split_and!; [|done|by vm_compute]. split; simpl; [done|by vm_compute| |done].
  by exists (take 1 three_entries).
Qed.

Lemma recovery_converges_witness :
  let '(o, (r', _)) := doIncrementalRecovery network1 (follower1, healthy ∅) in
  o = Ret Incremental /\
  (rVersion r' = 3 /\ rContents r' = {["b" := "2"]} /\ rIsReady r' = true).
Proof.
  destruct (doIncrementalRecovery network1 (follower1, healthy ∅)) as [o [r' W']] eqn:Heq.
  assert (Ho : o = Ret Incremental) by (apply (f_equal fst) in Heq; vm_compute in Heq; by subst o).
  split; [done|]. subst o.
  destruct (recovery_converges map_to_list (fun m => Permutation_refl _) 0 ∅ three_entries leader1
              follower1 (healthy ∅) Incremental r' W') as (Hv & Hc & Hr).
  - exact leader1_refines.
  - repeat apply Forall_cons_2; [by left|by left|by right|apply Forall_nil_2].
  - done.
  - done.
  - done.
  - done.
  - intros _. by vm_compute.
  - exact Heq.
  - split_and!; [exact Hv|rewrite Hc; by vm_compute|exact Hr].
Defined.

Lemma recovery_refuses_older_term_witness :
  let r := set_term 5 follower1 in
  recovery_apply (mkRecoverResponse RECOVER_ENTRIES 3 (entriesToProto (drop 1 three_entries)) 0 []) (r, healthy ∅) =
    (Err (RecApply (SmStaleTerm 5 1)), (r, healthy ∅)).
Proof.
  intros r. apply (recovery_refuses_older_term
    (mkLogEntry 1 2 (Some (opToProto "put" "b" "2")))
    (entriesToProto [mkEntry 1 3 "delete" "a" ""]) 3 r (healthy ∅)); by vm_compute.
Defined.
