(* ===== verification/Election.v ===== *)
(** Leader election among the replicas of a shard, src/node/election.go.

    [startElection] releases the replica's lock while it waits for votes, so it
    is three steps here: [startElection_begin], the count of the replies
    ([tally]), and [startElection_end], with other handlers running in between.
    The second half of the file puts the replicas of one shard and the messages
    between them into one transition system and shows that no term has two
    winners. *)

From stdpp Require Import relations.
From S2P Require Import Prelude Fs Storage ReplicationLog StateMachine Config Replica Wire Handlers Recovery.

(** ** Timeouts *)

(** [draw] is the result of [rand.Int63n(spread)]. *)
Definition electionTimeout (cfg : NodeConfig) (draw : Z) : Z :=
  let min := ncElectionTimeoutMin cfg in
  let max := ncElectionTimeoutMax cfg in
  if (min <=? 0) || (max <=? min) then 0 else min + draw.

Inductive tick := TickIdle | TickSeed | TickElection.

(** One poll of [runElectionTimer]. *)
Definition election_tick (now : Z) (r : ReplicaState) : tick * ReplicaState :=
  if decide (rRole r = RoleLeader) then (TickIdle, r)
  else if time_IsZero (rLastLeaderContact r) then (TickSeed, r <| rLastLeaderContact := now |>)
  else if time_Sub now (rLastLeaderContact r) <? rElectionTimeout r then (TickIdle, r)
  else (TickElection, r).

(** ** One election *)

Definition startElection_begin (now : Z) (r : ReplicaState) : option (VoteRequest * ReplicaState) :=
  if decide (rRole r = RoleLeader) then None
  else
    let term := u64_succ (rTerm r) in
    Some (mkVoteRequest term (rNodeID r) (rVersion r) (rShardID r),
          set_term term r <| rVotedFor := rNodeID r |> <| rVotedForTerm := term |>
            <| rLastLeaderContact := now |>).

Inductive tally_result := TallyHigher (term : Z) | TallyVotes (votes : Z).

(** The replies in the order they arrive: granted, and the peer's term (no
    grant and term 0 when the call fails). *)
Fixpoint tally (candidateTerm votes : Z) (replies : list (bool * Z)) : tally_result :=
  match replies with
  | [] => TallyVotes votes
  | (granted, term) :: rest =>
      if candidateTerm <? term then TallyHigher term
      else tally candidateTerm (if granted then votes + 1 else votes) rest
  end.

Definition quorum_size (peers : list string) : Z := (Z.of_nat (length peers) + 1) / 2 + 1.

Inductive election_result := ElectionAborted | ElectionLost | ElectionWon.

(** [peers] is the peer list read at the beginning. *)
Definition startElection_end (now candidateTerm : Z) (peers : list string) (t : tally_result)
    (r : ReplicaState) : election_result * ReplicaState :=
  match t with
  | TallyHigher term =>
      (ElectionAborted,
       (if rTerm r <? term then set_term term r else r) <| rRole := RoleFollower |>)
  | TallyVotes votes =>
      if decide (rTerm r <> candidateTerm \/ rRole r = RoleLeader) then (ElectionAborted, r)
      else if votes <? quorum_size peers
      then (ElectionLost, r <| rElectionCount ::= fun n => wrap_int64 (n + 1) |>)
      else (ElectionWon,
            r <| rRole := RoleLeader |> <| rLeaderID := rNodeID r |> <| rIsReady := true |>
              <| rLastLeaderContact := now |> <| rElectionCount ::= fun n => wrap_int64 (n + 1) |>)
  end.

(** The coordinator's answer to one [NotifyLeader] attempt; [NotifyFailed] is a
    failed dial or call, [NotifyCancelled] a cancelled context during back-off. *)
Inductive notify_reply := NotifyAccepted | NotifyRejected | NotifyFailed | NotifyCancelled.

Fixpoint notify_attempts (n : nat) (replies : list notify_reply) : bool :=
  match n, replies with
  | S n', NotifyAccepted :: _ => true
  | S n', NotifyRejected :: _ => false
  | S n', NotifyFailed :: rest => notify_attempts n' rest
  | S n', NotifyCancelled :: _ => false
  | _, _ => false
  end.

(** Whether the coordinator has accepted the new leader; at most four attempts. *)
Definition notifyCoordinatorElection (replies : list notify_reply) : bool := notify_attempts 4 replies.

(** ** Leader heartbeats *)

(** The request a leader sends on a tick; followers send nothing. *)
Definition heartbeat_request (r : ReplicaState) : option LeaderHeartbeatRequest :=
  if decide (rRole r = RoleLeader)
  then Some (mkHeartbeatRequest (rTerm r) (rVersion r) (rNodeID r) (rShardID r)) else None.

(** What the leader does with a peer's reply; [sent] is the term of the request
    and [peerTerm] is 0 when the call failed. *)
Definition heartbeat_reply (now sent : Z) (peerID : string) (peerTerm : Z) (r : ReplicaState) : ReplicaState :=
  if peerTerm =? 0 then r
  else if sent <? peerTerm then
    let r := if rTerm r <? peerTerm then set_term peerTerm r else r in
    if decide (rRole r = RoleLeader) then r <| rRole := RoleFollower |> else r
  else r <| rPeerLastContact ::= <[peerID := now]> |>.

(** A drawn timeout lies in the configured range, or elections are off:
    with [draw] below the spread, as [Int63n] promises. *)
Lemma electionTimeout_range cfg draw :
  0 <= draw < ncElectionTimeoutMax cfg - ncElectionTimeoutMin cfg ->
  0 < ncElectionTimeoutMin cfg ->
  ncElectionTimeoutMin cfg <= electionTimeout cfg draw < ncElectionTimeoutMax cfg.
Proof. intros Hd Hm. unfold electionTimeout. zify_bool. Qed.

Definition cfg1 : NodeConfig := Node_applyDefaults node_config1.

Lemma electionTimeout_defaults :
  300 * millisecond <= electionTimeout cfg1 123456 < 600 * millisecond.
Proof. apply (electionTimeout_range cfg1 123456); by vm_compute. Qed.

(** ** The replicas of one shard

    [grants] records every vote ever given (voter, candidate, term), self votes
    included; [asked] the vote requests on the network, which may be lost,
    delayed or delivered again; [winners] the elections won. *)

Record Sys := mkSys {
  nodes : gmap string ReplicaState;
  asked : list VoteRequest;
  grants : gset (string * string * Z);
  winners : gset (string * Z);
}.

(** A replica that keeps its votes, its identity and its peers, and does not go
    back in term. *)
Definition vote_frame (r r' : ReplicaState) : Prop :=
  rTerm r <= rTerm r' /\ rVotedFor r' = rVotedFor r /\ rVotedForTerm r' = rVotedForTerm r /\
  rNodeID r' = rNodeID r /\ rPeers r' = rPeers r.

(** A candidate's view of the replies: at most one per peer, and a granted one
    is a vote that peer gave. *)
Definition genuine (g : gset (string * string * Z)) (cand : string) (term : Z) (peers : list string)
    (replies : list (string * (bool * Z))) : Prop :=
  NoDup replies.*1 /\
  Forall (fun p => p.1 ∈ peers /\ (p.2.1 = true -> (p.1, cand, term) ∈ g)) replies.

Inductive step : Sys -> Sys -> Prop :=
| step_begin s n r now req r' :
    nodes s !! n = Some r -> rTerm r < two64 - 1 -> startElection_begin now r = Some (req, r') ->
    step s (mkSys (<[n := r']> (nodes s)) (req :: asked s)
              ({[(n, n, vqTerm req)]} ∪ grants s) (winners s))
| step_vote s n r now req resp r' :
    nodes s !! n = Some r -> req ∈ asked s -> RequestVote now req r = (resp, r') ->
    step s (mkSys (<[n := r']> (nodes s)) (asked s)
              (if vsVoteGranted resp then {[(n, vqCandidateId req, vqTerm req)]} ∪ grants s else grants s)
              (winners s))
| step_end s n r now term replies res r' :
    nodes s !! n = Some r -> (n, n, term) ∈ grants s ->
    genuine (grants s) n term (rPeers r) replies ->
    startElection_end now term (rPeers r) (tally term 1 replies.*2) r = (res, r') ->
    step s (mkSys (<[n := r']> (nodes s)) (asked s) (grants s)
              (match res with ElectionWon => {[(n, term)]} ∪ winners s | _ => winners s end))
| step_local s n r r' :
    nodes s !! n = Some r -> vote_frame r r' ->
    step s (mkSys (<[n := r']> (nodes s)) (asked s) (grants s) (winners s)).

(** The shard's membership: every replica lists all the others, once. *)
Definition membership (ns : gmap string ReplicaState) : Prop :=
  ("" ∉ dom ns) /\
  map_Forall (fun n r => rNodeID r = n /\ 0 <= rTerm r /\ NoDup (rPeers r) /\
                list_to_set (rPeers r) = dom ns ∖ {[n]}) ns.

Definition initial (s : Sys) : Prop :=
  membership (nodes s) /\ asked s = [] /\ grants s = ∅ /\ winners s = ∅.

(** *** Handlers that only move forward *)

Lemma vote_frame_refl r : vote_frame r r.
Proof. by split_and!. Qed.

Lemma LeaderHeartbeat_frame now req r : vote_frame r (LeaderHeartbeat now req r).2.
Proof.
  unfold LeaderHeartbeat. destruct (Z.ltb_spec (hqTerm req) (rTerm r)); [apply vote_frame_refl|].
  unfold adopt_term. destruct (Z.ltb_spec (rTerm r) (hqTerm req)); split_and!; simpl; try done;
    unfold rTerm in *; simpl; lia.
Qed.

Lemma heartbeat_reply_frame now sent p t r : vote_frame r (heartbeat_reply now sent p t r).
Proof.
  unfold heartbeat_reply. destruct (t =? 0); [apply vote_frame_refl|].
  destruct (sent <? t); [|by split_and!].
  destruct (Z.ltb_spec (rTerm r) t); case_decide; split_and!; simpl; try done; unfold rTerm in *; simpl; lia.
Qed.

Lemma ForceRecover_frame now r : vote_frame r (ForceRecover now r).
Proof. by split_and!. Qed.

Lemma Replicate_frame now req r W : vote_frame r (fst (Replicate now req (r, W)).2).
Proof.
  enough (Hwp : wp (Replicate now req) (fun _ s' => vote_frame r (fst s')) (r, W)).
  { unfold wp in Hwp. by destruct (Replicate now req (r, W)). }
  unfold Replicate. apply wp_bind, wp_get. cbn [fst].
  destruct (Z.ltb_spec (rqTerm req) (rTerm r)); [by apply wp_ret|].
  apply wp_bind, wp_modify, wp_bind, wp_get. cbn [fst snd].
  pose proof (adopt_term_max (rqTerm req) r) as Ht. rewrite Z.max_r in Ht by done.
  assert (Hf : vote_frame r (adopt_term (rqTerm req) r)).
  { unfold vote_frame. rewrite Ht. unfold adopt_term. by destruct (_ <? _). }
  set (r1 := adopt_term (rqTerm req) r) in *.
  destruct (rqVersion req <=? rVersion r1); [by apply wp_ret|].
  destruct (negb _); [by apply wp_bind, wp_modify, wp_ret|].
  apply wp_bind, wp_map_err. eapply wp_mono; [apply wp_on_sm_apply|]. cbn beta.
  intros o [r2 W2] (sm' & Hr2 & Hret & Herr). simpl in Hr2. subst r2.
  assert (Hsm : vote_frame r (r1 <| rSM := sm' |>)).
  { destruct Hf as (? & ? & ? & ? & ?). split_and!; simpl; try done.
    unfold rTerm in *. simpl. destruct o as [[]|x|].
    - destruct (Hret eq_refl) as ([_ ?] & _ & (_ & -> & _)). lia.
    - destruct (Herr ltac:(done)) as (_ & -> & _). lia.
    - destruct (Herr ltac:(done)) as (_ & -> & _). lia. }
  destruct o as [[]|x|]; [by apply wp_bind, wp_modify, wp_ret|done|done].
Qed.

(** *** The invariant *)

(** A vote is remembered for as long as it matters: the voter's term has moved
    on, or its record still names the candidate. *)
Definition remembers (ns : gmap string ReplicaState) (v c : string) (t : Z) : Prop :=
  exists r, ns !! v = Some r /\ c <> "" /\
    (t < rTerm r \/ t = rTerm r /\ rVotedForTerm r = t /\ rVotedFor r = c).

(** A winner holds a quorum of votes. *)
Definition elected (ns : gmap string ReplicaState) (g : gset (string * string * Z)) (n : string) (t : Z) : Prop :=
  exists voters : gset string, voters ⊆ dom ns /\
    Z.of_nat (size (dom ns)) < 2 * Z.of_nat (size voters) /\
    forall v, v ∈ voters -> (v, n, t) ∈ g.

Record inv (s : Sys) : Prop := {
  inv_members : membership (nodes s);
  inv_asked : Forall (fun req => vqCandidateId req <> "") (asked s);
  inv_memory : forall v c t, (v, c, t) ∈ grants s -> remembers (nodes s) v c t;
  inv_once : forall v c c' t, (v, c, t) ∈ grants s -> (v, c', t) ∈ grants s -> c = c';
  inv_winners : forall n t, (n, t) ∈ winners s -> elected (nodes s) (grants s) n t;
}.

(** Replacing one replica by one with the same identity keeps the membership. *)
Lemma membership_update ns n r r' :
  membership ns -> ns !! n = Some r -> rTerm r <= rTerm r' ->
  rNodeID r' = rNodeID r -> rPeers r' = rPeers r ->
  membership (<[n := r']> ns) /\ dom (<[n := r']> ns) = dom ns.
Proof.
  intros [Hne Hm] Hn Ht Hid Hp.
  assert (Hdom : dom (<[n := r']> ns) = dom ns) by (apply dom_insert_lookup_L; eauto).
  split; [|done]. split; [by rewrite Hdom|]. intros k x. rewrite lookup_insert_Some, Hdom.
  intros [[<- <-]|[Hk Hx]]; [|by apply Hm].
  destruct (Hm _ _ Hn) as (? & ? & ? & ?). rewrite Hid, Hp. split_and!; try done. lia.
Qed.

(** How a replica may change without forgetting a vote that still counts. *)
Definition keeps_votes (r r' : ReplicaState) : Prop :=
  rTerm r <= rTerm r' /\ rNodeID r' = rNodeID r /\ rPeers r' = rPeers r /\
  (rTerm r' = rTerm r -> rVotedFor r <> "" -> rVotedForTerm r = rTerm r ->
     rVotedFor r' = rVotedFor r /\ rVotedForTerm r' = rVotedForTerm r).

Lemma remembers_update ns n r r' v c t :
  ns !! n = Some r -> keeps_votes r r' -> remembers ns v c t -> remembers (<[n := r']> ns) v c t.
Proof.
  intros Hn (Ht & _ & _ & Hk) (x & Hx & Hc & Hmem). destruct (decide (v = n)) as [->|Hv].
  - simplify_eq. exists r'. rewrite lookup_insert_eq. split_and!; [done|done|].
    destruct Hmem as [?|(-> & Hvt & Hvf)]; [left; lia|].
    destruct (decide (rTerm r' = rTerm r)) as [Heq|]; [right|left; lia].
    destruct (Hk Heq) as [-> ->]; naive_solver.
  - exists x. by rewrite lookup_insert_ne by done.
Qed.

Lemma elected_mono ns n r r' g g' m t :
  ns !! n = Some r -> g ⊆ g' -> elected ns g m t -> elected (<[n := r']> ns) g' m t.
Proof.
  intros Hn Hg (V & Hsub & Hsize & HV). exists V.
  rewrite (dom_insert_lookup_L ns n r') by eauto. set_solver.
Qed.

(** A step of one replica that gives no vote. *)
Lemma inv_update s n r r' won :
  inv s -> nodes s !! n = Some r -> keeps_votes r r' ->
  (forall m t, (m, t) ∈ won -> (m, t) ∈ winners s \/ elected (nodes s) (grants s) m t) ->
  inv (mkSys (<[n := r']> (nodes s)) (asked s) (grants s) won).
Proof.
  intros [Hm Ha Hmem Honce Hw] Hn Hk Hwon. destruct Hk as (Ht & Hid & Hp & Hv) eqn:HkE.
  destruct (membership_update _ _ _ r' Hm Hn Ht Hid Hp) as [Hm' _]. split; simpl; try done.
  - intros v c t Hg. by eapply remembers_update, Hmem.
  - intros m t Hin. apply (elected_mono _ _ r _ (grants s)); [done..|].
    destruct (Hwon m t Hin); auto.
Qed.

(** A step of one replica that gives the vote [(n, c, t)]. *)
Lemma inv_vote s n r r' c t asked' :
  inv s -> nodes s !! n = Some r -> keeps_votes r r' -> c <> "" ->
  rTerm r' = t -> rVotedForTerm r' = t -> rVotedFor r' = c ->
  (rTerm r = t -> rVotedForTerm r = t -> rVotedFor r <> "" -> rVotedFor r = c) ->
  Forall (fun req => vqCandidateId req <> "") asked' ->
  inv (mkSys (<[n := r']> (nodes s)) asked' ({[(n, c, t)]} ∪ grants s) (winners s)).
Proof.
  intros [Hm Ha Hmem Honce Hw] Hn Hk Hc Ht1 Ht2 Hf Hsame Hasked.
  destruct Hk as (Ht & Hid & Hp & Hv) eqn:HkE.
  destruct (membership_update _ _ _ r' Hm Hn Ht Hid Hp) as [Hm' _].
  assert (Hnew : forall c', (n, c', t) ∈ grants s -> c' = c).
  { intros c' Hg. destruct (Hmem _ _ _ Hg) as (x & Hx & Hc' & Hx'). simplify_eq.
    destruct Hx' as [?|(? & ? & <-)]; [lia|]. by apply Hsame. }
  split; simpl; try done.
  - intros v c' t' [Heq|Hg]%elem_of_union.
    + apply elem_of_singleton in Heq as [= -> -> ->]. exists r'. rewrite lookup_insert_eq.
      split_and!; [done|done|right; by split_and!].
    + by eapply remembers_update, Hmem.
  - intros v c1 c2 t' [H1|H1]%elem_of_union [H2|H2]%elem_of_union;
      rewrite ?elem_of_singleton in *; simplify_eq; eauto. symmetry. eauto.
  - intros m t' Hin. apply (elected_mono _ _ r _ (grants s)); [done|set_solver|auto].
Qed.

(** *** Preservation *)

Lemma tally_votes term votes replies n :
  tally term votes replies = TallyVotes n ->
  n = votes + Z.of_nat (length (filter (fun p => p.1 = true) replies)).
Proof.
  revert votes. induction replies as [|[[] t] replies IH]; intros votes; cbn [tally].
  - intros [= ->]. simpl. lia.
  - destruct (term <? t); [done|]. intros ->%IH. rewrite filter_cons_True by done. simpl. lia.
  - destruct (term <? t); [done|]. intros ->%IH. by rewrite filter_cons_False by done.
Qed.

(** The voters behind a winning tally. *)
Lemma winning_tally s n r term replies votes :
  inv s -> nodes s !! n = Some r -> (n, n, term) ∈ grants s ->
  genuine (grants s) n term (rPeers r) replies ->
  tally term 1 replies.*2 = TallyVotes votes -> quorum_size (rPeers r) <= votes ->
  elected (nodes s) (grants s) n term.
Proof.
  intros Hinv Hn Hself [Hnd Hgen] Hvotes Hquorum.
  destruct (inv_members _ Hinv) as [_ Hm]. destruct (Hm _ _ Hn) as (_ & _ & Hndp & Hpeers).
  set (yes := filter (fun p => p.2.1 = true) replies).
  assert (Hyes : forall p, p ∈ yes -> p.1 ∈ rPeers r /\ (p.1, n, term) ∈ grants s).
  { intros p [Hp Hin]%list_elem_of_filter. rewrite Forall_forall in Hgen. destruct (Hgen _ Hin). auto. }
  assert (Hlen : votes = 1 + Z.of_nat (length yes)).
  { apply tally_votes in Hvotes. rewrite Hvotes. unfold yes. do 2 f_equal.
    clear. induction replies as [|[p [b t]] replies IH]; [done|]. cbn [fmap list_fmap snd].
    destruct b; [rewrite !filter_cons_True by done; simpl; by rewrite IH|by rewrite !filter_cons_False by done]. }
  assert (HndY : NoDup yes.*1) by (eapply sublist_NoDup; [exact Hnd|]; apply fmap_sublist, sublist_filter).
  assert (HnY : n ∉ (list_to_set yes.*1 : gset string)).
  { rewrite elem_of_list_to_set, list_elem_of_fmap. intros (p & -> & Hp).
    destruct (Hyes _ Hp) as [Hin _]. assert (p.1 ∈ (list_to_set (rPeers r) : gset string)) by set_solver.
    rewrite Hpeers in *. set_solver. }
  exists ({[n]} ∪ list_to_set yes.*1). split_and!.
  - intros v [->%elem_of_singleton|Hv]%elem_of_union; [by apply elem_of_dom_2 in Hn|].
    apply elem_of_list_to_set, list_elem_of_fmap in Hv as (p & -> & Hp). destruct (Hyes _ Hp) as [Hin _].
    assert (p.1 ∈ (list_to_set (rPeers r) : gset string)) by set_solver. rewrite Hpeers in *. set_solver.
  - rewrite size_union, size_singleton, size_list_to_set, length_fmap by set_solver.
    assert (Hdom : size (dom (nodes s)) = S (length (rPeers r))).
    { rewrite <- (size_list_to_set (C := gset string) (rPeers r)), Hpeers by done.
      rewrite size_difference, size_singleton by (apply elem_of_dom_2 in Hn; set_solver).
      assert (size (dom (nodes s)) <> 0%nat); [|lia].
      apply size_non_empty_iff. apply elem_of_dom_2 in Hn. set_solver. }
    rewrite Hdom. unfold quorum_size in Hquorum.
    pose proof (Z.div_mod (Z.of_nat (length (rPeers r)) + 1) 2). pose proof (Z.mod_pos_bound (Z.of_nat (length (rPeers r)) + 1) 2).
    lia.
  - intros v [->%elem_of_singleton|Hv]%elem_of_union; [done|].
    apply elem_of_list_to_set, list_elem_of_fmap in Hv as (p & -> & Hp). by destruct (Hyes _ Hp).
Qed.

Lemma startElection_begin_keeps now r req r' :
  0 <= rTerm r < two64 - 1 -> startElection_begin now r = Some (req, r') ->
  keeps_votes r r' /\ vqTerm req = rTerm r + 1 /\ rTerm r' = rTerm r + 1 /\
  rVotedFor r' = rNodeID r /\ rVotedForTerm r' = rTerm r + 1 /\ vqCandidateId req = rNodeID r.
Proof.
  intros Hmax. unfold startElection_begin. case_decide; [done|]. intros [= <- <-].
  rewrite u64_succ_lt by (unfold u64; lia). unfold keeps_votes, rTerm. simpl. split_and!; (lia || done).
Qed.

Lemma RequestVote_keeps now req r resp r' :
  RequestVote now req r = (resp, r') ->
  keeps_votes r r' /\
  (vsVoteGranted resp = true ->
     rTerm r' = vqTerm req /\ rVotedForTerm r' = vqTerm req /\ rVotedFor r' = vqCandidateId req /\
     (rTerm r = vqTerm req -> rVotedForTerm r = vqTerm req -> rVotedFor r <> "" ->
      rVotedFor r = vqCandidateId req)).
Proof.
  unfold RequestVote, keeps_votes. destruct (Z.ltb_spec (vqTerm req) (rTerm r)).
  { intros [= <- <-]. done. }
  destruct (Z.ltb_spec (rTerm r) (vqTerm req)).
  - case_decide; [intros [= <- <-]|case_match; intros [= <- <-]]; unfold rTerm in *; simpl;
      (split; [split_and!; (lia || done)|]); [done|done|]. intros _. split_and!; try done. lia.
  - case_decide as Hvoted; [intros [= <- <-]; done|].
    case_match; intros [= <- <-]; [done|]. unfold rTerm in *. simpl.
    assert (Heq : vqTerm req = smTerm (rSM r)) by lia. rewrite Heq in *.
    split.
    + split_and!; try done. intros _ Hne Hvt. split; [|done].
      destruct (decide (vqCandidateId req = rVotedFor r)); [done|]. naive_solver.
    + intros _. split_and!; try done. intros _ Hvt Hne.
      destruct (decide (rVotedFor r = vqCandidateId req)); [done|]. naive_solver.
Qed.

Lemma startElection_end_keeps now term peers t r res r' :
  startElection_end now term peers t r = (res, r') -> keeps_votes r r'.
Proof.
  unfold startElection_end, keeps_votes. destruct t as [h|votes].
  - intros [= <- <-]. destruct (Z.ltb_spec (rTerm r) h); unfold rTerm in *; simpl; split_and!; (lia || done).
  - case_decide; [by intros [= <- <-]|]. case_match; by intros [= <- <-].
Qed.

Lemma inv_step s s' : inv s -> step s s' -> inv s'.
Proof.
  intros Hinv Hstep. pose proof (inv_members _ Hinv) as [Hempty Hm].
  assert (Hname : forall n, is_Some (nodes s !! n) -> n <> "").
  { intros n Hn ->. by apply Hempty, elem_of_dom. }
  destruct Hstep as [s n r now req r' Hn Hmax Hb|s n r now req resp r' Hn Hreq Hv
                    |s n r now term replies res r' Hn Hself Hgen He|s n r r' Hn Hf].
  - destruct (Hm _ _ Hn) as (Hid & Ht & _).
    destruct (startElection_begin_keeps _ _ _ _ (conj Ht Hmax) Hb) as (Hk & Hq & Ht' & Hvf & Hvt & Hc).
    rewrite Hid in Hvf, Hc. rewrite Hq.
    eapply inv_vote; try done; [eauto|lia|].
    constructor; [rewrite Hc; eauto|apply Hinv].
  - apply RequestVote_keeps in Hv as [Hk Hg].
    destruct (vsVoteGranted resp).
    + destruct (Hg eq_refl) as (Ht & Hvt & Hvf & Hsame). eapply inv_vote; try done; [|apply Hinv].
      pose proof (inv_asked _ Hinv) as Ha. rewrite Forall_forall in Ha. by apply Ha.
    + eapply inv_update; eauto.
  - pose proof (startElection_end_keeps _ _ _ _ _ _ _ He) as Hk.
    eapply inv_update; [done..|]. intros m t. destruct res; [auto|auto|].
    rewrite elem_of_union, elem_of_singleton. intros [[= -> ->]|]; [right|by left].
    unfold startElection_end in He. destruct (tally term 1 replies.*2) as [|votes] eqn:Htally; [done|].
    case_decide; [done|]. destruct (Z.ltb_spec votes (quorum_size (rPeers r))); [done|].
    by eapply winning_tally.
  - eapply inv_update; [done..| |auto]. destruct Hf as (? & ? & ? & ? & ?). by split_and!.
Qed.

(** C2: No term has two winners: in every execution of the election protocol over
    a fixed set of replicas, with any number of candidates, lost, delayed and
    repeated vote requests, and heartbeats, replication and forced recovery in
    between, two elections won in the same term were won by the same node.
    ([step_local] admits every handler that does not lower the term.  Installing
    a snapshot of a lower term is not one of them, and neither is a restart,
    which forgets term and vote: with either a replica votes twice,
    [snapshot_allows_second_vote] below and [restart_elects_two_leaders] in
    [Group.v].) *)
Theorem election_safety s0 s n n' t :
  initial s0 -> rtc step s0 s -> (n, t) ∈ winners s -> (n', t) ∈ winners s -> n = n'.
Proof.
  intros (Hm & Ha & Hg & Hw) Hsteps Hn Hn'.
  assert (Hinv : inv s).
  { assert (H0 : inv s0) by (split; rewrite ?Ha, ?Hg, ?Hw; [done|constructor|set_solver..]).
    clear Hm Ha Hg Hw Hn Hn'. induction Hsteps; eauto using inv_step. }
  destruct (inv_winners _ Hinv _ _ Hn) as (V & HV & Hsize & Hvotes).
  destruct (inv_winners _ Hinv _ _ Hn') as (V' & HV' & Hsize' & Hvotes').
  assert (Hmeet : exists v, v ∈ V ∩ V').
  { apply set_choose_L. intros Hdisj. assert (V ## V') by set_solver.
    assert (Hle : (size (V ∪ V') <= size (dom (nodes s)))%nat) by (apply subseteq_size; set_solver).
    rewrite size_union in Hle by done. lia. }
  destruct Hmeet as [v [Hv Hv']%elem_of_intersection].
  exact (inv_once _ Hinv _ _ _ _ (Hvotes _ Hv) (Hvotes' _ Hv')).
Qed.

(** ** Concrete elections *)

Definition node_a : ReplicaState := NewReplicaState "s" "a" ["b"] 10 300.
Definition node_b : ReplicaState := NewReplicaState "s" "b" ["a"] 10 300.
Definition vote_a : VoteRequest := mkVoteRequest 1 "a" 0 "s".

Definition node_a1 : ReplicaState :=
  match startElection_begin 5 node_a with Some (_, r) => r | None => node_a end.
Definition node_b1 : ReplicaState := (RequestVote 6 vote_a node_b).2.
Definition node_a2 : ReplicaState := (startElection_end 7 1 ["b"] (tally 1 1 [(true, 1)]) node_a1).2.

Definition sys0 : Sys := mkSys {["a" := node_a; "b" := node_b]} [] ∅ ∅.
Definition sys1 : Sys :=
  mkSys (<["a" := node_a1]> (nodes sys0)) [vote_a] ({[("a", "a", 1)]} ∪ ∅) ∅.
Definition sys2 : Sys :=
  mkSys (<["b" := node_b1]> (nodes sys1)) [vote_a] ({[("b", "a", 1)]} ∪ grants sys1) ∅.
Definition sys3 : Sys :=
  mkSys (<["a" := node_a2]> (nodes sys2)) [vote_a] (grants sys2) ({[("a", 1)]} ∪ ∅).

Lemma sys3_reachable : rtc step sys0 sys3.
Proof.
  eapply rtc_l; [exact (step_begin sys0 "a" node_a 5 vote_a node_a1 eq_refl eq_refl eq_refl)|].
  eapply rtc_l.
  { exact (step_vote sys1 "b" node_b 6 vote_a (mkVoteResponse 1 true) node_b1 eq_refl
             (list_elem_of_here _ _) eq_refl). }
  eapply rtc_l; [|apply rtc_refl].
  refine (step_end sys2 "a" node_a1 7 1 [("b", (true, 1))] ElectionWon node_a2 _ _ _ _).
  - by vm_compute.
  - apply (bool_decide_eq_true_1 _). by vm_compute.
  - split; [apply NoDup_singleton|]. apply Forall_singleton. split; [apply list_elem_of_here|].
    intros _. apply (bool_decide_eq_true_1 _). by vm_compute.
  - by vm_compute.
Qed.

Lemma sys0_initial : initial sys0.
Proof.
  split_and!; try done. split; [apply (bool_decide_eq_true_1 _); by vm_compute|].
  apply map_Forall_insert_2; [|apply map_Forall_singleton]; split_and!; try done;
    try apply NoDup_singleton; apply (bool_decide_eq_true_1 _); by vm_compute.
Qed.

Lemma election_safety_witness : ("a", 1) ∈ winners sys3 /\ ("a" = "a").
Proof.
  assert (Hw : ("a", 1) ∈ winners sys3) by (apply (bool_decide_eq_true_1 _); by vm_compute).
  split; [exact Hw|].
  exact (election_safety sys0 sys3 "a" "a" 1 sys0_initial sys3_reachable Hw Hw).
Defined.

(** Installing a snapshot can take the term back, and the vote with it: a
    replica that voted in term 5 and then recovers from a leader of term 4 votes
    a second time in term 5. *)
Theorem snapshot_allows_second_vote :
  let '(v1, r1) := RequestVote 1 (mkVoteRequest 5 "b" 0 "s") node_a in
  let '(o, (r2, _)) := recovery_apply (mkRecoverResponse RECOVER_SNAPSHOT 3 [] 4 [("k", "v")]) (r1, healthy ∅) in
  let '(v2, r3) := RequestVote 2 (mkVoteRequest 5 "c" 3 "s") r2 in
  vsVoteGranted v1 = true /\ o = Ret FromSnapshot /\ vsVoteGranted v2 = true /\
  rVotedFor r1 = "b" /\ rVotedFor r3 = "c" /\ rVotedForTerm r1 = rVotedForTerm r3.
Proof. by vm_compute. Qed.
