(* ===== verification/Rounds.v ===== *)
(** Whole rounds of messages between the replicas of a shard: an election from
    the first request to the count (src/node/election.go, [startElection] and
    [sendVoteRequest]) and one tick of the leader's heartbeat
    ([runLeaderHeartbeat] and [sendLeaderHeartbeat]).

    As in [Write.v] the network is an argument, and the requests of a round go to
    distinct nodes.  [Election.v] has the same handlers interleaved in any way;
    here a round runs through, and the theorems say when it succeeds. *)

From S2P Require Import Prelude Fs Storage ReplicationLog StateMachine Config Replica Wire Handlers Write Recovery Election.

#[global] Instance delivery_eq_dec : EqDecision delivery.
Proof. solve_decision. Defined.

(** ** Elections *)

(** The reply as the candidate sees it: no grant and term 0 when the call fails. *)
Definition sendVoteRequest (now : Z) (d : delivery) (req : VoteRequest) (peer : string) (c : cluster)
    : (bool * Z) * cluster :=
  match d, c !! peer with
  | LostRequest, _ => ((false, 0), c)
  | _, None => ((false, 0), c)
  | _, Some (r, W) =>
      let '(resp, r') := RequestVote now req r in
      (match d with Delivered => (vsVoteGranted resp, vsTerm resp) | _ => (false, 0) end, <[peer := (r', W)]> c)
  end.

Fixpoint requestVotes (now : Z) (net : string -> delivery) (req : VoteRequest) (peers : list string) (c : cluster)
    : list (bool * Z) * cluster :=
  match peers with
  | [] => ([], c)
  | p :: ps =>
      let '(reply, c1) := sendVoteRequest now (net p) req p c in
      let '(replies, c2) := requestVotes now net req ps c1 in
      (reply :: replies, c2)
  end.

(** [startElection] with nothing else happening to the candidate meanwhile; the
    replies come in the order of [order]. *)
Definition startElection (now : Z) (addrs : gmap string string) (order : gmap string string -> list string)
    (net : string -> delivery) (s : ReplicaState * cluster) : election_result * (ReplicaState * cluster) :=
  let '(r, c) := s in
  match startElection_begin now r with
  | None => (ElectionAborted, s)
  | Some (req, r1) =>
      let '(replies, c1) := requestVotes now net req (order (peer_addresses (rPeers r) addrs)) c in
      let '(res, r2) := startElection_end now (vqTerm req) (rPeers r) (tally (vqTerm req) 1 replies) r1 in
      (res, (r2, c1))
  end.

(** ** Heartbeats *)

Definition sendLeaderHeartbeat (now : Z) (d : delivery) (req : LeaderHeartbeatRequest) (peer : string) (c : cluster)
    : Z * cluster :=
  match d, c !! peer with
  | LostRequest, _ => (0, c)
  | _, None => (0, c)
  | _, Some (r, W) =>
      let '(term, r') := LeaderHeartbeat now req r in
      (match d with Delivered => term | _ => 0 end, <[peer := (r', W)]> c)
  end.

Fixpoint heartbeat_fanout (now : Z) (net : string -> delivery) (req : LeaderHeartbeatRequest)
    (peers : list string) (s : ReplicaState * cluster) : ReplicaState * cluster :=
  match peers with
  | [] => s
  | p :: ps =>
      let '(term, c1) := sendLeaderHeartbeat now (net p) req p (snd s) in
      heartbeat_fanout now net req ps (heartbeat_reply now (hqTerm req) p term (fst s), c1)
  end.

(** One tick of [runLeaderHeartbeat], its replies included. *)
Definition heartbeat_round (now : Z) (addrs : gmap string string) (order : gmap string string -> list string)
    (net : string -> delivery) (s : ReplicaState * cluster) : ReplicaState * cluster :=
  match heartbeat_request (fst s) with
  | None => s
  | Some req => heartbeat_fanout now net req (order (peer_addresses (rPeers (fst s)) addrs)) s
  end.

(** ** When an election is won *)

(** A peer that answers with a vote: it is reached, has not seen the term, and is
    not ahead. *)
Definition will_vote (net : string -> delivery) (c : cluster) (term version : Z) (p : string) : Prop :=
  net p = Delivered /\ exists r W, c !! p = Some (r, W) /\ rTerm r < term /\ rVersion r <= version.

(** A peer that does not know of a later term. *)
Definition not_later (c : cluster) (term : Z) (p : string) : Prop :=
  forall r W, c !! p = Some (r, W) -> rTerm r <= term.

Lemma RequestVote_term now req r resp r' :
  RequestVote now req r = (resp, r') -> rTerm r <= vqTerm req -> vsTerm resp = vqTerm req.
Proof.
  unfold RequestVote. intros Hv Hle. destruct (Z.ltb_spec (vqTerm req) (rTerm r)); [lia|].
  set (r1 := if rTerm r <? vqTerm req then _ else r) in *.
  assert (Ht : rTerm r1 = vqTerm req).
  { unfold r1. destruct (Z.ltb_spec (rTerm r) (vqTerm req)); [done|lia]. }
  case_decide; [by simplify_eq/=|]. by case_match; simplify_eq/=.
Qed.

Lemma RequestVote_grants now req r resp r' :
  RequestVote now req r = (resp, r') -> rTerm r < vqTerm req -> rVersion r <= vqVersion req ->
  0 < vqTerm req -> vsVoteGranted resp = true.
Proof.
  unfold RequestVote. intros Hv Hlt Hver Hpos. destruct (Z.ltb_spec (vqTerm req) (rTerm r)); [lia|].
  destruct (Z.ltb_spec (rTerm r) (vqTerm req)); [|lia]. simpl in Hv.
  case_decide as Hd; [destruct Hd as [Hd _]; simpl in Hd; lia|].
  change (rVersion (_ <| rRole := RoleFollower |>)) with (rVersion r) in Hv.
  destruct (Z.ltb_spec (vqVersion req) (rVersion r)); [lia|]. by simplify_eq/=.
Qed.

Lemma sendVoteRequest_reply now d req p c reply c' :
  0 <= vqTerm req -> not_later c (vqTerm req) p -> sendVoteRequest now d req p c = (reply, c') ->
  snd reply <= vqTerm req /\ (forall q, q <> p -> c' !! q = c !! q).
Proof.
  intros H0 Hn. unfold sendVoteRequest, not_later in *.
  destruct (c !! p) as [[r W]|]; [|destruct d; intros [= <- <-]; done].
  specialize (Hn r W eq_refl). destruct (RequestVote now req r) as [resp r'] eqn:Hv.
  apply RequestVote_term in Hv; [|done].
  destruct d; intros [= <- <-]; simpl; (split; [lia|]); try done; intros q Hq; by rewrite lookup_insert_ne.
Qed.

Lemma tally_all term votes replies :
  Forall (fun p => snd p <= term) replies ->
  tally term votes replies = TallyVotes (votes + Z.of_nat (length (filter (fun p => p.1 = true) replies))).
Proof.
  revert votes. induction replies as [|[b t] replies IH]; intros votes Hall; cbn [tally].
  { simpl. f_equal. lia. }
  apply Forall_cons in Hall as [Ht Hall]. simpl in Ht. destruct (Z.ltb_spec term t); [lia|]. rewrite IH by done.
  f_equal. destruct b; [rewrite filter_cons_True by done; simpl; lia|by rewrite filter_cons_False by done].
Qed.

Lemma filter_ne (p : string) (L : list string) : p ∉ L -> filter (fun q => q <> p) L = L.
Proof.
  induction L as [|q L IH]; [done|]. intros [? ?]%not_elem_of_cons. by rewrite filter_cons_True, IH by done.
Qed.

Lemma length_filter_ne (p : string) (L : list string) : NoDup L -> (length L <= S (length (filter (fun q => q <> p) L)))%nat.
Proof.
  induction 1 as [|q L Hq HL IH]; [simpl; lia|]. destruct (decide (q = p)) as [->|].
  - rewrite filter_cons_False by naive_solver. simpl. by rewrite filter_ne.
  - rewrite filter_cons_True by done. simpl. lia.
Qed.

Lemma requestVotes_count now net req ps c L replies c' :
  NoDup ps -> NoDup L -> L ⊆ ps -> 0 < vqTerm req ->
  (forall p, p ∈ ps -> not_later c (vqTerm req) p) ->
  (forall p, p ∈ L -> will_vote net c (vqTerm req) (vqVersion req) p) ->
  requestVotes now net req ps c = (replies, c') ->
  Forall (fun p => snd p <= vqTerm req) replies /\
  (length L <= length (filter (fun p => p.1 = true) replies))%nat.
Proof.
  intros Hnd. revert c L replies. induction Hnd as [|p ps Hp Hnd IH]; intros c L replies HL Hsub Hpos Hlater Hvote; simpl.
  { intros [= <- <-]. split; [constructor|]. destruct L; [simpl; lia|set_solver]. }
  destruct (sendVoteRequest now (net p) req p c) as [reply c1] eqn:Hs.
  destruct (requestVotes now net req ps c1) as [replies1 c2] eqn:Hr. intros [= <- <-].
  destruct (sendVoteRequest_reply _ _ _ _ _ _ _ (Z.lt_le_incl _ _ Hpos) (Hlater p (list_elem_of_here _ _)) Hs)
    as [Ht Hother].
  assert (HL' : NoDup (filter (fun q => q <> p) L)) by by apply NoDup_filter.
  destruct (IH c1 (filter (fun q => q <> p) L) replies1) as [Hall Hlen]; try done.
  { intros q [Hq Hin]%list_elem_of_filter. apply Hsub in Hin. set_solver. }
  { intros q Hq r W Hqr. rewrite Hother in Hqr by set_solver. eapply Hlater; [|done]. set_solver. }
  { intros q [Hq Hin]%list_elem_of_filter. destruct (Hvote q Hin) as (? & r & W & ? & ? & ?).
    split; [done|]. exists r, W. by rewrite Hother. }
  split; [by constructor|]. destruct (decide (p ∈ L)) as [HpL|HpL].
  - assert (Hgrant : reply.1 = true).
    { destruct (Hvote p HpL) as (Hd & r & W & Hc & Hlt & Hver). unfold sendVoteRequest in Hs. rewrite Hd, Hc in Hs.
      destruct (RequestVote now req r) as [resp r'] eqn:Hv. simplify_eq/=. by eapply RequestVote_grants. }
    rewrite filter_cons_True by done. simpl.
    pose proof (length_filter_ne p L HL). lia.
  - rewrite (filter_ne p L HpL) in Hlen. etrans; [done|].
    destruct reply as [[] t]; [rewrite filter_cons_True by done; simpl; lia|by rewrite filter_cons_False by done].
Qed.

Definition vote_request (r : ReplicaState) : VoteRequest :=
  mkVoteRequest (rTerm r + 1) (rNodeID r) (rVersion r) (rShardID r).

(** The candidate when it has won. *)
Definition promoted (now : Z) (r : ReplicaState) : ReplicaState :=
  set_term (rTerm r + 1) r <| rVotedFor := rNodeID r |> <| rVotedForTerm := rTerm r + 1 |>
    <| rLastLeaderContact := now |> <| rRole := RoleLeader |> <| rLeaderID := rNodeID r |>
    <| rIsReady := true |> <| rElectionCount ::= fun n => wrap_int64 (n + 1) |>.

Lemma startElection_run now addrs order net r c L :
  visits order -> rRole r <> RoleLeader -> 0 <= rTerm r < two64 - 1 ->
  NoDup L -> (forall p, p ∈ L -> p ∈ rPeers r /\ is_Some (addrs !! p)) ->
  (forall p, p ∈ L -> will_vote net c (rTerm r + 1) (rVersion r) p) ->
  (forall p, not_later c (rTerm r + 1) p) ->
  quorum_size (rPeers r) <= 1 + Z.of_nat (length L) ->
  startElection now addrs order net (r, c) = (ElectionWon, (promoted now r,
    (requestVotes now net (vote_request r) (order (peer_addresses (rPeers r) addrs)) c).2)).
Proof.
  intros Horder Hrole Ht HL Hpeers Hvote Hlater Hq. unfold startElection, startElection_begin.
  rewrite decide_False by done. rewrite u64_succ_lt by (unfold u64; lia). fold (vote_request r).
  destruct (Horder (peer_addresses (rPeers r) addrs)) as [Hnd Hin].
  destruct (requestVotes now net (vote_request r) _ c) as [replies c1] eqn:Hr.
  destruct (requestVotes_count now net (vote_request r) _ c L replies c1 Hnd HL) as [Hall Hlen]; try done.
  { intros p Hp. apply Hin. destruct (Hpeers p Hp) as [? [a Ha]]. exists a.
    by apply map_lookup_filter_Some. }
  { simpl. lia. }
  rewrite tally_all by done. unfold startElection_end. cbn [snd].
  rewrite decide_False; [|intros [Hne|?]; [by apply Hne|done]].
  match goal with |- context [?a <? ?b] => destruct (Z.ltb_spec a b); [lia|] end. done.
Qed.

(** C9: An election succeeds when it should: a candidate that reaches enough
    peers which have not seen its new term and are not ahead of it, while nobody
    it could ask is in a later term, wins and becomes a ready leader of that
    term, whatever happens to the other requests. *)
Theorem startElection_wins now addrs order net r c L :
  visits order -> rRole r <> RoleLeader -> 0 <= rTerm r < two64 - 1 ->
  NoDup L -> (forall p, p ∈ L -> p ∈ rPeers r /\ is_Some (addrs !! p)) ->
  (forall p, p ∈ L -> will_vote net c (rTerm r + 1) (rVersion r) p) ->
  (forall p, not_later c (rTerm r + 1) p) ->
  quorum_size (rPeers r) <= 1 + Z.of_nat (length L) ->
  exists r' c', startElection now addrs order net (r, c) = (ElectionWon, (r', c')) /\
    rRole r' = RoleLeader /\ rLeaderID r' = rNodeID r /\ rIsReady r' = true /\ rTerm r' = rTerm r + 1 /\
    rVersion r' = rVersion r /\ rContents r' = rContents r.
Proof.
  intros. eexists _, _. split; [by eapply startElection_run|]. by split_and!.
Qed.

(** ** What a round of heartbeats does *)

(** The peer gets the request. *)
Definition reaches (net : string -> delivery) (p : string) : bool :=
  match net p with LostRequest => false | _ => true end.

Definition beaten (now : Z) (req : LeaderHeartbeatRequest) (x : node) : node :=
  ((LeaderHeartbeat now req (fst x)).2, snd x).

Definition noted (now : Z) (net : string -> delivery) (c : cluster) (p : string) (old : option Z) : option Z :=
  if decide (net p = Delivered /\ is_Some (c !! p)) then Some now else old.

Lemma LeaderHeartbeat_accepts now req r :
  rTerm r <= hqTerm req ->
  (LeaderHeartbeat now req r).1 = hqTerm req /\ rTerm (LeaderHeartbeat now req r).2 = hqTerm req /\
  rLeaderID (LeaderHeartbeat now req r).2 = hqLeaderId req /\
  rLastLeaderContact (LeaderHeartbeat now req r).2 = now /\ same_data r (LeaderHeartbeat now req r).2.
Proof.
  intros Hle. unfold LeaderHeartbeat. destruct (Z.ltb_spec (hqTerm req) (rTerm r)); [lia|].
  pose proof (adopt_term_max (hqTerm req) r) as Ht. rewrite Z.max_r in Ht by lia.
  destruct (adopt_term_data (hqTerm req) r) as [Hd _]. by split_and!.
Qed.

Lemma alter_present (f : node -> node) p (c : cluster) x : c !! p = Some x -> alter f p c = <[p := f x]> c.
Proof.
  intros Hx. apply map_eq. intros q. destruct (decide (p = q)) as [<-|].
  - by rewrite lookup_alter_eq, Hx, lookup_insert_eq.
  - by rewrite lookup_alter_ne, lookup_insert_ne.
Qed.

Lemma alter_absent (f : node -> node) p (c : cluster) : c !! p = None -> alter f p c = c.
Proof.
  intros Hx. apply map_eq. intros q. destruct (decide (p = q)) as [<-|];
    [by rewrite lookup_alter_eq, Hx|by rewrite lookup_alter_ne].
Qed.

Lemma sendLeaderHeartbeat_spec now net req p c :
  not_later c (hqTerm req) p ->
  sendLeaderHeartbeat now (net p) req p c =
    (if decide (net p = Delivered /\ is_Some (c !! p)) then hqTerm req else 0,
     if reaches net p then alter (beaten now req) p c else c).
Proof.
  intros Hn. unfold sendLeaderHeartbeat, reaches, not_later in *. destruct (c !! p) as [[r W]|] eqn:Hc.
  - destruct (LeaderHeartbeat_accepts now req r (Hn r W eq_refl)) as [Ht _].
    rewrite (alter_present _ _ _ _ Hc). unfold beaten. cbn [fst snd]. destruct (LeaderHeartbeat now req r) as [t r']. simpl in Ht. subst t.
    destruct (net p); [by rewrite decide_False by naive_solver|rewrite decide_True by eauto; done|
      by rewrite decide_False by naive_solver].
  - rewrite decide_False by (intros [_ []]; done).
    rewrite (alter_absent _ _ _ Hc). by destruct (net p).
Qed.

Lemma heartbeat_fanout_spec now net req ps r c :
  NoDup ps -> rTerm r = hqTerm req -> 0 < hqTerm req -> (forall p, not_later c (hqTerm req) p) ->
  exists m c', heartbeat_fanout now net req ps (r, c) = (r <| rPeerLastContact := m |>, c') /\
    (forall p, m !! p = if decide (p ∈ ps) then noted now net c p (rPeerLastContact r !! p) else rPeerLastContact r !! p) /\
    (forall p, c' !! p = if decide (p ∈ ps /\ reaches net p = true) then beaten now req <$> c !! p else c !! p).
Proof.
  intros Hnd. revert r c. induction Hnd as [|p ps Hp Hnd IH]; intros r c Ht Hpos Hlater; cbn [heartbeat_fanout fst snd].
  { exists (rPeerLastContact r), c. split; [by destruct r|]. split; intros p; rewrite decide_False; set_solver. }
  rewrite sendLeaderHeartbeat_spec by done. set (hit := decide (net p = Delivered /\ is_Some (c !! p))).
  set (m1 := if hit then <[p := now]> (rPeerLastContact r) else rPeerLastContact r).
  set (c1 := if reaches net p then alter (beaten now req) p c else c).
  assert (Hr1 : heartbeat_reply now (hqTerm req) p (if hit then hqTerm req else 0) r = r <| rPeerLastContact := m1 |>).
  { unfold heartbeat_reply, m1. destruct hit; [|by destruct r].
    destruct (Z.eqb_spec (hqTerm req) 0); [lia|]. by rewrite Z.ltb_irrefl. }
  assert (Hc1 : forall q, q <> p -> c1 !! q = c !! q).
  { intros q Hq. unfold c1. destruct (reaches net p); [by rewrite lookup_alter_ne|done]. }
  assert (Hlater1 : forall q, not_later c1 (hqTerm req) q).
  { intros q x W Hx. destruct (decide (q = p)) as [->|]; [|rewrite Hc1 in Hx by done; by eapply Hlater].
    unfold c1 in Hx. destruct (reaches net p); [|by eapply Hlater].
    rewrite lookup_alter_eq in Hx. apply fmap_Some in Hx as ([y Wy] & Hy & Heq). unfold beaten in Heq. simplify_eq/=.
    destruct (LeaderHeartbeat_accepts now req y (Hlater _ _ _ Hy)) as (_ & -> & _). done. }
  cbv beta iota zeta. rewrite Hr1. set (r1 := r <| rPeerLastContact := m1 |>).
  destruct (IH r1 c1 Ht Hpos Hlater1) as (m & c' & Heq & Hm & Hc').
  exists m, c'. split; [exact Heq|]. split; intros q; [rewrite Hm|rewrite Hc'].
  - change (rPeerLastContact r1) with m1. destruct (decide (q = p)) as [->|Hq].
    + rewrite decide_False, decide_True by set_solver. unfold m1, noted. fold hit.
      destruct hit; [|done]. by rewrite lookup_insert_eq.
    + assert (Hsame : m1 !! q = rPeerLastContact r !! q) by (unfold m1; destruct hit; [by rewrite lookup_insert_ne|done]).
      unfold noted. rewrite Hsame, Hc1 by done.
      apply decide_ext. rewrite elem_of_cons. naive_solver.
  - destruct (decide (q = p)) as [->|Hq].
    + rewrite decide_False by naive_solver. unfold c1. destruct (reaches net p).
      * by rewrite lookup_alter_eq, decide_True by set_solver.
      * by rewrite decide_False by naive_solver.
    + rewrite Hc1 by done. apply decide_ext. rewrite elem_of_cons. naive_solver.
Qed.


Definition beat_leader : ReplicaState := set_term 1 write_leader.

Lemma write_others_terms t p : 0 <= t -> not_later write_others t p.
Proof.
  intros Ht x W Hx. enough (rTerm (fst (x, W)) = 0) by (simpl in *; lia).
  apply (map_Forall_lookup_1 (fun _ (n : node) => rTerm (fst n) = 0) write_others p (x, W)); [|done].
  apply (bool_decide_eq_true_1 _). by vm_compute.
Qed.

(** A peer of the leader, its address, and its state. *)
Lemma write_others_peer p :
  p ∈ ["n2"; "n3"] -> p ∈ rPeers write_leader /\ is_Some (weAddresses write_env1 !! p) /\
    write_others !! p = Some (write_follower p).
Proof.
  intros Hp. split; [exact Hp|]. rewrite !elem_of_cons, elem_of_nil in Hp.
  destruct Hp as [->|[->|[]]]; (split; [by eexists|by vm_compute]).
Qed.


(** In term 0, the term of every replica until the first election, the replies
    look like failed calls and no contact is ever noted. *)
Theorem term_zero_heartbeats_missed now addrs order net r c :
  rTerm r = 0 -> (forall p x W, c !! p = Some (x, W) -> rTerm x = 0) ->
  fst (heartbeat_round now addrs order net (r, c)) = r.
Proof.
  intros Ht Hc. unfold heartbeat_round, heartbeat_request. cbn [fst]. case_decide; [|done].
  generalize (order (peer_addresses (rPeers r) addrs)). set (req := mkHeartbeatRequest _ _ _ _).
  assert (Hreq : hqTerm req = 0) by done. clearbody req. intros ps. revert c Hc.
  induction ps as [|p ps IH]; intros c Hc; [done|]. cbn [heartbeat_fanout fst snd].
  rewrite sendLeaderHeartbeat_spec by (intros x W Hx; rewrite (Hc _ _ _ Hx); lia).
  assert (Hzero : (if decide (net p = Delivered /\ is_Some (c !! p)) then hqTerm req else 0) = 0) by (case_decide; done).
  rewrite Hzero. apply IH. intros q x W. destruct (reaches net p); [|by apply Hc].
  destruct (decide (p = q)) as [<-|]; [|rewrite lookup_alter_ne by done; by apply Hc].
  rewrite lookup_alter_eq. intros ([y Wy] & Hy & Heq)%fmap_Some. unfold beaten in Heq. simplify_eq/=.
  destruct (LeaderHeartbeat_accepts now req y) as (_ & -> & _); [rewrite (Hc _ _ _ Hy); lia|done].
Qed.

(** So the first leader of a shard soon counts nobody but itself.  Both followers
    answer its heartbeat, and right after it acknowledges a write alone. *)
Theorem first_leader_writes_alone :
  let '(r, c) := heartbeat_round (10 * second) (weAddresses write_env1) key_order (fun _ => Delivered)
                   (write_leader, write_others) in
  let '(o, (_, c')) := leaderWrite (10 * second) write_env1 (mkKVRequest "put" "k" "v") ((r, healthy ∅), c) in
  o = Ret (mkWriteResult 1 1 0 1) /\ (rVersion ∘ fst <$> c') = {["n2" := 0; "n3" := 0]}.
Proof. by vm_compute. Qed.

(** ** A concrete election *)

Definition asking : ReplicaState := NewReplicaState "s" "n1" ["n2"; "n3"] 10 300.

Lemma startElection_wins_witness :
  exists r' c', startElection 5 (weAddresses write_env1) key_order (weNet write_env1) (asking, write_others) =
      (ElectionWon, (r', c')) /\
    rRole r' = RoleLeader /\ rLeaderID r' = "n1" /\ rIsReady r' = true /\ rTerm r' = 0 + 1 /\
    rVersion r' = 0 /\ rContents r' = ∅.
Proof.
  apply (startElection_wins 5 (weAddresses write_env1) key_order (weNet write_env1) asking write_others ["n2"]).
  - exact key_order_visits.
  - done.
  - by vm_compute.
  - apply NoDup_singleton.
  - intros p ->%list_elem_of_singleton. destruct (write_others_peer "n2") as (? & ? & _); [apply list_elem_of_here|done].
  - intros p ->%list_elem_of_singleton. destruct (write_others_peer "n2") as (_ & _ & Hx); [apply list_elem_of_here|].
    split; [done|]. by exists (fst (write_follower "n2")), (healthy ∅).
  - intros p. apply write_others_terms. by vm_compute.
  - by vm_compute.
Defined.
