(* ===== verification/Progress.v ===== *)
(** Operations on a disk that works: what is refused nowhere else succeeds.

    The theorems of the other files hold under every schedule of disk faults and
    say what an acknowledgement means.  Here the disk answers every request, and
    the theorems say that the operation is acknowledged: entries and snapshots
    are applied, a follower takes the next entry, a lagging follower catches up
    in one attempt, and a write succeeds once enough followers answer. *)

From S2P Require Import Prelude Strconv Fs JsonStruct Storage ReplicationLog Wal Snapshot DiskState Total StateMachine.
From S2P Require Import Config Replica Wire Handlers Write Recovery Election Rounds.

(** ** Replicas *)

(** The disk of a replica answers, and its log has not failed before. *)
Definition works (x : node) : Prop := sm_works (rSM (fst x), snd x).

Lemma twp_on_sm_Apply e r W :
  next_entry (rSM r) e -> known_op e -> works (r, W) ->
  twp (on_sm (SM_Apply e ApplyWithWAL))
    (fun _ s' => works s' /\ exists sm', fst s' = r <| rSM := sm' |> /\ advanced (rSM r) e sm') (r, W).
Proof.
  intros Hn Hk Hw. pose proof (wp_on_sm_apply e r W) as Hspec.
  assert (Ht : twp (on_sm (SM_Apply e ApplyWithWAL)) (fun _ s' => works s') (r, W)).
  { apply twp_zoom. cbn [fst snd]. eapply twp_mono; [by apply twp_SM_Apply|]. done. }
  eapply twp_mono; [exact (twp_and _ _ _ _ Ht Hspec)|]. cbn beta.
  intros [] s' [Hw' (sm' & Hr & Hret & _)]. split; [done|]. exists sm'. destruct (Hret eq_refl) as (_ & _ & ?). done.
Qed.

(** A follower that is in step takes the next entry. *)
Lemma twp_Replicate now req r W :
  works (r, W) -> rTerm r <= rqTerm req -> known_op (request_entry req) ->
  rqVersion req <= rVersion r \/ rqVersion req = u64_succ (rVersion r) ->
  twp (Replicate now req) (fun resp s' => works s' /\ rsSuccess resp = true) (r, W).
Proof.
  intros Hw Ht Hk Hv. unfold Replicate. apply twp_bind, twp_get. cbn [fst].
  destruct (Z.ltb_spec (rqTerm req) (rTerm r)); [lia|].
  apply twp_bind, twp_modify, twp_bind, twp_get. cbn [fst snd].
  pose proof (adopt_term_max (rqTerm req) r) as Hmax. rewrite Z.max_r in Hmax by done.
  destruct (adopt_term_data (rqTerm req) r) as [[Hver _] _].
  assert (Hw1 : works (adopt_term (rqTerm req) r, W)) by (unfold adopt_term; by destruct (_ <? _)).
  set (r1 := adopt_term (rqTerm req) r) in *. rewrite Hver.
  destruct (Z.leb_spec (rqVersion req) (rVersion r)); [by apply twp_ret|].
  destruct Hv as [|Hnext]; [lia|]. rewrite Hnext, Z.eqb_refl. cbn [negb].
  apply twp_bind, twp_map_err. eapply twp_mono; [apply twp_on_sm_Apply; [|done|done]|].
  { unfold next_entry. unfold rTerm, rVersion in *. rewrite Hver, Hmax. unfold request_entry.
    destruct (opFromProto (rqOp req)) as [[? ?] ?]. simpl. split; [done|lia]. }
  cbn beta. intros _ [r2 W2] [Hw2 _]. by apply twp_bind, twp_modify, twp_ret.
Qed.

(** ** Writes *)

Lemma planQuorum_alone addrs last now window :
  NeededFollowers (planQuorum addrs last now window) = 0 -> LivePeers (planQuorum addrs last now window) = ∅.
Proof.
  pose proof (planQuorum_majority addrs last now window) as [Hmaj Hn]. set (q := planQuorum _ _ _ _) in *. intros Hz.
  assert (Ht : TotalEligible q = Z.of_nat (size (LivePeers q)) + 1) by done.
  apply map_size_empty_iff. lia.
Qed.

Lemma planQuorum_live_quorum addrs last now window : hasLiveQuorum (planQuorum addrs last now window) = true.
Proof.
  pose proof (planQuorum_majority addrs last now window) as [Hmaj Hn]. set (q := planQuorum _ _ _ _) in *.
  assert (Ht : TotalEligible q = Z.of_nat (size (LivePeers q)) + 1) by done.
  unfold hasLiveQuorum. apply Z.leb_le. lia.
Qed.

(** A peer that will acknowledge: it is reached, its reply arrives, its disk
    works, it is not in a later term, and the entry is its next or an old one. *)
Definition will_ack (net : string -> delivery) (req : ReplicateRequest) (c : cluster) (p : string) : Prop :=
  net p = Delivered /\ exists r W, c !! p = Some (r, W) /\ works (r, W) /\ rTerm r <= rqTerm req /\
    (rqVersion req <= rVersion r \/ rqVersion req = u64_succ (rVersion r)).

Lemma fanOutReplicate_acks now net req ps c acked c' p :
  fanOutReplicate now net req ps c = (acked, c') -> NoDup ps -> known_op (request_entry req) ->
  p ∈ ps -> will_ack net req c p -> p ∈ acked.
Proof.
  revert c acked. induction ps as [|q ps IH]; intros c acked; [by intros _ _ _ ?%elem_of_nil|]. cbn [fanOutReplicate].
  destruct (sendReplicateRequest now (net q) req q c) as [ok c1] eqn:Hs.
  destruct (fanOutReplicate now net req ps c1) as [acked1 c2] eqn:Hf.
  intros [= <- <-] [Hq Hnd]%NoDup_cons Hk Hp Hack. pose proof (sendReplicateRequest_spec _ _ _ _ _ _ _ Hs) as [Hother _].
  apply elem_of_cons in Hp as [->|Hp].
  - destruct Hack as (Hd & r & W & Hr & Hw & Ht & Hv). unfold sendReplicateRequest in Hs. rewrite Hd, Hr in Hs.
    destruct (twp_use _ _ _ (twp_Replicate now req r W Hw Ht Hk Hv)) as (resp & x' & Heq & _ & Hok).
    rewrite Heq in Hs. simplify_eq. rewrite Hok. apply list_elem_of_here.
  - assert (p ∈ acked1).
    { eapply IH; [done..|]. destruct Hack as (? & r & W & Hr & ?). split; [done|]. exists r, W.
      rewrite Hother; [done|]. by intros ->. }
    destruct ok; [by apply list_elem_of_further|done].
Qed.

Lemma twp_commit_local e r W :
  next_entry (rSM r) e -> known_op e -> works (r, W) -> twp (commit_local e) (fun _ s' => works s') (r, W).
Proof.
  intros Hn Hk Hw. unfold commit_local. apply twp_bind, twp_map_err.
  eapply twp_mono; [by apply twp_on_sm_Apply|]. cbn beta. intros _ [r1 W1] [Hw1 _].
  apply twp_bind, twp_modify, twp_bind, twp_get. cbn [fst snd]. apply twp_bind.
  apply twp_ignore_ok, twp_zoom. cbn [fst snd]. apply twp_map_err.
  eapply twp_mono; [apply twp_on_ds; [exact Hw1|]|].
  { intros ds Hds. destruct Hw1 as [Hs Hu]. cbn [fst snd] in *. change (rSM (mark_healthy r1)) with (rSM r1) in Hds.
    rewrite Hds in Hu. by apply twp_maybeSnapshot. }
  cbn beta. intros _ [sm2 W2] [Hw2 _]. by apply twp_modify.
Qed.

Lemma leaderWrite_acks now env req r W c L :
  visits (weOrder env) -> 0 <= rVersion r < two64 - 1 -> known_op (write_entry r req) ->
  ensureLeaderReady r = Ok tt -> rShardMapVersion r = weMapVersion env -> works (r, W) ->
  let plan := planQuorum (peer_addresses (rPeers r) (weAddresses env)) (rPeerLastContact r) now
                (wrap_int64 (weLeaderHeartbeat env * 2)) in
  NoDup L -> (forall p, p ∈ L -> is_Some (LivePeers plan !! p) /\ will_ack (weNet env) (write_request r req) c p) ->
  NeededFollowers plan <= Z.of_nat (length L) ->
  exists res x' c', leaderWrite now env req ((r, W), c) = (Ret res, (x', c')) /\ works x' /\
    AppliedVersion res = rVersion r + 1 /\ Z.of_nat (length L) <= AckedFollowers res.
Proof.
  intros Horder Hv Hk Hready Hmap Hw plan HL Hacks Hneeded.
  assert (Hnext : u64_succ (rVersion r) = rVersion r + 1) by (apply u64_succ_lt; [unfold u64|]; lia).
  assert (Hentry : next_entry (rSM r) (write_entry r req)) by (split; [done|apply Z.le_refl]).
  enough (Htwp : twp (leaderWrite now env req) (fun res s' => works (fst s') /\
    AppliedVersion res = rVersion r + 1 /\ Z.of_nat (length L) <= AckedFollowers res) ((r, W), c)).
  { destruct (twp_use _ _ _ Htwp) as (res & [x' c'] & ? & ? & ? & ?). by exists res, x', c'. }
  unfold leaderWrite. apply twp_bind, twp_get. cbn [fst snd]. rewrite Hready, Hmap, Z.eqb_refl. cbn [negb].
  fold (write_entry r req). fold plan. destruct (Z.eqb_spec (NeededFollowers plan) 0) as [Hz|].
  - apply twp_bind, twp_zoom. cbn [fst snd]. eapply twp_mono; [by apply twp_commit_local|]. cbn beta.
    intros _ x1 Hw1. apply twp_ret. split; [done|]. split; [done|]. cbn [AckedFollowers quorum_result].
    apply planQuorum_alone in Hz. destruct L as [|p L]; [done|].
    destruct (Hacks p (list_elem_of_here _ _)) as [[a Ha] _]. fold plan in Hz. by rewrite Hz in Ha.
  - assert (Hlive : hasLiveQuorum plan = true) by apply planQuorum_live_quorum. rewrite Hlive. cbn [negb].
    change (mkReplicateRequest _ _ _ _) with (write_request r req).
    destruct (fanOutReplicate _ _ _ _ _) as [acked c1] eqn:Hfan.
    destruct (Horder (LivePeers plan)) as [Hnd Hin].
    assert (Hsub : forall p, p ∈ L -> p ∈ acked).
    { intros p Hp. destruct (Hacks p Hp) as [Hl Hack]. eapply fanOutReplicate_acks; [done..| |by apply Hin|done].
      unfold known_op, request_entry. simpl. destruct Hk as [Hop|Hop]; simpl in Hop; rewrite Hop; simpl; auto. }
    assert (Hlen : (length L <= length acked)%nat) by (apply submseteq_length, NoDup_submseteq; done).
    apply twp_bind, twp_modify. cbn [fst snd].
    destruct (Z.ltb_spec (Z.of_nat (length acked)) (NeededFollowers plan)); [lia|].
    apply twp_bind, twp_zoom, twp_modify, twp_bind, twp_zoom. cbn [fst snd].
    eapply twp_mono; [by apply twp_commit_local|]. cbn beta. intros _ x1 Hw1. apply twp_ret.
    split; [done|]. split; [done|]. cbn [AckedFollowers quorum_result]. lia.
Qed.

(** C10: A write succeeds when it can: a ready leader with a working disk and the
    current shard map acknowledges a put or a delete as soon as enough of the
    peers it takes for live are reached, answer, have working disks, are in step
    and know of no later term, whatever the others do.  The leader's disk still
    works afterwards, and every one of these peers is counted. *)
Theorem leaderWrite_succeeds now env req r W c L :
  visits (weOrder env) -> 0 <= rVersion r < two64 - 1 -> known_op (write_entry r req) ->
  ensureLeaderReady r = Ok tt -> rShardMapVersion r = weMapVersion env -> works (r, W) ->
  let plan := planQuorum (peer_addresses (rPeers r) (weAddresses env)) (rPeerLastContact r) now
                (wrap_int64 (weLeaderHeartbeat env * 2)) in
  NoDup L -> (forall p, p ∈ L -> is_Some (LivePeers plan !! p) /\ will_ack (weNet env) (write_request r req) c p) ->
  NeededFollowers plan <= Z.of_nat (length L) ->
  exists res x' c', leaderWrite now env req ((r, W), c) = (Ret res, (x', c')) /\ works x' /\
    AppliedVersion res = rVersion r + 1 /\ Z.of_nat (length L) <= AckedFollowers res.
Proof. apply leaderWrite_acks. Qed.

(** ** Recovery *)

(** The terms of the entries do not go back, starting from [t]. *)
Fixpoint terms_up (t : Z) (es : list Entry) : Prop :=
  match es with [] => True | e :: es' => t <= eTerm e /\ terms_up (eTerm e) es' end.

Lemma twp_apply_entries es r W :
  contig (rVersion r) (entryFromProto <$> es) -> 0 <= rVersion r -> rVersion r + Z.of_nat (length es) < two64 - 1 ->
  terms_up (rTerm r) (entryFromProto <$> es) -> Forall known_op (entryFromProto <$> es) -> works (r, W) ->
  twp (apply_entries es) (fun _ s' => works s') (r, W).
Proof.
  revert r W. induction es as [|e es IH]; intros r W Hc H0 Hmax Ht Hk Hw; [done|].
  cbn [apply_entries fmap list_fmap contig terms_up length] in *. destruct Hc as [He Hc], Ht as [Ht Hts].
  apply Forall_cons in Hk as [Hk Hks].
  change (eVersion (entryFromProto e)) with (leVersion e) in He.
  apply twp_bind, twp_get. cbn [fst]. destruct (Z.leb_spec (leVersion e) (rVersion r)); [lia|].
  apply twp_bind, twp_map_err. eapply twp_mono; [apply twp_on_sm_Apply; [|done..]|].
  { split; [|exact Ht]. change (leVersion e = u64_succ (rVersion r)). rewrite u64_succ_lt; [done|unfold u64; lia|lia]. }
  cbn beta. intros _ [r1 W1] (Hw1 & sm' & Hr1 & Hv' & Ht' & _). cbn [fst] in Hr1. subst r1.
  assert (Hver : rVersion (r <| rSM := sm' |>) = rVersion r + 1) by (unfold rVersion in *; simpl; rewrite Hv'; done).
  apply IH; rewrite ?Hver; try done; [lia|lia|]. unfold rTerm in *. simpl. by rewrite Ht'.
Qed.

Lemma contig_drop b v es :
  contig b es -> b <= v <= b + Z.of_nat (length es) -> contig v (drop (Z.to_nat (v - b)) es).
Proof.
  intros Hc Hv. rewrite <- (take_drop (Z.to_nat (v - b)) es) in Hc. apply contig_app in Hc as [_ Hc].
  rewrite length_take in Hc. by replace (b + _) with v in Hc by lia.
Qed.

Lemma wire_entry_known e : wire_entry e -> known_op e.
Proof. unfold wire_entry, known_op. naive_solver. Qed.

Lemma wp_any {T E A} (c : M T E A) (Q : outcome E A -> T -> Prop) s : (forall o s', Q o s') -> wp c Q s.
Proof. intros HQ. apply wp_intro. auto. Qed.

Lemma recovery_apply_state resp s :
  wp (recovery_apply resp) (fun o s' => forall k, o = Ret k -> rRecoveryState (fst s') = RecoveryStateHealthy) s.
Proof.
  unfold recovery_apply. destruct (rvType resp); [done|..].
  - apply wp_bind, wp_get, wp_bind, wp_any. intros [[]|e|] s1; [|done|done].
    apply wp_bind, wp_any. intros [[]|e|] s2; [|done|done]. by apply wp_bind, wp_modify, wp_ret.
  - apply wp_bind, wp_any. intros [[]|e|] s2; [|done|done]. by apply wp_bind, wp_modify, wp_ret.
Qed.

Section recovery_succeeds.
Context (order : gmap string string -> list (string * string)) (Horder : iterates order).

(** What the leader answers is applied. *)
Lemma twp_recovery_apply base kv0 hist leader r W resp :
  refines base kv0 hist (rSM leader) -> Forall wire_entry hist -> 0 <= base -> rVersion leader < two64 - 1 ->
  (base <= rVersion r -> terms_up (rTerm r) (drop (Z.to_nat (rVersion r - base)) hist)) -> works (r, W) ->
  recovery_offer order base hist leader (rVersion r) resp ->
  twp (recovery_apply resp) (fun _ s' => works s') (r, W).
Proof.
  intros (Hl & Hver & _) Hwire Hb Hmax Hterms Hw [Hrange|]; unfold recovery_apply; cbn [rvType rvEntries].
  - set (missing := drop (Z.to_nat (rVersion r - base)) hist) in *.
    assert (Hwire' : Forall wire_entry missing) by apply Forall_drop, Hwire.
    assert (Hback : entryFromProto <$> entriesToProto missing = missing) by by apply entryFromProto_toProto.
    assert (Hlen : rVersion r + Z.of_nat (length (entriesToProto missing)) = rVersion leader).
    { unfold entriesToProto, missing. rewrite length_fmap, length_drop. unfold rVersion in *. lia. }
    assert (Hcon : contig (rVersion r) missing) by (apply contig_drop; [apply Hl|unfold rVersion in *; lia]).
    apply twp_bind, twp_get. cbn [fst]. rewrite u64_succ_lt by (unfold u64; lia).
    rewrite (contig_check_gap (rVersion r)) by (rewrite ?Hback; done || lia). simpl.
    apply twp_bind, twp_ret, twp_bind.
    eapply twp_mono; [apply twp_apply_entries; rewrite ?Hback; try done; [lia|lia|apply Hterms; lia|]|].
    { eapply Forall_impl; [exact Hwire'|]. apply wire_entry_known. }
    cbn beta. intros _ s' Hw'. by apply twp_bind, twp_modify, twp_ret.
  - apply twp_bind, twp_map_err, twp_zoom. cbn [fst snd]. destruct Hw as [Hs _].
    eapply twp_mono; [by apply twp_SM_ApplySnapshot|]. cbn beta. intros _ [sm' W'] Hw'.
    by apply twp_bind, twp_modify, twp_ret.
Qed.

(** C12: A lagging follower catches up in one turn of the recovery loop.  Its
    leader is reachable and answers as leader, its disk works, and the entries it
    is missing are of no older term than it has adopted: then the attempt
    succeeds, by entries or by snapshot, and leaves the follower ready and
    healthy with exactly the version and contents of the leader.  A follower that
    is not ahead must hold a prefix of the leader's writes; one that is ahead is
    rolled back. *)
Theorem recovery_tick_catches_up base kv0 hist leader r W addr :
  refines base kv0 hist (rSM leader) -> Forall wire_entry hist ->
  0 <= base -> rVersion leader < two64 - 1 -> 0 <= rVersion r ->
  rRole leader = RoleLeader -> rIsReady r = false -> rBootstrapShardID r = "" -> addr <> "" ->
  (base <= rVersion r <= rVersion leader ->
     rContents r = foldl kv_step kv0 (take (Z.to_nat (rVersion r - base)) hist)) ->
  (base <= rVersion r -> terms_up (rTerm r) (drop (Z.to_nat (rVersion r - base)) hist)) ->
  works (r, W) ->
  exists kind r' W', recovery_tick addr (fun _ _ v => match Recover order v leader with Ok resp => Some resp | Fail _ => None end)
      (r, W) = (Ret (Some kind), (r', W')) /\ works (r', W') /\
    rVersion r' = rVersion leader /\ rContents r' = rContents leader /\
    rIsReady r' = true /\ rRecoveryState r' = RecoveryStateHealthy.
Proof.
  intros Href Hwire Hb Hmax Hv Hrole Hready Hboot Haddr Hprefix Hterms Hw.
  assert (Hoffer : exists resp, Recover order (rVersion r) leader = Ok resp /\
                     recovery_offer order base hist leader (rVersion r) resp).
  { destruct (Recover order (rVersion r) leader) as [resp|e] eqn:Hrec.
    - exists resp. split; [done|]. eapply Recover_offer; [done|lia|done|done].
    - unfold Recover in Hrec. rewrite decide_False in Hrec by naive_solver. repeat case_match; done. }
  destruct Hoffer as (resp & Hrec & Hoffer).
  enough (Htwp : twp (recovery_tick addr (fun _ _ v => match Recover order v leader with Ok resp => Some resp | Fail _ => None end))
    (fun o s' => is_Some o /\ works s' /\ rVersion (fst s') = rVersion leader /\ rContents (fst s') = rContents leader /\
       rIsReady (fst s') = true /\ rRecoveryState (fst s') = RecoveryStateHealthy) (r, W)).
  { destruct (twp_use _ _ _ Htwp) as (o & [r' W'] & ? & [kind ->] & ?). by exists kind, r', W'. }
  unfold recovery_tick. apply twp_bind, twp_get. cbn [fst]. rewrite Hready, Hboot.
  rewrite (bool_decide_eq_false_2 ("" <> "")) by naive_solver. cbn [andb].
  rewrite (decide_False (P := addr = "")) by done. cbn beta iota zeta. rewrite decide_False by done.
  apply twp_bind, twp_modify. cbn [fst snd].
  match goal with |- twp _ _ (?x, W) => set (r1 := x) end.
  apply twp_bind, twp_attempt. unfold doIncrementalRecovery. apply twp_bind, twp_get. cbn [fst].
  unfold recovery_request. change (rBootstrapShardID r1) with (rBootstrapShardID r). rewrite Hboot.
  rewrite decide_False by naive_solver. change (rVersion r1) with (rVersion r). rewrite Hrec.
  eapply twp_mono; [apply twp_and; [apply twp_and|apply recovery_apply_state]|].
  - by eapply (twp_recovery_apply base kv0 hist leader r1).
  - by eapply (wp_recovery_apply order Horder base kv0 hist leader r1).
  - cbn beta. intros k [r2 W2] [[Hw2 Hdata] Hstate]. apply twp_bind, twp_modify, twp_ret. cbn [fst snd].
    destruct (Hdata k eq_refl) as (? & ? & ?). split_and!; [by eexists|done..|]. by apply (Hstate k).
Qed.
End recovery_succeeds.

(** ** Election, heartbeat and write in a row *)

Definition voted (now : Z) (req : VoteRequest) (x : node) : node := ((RequestVote now req (fst x)).2, snd x).

Lemma requestVotes_cluster now net req ps c :
  NoDup ps -> forall p, (requestVotes now net req ps c).2 !! p =
    if decide (p ∈ ps /\ reaches net p = true) then voted now req <$> c !! p else c !! p.
Proof.
  intros Hnd. revert c. induction Hnd as [|q ps Hq Hnd IH]; intros c p; cbn [requestVotes].
  { rewrite decide_False; [done|]. set_solver. }
  destruct (sendVoteRequest now (net q) req q c) as [reply c1] eqn:Hs. specialize (IH c1 p).
  destruct (requestVotes now net req ps c1) as [replies c2]. cbn [snd] in *. rewrite IH.
  assert (Hc1 : c1 = if reaches net q then alter (voted now req) q c else c).
  { unfold sendVoteRequest, reaches in *. destruct (c !! q) as [[r W]|] eqn:Hc.
    - rewrite (alter_present _ _ _ _ Hc). unfold voted. cbn [fst snd].
      destruct (RequestVote now req r) as [resp r']. destruct (net q); by simplify_eq.
    - rewrite (alter_absent _ _ _ Hc). destruct (net q); by simplify_eq. }
  subst c1. destruct (decide (p = q)) as [->|Hp].
  - rewrite decide_False by naive_solver. destruct (reaches net q) eqn:Hr.
    + rewrite lookup_alter_eq, decide_True; [done|]. split; [apply list_elem_of_here|done].
    + by rewrite decide_False by naive_solver.
  - assert (Hsame : (if reaches net q then alter (voted now req) q c else c) !! p = c !! p)
      by (destruct (reaches net q); [by rewrite lookup_alter_ne|done]).
    rewrite Hsame. apply decide_ext. rewrite elem_of_cons. naive_solver.
Qed.

Lemma voted_term now req r W :
  rTerm r <= vqTerm req -> rTerm (fst (voted now req (r, W))) = vqTerm req.
Proof.
  intros Ht. unfold voted, RequestVote. cbn [fst snd]. destruct (Z.ltb_spec (vqTerm req) (rTerm r)); [lia|].
  set (r1 := if rTerm r <? vqTerm req then _ else r).
  assert (H1 : rTerm r1 = vqTerm req) by (unfold r1; destruct (Z.ltb_spec (rTerm r) (vqTerm req)); [done|lia]).
  case_decide; [done|]. by case_match.
Qed.

(** What a vote leaves of a peer: its data and its disk. *)
Lemma voted_data now req r W :
  works (r, W) -> works (voted now req (r, W)) /\ rVersion (fst (voted now req (r, W))) = rVersion r.
Proof.
  intros Hw. unfold voted, RequestVote. cbn [fst snd]. destruct (vqTerm req <? rTerm r); [done|].
  set (r1 := if rTerm r <? vqTerm req then _ else r).
  assert (H1 : works (r1, W) /\ rVersion r1 = rVersion r) by (unfold r1; by destruct (rTerm r <? vqTerm req)).
  case_decide; [done|]. by case_match.
Qed.

Lemma beaten_works now req x : works x -> works (beaten now req x).
Proof.
  destruct x as [r W]. unfold beaten, LeaderHeartbeat, adopt_term, works. cbn [fst snd].
  destruct (_ <? _); [done|]. by destruct (_ <? _).
Qed.

(** A peer that takes part: it can be addressed and reached, its disk works, it
    is not in a later term, and it is as far as the candidate. *)
Definition in_step (addrs : gmap string string) (net : string -> delivery) (r : ReplicaState) (c : cluster)
    (p : string) : Prop :=
  p ∈ rPeers r /\ is_Some (addrs !! p) /\ net p = Delivered /\
  exists x W, c !! p = Some (x, W) /\ works (x, W) /\ rTerm x <= rTerm r /\ rVersion x = rVersion r.

Lemma live_peers_bound (peers : list string) addrs last now window :
  (size (LivePeers (planQuorum (peer_addresses peers addrs) last now window)) <= length peers)%nat.
Proof.
  rewrite <- size_dom. etrans; [apply (subseteq_size _ (list_to_set peers))|].
  - intros p [a Ha]%elem_of_dom. apply elem_of_list_to_set. revert Ha. unfold planQuorum. cbn [LivePeers].
    destruct (window <=? 0); [|intros [Ha _]%map_lookup_filter_Some; revert Ha];
      by intros [_ ?]%map_lookup_filter_Some.
  - clear. induction peers as [|p peers IH]; [done|]. cbn [list_to_set length].
    rewrite size_union_alt, size_singleton.
    assert (Hle : (size ((list_to_set peers : gset string) ∖ {[p]}) <= size (list_to_set peers : gset string))%nat)
      by (apply subseteq_size; set_solver). lia.
Qed.

Lemma live_in_plan peers addrs last now window t p :
  p ∈ peers -> is_Some (addrs !! p) -> last !! p = Some t -> time_Sub now t <= window ->
  is_Some (LivePeers (planQuorum (peer_addresses peers addrs) last now window) !! p).
Proof.
  intros Hp [a Ha] Hl Ht. exists a. assert (Hpa : peer_addresses peers addrs !! p = Some a)
    by (by apply map_lookup_filter_Some).
  unfold planQuorum. cbn [LivePeers]. destruct (window <=? 0); [done|].
  apply map_lookup_filter_Some. split; [done|]. unfold live_peer. cbn [fst]. rewrite Hl. by apply Z.leb_le.
Qed.

(** A majority of the configured replicas is enough for any plan. *)
Lemma needed_bound peers addrs last now window k :
  quorum_size peers <= 1 + k -> NeededFollowers (planQuorum (peer_addresses peers addrs) last now window) <= k.
Proof.
  pose proof (live_peers_bound peers addrs last now window) as Hb. unfold quorum_size. intros Hq.
  unfold planQuorum in *. cbn [NeededFollowers LivePeers] in *. set (n := size _) in *.
  assert ((Z.of_nat n + 1) / 2 <= (Z.of_nat (length peers) + 1) / 2) by (apply Z.div_le_mono; lia). lia.
Qed.

(** The peer after the election and the first heartbeat of the new term. *)
Lemma follower_after_takeover now1 now2 req hb x W :
  rTerm x <= vqTerm req -> hqTerm hb = vqTerm req -> works (x, W) ->
  works (beaten now2 hb (voted now1 req (x, W))) /\
  rTerm (fst (beaten now2 hb (voted now1 req (x, W)))) = vqTerm req /\
  rVersion (fst (beaten now2 hb (voted now1 req (x, W)))) = rVersion x.
Proof.
  intros Ht Hhb Hw. destruct (voted_data now1 req x W Hw) as [Hw1 Hv1].
  pose proof (voted_term now1 req x W Ht) as Ht1.
  destruct (LeaderHeartbeat_accepts now2 hb (fst (voted now1 req (x, W)))) as (_ & Ht2 & _ & _ & [Hv2 _]); [lia|].
  split; [by apply beaten_works|]. unfold beaten. cbn [fst]. split; [lia|]. by rewrite Hv2.
Qed.

(** C8: A shard that has lost its leader serves writes again.  A candidate and
    the peers [L] are a majority of the configured replicas, can reach each
    other, have working disks and are at the same version; nobody is in a later
    term.  Then the candidate wins the election, its first heartbeat reaches the
    peers, and a write within two heartbeat intervals of it is acknowledged, with
    all of [L] among the followers counted. *)
Theorem takeover_serves_writes now1 now2 now3 order env req r W c L :
  visits order -> visits (weOrder env) ->
  rRole r <> RoleLeader -> 0 <= rTerm r < two64 - 1 -> 0 <= rVersion r < two64 - 1 ->
  rShardMapVersion r = weMapVersion env -> works (r, W) -> known_op (write_entry r req) ->
  NoDup L -> (forall p, p ∈ L -> in_step (weAddresses env) (weNet env) r c p) ->
  (forall p, not_later c (rTerm r + 1) p) ->
  quorum_size (rPeers r) <= 1 + Z.of_nat (length L) ->
  time_Sub now3 now2 <= wrap_int64 (weLeaderHeartbeat env * 2) ->
  exists r1 c1 r2 c2 res x' c',
    startElection now1 (weAddresses env) order (weNet env) (r, c) = (ElectionWon, (r1, c1)) /\
    heartbeat_round now2 (weAddresses env) order (weNet env) (r1, c1) = (r2, c2) /\
    leaderWrite now3 env req ((r2, W), c2) = (Ret res, (x', c')) /\
    AppliedVersion res = rVersion r + 1 /\ Z.of_nat (length L) <= AckedFollowers res.
Proof.
  intros Horder Horder' Hrole Ht Hv Hmap Hw Hk HL Hstep Hlater Hq Htime.
  assert (Hwon := startElection_run now1 (weAddresses env) order (weNet env) r c L Horder Hrole Ht HL).
  destruct (Horder (peer_addresses (rPeers r) (weAddresses env))) as [Hnd Hin].
  set (ps := order (peer_addresses (rPeers r) (weAddresses env))) in *.
  assert (Hc1 := requestVotes_cluster now1 (weNet env) (vote_request r) ps c Hnd).
  set (c1 := (requestVotes now1 (weNet env) (vote_request r) ps c).2) in *. set (r1 := promoted now1 r) in *.
  assert (Hlater1 : forall p, not_later c1 (rTerm r + 1) p).
  { intros p x Wx Hx. rewrite Hc1 in Hx. case_decide; [|by eapply Hlater].
    apply fmap_Some in Hx as ([y Wy] & Hy & Heq). apply (f_equal fst) in Heq. cbn [fst] in Heq. subst x.
    rewrite voted_term; [done|]. by eapply Hlater. }
  set (hb := mkHeartbeatRequest (rTerm r + 1) (rVersion r) (rNodeID r) (rShardID r)).
  destruct (heartbeat_fanout_spec now2 (weNet env) hb ps r1 c1 Hnd eq_refl ltac:(simpl; lia) Hlater1)
    as (m & c2 & Hbeat & Hm & Hc2).
  assert (Hpeer : forall p, p ∈ L -> p ∈ ps /\ reaches (weNet env) p = true).
  { intros p Hp. destruct (Hstep p Hp) as (? & [a Ha] & Hd & _). split; [|unfold reaches; by rewrite Hd].
    apply Hin. exists a. by apply map_lookup_filter_Some. }
  set (r2 := r1 <| rPeerLastContact := m |>).
  destruct (leaderWrite_acks now3 env req r2 W c2 L) as (res & x' & c' & Hwrite & _ & Happ & Hacked); try done.
  - intros p Hp. destruct (Hstep p Hp) as (Hpp & Ha & Hd & x & Wx & Hx & Hwx & Htx & Hvx).
    destruct (Hpeer p Hp) as [Hps Hr]. split.
    + apply (live_in_plan _ _ _ _ _ now2); [done|done| |done]. change (rPeerLastContact r2) with m.
      rewrite Hm, decide_True by done. unfold noted. rewrite decide_True; [done|]. split; [done|].
      rewrite Hc1, decide_True, Hx by done. by eexists.
    + destruct (follower_after_takeover now1 now2 (vote_request r) hb x Wx) as (Hw3 & Ht3 & Hv3); [simpl; lia|done|done|].
      split; [done|]. set (y := beaten now2 hb (voted now1 (vote_request r) (x, Wx))) in *. exists (fst y), (snd y).
      rewrite <- surjective_pairing. split; [|split_and!; [exact Hw3|by rewrite Ht3|right; by rewrite Hv3, Hvx]].
      by rewrite Hc2, decide_True, Hc1, decide_True, Hx by done.
  - apply needed_bound. exact Hq.
  - exists r1, c1, r2, c2, res, x', c'. split_and!; try done.
    + apply Hwon; try done; intros p Hp; destruct (Hstep p Hp) as (? & ? & ? & x & Wx & ? & ? & ? & ?); [done|].
      split; [done|]. exists x, Wx. split_and!; [done|lia|lia].
Qed.

(** ** Concrete runs *)

(** [n3]'s reply is lost; [n2] is enough. *)
Lemma leaderWrite_succeeds_witness :
  exists res x' c', leaderWrite 200 write_env1 (mkKVRequest "put" "k" "v") ((write_leader, healthy ∅), write_others) =
      (Ret res, (x', c')) /\ works x' /\ AppliedVersion res = 0 + 1 /\ 1 <= AckedFollowers res.
Proof.
  apply (leaderWrite_succeeds 200 write_env1 (mkKVRequest "put" "k" "v") write_leader (healthy ∅) write_others ["n2"]).
  - exact key_order_visits.
  - by vm_compute.
  - by left.
  - done.
  - done.
  - done.
  - apply NoDup_singleton.
  - intros p ->%list_elem_of_singleton. destruct (write_others_peer "n2") as (_ & _ & Hx); [apply list_elem_of_here|].
    split; [apply (bool_decide_eq_true_1 _); by vm_compute|]. split; [done|].
    exists (fst (write_follower "n2")), (snd (write_follower "n2")).
    split_and!; [by rewrite <- surjective_pairing|done|by vm_compute|right; by vm_compute].
  - by vm_compute.
Defined.

Lemma recovery_tick_catches_up_witness :
  exists kind r' W', recovery_tick "n1:1" (fun _ _ v => match Recover map_to_list v leader1 with Ok resp => Some resp | Fail _ => None end)
      (follower1, healthy ∅) = (Ret (Some kind), (r', W')) /\ works (r', W') /\
    rVersion r' = 3 /\ rContents r' = rContents leader1 /\ rIsReady r' = true /\ rRecoveryState r' = RecoveryStateHealthy.
Proof.
  apply (recovery_tick_catches_up map_to_list (fun m => Permutation_refl _) 0 ∅ three_entries leader1 follower1 (healthy ∅) "n1:1").
  - exact leader1_refines.
  - repeat apply Forall_cons_2; [by left|by left|by right|apply Forall_nil_2].
  - done.
  - done.
  - done.
  - done.
  - done.
  - done.
  - done.
  - intros _. by vm_compute.
  - intros _. by split_and!.
  - done.
Defined.

Definition candidate1 : ReplicaState := asking <| rShardMapVersion := 1 |>.

Lemma takeover_serves_writes_witness :
  exists r1 c1 r2 c2 res x' c',
    startElection 5 (weAddresses write_env1) key_order (weNet write_env1) (candidate1, write_others) = (ElectionWon, (r1, c1)) /\
    heartbeat_round 6 (weAddresses write_env1) key_order (weNet write_env1) (r1, c1) = (r2, c2) /\
    leaderWrite 7 write_env1 (mkKVRequest "put" "k" "v") ((r2, healthy ∅), c2) = (Ret res, (x', c')) /\
    AppliedVersion res = 0 + 1 /\ 1 <= AckedFollowers res.
Proof.
  apply (takeover_serves_writes 5 6 7 key_order write_env1 (mkKVRequest "put" "k" "v") candidate1 (healthy ∅) write_others ["n2"]).
  - exact key_order_visits.
  - exact key_order_visits.
  - done.
  - by vm_compute.
  - by vm_compute.
  - done.
  - done.
  - by left.
  - apply NoDup_singleton.
  - intros p ->%list_elem_of_singleton. destruct (write_others_peer "n2") as (Hp & Ha & Hx); [apply list_elem_of_here|].
    split_and!; [exact Hp|exact Ha|done|]. exists (fst (write_follower "n2")), (snd (write_follower "n2")).
    split_and!; [by rewrite <- surjective_pairing|done|by vm_compute|by vm_compute].
  - intros p. apply write_others_terms. by vm_compute.
  - by vm_compute.
  - by vm_compute.
Defined.
