(* ===== verification/ShardMap.v ===== *)
(** The coordinator's shard map, src/internal/shardmap/shardmap.go.

    The slices inside a [ShardInfo] are never written in place (every update
    installs a fresh copy), so the copies [Get] and [All] hand out are values
    here.  A loop over the map takes its visiting order as an argument. *)

From S2P Require Import Prelude.

Record ShardInfo := mkShard {
  shID : string;
  shReplicas : list string;
  shLeader : string;
  shBootstrapSource : string;
  shIncoming : list string;
}.
#[global] Instance ShardInfo_eta : Eta ShardInfo := fun s =>
  mkShard (shID s) (shReplicas s) (shLeader s) (shBootstrapSource s) (shIncoming s).
#[global] Instance ShardInfo_eq_dec : EqDecision ShardInfo.
Proof. solve_decision. Defined.

Definition shQuorum (s : ShardInfo) : Z := Z.of_nat (length (shReplicas s)) / 2 + 1.
Definition HasReplica (s : ShardInfo) (nodeID : string) : bool := bool_decide (nodeID ∈ shReplicas s).

Record ShardMap := mkShardMap {
  mapVersion : Z;
  mapShards : gmap string ShardInfo;
}.
#[global] Instance ShardMap_eta : Eta ShardMap := fun m => mkShardMap (mapVersion m) (mapShards m).

Inductive maperr :=
| ShardNotFound (id : string)
| ShardExists (id : string)
| NotAReplica (node id : string)
| NoLeader (id : string).

Definition ShardMap_New : ShardMap := mkShardMap 0 ∅.
Definition ShardMap_Version (m : ShardMap) : Z := mapVersion m.

Definition ShardMap_Get (m : ShardMap) (id : string) : result maperr ShardInfo :=
  match mapShards m !! id with None => Fail (ShardNotFound id) | Some s => Ok s end.

Section iteration.
Context (order : gmap string ShardInfo -> list (string * ShardInfo)).

Definition ShardMap_All (m : ShardMap) : list ShardInfo := (order (mapShards m)).*2.

Definition ShardsForNode (m : ShardMap) (nodeID : string) : list ShardInfo :=
  filter (fun s => HasReplica s nodeID = true) (order (mapShards m)).*2.

Definition ShardMap_Snapshot (m : ShardMap) : Z * list ShardInfo := (mapVersion m, (order (mapShards m)).*2).
End iteration.

(** Install a shard and count the mutation. *)
Definition put_shard (id : string) (s : ShardInfo) (m : ShardMap) : ShardMap :=
  mkShardMap (u64_succ (mapVersion m)) (<[id := s]> (mapShards m)).

Definition AddShard (m : ShardMap) (info : ShardInfo) : result maperr ShardMap :=
  match mapShards m !! shID info with
  | Some _ => Fail (ShardExists (shID info))
  | None => Ok (put_shard (shID info) info m)
  end.

Definition SetLeader (m : ShardMap) (id nodeID : string) : result maperr ShardMap :=
  match mapShards m !! id with
  | None => Fail (ShardNotFound id)
  | Some s =>
      if decide (nodeID ∈ shReplicas s) then Ok (put_shard id (s <| shLeader := nodeID |>) m)
      else Fail (NotAReplica nodeID id)
  end.

Definition SetReplicas (m : ShardMap) (id : string) (replicas : list string) : result maperr ShardMap :=
  match mapShards m !! id with
  | None => Fail (ShardNotFound id)
  | Some s =>
      let s := s <| shReplicas := replicas |> in
      Ok (put_shard id (if decide (shLeader s <> "" /\ shLeader s ∉ shReplicas s)
                        then s <| shLeader := "" |> else s) m)
  end.

Definition SetIncomingReplicas (m : ShardMap) (id : string) (incoming : list string) : result maperr ShardMap :=
  match mapShards m !! id with
  | None => Fail (ShardNotFound id)
  | Some s => Ok (put_shard id (s <| shIncoming := incoming |>) m)
  end.

Definition ClearBootstrapSource (m : ShardMap) (id : string) : result maperr ShardMap :=
  match mapShards m !! id with
  | None => Fail (ShardNotFound id)
  | Some s =>
      if decide (shBootstrapSource s = "") then Ok m
      else Ok (put_shard id (s <| shBootstrapSource := "" |>) m)
  end.

Definition RemoveShard (m : ShardMap) (id : string) : result maperr ShardMap :=
  match mapShards m !! id with
  | None => Fail (ShardNotFound id)
  | Some _ => Ok (mkShardMap (u64_succ (mapVersion m)) (delete id (mapShards m)))
  end.

Definition LeaderFor (m : ShardMap) (id : string) : result maperr string :=
  try s <- ShardMap_Get m id;
  if decide (shLeader s = "") then Fail (NoLeader id) else Ok (shLeader s).

(** ** Well-formed maps *)

(** The leader of a shard, if it has one, is one of its replicas. *)
Definition leader_ok (s : ShardInfo) : Prop := shLeader s = "" \/ shLeader s ∈ shReplicas s.

Definition map_wf (m : ShardMap) : Prop :=
  u64 (mapVersion m) /\ map_Forall (fun id s => shID s = id /\ leader_ok s) (mapShards m).

Lemma map_wf_new : map_wf ShardMap_New.
Proof. split; [done|apply map_Forall_empty]. Qed.

Lemma map_wf_lookup m id s : map_wf m -> mapShards m !! id = Some s -> shID s = id /\ leader_ok s.
Proof. intros [_ Hf] Hs. exact (Hf id s Hs). Qed.

Lemma map_wf_put m id s : map_wf m -> shID s = id -> leader_ok s -> map_wf (put_shard id s m).
Proof.
  intros [_ Hf] Hid Hl. split; [apply u64_succ_range|]. simpl. by apply map_Forall_insert_2.
Qed.

(** ** The mutations *)

Inductive map_op :=
| OpAddShard (info : ShardInfo)
| OpSetLeader (id nodeID : string)
| OpSetReplicas (id : string) (replicas : list string)
| OpSetIncoming (id : string) (incoming : list string)
| OpClearBootstrap (id : string)
| OpRemoveShard (id : string).

Definition map_run (op : map_op) (m : ShardMap) : result maperr ShardMap :=
  match op with
  | OpAddShard info => AddShard m info
  | OpSetLeader id n => SetLeader m id n
  | OpSetReplicas id rs => SetReplicas m id rs
  | OpSetIncoming id rs => SetIncomingReplicas m id rs
  | OpClearBootstrap id => ClearBootstrapSource m id
  | OpRemoveShard id => RemoveShard m id
  end.

(** A failed mutation leaves the map alone. *)
Definition map_exec (m : ShardMap) (op : map_op) : ShardMap :=
  match map_run op m with Ok m' => m' | Fail _ => m end.

Definition map_target (op : map_op) : string :=
  match op with
  | OpAddShard info => shID info
  | OpSetLeader id _ | OpSetReplicas id _ | OpSetIncoming id _ | OpClearBootstrap id | OpRemoveShard id => id
  end.

(** Adding a shard is the one mutation that trusts its caller with the leader. *)
Definition map_op_ok (op : map_op) : Prop :=
  match op with OpAddShard info => leader_ok info | _ => True end.

(** Every mutation does nothing, or counts one version and changes one shard. *)
Lemma map_run_cases op m m' :
  map_run op m = Ok m' ->
  m' = m \/
  mapVersion m' = u64_succ (mapVersion m) /\
  (forall id, id <> map_target op -> mapShards m' !! id = mapShards m !! id).
Proof.
  destruct op; simpl; unfold AddShard, SetLeader, SetReplicas, SetIncomingReplicas, ClearBootstrapSource, RemoveShard;
    repeat case_match; intros; simplify_eq; try (by left); right; (split; [done|]); intros j Hj; simpl.
  all: first [by rewrite lookup_insert_ne by congruence | by rewrite lookup_delete_ne by congruence].
Qed.

Lemma leader_ok_set_replicas s rs :
  leader_ok (if decide (shLeader (s <| shReplicas := rs |>) <> "" /\
                        shLeader (s <| shReplicas := rs |>) ∉ shReplicas (s <| shReplicas := rs |>))
             then s <| shReplicas := rs |> <| shLeader := "" |> else s <| shReplicas := rs |>).
Proof.
  case_decide as Hd; [by left|]. unfold leader_ok. simpl in *.
  destruct (decide (shLeader s = "")); [by left|]. right.
  destruct (decide (shLeader s ∈ rs)); [done|naive_solver].
Qed.

(** *** Filing and leaders apart

    The shard map of a configuration whose initial leaders are not replicas is
    not well formed, but its shards are still filed under their ids. *)

Definition map_filed (m : ShardMap) : Prop :=
  u64 (mapVersion m) /\ map_Forall (fun id s => shID s = id) (mapShards m).

(** A leader is a replica, or was named for the shard. *)
Definition leaders_from (named : string -> string -> Prop) (m : ShardMap) : Prop :=
  map_Forall (fun id s => leader_ok s \/ named id (shLeader s)) (mapShards m).

Definition map_op_from (named : string -> string -> Prop) (op : map_op) : Prop :=
  match op with OpAddShard info => leader_ok info \/ named (shID info) (shLeader info) | _ => True end.

Lemma map_wf_iff m : map_wf m <-> map_filed m /\ leaders_from (fun _ _ => False) m.
Proof.
  unfold map_wf, map_filed, leaders_from. split.
  - intros [Hv Hf]. split_and!; [done|..]; intros id s Hs; destruct (Hf id s Hs); by auto.
  - intros [[Hv Hf] Hl]. split; [done|]. intros id s Hs. split; [by apply Hf|]. by destruct (Hl id s Hs).
Qed.

Lemma map_wf_filed m : map_wf m -> map_filed m.
Proof. by intros [? _]%map_wf_iff. Qed.

(** What a mutation may do to a shard. *)
Definition kept_shard (s s' : ShardInfo) : Prop :=
  shID s' = shID s /\ (leader_ok s' \/ shLeader s' = shLeader s /\ shReplicas s' = shReplicas s).

(** Where the shards of the map come from after a mutation. *)
Lemma map_run_shards op m m' id s' :
  map_run op m = Ok m' -> mapShards m' !! id = Some s' ->
  (exists s, mapShards m !! id = Some s /\ kept_shard s s') \/ op = OpAddShard s' /\ shID s' = id.
Proof.
  assert (Hold : mapShards m !! id = Some s' -> exists s, mapShards m !! id = Some s /\ kept_shard s s')
    by (intros Hs; exists s'; split; [done|]; split; [done|by right]).
  assert (Hput : forall k t t', mapShards m !! k = Some t -> kept_shard t t' -> <[k := t']> (mapShards m) !! id = Some s' ->
    exists s, mapShards m !! id = Some s /\ kept_shard s s').
  { intros k t t' Hk Hkept [[<- <-]|[_ ?]]%lookup_insert_Some; eauto. }
  destruct op as [info|k n|k rs|k rs|k|k]; simpl;
    unfold AddShard, SetLeader, SetReplicas, SetIncomingReplicas, ClearBootstrapSource, RemoveShard;
    [destruct (mapShards m !! shID info) as [t|] eqn:Ht|destruct (mapShards m !! k) as [t|] eqn:Ht..]; try done.
  - intros [= <-]. simpl. intros [[<- <-]|[_ ?]]%lookup_insert_Some; auto.
  - case_decide; [|done]. intros [= <-] Hs'. left. refine (Hput _ _ _ Ht _ Hs'). split; [done|left; by right].
  - intros [= <-] Hs'. left. refine (Hput _ _ _ Ht _ Hs'). split; [by case_decide|left; apply leader_ok_set_replicas].
  - intros [= <-] Hs'. left. refine (Hput _ _ _ Ht _ Hs'). split; [done|by right].
  - case_decide; intros [= <-] Hs'; [by auto|]. left. refine (Hput _ _ _ Ht _ Hs'). split; [done|by right].
  - intros [= <-]. simpl. intros [_ ?]%lookup_delete_Some. auto.
Qed.

Lemma map_run_filed op m m' : map_filed m -> map_run op m = Ok m' -> map_filed m'.
Proof.
  intros [Hv Hf] Hr. split.
  - destruct (map_run_cases op m m' Hr) as [->|[-> _]]; [done|apply u64_succ_range].
  - intros id s' Hs'. destruct (map_run_shards _ _ _ _ _ Hr Hs') as [(s & Hs & -> & _)|[_ ?]]; [by apply Hf|done].
Qed.

Lemma map_run_leaders named op m m' :
  leaders_from named m -> map_op_from named op -> map_run op m = Ok m' -> leaders_from named m'.
Proof.
  intros Hl Hop Hr id s' Hs'.
  destruct (map_run_shards _ _ _ _ _ Hr Hs') as [(s & Hs & _ & [?|[Hsl Hsr]])|[-> <-]]; [by left| |done].
  unfold leader_ok. rewrite Hsl, Hsr. exact (Hl id s Hs).
Qed.

Lemma map_run_wf op m m' : map_wf m -> map_op_ok op -> map_run op m = Ok m' -> map_wf m'.
Proof.
  rewrite !map_wf_iff. intros [Hf Hl] Hop Hr. split; [by eapply map_run_filed|].
  eapply map_run_leaders; [done| |done]. destruct op; [by left|done..].
Qed.


Lemma map_exec_versions ops m :
  u64 (mapVersion m) ->
  exists k, 0 <= k <= Z.of_nat (length ops) /\
    mapVersion (foldl map_exec m ops) = wrap64 (mapVersion m + k) /\
    (k = 0 -> mapShards (foldl map_exec m ops) = mapShards m).
Proof.
  revert m. induction ops as [|op ops IH]; intros m Hm; simpl.
  { exists 0. rewrite Z.add_0_r, wrap64_id by done. split_and!; [lia|lia|done|done]. }
  assert (Hstep : map_exec m op = m \/ mapVersion (map_exec m op) = u64_succ (mapVersion m)).
  { unfold map_exec. destruct (map_run op m) as [m'|e] eqn:Hr; [|by left].
    destruct (map_run_cases op m m' Hr) as [->|[? _]]; auto. }
  destruct Hstep as [->|Hv].
  - destruct (IH m Hm) as (k & Hk & Hver & Hsame). exists k. split_and!; [lia|lia|done|done].
  - destruct (IH (map_exec m op)) as (k & Hk & Hver & _); [rewrite Hv; apply u64_succ_range|].
    exists (k + 1). split_and!; [lia|lia| |lia]. rewrite Hver, Hv. unfold u64_succ, wrap64.
    rewrite Z.add_mod_idemp_l by done. f_equal. lia.
Qed.

(** The version tells a consumer whether its copy is stale: after any
    sequence of fewer than 2^64 mutations, if the version is what it was, the
    shards are what they were. *)
Theorem ShardMap_version_detects ops m :
  u64 (mapVersion m) -> Z.of_nat (length ops) < two64 ->
  mapVersion (foldl map_exec m ops) = mapVersion m ->
  mapShards (foldl map_exec m ops) = mapShards m.
Proof.
  intros Hm Hlen Heq. destruct (map_exec_versions ops m Hm) as (k & Hk & Hver & Hsame).
  apply Hsame. rewrite Heq in Hver. unfold wrap64 in Hver. unfold u64, two64 in *.
  pose proof (Z.div_mod (mapVersion m + k) 18446744073709551616). lia.
Qed.

(** ** Concrete maps *)

Definition shard1 : ShardInfo := mkShard "s1" ["n1"; "n2"; "n3"] "n1" "" [].
Definition map1 : ShardMap := put_shard "s1" shard1 ShardMap_New.

Lemma map1_wf : map_wf map1.
Proof. apply map_wf_put; [apply map_wf_new|done|]. right. apply (bool_decide_eq_true_1 _). by vm_compute. Qed.


Lemma ShardMap_version_detects_witness :
  mapShards (foldl map_exec map1 [OpSetLeader "s1" "n9"; OpClearBootstrap "s1"]) = mapShards map1.
Proof.
  apply (ShardMap_version_detects [OpSetLeader "s1" "n9"; OpClearBootstrap "s1"] map1); by vm_compute.
Defined.
