(* ===== verification/Membership.v ===== *)
(** The coordinator's view of node liveness, src/coordinator/membership.go.

    [now] is the reading of the coordinator's clock. *)

From S2P Require Import Prelude Config.

Record NodeStatus := mkNodeStatus {
  nstID : string;
  nstAddress : string;
  nstIsAlive : bool;
  nstLastHeartbeatAt : Z;
  nstShardVersions : gmap string Z;
}.
#[global] Instance NodeStatus_eta : Eta NodeStatus := fun n =>
  mkNodeStatus (nstID n) (nstAddress n) (nstIsAlive n) (nstLastHeartbeatAt n) (nstShardVersions n).

Record ShardStatus := mkShardStatus {
  hbShardID : string;
  hbRole : string;
  hbVersion : Z;
  hbIsReady : bool;
  hbTerm : Z;
}.

Record Membership := mkMembership {
  memNodes : gmap string NodeStatus;
  memTimeout : Z;
}.
#[global] Instance Membership_eta : Eta Membership := fun m => mkMembership (memNodes m) (memTimeout m).

Inductive memerr := UnknownNode (id : string).

Definition new_node (spec : NodeSpec) : NodeStatus := mkNodeStatus (nsID spec) (nsAddress spec) false 0 ∅.

Definition NewMembership (nodes : list NodeSpec) (failureTimeout : Z) : Membership :=
  mkMembership (foldl (fun m n => <[nsID n := new_node n]> m) ∅ nodes) failureTimeout.

Definition RecordHeartbeat (now : Z) (nodeID : string) (shards : list ShardStatus) (m : Membership)
    : result memerr Membership :=
  match memNodes m !! nodeID with
  | None => Fail (UnknownNode nodeID)
  | Some ns =>
      let ns := ns <| nstLastHeartbeatAt := now |>
                   <| nstShardVersions ::= fun vs => foldl (fun vs s => <[hbShardID s := hbVersion s]> vs) vs shards |> in
      Ok (m <| memNodes ::= <[nodeID := ns]> |>)
  end.

Definition alive_at (now timeout : Z) (ns : NodeStatus) : bool :=
  if time_IsZero (nstLastHeartbeatAt ns) then false
  else time_Sub now (nstLastHeartbeatAt ns) <? timeout.

Definition refresh (now timeout : Z) (ns : NodeStatus) : NodeStatus :=
  ns <| nstIsAlive := alive_at now timeout ns |>.

Section iteration.
Context (order : gmap string NodeStatus -> list (string * NodeStatus)).

(** The nodes whose status changed, and the registry afterwards. *)
Definition RefreshLiveness (now : Z) (m : Membership) : list NodeStatus * Membership :=
  (omap (fun p => let ns := refresh now (memTimeout m) p.2 in
                  if bool_decide (nstIsAlive ns = nstIsAlive p.2) then None else Some ns) (order (memNodes m)),
   m <| memNodes ::= fmap (refresh now (memTimeout m)) |>).

Definition Membership_All (m : Membership) : list NodeStatus := (order (memNodes m)).*2.

Definition AliveNodes (m : Membership) : list string :=
  (filter (fun p => nstIsAlive p.2 = true) (order (memNodes m))).*1.
End iteration.

Definition Membership_Get (m : Membership) (nodeID : string) : result memerr NodeStatus :=
  match memNodes m !! nodeID with None => Fail (UnknownNode nodeID) | Some ns => Ok ns end.

Definition AddNode (spec : NodeSpec) (m : Membership) : Membership :=
  match memNodes m !! nsID spec with
  | Some ns => m <| memNodes ::= <[nsID spec := ns <| nstAddress := nsAddress spec |>]> |>
  | None => m <| memNodes ::= <[nsID spec := new_node spec]> |>
  end.

Definition VersionForShard (m : Membership) (nodeID shardID : string) : Z :=
  match memNodes m !! nodeID with
  | None => 0
  | Some ns => default 0 (nstShardVersions ns !! shardID)
  end.

(** Whether a node is known and currently counted as alive. *)
Definition is_alive (m : Membership) (nodeID : string) : bool :=
  match Membership_Get m nodeID with Ok ns => nstIsAlive ns | Fail _ => false end.

(** ** Well-formed registries *)

(** Nodes are filed under their own id, which is not empty. *)
Definition mem_wf (m : Membership) : Prop :=
  map_Forall (fun id ns => nstID ns = id /\ id <> "") (memNodes m).

Lemma mem_wf_insert m id ns :
  mem_wf m -> nstID ns = id -> id <> "" -> mem_wf (m <| memNodes ::= <[id := ns]> |>).
Proof. intros Hwf Hid Hne. unfold mem_wf. simpl. by apply map_Forall_insert_2. Qed.

Lemma NewMembership_wf nodes timeout :
  Forall (fun n => nsID n <> "" /\ nsAddress n <> "") nodes -> mem_wf (NewMembership nodes timeout).
Proof.
  intros Hf. unfold NewMembership.
  assert (Hgen : forall m, mem_wf (mkMembership m timeout) ->
    mem_wf (mkMembership (foldl (fun m n => <[nsID n := new_node n]> m) m nodes) timeout));
    [|apply Hgen; apply map_Forall_empty].
  induction Hf as [|n nodes [Hn _] _ IH]; intros m Hm; simpl; [done|].
  apply IH. by apply (mem_wf_insert (mkMembership m timeout)).
Qed.

Lemma RecordHeartbeat_wf now id shards m m' :
  mem_wf m -> RecordHeartbeat now id shards m = Ok m' -> mem_wf m'.
Proof.
  intros Hwf. unfold RecordHeartbeat. destruct (memNodes m !! id) as [ns|] eqn:Hn; [|done].
  intros [= <-]. destruct (Hwf id ns Hn). by apply mem_wf_insert.
Qed.

Lemma RefreshLiveness_wf order now m : mem_wf m -> mem_wf (RefreshLiveness order now m).2.
Proof.
  intros Hwf id ns. simpl. rewrite lookup_fmap_Some. intros (ns0 & <- & Hn). exact (Hwf id ns0 Hn).
Qed.

Lemma AddNode_wf spec m : mem_wf m -> nsID spec <> "" -> mem_wf (AddNode spec m).
Proof.
  intros Hwf Hne. unfold AddNode. destruct (memNodes m !! nsID spec) as [ns|] eqn:Hn.
  - destruct (Hwf _ _ Hn). by apply mem_wf_insert.
  - by apply mem_wf_insert.
Qed.

Lemma is_alive_empty m : mem_wf m -> is_alive m "" = false.
Proof.
  intros Hwf. unfold is_alive, Membership_Get.
  destruct (memNodes m !! "") as [ns|] eqn:Hn; [|done]. by destruct (Hwf _ _ Hn).
Qed.

(** ** Failure detection *)

Lemma refreshed_alive order now m id ns :
  memNodes m !! id = Some ns ->
  is_alive (RefreshLiveness order now m).2 id = alive_at now (memTimeout m) ns.
Proof. intros Hn. unfold is_alive, Membership_Get. simpl. by rewrite lookup_fmap, Hn. Qed.

Lemma alive_at_iff now timeout ns :
  alive_at now timeout ns =
  bool_decide (nstLastHeartbeatAt ns <> 0 /\ time_Sub now (nstLastHeartbeatAt ns) < timeout).
Proof.
  unfold alive_at, time_IsZero. destruct (Z.eqb_spec (nstLastHeartbeatAt ns) 0).
  - rewrite bool_decide_eq_false_2; naive_solver.
  - destruct (Z.ltb_spec (time_Sub now (nstLastHeartbeatAt ns)) timeout);
      [rewrite bool_decide_eq_true_2|rewrite bool_decide_eq_false_2]; naive_solver lia.
Qed.

Lemma refreshed_changed order now m id ns :
  iterates order -> mem_wf m -> memNodes m !! id = Some ns ->
  id ∈ nstID <$> (RefreshLiveness order now m).1 <-> alive_at now (memTimeout m) ns <> nstIsAlive ns.
Proof.
  intros Ho Hwf Hn. simpl. rewrite list_elem_of_fmap. setoid_rewrite list_elem_of_omap. split.
  - intros (ns' & Hid & [k x] & Hin & Hx). apply (iterates_elem order) in Hin; [|done].
    destruct (Hwf _ _ Hin) as [Hk _]. simpl in *. by case_bool_decide; simplify_eq/=.
  - intros Hne. exists (refresh now (memTimeout m) ns). destruct (Hwf _ _ Hn) as [Hid _]. split; [done|].
    exists (id, ns). split; [by apply iterates_elem|]. simpl. by rewrite bool_decide_eq_false_2.
Qed.

(** After a refresh a node counts as alive exactly when it has been heard
    from less than the failure timeout ago; the versions it reported are kept,
    and the refresh reports exactly the nodes whose status changed, in whatever
    order the registry is visited. *)
Theorem RefreshLiveness_iff order now m id ns :
  iterates order -> mem_wf m -> memNodes m !! id = Some ns ->
  let '(changed, m') := RefreshLiveness order now m in
  is_alive m' id = bool_decide (nstLastHeartbeatAt ns <> 0 /\
                      time_Sub now (nstLastHeartbeatAt ns) < memTimeout m) /\
  (forall shard, VersionForShard m' id shard = VersionForShard m id shard) /\
  (id ∈ nstID <$> changed <-> is_alive m' id <> is_alive m id).
Proof.
  intros Ho Hwf Hn. pose proof (refreshed_alive order now m id ns Hn) as Ha.
  pose proof (refreshed_changed order now m id ns Ho Hwf Hn) as Hc.
  destruct (RefreshLiveness order now m) as [changed m'] eqn:Hr. cbn [fst snd] in Ha, Hc. split_and!.
  - by rewrite Ha, alive_at_iff.
  - intros shard. apply (f_equal snd) in Hr. simpl in Hr. subst m'. unfold VersionForShard. simpl.
    by rewrite lookup_fmap, Hn.
  - rewrite Hc, Ha. unfold is_alive, Membership_Get. by rewrite Hn.
Qed.

Definition nodes3 : list NodeSpec := [mkNodeSpec "n1" "n1:1"; mkNodeSpec "n2" "n2:1"; mkNodeSpec "n3" "n3:1"].
Definition status_of (shard : string) (version : Z) : ShardStatus := mkShardStatus shard "FOLLOWER" version true 1.

(** Three nodes, two of which have reported. *)
Definition members1 : Membership :=
  let beat id v m := match RecordHeartbeat 100 id [status_of "s1" v] m with Ok m => m | Fail _ => m end in
  (RefreshLiveness map_to_list 150 (beat "n3" 9 (beat "n2" 7 (NewMembership nodes3 1000)))).2.

Lemma members1_wf : mem_wf members1.
Proof. apply (bool_decide_eq_true_1 _). by vm_compute. Qed.

Lemma RefreshLiveness_iff_witness :
  is_alive (snd (RefreshLiveness map_to_list 2000 members1)) "n2" = false /\
  "n2" ∈ (nstID <$> fst (RefreshLiveness map_to_list 2000 members1)).
Proof.
  destruct (memNodes members1 !! "n2") as [ns|] eqn:Hn; [|by vm_compute in Hn].
  destruct (RefreshLiveness_iff map_to_list 2000 members1 "n2" ns (fun m => Permutation_refl _) members1_wf Hn)
    as (Ha & _ & Hc).
  assert (Hlast : nstLastHeartbeatAt ns = 100) by (vm_compute in Hn; by injection Hn as <-).
  rewrite Hlast in Ha. clear Hn Hlast. split; [exact Ha|]. apply Hc. rewrite Ha. by vm_compute.
Defined.
