(* ===== verification/Leader.v ===== *)
(** Leader assignment by the coordinator, src/coordinator/leader.go.

    [CheckAndReassign] takes the locks of the shard map and of the terms
    separately for each step; the steps are [pickCandidate], [SetLeader] and
    [store_term], run here without anything in between.  The last section shows
    what an election notice in between does. *)

From S2P Require Import Prelude Config ShardMap Membership.

Record LeaderManager := mkLeaderManager {
  lmShards : ShardMap;
  lmMembership : Membership;
  lmTerms : gmap string Z;
}.
#[global] Instance LeaderManager_eta : Eta LeaderManager := fun lm =>
  mkLeaderManager (lmShards lm) (lmMembership lm) (lmTerms lm).

Definition NewLeaderManager (shards : ShardMap) (membership : Membership) : LeaderManager :=
  mkLeaderManager shards membership ∅.

Definition store_term (shardID : string) (term : Z) (lm : LeaderManager) : LeaderManager :=
  lm <| lmTerms ::= <[shardID := term]> |>.

Definition TermForShard (lm : LeaderManager) (shardID : string) : Z := default 0 (lmTerms lm !! shardID).

(** Stops at the first shard the map refuses, keeping the ones before it. *)
Fixpoint init_shards (specs : list ShardSpec) (lm : LeaderManager) : result maperr unit * LeaderManager :=
  match specs with
  | [] => (Ok tt, lm)
  | spec :: rest =>
      match AddShard (lmShards lm) (mkShard (spID spec) (spReplicas spec) (spInitialLeader spec) "" []) with
      | Fail e => (Fail e, lm)
      | Ok m => init_shards rest (store_term (spID spec) 1 (lm <| lmShards := m |>))
      end
  end.

Definition InitFromConfig (cfg : ClusterConfig) (lm : LeaderManager) : result maperr unit * LeaderManager :=
  init_shards (clShards cfg) lm.

Definition InitTerm (shardID : string) (lm : LeaderManager) : LeaderManager :=
  match lmTerms lm !! shardID with Some _ => lm | None => store_term shardID 1 lm end.

(** One replica considered by [pickCandidate]; the accumulator is the best node
    so far and its version. *)
Definition consider (lm : LeaderManager) (shard : ShardInfo) (best : string * Z) (replicaID : string) : string * Z :=
  if decide (replicaID = shLeader shard) then best
  else if negb (is_alive (lmMembership lm) replicaID) then best
  else
    let v := VersionForShard (lmMembership lm) replicaID (shID shard) in
    if bool_decide (best.1 = "") || (best.2 <? v) then (replicaID, v) else best.

Definition pickCandidate (lm : LeaderManager) (shard : ShardInfo) : string * Z :=
  let currentTerm := TermForShard lm (shID shard) in
  let best := foldl (consider lm shard) ("", 0) (shReplicas shard) in
  if decide (best.1 = "") then ("", 0) else (best.1, u64_succ currentTerm).

(** Promote the best candidate, if there is one. *)
Definition promote (shard : ShardInfo) (lm : LeaderManager) : list string * LeaderManager :=
  let '(candidate, term) := pickCandidate lm shard in
  if decide (candidate = "") then ([], lm)
  else match SetLeader (lmShards lm) (shID shard) candidate with
       | Fail _ => ([], lm)
       | Ok m => ([shID shard], store_term (shID shard) term (lm <| lmShards := m |>))
       end.

Definition reassign_shard (shard : ShardInfo) (lm : LeaderManager) : list string * LeaderManager :=
  if decide (shLeader shard = "") then promote shard lm
  else if negb (is_alive (lmMembership lm) (shLeader shard)) then promote shard lm
  else ([], lm).

Fixpoint reassign_all (shards : list ShardInfo) (lm : LeaderManager) : list string * LeaderManager :=
  match shards with
  | [] => ([], lm)
  | shard :: rest =>
      let '(changed, lm1) := reassign_shard shard lm in
      let '(changed', lm2) := reassign_all rest lm1 in (changed ++ changed', lm2)
  end.

Definition CheckAndReassign (order : gmap string ShardInfo -> list (string * ShardInfo)) (lm : LeaderManager)
    : list string * LeaderManager :=
  reassign_all (ShardMap_All order (lmShards lm)) lm.

Definition NotifyLeader (shardID leaderID : string) (term : Z) (lm : LeaderManager) : bool * LeaderManager :=
  match lmTerms lm !! shardID with
  | None => (false, lm)
  | Some currentTerm =>
      if term <=? currentTerm then (false, lm)
      else match SetLeader (lmShards lm) shardID leaderID with
           | Fail _ => (false, lm)
           | Ok m => (true, store_term shardID term (lm <| lmShards := m |>))
           end
  end.

(** ** The candidate *)

(** A replica that may take over: alive and not the current leader. *)
Definition eligible (lm : LeaderManager) (shard : ShardInfo) (r : string) : Prop :=
  r ∈ shReplicas shard /\ r <> shLeader shard /\ is_alive (lmMembership lm) r = true.

Definition version_on (lm : LeaderManager) (shard : ShardInfo) (r : string) : Z :=
  VersionForShard (lmMembership lm) r (shID shard).

Definition best_of (lm : LeaderManager) (shard : ShardInfo) (seen : list string) (best : string * Z) : Prop :=
  let ok r := r ∈ seen /\ r <> shLeader shard /\ is_alive (lmMembership lm) r = true in
  (best.1 = "" -> forall r, ~ ok r) /\
  (best.1 <> "" -> ok best.1 /\ best.2 = version_on lm shard best.1 /\
     forall r, ok r -> version_on lm shard r <= best.2).

Lemma consider_best lm shard seen best r :
  mem_wf (lmMembership lm) ->
  best_of lm shard seen best -> best_of lm shard (seen ++ [r]) (consider lm shard best r).
Proof.
  intros Hwf [Hnone Hsome]. unfold consider.
  assert (Hskip : (r = shLeader shard \/ is_alive (lmMembership lm) r = false) ->
    best_of lm shard (seen ++ [r]) best).
  { intros Hr. split.
    - intros Hb r' (Hin & Hne & Ha). apply (Hnone Hb r'). apply elem_of_app in Hin as [?| ->%list_elem_of_singleton];
        [done|]. destruct Hr; congruence.
    - intros Hb. destruct (Hsome Hb) as ((Hin & Hne & Ha) & Hv & Hmax). split_and!; [set_solver|done|done|done|].
      intros r' (Hin' & Hne' & Ha'). apply Hmax. split_and!; [|done|done].
      apply elem_of_app in Hin' as [?| ->%list_elem_of_singleton]; [done|]. destruct Hr; congruence. }
  case_decide; [by auto|]. destruct (is_alive (lmMembership lm) r) eqn:Ha; [|by auto]. cbn [negb]. clear Hskip.
  assert (Hr : r <> "") by (intros ->; rewrite is_alive_empty in Ha; done).
  fold (version_on lm shard r). destruct (decide (best.1 = "")) as [Hb|Hb].
  - rewrite bool_decide_eq_true_2 by done. simpl. split; [done|]. intros _. simpl.
    split_and!; [set_solver|done|done|done|]. intros r' (Hin & Hne & Ha').
    apply elem_of_app in Hin as [?| ->%list_elem_of_singleton]; [|lia]. by destruct (Hnone Hb r').
  - rewrite bool_decide_eq_false_2 by done. cbn [orb]. destruct (Hsome Hb) as ((Hin & Hne & Hal) & Hv & Hmax).
    assert (Hcase : forall r' b, best.2 <= b -> version_on lm shard r <= b ->
      (r' ∈ seen ++ [r] /\ r' <> shLeader shard /\ is_alive (lmMembership lm) r' = true) ->
      version_on lm shard r' <= b).
    { intros r' b H1 H2 (Hin' & ? & ?). apply elem_of_app in Hin' as [?| ->%list_elem_of_singleton]; [|done].
      etrans; [by apply Hmax|done]. }
    destruct (Z.ltb_spec best.2 (version_on lm shard r)); (split; [done|]); intros _; simpl.
    + split_and!; [set_solver|done|done|done|]. intros r' Hr'. apply (Hcase r'); [lia|lia|done].
    + split_and!; [set_solver|done|done|done|]. intros r' Hr'. apply (Hcase r'); [lia|lia|done].
Qed.

Lemma consider_all lm shard seen best rs :
  mem_wf (lmMembership lm) ->
  best_of lm shard seen best -> best_of lm shard (seen ++ rs) (foldl (consider lm shard) best rs).
Proof.
  intros Hwf. revert seen best. induction rs as [|r rs IH]; intros seen best Hb; simpl; [by rewrite app_nil_r|].
  rewrite (assoc_L (++) seen [r] rs : seen ++ r :: rs = _). apply IH. by apply consider_best.
Qed.

(** No candidate exactly when nobody is eligible; otherwise an eligible replica
    with the highest reported version, for the next term. *)
Lemma pickCandidate_spec lm shard :
  mem_wf (lmMembership lm) ->
  (pickCandidate lm shard = ("", 0) /\ forall r, ~ eligible lm shard r) \/
  (exists c, c <> "" /\ pickCandidate lm shard = (c, u64_succ (TermForShard lm (shID shard))) /\ eligible lm shard c /\
     forall r, eligible lm shard r -> version_on lm shard r <= version_on lm shard c).
Proof.
  intros Hwf. unfold pickCandidate.
  assert (Hb : best_of lm shard (shReplicas shard) (foldl (consider lm shard) ("", 0) (shReplicas shard))).
  { apply (consider_all lm shard []); [done|]. split; [|done]. intros _ r (Hin & _). by apply elem_of_nil in Hin. }
  destruct (foldl _ _ _) as [c v]. destruct Hb as [Hnone Hsome]. simpl in *. case_decide as Hc.
  - left. split; [done|]. exact (Hnone Hc).
  - right. exists c. destruct (Hsome Hc) as (Hok & -> & Hmax). done.
Qed.

(** ** Reassignment *)

(** The shard lacks a live leader. *)
Definition headless (lm : LeaderManager) (shard : ShardInfo) : Prop :=
  is_alive (lmMembership lm) (shLeader shard) = false.

(** What becomes of one shard: [None] when it stays as it is. *)
Definition successor (lm : LeaderManager) (shard : ShardInfo) : option (string * Z) :=
  if is_alive (lmMembership lm) (shLeader shard) then None
  else let '(c, t) := pickCandidate lm shard in if decide (c = "") then None else Some (c, t).

Lemma successor_ext lm lm' shard :
  lmMembership lm' = lmMembership lm -> lmTerms lm' !! shID shard = lmTerms lm !! shID shard ->
  successor lm' shard = successor lm shard.
Proof.
  intros Hm Ht. unfold successor, pickCandidate, TermForShard. rewrite Hm, Ht.
  assert (Hc : consider lm' shard = consider lm shard) by (unfold consider; by rewrite Hm). by rewrite Hc.
Qed.

Lemma successor_None lm shard :
  mem_wf (lmMembership lm) ->
  successor lm shard = None <-> ~ headless lm shard \/ forall r, ~ eligible lm shard r.
Proof.
  intros Hwf. unfold successor, headless.
  destruct (is_alive (lmMembership lm) (shLeader shard)); [naive_solver|].
  destruct (pickCandidate_spec lm shard Hwf) as [[-> Hnone]|(c & Hc & -> & Hel & _)].
  - rewrite decide_True by done. naive_solver.
  - rewrite decide_False by done. split; [done|]. intros [?|Hno]; [done|]. by destruct (Hno c).
Qed.

Lemma successor_Some lm shard c t :
  mem_wf (lmMembership lm) -> successor lm shard = Some (c, t) ->
  headless lm shard /\ eligible lm shard c /\ t = u64_succ (TermForShard lm (shID shard)) /\
  forall r, eligible lm shard r -> version_on lm shard r <= version_on lm shard c.
Proof.
  intros Hwf. unfold successor, headless.
  destruct (is_alive (lmMembership lm) (shLeader shard)); [done|].
  destruct (pickCandidate_spec lm shard Hwf) as [[-> _]|(c' & Hc & -> & Hel & Hmax)]; [by rewrite decide_True|].
  rewrite decide_False by done. intros [= <- <-]. done.
Qed.

Definition succeed (lm : LeaderManager) (shard : ShardInfo) : ShardInfo :=
  match successor lm shard with Some (c, _) => shard <| shLeader := c |> | None => shard end.

Lemma reassign_shard_successor lm shard :
  mem_wf (lmMembership lm) -> mapShards (lmShards lm) !! shID shard = Some shard ->
  reassign_shard shard lm =
  match successor lm shard with
  | None => ([], lm)
  | Some (c, t) => ([shID shard], store_term (shID shard) t
      (lm <| lmShards := put_shard (shID shard) (shard <| shLeader := c |>) (lmShards lm) |>))
  end.
Proof.
  intros Hwf Hs.
  assert (Hre : reassign_shard shard lm =
    if is_alive (lmMembership lm) (shLeader shard) then ([], lm) else promote shard lm).
  { unfold reassign_shard. case_decide as He; [rewrite He, is_alive_empty by done; done|].
    by destruct (is_alive _ _). }
  rewrite Hre. pose proof (successor_Some lm shard) as Hsucc. unfold successor, promote in *.
  destruct (is_alive _ _); [done|]. destruct (pickCandidate lm shard) as [c t]. case_decide; [done|].
  destruct (Hsucc c t Hwf eq_refl) as (_ & (Hin & _) & _). unfold SetLeader. by rewrite Hs, decide_True.
Qed.

(** One shard of the loop: the shard itself is settled, the others keep their
    state. *)
Lemma reassign_shard_facts lm s :
  mem_wf (lmMembership lm) -> u64 (mapVersion (lmShards lm)) -> mapShards (lmShards lm) !! shID s = Some s ->
  let '(ch, lm1) := reassign_shard s lm in
  lmMembership lm1 = lmMembership lm /\
  ch = (match successor lm s with Some _ => [shID s] | None => [] end) /\
  mapVersion (lmShards lm1) = wrap64 (mapVersion (lmShards lm) + Z.of_nat (length ch)) /\
  (mapShards (lmShards lm1) !! shID s = Some (succeed lm s) /\
   lmTerms lm1 !! shID s = match successor lm s with Some (_, t) => Some t | None => lmTerms lm !! shID s end) /\
  (forall id, id <> shID s ->
     mapShards (lmShards lm1) !! id = mapShards (lmShards lm) !! id /\ lmTerms lm1 !! id = lmTerms lm !! id).
Proof.
  intros Hwf Hv Hs. rewrite reassign_shard_successor by done. unfold succeed.
  destruct (successor lm s) as [[c t]|]; split_and!; try done; simpl.
  - by rewrite lookup_insert_eq.
  - by rewrite lookup_insert_eq.
  - intros id Hne. by rewrite !lookup_insert_ne by congruence.
  - by rewrite Z.add_0_r, wrap64_id.
Qed.

Lemma filter_ext_in {A} (P Q : A -> Prop) `{!forall x, Decision (P x), !forall x, Decision (Q x)} (l : list A) :
  (forall x, x ∈ l -> P x <-> Q x) -> filter P l = filter Q l.
Proof.
  induction l as [|x l IH]; intros Hpq; [done|]. rewrite !filter_cons, IH by set_solver.
  destruct (Hpq x) as [? ?]; [by left|]. repeat case_decide; naive_solver.
Qed.

Lemma reassign_all_spec shards lm :
  mem_wf (lmMembership lm) -> u64 (mapVersion (lmShards lm)) -> NoDup (shID <$> shards) ->
  Forall (fun s => mapShards (lmShards lm) !! shID s = Some s) shards ->
  let '(changed, lm') := reassign_all shards lm in
  lmMembership lm' = lmMembership lm /\
  changed = shID <$> filter (fun s => is_Some (successor lm s)) shards /\
  mapVersion (lmShards lm') = wrap64 (mapVersion (lmShards lm) + Z.of_nat (length changed)) /\
  (forall s, s ∈ shards -> mapShards (lmShards lm') !! shID s = Some (succeed lm s) /\
     lmTerms lm' !! shID s = match successor lm s with Some (_, t) => Some t | None => lmTerms lm !! shID s end) /\
  (forall id, id ∉ shID <$> shards ->
     mapShards (lmShards lm') !! id = mapShards (lmShards lm) !! id /\ lmTerms lm' !! id = lmTerms lm !! id).
Proof.
  revert lm. induction shards as [|s shards IH]; intros lm Hwf Hv Hnd Hin; cbn [reassign_all].
  { split_and!; [done|done| |set_solver|done]. simpl. by rewrite Z.add_0_r, wrap64_id. }
  apply Forall_cons in Hin as [Hs Hin]. rewrite fmap_cons in Hnd. apply NoDup_cons in Hnd as [Hfresh Hnd].
  pose proof (reassign_shard_facts lm s Hwf Hv Hs) as Hone.
  destruct (reassign_shard s lm) as [ch lm1]. destruct Hone as (Hm1 & Hch1 & Hv1 & Hself & Hother).
  assert (Hne : forall s', s' ∈ shards -> shID s' <> shID s).
  { intros s' Hs' He. apply Hfresh. rewrite <- He. by apply list_elem_of_fmap_2. }
  assert (Hext : forall s', s' ∈ shards -> successor lm1 s' = successor lm s').
  { intros s' Hs'. apply successor_ext; [done|]. by apply Hother, Hne. }
  specialize (IH lm1). rewrite Hm1 in IH. destruct (reassign_all shards lm1) as [changed' lm2].
  destruct IH as (Hm2 & Hch & Hv2 & Hlist & Hrest);
    [done|rewrite Hv1; by apply Z.mod_pos_bound|done| |].
  { rewrite Forall_forall in Hin |- *. intros s' Hs'. destruct (Hother (shID s')) as [-> _]; auto. }
  split_and!; [congruence| | | |].
  - rewrite Hch, Hch1, filter_cons.
    rewrite (filter_ext_in (fun s => is_Some (successor lm1 s)) (fun s => is_Some (successor lm s)))
      by (intros s' Hs'; by rewrite Hext).
    destruct (successor lm s); [by rewrite decide_True by eauto|by rewrite decide_False by (by intros [? ?])].
  - rewrite Hv2, Hv1, length_app. unfold wrap64. rewrite Z.add_mod_idemp_l by done. f_equal. lia.
  - intros s' [->|Hs']%elem_of_cons.
    + destruct (Hrest (shID s) Hfresh) as [-> ->]. exact Hself.
    + destruct (Hlist s' Hs') as [-> ->]. destruct (Hother (shID s')) as [_ Ht]; [by apply Hne|].
      unfold succeed. by rewrite Hext, Ht.
  - intros id Hid. rewrite fmap_cons in Hid. apply not_elem_of_cons in Hid as [Hid Hid'].
    destruct (Hrest id Hid') as [-> ->]. by apply Hother.
Qed.

Section reassignment.
Context (order : gmap string ShardInfo -> list (string * ShardInfo)) (Horder : iterates order).

Lemma All_ids m : map_filed m -> shID <$> ShardMap_All order m = (order (mapShards m)).*1.
Proof.
  intros [_ Hwf]. unfold ShardMap_All. rewrite <- list_fmap_compose. apply list_fmap_ext.
  intros i [id s] Hi. simpl. apply list_elem_of_lookup_2, (iterates_elem order) in Hi; [|done].
  exact (Hwf id s Hi).
Qed.

Lemma All_elem m s : map_filed m -> s ∈ ShardMap_All order m <-> mapShards m !! shID s = Some s.
Proof.
  intros [_ Hwf]. unfold ShardMap_All. rewrite list_elem_of_fmap. split.
  - intros ([id s'] & -> & Hin). apply (iterates_elem order) in Hin; [|done]. simpl.
    by rewrite (Hwf id s' Hin).
  - intros Hs. exists (shID s, s). split; [done|]. by apply iterates_elem.
Qed.

(** The loop as a whole: every shard is settled, whatever the order. *)
Lemma CheckAndReassign_facts lm :
  mem_wf (lmMembership lm) -> map_filed (lmShards lm) ->
  let '(changed, lm') := CheckAndReassign order lm in
  lmMembership lm' = lmMembership lm /\
  mapShards (lmShards lm') = succeed lm <$> mapShards (lmShards lm) /\
  (forall id, lmTerms lm' !! id =
     match mapShards (lmShards lm) !! id ≫= successor lm with Some (_, t) => Some t | None => lmTerms lm !! id end) /\
  NoDup changed /\
  (forall id, id ∈ changed <-> is_Some (mapShards (lmShards lm) !! id ≫= successor lm)) /\
  mapVersion (lmShards lm') = wrap64 (mapVersion (lmShards lm) + Z.of_nat (length changed)).
Proof.
  intros Hm Hwf. unfold CheckAndReassign. set (l := ShardMap_All order (lmShards lm)).
  assert (Hnd : NoDup (shID <$> l)) by (unfold l; rewrite All_ids by done; by apply iterates_NoDup).
  assert (Hl : forall s, s ∈ l <-> mapShards (lmShards lm) !! shID s = Some s) by (intros; by apply All_elem).
  pose proof (reassign_all_spec l lm Hm (proj1 Hwf) Hnd) as Hall.
  destruct (reassign_all l lm) as [changed lm']. destruct Hall as (Hm' & Hch & Hv & Hin & Hout).
  { rewrite Forall_forall. intros s. apply Hl. }
  assert (Hnone : forall id, mapShards (lmShards lm) !! id = None -> id ∉ shID <$> l).
  { intros id Hid (s & -> & Hs)%list_elem_of_fmap. apply Hl in Hs. congruence. }
  split_and!; [done| | | | |done].
  - apply map_eq. intros id. rewrite lookup_fmap. destruct (mapShards (lmShards lm) !! id) as [s|] eqn:Hs; simpl.
    + destruct (proj2 Hwf id s Hs). by apply Hin, Hl.
    + destruct (Hout id) as [-> _]; [by apply Hnone|done].
  - intros id. destruct (mapShards (lmShards lm) !! id) as [s|] eqn:Hs; simpl.
    + destruct (proj2 Hwf id s Hs). by apply Hin, Hl.
    + by apply Hout, Hnone.
  - rewrite Hch. eapply sublist_NoDup; [exact Hnd|]. apply fmap_sublist, sublist_filter.
  - intros id. rewrite Hch, list_elem_of_fmap. setoid_rewrite list_elem_of_filter. split.
    + intros (s & -> & Hs & Hin'). apply Hl in Hin'. by rewrite Hin'.
    + destruct (mapShards (lmShards lm) !! id) as [s|] eqn:Hs; simpl; [|by intros [? ?]].
      destruct (proj2 Hwf id s Hs). intros ?. exists s. by rewrite Hl.
Qed.

Lemma succeed_wf lm id s :
  mem_wf (lmMembership lm) -> shID s = id /\ leader_ok s -> shID (succeed lm s) = id /\ leader_ok (succeed lm s).
Proof.
  intros Hm [Hid Hok]. unfold succeed. destruct (successor lm s) as [[c t]|] eqn:Hs; [|done].
  apply successor_Some in Hs as (_ & (Hin & _) & _); [|done]. split; [done|]. by right.
Qed.

Lemma CheckAndReassign_wf lm :
  mem_wf (lmMembership lm) -> map_wf (lmShards lm) -> map_wf (lmShards (CheckAndReassign order lm).2).
Proof.
  intros Hm Hwf. pose proof (CheckAndReassign_facts lm Hm (map_wf_filed _ Hwf)) as Hf.
  destruct (CheckAndReassign order lm) as [changed lm']. simpl. destruct Hf as (_ & Hs & _ & _ & _ & Hv).
  split; [rewrite Hv; by apply Z.mod_pos_bound|]. rewrite Hs. intros id s'.
  rewrite lookup_fmap_Some. intros (s & <- & Hs'). apply succeed_wf; [done|]. by apply (map_wf_lookup (lmShards lm)).
Qed.

(** C22: A reassignment pass leaves a shard with a live leader, and one nobody
    can take over, exactly as it is.  Every other shard gets a live replica as
    its leader, one with the highest version the coordinator has heard of, with
    the shard's next term; nothing else about it changes.  The pass reports
    exactly these shards. *)
Theorem CheckAndReassign_spec lm id shard :
  mem_wf (lmMembership lm) -> map_wf (lmShards lm) -> mapShards (lmShards lm) !! id = Some shard ->
  let '(changed, lm') := CheckAndReassign order lm in
  exists shard', mapShards (lmShards lm') !! id = Some shard' /\
  (id ∈ changed <-> headless lm shard /\ exists r, eligible lm shard r) /\
  (id ∉ changed -> shard' = shard /\ TermForShard lm' id = TermForShard lm id) /\
  (id ∈ changed ->
     shard' = shard <| shLeader := shLeader shard' |> /\ eligible lm shard (shLeader shard') /\
     is_alive (lmMembership lm') (shLeader shard') = true /\
     (forall r, eligible lm shard r -> version_on lm shard r <= version_on lm shard (shLeader shard')) /\
     TermForShard lm' id = u64_succ (TermForShard lm id)).
Proof.
  intros Hm Hwf Hs. pose proof (CheckAndReassign_facts lm Hm (map_wf_filed _ Hwf)) as Hf.
  destruct (CheckAndReassign order lm) as [changed lm']. destruct Hf as (Hm' & Hsh & Ht & _ & Hch & _).
  destruct (map_wf_lookup _ _ _ Hwf Hs) as [Hid _].
  exists (succeed lm shard). rewrite Hsh, lookup_fmap, Hs. split; [done|].
  specialize (Hch id). rewrite Hs in Hch. simpl in Hch. unfold TermForShard. rewrite Ht, Hs. simpl.
  unfold succeed. pose proof (successor_None lm shard Hm) as Hnone. pose proof (successor_Some lm shard) as Hsome.
  destruct (successor lm shard) as [[c t]|].
  - destruct (Hsome c t Hm eq_refl) as (Hhead & Hel & Heqt & Hmax). split_and!.
    + rewrite Hch. split; [by eauto|done].
    + rewrite Hch. intros Hn. by destruct Hn.
    + intros _. simpl. rewrite Hm'. split_and!; [done|done|by destruct Hel as (_ & _ & ?)|done|].
      rewrite Heqt. unfold TermForShard. by rewrite Hid.
  - destruct Hnone as [Hn _]. specialize (Hn eq_refl). split_and!.
    + rewrite Hch. split; [by intros [? ?]|]. intros [Hhead [r Hr]]. destruct Hn as [?|Hno]; [done|by destruct (Hno r)].
    + done.
    + rewrite Hch. by intros [? ?].
Qed.
End reassignment.

(** C29: Go's choice of map order has no influence on a reassignment pass: two
    orders give the same shard map, with the same version, the same terms, and
    the same shards reported. *)
Theorem CheckAndReassign_order_irrelevant order1 order2 lm :
  iterates order1 -> iterates order2 -> mem_wf (lmMembership lm) -> map_wf (lmShards lm) ->
  (CheckAndReassign order1 lm).2 = (CheckAndReassign order2 lm).2 /\
  (CheckAndReassign order1 lm).1 ≡ₚ (CheckAndReassign order2 lm).1.
Proof.
  intros H1 H2 Hm Hwf.
  pose proof (CheckAndReassign_facts order1 H1 lm Hm (map_wf_filed _ Hwf)) as F1.
  pose proof (CheckAndReassign_facts order2 H2 lm Hm (map_wf_filed _ Hwf)) as F2.
  destruct (CheckAndReassign order1 lm) as [ch1 [[v1 s1] m1 t1]], (CheckAndReassign order2 lm) as [ch2 [[v2 s2] m2 t2]].
  destruct F1 as (Hm1 & Hs1 & Ht1 & Hnd1 & Hch1 & Hv1), F2 as (Hm2 & Hs2 & Ht2 & Hnd2 & Hch2 & Hv2). simpl in *.
  assert (Hp : ch1 ≡ₚ ch2) by (apply NoDup_Permutation; [done|done|]; intros id; by rewrite Hch1, Hch2).
  split; [|done]. f_equal; [|congruence|apply map_eq; intros id; by rewrite Ht1, Ht2].
  f_equal; [|congruence]. rewrite Hv1, Hv2. by rewrite Hp.
Qed.

(** ** Election notices *)

Lemma SetLeader_ok m id n :
  (exists m', SetLeader m id n = Ok m') <-> exists shard, mapShards m !! id = Some shard /\ n ∈ shReplicas shard.
Proof.
  unfold SetLeader. destruct (mapShards m !! id) as [s|]; [|naive_solver].
  case_decide; split; naive_solver.
Qed.

(** An election notice is accepted exactly when the shard is known, the
    winner is one of its replicas and the term is newer than the coordinator's;
    accepting it records winner and term, refusing it changes nothing, and no
    shard's term ever goes back. *)
Theorem NotifyLeader_iff id n t lm :
  let '(ok, lm') := NotifyLeader id n t lm in
  (ok = true <-> exists cur shard, lmTerms lm !! id = Some cur /\ cur < t /\
     mapShards (lmShards lm) !! id = Some shard /\ n ∈ shReplicas shard) /\
  (ok = false -> lm' = lm) /\
  (ok = true -> TermForShard lm' id = t /\
     mapShards (lmShards lm') = alter (fun s => s <| shLeader := n |>) id (mapShards (lmShards lm))) /\
  (forall id', TermForShard lm id' <= TermForShard lm' id').
Proof.
  unfold NotifyLeader. destruct (lmTerms lm !! id) as [cur|] eqn:Ht; [|split_and!; naive_solver].
  destruct (Z.leb_spec t cur); [split_and!; naive_solver lia|].
  pose proof (SetLeader_ok (lmShards lm) id n) as Hok.
  destruct (SetLeader (lmShards lm) id n) as [m|e] eqn:Hset; [|split_and!; naive_solver].
  split_and!.
  - split; [|done]. intros _. destruct Hok as [Hok _]. destruct Hok as (shard & ? & ?); naive_solver.
  - done.
  - intros _. unfold TermForShard. simpl. rewrite lookup_insert_eq. split; [done|].
    unfold SetLeader in Hset. destruct (mapShards (lmShards lm) !! id) as [s|] eqn:Hs; [|done].
    case_decide; [|done]. injection Hset as <-. simpl. apply map_eq. intros id'.
    destruct (decide (id = id')) as [<-|]; [by rewrite lookup_insert_eq, lookup_alter_eq, Hs|].
    by rewrite lookup_insert_ne, lookup_alter_ne.
  - intros id'. unfold TermForShard. simpl. destruct (decide (id = id')) as [<-|].
    + rewrite lookup_insert_eq, Ht. simpl. lia.
    + by rewrite lookup_insert_ne.
Qed.

(** ** A concrete cluster *)

(** [n1] leads [s1] and has not been heard from; [n2] is at version 7 and [n3]
    at version 9. *)
Definition leaders1 : LeaderManager := mkLeaderManager map1 members1 {["s1" := 1]}.

Lemma CheckAndReassign_spec_witness :
  exists shard', mapShards (lmShards (CheckAndReassign map_to_list leaders1).2) !! "s1" = Some shard' /\
    is_alive members1 (shLeader shard') = true /\
    TermForShard (CheckAndReassign map_to_list leaders1).2 "s1" = 2.
Proof.
  pose proof (CheckAndReassign_spec map_to_list (fun m => Permutation_refl _) leaders1 "s1" shard1 members1_wf map1_wf
    ltac:(by vm_compute)) as Hspec.
  destruct (CheckAndReassign map_to_list leaders1) as [changed lm'] eqn:Heq.
  destruct Hspec as (shard' & Hs & _ & _ & Hin).
  assert (Hch : "s1" ∈ changed).
  { apply (f_equal fst) in Heq. change changed with (fst (changed, lm')). rewrite <- Heq. clear. apply (bool_decide_eq_true_1 _). by vm_compute. }
  destruct (Hin Hch) as (_ & (_ & _ & Ha) & _ & _ & Ht). exists shard'.
  split_and!; [exact Hs|exact Ha|exact Ht].
Defined.

Lemma CheckAndReassign_order_irrelevant_witness :
  (CheckAndReassign map_to_list leaders1).2 = (CheckAndReassign (fun m => reverse (map_to_list m)) leaders1).2.
Proof.
  apply (CheckAndReassign_order_irrelevant map_to_list (fun m => reverse (map_to_list m)) leaders1).
  - by intros m.
  - intros m. apply reverse_Permutation.
  - exact members1_wf.
  - exact map1_wf.
Defined.

(** An election notice that arrives between the coordinator's choice of a
    candidate and the moment it stores the new term is overwritten: the shard's
    term goes back from 9 to 2, below a term the coordinator had accepted. *)
Theorem reassignment_race_lowers_term :
  let '(candidate, term) := pickCandidate leaders1 shard1 in
  match SetLeader (lmShards leaders1) "s1" candidate with
  | Fail _ => False
  | Ok m =>
      let '(accepted, lm) := NotifyLeader "s1" "n2" 9 (leaders1 <| lmShards := m |>) in
      accepted = true /\ TermForShard lm "s1" = 9 /\
      TermForShard (store_term "s1" term lm) "s1" = 2 /\
      LeaderFor (lmShards (store_term "s1" term lm)) "s1" = Ok "n2"
  end.
Proof. by vm_compute. Qed.
