(* ===== verification/Migration.v ===== *)
(** Shard migrations and splits, src/coordinator/migration.go. *)

From S2P Require Import Prelude Config ShardMap Membership Leader.

Record migration := mkMigration { mgShardID : string; mgNewReplicas : list string }.

Record MigrationManager := mkMigrationManager {
  mmLeader : LeaderManager;
  mmMigrations : gmap string migration;
}.
#[global] Instance MigrationManager_eta : Eta MigrationManager := fun mm =>
  mkMigrationManager (mmLeader mm) (mmMigrations mm).

Definition NewMigrationManager (leader : LeaderManager) : MigrationManager := mkMigrationManager leader ∅.

Definition mmShards (mm : MigrationManager) : ShardMap := lmShards (mmLeader mm).
Definition mmMembership (mm : MigrationManager) : Membership := lmMembership (mmLeader mm).

Definition set_shards (m : ShardMap) (mm : MigrationManager) : MigrationManager :=
  mm <| mmLeader ::= fun lm => lm <| lmShards := m |> |>.

(** The old replicas, and the new ones that are not among them. *)
Definition widen (old new : list string) : list string := old ++ filter (fun r => r ∉ old) new.

Definition StartMigration (shardID : string) (newReplicas : list string) (mm : MigrationManager)
    : result maperr unit * MigrationManager :=
  match ShardMap_Get (mmShards mm) shardID with
  | Fail e => (Fail e, mm)
  | Ok shard =>
      match SetReplicas (mmShards mm) shardID (widen (shReplicas shard) newReplicas) with
      | Fail e => (Fail e, mm)
      | Ok m =>
          let mm := set_shards m mm in
          match SetIncomingReplicas (mmShards mm) shardID newReplicas with
          | Fail e => (Fail e, mm)
          | Ok m => (Ok tt, set_shards m mm <| mmMigrations ::= <[shardID := mkMigration shardID newReplicas]> |>)
          end
      end
  end.

Definition allReady (mm : MigrationManager) (shardID : string) (replicas : list string) : bool :=
  match replicas with
  | [] => false
  | _ => forallb (fun n => is_alive (mmMembership mm) n && negb (VersionForShard (mmMembership mm) n shardID =? 0)) replicas
  end.

Section orders.
Context (sorder : gmap string ShardInfo -> list (string * ShardInfo)).
Context (morder : gmap string migration -> list (string * migration)).

Definition reassign (mm : MigrationManager) : MigrationManager :=
  mm <| mmLeader := (CheckAndReassign sorder (mmLeader mm)).2 |>.

(** An error from the second call is only logged. *)
Definition finaliseMigration (m : migration) (mm : MigrationManager) : MigrationManager :=
  match SetReplicas (mmShards mm) (mgShardID m) (mgNewReplicas m) with
  | Fail _ => mm
  | Ok s =>
      let mm := set_shards s mm in
      let mm := match SetIncomingReplicas (mmShards mm) (mgShardID m) [] with
                | Ok s => set_shards s mm
                | Fail _ => mm
                end in
      reassign mm <| mmMigrations ::= delete (mgShardID m) |>
  end.

Definition check_pending (mm : MigrationManager) (m : migration) : MigrationManager :=
  if allReady mm (mgShardID m) (mgNewReplicas m) then finaliseMigration m mm else mm.

Definition check_split (mm : MigrationManager) (sh : ShardInfo) : MigrationManager :=
  if decide (shBootstrapSource sh = "") then mm
  else if negb (allReady mm (shID sh) (shReplicas sh)) then mm
  else match ClearBootstrapSource (mmShards mm) (shID sh) with
       | Fail _ => mm
       | Ok s =>
           let mm := set_shards s mm in
           if decide (shLeader sh = "") then reassign mm else mm
       end.

Definition CheckMigrations (mm : MigrationManager) : MigrationManager :=
  let mm := foldl check_pending mm (morder (mmMigrations mm)).*2 in
  foldl check_split mm (ShardMap_Snapshot sorder (mmShards mm)).2.
End orders.

(** ** Starting a migration *)

Definition mm_wf (mm : MigrationManager) : Prop :=
  mem_wf (mmMembership mm) /\ map_wf (mmShards mm) /\
  map_Forall (fun id m => mgShardID m = id) (mmMigrations mm).

Lemma widen_elem old new r : r ∈ widen old new <-> r ∈ old \/ r ∈ new.
Proof.
  unfold widen. rewrite elem_of_app, list_elem_of_filter.
  destruct (decide (r ∈ old)); naive_solver.
Qed.

(** Starting a migration is refused, without effect, exactly for an unknown
    shard.  Otherwise the shard is replicated on the old and the new nodes,
    keeps its leader, and is tagged with the new set; no other shard changes and
    the migration is on record. *)
Theorem StartMigration_spec id new mm :
  mm_wf mm ->
  let '(res, mm') := StartMigration id new mm in
  match mapShards (mmShards mm) !! id with
  | None => res = Fail (ShardNotFound id) /\ mm' = mm
  | Some s => res = Ok tt /\ mm_wf mm' /\ mmMembership mm' = mmMembership mm /\
      mmMigrations mm' = <[id := mkMigration id new]> (mmMigrations mm) /\
      (forall id', id' <> id -> mapShards (mmShards mm') !! id' = mapShards (mmShards mm) !! id') /\
      exists s', mapShards (mmShards mm') !! id = Some s' /\ shLeader s' = shLeader s /\ shIncoming s' = new /\
        forall r, r ∈ shReplicas s' <-> r ∈ shReplicas s \/ r ∈ new
  end.
Proof.
  intros (Hm & Hwf & Hk). unfold StartMigration, ShardMap_Get.
  destruct (mapShards (mmShards mm) !! id) as [s|] eqn:Hs; [|done].
  destruct (map_wf_lookup _ _ _ Hwf Hs) as [Hid Hl].
  unfold SetReplicas. rewrite Hs. cbn iota.
  assert (Hkeep : ~ (shLeader (s <| shReplicas := widen (shReplicas s) new |>) <> "" /\
    shLeader (s <| shReplicas := widen (shReplicas s) new |>) ∉ shReplicas (s <| shReplicas := widen (shReplicas s) new |>))).
  { simpl. rewrite widen_elem. destruct Hl; naive_solver. }
  rewrite decide_False by exact Hkeep.
  set (s1 := s <| shReplicas := widen (shReplicas s) new |>).
  assert (Hl1 : leader_ok s1).
  { destruct Hl as [Hl|Hl]; [by left|right]. simpl. apply widen_elem. by left. }
  unfold SetIncomingReplicas. simpl. rewrite lookup_insert_eq. simpl. split_and!; [done| |done|done| |].
  - split_and!; [done| |by apply map_Forall_insert_2]. by apply map_wf_put; [apply map_wf_put| |].
  - intros id' Hne. by rewrite !lookup_insert_ne by congruence.
  - rewrite lookup_insert_eq. eexists. split; [done|]. simpl. split_and!; [done|done|]. intros r. apply widen_elem.
Qed.

(** ** Advancing migrations *)

Section advancing.
Context (sorder : gmap string ShardInfo -> list (string * ShardInfo)) (Hsorder : iterates sorder).

(** Shard [id] is in the map and satisfies [P]. *)
Definition holds (id : string) (P : ShardInfo -> Prop) (mm : MigrationManager) : Prop :=
  exists s, mapShards (mmShards mm) !! id = Some s /\ P s.

(** [P] survives what a pass does to shards it is not about: a new leader by
    reassignment, and a cleared bootstrap source. *)
Definition stable (mem : Membership) (P : ShardInfo -> Prop) : Prop :=
  (forall lm s, lmMembership lm = mem -> P s -> P (succeed lm s)) /\
  (forall s, P s -> P (s <| shBootstrapSource := "" |>)).

(** Facts a step of a pass keeps about shard [id]. *)
Definition keeps (id : string) (mm mm' : MigrationManager) : Prop :=
  mm_wf mm' /\ mmMembership mm' = mmMembership mm /\
  mmMigrations mm' !! id = mmMigrations mm !! id /\
  forall P, stable (mmMembership mm) P -> holds id P mm -> holds id P mm'.

Lemma keeps_refl id mm : mm_wf mm -> keeps id mm mm.
Proof. intros Hwf. by split_and!. Qed.

Lemma keeps_trans id mm1 mm2 mm3 : keeps id mm1 mm2 -> keeps id mm2 mm3 -> keeps id mm1 mm3.
Proof.
  intros (W2 & M2 & G2 & H2) (W3 & M3 & G3 & H3). split_and!; [done|congruence|congruence|].
  intros P HP Hh. apply H3; [by rewrite M2|]. by apply H2.
Qed.

Lemma succeed_alive lm s : is_alive (lmMembership lm) (shLeader s) = true -> succeed lm s = s.
Proof. unfold succeed, successor. by intros ->. Qed.

Lemma reassign_shards mm :
  mm_wf mm -> mapShards (mmShards (reassign sorder mm)) = succeed (mmLeader mm) <$> mapShards (mmShards mm) /\
  mmMembership (reassign sorder mm) = mmMembership mm /\ mm_wf (reassign sorder mm).
Proof.
  intros (Hm & Hwf & Hk). pose proof (CheckAndReassign_facts sorder Hsorder (mmLeader mm) Hm (map_wf_filed _ Hwf)) as Hf.
  pose proof (CheckAndReassign_wf sorder Hsorder (mmLeader mm) Hm Hwf) as Hwf'.
  unfold mm_wf, reassign, mmShards, mmMembership in *. simpl.
  destruct (CheckAndReassign sorder (mmLeader mm)) as [ch lm']. simpl in *.
  destruct Hf as (Hm' & Hs & _). rewrite Hm'. done.
Qed.

Lemma reassign_keeps id mm : mm_wf mm -> keeps id mm (reassign sorder mm).
Proof.
  intros Hwf. destruct (reassign_shards mm Hwf) as (Hs & Hm & Hwf'). split_and!; [done|done|done|].
  intros P [HP _] (s & Hl & Hp). exists (succeed (mmLeader mm) s). rewrite Hs, lookup_fmap, Hl. split; [done|].
  by apply HP.
Qed.

(** Updating another shard. *)
Lemma put_other_keeps id id' s mm :
  mm_wf mm -> shID s = id' -> leader_ok s -> id' <> id -> keeps id mm (set_shards (put_shard id' s (mmShards mm)) mm).
Proof.
  intros (Hm & Hwf & Hk) Hid Hl Hne. split_and!; [|done|done|].
  - split_and!; [done| |done]. by apply map_wf_put.
  - intros P _ (s' & Hs' & Hp). exists s'. split; [|done]. simpl. by rewrite lookup_insert_ne.
Qed.

(** The shard after the two updates of [finaliseMigration]. *)
Definition replaced (new : list string) (s : ShardInfo) : ShardInfo :=
  (if decide (shLeader s <> "" /\ shLeader s ∉ new) then s <| shReplicas := new |> <| shLeader := "" |>
   else s <| shReplicas := new |>) <| shIncoming := [] |>.

Lemma replaced_ok new s : leader_ok (replaced new s).
Proof.
  unfold replaced, leader_ok. case_decide; simpl; [by left|].
  destruct (decide (shLeader s = "")), (decide (shLeader s ∈ new)); naive_solver.
Qed.

Lemma replaced_id new s : shID (replaced new s) = shID s.
Proof. unfold replaced. by case_decide. Qed.

Lemma finalise_unfold m mm s :
  mapShards (mmShards mm) !! mgShardID m = Some s ->
  exists s1, shID s1 = shID s /\ leader_ok s1 /\
  finaliseMigration sorder m mm =
    reassign sorder (set_shards (put_shard (mgShardID m) (replaced (mgNewReplicas m) s)
                       (put_shard (mgShardID m) s1 (mmShards mm))) mm)
    <| mmMigrations ::= delete (mgShardID m) |>.
Proof.
  intros Hs. unfold finaliseMigration, SetReplicas. rewrite Hs. cbn iota zeta.
  eexists. split; [|split; [apply leader_ok_set_replicas|]].
  - by case_decide.
  - unfold SetIncomingReplicas. simpl. rewrite lookup_insert_eq. cbn iota. do 3 f_equal.
Qed.

Lemma delete_wf id mm : mm_wf mm -> mm_wf (mm <| mmMigrations ::= delete id |>).
Proof. intros (Hm & Hwf & Hk). split_and!; [done|done|]. by apply map_Forall_delete. Qed.

Lemma finalise_keeps id m mm : mm_wf mm -> mgShardID m <> id -> keeps id mm (finaliseMigration sorder m mm).
Proof.
  intros Hwf Hne. destruct (mapShards (mmShards mm) !! mgShardID m) as [s|] eqn:Hs.
  2:{ unfold finaliseMigration, SetReplicas. rewrite Hs. by apply keeps_refl. }
  destruct (finalise_unfold m mm s Hs) as (s1 & Hid1 & Hl1 & ->).
  destruct (map_wf_lookup _ _ _ (proj1 (proj2 Hwf)) Hs) as [Hid _].
  eapply (keeps_trans _ _ (set_shards (put_shard (mgShardID m) s1 (mmShards mm)) mm));
    [apply put_other_keeps; congruence || done|].
  set (mm1 := set_shards (put_shard (mgShardID m) s1 (mmShards mm)) mm).
  assert (Hwf1 : mm_wf mm1) by (by apply (put_other_keeps id); try congruence).
  eapply keeps_trans; [apply (put_other_keeps id (mgShardID m) (replaced (mgNewReplicas m) s) mm1)|]; try done.
  { by rewrite replaced_id. }
  { apply replaced_ok. }
  set (mm2 := set_shards (put_shard (mgShardID m) _ (mmShards mm1)) mm1).
  assert (Hwf2 : mm_wf mm2).
  { apply (put_other_keeps id); [done|by rewrite replaced_id|apply replaced_ok|done]. }
  eapply keeps_trans; [by apply reassign_keeps|].
  destruct (reassign_shards mm2 Hwf2) as (_ & _ & Hwf3).
  split_and!; [by apply delete_wf|done|by simpl; rewrite lookup_delete_ne|done].
Qed.

(** The shard has been handed to [new] and has a live leader there. *)
Definition settled (mem : Membership) (new : list string) (s : ShardInfo) : Prop :=
  shReplicas s = new /\ shIncoming s = [] /\ shLeader s ∈ new /\ is_alive mem (shLeader s) = true.

Lemma settled_stable mem new : stable mem (settled mem new).
Proof.
  split; [|done]. intros lm s <- (Hr & Hi & Hl & Ha). rewrite succeed_alive by done. by split_and!.
Qed.

Lemma allReady_alive mm id rs r : allReady mm id rs = true -> r ∈ rs -> is_alive (mmMembership mm) r = true.
Proof.
  unfold allReady. destruct rs as [|x rs]; [done|]. rewrite forallb_forall. intros Hf Hr.
  apply list_elem_of_In, Hf, andb_true_iff in Hr. by destruct Hr.
Qed.

Lemma replaced_settles lm id new s mm :
  mem_wf (lmMembership lm) -> mmMembership mm = lmMembership lm -> allReady mm id new = true ->
  settled (lmMembership lm) new (succeed lm (replaced new s)).
Proof.
  intros Hwf Hm Hready. assert (Halive : forall r, r ∈ new -> is_alive (lmMembership lm) r = true).
  { intros r Hr. rewrite <- Hm. by eapply allReady_alive. }
  assert (Hfields : shReplicas (replaced new s) = new /\ shIncoming (replaced new s) = [])
    by (unfold replaced; by case_decide).
  destruct Hfields as [Hrep Hinc].
  destruct (replaced_ok new s) as [He|Hin].
  - destruct new as [|r0 new']; [done|].
    assert (Hr0 : is_alive (lmMembership lm) r0 = true) by (apply Halive; by left).
    assert (Hel : eligible lm (replaced (r0 :: new') s) r0).
    { split_and!; [rewrite Hrep; by left| |done]. rewrite He. intros ->. by rewrite is_alive_empty in Hr0. }
    assert (Hhead : headless lm (replaced (r0 :: new') s)) by (unfold headless; rewrite He; by apply is_alive_empty).
    unfold succeed. destruct (successor lm (replaced (r0 :: new') s)) as [[c t]|] eqn:Hs.
    + apply successor_Some in Hs as (_ & (Hc & _ & Ha) & _); [|done]. rewrite Hrep in Hc. by split_and!.
    + apply successor_None in Hs as [?|Hno]; [done| |done]. by destruct (Hno r0).
  - rewrite Hrep in Hin. rewrite succeed_alive by auto. split_and!; auto.
Qed.

Lemma finalise_settles m mm s :
  mm_wf mm -> mapShards (mmShards mm) !! mgShardID m = Some s ->
  allReady mm (mgShardID m) (mgNewReplicas m) = true ->
  let mm' := finaliseMigration sorder m mm in
  mm_wf mm' /\ mmMembership mm' = mmMembership mm /\ mmMigrations mm' !! mgShardID m = None /\
  holds (mgShardID m) (settled (mmMembership mm) (mgNewReplicas m)) mm'.
Proof.
  intros Hwf Hs Hready mm'. subst mm'. destruct (finalise_unfold m mm s Hs) as (s1 & Hid1 & Hl1 & ->).
  destruct Hwf as (Hm & Hwf & Hk). destruct (map_wf_lookup _ _ _ Hwf Hs) as [Hid _].
  set (mm2 := set_shards _ mm).
  assert (Hwf2 : mm_wf mm2).
  { split_and!; [done| |done]. apply map_wf_put; [by apply map_wf_put; [|congruence|]| |apply replaced_ok].
    by rewrite replaced_id. }
  destruct (reassign_shards mm2 Hwf2) as (Hsh & Hm3 & Hwf3).
  split_and!; [by apply delete_wf|done|by simpl; rewrite lookup_delete_eq|].
  exists (succeed (mmLeader mm2) (replaced (mgNewReplicas m) s)). split.
  - change (mapShards (mmShards (reassign sorder mm2)) !! mgShardID m =
      Some (succeed (mmLeader mm2) (replaced (mgNewReplicas m) s))).
    rewrite Hsh, lookup_fmap. simpl. by rewrite lookup_insert_eq.
  - by apply (replaced_settles (mmLeader mm2) (mgShardID m) _ _ mm).
Qed.

Lemma check_pending_keeps id mm m : mm_wf mm -> mgShardID m <> id -> keeps id mm (check_pending sorder mm m).
Proof.
  intros Hwf Hne. unfold check_pending. destruct (allReady _ _ _); [by apply finalise_keeps|by apply keeps_refl].
Qed.

Lemma pending_keeps id l mm :
  mm_wf mm -> Forall (fun m => mgShardID m <> id) l -> keeps id mm (foldl (check_pending sorder) mm l).
Proof.
  intros Hwf Hl. revert mm Hwf. induction Hl as [|m l Hm _ IH]; intros mm Hwf; simpl; [by apply keeps_refl|].
  pose proof (check_pending_keeps id mm m Hwf Hm) as Hk. eapply keeps_trans; [exact Hk|]. apply IH, Hk.
Qed.

Lemma check_split_keeps id mm sh : mm_wf mm -> keeps id mm (check_split sorder mm sh).
Proof.
  intros Hwf. unfold check_split. case_decide; [by apply keeps_refl|].
  destruct (allReady _ _ _); [|by apply keeps_refl]. cbn [negb]. unfold ClearBootstrapSource.
  destruct (mapShards (mmShards mm) !! shID sh) as [s|] eqn:Hs; [|by apply keeps_refl].
  set (m1 := if decide (shBootstrapSource s = "") then Ok (mmShards mm) else _).
  assert (Hm1 : exists m, m1 = Ok m /\ keeps id mm (set_shards m mm)).
  { subst m1. destruct Hwf as (Hm & Hwf & Hk). destruct (map_wf_lookup _ _ _ Hwf Hs) as [Hid Hl].
    case_decide as Hb; (eexists; split; [done|]); (split_and!; [|done|done|]).
    - by split_and!.
    - intros P _ Hh. exact Hh.
    - split_and!; [done| |done]. by apply map_wf_put.
    - intros P [_ HP] (s' & Hs' & Hp). unfold holds. simpl. destruct (decide (shID sh = id)) as [<-|].
      + exists (s <| shBootstrapSource := "" |>). rewrite lookup_insert_eq. split; [done|]. apply HP. congruence.
      + exists s'. by rewrite lookup_insert_ne. }
  destruct Hm1 as (m & -> & Hk). case_decide; [|done].
  eapply keeps_trans; [exact Hk|]. apply reassign_keeps, Hk.
Qed.

Lemma splits_keep id l mm : mm_wf mm -> keeps id mm (foldl (check_split sorder) mm l).
Proof.
  revert mm. induction l as [|sh l IH]; intros mm Hwf; simpl; [by apply keeps_refl|].
  pose proof (check_split_keeps id mm sh Hwf) as Hk. eapply keeps_trans; [exact Hk|]. apply IH, Hk.
Qed.

(** The rest of a pass, after the migration of shard [id] has been looked at. *)
Lemma rest_keeps id l mm :
  mm_wf mm -> Forall (fun m => mgShardID m <> id) l ->
  let mm' := foldl (check_pending sorder) mm l in
  keeps id mm (foldl (check_split sorder) mm' (ShardMap_Snapshot sorder (mmShards mm')).2).
Proof.
  intros Hwf Hl mm'. pose proof (pending_keeps id l mm Hwf Hl) as Hk. fold mm' in Hk.
  eapply keeps_trans; [exact Hk|]. apply splits_keep, Hk.
Qed.

(** Splitting the pending list at the migration of one shard. *)
Lemma pending_split morder mm id m :
  iterates morder -> mm_wf mm -> mmMigrations mm !! id = Some m ->
  exists l1 l2, (morder (mmMigrations mm)).*2 = l1 ++ m :: l2 /\
    Forall (fun m' => mgShardID m' <> id) l1 /\ Forall (fun m' => mgShardID m' <> id) l2.
Proof.
  intros Ho (_ & _ & Hk) Hm.
  assert (Hin : (id, m) ∈ morder (mmMigrations mm)) by (by apply iterates_elem).
  apply list_elem_of_split in Hin as (l1 & l2 & Heq). exists l1.*2, l2.*2. rewrite Heq, fmap_app. split; [done|].
  pose proof (iterates_NoDup morder (mmMigrations mm) Ho) as Hnd. rewrite Heq, fmap_app in Hnd.
  apply NoDup_app in Hnd as (_ & Hd & Hnd2). apply NoDup_cons in Hnd2 as [Hfresh _].
  assert (Hkey : forall p, p ∈ l1 ++ (id, m) :: l2 -> mgShardID p.2 = p.1).
  { intros [k x] Hp. rewrite <- Heq in Hp. apply (iterates_elem morder) in Hp; [|done]. exact (Hk k x Hp). }
  split; apply Forall_fmap, Forall_forall; intros p Hp; simpl; rewrite Hkey by set_solver; intros <-.
  - apply (Hd p.1); [by apply list_elem_of_fmap_2|by left].
  - apply Hfresh. simpl. by apply list_elem_of_fmap_2.
Qed.

Lemma CheckMigrations_idle morder mm id :
  iterates morder -> mm_wf mm -> mmMigrations mm !! id = None -> keeps id mm (CheckMigrations sorder morder mm).
Proof.
  intros Ho Hwf Hm. apply rest_keeps; [done|]. apply Forall_fmap, Forall_forall. intros [k m] Hin. simpl.
  apply (iterates_elem morder) in Hin; [|done]. destruct Hwf as (_ & _ & Hk). rewrite (Hk k m Hin). congruence.
Qed.

Lemma CheckMigrations_ready morder mm id m s :
  iterates morder -> mm_wf mm -> mmMigrations mm !! id = Some m -> mapShards (mmShards mm) !! id = Some s ->
  allReady mm id (mgNewReplicas m) = true ->
  let mm' := CheckMigrations sorder morder mm in
  mm_wf mm' /\ mmMembership mm' = mmMembership mm /\ mmMigrations mm' !! id = None /\
  holds id (settled (mmMembership mm) (mgNewReplicas m)) mm'.
Proof.
  intros Ho Hwf Hm Hs Hready mm'. subst mm'. unfold CheckMigrations.
  destruct (pending_split morder mm id m Ho Hwf Hm) as (l1 & l2 & -> & Hl1 & Hl2). rewrite foldl_app. cbn [foldl].
  assert (Hid : mgShardID m = id) by (by apply Hwf).
  destruct (pending_keeps id l1 mm Hwf Hl1) as (W1 & M1 & G1 & H1). set (mm1 := foldl _ mm l1) in *.
  assert (Hready1 : allReady mm1 id (mgNewReplicas m) = true) by (unfold allReady; by rewrite M1).
  destruct (H1 (fun _ => True)) as (s1 & Hs1 & _); [done|by exists s|].
  assert (Hcp : check_pending sorder mm1 m = finaliseMigration sorder m mm1)
    by (unfold check_pending; by rewrite Hid, Hready1).
  rewrite Hcp. pose proof (finalise_settles m mm1 s1 W1) as Hset. rewrite Hid in Hset.
  destruct (Hset Hs1 Hready1) as (W2 & M2 & G2 & H2).
  destruct (rest_keeps id l2 _ W2 Hl2) as (W4 & M4 & G4 & H4).
  split; [exact W4|split; [congruence|split; [congruence|]]].
  apply H4; [rewrite M2, M1; apply settled_stable|]. rewrite <- M1. exact H2.
Qed.

Lemma CheckMigrations_waiting morder mm id m :
  iterates morder -> mm_wf mm -> mmMigrations mm !! id = Some m ->
  allReady mm id (mgNewReplicas m) = false -> keeps id mm (CheckMigrations sorder morder mm).
Proof.
  intros Ho Hwf Hm Hready. unfold CheckMigrations.
  destruct (pending_split morder mm id m Ho Hwf Hm) as (l1 & l2 & -> & Hl1 & Hl2). rewrite foldl_app. cbn [foldl].
  assert (Hid : mgShardID m = id) by (by apply Hwf).
  pose proof (pending_keeps id l1 mm Hwf Hl1) as K1. set (mm1 := foldl _ mm l1) in *.
  assert (Hcp : check_pending sorder mm1 m = mm1).
  { unfold check_pending. rewrite Hid. unfold allReady in *. by rewrite (proj1 (proj2 K1)), Hready. }
  rewrite Hcp. eapply keeps_trans; [exact K1|]. apply rest_keeps; [apply K1|done].
Qed.

(** A shard's replica set and tag survive reassignments. *)
Lemma same_replicas_stable mem rs inc : stable mem (fun x => shReplicas x = rs /\ shIncoming x = inc).
Proof. split; [|done]. intros lm x _ [Hr Hi]. unfold succeed. by destruct (successor lm x) as [[? ?]|]. Qed.

(** C28: One pass over the migrations decides each by its new replicas alone.  If
    they are all ready, the migration is over: the shard is on exactly the new
    replicas, no longer tagged, off the list, and led by a live one of them.  If
    not, it stays on the list and the shard keeps its replicas and its tag. *)
Theorem CheckMigrations_spec morder mm id m s :
  iterates morder -> mm_wf mm -> mmMigrations mm !! id = Some m -> mapShards (mmShards mm) !! id = Some s ->
  let mm' := CheckMigrations sorder morder mm in
  mm_wf mm' /\ mmMembership mm' = mmMembership mm /\
  exists s', mapShards (mmShards mm') !! id = Some s' /\
  (allReady mm id (mgNewReplicas m) = true ->
     mmMigrations mm' !! id = None /\ settled (mmMembership mm) (mgNewReplicas m) s') /\
  (allReady mm id (mgNewReplicas m) = false ->
     mmMigrations mm' !! id = Some m /\ shReplicas s' = shReplicas s /\ shIncoming s' = shIncoming s).
Proof.
  intros Ho Hwf Hm Hs mm'. destruct (allReady mm id (mgNewReplicas m)) eqn:Hready.
  - destruct (CheckMigrations_ready morder mm id m s Ho Hwf Hm Hs Hready) as (W & M & G & s' & Hs' & Hset).
    split; [exact W|split; [exact M|]]. by exists s'.
  - destruct (CheckMigrations_waiting morder mm id m Ho Hwf Hm Hready) as (W & M & G & H).
    destruct (H _ (same_replicas_stable _ (shReplicas s) (shIncoming s))) as (s' & Hs' & Hrep); [by exists s|].
    split; [exact W|split; [exact M|]]. exists s'. split_and!; [done|done|]. intros _. subst mm'. by rewrite G.
Qed.
End advancing.

(** ** Concrete migrations *)

Definition migrations1 : MigrationManager := NewMigrationManager leaders1.

Lemma migrations1_wf : mm_wf migrations1.
Proof. split; [exact members1_wf|split; [exact map1_wf|]]. apply map_Forall_empty. Qed.

(** [s1] is on its way to [n2] and [n3]. *)
Definition migrations2 : MigrationManager := (StartMigration "s1" ["n2"; "n3"] migrations1).2.

Lemma StartMigration_spec_witness : mm_wf migrations2.
Proof.
  pose proof (StartMigration_spec "s1" ["n2"; "n3"] migrations1 migrations1_wf) as Hspec.
  unfold migrations2. destruct (StartMigration "s1" ["n2"; "n3"] migrations1) as [res mm'].
  destruct Hspec as (_ & Hwf & _). exact Hwf.
Defined.

Lemma migrations2_wf : mm_wf migrations2.
Proof.
  split; [exact members1_wf|split; [|by apply (bool_decide_eq_true_1 _); vm_compute]].
  split; by apply (bool_decide_eq_true_1 _); vm_compute.
Qed.

Lemma CheckMigrations_spec_witness :
  exists s', mapShards (mmShards (CheckMigrations map_to_list map_to_list migrations2)) !! "s1" = Some s' /\
    shReplicas s' = ["n2"; "n3"] /\ is_alive members1 (shLeader s') = true.
Proof.
  destruct (CheckMigrations_spec map_to_list (fun m => Permutation_refl _) map_to_list migrations2 "s1"
    (mkMigration "s1" ["n2"; "n3"]) (mkShard "s1" ["n1"; "n2"; "n3"] "n1" "" ["n2"; "n3"])
    (fun m => Permutation_refl _) migrations2_wf ltac:(by vm_compute) ltac:(by vm_compute))
    as (_ & _ & s' & Hs & Hready & _).
  destruct (Hready ltac:(by vm_compute)) as (_ & Hr & _ & _ & Ha).
  exists s'. split; [exact Hs|split; [exact Hr|exact Ha]].
Defined.

(** A replica that reports itself as not ready counts as ready as soon as it has
    reported any version: the migration goes through, and a shard at version 100
    is handed to a node that has five of its entries. *)
Theorem lagging_replica_counts_as_ready :
  let behind := mkShardStatus "s1" "FOLLOWER" 5 false 1 in
  match RecordHeartbeat 100 "n2" [behind] (NewMembership nodes3 1000) with
  | Fail _ => False
  | Ok m =>
      let lm := mkLeaderManager map1 (RefreshLiveness map_to_list 150 m).2 {["s1" := 1]} in
      let mm := (StartMigration "s1" ["n2"] (NewMigrationManager lm)).2 in
      LeaderFor (mmShards (CheckMigrations map_to_list map_to_list mm)) "s1" = Ok "n2" /\
      mapShards (mmShards (CheckMigrations map_to_list map_to_list mm)) = {["s1" := mkShard "s1" ["n2"] "n2" "" []]}
  end.
Proof. by vm_compute. Qed.

(** Repeated names in the target set stay repeated in the widened set: two nodes
    need a quorum of three. *)
Theorem widen_keeps_duplicates :
  widen ["n1"] ["n2"; "n2"; "n2"] = ["n1"; "n2"; "n2"; "n2"] /\
  shQuorum (mkShard "s1" (widen ["n1"] ["n2"; "n2"; "n2"]) "n1" "" []) = 3.
Proof. by vm_compute. Qed.
