(* ===== verification/Coordinator.v ===== *)
(** The coordinator process: its server (src/coordinator/server.go) and its gRPC
    service (src/coordinator/grpc.go), and the shard map as it travels to the
    nodes (src/node/grpc_client.go).

    A request body is [None] when it cannot be decoded.  Metrics are in
    [CoordinatorMetrics.v]; logging and response headers are left out.  Handlers
    run one at a time; what concurrent requests can do in between is discussed
    in [Leader.v]. *)

From stdpp Require Import relations.
From S2P Require Import Prelude Config ShardMap Membership Leader Migration.

Record Coordinator := mkCoordinator {
  coMigration : MigrationManager;
  coReady : bool;
}.
#[global] Instance Coordinator_eta : Eta Coordinator := fun s => mkCoordinator (coMigration s) (coReady s).

Definition coLeader (s : Coordinator) : LeaderManager := mmLeader (coMigration s).
Definition coShards (s : Coordinator) : ShardMap := mmShards (coMigration s).
Definition coMembership (s : Coordinator) : Membership := mmMembership (coMigration s).

Definition set_leader (lm : LeaderManager) (s : Coordinator) : Coordinator :=
  s <| coMigration ::= fun mm => mm <| mmLeader := lm |> |>.
Definition set_membership (m : Membership) (s : Coordinator) : Coordinator :=
  set_leader (coLeader s <| lmMembership := m |>) s.

Definition Coordinator_New (cfg : ClusterConfig) : Coordinator :=
  mkCoordinator (NewMigrationManager (NewLeaderManager ShardMap_New
    (NewMembership (clNodes cfg) (ccFailureTimeout (clCoordinator cfg))))) false.

Definition Coordinator_Init (cfg : ClusterConfig) (s : Coordinator) : result maperr unit * Coordinator :=
  match InitFromConfig cfg (coLeader s) with
  | (Fail e, lm) => (Fail e, set_leader lm s)
  | (Ok _, lm) => (Ok tt, set_leader lm s <| coReady := true |>)
  end.

(** ** Heartbeats and queries *)

Inductive coerr :=
| CoBadRequest
| CoUnknownNode (e : memerr)
| CoNotFound (e : maperr)
| CoLeaderUnknown
| CoConflict (e : maperr)
| CoStale
| CoNotReady.

(** The shard map version the node is told. *)
Definition Heartbeat (now : Z) (nodeID : string) (shards : list ShardStatus) (s : Coordinator)
    : result coerr Z * Coordinator :=
  match RecordHeartbeat now nodeID shards (coMembership s) with
  | Fail e => (Fail (CoUnknownNode e), s)
  | Ok m => (Ok (mapVersion (coShards s)), set_membership m s)
  end.

Definition handleHeartbeat (now : Z) (body : option (string * list ShardStatus)) (s : Coordinator)
    : result coerr Z * Coordinator :=
  match body with
  | None => (Fail CoBadRequest, s)
  | Some (nodeID, shards) => Heartbeat now nodeID shards s
  end.

Record ShardMapResponse := mkShardMapResponse {
  smrVersion : Z;
  smrShards : list ShardInfo;
  smrNodeAddresses : gmap string string;
}.

Section orders.
Context (norder : gmap string NodeStatus -> list (string * NodeStatus)).
Context (sorder : gmap string ShardInfo -> list (string * ShardInfo)).
Context (morder : gmap string migration -> list (string * migration)).

Definition node_addresses (m : Membership) : gmap string string :=
  foldl (fun a ns => <[nstID ns := nstAddress ns]> a) ∅ (Membership_All norder m).

Definition buildShardMapResponse (s : Coordinator) : ShardMapResponse :=
  let '(version, shards) := ShardMap_Snapshot sorder (coShards s) in
  mkShardMapResponse version shards (node_addresses (coMembership s)).
End orders.

Record LeaderQueryResponse := mkLeaderQueryResponse {
  lqShardID : string;
  lqLeaderID : string;
  lqAddress : string;
  lqTerm : Z;
}.

(** [handleLeaderQuery] answers with the same fields. *)
Definition WhereIsLeader (shardID : string) (s : Coordinator) : result coerr LeaderQueryResponse :=
  match LeaderFor (coShards s) shardID with
  | Fail e => Fail (CoNotFound e)
  | Ok leader =>
      match Membership_Get (coMembership s) leader with
      | Fail _ => Fail CoLeaderUnknown
      | Ok ns => Ok (mkLeaderQueryResponse shardID leader (nstAddress ns) (TermForShard (coLeader s) shardID))
      end
  end.

Definition handleReady (s : Coordinator) : result coerr unit := if coReady s then Ok tt else Fail CoNotReady.

Record NodeHealth := mkNodeHealth { nhID : string; nhAddress : string; nhIsAlive : bool; nhLastHeartbeatMs : Z }.

Definition node_health (now : Z) (ns : NodeStatus) : NodeHealth :=
  mkNodeHealth (nstID ns) (nstAddress ns) (nstIsAlive ns)
    (if time_IsZero (nstLastHeartbeatAt ns) then -1
     else Z.quot (time_Sub now (nstLastHeartbeatAt ns)) millisecond).

Record ShardHealth := mkShardHealth {
  shhInfo : ShardInfo;
  shhTerm : Z;
  shhQuorumAlive : bool;
  shhReplicaVersions : gmap string Z;
  shhMaxReplicationLag : Z;
}.

(** The two loops over the replicas in [handleStatus]. *)
Definition replica_versions (m : Membership) (sh : ShardInfo) : gmap string Z * Z :=
  foldl (fun '(vs, leaderVersion) rep =>
           let v := VersionForShard m rep (shID sh) in
           (<[rep := v]> vs, if decide (rep = shLeader sh) then v else leaderVersion)) (∅, 0) (shReplicas sh).

Definition max_lag (vs : gmap string Z) (leaderVersion : Z) (reps : list string) : Z :=
  foldl (fun maxLag rep =>
           let v := default 0 (vs !! rep) in
           if (v <? leaderVersion) && (maxLag <? leaderVersion - v) then leaderVersion - v else maxLag) 0 reps.

Definition shard_health (s : Coordinator) (sh : ShardInfo) : ShardHealth :=
  let '(vs, leaderVersion) := replica_versions (coMembership s) sh in
  let aliveCount := Z.of_nat (length (filter (fun r => is_alive (coMembership s) r = true) (shReplicas sh))) in
  mkShardHealth sh (TermForShard (coLeader s) (shID sh)) (shQuorum sh <=? aliveCount) vs
    (max_lag vs leaderVersion (shReplicas sh)).

Record CoordinatorStatus := mkCoordinatorStatus {
  csShardMapVersion : Z;
  csNodes : list NodeHealth;
  csShards : list ShardHealth;
}.

Definition handleStatus (norder : gmap string NodeStatus -> list (string * NodeStatus))
    (sorder : gmap string ShardInfo -> list (string * ShardInfo)) (now : Z) (s : Coordinator) : CoordinatorStatus :=
  let '(version, shards) := ShardMap_Snapshot sorder (coShards s) in
  mkCoordinatorStatus version (node_health now <$> Membership_All norder (coMembership s)) (shard_health s <$> shards).

(** ** Election notices *)

(** Whether the notice was accepted, and the coordinator's term afterwards. *)
Definition coNotifyLeader (shardID leaderID : string) (term : Z) (s : Coordinator) : (bool * Z) * Coordinator :=
  let '(accepted, lm) := NotifyLeader shardID leaderID term (coLeader s) in
  let s := set_leader lm s in ((accepted, TermForShard (coLeader s) shardID), s).

Definition handleNotifyLeader (body : option (string * string * Z)) (s : Coordinator) : result coerr unit * Coordinator :=
  match body with
  | None => (Fail CoBadRequest, s)
  | Some (shardID, leaderID, term) =>
      if decide (shardID = "" \/ leaderID = "" \/ term = 0) then (Fail CoBadRequest, s)
      else let '(accepted, lm) := NotifyLeader shardID leaderID term (coLeader s) in
           (if accepted then Ok tt else Fail CoStale, set_leader lm s)
  end.

(** ** The health monitor *)

(** One tick. *)
Definition health_tick (norder : gmap string NodeStatus -> list (string * NodeStatus))
    (sorder : gmap string ShardInfo -> list (string * ShardInfo))
    (morder : gmap string migration -> list (string * migration)) (now : Z) (s : Coordinator) : Coordinator :=
  let '(changed, m) := RefreshLiveness norder now (coMembership s) in
  let s := set_membership m s in
  let s := match changed with
           | [] => s
           | _ => set_leader (CheckAndReassign sorder (coLeader s)).2 s
           end in
  s <| coMigration ::= CheckMigrations sorder morder |>.

(** ** Administration *)

Definition handleAdminAddNode (body : option (string * string)) (s : Coordinator) : result coerr unit * Coordinator :=
  match body with
  | None => (Fail CoBadRequest, s)
  | Some (nodeID, address) =>
      if decide (nodeID = "" \/ address = "") then (Fail CoBadRequest, s)
      else (Ok tt, set_membership (AddNode (mkNodeSpec nodeID address) (coMembership s)) s)
  end.

Definition handleAdminMigrateShard (body : option (string * list string)) (s : Coordinator)
    : result coerr unit * Coordinator :=
  match body with
  | None => (Fail CoBadRequest, s)
  | Some (shardID, newReplicas) =>
      if decide (shardID = "" \/ newReplicas = []) then (Fail CoBadRequest, s)
      else match StartMigration shardID newReplicas (coMigration s) with
           | (Fail _, mm) => (Fail CoBadRequest, s <| coMigration := mm |>)
           | (Ok _, mm) => (Ok tt, s <| coMigration := mm |>)
           end
  end.

Definition handleAdminSplitShard (body : option (string * string * list string)) (s : Coordinator)
    : result coerr unit * Coordinator :=
  match body with
  | None => (Fail CoBadRequest, s)
  | Some (source, newShard, newReplicas) =>
      if decide (source = "" \/ newShard = "" \/ newReplicas = []) then (Fail CoBadRequest, s)
      else match ShardMap_Get (coShards s) source with
           | Fail _ => (Fail CoBadRequest, s)
           | Ok _ =>
               match AddShard (coShards s) (mkShard newShard newReplicas "" source []) with
               | Fail e => (Fail (CoConflict e), s)
               | Ok m => (Ok tt, set_leader (InitTerm newShard (coLeader s <| lmShards := m |>)) s)
               end
           end
  end.

(** ** The shard map on the wire *)

Record PbShardInfo := mkPbShardInfo { pbShardId : string; pbLeader : string; pbReplicas : list string }.

Definition shardInfoToProto (shards : list ShardInfo) : list PbShardInfo :=
  (fun sh => mkPbShardInfo (shID sh) (shLeader sh) (shReplicas sh)) <$> shards.

(** What a node reads back (grpc_client.go). *)
Definition shardInfoFromProto (shards : list PbShardInfo) : list ShardInfo :=
  (fun sh => mkShard (pbShardId sh) (pbReplicas sh) (pbLeader sh) "" []) <$> shards.

Definition GetShardMap (norder : gmap string NodeStatus -> list (string * NodeStatus))
    (sorder : gmap string ShardInfo -> list (string * ShardInfo)) (s : Coordinator)
    : Z * list PbShardInfo * gmap string string :=
  let '(version, shards) := ShardMap_Snapshot sorder (coShards s) in
  (version, shardInfoToProto shards, node_addresses norder (coMembership s)).

(** [None] is a response without a shard map. *)
Definition shardMapResponseFromProto (resp : option (Z * list PbShardInfo * gmap string string)) : ShardMapResponse :=
  match resp with
  | None => mkShardMapResponse 0 [] ∅
  | Some (version, shards, addrs) => mkShardMapResponse version (shardInfoFromProto shards) addrs
  end.

(** ** The coordinator's invariant

    Nodes and shards are filed under their own ids, every leader is a replica of
    its shard, exactly the shards in the map have a term, and every migration on
    record is of a shard in the map. *)

Definition co_wf (mm : MigrationManager) : Prop :=
  mm_wf mm /\ dom (lmTerms (mmLeader mm)) = dom (mapShards (mmShards mm)) /\
  dom (mmMigrations mm) ⊆ dom (mapShards (mmShards mm)).

(** All of it but the leaders, which the configuration may have named badly. *)
Record co_books (mm : MigrationManager) : Prop := {
  cb_nodes : mem_wf (mmMembership mm);
  cb_shards : map_filed (mmShards mm);
  cb_filed : map_Forall (fun id m => mgShardID m = id) (mmMigrations mm);
  cb_terms : dom (lmTerms (mmLeader mm)) = dom (mapShards (mmShards mm));
  cb_migrations : dom (mmMigrations mm) ⊆ dom (mapShards (mmShards mm));
}.

Lemma co_wf_iff mm : co_wf mm <-> co_books mm /\ leaders_from (fun _ _ => False) (mmShards mm).
Proof.
  unfold co_wf, mm_wf. rewrite map_wf_iff. split.
  - intros ((? & [? ?] & ?) & ? & ?). by split.
  - intros [[] ?]. done.
Qed.

(** The mutations of existing shards. *)
Definition in_place (op : map_op) : Prop :=
  match op with OpAddShard _ | OpRemoveShard _ => False | _ => True end.

Lemma in_place_dom op m m' : in_place op -> map_run op m = Ok m' -> dom (mapShards m') = dom (mapShards m).
Proof.
  destruct op; simpl; try done; intros _;
    unfold SetLeader, SetReplicas, SetIncomingReplicas, ClearBootstrapSource;
    destruct (mapShards m !! _) as [s|] eqn:Hs; try done; repeat case_decide; intros [= <-]; try done;
    simpl; apply dom_insert_lookup_L; by rewrite Hs.
Qed.

Lemma in_place_books op m mm :
  in_place op -> co_books mm -> map_run op (mmShards mm) = Ok m -> co_books (set_shards m mm).
Proof.
  intros Hop [] Hrun. pose proof (in_place_dom op _ _ Hop Hrun) as Hdom.
  split; unfold mmShards, mmMembership in *; simpl; try rewrite Hdom; try done. by eapply map_run_filed.
Qed.

Section invariant.
Context (sorder : gmap string ShardInfo -> list (string * ShardInfo)) (Hsorder : iterates sorder).

Lemma succeed_id lm s : shID (succeed lm s) = shID s.
Proof. unfold succeed. by destruct (successor lm s) as [[c t]|]. Qed.

Lemma reassign_books mm : co_books mm -> co_books (reassign sorder mm).
Proof.
  intros [Hm Hs Hk Ht Hd]. pose proof (CheckAndReassign_facts sorder Hsorder (mmLeader mm) Hm Hs) as Hf.
  unfold reassign, mmMembership, mmShards in *. destruct (CheckAndReassign sorder (mmLeader mm)) as [ch lm'].
  destruct Hf as (Hm' & Hs' & Ht' & _ & _ & Hv).
  assert (Hdom : dom (mapShards (lmShards lm')) = dom (mapShards (lmShards (mmLeader mm)))) by (by rewrite Hs', dom_fmap_L).
  split; unfold mmMembership, mmShards; simpl; [by rewrite Hm'| |done| |by rewrite Hdom].
  - split; [rewrite Hv; by apply Z.mod_pos_bound|]. rewrite Hs'. intros id s'. rewrite lookup_fmap_Some.
    intros (s & <- & Hl). rewrite succeed_id. by apply Hs.
  - rewrite Hdom, <- Ht. apply set_eq. intros id. rewrite !elem_of_dom, Ht'.
    destruct (mapShards (lmShards (mmLeader mm)) !! id) as [s|] eqn:Hid; simpl; [|done].
    destruct (successor (mmLeader mm) s) as [[c t]|]; [|done]. split; [|by eauto]. intros _. apply elem_of_dom.
    rewrite Ht. by apply elem_of_dom_2 in Hid.
Qed.

Lemma finaliseMigration_books m mm : co_books mm -> co_books (finaliseMigration sorder m mm).
Proof.
  intros Hwf. unfold finaliseMigration. destruct (SetReplicas _ _ _) as [s1|e] eqn:H1; [|done].
  apply (in_place_books (OpSetReplicas (mgShardID m) (mgNewReplicas m))) in H1; [|done|done]. cbn zeta.
  assert (Hrest : forall mm', co_books mm' -> co_books (reassign sorder mm' <| mmMigrations ::= delete (mgShardID m) |>)).
  { intros mm' Hmm. destruct (reassign_books mm' Hmm) as [? ? ? ? Hd]. split; try done; [by apply map_Forall_delete|].
    simpl. etrans; [|exact Hd]. rewrite dom_delete_L. set_solver. }
  destruct (SetIncomingReplicas _ _ _) as [s2|e] eqn:H2; apply Hrest; [|done].
  by apply (in_place_books (OpSetIncoming (mgShardID m) [])) in H2.
Qed.

Lemma check_split_books mm sh : co_books mm -> co_books (check_split sorder mm sh).
Proof.
  intros Hwf. unfold check_split. case_decide; [done|]. destruct (negb _); [done|].
  destruct (ClearBootstrapSource _ _) as [s1|e] eqn:H1; [|done].
  apply (in_place_books (OpClearBootstrap (shID sh))) in H1; [|done|done].
  case_decide; [by apply reassign_books|done].
Qed.

Lemma foldl_books {A} (f : MigrationManager -> A -> MigrationManager) l mm :
  (forall mm a, co_books mm -> co_books (f mm a)) -> co_books mm -> co_books (foldl f mm l).
Proof. intros Hf. revert mm. induction l as [|a l IH]; intros mm Hmm; [done|]. by apply IH, Hf. Qed.

Lemma CheckMigrations_books morder mm : co_books mm -> co_books (CheckMigrations sorder morder mm).
Proof.
  intros Hwf. unfold CheckMigrations. apply foldl_books; [apply check_split_books|]. apply foldl_books; [|done].
  intros mm' m Hmm. unfold check_pending. case_match; [by apply finaliseMigration_books|done].
Qed.
End invariant.

Lemma set_membership_books m s : co_books (coMigration s) -> mem_wf m -> co_books (coMigration (set_membership m s)).
Proof. by intros [] Hm. Qed.

Lemma health_tick_books norder sorder morder now s :
  iterates sorder -> co_books (coMigration s) -> co_books (coMigration (health_tick norder sorder morder now s)).
Proof.
  intros Ho Hwf. unfold health_tick.
  pose proof (RefreshLiveness_wf norder now (coMembership s) (cb_nodes _ Hwf)) as Hm.
  destruct (RefreshLiveness norder now (coMembership s)) as [changed m].
  apply (CheckMigrations_books sorder Ho morder). apply (set_membership_books m s) in Hm; [|done].
  destruct changed; [done|]. exact (reassign_books sorder Ho _ Hm).
Qed.

Lemma NotifyLeader_books id n t s :
  co_books (coMigration s) -> co_books (coMigration (set_leader (NotifyLeader id n t (coLeader s)).2 s)).
Proof.
  intros Hwf. unfold NotifyLeader. destruct (lmTerms (coLeader s) !! id) as [cur|] eqn:Ht; [|by destruct s as [[? ?] ?]].
  destruct (t <=? cur); [by destruct s as [[? ?] ?]|].
  destruct (SetLeader _ id n) as [m|e] eqn:Hset; [|by destruct s as [[? ?] ?]].
  apply (in_place_books (OpSetLeader id n)) in Hset as [? ? ? Hterms ?]; [|done|done].
  split; try done. etrans; [|exact Hterms]. simpl. apply dom_insert_lookup_L. unfold coLeader in Ht. by rewrite Ht.
Qed.

Lemma migrate_books id new mm : co_books mm -> co_books (StartMigration id new mm).2.
Proof.
  intros Hwf. unfold StartMigration. destruct (ShardMap_Get _ _) as [sh|e] eqn:Hget; [|done].
  assert (Hin : id ∈ dom (mapShards (mmShards mm))).
  { unfold ShardMap_Get in Hget. case_match eqn:Hl; [|done]. by apply elem_of_dom_2 in Hl. }
  destruct (SetReplicas _ _ _) as [m1|e] eqn:H1; [|done].
  pose proof (in_place_dom (OpSetReplicas id _) _ _ I H1) as D1.
  apply (in_place_books (OpSetReplicas id (widen (shReplicas sh) new))) in H1; [|done|done]. cbn zeta.
  destruct (SetIncomingReplicas _ _ _) as [m2|e] eqn:H2; [|done].
  pose proof (in_place_dom (OpSetIncoming id _) _ _ I H2) as D2.
  apply (in_place_books (OpSetIncoming id new)) in H2 as [? ? ? ? Hd]; [|done|done].
  split; try done; [by apply map_Forall_insert_2|]. simpl in *.
  rewrite dom_insert_L. apply union_subseteq. split; [|done].
  unfold mmShards in *. simpl in *. rewrite D2, D1. set_solver.
Qed.

Lemma split_books source newShard new s :
  co_books (coMigration s) -> co_books (coMigration (handleAdminSplitShard (Some (source, newShard, new)) s).2).
Proof.
  intros Hwf. simpl. case_decide; [done|]. destruct (ShardMap_Get _ _); [|done].
  destruct (AddShard _ _) as [m|e] eqn:Ha; [|done]. cbn [snd]. destruct Hwf as [Hm Hs Hk Ht Hd].
  assert (Hwf' : map_filed m) by (exact (map_run_filed (OpAddShard (mkShard newShard new "" source [])) _ _ Hs Ha)).
  unfold AddShard in Ha. simpl in Ha. destruct (mapShards (coShards s) !! newShard) eqn:Hnew; [done|].
  injection Ha as <-. unfold InitTerm. simpl.
  assert (Hnone : lmTerms (coLeader s) !! newShard = None).
  { apply not_elem_of_dom. unfold coLeader. rewrite Ht. by apply not_elem_of_dom. }
  rewrite Hnone. split; try done; unfold mmShards in *; simpl; rewrite !dom_insert_L; unfold coLeader, coShards, mmShards in *;
    [by rewrite Ht|set_solver].
Qed.

(** *** Starting up *)

Lemma New_books cfg :
  Forall (fun n => nsID n <> "" /\ nsAddress n <> "") (clNodes cfg) -> co_books (coMigration (Coordinator_New cfg)).
Proof. intros Hn. split; [by apply NewMembership_wf|done|apply map_Forall_empty|done|done]. Qed.

(** A shard specification whose initial leader, if any, is one of its replicas. *)
Definition spec_ok (sp : ShardSpec) : Prop := spInitialLeader sp = "" \/ spInitialLeader sp ∈ spReplicas sp.

Lemma init_shards_books specs mm : co_books mm -> co_books (mm <| mmLeader := (init_shards specs (mmLeader mm)).2 |>).
Proof.
  revert mm. induction specs as [|sp specs IH]; intros [lm mg] Hwf; [exact Hwf|]. cbn [init_shards mmLeader].
  destruct (AddShard _ _) as [m|e] eqn:Ha; [|exact Hwf]. pose proof Hwf as [Hm Hms Hk Ht Hd]. simpl in *.
  assert (Hwf' : map_filed m) by (exact (map_run_filed
    (OpAddShard (mkShard (spID sp) (spReplicas sp) (spInitialLeader sp) "" [])) _ _ Hms Ha)).
  unfold AddShard in Ha. simpl in Ha. destruct (mapShards (lmShards lm) !! spID sp) eqn:Hnew; [done|].
  injection Ha as <-. set (lm' := store_term _ _ _). apply (IH (mkMigrationManager lm' mg)).
  split; try done; unfold mmShards in *; simpl in *; rewrite !dom_insert_L; [by rewrite Ht|set_solver].
Qed.

Lemma Init_books cfg s : co_books (coMigration s) -> co_books (coMigration (Coordinator_Init cfg s).2).
Proof.
  intros Hwf. unfold Coordinator_Init, InitFromConfig.
  pose proof (init_shards_books (clShards cfg) (coMigration s) Hwf) as Hi. unfold coLeader.
  by destruct (init_shards (clShards cfg) (mmLeader (coMigration s))) as [[[]|e] lm].
Qed.

(** *** Runs

    Everything that changes the coordinator's state, with every order Go may
    choose for its maps. *)

Inductive co_step : Coordinator -> Coordinator -> Prop :=
| co_heartbeat s now nodeID shards : co_step s (Heartbeat now nodeID shards s).2
| co_heartbeat_http s now body : co_step s (handleHeartbeat now body s).2
| co_notify s shardID leaderID term : co_step s (coNotifyLeader shardID leaderID term s).2
| co_notify_http s body : co_step s (handleNotifyLeader body s).2
| co_tick s norder sorder morder now :
    iterates norder -> iterates sorder -> iterates morder -> co_step s (health_tick norder sorder morder now s)
| co_add_node s body : co_step s (handleAdminAddNode body s).2
| co_migrate s body : co_step s (handleAdminMigrateShard body s).2
| co_split s body : co_step s (handleAdminSplitShard body s).2.

Lemma Heartbeat_books now nodeID shards s :
  co_books (coMigration s) -> co_books (coMigration (Heartbeat now nodeID shards s).2).
Proof.
  intros Hwf. unfold Heartbeat. destruct (RecordHeartbeat _ _ _ _) as [m|e] eqn:Hr; [|done].
  apply RecordHeartbeat_wf in Hr; [|apply Hwf]. by apply set_membership_books.
Qed.

Lemma co_step_books s s' : co_step s s' -> co_books (coMigration s) -> co_books (coMigration s').
Proof.
  intros [] Hwf; try done.
  - by apply Heartbeat_books.
  - destruct body as [[nodeID shards]|]; [by apply Heartbeat_books|done].
  - unfold coNotifyLeader. pose proof (NotifyLeader_books shardID leaderID term s0 Hwf) as Hn.
    by destruct (NotifyLeader shardID leaderID term (coLeader s0)).
  - destruct body as [[[shardID leaderID] term]|]; [|done]. simpl. case_decide; [done|].
    pose proof (NotifyLeader_books shardID leaderID term s0 Hwf) as Hn.
    by destruct (NotifyLeader shardID leaderID term (coLeader s0)).
  - by apply health_tick_books.
  - destruct body as [[nodeID address]|]; [|done]. simpl. case_decide; [done|].
    apply set_membership_books; [done|]. apply AddNode_wf; [apply Hwf|]. simpl. naive_solver.
  - destruct body as [[shardID new]|]; [|done]. simpl. case_decide; [done|].
    pose proof (migrate_books shardID new (coMigration s0) Hwf) as Hm.
    by destruct (StartMigration shardID new (coMigration s0)) as [[[]|e] mm].
  - destruct body as [[[source newShard] new]|]; [by apply split_books|done].
Qed.

(** *** The history of the shard map

    Every operation of the coordinator changes the map by mutations only, each
    of which is [ok]. *)
Definition evolves (ok : map_op -> Prop) (m m' : ShardMap) : Prop :=
  exists ops, Forall ok ops /\ m' = foldl map_exec m ops.

#[global] Instance evolves_preorder ok : PreOrder (evolves ok).
Proof.
  split; [by exists []|]. intros m1 m2 m3 (ops1 & H1 & ->) (ops2 & H2 & ->). exists (ops1 ++ ops2).
  rewrite foldl_app. split; [by apply Forall_app|done].
Qed.

Lemma evolves_impl (ok ok' : map_op -> Prop) m m' : (forall op, ok op -> ok' op) -> evolves ok m m' -> evolves ok' m m'.
Proof. intros Hi (ops & Hops & ->). exists ops. split; [by eapply Forall_impl|done]. Qed.

Lemma evolves_run (ok : map_op -> Prop) op m m' : ok op -> map_run op m = Ok m' -> evolves ok m m'.
Proof. intros Hop Hr. exists [op]. simpl. unfold map_exec. rewrite Hr. split; [by constructor|done]. Qed.

Lemma evolves_leaders named m m' : evolves (map_op_from named) m m' -> leaders_from named m -> leaders_from named m'.
Proof.
  intros (ops & Hops & ->). revert m. induction Hops as [|op ops Hop _ IH]; intros m Hm; [done|]. simpl. apply IH.
  unfold map_exec. destruct (map_run op m) as [m1|e] eqn:Hr; [by eapply map_run_leaders|done].
Qed.

(** Mutations of the shards there are. *)
Abbreviation updates := (evolves in_place).

Lemma updates_dom m m' : updates m m' -> dom (mapShards m') = dom (mapShards m).
Proof.
  intros (ops & Hops & ->). revert m. induction Hops as [|op ops Hop Hops IH]; intros m; [done|]. simpl. rewrite IH.
  unfold map_exec. destruct (map_run op m) as [m1|e] eqn:Hr; [|done]. by eapply in_place_dom.
Qed.

(** Mutations that bring no leader that is not a replica. *)
Lemma updates_ok m m' : updates m m' -> evolves map_op_ok m m'.
Proof. apply evolves_impl. by intros []. Qed.

Lemma promote_updates shard lm : updates (lmShards lm) (lmShards (promote shard lm).2).
Proof.
  unfold promote. destruct (pickCandidate lm shard) as [c t]. case_decide; [done|].
  destruct (SetLeader _ _ c) as [m|e] eqn:Hs; [|done]. by apply (evolves_run in_place (OpSetLeader (shID shard) c)).
Qed.

Lemma reassign_all_updates shards lm : updates (lmShards lm) (lmShards (reassign_all shards lm).2).
Proof.
  revert lm. induction shards as [|sh shards IH]; intros lm; [done|]. cbn [reassign_all].
  assert (Hone : updates (lmShards lm) (lmShards (reassign_shard sh lm).2)).
  { unfold reassign_shard. case_decide; [apply promote_updates|]. destruct (negb _); [apply promote_updates|done]. }
  destruct (reassign_shard sh lm) as [changed lm1]. specialize (IH lm1).
  destruct (reassign_all shards lm1) as [changed' lm2]. by etrans.
Qed.

Lemma reassign_updates sorder mm : updates (mmShards mm) (mmShards (reassign sorder mm)).
Proof. apply reassign_all_updates. Qed.

Lemma finalise_updates sorder m mm : updates (mmShards mm) (mmShards (finaliseMigration sorder m mm)).
Proof.
  unfold finaliseMigration. destruct (SetReplicas _ _ _) as [s|e] eqn:Hs; [|done].
  assert (H1 : updates (mmShards mm) s) by (by apply (evolves_run in_place (OpSetReplicas (mgShardID m) (mgNewReplicas m)))).
  cbv zeta. etrans; [exact H1|].
  destruct (SetIncomingReplicas _ _ _) as [s'|e] eqn:Hi.
  - etrans; [by apply (evolves_run in_place (OpSetIncoming (mgShardID m) []) s s')|].
    apply (reassign_updates sorder (set_shards s' (set_shards s mm))).
  - apply (reassign_updates sorder (set_shards s mm)).
Qed.

Lemma check_split_updates sorder mm sh : updates (mmShards mm) (mmShards (check_split sorder mm sh)).
Proof.
  unfold check_split. case_decide; [done|]. destruct (negb _); [done|].
  destruct (ClearBootstrapSource _ _) as [s|e] eqn:Hs; [|done].
  etrans; [by apply (evolves_run in_place (OpClearBootstrap (shID sh)) (mmShards mm) s)|].
  case_decide; [apply (reassign_updates sorder (set_shards s mm))|done].
Qed.

Lemma foldl_updates {A} (f : MigrationManager -> A -> MigrationManager) l mm :
  (forall mm a, updates (mmShards mm) (mmShards (f mm a))) -> updates (mmShards mm) (mmShards (foldl f mm l)).
Proof. intros Hf. revert mm. induction l as [|a l IH]; intros mm; [done|]. simpl. etrans; [apply Hf|apply IH]. Qed.

Lemma CheckMigrations_updates sorder morder mm : updates (mmShards mm) (mmShards (CheckMigrations sorder morder mm)).
Proof.
  unfold CheckMigrations. cbv zeta. etrans; [|apply foldl_updates, check_split_updates].
  apply foldl_updates. intros mm' m. unfold check_pending. destruct (allReady _ _ _); [apply finalise_updates|done].
Qed.

Lemma NotifyLeader_updates id n t lm : updates (lmShards lm) (lmShards (NotifyLeader id n t lm).2).
Proof.
  unfold NotifyLeader. destruct (lmTerms lm !! id); [|done]. destruct (_ <=? _); [done|].
  destruct (SetLeader _ id n) as [m|e] eqn:Hs; [|done]. by apply (evolves_run in_place (OpSetLeader id n)).
Qed.

Lemma StartMigration_updates id new mm : updates (mmShards mm) (mmShards (StartMigration id new mm).2).
Proof.
  unfold StartMigration. destruct (ShardMap_Get _ _) as [sh|e]; [|done].
  destruct (SetReplicas _ _ _) as [m|e] eqn:Hs; [|done].
  assert (H1 : updates (mmShards mm) m) by (by apply (evolves_run in_place (OpSetReplicas id (widen (shReplicas sh) new)))).
  cbv zeta. destruct (SetIncomingReplicas _ _ _) as [m'|e] eqn:Hi; [|exact H1].
  etrans; [exact H1|]. by apply (evolves_run in_place (OpSetIncoming id new) m m').
Qed.

Lemma health_tick_updates norder sorder morder now s :
  updates (coShards s) (coShards (health_tick norder sorder morder now s)).
Proof.
  unfold health_tick. destruct (RefreshLiveness norder now (coMembership s)) as [changed m]. cbv zeta.
  destruct changed as [|c changed]; [apply (CheckMigrations_updates sorder morder (coMigration (set_membership m s)))|].
  etrans; [apply (reassign_updates sorder (coMigration (set_membership m s)))|].
  apply (CheckMigrations_updates sorder morder (reassign sorder (coMigration (set_membership m s)))).
Qed.

Lemma co_step_evolves s s' : co_step s s' -> evolves map_op_ok (coShards s) (coShards s').
Proof.
  intros [].
  - unfold Heartbeat. by destruct (RecordHeartbeat _ _ _ _).
  - destruct body as [[nodeID shards]|]; [|done]. simpl. unfold Heartbeat. by destruct (RecordHeartbeat _ _ _ _).
  - unfold coNotifyLeader. pose proof (updates_ok _ _ (NotifyLeader_updates shardID leaderID term (coLeader s0))) as Hn.
    by destruct (NotifyLeader shardID leaderID term (coLeader s0)).
  - destruct body as [[[shardID leaderID] term]|]; [|done]. simpl. case_decide; [done|].
    pose proof (updates_ok _ _ (NotifyLeader_updates shardID leaderID term (coLeader s0))) as Hn.
    by destruct (NotifyLeader shardID leaderID term (coLeader s0)) as [[] lm].
  - apply updates_ok, health_tick_updates.
  - destruct body as [[nodeID address]|]; [|done]. simpl. by case_decide.
  - destruct body as [[shardID new]|]; [|done]. simpl. case_decide; [done|].
    pose proof (updates_ok _ _ (StartMigration_updates shardID new (coMigration s0))) as Hm.
    by destruct (StartMigration shardID new (coMigration s0)) as [[] mm].
  - destruct body as [[[source newShard] new]|]; [|done]. simpl. case_decide; [done|].
    destruct (ShardMap_Get _ _); [|done]. destruct (AddShard _ _) as [m|e] eqn:Ha; [|done].
    apply (evolves_run map_op_ok (OpAddShard (mkShard newShard new "" source []))) in Ha; [|by left]. simpl. unfold InitTerm.
    by destruct (lmTerms _ !! _).
Qed.

Lemma Init_evolves named cfg s :
  Forall (fun sp => spec_ok sp \/ named (spID sp) (spInitialLeader sp)) (clShards cfg) ->
  evolves (map_op_from named) (coShards s) (coShards (Coordinator_Init cfg s).2).
Proof.
  intros Hs. unfold Coordinator_Init, InitFromConfig.
  assert (Hev : evolves (map_op_from named) (coShards s) (lmShards (init_shards (clShards cfg) (coLeader s)).2)).
  { change (coShards s) with (lmShards (coLeader s)). generalize (coLeader s).
    induction Hs as [|sp specs Hsp _ IH]; intros lm; [done|]. cbn [init_shards]. destruct (AddShard _ _) as [m|e] eqn:Ha; [|done].
    etrans; [by apply (evolves_run _ (OpAddShard (mkShard (spID sp) (spReplicas sp) (spInitialLeader sp) "" [])) _ m)|].
    match goal with |- evolves _ _ (lmShards (init_shards _ ?lm1).2) => exact (IH lm1) end. }
  by destruct (init_shards (clShards cfg) (coLeader s)) as [[] lm].
Qed.

Lemma co_step_leaders named s s' : co_step s s' -> leaders_from named (coShards s) -> leaders_from named (coShards s').
Proof.
  intros Hstep. apply evolves_leaders. eapply evolves_impl, co_step_evolves; [|done]. intros []; try done. by left.
Qed.

Lemma co_step_wf s s' : co_step s s' -> co_wf (coMigration s) -> co_wf (coMigration s').
Proof. rewrite !co_wf_iff. intros Hstep [Hb Hl]. split; [by eapply co_step_books|by eapply (co_step_leaders _ s s')]. Qed.

Lemma New_wf cfg :
  Forall (fun n => nsID n <> "" /\ nsAddress n <> "") (clNodes cfg) -> co_wf (coMigration (Coordinator_New cfg)).
Proof. intros Hn. apply co_wf_iff. split; [by apply New_books|apply map_Forall_empty]. Qed.

Lemma Init_wf cfg s :
  Forall spec_ok (clShards cfg) -> co_wf (coMigration s) -> co_wf (coMigration (Coordinator_Init cfg s).2).
Proof.
  rewrite !co_wf_iff. intros Hs [Hb Hl]. split; [by apply Init_books|].
  eapply (evolves_leaders _ (coShards s)); [|done]. apply Init_evolves. eapply Forall_impl; [exact Hs|]. by left.
Qed.

Lemma set_membership_wf m s : co_wf (coMigration s) -> mem_wf m -> co_wf (coMigration (set_membership m s)).
Proof. rewrite !co_wf_iff. intros [Hb Hl] Hm. split; [by apply set_membership_books|done]. Qed.

Lemma parsed_nodes unmarshal data cfg :
  ParseClusterConfig unmarshal data = Ok cfg -> Forall (fun n => nsID n <> "" /\ nsAddress n <> "") (clNodes cfg).
Proof.
  unfold ParseClusterConfig. destruct (unmarshal data) as [raw|]; [|done]. rewrite result_bind_ok.
  intros ([] & Hv & [= <-]). simpl. unfold Cluster_validate in Hv. repeat case_decide; try done.
  apply result_bind_ok in Hv as (ids & Hn & _). by apply validate_nodes_ok in Hn as [_ ?].
Qed.

(** The leader the configuration names for a shard. *)
Definition named_in (cfg : ClusterConfig) (id leader : string) : Prop :=
  exists sp, sp ∈ clShards cfg /\ spID sp = id /\ spInitialLeader sp = leader.

(** C13: From any configuration that parses, whatever sequence of heartbeats,
    election notices, monitor ticks and administrative requests follows: nodes,
    shards and migrations stay filed under their own ids, exactly the shards of
    the map have a term, every migration on record is of a shard in the map, and
    the leader of a shard, if it has one, is one of its replicas or still the one
    the configuration named for it.  Parsing does not ask for the latter to be a
    replica; if they all are, every leader always is. *)
Theorem coordinator_invariant unmarshal data cfg s :
  ParseClusterConfig unmarshal data = Ok cfg ->
  rtc co_step (Coordinator_Init cfg (Coordinator_New cfg)).2 s ->
  co_books (coMigration s) /\ leaders_from (named_in cfg) (coShards s) /\
  (Forall spec_ok (clShards cfg) -> co_wf (coMigration s)).
Proof.
  intros Hp Hrtc. pose proof (New_books cfg (parsed_nodes _ _ _ Hp)) as Hnew.
  assert (Hnamed : leaders_from (named_in cfg) (coShards (Coordinator_Init cfg (Coordinator_New cfg)).2)).
  { eapply (evolves_leaders _ ShardMap_New), map_Forall_empty. apply (Init_evolves _ cfg (Coordinator_New cfg)).
    apply Forall_forall. intros sp Hin. right. by exists sp. }
  assert (Hwf : Forall spec_ok (clShards cfg) -> co_wf (coMigration (Coordinator_Init cfg (Coordinator_New cfg)).2))
    by (intros; eapply Init_wf, New_wf, parsed_nodes; done).
  apply (Init_books cfg) in Hnew. revert Hnew Hnamed Hwf.
  induction Hrtc as [|s1 s2 s3 Hstep _ IH]; [done|]. intros Hb Hl Hw.
  apply IH; [by eapply co_step_books|by eapply co_step_leaders|]. intros Hs. by eapply co_step_wf, Hw.
Qed.

(** ** Failover *)

(** A leader the coordinator has heard from recently survives the pass over the
    migrations, or is replaced by another such. *)
Definition led (mem : Membership) (s : ShardInfo) : Prop := is_alive mem (shLeader s) = true.

Lemma led_stable mem : stable mem (led mem).
Proof. split; [|done]. intros lm s <- Hl. unfold led in *. by rewrite succeed_alive. Qed.

Lemma CheckMigrations_led sorder morder mm id :
  iterates sorder -> iterates morder -> mm_wf mm -> holds id (led (mmMembership mm)) mm ->
  mmMembership (CheckMigrations sorder morder mm) = mmMembership mm /\
  holds id (led (mmMembership mm)) (CheckMigrations sorder morder mm).
Proof.
  intros Hs Hm Hwf Hh. destruct (mmMigrations mm !! id) as [m|] eqn:Hmg.
  2:{ destruct (CheckMigrations_idle sorder Hs morder mm id Hm Hwf Hmg) as (_ & M & _ & H).
      split; [done|]. apply H; [apply led_stable|done]. }
  destruct (allReady mm id (mgNewReplicas m)) eqn:Hready.
  - destruct Hh as (s & Hl & _).
    destruct (CheckMigrations_ready sorder Hs morder mm id m s Hm Hwf Hmg Hl Hready) as (_ & M & _ & s' & Hs' & Hset).
    split; [done|]. exists s'. split; [done|]. apply Hset.
  - destruct (CheckMigrations_waiting sorder Hs morder mm id m Hm Hwf Hmg Hready) as (_ & M & _ & H).
    split; [done|]. apply H; [apply led_stable|done].
Qed.

Lemma reassign_led sorder mm id shard r :
  iterates sorder -> mm_wf mm -> mapShards (mmShards mm) !! id = Some shard ->
  r ∈ shReplicas shard -> is_alive (mmMembership mm) r = true ->
  holds id (led (mmMembership mm)) (reassign sorder mm).
Proof.
  intros Hs Hwf Hid Hr Ha. destruct (reassign_shards sorder Hs mm Hwf) as (Hsh & _ & _).
  exists (succeed (mmLeader mm) shard). rewrite Hsh, lookup_fmap, Hid. split; [done|].
  unfold succeed, led. destruct (successor (mmLeader mm) shard) as [[c t]|] eqn:Hsu.
  - apply successor_Some in Hsu as (_ & (_ & _ & Hal) & _); [exact Hal|apply Hwf].
  - destruct (is_alive (mmMembership mm) (shLeader shard)) eqn:Hl; [done|].
    apply successor_None in Hsu as [Hnh|Hno]; [by destruct Hnh| |apply Hwf].
    destruct (Hno r). split_and!; [done|intros ->; congruence|exact Ha].
Qed.

(** When the leader of a shard falls silent, the first tick of the health
    monitor that notices it puts the shard under a live leader, provided another
    replica has reported recently, whatever migrations and splits are going on. *)
Theorem failover norder sorder morder now s id shard l r rn :
  iterates norder -> iterates sorder -> iterates morder -> co_wf (coMigration s) ->
  mapShards (coShards s) !! id = Some shard ->
  memNodes (coMembership s) !! shLeader shard = Some l -> nstIsAlive l = true ->
  memTimeout (coMembership s) <= time_Sub now (nstLastHeartbeatAt l) ->
  r ∈ shReplicas shard -> memNodes (coMembership s) !! r = Some rn -> nstLastHeartbeatAt rn <> 0 ->
  time_Sub now (nstLastHeartbeatAt rn) < memTimeout (coMembership s) ->
  let s' := health_tick norder sorder morder now s in
  exists shard', mapShards (coShards s') !! id = Some shard' /\
    shLeader shard' ∈ shReplicas shard' /\ is_alive (coMembership s') (shLeader shard') = true /\
    is_alive (coMembership s') (shLeader shard) = false.
Proof.
  intros Hn Hs Hm Hwf Hid Hl Hla Hsil Hr Hrn Hr0 Hrt s'.
  pose proof (co_step_wf _ _ (co_tick s norder sorder morder now Hn Hs Hm) Hwf) as Hwf'. fold s' in Hwf'.
  enough (Hh : exists shard', mapShards (coShards s') !! id = Some shard' /\ led (coMembership s') shard' /\
    is_alive (coMembership s') (shLeader shard) = false).
  { destruct Hh as (shard' & Hid' & Hled & Hdead). exists shard'. split_and!; [done| |done|done].
    destruct (map_wf_lookup _ _ _ (proj1 (proj2 (proj1 Hwf'))) Hid') as [_ [He|Hin]]; [|done].
    unfold led in Hled. rewrite He, is_alive_empty in Hled; [done|apply Hwf']. }
  pose proof (refreshed_alive norder now _ _ _ Hl) as Al. pose proof (refreshed_alive norder now _ _ _ Hrn) as Ar.
  pose proof (refreshed_changed norder now (coMembership s) _ _ Hn (proj1 (proj1 Hwf)) Hl) as Hch.
  pose proof (RefreshLiveness_wf norder now (coMembership s) (proj1 (proj1 Hwf))) as Hmw.
  rewrite alive_at_iff, bool_decide_eq_true_2 in Ar by done.
  rewrite alive_at_iff, bool_decide_eq_false_2 in Al, Hch by (intros [_ ?]; lia).
  subst s'. unfold health_tick. destruct (RefreshLiveness norder now (coMembership s)) as [changed m]. cbn [fst snd] in *.
  destruct changed as [|c changed]; [exfalso; rewrite Hla in Hch; by apply (elem_of_nil (shLeader shard)), Hch|].
  pose proof (set_membership_wf m s Hwf Hmw) as Hwf1. set (mm1 := coMigration (set_membership m s)) in *.
  destruct (reassign_shards sorder Hs mm1 (proj1 Hwf1)) as (_ & Hmem & Hwf2).
  destruct (CheckMigrations_led sorder morder (reassign sorder mm1) id Hs Hm Hwf2) as [M (s2 & Hs2 & Hl2)].
  { rewrite Hmem. apply (reassign_led sorder mm1 id shard r); [done|apply Hwf1|exact Hid|done|exact Ar]. }
  exists s2. split; [exact Hs2|]. unfold led in *. rewrite Hmem in Hl2.
  change (is_alive (mmMembership (CheckMigrations sorder morder (reassign sorder mm1))) (shLeader s2) = true /\
    is_alive (mmMembership (CheckMigrations sorder morder (reassign sorder mm1))) (shLeader shard) = false).
  by rewrite M, Hmem.
Qed.

(** ** The status page *)

Lemma replica_versions_spec m sh :
  let '(vs, lv) := replica_versions m sh in
  (forall r, r ∈ shReplicas sh -> vs !! r = Some (VersionForShard m r (shID sh))) /\
  lv = (if decide (shLeader sh ∈ shReplicas sh) then VersionForShard m (shLeader sh) (shID sh) else 0).
Proof.
  unfold replica_versions. induction (shReplicas sh) as [|x rs IH] using rev_ind; [by split; [set_solver|]|].
  rewrite foldl_app. simpl. destruct (foldl _ _ rs) as [vs lv]. destruct IH as [Hvs ->]. split.
  - intros r Hr. destruct (decide (r = x)) as [->|]; [by rewrite lookup_insert_eq|].
    rewrite lookup_insert_ne by done. apply Hvs. set_solver.
  - repeat case_decide; subst; set_solver.
Qed.

Lemma max_lag_spec vs lv rs :
  let lag := max_lag vs lv rs in
  0 <= lag /\ (forall r, r ∈ rs -> lv - default 0 (vs !! r) <= lag) /\
  (lag = 0 \/ exists r, r ∈ rs /\ lag = lv - default 0 (vs !! r)).
Proof.
  unfold max_lag. induction rs as [|x rs IH] using rev_ind; [split_and!; [done|set_solver|by left]|].
  rewrite foldl_app. simpl. destruct IH as (H0 & Hmax & Hwit). set (lag := foldl _ 0 rs) in *.
  destruct (Z.ltb_spec (default 0 (vs !! x)) lv); simpl;
    [destruct (Z.ltb_spec lag (lv - default 0 (vs !! x)))|]; (split_and!; [lia| |]).
  1,3,5: intros r [Hr| ->%list_elem_of_singleton]%elem_of_app; [specialize (Hmax r Hr)|]; lia.
  - right. exists x. split; [set_solver|done].
  - destruct Hwit as [?|(r & ? & ?)]; [by left|right]. exists r. split; [set_solver|done].
  - destruct Hwit as [?|(r & ? & ?)]; [by left|right]. exists r. split; [set_solver|done].
Qed.

(** The status page reports a quorum exactly when a strict majority of the
    shard's replicas is alive, the last reported version of every replica, and as
    replication lag the largest distance of a replica behind the leader. *)
Theorem shard_health_spec s sh :
  let h := shard_health s sh in
  let version r := VersionForShard (coMembership s) r (shID sh) in
  (shhQuorumAlive h = true <->
     (length (shReplicas sh) < 2 * length (filter (fun r => is_alive (coMembership s) r = true) (shReplicas sh)))%nat) /\
  (forall r, r ∈ shReplicas sh -> shhReplicaVersions h !! r = Some (version r)) /\
  (shLeader sh ∈ shReplicas sh ->
     (forall r, r ∈ shReplicas sh -> version (shLeader sh) - version r <= shhMaxReplicationLag h) /\
     exists r, r ∈ shReplicas sh /\ shhMaxReplicationLag h = version (shLeader sh) - version r).
Proof.
  intros h version. subst h. unfold shard_health. pose proof (replica_versions_spec (coMembership s) sh) as Hv.
  destruct (replica_versions (coMembership s) sh) as [vs lv]. destruct Hv as [Hvs Hlv]. simpl. split_and!.
  - rewrite Z.leb_le. unfold shQuorum. set (a := length (filter _ _)).
    pose proof (Z.div_mod (Z.of_nat (length (shReplicas sh))) 2).
    pose proof (Z.mod_pos_bound (Z.of_nat (length (shReplicas sh))) 2). lia.
  - exact Hvs.
  - intros Hl. rewrite decide_True in Hlv by done. subst lv.
    destruct (max_lag_spec vs (version (shLeader sh)) (shReplicas sh)) as (H0 & Hmax & Hwit). split.
    + intros r Hr. specialize (Hmax r Hr). rewrite (Hvs r Hr) in Hmax. exact Hmax.
    + destruct Hwit as [He|(r & Hr & He)].
      * exists (shLeader sh). split; [done|]. subst version. cbn beta in *. lia.
      * exists r. split; [done|]. rewrite (Hvs r Hr) in He. exact He.
Qed.

(** ** Concrete runs *)

Definition cluster_config1 : ClusterConfig :=
  mkClusterConfig (mkCoordinatorConfig "c:1" 0 0 0 0) nodes3
    [mkShardSpec "s1" ["n1"; "n2"; "n3"] "n1"] (mkReplicationConfig 0 0 0).

Definition cluster_config2 : ClusterConfig := Cluster_applyDefaults cluster_config1.

(** Initialised, and all three nodes have reported. *)
Definition coordinator1 : Coordinator :=
  let s := (Coordinator_Init cluster_config2 (Coordinator_New cluster_config2)).2 in
  let s := (Heartbeat 10 "n1" [status_of "s1" 4] s).2 in
  let s := (Heartbeat 10 "n2" [status_of "s1" 4] s).2 in
  health_tick map_to_list map_to_list map_to_list 20 s.

Lemma coordinator1_reachable : rtc co_step (Coordinator_Init cluster_config2 (Coordinator_New cluster_config2)).2 coordinator1.
Proof.
  eapply rtc_l; [apply (co_heartbeat _ 10 "n1" [status_of "s1" 4])|].
  eapply rtc_l; [apply (co_heartbeat _ 10 "n2" [status_of "s1" 4])|].
  eapply rtc_once, co_tick; by intros m.
Qed.

Lemma coordinator_invariant_witness :
  co_books (coMigration coordinator1) /\ leaders_from (named_in cluster_config2) (coShards coordinator1) /\
  (Forall spec_ok (clShards cluster_config2) -> co_wf (coMigration coordinator1)).
Proof.
  apply (coordinator_invariant (fun _ => Some cluster_config1) [] cluster_config2).
  - by vm_compute.
  - exact coordinator1_reachable.
Defined.

(** [n2] has reported again, [n1] has not. *)
Definition coordinator2 : Coordinator := (Heartbeat (1600 * millisecond) "n2" [status_of "s1" 5] coordinator1).2.

Lemma coordinator2_wf : co_wf (coMigration coordinator2).
Proof. split; [split; [|split; [split|]]|split]; apply (bool_decide_eq_true_1 _); by vm_compute. Qed.

Lemma failover_witness :
  exists shard', mapShards (coShards (health_tick map_to_list map_to_list map_to_list (1700 * millisecond) coordinator2))
      !! "s1" = Some shard' /\
    shLeader shard' ∈ shReplicas shard' /\
    is_alive (coMembership (health_tick map_to_list map_to_list map_to_list (1700 * millisecond) coordinator2))
      (shLeader shard') = true /\
    is_alive (coMembership (health_tick map_to_list map_to_list map_to_list (1700 * millisecond) coordinator2)) "n1" = false.
Proof.
  refine (failover map_to_list map_to_list map_to_list (1700 * millisecond) coordinator2 "s1" shard1
    (mkNodeStatus "n1" "n1:1" true 10 {["s1" := 4]}) "n2"
    (mkNodeStatus "n2" "n2:1" true (1600 * millisecond) {["s1" := 5]})
    (fun m => Permutation_refl _) (fun m => Permutation_refl _) (fun m => Permutation_refl _) coordinator2_wf
    _ _ _ _ _ _ _ _).
  all: first [apply (bool_decide_eq_true_1 _); by vm_compute|by vm_compute].
Defined.

(** A shard that is being split off another one loses the name of its source on
    the way to the nodes, which then have nowhere to take its data from; so does
    the tag of a shard in migration. *)
Theorem split_source_lost_on_wire :
  let s := (handleAdminSplitShard (Some ("s1", "s2", ["n2"])) coordinator1).2 in
  option_map shBootstrapSource (mapShards (coShards s) !! "s2") = Some "s1" /\
  shBootstrapSource <$> smrShards (shardMapResponseFromProto (Some (GetShardMap map_to_list map_to_list s))) = [""; ""] /\
  shBootstrapSource <$> smrShards (buildShardMapResponse map_to_list map_to_list s) = [""; "s1"].
Proof. by vm_compute. Qed.
