(* ===== verification/Server.v ===== *)
(** A leaf node: the server that hosts the replicas (src/node/server.go) and the
    shard map it follows (grpc_client.go).

    The state is the server and the disk.  A replica's entry in [diskStates] is
    the disk state its state machine writes to, so it is kept there ([smDs]).
    [svRunning] stands for the shards whose background loops run (the keys of
    [cancelFuncs]); one turn of each loop is modelled in [Recovery.v] and
    [Election.v].  [draw] gives the random part of a shard's election timeout. *)

From S2P Require Import Prelude Strconv Filepath Fs JsonStruct Storage ReplicationLog Wal Snapshot DiskState StateMachine.
From S2P Require Import Durability Config ShardMap Membership Leader Migration Coordinator Replica Wire Handlers Election.

Record Server := mkServer {
  svCfg : NodeConfig;
  svReplicas : gmap string ReplicaState;
  svNodeAddresses : gmap string string;
  svShardLeaders : gmap string string;
  svShardMapVersion : Z;
  svStartedAt : Z;
  svServing : bool;
  svRunning : gset string;
}.
#[global] Instance Server_eta : Eta Server := fun s =>
  mkServer (svCfg s) (svReplicas s) (svNodeAddresses s) (svShardLeaders s) (svShardMapVersion s) (svStartedAt s)
    (svServing s) (svRunning s).

Definition svNodeID (s : Server) : string := nsID (ncNode (svCfg s)).

Definition NewServer (cfg : NodeConfig) (now : Z) : Server :=
  mkServer (EnsureDefaults cfg) ∅ ∅ ∅ 0 now false ∅.

Definition shardDataDir (dataDir shardID : string) : string := dataDir +:+ "/shards/" +:+ shardID.

(** ** Bringing up a shard *)

Definition peers_of (nodeID : string) (replicas : list string) : list string := filter (fun r => r <> nodeID) replicas.

(** The address of the leader of the shard to split from; [""] when unknown. *)
Definition bootstrap_addr (source : string) (resp : ShardMapResponse) : string :=
  match list_find (fun sh => shID sh = source /\ shLeader sh <> "") (smrShards resp) with
  | Some (_, sh) => default "" (smrNodeAddresses resp !! shLeader sh)
  | None => ""
  end.

Definition seed_contacts (now : Z) (peers : list string) : gmap string Z :=
  foldl (fun m p => <[p := now]> m) ∅ peers.

(** The replica before anything is read from disk. *)
Definition fresh_replica (now draw : Z) (shard : ShardInfo) (resp : ShardMapResponse) (s : Server) : ReplicaState :=
  let peers := peers_of (svNodeID s) (shReplicas shard) in
  let r := NewReplicaState (shID shard) (svNodeID s) peers (ncReplicationLogSize (svCfg s))
             (electionTimeout (svCfg s) draw) <| rPeerLastContact := seed_contacts now peers |> in
  let r := if decide (shLeader shard = svNodeID s) then
             let r := r <| rRole := RoleLeader |> in
             if decide (shBootstrapSource shard = "")
             then r <| rIsReady := true |> <| rRecoveryState := RecoveryStateHealthy |> else r
           else r in
  let r := r <| rLeaderID := shLeader shard |> <| rShardMapVersion := svShardMapVersion s |> in
  if decide (shBootstrapSource shard = "") then r
  else r <| rBootstrapShardID := shBootstrapSource shard |>
         <| rBootstrapLeaderAddr := bootstrap_addr (shBootstrapSource shard) resp |>.

Definition loaded_replica (l : diskLoadResult) : M (ReplicaState * World) smerr unit :=
  do_ ignore (do_ on_sm (SM_ApplySnapshot (mkStateSnapshot (dlTerm l) (dlVersion l) (dlKV l)) SnapshotNoPersist);
              on_replica (fun r => r <| rIsReady := true |> <| rRecoveryState := RecoveryStateHealthy |>));
  on_replica (fun r => r <| rBootstrapShardID := "" |> <| rBootstrapLeaderAddr := "" |>).

(** Open the shard's directory and load what is there; errors are only logged. *)
Definition restore_replica (cfg : NodeConfig) (shardID : string) : M (ReplicaState * World) smerr unit :=
  if decide (ncDataDir cfg = "") then io_ret tt
  else
    do o <- attempt (zoom snd (fun W s => (fst s, W))
              (openDiskState (shardDataDir (ncDataDir cfg) shardID) (ncSnapshotInterval cfg) (ncSnapshotRetention cfg)));
    match o with
    | Fail _ => io_ret tt
    | Ok ds =>
        do_ on_replica (fun r => r <| rSM ::= fun sm => SM_SetDiskState (Some ds) sm |>);
        do l <- attempt (zoom snd (fun W s => (fst s, W)) (load ds));
        match l with
        | Fail _ => io_ret tt
        | Ok l => if dlValid l then loaded_replica l else io_ret tt
        end
    end.

Definition put_replica (id : string) (r : ReplicaState) (s : Server) : Server := s <| svReplicas ::= <[id := r]> |>.

(** Run a program on one replica and the disk, and file the replica. *)
Definition on_new {A} (id : string) (r : ReplicaState) (c : M (ReplicaState * World) smerr A)
    : M (Server * World) smerr A := fun s =>
  let '(o, (r', W)) := c (r, snd s) in
  (o, (match o with Ret _ => put_replica id r' (fst s) | _ => fst s end, W)).

Definition initShardLocked (now draw : Z) (shard : ShardInfo) (resp : ShardMapResponse) : M (Server * World) smerr unit :=
  do s <- io_get;
  match svReplicas (fst s) !! shID shard with
  | Some _ => io_ret tt
  | None => on_new (shID shard) (fresh_replica now draw shard resp (fst s)) (restore_replica (svCfg (fst s)) (shID shard))
  end.

Fixpoint init_each (now : Z) (draw : string -> Z) (resp : ShardMapResponse) (shards : list ShardInfo)
    : M (Server * World) smerr unit :=
  match shards with
  | [] => io_ret tt
  | shard :: rest =>
      do s <- io_get;
      do_ (if HasReplica shard (svNodeID (fst s)) then initShardLocked now (draw (shID shard)) shard resp else io_ret tt);
      init_each now draw resp rest
  end.

Definition on_server {E} (f : Server -> Server) : M (Server * World) E unit := io_modify (fun s => (f (fst s), snd s)).

Definition InitShards (now : Z) (draw : string -> Z) (resp : ShardMapResponse) : M (Server * World) smerr unit :=
  do_ on_server (fun s => s <| svNodeAddresses := smrNodeAddresses resp |> <| svShardMapVersion := smrVersion resp |>);
  init_each now draw resp (smrShards resp).

(** ** Running and dropping shards *)

Definition startShardGoroutines (now : Z) (shardID : string) (s : Server) : Server :=
  match svReplicas s !! shardID with
  | Some r => if svServing s
              then put_replica shardID (r <| rLastLeaderContact := now |>) s <| svRunning ::= fun rs => {[shardID]} ∪ rs |>
              else s
  | None => s
  end.

(** [startBackgroundJobs], for the state it leaves. *)
Definition startBackgroundJobs (now : Z) (s : Server) : Server :=
  s <| svServing := true |> <| svReplicas ::= fmap (fun r => r <| rLastLeaderContact := now |>) |>
    <| svRunning ::= fun rs => dom (svReplicas s) ∪ rs |>.

(** The shard's files stay on disk; closing the log may fail, which is logged. *)
Definition dropShard (shardID : string) : M (Server * World) smerr unit :=
  do s <- io_get;
  do_ on_server (fun s => s <| svRunning ::= fun rs => rs ∖ {[shardID]} |> <| svReplicas ::= delete shardID |>
                            <| svShardLeaders ::= delete shardID |>);
  match svReplicas (fst s) !! shardID ≫= fun r => smDs (rSM r) with
  | Some ds => ignore (zoom (fun s => (ds, snd s)) (fun t s => (fst s, snd t)) ds_close)
  | None => io_ret tt
  end.

(** ** Following the shard map *)

(** Contacts known so far are kept, new peers count as just heard from. *)
Definition refresh_contacts (now : Z) (old : gmap string Z) (peers : list string) : gmap string Z :=
  foldl (fun m p => <[p := default now (old !! p)]> m) ∅ peers.

(** What [refetchShardMap] does to a replica the node already has. *)
Definition update_replica (now : Z) (nodeID : string) (mapVersion : Z) (shard : ShardInfo) (r : ReplicaState) : ReplicaState :=
  let oldLeader := rLeaderID r in
  let peers := peers_of nodeID (shReplicas shard) in
  let r := r <| rLeaderID := shLeader shard |> <| rPeers := peers |>
             <| rPeerLastContact := refresh_contacts now (rPeerLastContact r) peers |> in
  let r := if decide (shLeader shard = nodeID /\ rRole r <> RoleLeader) then
             let r := r <| rRole := RoleLeader |> in
             if decide (rBootstrapShardID r = "")
             then r <| rIsReady := true |> <| rRecoveryState := RecoveryStateHealthy |> else r
           else if decide (shLeader shard <> nodeID /\ rRole r = RoleLeader) then r <| rRole := RoleFollower |>
           else r in
  let r := if decide (rLeaderID r <> oldLeader) then r <| rLastLeaderContact := now |> else r in
  r <| rShardMapVersion := mapVersion |>.

Definition should_host (nodeID : string) (resp : ShardMapResponse) : gmap string ShardInfo :=
  foldl (fun m sh => if HasReplica sh nodeID then <[shID sh := sh]> m else m) ∅ (smrShards resp).

(** One entry of the loop over the shards to host: the ids of new shards are
    collected. *)
Definition host_shard (now : Z) (draw : string -> Z) (resp : ShardMapResponse) (id : string) (shard : ShardInfo)
    : M (Server * World) smerr (list string) :=
  do s <- io_get;
  match svReplicas (fst s) !! id with
  | Some r =>
      do_ on_server (put_replica id (update_replica now (svNodeID (fst s)) (svShardMapVersion (fst s)) shard r));
      io_ret []
  | None => do_ initShardLocked now (draw id) shard resp; io_ret [id]
  end.

Fixpoint host_all (now : Z) (draw : string -> Z) (resp : ShardMapResponse) (shards : list (string * ShardInfo))
    : M (Server * World) smerr (list string) :=
  match shards with
  | [] => io_ret []
  | (id, shard) :: rest =>
      do new <- host_shard now draw resp id shard;
      do new' <- host_all now draw resp rest;
      io_ret (new ++ new')
  end.

Fixpoint drop_all (ids : list string) : M (Server * World) smerr unit :=
  match ids with [] => io_ret tt | id :: rest => do_ dropShard id; drop_all rest end.

(** The shutdown closes the disk state of every shard; an error is logged and the
    next one is closed. *)
Fixpoint close_each (ids : list string) : M (Server * World) smerr unit :=
  match ids with
  | [] => io_ret tt
  | id :: rest =>
      do s <- io_get;
      do_ match svReplicas (fst s) !! id with
          | Some r =>
              match smDs (rSM r) with
              | Some ds =>
                  ignore (zoom (fun s => (ds, snd s))
                            (fun t s => (put_replica id (r <| rSM ::= SM_SetDiskState (Some (fst t)) |>) (fst s), snd t))
                            ds_close)
              | None => io_ret tt
              end
          | None => io_ret tt
          end;
      close_each rest
  end.

Section orders.
Context (rorder : gmap string ReplicaState -> list (string * ReplicaState)).
Context (horder : gmap string ShardInfo -> list (string * ShardInfo)).

Definition Server_Close : M (Server * World) smerr unit :=
  do s <- io_get; close_each (rorder (svReplicas (fst s))).*1.

(** [fetched] is the coordinator's answer, [None] when it cannot be reached. *)
Definition refetchShardMap (now : Z) (draw : string -> Z) (fetched : option ShardMapResponse)
    : M (Server * World) smerr unit :=
  match fetched with
  | None => io_ret tt
  | Some resp =>
      do s <- io_get;
      let shouldHost := should_host (svNodeID (fst s)) resp in
      do_ on_server (fun s => s <| svNodeAddresses := smrNodeAddresses resp |> <| svShardMapVersion := smrVersion resp |>
                                <| svShardLeaders ::= fun m => foldl (fun m sh => <[shID sh := shLeader sh]> m) m (smrShards resp) |>);
      do s <- io_get;
      let toRemove := filter (fun id => shouldHost !! id = None) (rorder (svReplicas (fst s))).*1 in
      do new <- host_all now draw resp (horder shouldHost);
      do_ on_server (fun s => foldl (fun s id => startShardGoroutines now id s) s new);
      drop_all toRemove
  end.

Definition role_string (role : Role) : string :=
  match role with RoleLeader => "LEADER" | RoleFollower => "FOLLOWER" | RoleUnknown => "UNKNOWN" end.

(** The shard statuses of a heartbeat; [shardHeartbeatsFromStatus] copies them
    field by field. *)
Definition heartbeat_shards (s : Server) : list ShardStatus :=
  (fun p => mkShardStatus (rShardID p.2) (role_string (rRole p.2)) (rVersion p.2) (rIsReady p.2) (rTerm p.2))
    <$> rorder (svReplicas s).

(** [reply] is the shard map version the coordinator answers with, [None] when
    the call fails; [fetched] what a fetch of the map would return. *)
Definition sendHeartbeat (now : Z) (draw : string -> Z) (reply : option Z) (fetched : option ShardMapResponse)
    : M (Server * World) smerr unit :=
  match reply with
  | None => io_ret tt
  | Some v => do s <- io_get;
              if svShardMapVersion (fst s) <? v then refetchShardMap now draw fetched else io_ret tt
  end.

(** ** Status *)

Definition leaderAddrForReplica (r : ReplicaState) (s : Server) : string :=
  if decide (rLeaderID r = "") then "" else default "" (svNodeAddresses s !! rLeaderID r).

Record NodeStatusResponse := mkNodeStatusResponse {
  nrNodeID : string;
  nrUptime : Z;
  nrShardMapVersion : Z;
  nrShards : list ReplicaStatusSnapshot;
}.

(** [wall] is the wall clock [StatusSnapshot] reads; the uptime is in
    nanoseconds. *)
Definition handleStatus (now wall : Z) (s : Server) : NodeStatusResponse :=
  mkNodeStatusResponse (svNodeID s) (time_Sub now (svStartedAt s)) (svShardMapVersion s)
    (StatusSnapshot wall <$> (rorder (svReplicas s)).*2).

Definition handleReady (s : Server) : bool := forallb rIsReady (rorder (svReplicas s)).*2.
End orders.

(** ** Errors of the disk are not errors of the server *)

(** A program that returns or crashes, but reports no error to its caller. *)
Definition never_fails {S E A} (c : M S E A) : Prop := forall s e, fst (c s) <> Err e.

Lemma never_fails_bind {S E A B} (c : M S E A) (k : A -> M S E B) :
  never_fails c -> (forall a, never_fails (k a)) -> never_fails (do x <- c; k x).
Proof.
  intros Hc Hk s e. specialize (Hc s). unfold io_bind. destruct (c s) as [[a|e'|] s']; [apply Hk| |done].
  by destruct (Hc e').
Qed.

Lemma never_fails_attempt {S E F A} (c : M S E A) : never_fails (attempt (F := F) c).
Proof. intros s e. unfold attempt. by destruct (c s) as [[] ?]. Qed.

Lemma never_fails_zoom {S T E A} (get : S -> T) put (c : M T E A) : never_fails c -> never_fails (zoom get put c).
Proof. intros Hc s e. specialize (Hc (get s) e). unfold zoom. by destruct (c (get s)). Qed.

Lemma never_fails_ret {S E A} (a : A) : never_fails (S := S) (E := E) (io_ret a).
Proof. by intros s e. Qed.

Lemma never_fails_get {S E} : never_fails (S := S) (E := E) io_get.
Proof. by intros s e. Qed.

Lemma never_fails_modify {S E} (f : S -> S) : never_fails (E := E) (io_modify f).
Proof. by intros s e. Qed.

Lemma never_fails_on_new {A} id r (c : M (ReplicaState * World) smerr A) : never_fails c -> never_fails (on_new id r c).
Proof. intros Hc s e. specialize (Hc (r, snd s) e). unfold on_new. by destruct (c (r, snd s)) as [[] []]. Qed.

(** Decompose a program down to operations whose error is caught. *)
Ltac never_fails :=
  repeat first
    [ solve [eauto 2 with doki nocore]
    | progress intros
    | match goal with |- never_fails (match ?x with _ => _ end) => destruct x end
    | apply never_fails_bind | apply never_fails_attempt | apply never_fails_zoom | apply never_fails_on_new
    | apply never_fails_ret | apply never_fails_get | apply never_fails_modify | done ].

Lemma restore_replica_never_fails cfg id : never_fails (restore_replica cfg id).
Proof. unfold restore_replica, loaded_replica, ignore, on_replica. never_fails. Qed.
#[export] Hint Resolve restore_replica_never_fails : doki.

Lemma initShardLocked_never_fails now draw shard resp : never_fails (initShardLocked now draw shard resp).
Proof. unfold initShardLocked. never_fails. Qed.
#[export] Hint Resolve initShardLocked_never_fails : doki.

Lemma host_all_never_fails now draw resp shards : never_fails (host_all now draw resp shards).
Proof.
  induction shards as [|[id shard] rest IH]; cbn [host_all]; unfold host_shard, on_server; never_fails.
Qed.
#[export] Hint Resolve host_all_never_fails : doki.

Lemma drop_all_never_fails ids : never_fails (drop_all ids).
Proof. induction ids as [|id rest IH]; cbn [drop_all]; unfold dropShard, ignore, on_server; never_fails. Qed.
#[export] Hint Resolve drop_all_never_fails : doki.

(** One disk state that cannot be closed does not stop the others. *)
Lemma Server_Close_never_fails rorder : never_fails (Server_Close rorder).
Proof.
  unfold Server_Close. never_fails. generalize (rorder (svReplicas (fst a))).*1 as ids.
  induction ids as [|id rest IH]; cbn [close_each]; unfold ignore; never_fails.
Qed.

Lemma refetchShardMap_never_fails rorder horder now draw fetched : never_fails (refetchShardMap rorder horder now draw fetched).
Proof. unfold refetchShardMap, on_server. never_fails. Qed.

(** ** Following the shard map: what is hosted *)

(** Restoring from disk decides the data and the readiness, nothing else. *)
Definition same_place (r r' : ReplicaState) : Prop :=
  rShardID r' = rShardID r /\ rNodeID r' = rNodeID r /\ rRole r' = rRole r /\ rLeaderID r' = rLeaderID r /\
  rPeers r' = rPeers r /\ rShardMapVersion r' = rShardMapVersion r /\
  (rIsReady r = true -> rIsReady r' = true) /\ (rBootstrapShardID r = "" -> rBootstrapShardID r' = "").

Lemma wp_loaded_replica l r W : wp (loaded_replica l) (fun o s' => same_place r (fst s')) (r, W).
Proof.
  unfold loaded_replica. apply wp_bind, wp_ignore, wp_bind. apply wp_zoom, wp_intro. intros o [sm' W'] _.
  destruct o as [[]|e|]; [apply wp_modify|..]; try apply wp_modify; done.
Qed.

Lemma wp_restore_replica cfg id r W : wp (restore_replica cfg id) (fun o s' => same_place r (fst s')) (r, W).
Proof.
  unfold restore_replica. case_decide; [by apply wp_ret|].
  apply wp_bind, wp_attempt, wp_zoom, wp_intro. intros [ds|e|] W1 _; [|by apply wp_ret|done].
  apply wp_bind, wp_modify, wp_bind, wp_attempt, wp_zoom, wp_intro. intros [l|e|] W2 _; [|by apply wp_ret|done].
  destruct (dlValid l); [|by apply wp_ret]. eapply wp_mono; [apply wp_loaded_replica|]. done.
Qed.

(** The replica [r'] reflects the assignment of [shard] at [version]; if the node
    had it before, its data and its vote are untouched.  A replica made leader is
    ready, unless it is still to be filled from the shard it was split from; one
    that goes on leading is ready or not as it was. *)
Definition assigned (nodeID : string) (version : Z) (shard : ShardInfo) (old : option ReplicaState) (r' : ReplicaState) : Prop :=
  rLeaderID r' = shLeader shard /\ rPeers r' = peers_of nodeID (shReplicas shard) /\ rShardMapVersion r' = version /\
  (rRole r' = RoleLeader <-> shLeader shard = nodeID) /\
  match old with
  | Some r => rSM r' = rSM r /\ rVotedFor r' = rVotedFor r /\ rVotedForTerm r' = rVotedForTerm r /\
              rShardID r' = rShardID r /\ rNodeID r' = rNodeID r /\ rBootstrapShardID r' = rBootstrapShardID r /\
              (shLeader shard = nodeID -> rRole r <> RoleLeader -> rBootstrapShardID r = "" -> rIsReady r' = true) /\
              (shLeader shard = nodeID -> rRole r = RoleLeader -> rIsReady r' = rIsReady r)
  | None => rShardID r' = shID shard /\ rNodeID r' = nodeID /\
            (shBootstrapSource shard = "" -> rBootstrapShardID r' = "") /\
            (shLeader shard = nodeID -> shBootstrapSource shard = "" -> rIsReady r' = true)
  end.

Lemma update_replica_assigned now nodeID v shard r :
  assigned nodeID v shard (Some r) (update_replica now nodeID v shard r).
Proof.
  unfold assigned, update_replica. repeat case_decide; simpl in *; split_and!; try done; try naive_solver.
  all: destruct (decide (shLeader shard = nodeID)), (decide (rRole r = RoleLeader)); naive_solver.
Qed.

Lemma fresh_replica_assigned now draw shard resp s :
  assigned (svNodeID s) (svShardMapVersion s) shard None (fresh_replica now draw shard resp s).
Proof. unfold assigned, fresh_replica. repeat case_decide; simpl in *; split_and!; try done; naive_solver. Qed.

Lemma assigned_place nodeID v shard r r' :
  assigned nodeID v shard None r -> same_place r r' -> assigned nodeID v shard None r'.
Proof. unfold assigned, same_place. naive_solver congruence. Qed.

(** The server's settings and addresses, which hosting a shard does not touch. *)
Definition same_server (s s' : Server) : Prop :=
  svCfg s' = svCfg s /\ svNodeAddresses s' = svNodeAddresses s /\ svShardMapVersion s' = svShardMapVersion s.

Lemma wp_initShardLocked now draw shard resp s W :
  svReplicas s !! shID shard = None ->
  wp (initShardLocked now draw shard resp) (fun o s' => o = Ret tt -> same_server s (fst s') /\
    exists r', svReplicas (fst s') = <[shID shard := r']> (svReplicas s) /\
      assigned (svNodeID s) (svShardMapVersion s) shard None r') (s, W).
Proof.
  intros Hnone. unfold initShardLocked. apply wp_bind, wp_get. cbn [fst]. rewrite Hnone.
  unfold on_new, wp. cbn [snd].
  pose proof (wp_restore_replica (svCfg s) (shID shard) (fresh_replica now draw shard resp s) W) as Hw. unfold wp in Hw.
  destruct (restore_replica _ _ _) as [[[]|e|] [r' W']]; cbn [fst snd] in *; [|done|done].
  intros _. split; [done|]. exists r'. split; [done|]. eapply assigned_place; [apply fresh_replica_assigned|done].
Qed.

Lemma wp_host_shard now draw resp id shard s W :
  shID shard = id ->
  wp (host_shard now draw resp id shard) (fun o s' => forall new, o = Ret new ->
    same_server s (fst s') /\ (new = [] \/ new = [id]) /\
    exists r', svReplicas (fst s') = <[id := r']> (svReplicas s) /\
      assigned (svNodeID s) (svShardMapVersion s) shard (svReplicas s !! id) r') (s, W).
Proof.
  intros Hid. unfold host_shard. apply wp_bind, wp_get. cbn [fst].
  destruct (svReplicas s !! id) as [r|] eqn:Hr.
  - apply wp_bind, wp_modify, wp_ret. intros new [= <-]. split; [done|]. split; [by left|].
    eexists. split; [done|]. apply update_replica_assigned.
  - subst id. apply wp_bind. eapply wp_mono; [by apply wp_initShardLocked|]. cbn beta. intros o [s1 W1] Hinit.
    destruct o as [[]|e|]; [|done|done]. destruct (Hinit eq_refl) as [Hs (r' & Hr' & Ha)].
    apply wp_ret. intros new [= <-]. split; [done|]. split; [by right|]. by exists r'.
Qed.

Lemma wp_host_all now draw resp shards s W :
  NoDup shards.*1 -> Forall (fun p => shID p.2 = p.1) shards ->
  wp (host_all now draw resp shards) (fun o s' => forall new, o = Ret new ->
    same_server s (fst s') /\ Forall (fun id => id ∈ shards.*1) new /\
    (forall id, id ∉ shards.*1 -> svReplicas (fst s') !! id = svReplicas s !! id) /\
    (forall id shard, (id, shard) ∈ shards -> exists r', svReplicas (fst s') !! id = Some r' /\
       assigned (svNodeID s) (svShardMapVersion s) shard (svReplicas s !! id) r')) (s, W).
Proof.
  revert s W. induction shards as [|[id shard] rest IH]; intros s W Hnd Hids; cbn [host_all].
  { apply wp_ret. intros new [= <-]. split_and!; [done|done|done|set_solver]. }
  apply Forall_cons in Hids as [Hid Hids]. rewrite fmap_cons in Hnd. apply NoDup_cons in Hnd as [Hfresh Hnd].
  apply wp_bind. eapply wp_mono; [by apply wp_host_shard|]. cbn beta. intros o [s1 W1] Hone.
  destruct o as [new|e|]; [|done|done]. destruct (Hone new eq_refl) as (Hs1 & Hnew & r1 & Hr1 & Has).
  cbn [fst] in *. apply wp_bind. eapply wp_mono; [by apply (IH s1 W1)|]. cbn beta. intros o [s2 W2] Hrest.
  destruct o as [new'|e|]; [|done|done]. destruct (Hrest new' eq_refl) as (Hs2 & Hnew' & Hout & Hin).
  apply wp_ret. intros res [= <-]. cbn [fst] in *. rewrite !fmap_cons. cbn [fst]. split_and!.
  - destruct Hs1 as (? & ? & ?), Hs2 as (? & ? & ?). by split_and!; etrans.
  - apply Forall_app. split; [destruct Hnew as [->| ->]; repeat constructor; set_solver|].
    eapply Forall_impl; [done|]. cbn beta. intros. set_solver.
  - intros i Hi. rewrite Hout by set_solver. rewrite Hr1, lookup_insert_ne by set_solver. done.
  - destruct Hs1 as (Hc & _ & Hv). unfold svNodeID in *. rewrite Hc, Hv in Hin.
    intros i sh [[= -> ->]|Hi]%elem_of_cons.
    + exists r1. rewrite Hout, Hr1, lookup_insert_eq by done. done.
    + destruct (Hin i sh Hi) as (r' & Hr' & Ha). exists r'. split; [done|].
      rewrite Hr1, lookup_insert_ne in Ha; [done|]. intros ->. apply Hfresh. by apply (list_elem_of_fmap_2 fst _ _ Hi).
Qed.

(** A server without replicas takes up exactly the shards that list it. *)
Lemma wp_init_each now draw resp shards s W :
  NoDup (shID <$> shards) -> (forall sh, sh ∈ shards -> svReplicas s !! shID sh = None) ->
  wp (init_each now draw resp shards) (fun o s' => o = Ret tt -> same_server s (fst s') /\
    (forall id, id ∉ (shID <$> shards) -> svReplicas (fst s') !! id = svReplicas s !! id) /\
    (forall sh, sh ∈ shards ->
       if HasReplica sh (svNodeID s)
       then exists r', svReplicas (fst s') !! shID sh = Some r' /\ assigned (svNodeID s) (svShardMapVersion s) sh None r'
       else svReplicas (fst s') !! shID sh = None)) (s, W).
Proof.
  revert s W. induction shards as [|sh shards IH]; intros s W Hnd Hnone; cbn [init_each].
  { apply wp_ret. intros _. split_and!; [done|done|set_solver]. }
  rewrite fmap_cons in Hnd. apply NoDup_cons in Hnd as [Hfresh Hnd].
  apply wp_bind, wp_get, wp_bind. cbn [fst].
  set (Q := fun s1 : Server => same_server s s1 /\
    (forall id, id <> shID sh -> svReplicas s1 !! id = svReplicas s !! id) /\
    if HasReplica sh (svNodeID s)
    then exists r', svReplicas s1 !! shID sh = Some r' /\ assigned (svNodeID s) (svShardMapVersion s) sh None r'
    else svReplicas s1 !! shID sh = None).
  assert (Hone : wp (if HasReplica sh (svNodeID s) then initShardLocked now (draw (shID sh)) sh resp else io_ret tt)
    (fun o s' => o = Ret tt -> Q (fst s')) (s, W)).
  { unfold Q. destruct (HasReplica sh (svNodeID s)); [|apply wp_ret; intros _; split_and!; [done|done|apply Hnone; set_solver]].
    eapply wp_mono; [apply wp_initShardLocked, Hnone; set_solver|]. cbn beta. intros o s1 H1 Ho.
    destruct (H1 Ho) as (Hs & r' & Hr' & Ha). split; [done|]. rewrite Hr'. split.
    - intros id Hid. by rewrite lookup_insert_ne.
    - exists r'. by rewrite lookup_insert_eq. }
  eapply wp_mono; [exact Hone|]. cbn beta. intros o [s1 W1] HQ. destruct o as [[]|e|]; [|done|done].
  destruct (HQ eq_refl) as ((Hc & Ha & Hv) & Hother & Hsh). cbn [fst] in *. clear Hone Q HQ.
  assert (Hne : forall sh', sh' ∈ shards -> shID sh' <> shID sh) by (intros sh' Hin He; apply Hfresh; rewrite <- He; by apply list_elem_of_fmap_2).
  eapply wp_mono; [apply IH; [done|]|]; [intros sh' Hin; rewrite Hother by auto; apply Hnone; set_solver|].
  cbn beta. intros o s2 H2 Ho. destruct (H2 Ho) as ((Hc2 & Ha2 & Hv2) & Hother2 & Hall).
  unfold svNodeID in *. rewrite Hc, Hv in *. split_and!; [split_and!; congruence| |].
  - intros id Hid. rewrite Hother2 by set_solver. apply Hother. set_solver.
  - intros sh' [->|Hin]%elem_of_cons; [by rewrite Hother2|by apply Hall].
Qed.

Lemma wp_InitShards now draw resp s W :
  NoDup (shID <$> smrShards resp) -> svReplicas s = ∅ ->
  wp (InitShards now draw resp) (fun o s' => o = Ret tt ->
    svCfg (fst s') = svCfg s /\ svShardMapVersion (fst s') = smrVersion resp /\
    (forall id, id ∉ (shID <$> smrShards resp) -> svReplicas (fst s') !! id = None) /\
    (forall sh, sh ∈ smrShards resp ->
       if HasReplica sh (svNodeID s)
       then exists r', svReplicas (fst s') !! shID sh = Some r' /\ assigned (svNodeID s) (smrVersion resp) sh None r'
       else svReplicas (fst s') !! shID sh = None)) (s, W).
Proof.
  intros Hnd Hempty. unfold InitShards. apply wp_bind, wp_modify. cbn [fst snd].
  eapply wp_mono; [apply wp_init_each; [done|intros sh _; simpl; by rewrite Hempty]|].
  cbn beta. intros o s' H Ho. destruct (H Ho) as ((Hc & _ & Hv) & Hout & Hin). split_and!; [done|done| |done].
  intros id Hid. rewrite Hout by done. simpl. by rewrite Hempty.
Qed.

Lemma should_host_lookup nodeID resp id sh :
  NoDup (shID <$> smrShards resp) ->
  should_host nodeID resp !! id = Some sh <-> sh ∈ smrShards resp /\ shID sh = id /\ nodeID ∈ shReplicas sh.
Proof.
  unfold should_host. induction (smrShards resp) as [|x l IH] using rev_ind; intros Hnd.
  { simpl. rewrite lookup_empty. set_solver. }
  rewrite fmap_app in Hnd. apply NoDup_app in Hnd as (Hnd & Hfresh & _). specialize (IH Hnd).
  rewrite foldl_app. simpl. rewrite elem_of_app, list_elem_of_singleton.
  assert (Hx : forall y, y ∈ l -> shID y <> shID x).
  { intros y Hy He. apply (Hfresh (shID y)); [by apply list_elem_of_fmap_2|]. set_solver. }
  unfold HasReplica. case_bool_decide as Hr.
  - destruct (decide (shID x = id)) as [<-|Hne].
    + rewrite lookup_insert_eq. split; [naive_solver|]. intros ([Hl| ->] & Hid & _); [|done]. by destruct (Hx sh Hl).
    + rewrite lookup_insert_ne, IH by done. naive_solver.
  - rewrite IH. naive_solver.
Qed.

Lemma should_host_ids nodeID resp id sh : should_host nodeID resp !! id = Some sh -> shID sh = id.
Proof.
  unfold should_host. induction (smrShards resp) as [|x l IH] using rev_ind; [done|].
  rewrite foldl_app. simpl. destruct (HasReplica x nodeID); [|done].
  destruct (decide (shID x = id)) as [<-|Hne]; [rewrite lookup_insert_eq; congruence|].
  by rewrite lookup_insert_ne.
Qed.

(** Starting a shard's loops only seeds its election timer. *)
Definition started (now : Z) (r r' : ReplicaState) : Prop := r' = r \/ r' = r <| rLastLeaderContact := now |>.

Lemma start_lookup now id s id' r :
  svReplicas s !! id' = Some r ->
  exists r', svReplicas (startShardGoroutines now id s) !! id' = Some r' /\ started now r r'.
Proof.
  intros Hr. unfold startShardGoroutines. destruct (svReplicas s !! id) as [x|] eqn:Hx; [|by exists r; split; [|left]].
  destruct (svServing s); [|by exists r; split; [|left]]. simpl. destruct (decide (id = id')) as [<-|].
  - rewrite lookup_insert_eq. eexists. split; [done|]. right. congruence.
  - rewrite lookup_insert_ne by done. exists r. by split; [|left].
Qed.

Lemma start_frame now id s :
  same_server s (startShardGoroutines now id s) /\
  dom (svReplicas (startShardGoroutines now id s)) = dom (svReplicas s).
Proof.
  unfold startShardGoroutines. destruct (svReplicas s !! id) as [x|] eqn:Hx; [|done].
  destruct (svServing s); [|done]. split; [done|]. simpl. apply dom_insert_lookup_L. by rewrite Hx.
Qed.

Lemma start_all_spec now ids s :
  let s' := foldl (fun s id => startShardGoroutines now id s) s ids in
  same_server s s' /\ dom (svReplicas s') = dom (svReplicas s) /\
  forall id r, svReplicas s !! id = Some r -> exists r', svReplicas s' !! id = Some r' /\ started now r r'.
Proof.
  revert s. induction ids as [|i ids IH]; intros s; simpl; [split_and!; [done|done|]; intros id r ?; exists r; by split; [|left]|].
  destruct (start_frame now i s) as [(Hc & Ha & Hv) Hd].
  destruct (IH (startShardGoroutines now i s)) as ((Hc' & Ha' & Hv') & Hd' & Hl).
  split_and!; [split_and!; congruence|congruence|]. intros id r Hr.
  destruct (start_lookup now i s id r Hr) as (r1 & Hr1 & H1). destruct (Hl id r1 Hr1) as (r2 & Hr2 & H2).
  exists r2. split; [done|]. destruct H1 as [->| ->], H2 as [->| ->]; unfold started; auto.
Qed.

Lemma started_assigned nodeID v shard old now r r' :
  assigned nodeID v shard old r -> started now r r' -> assigned nodeID v shard old r'.
Proof. by intros Ha [->| ->]. Qed.

Lemma wp_dropShard id s W :
  wp (dropShard id) (fun o s' => o = Ret tt ->
    same_server s (fst s') /\ svReplicas (fst s') = delete id (svReplicas s)) (s, W).
Proof.
  unfold dropShard. apply wp_bind, wp_get, wp_bind, wp_modify. cbn [fst snd].
  destruct (_ ≫= _) as [ds|]; [|by apply wp_ret].
  apply wp_ignore, wp_zoom, wp_intro. by intros [[]|e|] [? ?] _.
Qed.

Lemma wp_drop_all ids s W :
  wp (drop_all ids) (fun o s' => o = Ret tt ->
    same_server s (fst s') /\
    forall id, svReplicas (fst s') !! id = if decide (id ∈ ids) then None else svReplicas s !! id) (s, W).
Proof.
  revert s W. induction ids as [|i ids IH]; intros s W; cbn [drop_all]; [by apply wp_ret|].
  apply wp_bind. eapply wp_mono; [apply wp_dropShard|]. cbn beta. intros o [s1 W1] H1.
  destruct o as [[]|e|]; [|done|done]. destruct (H1 eq_refl) as ((Hc & Ha & Hv) & Hd). cbn [fst] in *.
  eapply wp_mono; [apply IH|]. cbn beta. intros o [s2 W2] H2 Ho. destruct (H2 Ho) as ((Hc' & Ha' & Hv') & Hl).
  cbn [fst] in *. split; [split_and!; congruence|]. intros id. rewrite Hl, Hd.
  destruct (decide (id = i)) as [->|Hne].
  - rewrite (decide_True (P := i ∈ i :: ids)) by set_solver. case_decide; [done|]. by rewrite lookup_delete_eq.
  - rewrite lookup_delete_ne by done. repeat case_decide; set_solver.
Qed.

Lemma wp_refetchShardMap rorder horder now draw resp s W :
  iterates rorder -> iterates horder ->
  let host := should_host (svNodeID s) resp in
  wp (refetchShardMap rorder horder now draw (Some resp)) (fun o s' => o = Ret tt ->
    svCfg (fst s') = svCfg s /\
    svNodeAddresses (fst s') = smrNodeAddresses resp /\ svShardMapVersion (fst s') = smrVersion resp /\
    forall id, match host !! id with
      | None => svReplicas (fst s') !! id = None
      | Some sh => exists r', svReplicas (fst s') !! id = Some r' /\
                     assigned (svNodeID s) (smrVersion resp) sh (svReplicas s !! id) r'
      end) (s, W).
Proof.
  intros Hro Hho host. unfold refetchShardMap. apply wp_bind, wp_get, wp_bind, wp_modify, wp_bind, wp_get.
  cbn [fst snd]. fold host.
  match goal with |- wp _ _ (?x, W) => set (s1 := x) end.
  assert (Hs1 : svReplicas s1 = svReplicas s) by done. rewrite Hs1.
  set (toRemove := filter _ _).
  assert (Hkeys : forall id, id ∈ (horder host).*1 <-> is_Some (host !! id)).
  { intros id. rewrite list_elem_of_fmap. split.
    - intros ([k sh] & -> & Hin). apply (iterates_elem horder) in Hin; [|done]. by exists sh.
    - intros [sh Hsh]. exists (id, sh). split; [done|]. by apply iterates_elem. }
  apply wp_bind. eapply wp_mono; [apply wp_host_all|].
  { by apply iterates_NoDup. }
  { apply Forall_forall. intros [k sh] Hin. apply (iterates_elem horder) in Hin; [|done]. by eapply should_host_ids. }
  cbn beta. intros o [s2 W2] Hhost. destruct o as [new|e|]; [|done|done].
  destruct (Hhost new eq_refl) as ((Hc2 & Ha2 & Hv2) & _ & Hout & Hin). cbn [fst] in *.
  apply wp_bind, wp_modify. cbn [fst snd].
  destruct (start_all_spec now new s2) as ((Hc3 & Ha3 & Hv3) & Hd3 & Hl3). set (s3 := foldl _ s2 new) in *.
  eapply wp_mono; [apply wp_drop_all|]. cbn beta. intros o [s4 W4] Hdrop Ho.
  destruct (Hdrop Ho) as ((Hc4 & Ha4 & Hv4) & Hl4). cbn [fst] in *.
  split_and!; [by rewrite Hc4, Hc3, Hc2|by rewrite Ha4, Ha3, Ha2|by rewrite Hv4, Hv3, Hv2|]. intros id. rewrite Hl4.
  destruct (host !! id) as [sh|] eqn:Hh.
  - rewrite decide_False by (unfold toRemove; rewrite list_elem_of_filter; naive_solver).
    destruct (Hin id sh) as (r2 & Hr2 & Has); [by apply iterates_elem|].
    destruct (Hl3 id r2 Hr2) as (r3 & Hr3 & Hst). exists r3. split; [done|]. by eapply started_assigned.
  - case_decide as Hrm; [done|]. apply not_elem_of_dom. rewrite Hd3. apply not_elem_of_dom.
    rewrite Hout by (rewrite Hkeys, Hh; by intros [? ?]). destruct (svReplicas s !! id) as [r|] eqn:Hr; [|by rewrite Hs1].
    destruct Hrm. unfold toRemove. apply list_elem_of_filter. split; [done|]. apply list_elem_of_fmap.
    exists (id, r). split; [done|]. by apply iterates_elem.
Qed.

Lemma shard_by_id (l : list ShardInfo) sh sh' :
  NoDup (shID <$> l) -> sh ∈ l -> sh' ∈ l -> shID sh = shID sh' -> sh = sh'.
Proof.
  induction l as [|x l IH]; [set_solver|]. rewrite fmap_cons. intros [Hx Hnd]%NoDup_cons Hin Hin' Hid.
  apply elem_of_cons in Hin as [->|Hin], Hin' as [->|Hin']; [done| | |by apply IH].
  - destruct Hx. rewrite Hid. by apply list_elem_of_fmap_2.
  - destruct Hx. rewrite <- Hid. by apply list_elem_of_fmap_2.
Qed.

(** C19: When a node takes over a new shard map, it ends up with a replica for
    exactly the shards that list it, each with the leader, peers and role the map
    says and stamped with the map's version (which is what lets it accept
    writes); a replica it had before keeps its data, its log and its vote.
    Unless the process dies meanwhile this happens whatever errors the disk
    reports, and in whatever order Go visits the maps. *)
Theorem refetchShardMap_hosts rorder horder now draw resp s W o s' W' :
  iterates rorder -> iterates horder -> NoDup (shID <$> smrShards resp) ->
  refetchShardMap rorder horder now draw (Some resp) (s, W) = (o, (s', W')) ->
  o = Crashed \/
  o = Ret tt /\ svNodeAddresses s' = smrNodeAddresses resp /\ svShardMapVersion s' = smrVersion resp /\
  forall id,
    (svReplicas s' !! id = None <->
       ~ exists sh, sh ∈ smrShards resp /\ shID sh = id /\ svNodeID s ∈ shReplicas sh) /\
    (forall sh r', sh ∈ smrShards resp -> shID sh = id -> svReplicas s' !! id = Some r' ->
       assigned (svNodeID s) (smrVersion resp) sh (svReplicas s !! id) r').
Proof.
  intros Hro Hho Hnd Heq.
  pose proof (refetchShardMap_never_fails rorder horder now draw (Some resp) (s, W)) as Hne. rewrite Heq in Hne.
  destruct o as [[]|e|]; [right|by destruct (Hne e)|by left].
  destruct (wp_use _ _ _ _ _ (wp_refetchShardMap rorder horder now draw resp s W Hro Hho) Heq eq_refl) as (_ & Ha & Hv & Hall).
  cbn [fst] in *. split_and!; [done|done|done|]. intros id. specialize (Hall id).
  pose proof (fun sh => should_host_lookup (svNodeID s) resp id sh Hnd) as Hlook.
  destruct (should_host (svNodeID s) resp !! id) as [sh|].
  - destruct Hall as (r' & Hr' & Has). destruct (proj1 (Hlook sh) eq_refl) as (Hin & Hid & Hrep). rewrite Hr'. split.
    + split; [done|]. intros Hno. destruct Hno. by exists sh.
    + intros sh' r'' Hin' Hid' [= <-]. rewrite (shard_by_id _ sh' sh Hnd Hin' Hin) by congruence. done.
  - rewrite Hall. split; [|done]. split; [|done]. intros _ (sh & Hsh). by apply Hlook in Hsh.
Qed.

(** ** Restarting on the files of an earlier process *)

Lemma openDiskState_healthy dir interval retention fs :
  0 < interval -> 0 < retention ->
  let ds := mkDiskState (mkWAL (Join dir "wal.jsonl") false) (Join dir "wal.jsonl") (Join dir "snapshot.json")
              0 interval retention in
  openDiskState dir interval retention (healthy fs) =
    (Ret ds, healthy (<[walPath ds := default [] (fs !! walPath ds)]> fs)).
Proof.
  intros Hi Hr ds. unfold openDiskState, io_bind, io_map_err. simpl.
  destruct (Z.leb_spec interval 0); [lia|]. destruct (Z.leb_spec retention 0); [lia|].
  unfold WAL_Open, io_bind. simpl. unfold healthy. subst ds. simpl.
  by destruct (fs !! Join dir "wal.jsonl") as [d|] eqn:Hd; simpl; rewrite ?insert_id by done.
Qed.

Lemma view_reopened ds fs : ds_wf ds ->
  disk_view ds (<[walPath ds := default [] (fs !! walPath ds)]> fs) = disk_view ds fs.
Proof. intros Hwf. unfold disk_view, log_entries. rewrite latest_wal by done. by rewrite lookup_insert_eq. Qed.

(** Nothing to load means an empty replica. *)
Lemma build_state_valid best es r : build_state best es = Ok r -> dlValid r = true \/ r = no_disk_state.
Proof.
  assert (Hgen : forall r0, (try _ <- ensureMonotonicWAL es; Ok (foldl replay_entry r0 es)) = Ok r -> dlValid r = dlValid r0).
  { intros r0. destruct (ensureMonotonicWAL es); [|done]. intros [= <-]. apply replay_valid. }
  unfold build_state. destruct best as [sn|], es as [|e es]; try (intros H; left; exact (Hgen _ H)).
  intros [= <-]. by right.
Qed.

Lemma view_invalid ds fs r : disk_view ds fs = Ok r -> dlValid r = false -> dlVersion r = 0 /\ dlKV r = ∅.
Proof. intros [Hv| ->]%build_state_valid Hi; [congruence|done]. Qed.

(** The files of [ds] are those the server uses for the shard. *)
Definition shard_disk (cfg : NodeConfig) (shardID : string) (ds : diskState) : Prop :=
  let dir := shardDataDir (ncDataDir cfg) shardID in
  ncDataDir cfg <> "" /\ 0 < ncSnapshotInterval cfg /\
  walPath ds = Join dir "wal.jsonl" /\ snapshotPath ds = Join dir "snapshot.json" /\
  snapshotRetention ds = ncSnapshotRetention cfg.

Lemma restore_replica_healthy cfg id r fs ds v kv :
  shard_disk cfg id ds -> ds_wf ds -> recovers ds fs v kv -> rVersion r = 0 -> contents (rSM r) = ∅ ->
  exists r' fs', restore_replica cfg id (r, healthy fs) = (Ret tt, (r', healthy fs')) /\
    rVersion r' = v /\ contents (rSM r') = kv /\ same_place r r' /\ (v <> 0 -> rIsReady r' = true).
Proof.
  intros (Hdir & Hint & Hw & Hs & Hret) Hwf (l & Hview & Hv & Hkv) H0 Hempty. unfold restore_replica.
  rewrite decide_False by done. pose proof Hwf as (_ & Hr & _).
  unfold io_bind, attempt, zoom. cbn [fst snd].
  rewrite openDiskState_healthy by lia. cbn zeta.
  match goal with |- context [Some ?x] => set (ds' := x : diskState) end.
  set (fs' := <[_ := _]> fs). cbn [on_replica io_modify].
  assert (Hview' : disk_view ds' fs' = Ok l).
  { rewrite <- Hview. etrans; [|by apply (view_reopened ds fs)]. unfold disk_view, latest, log_entries, fs'.
    by rewrite Hw, Hs, Hret. }
  unfold on_replica, io_modify. cbn [fst snd]. rewrite load_healthy, Hview'.
  destruct (dlValid l) eqn:Hl.
  - match goal with |- context [loaded_replica l (?x, _)] => set (r1 := x) end.
    eexists _, fs'. split; [reflexivity|]. split_and!; try done.
    rewrite <- Hkv. apply storage_apply_snapshot.
  - destruct (view_invalid _ _ _ Hview Hl) as [Hv0 Hk0]. eexists _, fs'. split; [reflexivity|].
    split; [etrans; [exact H0|congruence]|]. split; [etrans; [exact Hempty|congruence]|]. split; [done|congruence].
Qed.

Lemma fresh_replica_empty now draw shard resp s :
  rVersion (fresh_replica now draw shard resp s) = 0 /\ contents (rSM (fresh_replica now draw shard resp s)) = ∅.
Proof. unfold fresh_replica. by repeat case_decide. Qed.

Lemma initShardLocked_healthy now draw shard resp s fs ds v kv :
  svReplicas s !! shID shard = None ->
  shard_disk (svCfg s) (shID shard) ds -> ds_wf ds -> recovers ds fs v kv ->
  exists r fs', initShardLocked now draw shard resp (s, healthy fs) = (Ret tt, (put_replica (shID shard) r s, healthy fs')) /\
    rVersion r = v /\ contents (rSM r) = kv /\ (v <> 0 -> rIsReady r = true) /\
    assigned (svNodeID s) (svShardMapVersion s) shard None r.
Proof.
  intros Hnone Hdisk Hwf Hrec. destruct (fresh_replica_empty now draw shard resp s) as [Hv0 Hc0].
  destruct (restore_replica_healthy _ _ _ fs ds v kv Hdisk Hwf Hrec Hv0 Hc0) as (r & fs' & Heq & Hv & Hkv & Hsame & Hready).
  exists r, fs'. unfold initShardLocked, io_bind, io_get. cbn [fst]. rewrite Hnone. unfold on_new. cbn [fst snd].
  rewrite Heq. split_and!; try done. eapply assigned_place; [apply fresh_replica_assigned|done].
Qed.

(** C1: Whatever a node does to a shard on its disk (entries applied through the
    log, each followed by a snapshot or not, and new terms), on a disk that may
    fail in any way at any operation, going on after every error and dying at any
    point: a restart on the files it left brings back exactly the acknowledged
    entries, in order, or these and one entry that was attempted and not
    acknowledged, takes the place the shard map gives it, and is ready at once if
    there was anything to load.

    The run starts from a shard whose log is whole and up to date ([durable]; a
    fresh directory is one, [fresh_durable]), its entries are puts and deletes of
    UTF-8 strings that fit a line of the log, and two things must not happen in
    it: a write applied after one whose sync failed ([syncs_hold]), and as many
    snapshots failing in a row as there are retained files ([snapshots_hold]).
    Both are needed: [sync_error_shadows_next_write] and
    [two_failed_snapshots_lose_data].  Snapshots installed by recovery are not
    among the operations ([resetSnapshot_rollback_undone]), and the disk works
    during the restart. *)
Theorem crash_restart_recovers m ops sm ds W evs (sm' : shardStateMachine Store) W' now draw shard resp s :
  durable m sm ds (files W) -> Forall op_ok ops -> smVersion sm + Z.of_nat (length ops) < two64 ->
  disk_run ops (sm, W) = (evs, (sm', W')) ->
  syncs_hold evs = true -> snapshots_hold (snapshotRetention ds) m evs = true ->
  svReplicas s !! shID shard = None -> shard_disk (svCfg s) (shID shard) ds ->
  exists extra r fs', one_of extra (attempted false ops evs) /\
    let recovered := attempted true ops evs ++ extra in
    initShardLocked now draw shard resp (s, healthy (files W')) = (Ret tt, (put_replica (shID shard) r s, healthy fs')) /\
    rVersion r = smVersion sm + Z.of_nat (length recovered) /\
    contents (rSM r) = foldl kv_step (contents sm) recovered /\
    (rVersion r <> 0 -> rIsReady r = true) /\
    assigned (svNodeID s) (svShardMapVersion s) shard None r.
Proof.
  intros Hdu Hok Hmax Hrun Hsync Hsnap Hnone Hdisk. pose proof (du_wf _ _ _ _ Hdu) as Hwf.
  destruct (run_recoverable _ _ _ _ _ _ _ _ Hdu Hok Hmax Hrun Hsync Hsnap) as (extra & Hex & Hrec).
  destruct (initShardLocked_healthy now draw shard resp s _ _ _ _ Hnone Hdisk Hwf Hrec)
    as (r & fs' & Heq & Hv & Hkv & Hready & Has).
  exists extra, r, fs'. cbn zeta. rewrite Hv. by split_and!.
Qed.

(** ** Concrete runs *)

Definition node_cfg1 : NodeConfig :=
  mkNodeConfig (mkNodeSpec "n1" "127.0.0.1:7001") "127.0.0.1:7000" "data" 0 0 0 0 1 2 0 0 0 0 0 0 0.
Definition server1 : Server := NewServer node_cfg1 0.
Definition map_resp1 : ShardMapResponse :=
  mkShardMapResponse 3 [shard1; mkShard "s2" ["n2"; "n3"] "n2" "" []] {["n1" := "a1"; "n2" := "a2"; "n3" := "a3"]}.

Definition shard_dir1 : string := shardDataDir "data" "s1".
Definition shard_ds1 : diskState :=
  mkDiskState (mkWAL (Join shard_dir1 "wal.jsonl") false) (Join shard_dir1 "wal.jsonl")
    (Join shard_dir1 "snapshot.json") 0 1 2.
Definition shard_sm1 : shardStateMachine Store := mkSM Store_New (Log_New 10) 0 0 (Some shard_ds1).

(** A write with a snapshot, a write whose snapshot fails, a new term, and a
    write in the middle of which the process dies. *)
Definition shard_world1 : World :=
  mkWorld {[Join shard_dir1 "wal.jsonl" := []]} (replicate 16 FOk ++ [FErr 3; FOk; FOk; FCrash 7]).
Definition ops1 : list disk_op :=
  [DApply entry1 true; DApply entry2 true; DTerm 2; DApply (mkEntry 2 3 "put" "k3" "v3") true].
Definition events1 : list disk_event := [EvApplied SnapTaken; EvApplied SnapFailed; EvTerm; EvDied].

Lemma ops1_events : fst (disk_run ops1 (shard_sm1, shard_world1)) = events1.
Proof. by vm_compute. Qed.

Lemma ops1_ok : Forall op_ok ops1.
Proof.
  repeat apply Forall_cons_2; [split; [by left|exact entry1_ok]|split; [by left|exact entry2_ok]|done| |apply Forall_nil_2].
  split; [by left|wal_ok_concrete].
Qed.

Lemma crash_restart_recovers_witness :
  exists extra r fs', one_of extra (attempted false ops1 events1) /\
    let recovered := attempted true ops1 events1 ++ extra in
    initShardLocked 5 0 shard1 map_resp1 (server1, healthy (files (snd (snd (disk_run ops1 (shard_sm1, shard_world1)))))) =
      (Ret tt, (put_replica "s1" r server1, healthy fs')) /\
    rVersion r = 0 + Z.of_nat (length recovered) /\
    contents (rSM r) = foldl kv_step (contents shard_sm1) recovered /\
    (rVersion r <> 0 -> rIsReady r = true) /\ assigned "n1" 0 shard1 None r.
Proof.
  pose proof ops1_events as Hn.
  destruct (disk_run ops1 (shard_sm1, shard_world1)) as [n [sm' W']] eqn:Hrun. cbn [fst snd] in *. subst n.
  refine (crash_restart_recovers 0 ops1 shard_sm1 shard_ds1 shard_world1 events1 sm' W' 5 0 shard1 map_resp1 server1 _ _ _ Hrun _ _ _ _).
  - exact (fresh_durable shard_dir1 1 2 Store_New (Log_New 10) 0 ltac:(split; [done|reflexivity]) eq_refl).
  - exact ops1_ok.
  - by vm_compute.
  - reflexivity.
  - reflexivity.
  - done.
  - by split_and!.
Defined.

Definition refetched1 : outcome smerr unit * (Server * World) :=
  refetchShardMap (fun m => map_to_list m) (fun m => map_to_list m) 5 (fun _ => 0) (Some map_resp1) (server1, healthy ∅).

Lemma refetchShardMap_hosts_witness :
  fst refetched1 = Crashed \/
  fst refetched1 = Ret tt /\ svNodeAddresses (fst (snd refetched1)) = smrNodeAddresses map_resp1 /\
  svShardMapVersion (fst (snd refetched1)) = 3 /\
  forall id,
    (svReplicas (fst (snd refetched1)) !! id = None <->
       ~ exists sh, sh ∈ smrShards map_resp1 /\ shID sh = id /\ "n1" ∈ shReplicas sh) /\
    (forall sh r', sh ∈ smrShards map_resp1 -> shID sh = id -> svReplicas (fst (snd refetched1)) !! id = Some r' ->
       assigned "n1" 3 sh None r').
Proof.
  pose proof (refetchShardMap_hosts (fun m => map_to_list m) (fun m => map_to_list m) 5 (fun _ => 0) map_resp1
    server1 (healthy ∅) (fst refetched1) (fst (snd refetched1)) (snd (snd refetched1))
    iterates_map_to_list iterates_map_to_list) as Hthm.
  rewrite <- !surjective_pairing in Hthm. apply Hthm.
  - apply (bool_decide_eq_true_1 _). by vm_compute.
  - reflexivity.
Defined.

Lemma refetched1_result : fst refetched1 = Ret tt.
Proof. by vm_compute. Qed.
