(* ===== verification/Group.v ===== *)
(** The replicas of one shard together: elections ([Election.v]), replication
    and writes ([Write.v]) and recovery ([Recovery.v]) interleaved.

    A state is every replica with its disk, the vote requests on the network,
    and what has happened so far: votes given, elections won, and the writes
    that a replica has acknowledged or, as leader, committed.  The first half of
    the file shows that a leader elected after a write is at least at the
    version of that write, if a majority of the configured replicas had
    acknowledged it.  The second half shows on concrete runs what this does not
    cover: a follower with another entry at the same version, and a voter that
    restarts. *)

From stdpp Require Import relations.
From S2P Require Import Prelude Strconv Fs JsonStruct Storage ReplicationLog Wal DiskState StateMachine Config Replica Wire Handlers Write Recovery Election ShardMap Coordinator Server.

(** ** The system *)

Record Group := mkGroup {
  members : cluster;
  ballots : list VoteRequest;
  votes : gset (string * string * Z);
  won : gset (string * Z);
  acks : gset (string * Z * Z);
}.

(** What the election protocol sees of it. *)
Definition view (g : Group) : Sys := mkSys (fst <$> members g) (ballots g) (votes g) (won g).

(** A replica that keeps its votes and goes back neither in term nor in version. *)
Definition data_frame (r r' : ReplicaState) : Prop := vote_frame r r' /\ rVersion r <= rVersion r'.

Inductive gstep : Group -> Group -> Prop :=
| g_begin g n r W now req r' :
    members g !! n = Some (r, W) -> rTerm r < two64 - 1 -> startElection_begin now r = Some (req, r') ->
    gstep g (mkGroup (<[n := (r', W)]> (members g)) (req :: ballots g)
               ({[(n, n, vqTerm req)]} ∪ votes g) (won g) (acks g))
| g_vote g n r W now req resp r' :
    members g !! n = Some (r, W) -> req ∈ ballots g -> RequestVote now req r = (resp, r') ->
    gstep g (mkGroup (<[n := (r', W)]> (members g)) (ballots g)
               (if vsVoteGranted resp then {[(n, vqCandidateId req, vqTerm req)]} ∪ votes g else votes g)
               (won g) (acks g))
| g_end g n r W now term replies res r' :
    members g !! n = Some (r, W) -> (n, n, term) ∈ votes g ->
    genuine (votes g) n term (rPeers r) replies ->
    startElection_end now term (rPeers r) (tally term 1 replies.*2) r = (res, r') ->
    gstep g (mkGroup (<[n := (r', W)]> (members g)) (ballots g) (votes g)
               (match res with ElectionWon => {[(n, term)]} ∪ won g | _ => won g end) (acks g))
| g_replicate g n x now req o x' :
    members g !! n = Some x -> Replicate now req x = (o, x') ->
    gstep g (mkGroup (<[n := x']> (members g)) (ballots g) (votes g) (won g)
               (match o with
                | Ret resp => if rsSuccess resp then {[(n, rqTerm req, rqVersion req)]} ∪ acks g else acks g
                | _ => acks g
                end))
| g_commit g n r W e o x' :
    members g !! n = Some (r, W) -> rVersion r < two64 - 1 -> commit_local e (r, W) = (o, x') ->
    gstep g (mkGroup (<[n := x']> (members g)) (ballots g) (votes g) (won g)
               (match o with Ret _ => {[(n, eTerm e, eVersion e)]} ∪ acks g | _ => acks g end))
| g_local g n r W r' W' :
    members g !! n = Some (r, W) -> data_frame r r' ->
    gstep g (mkGroup (<[n := (r', W')]> (members g)) (ballots g) (votes g) (won g) (acks g)).

Definition fresh_group (g : Group) : Prop :=
  initial (view g) /\ acks g = ∅ /\ map_Forall (fun _ x => 0 <= rVersion (fst x)) (members g).

(** *** Handlers that are [g_local] steps *)

Lemma data_frame_refl r : data_frame r r.
Proof. split; [apply vote_frame_refl|lia]. Qed.

Lemma data_frame_same_sm r r' :
  rSM r' = rSM r -> rVotedFor r' = rVotedFor r -> rVotedForTerm r' = rVotedForTerm r ->
  rNodeID r' = rNodeID r -> rPeers r' = rPeers r -> data_frame r r'.
Proof. intros Hsm. unfold data_frame, vote_frame, rTerm, rVersion. rewrite Hsm. naive_solver lia. Qed.

Lemma LeaderHeartbeat_data_frame now req r : data_frame r (LeaderHeartbeat now req r).2.
Proof.
  split; [apply LeaderHeartbeat_frame|]. unfold LeaderHeartbeat, adopt_term.
  destruct (hqTerm req <? rTerm r), (rTerm r <? hqTerm req); unfold rVersion; simpl; lia.
Qed.

Lemma heartbeat_reply_data_frame now sent p t r : data_frame r (heartbeat_reply now sent p t r).
Proof.
  split; [apply heartbeat_reply_frame|]. unfold heartbeat_reply.
  destruct (t =? 0), (sent <? t), (rTerm r <? t); try case_decide; unfold rVersion; simpl; lia.
Qed.

Lemma ForceRecover_data_frame now r : data_frame r (ForceRecover now r).
Proof. split; [apply ForceRecover_frame|]. unfold rVersion. simpl. lia. Qed.

Lemma data_frame_trans r1 r2 r3 : data_frame r1 r2 -> data_frame r2 r3 -> data_frame r1 r3.
Proof. unfold data_frame, vote_frame. naive_solver (congruence || lia). Qed.

(** An entry applied or refused. *)
Lemma wp_apply_frame e r W :
  0 <= rVersion r < two64 - 1 \/ rVersion r < eVersion e ->
  wp (on_sm (SM_Apply e ApplyWithWAL)) (fun _ s' => data_frame r (fst s')) (r, W).
Proof.
  intros Hlt. eapply wp_mono; [apply wp_on_sm_apply|]. cbn beta.
  intros o [r2 W2] (sm' & Hr2 & Hret & Herr). simpl in Hr2. subst r2. cbn [fst].
  enough (Hup : rTerm r <= smTerm sm' /\ rVersion r <= smVersion sm') by (destruct Hup; by repeat split).
  unfold rTerm, rVersion in *. destruct o as [[]|x|].
  - destruct (Hret eq_refl) as ([Hnext ?] & _ & -> & -> & _). split; [done|].
    destruct Hlt as [Hlt|]; [|lia]. rewrite u64_succ_lt in Hnext by (unfold u64; lia). lia.
  - destruct (Herr ltac:(done)) as (-> & -> & _). lia.
  - destruct (Herr ltac:(done)) as (-> & -> & _). lia.
Qed.

Lemma wp_apply_entries_frame es r W :
  wp (apply_entries es) (fun _ s' => data_frame r (fst s')) (r, W).
Proof.
  revert r W. induction es as [|e es IH]; intros r W; cbn [apply_entries]; [apply wp_ret, data_frame_refl|].
  apply wp_bind, wp_get. cbn [fst]. destruct (Z.leb_spec (leVersion e) (rVersion r)); [apply IH|].
  apply wp_bind, wp_map_err. eapply wp_mono; [apply wp_apply_frame; by right|]. cbn beta.
  intros [[]|x|] [r2 W2] Hf; [|done|done]. cbn [fst] in *.
  eapply wp_mono; [apply IH|]. eauto using data_frame_trans.
Qed.

(** Recovery is a local step unless it installs a snapshot that takes the
    replica back. *)
Definition forward_offer (r : ReplicaState) (resp : RecoverResponse) : Prop :=
  rvType resp = RECOVER_SNAPSHOT -> rTerm r <= rvTerm resp /\ rVersion r <= rvVersion resp.

Lemma recovery_apply_frame resp r W :
  forward_offer r resp -> wp (recovery_apply resp) (fun _ s' => data_frame r (fst s')) (r, W).
Proof.
  intros Hoff. unfold recovery_apply, forward_offer in *. destruct (rvType resp).
  - by apply wp_fail, data_frame_refl.
  - apply wp_bind, wp_get. cbn [fst]. apply wp_bind.
    destruct (check_gap _ _ _); [|apply wp_fail, data_frame_refl]. apply wp_ret, wp_bind.
    eapply wp_mono; [apply wp_apply_entries_frame|]. cbn beta. intros [[]|x|] [r2 W2] Hf; [|done|done].
    apply wp_bind, wp_modify, wp_ret. cbn [fst] in *. eapply data_frame_trans; [done|]. by apply data_frame_same_sm.
  - destruct (Hoff eq_refl) as [Ht Hv]. apply wp_bind, wp_map_err, wp_zoom. cbn [fst snd].
    eapply wp_mono; [apply wp_SM_ApplySnapshot|]. cbn beta. intros o [sm' W'] (Hv' & Ht' & _).
    assert (Hf : data_frame r (r <| rSM := sm' |>)).
    { split; [split_and!; try done; unfold rTerm in *; simpl in *; lia|unfold rVersion in *; simpl in *; lia]. }
    destruct o as [[]|e|]; [|done|done]. apply wp_bind, wp_modify, wp_ret. cbn [fst snd].
    eapply data_frame_trans; [done|]. by apply data_frame_same_sm.
Qed.

Lemma wp_commit_local_frame e r W :
  0 <= rVersion r < two64 - 1 -> wp (commit_local e) (fun _ s' => data_frame r (fst s')) (r, W).
Proof.
  intros Hlt. unfold commit_local. apply wp_bind, wp_map_err. eapply wp_mono; [apply wp_apply_frame; by left|]. cbn beta.
  intros [[]|x|] [r2 W2] Hf; [|done|done]. cbn [fst] in *.
  apply wp_bind, wp_modify, wp_bind, wp_get. cbn [fst snd]. apply wp_bind, wp_ignore, wp_zoom. cbn [fst snd].
  apply wp_map_err. eapply wp_mono; [apply on_ds_unmoved|]. cbn beta. intros o [sm2 W3] (Hv2 & Ht2 & _).
  assert (Hgoal : forall b : ReplicaState, rSM b = sm2 -> rVotedFor b = rVotedFor r2 ->
    rVotedForTerm b = rVotedForTerm r2 -> rNodeID b = rNodeID r2 -> rPeers b = rPeers r2 -> data_frame r b).
  { intros b Hb ? ? ? ?. eapply data_frame_trans; [done|]. unfold data_frame, vote_frame, rTerm, rVersion.
    rewrite Hb. cbn [fst rSM mark_healthy] in *. simpl in Hv2, Ht2. rewrite Hv2, Ht2. naive_solver lia. }
  destruct o as [[]|x|]; try apply wp_modify; by apply Hgoal.
Qed.

(** *** Elections in the group are elections *)

Lemma Replicate_data_frame now req r W o r' W' :
  Replicate now req (r, W) = (o, (r', W')) -> data_frame r r'.
Proof.
  intros Heq. split; [pose proof (Replicate_frame now req r W) as Hf; by rewrite Heq in Hf|].
  pose proof (Replicate_cases now req r W) as Hc. rewrite Heq in Hc.
  by destruct Hc as [|? ? ? ? []|? ? ? ? ? []| |? ? ? ? ? ? []]; lia.
Qed.

Lemma commit_local_data_frame r W e o r' W' :
  0 <= rVersion r < two64 - 1 -> commit_local e (r, W) = (o, (r', W')) -> data_frame r r'.
Proof. intros Hv Heq. by refine (wp_use _ _ _ _ _ (wp_commit_local_frame e r W _) Heq). Qed.

(** Every step of the group is a step of the election protocol. *)
Lemma gstep_step g g' :
  map_Forall (fun _ x => 0 <= rVersion (fst x)) (members g) -> gstep g g' -> step (view g) (view g').
Proof.
  intros Hver Hs. destruct Hs as [g n r W now req r' Hn ? ?|g n r W now req resp r' Hn ? ?
    |g n r W now term replies res r' Hn ? ? ?|g n [r W] now req o [r' W'] Hn Hr|g n r W e o [r' W'] Hn ? Hc
    |g n r W r' W' Hn [Hf _]]; unfold view; cbn [members ballots votes won acks]; rewrite fmap_insert; cbn [fst].
  all: assert (Hn' : nodes (view g) !! n = Some r) by (simpl; by rewrite lookup_fmap, Hn).
  - by apply (step_begin (view g) n r now).
  - by apply (step_vote (view g) n r now).
  - by apply (step_end (view g) n r now term replies).
  - apply (step_local (view g) n r r' Hn'). by apply Replicate_data_frame in Hr as [? _].
  - apply (step_local (view g) n r r' Hn'). apply commit_local_data_frame in Hc as [? _]; [done|].
    specialize (Hver _ _ Hn). simpl in Hver. lia.
  - by apply (step_local (view g) n r r' Hn').
Qed.

(** ** Completeness of leaders *)

(** The replica [v] is at least in term [t] and at version [n]. *)
Definition reached (c : cluster) (v : string) (t n : Z) : Prop :=
  exists r W, c !! v = Some (r, W) /\ t <= rTerm r /\ n <= rVersion r.

Record ginv (g : Group) : Prop := {
  gi_view : inv (view g);
  gi_version : map_Forall (fun _ x => 0 <= rVersion (fst x)) (members g);
  gi_acks : forall v t n, (v, t, n) ∈ acks g -> reached (members g) v t n;
  gi_ballots : forall req, req ∈ ballots g -> reached (members g) (vqCandidateId req) (vqTerm req) (vqVersion req);
  gi_votes : forall v c t, (v, c, t) ∈ votes g -> exists req, req ∈ ballots g /\
    vqCandidateId req = c /\ vqTerm req = t /\
    forall t' n, (v, t', n) ∈ acks g -> t' < t -> n <= vqVersion req;
}.

Lemma reached_update c m r W r' W' v t n :
  c !! m = Some (r, W) -> rTerm r <= rTerm r' -> rVersion r <= rVersion r' ->
  reached c v t n -> reached (<[m := (r', W')]> c) v t n.
Proof.
  intros Hm Ht Hv (x & Wx & Hx & ? & ?). unfold reached. destruct (decide (m = v)) as [->|Hne].
  - simplify_eq. exists r', W'. rewrite lookup_insert_eq. split_and!; [done|lia..].
  - exists x, Wx. by rewrite lookup_insert_ne.
Qed.

(** A step of one replica that takes part in no election and acknowledges
    the versions [new]; it does so only in a term it has reached. *)
Lemma ginv_data g n r W r' W' new :
  ginv g -> members g !! n = Some (r, W) -> inv (view (mkGroup (<[n := (r', W')]> (members g)) (ballots g) (votes g) (won g) new)) ->
  data_frame r r' ->
  (forall v t k, (v, t, k) ∈ new -> (v, t, k) ∈ acks g \/ v = n /\ rTerm r <= t <= rTerm r' /\ k <= rVersion r') ->
  ginv (mkGroup (<[n := (r', W')]> (members g)) (ballots g) (votes g) (won g) new).
Proof.
  intros [Hi Hver Ha Hb Hv] Hn Hi' [[Ht _] Hd] Hnew. split; cbn [members ballots votes won acks]; [done|..].
  - apply map_Forall_insert_2; [|done]. specialize (Hver _ _ Hn). simpl in *. lia.
  - intros v t k [Hin|(-> & ? & ?)]%Hnew; [eapply reached_update; eauto|].
    exists r', W'. rewrite lookup_insert_eq. split_and!; [done|lia..].
  - intros req Hin. eapply reached_update; eauto.
  - intros v c t Hin. destruct (Hv _ _ _ Hin) as (req & ? & ? & ? & Hle). exists req. split_and!; [done..|].
    intros t' k [Hin'|(-> & ? & ?)]%Hnew Hlt; [by eauto|].
    destruct (inv_memory _ Hi _ _ _ Hin) as (x & Hx & _ & Hmem). simpl in Hx.
    rewrite lookup_fmap, Hn in Hx. simplify_eq/=. lia.
Qed.

(** A step of one replica in an election, giving at most one vote. *)
Lemma ginv_election g n r W r' asked' votes' won' :
  ginv g -> members g !! n = Some (r, W) -> inv (view (mkGroup (<[n := (r', W)]> (members g)) asked' votes' won' (acks g))) ->
  rTerm r <= rTerm r' -> rVersion r' = rVersion r ->
  (forall req, req ∈ asked' -> req ∈ ballots g \/
     vqCandidateId req = n /\ vqTerm req <= rTerm r' /\ vqVersion req <= rVersion r') ->
  ballots g ⊆ asked' ->
  (forall v c t, (v, c, t) ∈ votes' -> (v, c, t) ∈ votes g \/
     v = n /\ exists req, req ∈ asked' /\ vqCandidateId req = c /\ vqTerm req = t /\ rVersion r <= vqVersion req) ->
  ginv (mkGroup (<[n := (r', W)]> (members g)) asked' votes' won' (acks g)).
Proof.
  intros [Hi Hver Ha Hb Hv] Hn Hi' Ht Hd Hasked Hsub Hvotes. split; cbn [members ballots votes won acks]; [done|..].
  - apply map_Forall_insert_2; [|done]. specialize (Hver _ _ Hn). simpl in *. lia.
  - intros v t k Hin. eapply reached_update; eauto. lia.
  - intros req [Hin|(-> & ? & ?)]%Hasked; [eapply reached_update; eauto; lia|].
    exists r', W. by rewrite lookup_insert_eq.
  - intros v c t [Hin|(-> & req & Hreq & Hc & Htm & Hle)]%Hvotes.
    + destruct (Hv _ _ _ Hin) as (req & Hreq & ? & ? & Hle). exists req. split_and!; [by apply Hsub|done..].
    + exists req. split_and!; [done..|]. intros t' k Hin _.
      destruct (Ha _ _ _ Hin) as (x & Wx & Hx & _ & Hk). simplify_eq. lia.
Qed.

Lemma RequestVote_version now req r resp r' :
  RequestVote now req r = (resp, r') ->
  rVersion r' = rVersion r /\ (vsVoteGranted resp = true -> rVersion r <= vqVersion req).
Proof.
  unfold RequestVote. destruct (vqTerm req <? rTerm r); [by intros [= <- <-]|].
  set (r1 := if rTerm r <? vqTerm req then _ else r).
  assert (Hr1 : rVersion r1 = rVersion r) by (unfold r1; by destruct (_ <? _)).
  case_decide; [intros [= <- <-]; done|]. destruct (Z.ltb_spec (vqVersion req) (rVersion r1)); intros [= <- <-].
  - done.
  - split; [done|]. intros _. lia.
Qed.

Lemma startElection_begin_version now r req r' :
  startElection_begin now r = Some (req, r') -> rVersion r' = rVersion r /\ vqVersion req = rVersion r.
Proof. unfold startElection_begin. case_decide; [done|]. by intros [= <- <-]. Qed.

Lemma startElection_end_version now term peers t r res r' :
  startElection_end now term peers t r = (res, r') -> rVersion r' = rVersion r.
Proof.
  unfold startElection_end. destruct t as [h|votes]; [destruct (rTerm r <? h); by intros [= <- <-]|].
  case_decide; [by intros [= <- <-]|]. case_match; by intros [= <- <-].
Qed.

Lemma ginv_step g g' : ginv g -> gstep g g' -> ginv g'.
Proof.
  intros Hg Hs. pose proof (gi_version _ Hg) as Hver.
  assert (Hi' : inv (view g')) by (eapply inv_step; [apply Hg|by apply gstep_step]).
  pose proof (inv_members _ (gi_view _ Hg)) as [_ Hm].
  destruct Hs as [g n r W now req r' Hn Hmax Hb|g n r W now req resp r' Hn Hreq Hv
    |g n r W now term replies res r' Hn Hself Hgen He|g n [r W] now req o [r' W'] Hn Hr|g n r W e o [r' W'] Hn Hmax Hc
    |g n r W r' W' Hn Hf].
  - assert (Hn' : nodes (view g) !! n = Some r) by (simpl; by rewrite lookup_fmap, Hn).
    destruct (Hm _ _ Hn') as (Hid & Ht & _). pose proof (startElection_begin_version _ _ _ _ Hb) as [Hv Hq].
    destruct (startElection_begin_keeps _ _ _ _ (conj Ht Hmax) Hb) as (_ & Htm & Ht' & _ & _ & Hc).
    apply (ginv_election g n r W); try done; [lia|set_solver by lia..].
  - destruct (RequestVote_version _ _ _ _ _ Hv) as [Hv' Hq]. pose proof (RequestVote_keeps _ _ _ _ _ Hv) as [[Ht _] _].
    apply (ginv_election g n r W); try done; [by left|]. intros v c t Hin.
    destruct (vsVoteGranted resp); [|by left]. apply elem_of_union in Hin as [Heq|]; [right|by left].
    apply elem_of_singleton in Heq as [= -> -> ->]. eauto 10.
  - pose proof (startElection_end_keeps _ _ _ _ _ _ _ He) as [Ht _].
    apply (ginv_election g n r W); try done; [by eapply startElection_end_version|by left|by left].
  - pose proof (Replicate_data_frame _ _ _ _ _ _ _ Hr) as Hf. apply (ginv_data g n r W); try done.
    intros v t k Hin. pose proof (Replicate_cases now req r W) as Hc. rewrite Hr in Hc.
    destruct o as [resp|e|]; [|by left|by left]. destruct (rsSuccess resp) eqn:Hok; [|by left].
    apply elem_of_union in Hin as [Heq|]; [right|by left]. apply elem_of_singleton in Heq as [= -> -> ->].
    inversion Hc; simplify_eq/=; unfold same_data in *; naive_solver lia.
  - specialize (Hver _ _ Hn). cbn [fst] in Hver.
    pose proof (commit_local_data_frame _ _ _ _ _ _ (conj Hver Hmax) Hc) as Hf. apply (ginv_data g n r W); try done.
    intros v t k Hin. pose proof (wp_use _ _ _ _ _ (wp_commit_local e r W) Hc) as Hret.
    destruct o as [[]|err|]; [|by left|by left]. destruct (Hret eq_refl) as (Hv' & Ht' & _ & _ & [_ Hle] & _).
    apply elem_of_union in Hin as [Heq|]; [right|by left]. apply elem_of_singleton in Heq as [= -> -> ->].
    cbn [fst] in *. change (smTerm (rSM r)) with (rTerm r) in Hle. split_and!; [done|lia..].
  - apply (ginv_data g n r W); try done. by left.
Qed.

Lemma ginv_reachable g0 g : fresh_group g0 -> rtc gstep g0 g -> ginv g.
Proof.
  intros ((Hm & Ha & Hv & Hw) & Hacks & Hver) Hs. simpl in Ha, Hv, Hw.
  assert (H0 : ginv g0).
  { split; rewrite ?Hacks, ?Ha, ?Hv; [|done|set_solver..].
    split; unfold view; cbn [nodes asked grants winners]; rewrite ?Ha, ?Hv, ?Hw; [done|constructor|set_solver..]. }
  clear Hm Ha Hv Hw Hacks Hver. induction Hs; eauto using ginv_step.
Qed.

(** Two majorities of the replicas have one in common. *)
Lemma majorities_meet (A V D : gset string) :
  A ⊆ D -> V ⊆ D -> Z.of_nat (size D) < 2 * Z.of_nat (size A) -> Z.of_nat (size D) < 2 * Z.of_nat (size V) ->
  exists v, v ∈ A /\ v ∈ V.
Proof.
  intros HA HV HsA HsV. assert (Hmeet : exists v, v ∈ A ∩ V); [|set_solver].
  apply set_choose_L. intros Hdisj. assert (A ## V) by set_solver.
  assert (Hle : (size (A ∪ V) <= size D)%nat) by (apply subseteq_size; set_solver).
  rewrite size_union in Hle by done. lia.
Qed.

Lemma winner_has_acknowledged g (A : gset string) t n w t' :
  ginv g -> (forall v, v ∈ A -> (v, t, n) ∈ acks g) ->
  Z.of_nat (size (members g)) < 2 * Z.of_nat (size A) ->
  (w, t') ∈ won g -> t < t' ->
  exists r W, members g !! w = Some (r, W) /\ n <= rVersion r.
Proof.
  intros Hg HA Hsize Hw Hlt.
  destruct (inv_winners _ (gi_view _ Hg) _ _ Hw) as (V & HV & HsV & Hvotes). simpl in HV, HsV, Hvotes.
  rewrite dom_fmap_L in HV, HsV.
  destruct (majorities_meet A V (dom (members g))) as (v & HvA & HvV); [|done|by rewrite size_dom|done|].
  { intros v Hv. destruct (gi_acks _ Hg _ _ _ (HA v Hv)) as (r & W & Hr & _). by apply elem_of_dom_2 in Hr. }
  destruct (gi_votes _ Hg _ _ _ (Hvotes _ HvV)) as (req & Hreq & <- & <- & Hle).
  destruct (gi_ballots _ Hg _ Hreq) as (r & W & Hr & _ & Hver).
  exists r, W. split; [done|]. specialize (Hle _ _ (HA _ HvA) Hlt). lia.
Qed.

(** ** A write is a sequence of steps *)

Section write_steps.
Context (l : string) (b : list VoteRequest) (v : gset (string * string * Z)) (w : gset (string * Z)).

(** The leader [x], the other replicas, and the acknowledgements so far. *)
Local Definition at_write (x : node) (c : cluster) (a : gset (string * Z * Z)) : Group :=
  mkGroup (<[l := x]> c) b v w a.

Lemma at_write_other x c a p y y' a' :
  c !! l = None -> c !! p = Some y ->
  gstep (at_write x c a) (mkGroup (<[p := y']> (<[l := x]> c)) b v w a') ->
  gstep (at_write x c a) (at_write x (<[p := y']> c) a') /\ (<[p := y']> c) !! l = None.
Proof.
  intros Hl Hp. assert (p <> l) by congruence. unfold at_write.
  rewrite insert_insert_ne by done. by rewrite lookup_insert_ne.
Qed.

Lemma at_write_leader r W r' W' c a :
  data_frame r r' -> gstep (at_write (r, W) c a) (at_write (r', W') c a).
Proof.
  intros Hf. unfold at_write.
  pose proof (g_local (mkGroup (<[l := (r, W)]> c) b v w a) l r W r' W') as Hg.
  cbn [members ballots votes won acks] in Hg. rewrite insert_insert_eq in Hg. apply Hg; [apply lookup_insert_eq|done].
Qed.

Lemma send_steps now d req p x c ok c' a :
  c !! l = None -> sendReplicateRequest now d req p c = (ok, c') ->
  exists a', rtc gstep (at_write x c a) (at_write x c' a') /\ c' !! l = None /\ a ⊆ a' /\
    (ok = true -> (p, rqTerm req, rqVersion req) ∈ a').
Proof.
  intros Hl. unfold sendReplicateRequest.
  assert (Hskip : (false, c) = (ok, c') -> exists a', rtc gstep (at_write x c a) (at_write x c' a') /\ c' !! l = None /\
    a ⊆ a' /\ (ok = true -> (p, rqTerm req, rqVersion req) ∈ a')) by (intros [= <- <-]; by exists a).
  destruct (c !! p) as [y|] eqn:Hp; [|destruct d; apply Hskip].
  destruct (Replicate now req y) as [o y'] eqn:Hr.
  assert (Hp' : members (at_write x c a) !! p = Some y) by (simpl; rewrite lookup_insert_ne by congruence; done).
  destruct (at_write_other x c a p y y' _ Hl Hp (g_replicate _ p y now req o y' Hp' Hr)) as [Hstep Hl'].
  cbn [acks at_write] in Hstep.
  destruct d; [apply Hskip|..]; intros [= <- <-]; eexists; (split; [by apply rtc_once|]); (split; [done|]).
  - destruct o as [resp|e|]; [destruct (rsSuccess resp)|..]; set_solver.
  - destruct o as [resp|e|]; [destruct (rsSuccess resp)|..]; set_solver.
Qed.

Lemma fanOutReplicate_steps now net req ps x c acked c' a :
  c !! l = None -> fanOutReplicate now net req ps c = (acked, c') ->
  exists a', rtc gstep (at_write x c a) (at_write x c' a') /\ c' !! l = None /\ a ⊆ a' /\
    forall p, p ∈ acked -> (p, rqTerm req, rqVersion req) ∈ a'.
Proof.
  revert c acked a. induction ps as [|p ps IH]; intros c acked a Hl; simpl.
  { intros [= <- <-]. exists a. set_solver. }
  destruct (sendReplicateRequest now (net p) req p c) as [ok c1] eqn:Hs.
  destruct (fanOutReplicate now net req ps c1) as [acked1 c2] eqn:Hf. intros [= <- <-].
  destruct (send_steps _ _ _ _ x _ _ _ a Hl Hs) as (a1 & Hst1 & Hl1 & Hsub1 & Hok).
  destruct (IH _ _ a1 Hl1 Hf) as (a2 & Hst2 & Hl2 & Hsub2 & Hacked).
  exists a2. split_and!; [by etrans|done|set_solver|]. destruct ok; set_solver.
Qed.

Lemma fanOutForceRecover_steps now net addrs ps x c a :
  c !! l = None ->
  rtc gstep (at_write x c a) (at_write x (fanOutForceRecover now net addrs ps c).2 a).
Proof.
  revert c. induction ps as [|p ps IH]; intros c Hl; simpl; [done|].
  destruct (addrs !! p); [|by apply IH].
  destruct (sendForceRecoverRequest now (net p) p c) as [ok c1] eqn:Hs.
  enough (Hone : rtc gstep (at_write x c a) (at_write x c1 a) /\ c1 !! l = None).
  { destruct Hone as [Hone Hl1]. specialize (IH c1 Hl1).
    destruct (fanOutForceRecover now net addrs ps c1). simpl in *. by etrans. }
  unfold sendForceRecoverRequest in Hs.
  destruct (c !! p) as [[r W]|] eqn:Hp; [|destruct (net p); by simplify_eq].
  assert (Hp' : members (at_write x c a) !! p = Some (r, W)) by (simpl; rewrite lookup_insert_ne by congruence; done).
  destruct (at_write_other x c a p (r, W) (ForceRecover now r, W) _ Hl Hp
              (g_local _ p r W (ForceRecover now r) W Hp' (ForceRecover_data_frame now r))) as [Hstep Hl'].
  destruct (net p); simplify_eq; [done|..]; (split; [by apply rtc_once|done]).
Qed.

Lemma commit_local_step r W e c a o x' :
  rVersion r < two64 - 1 -> commit_local e (r, W) = (o, x') ->
  gstep (at_write (r, W) c a) (at_write x' c
    match o with Ret _ => {[(l, eTerm e, eVersion e)]} ∪ a | _ => a end).
Proof.
  intros Hmax Hc. unfold at_write.
  pose proof (g_commit (mkGroup (<[l := (r, W)]> c) b v w a) l r W e o x') as Hg.
  cbn [members ballots votes won acks] in Hg. rewrite insert_insert_eq in Hg.
  apply Hg; [apply lookup_insert_eq|done..].
Qed.
End write_steps.

(** The leader's note of who acknowledged. *)
Definition contacted (now : Z) (acked : list string) (r : ReplicaState) : ReplicaState :=
  r <| rPeerLastContact ::= fun m => foldr (fun p m => <[p := now]> m) m acked |>.

Definition write_plan (now : Z) (env : write_env) (r : ReplicaState) : QuorumInfo :=
  planQuorum (peer_addresses (rPeers r) (weAddresses env)) (rPeerLastContact r) now
    (wrap_int64 (weLeaderHeartbeat env * 2)).

(** A write of [l] that is acknowledged, as it runs: [leaderWrite] reads the
    replica and lets go of its lock, the replication requests are delivered while
    any other steps are taken, by the leader too, and the lock is taken again to
    commit. *)
Inductive write_run (now : Z) (env : write_env) (req : KVRequest) (l : string) (g : Group)
    : WriteResult -> Group -> Prop :=
| write_run_intro r W g1 r1 W1 acked x' :
    members g !! l = Some (r, W) -> ensureLeaderReady r = Ok tt -> rShardMapVersion r = weMapVersion env ->
    rtc gstep g g1 ->
    NoDup acked ->
    (forall p, p ∈ acked -> is_Some (LivePeers (write_plan now env r) !! p) /\
                            (p, rTerm r, u64_succ (rVersion r)) ∈ acks g1) ->
    NeededFollowers (write_plan now env r) <= Z.of_nat (length acked) ->
    members g1 !! l = Some (r1, W1) -> rVersion r1 < two64 - 1 ->
    commit_local (write_entry r req) (contacted now acked r1, W1) = (Ret tt, x') ->
    write_run now env req l g
      (quorum_result (write_plan now env r) (u64_succ (rVersion r)) (Z.of_nat (length acked)))
      (mkGroup (<[l := x']> (members g1)) (ballots g1) (votes g1) (won g1)
         ({[(l, rTerm r, u64_succ (rVersion r))]} ∪ acks g1)).

Lemma contacted_frame now acked r : data_frame r (contacted now acked r).
Proof. by apply data_frame_same_sm. Qed.

Lemma contacted_nil now r : contacted now [] r = r.
Proof. by destruct r. Qed.

(** The group with the leader as [x], the others as [c]. *)
Definition regroup (g : Group) (l : string) (x : node) (c : cluster) (a : gset (string * Z * Z)) : Group :=
  mkGroup (<[l := x]> c) (ballots g) (votes g) (won g) a.

(** [leaderWrite] without interruption is such a run. *)
Lemma leaderWrite_runs now env req g l r W res x' c' :
  visits (weOrder env) -> members g !! l = Some (r, W) -> rVersion r < two64 - 1 ->
  leaderWrite now env req ((r, W), delete l (members g)) = (Ret res, (x', c')) ->
  exists a, write_run now env req l g res (regroup g l x' c' a).
Proof.
  intros Horder Hl Hmax Hw. revert res x' c' Hw.
  enough (Hwp : wp (leaderWrite now env req) (fun o s' => forall res, o = Ret res ->
    exists a, write_run now env req l g res (regroup g l (fst s') (snd s') a)) ((r, W), delete l (members g))).
  { intros res x' c' Hw. exact (wp_use _ _ _ _ _ Hwp Hw res eq_refl). }
  assert (Hg : regroup g l (r, W) (delete l (members g)) (acks g) = g).
  { unfold regroup. rewrite insert_delete_id by done. by destruct g. }
  unfold leaderWrite. apply wp_bind, wp_get. cbn [fst snd].
  destruct (ensureLeaderReady r) as [[]|] eqn:Hguard; [|done].
  destruct (Z.eqb_spec (rShardMapVersion r) (weMapVersion env)) as [Hmap|]; [|done]. cbn [negb].
  fold (write_entry r req). fold (write_plan now env r).
  destruct (Z.eqb_spec (NeededFollowers (write_plan now env r)) 0) as [Hz|].
  - apply wp_bind, wp_zoom. cbn [fst snd].
    destruct (commit_local (write_entry r req) (r, W)) as [o x'] eqn:Hc.
    unfold wp. rewrite Hc. destruct o as [[]|e|]; [|done|done]. intros res [= <-].
    exists ({[(l, rTerm r, u64_succ (rVersion r))]} ∪ acks g).
    pose proof (write_run_intro now env req l g r W g r W [] x' Hl Hguard Hmap (rtc_refl _ _)) as Hrun.
    rewrite contacted_nil in Hrun. unfold regroup. cbn [fst snd]. rewrite insert_delete_eq.
    refine (Hrun _ _ _ Hl Hmax Hc); [apply NoDup_nil_2|set_solver|rewrite Hz; done].
  - destruct (negb _); [by apply wp_bind, wp_zoom, wp_modify|].
    destruct (fanOutReplicate _ _ _ _ _) as [acked c1] eqn:Hfan.
    destruct (Horder (LivePeers (write_plan now env r))) as [Hnd Hlive].
    destruct (fanOutReplicate_spec _ _ _ _ _ _ _ Hfan Hnd) as (Hsub & _ & _).
    destruct (fanOutReplicate_steps l (ballots g) (votes g) (won g) _ _ _ _ (r, W) _ _ _ (acks g)
                (lookup_delete_eq _ _) Hfan) as (a1 & Hst & Hl1 & _ & Hin).
    change (at_write l _ _ _ (r, W) (delete l (members g)) (acks g)) with (regroup g l (r, W) (delete l (members g)) (acks g)) in Hst.
    rewrite Hg in Hst.
    apply wp_bind, wp_modify. cbn [fst snd].
    destruct (Z.ltb_spec (Z.of_nat (length acked)) (NeededFollowers (write_plan now env r))) as [|Henough].
    { by apply wp_bind, wp_modify, wp_bind, wp_zoom, wp_modify. }
    apply wp_bind, wp_zoom, wp_modify, wp_bind, wp_zoom. cbn [fst snd]. fold (contacted now acked r).
    destruct (commit_local (write_entry r req) (contacted now acked r, W)) as [o x'] eqn:Hc.
    unfold wp. rewrite Hc. destruct o as [[]|e|]; [|done|done]. intros res [= <-].
    exists ({[(l, rTerm r, u64_succ (rVersion r))]} ∪ a1).
    pose proof (write_run_intro now env req l g r W _ r W acked x' Hl Hguard Hmap Hst) as Hrun.
    cbn [members ballots votes won acks at_write] in Hrun. unfold regroup. cbn [fst snd].
    rewrite insert_insert_eq in Hrun. apply Hrun; try done; [by eapply sublist_NoDup| |apply lookup_insert_eq].
    intros p Hp. split; [|by apply Hin]. apply Hlive. by eapply elem_of_sublist.
Qed.

Lemma gstep_grows g g' : gstep g g' -> acks g ⊆ acks g' /\ dom (members g') = dom (members g).
Proof.
  intros Hs. assert (Hd : forall n x x', members g !! n = Some x -> dom (<[n := x']> (members g)) = dom (members g))
    by (intros; apply dom_insert_lookup_L; eauto).
  destruct Hs; cbn [acks members]; (split; [repeat case_match; set_solver|by eauto]).
Qed.

Lemma gsteps_grow g g' : rtc gstep g g' -> acks g ⊆ acks g' /\ dom (members g') = dom (members g).
Proof.
  induction 1 as [|g1 g2 g3 Hs _ [Ha Hd]]; [done|]. apply gstep_grows in Hs as [? ?]. split; [set_solver|congruence].
Qed.

Lemma planQuorum_live addrs last now window p addr :
  LivePeers (planQuorum addrs last now window) !! p = Some addr -> addrs !! p = Some addr.
Proof.
  unfold planQuorum. cbn [LivePeers]. destruct (window <=? 0); [done|]. by intros [? _]%map_lookup_filter_Some.
Qed.

(** A write is a part of an execution, and its acknowledgements are recorded. *)
Lemma write_run_acks now env req l g res g' :
  ginv g -> write_run now env req l g res g' ->
  rtc gstep g g' /\ exists r W (A : gset string), members g !! l = Some (r, W) /\
    AppliedVersion res = u64_succ (rVersion r) /\ Z.of_nat (size A) = 1 + AckedFollowers res /\
    forall p, p ∈ A -> (p, rTerm r, AppliedVersion res) ∈ acks g'.
Proof.
  intros Hg [r W g1 r1 W1 acked x' Hl Hguard Hmap Hst Hnd Hacked Hneeded Hl1 Hmax Hc]. split.
  - etrans; [done|]. eapply rtc_l; [exact (g_local g1 l r1 W1 (contacted now acked r1) W1 Hl1 (contacted_frame now acked r1))|].
    apply rtc_once. set (g2 := mkGroup _ _ _ _ _).
    pose proof (g_commit g2 l (contacted now acked r1) W1 (write_entry r req) (Ret tt) x') as Hs.
    subst g2. cbn [members ballots votes won acks] in Hs. rewrite insert_insert_eq in Hs.
    apply Hs; [apply lookup_insert_eq|done..].
  - exists r, W, ({[l]} ∪ list_to_set acked). split_and!; [done|done|..].
    + rewrite size_union, size_singleton, size_list_to_set; [simpl; lia|done|].
      enough (l ∉ acked) by set_solver. intros [[addr Hlive] _]%Hacked.
      apply planQuorum_live, map_lookup_filter_Some in Hlive as [_ Hpeer]. cbn [fst] in Hpeer.
      destruct (inv_members _ (gi_view _ Hg)) as [_ Hm].
      destruct (Hm l r) as (_ & _ & _ & Hpeers); [simpl; by rewrite lookup_fmap, Hl|].
      assert (l ∈ (list_to_set (rPeers r) : gset string)) by set_solver. rewrite Hpeers in *. set_solver.
    + cbn [acks AppliedVersion quorum_result]. set_solver.
Qed.

(** C3: A leader elected after a write knows of it.  Take any execution of the
    replicas of a shard: elections, lost, repeated and delayed vote and
    replication requests, heartbeats, recovery that does not take a replica
    back, failing disks, but no restart.  If a write is acknowledged in it, and the replicas that
    hold it then are more than half of those configured, the winner of every
    later term is at least at the version of the write.  (The
    quorum of the code is a majority of the replicas the leader has heard from
    recently, which may be fewer than half of those configured.) *)
Theorem leader_completeness now env req l g0 g r W res g1 g2 w t :
  fresh_group g0 -> rtc gstep g0 g -> members g !! l = Some (r, W) -> rVersion r < two64 - 1 ->
  write_run now env req l g res g1 ->
  Z.of_nat (size (members g)) < 2 * (1 + AckedFollowers res) ->
  rtc gstep g1 g2 -> (w, t) ∈ won g2 -> rTerm r < t ->
  AppliedVersion res = rVersion r + 1 /\
  exists rw Ww, members g2 !! w = Some (rw, Ww) /\ AppliedVersion res <= rVersion rw.
Proof.
  intros H0 Hg Hl Hmax Hw Hsize Hg2 Hwon Hlt.
  pose proof (ginv_reachable _ _ H0 Hg) as Hinv. pose proof (gi_version _ Hinv _ _ Hl) as Hv0. cbn [fst] in Hv0.
  destruct (write_run_acks _ _ _ _ _ _ _ Hinv Hw) as (Hg1 & r' & W' & A & Hl' & Hver & HsA & HA). simplify_eq.
  split; [rewrite Hver; apply u64_succ_lt; [unfold u64|]; lia|].
  destruct (gsteps_grow _ _ Hg1) as [_ Hd1]. destruct (gsteps_grow _ _ Hg2) as [Ha Hd2].
  apply (winner_has_acknowledged g2 A (rTerm r) _ w t); [|set_solver|..|done|done].
  - eapply ginv_reachable; [done|]. etrans; [done|]. by etrans.
  - rewrite <- size_dom, Hd2, Hd1, size_dom. lia.
Qed.

(** ** Concrete runs *)

Inductive event :=
| EvBegin (n : string) (now : Z)
| EvVote (n : string) (now : Z) (ballot : nat)
| EvEnd (n : string) (now term : Z) (replies : list (string * (bool * Z))).

#[local] Instance genuine_dec g cand term peers replies : Decision (genuine g cand term peers replies).
Proof. unfold genuine. apply _. Defined.

Definition fire (ev : event) (g : Group) : option Group :=
  match ev with
  | EvBegin n now =>
      '(r, W) ← members g !! n;
      '(req, r') ← startElection_begin now r;
      if rTerm r <? two64 - 1
      then Some (mkGroup (<[n := (r', W)]> (members g)) (req :: ballots g)
                   ({[(n, n, vqTerm req)]} ∪ votes g) (won g) (acks g))
      else None
  | EvVote n now i =>
      '(r, W) ← members g !! n;
      req ← ballots g !! i;
      let '(resp, r') := RequestVote now req r in
      Some (mkGroup (<[n := (r', W)]> (members g)) (ballots g)
              (if vsVoteGranted resp then {[(n, vqCandidateId req, vqTerm req)]} ∪ votes g else votes g)
              (won g) (acks g))
  | EvEnd n now term replies =>
      '(r, W) ← members g !! n;
      if decide ((n, n, term) ∈ votes g /\ genuine (votes g) n term (rPeers r) replies) then
        let '(res, r') := startElection_end now term (rPeers r) (tally term 1 replies.*2) r in
        Some (mkGroup (<[n := (r', W)]> (members g)) (ballots g) (votes g)
                (match res with ElectionWon => {[(n, term)]} ∪ won g | _ => won g end) (acks g))
      else None
  end.

Fixpoint fire_all (evs : list event) (g : Group) : option Group :=
  match evs with [] => Some g | ev :: evs' => g1 ← fire ev g; fire_all evs' g1 end.

Lemma fire_gstep ev g g' : fire ev g = Some g' -> gstep g g'.
Proof.
  destruct ev as [n now|n now i|n now term replies]; simpl; intros ([r W] & Hn & H)%bind_Some.
  - apply bind_Some in H as ([req r'] & Hb & H). destruct (Z.ltb_spec (rTerm r) (two64 - 1)); simplify_eq.
    by eapply g_begin.
  - apply bind_Some in H as (req & Hb & H). destruct (RequestVote now req r) as [resp r'] eqn:Hv. simplify_eq.
    eapply g_vote; [done|by eapply list_elem_of_lookup_2|done].
  - case_decide as Hd; [|done]. destruct Hd as [Hself Hgen].
    destruct (startElection_end _ _ _ _ _) as [res r'] eqn:He. simplify_eq. by eapply g_end.
Qed.

Lemma fire_all_gsteps evs g g' : fire_all evs g = Some g' -> rtc gstep g g'.
Proof.
  revert g. induction evs as [|ev evs IH]; simpl; intros g; [intros [= ->]; done|].
  intros (g1 & H1%fire_gstep & H2%IH)%bind_Some. by eapply rtc_l.
Qed.

(** A shard of three replicas, [n1] its leader in term 0. *)
Definition trio_member (id : string) (peers : list string) : node :=
  (NewReplicaState "s" id peers 10 300 <| rShardMapVersion := 1 |>, healthy ∅).

Definition trio_leader : ReplicaState :=
  NewReplicaState "s" "n1" ["n2"; "n3"] 10 300
    <| rShardMapVersion := 1 |> <| rRole := RoleLeader |> <| rIsReady := true |>
    <| rPeerLastContact := {["n2" := 100; "n3" := 100]} |>.

Definition trio_others : cluster :=
  {["n2" := trio_member "n2" ["n1"; "n3"]; "n3" := trio_member "n3" ["n1"; "n2"]]}.

Definition trio : Group := mkGroup (<["n1" := (trio_leader, healthy ∅)]> trio_others) [] ∅ ∅ ∅.

Lemma trio_fresh : fresh_group trio.
Proof.
  split_and!; [|done|by apply (bool_decide_eq_true_1 _); vm_compute].
  split_and!; [|done..]. split; by apply (bool_decide_eq_true_1 _); vm_compute.
Qed.

(** Which request to which peer arrives. *)
Definition trio_env (n2 n3 : delivery) : write_env :=
  mkWriteEnv 1 {["n2" := "n2:1"; "n3" := "n3:1"]} (150 * millisecond) key_order
    (fun p => if decide (p = "n2") then n2 else n3) (fun _ => LostRequest).

Definition put_new : KVRequest := mkKVRequest "put" "k" "new".
Definition put_old : KVRequest := mkKVRequest "put" "k" "old".

(** [n2] stands for election in term 1 and gets the vote of [n3]. *)
Definition n2_takes_over : list event :=
  [EvBegin "n2" 300; EvVote "n3" 310 0; EvEnd "n2" 320 1 [("n3", (true, 1))]].

Local Abbreviation one_write :=
  (leaderWrite 200 (trio_env Delivered LostRequest) put_new ((trio_leader, healthy ∅), trio_others)).

Lemma one_write_acknowledged : fst one_write = Ret (mkWriteResult 1 2 1 3).
Proof. by vm_compute. Qed.

Lemma takeover_after_one_write a :
  exists g, fire_all n2_takes_over (regroup trio "n1" (fst (snd one_write)) (snd (snd one_write)) a) = Some g /\
    ("n2", 1) ∈ won g.
Proof.
  eexists. split; [by vm_compute|]. apply (bool_decide_eq_true_1 _). by vm_compute.
Qed.

Lemma trio_without_leader : delete "n1" (members trio) = trio_others.
Proof. by vm_compute. Qed.

Lemma trio_bounds :
  rVersion trio_leader < two64 - 1 /\ rTerm trio_leader < 1 /\
  Z.of_nat (size (members trio)) < 2 * (1 + AckedFollowers (mkWriteResult 1 2 1 3)).
Proof. by vm_compute. Qed.

Lemma outcome_pair {A B C} (p : A * (B * C)) a : fst p = a -> p = (a, (fst (snd p), snd (snd p))).
Proof. destruct p as [? [? ?]]. simpl. by intros ->. Qed.

(** The write as a run of the group. *)
Lemma one_write_runs :
  exists a, write_run 200 (trio_env Delivered LostRequest) put_new "n1" trio (mkWriteResult 1 2 1 3)
    (regroup trio "n1" (fst (snd one_write)) (snd (snd one_write)) a).
Proof.
  destruct trio_bounds as [Hmax _].
  apply (leaderWrite_runs 200 (trio_env Delivered LostRequest) put_new trio "n1" trio_leader (healthy ∅)
           (mkWriteResult 1 2 1 3) _ _ key_order_visits (lookup_insert_eq _ _ _) Hmax).
  rewrite trio_without_leader. exact (outcome_pair one_write _ one_write_acknowledged).
Qed.

Lemma leader_completeness_witness :
  exists a g, fire_all n2_takes_over (regroup trio "n1" (fst (snd one_write)) (snd (snd one_write)) a) = Some g /\
    1 = 0 + 1 /\ exists r W, members g !! "n2" = Some (r, W) /\ 1 <= rVersion r.
Proof.
  destruct trio_bounds as (Hmax & Hterm & Hsize). destruct one_write_runs as (a & Hrun).
  destruct (takeover_after_one_write a) as (g & Hg & Hwon). exists a, g. split; [exact Hg|].
  exact (leader_completeness 200 (trio_env Delivered LostRequest) put_new "n1" trio trio trio_leader (healthy ∅)
    (mkWriteResult 1 2 1 3) _ g "n2" 1 trio_fresh (rtc_refl _ _) (lookup_insert_eq _ _ _) Hmax Hrun Hsize
    (fire_all_gsteps _ _ _ Hg) Hwon Hterm).
Defined.

(** Being at the version is not holding the write.  The first write reaches
    [n2] and its reply is lost, so it fails and [n2] is not told to recover; the
    second gets the same version, [n2] acknowledges it as a duplicate without
    applying it, and the client is told it is committed.  When [n2] is elected,
    the acknowledged write is gone and the refused one is served. *)
Theorem acknowledged_write_lost :
  let '(o1, (x1, c1)) :=
    leaderWrite 200 (trio_env LostReply LostRequest) put_old ((trio_leader, healthy ∅), trio_others) in
  let '(o2, (x2, c2)) := leaderWrite 210 (trio_env Delivered LostRequest) put_new (x1, c1) in
  o1 = Err (WQuorum 0 1) /\ o2 = Ret (mkWriteResult 1 2 1 3) /\ Get "k" (fst x2) = GET_OK "new" /\
  (fire_all n2_takes_over (regroup trio "n1" x2 c2 ∅) ≫= fun g =>
   members g !! "n2" ≫= fun x => Some (rRole (fst x), Get "k" (fst x))) = Some (RoleLeader, GET_OK "old").
Proof. by vm_compute. Qed.

(** *** A voter that restarts *)

Definition voted_shard : ShardInfo := mkShard "s1" ["n1"; "n2"; "n3"] "n2" "" [].
Definition voted_map : ShardMapResponse := mkShardMapResponse 1 [voted_shard] ∅.

(** The replica of [n1] after a start on the given disk, and the disk. *)
Definition boot (fs : gmap string bytes) : option (ReplicaState * gmap string bytes) :=
  match initShardLocked 0 0 voted_shard voted_map (NewServer node_cfg1 0, healthy fs) with
  | (Ret _, (s, W)) => r ← svReplicas s !! "s1"; Some (r, files W)
  | _ => None
  end.

(** A candidate of term 1 and its request. *)
Definition candidate (id : string) (peers : list string) : option (VoteRequest * ReplicaState) :=
  startElection_begin 5 (NewReplicaState "s1" id peers 10 300).

(** [n1] votes for [n2], restarts on its own disk, and votes for [n3]: the terms
    of the two elections and how they end. *)
Definition restart_run : option ((Z * election_result) * (Z * election_result)) :=
  '(b, fs) ← boot ∅;
  '(b', _) ← boot fs;
  '(q2, r2) ← candidate "n2" ["n1"; "n3"];
  '(q3, r3) ← candidate "n3" ["n1"; "n2"];
  let v2 := (RequestVote 6 q2 b).1 in
  let v3 := (RequestVote 8 q3 b').1 in
  Some ((vqTerm q2, (startElection_end 7 (vqTerm q2) (rPeers r2) (tally (vqTerm q2) 1 [(vsVoteGranted v2, vsTerm v2)]) r2).1),
        (vqTerm q3, (startElection_end 9 (vqTerm q3) (rPeers r3) (tally (vqTerm q3) 1 [(vsVoteGranted v3, vsTerm v3)]) r3).1)).

(** Term and vote are kept in memory only, so a restart of one voter between two
    requests elects two leaders in one term. *)
Theorem restart_elects_two_leaders : restart_run = Some ((1, ElectionWon), (1, ElectionWon)).
Proof. by vm_compute. Qed.

(** *** A leader appointed by the coordinator *)

(** [n2] after it has fetched a shard map that names it leader. *)
Definition appointed : ReplicaState :=
  update_replica 400 "n2" 2 (mkShard "s" ["n1"; "n2"; "n3"] "n2" "" []) (fst (trio_member "n2" ["n1"; "n3"])).

(** Only [n3] can be reached. *)
Definition appointed_env : write_env :=
  mkWriteEnv 2 {["n1" := "n1:1"; "n3" := "n3:1"]} (150 * millisecond) key_order
    (fun p => if decide (p = "n3") then Delivered else LostRequest) (fun _ => LostRequest).

(** The shard map carries no term, so a leader appointed by the coordinator
    leads in the term it is in.  The old leader, which has not fetched the map
    yet, and the new one are leaders of the same term; each has a write
    acknowledged at version 1 by [n3], which holds only the first. *)
Theorem appointed_leader_shares_term :
  rRole appointed = RoleLeader /\ rTerm appointed = rTerm trio_leader /\
  let '(o1, (x1, c1)) :=
    leaderWrite 400 (trio_env LostRequest Delivered) put_old ((trio_leader, healthy ∅), trio_others) in
  let '(o2, (x2, c2)) := leaderWrite 410 appointed_env put_new ((appointed, healthy ∅), delete "n2" c1) in
  o1 = Ret (mkWriteResult 1 2 1 3) /\ o2 = Ret (mkWriteResult 1 2 1 3) /\
  Get "k" (fst x1) = GET_OK "old" /\ Get "k" (fst x2) = GET_OK "new".
Proof. by vm_compute. Qed.
