(* ===== verification/Http.v ===== *)
(** The HTTP side: request bodies and the shard map as JSON, the routes the two
    servers register (src/coordinator/server.go, src/node/server.go), and the
    programs that put the parts together (src/cmd/node/main.go,
    src/cmd/coordinator/main.go).

    Bodies are read with [json.NewDecoder(...).Decode], which takes the first
    JSON value and does not look at what follows.  Routing is that of
    [http.ServeMux] for patterns with a method and a literal path. *)

From S2P Require Import Prelude Strconv Filepath Fs Json JsonStruct Storage StateMachine Config ShardMap Membership Leader.
From S2P Require Import Migration Coordinator Replica Server.
From Stdlib Require Import Ascii.

(** ** Decoding *)

Definition set_bool {A} (set : bool -> A -> A) (j : json) (a : A) : option A :=
  match j with
  | JNull => Some a
  | JBool b => Some (set b a)
  | _ => None
  end.

(** An array into a slice: element [i] is decoded over the old element [i], or
    over the zero value beyond the old end.  (What a slice that was cut short
    before still holds behind its end is not represented.) *)
Fixpoint decode_elems {A} (dec : json -> A -> option A) (zero : A) (old : list A) (l : list json) : option (list A) :=
  match l with
  | [] => Some []
  | j :: l' =>
      match dec j (default zero (head old)), decode_elems dec zero (tail old) l' with
      | Some a, Some rest => Some (a :: rest)
      | _, _ => None
      end
  end.

Definition set_slice {A B} (dec : json -> B -> option B) (zero : B) (get : A -> list B) (set : list B -> A -> A)
    (j : json) (a : A) : option A :=
  match j with
  | JNull => Some (set [] a)
  | JArr l => match decode_elems dec zero (get a) l with Some bs => Some (set bs a) | None => None end
  | _ => None
  end.

Definition dec_string : json -> string -> option string := set_string (fun s _ => s).

Definition dec_struct {A} (fs : list (field A)) (j : json) (a : A) : option A :=
  match j with
  | JNull => Some a
  | JObj ms => set_members fs ms a
  | _ => None
  end.

Definition set_strings {A} (get : A -> list string) (set : list string -> A -> A) : json -> A -> option A :=
  set_slice dec_string "" get set.

(** [json.NewDecoder(body).Decode(&a)] from the zero value. *)
Definition decode_body {A} (fs : list (field A)) (zero : A) (body : bytes) : option A :=
  match parse_value (S (length body)) body with
  | Some (j, _) => dec_struct fs j zero
  | None => None
  end.

(** ** Request bodies *)

Record HeartbeatRequest := mkHeartbeat { hrqNodeID : string; hrqShards : list ShardStatus }.
Record NotifyLeaderRequest := mkNotify { nlShardID : string; nlLeaderID : string; nlTerm : Z }.
Record AddNodeRequest := mkAddNode { anNodeID : string; anAddress : string }.
Record MigrateShardRequest := mkMigrate { msShardID : string; msNewReplicas : list string }.
Record SplitShardRequest := mkSplit { spSourceShardID : string; spNewShardID : string; spNewReplicas : list string }.

#[global] Instance ShardStatus_eta : Eta ShardStatus := fun s =>
  mkShardStatus (hbShardID s) (hbRole s) (hbVersion s) (hbIsReady s) (hbTerm s).
#[global] Instance HeartbeatRequest_eta : Eta HeartbeatRequest := fun r => mkHeartbeat (hrqNodeID r) (hrqShards r).
#[global] Instance NotifyLeaderRequest_eta : Eta NotifyLeaderRequest := fun r =>
  mkNotify (nlShardID r) (nlLeaderID r) (nlTerm r).
#[global] Instance AddNodeRequest_eta : Eta AddNodeRequest := fun r => mkAddNode (anNodeID r) (anAddress r).
#[global] Instance MigrateShardRequest_eta : Eta MigrateShardRequest := fun r => mkMigrate (msShardID r) (msNewReplicas r).
#[global] Instance SplitShardRequest_eta : Eta SplitShardRequest := fun r =>
  mkSplit (spSourceShardID r) (spNewShardID r) (spNewReplicas r).

Definition ShardStatus_fields : list (field ShardStatus) :=
  [mkField "shard_id" (set_string (fun v r => r <| hbShardID := v |>));
   mkField "role" (set_string (fun v r => r <| hbRole := v |>));
   mkField "version" (set_uint (fun v r => r <| hbVersion := v |>));
   mkField "is_ready" (set_bool (fun v r => r <| hbIsReady := v |>));
   mkField "term" (set_uint (fun v r => r <| hbTerm := v |>))].

Definition Heartbeat_fields : list (field HeartbeatRequest) :=
  [mkField "node_id" (set_string (fun v r => r <| hrqNodeID := v |>));
   mkField "shards" (set_slice (dec_struct ShardStatus_fields) (mkShardStatus "" "" 0 false 0) hrqShards
                       (fun v r => r <| hrqShards := v |>))].

Definition NotifyLeader_fields : list (field NotifyLeaderRequest) :=
  [mkField "shard_id" (set_string (fun v r => r <| nlShardID := v |>));
   mkField "leader_id" (set_string (fun v r => r <| nlLeaderID := v |>));
   mkField "term" (set_uint (fun v r => r <| nlTerm := v |>))].

Definition AddNode_fields : list (field AddNodeRequest) :=
  [mkField "node_id" (set_string (fun v r => r <| anNodeID := v |>));
   mkField "address" (set_string (fun v r => r <| anAddress := v |>))].

Definition MigrateShard_fields : list (field MigrateShardRequest) :=
  [mkField "shard_id" (set_string (fun v r => r <| msShardID := v |>));
   mkField "new_replicas" (set_strings msNewReplicas (fun v r => r <| msNewReplicas := v |>))].

Definition SplitShard_fields : list (field SplitShardRequest) :=
  [mkField "source_shard_id" (set_string (fun v r => r <| spSourceShardID := v |>));
   mkField "new_shard_id" (set_string (fun v r => r <| spNewShardID := v |>));
   mkField "new_replicas" (set_strings spNewReplicas (fun v r => r <| spNewReplicas := v |>))].

(** The handlers on the bytes of the body. *)
Definition serveHeartbeat (now : Z) (body : bytes) (s : Coordinator) : result coerr Z * Coordinator :=
  handleHeartbeat now ((fun r => (hrqNodeID r, hrqShards r)) <$> decode_body Heartbeat_fields (mkHeartbeat "" []) body) s.

Definition serveNotifyLeader (body : bytes) (s : Coordinator) : result coerr unit * Coordinator :=
  handleNotifyLeader ((fun r => (nlShardID r, nlLeaderID r, nlTerm r)) <$> decode_body NotifyLeader_fields (mkNotify "" "" 0) body) s.

Definition serveAddNode (body : bytes) (s : Coordinator) : result coerr unit * Coordinator :=
  handleAdminAddNode ((fun r => (anNodeID r, anAddress r)) <$> decode_body AddNode_fields (mkAddNode "" "") body) s.

Definition serveMigrateShard (body : bytes) (s : Coordinator) : result coerr unit * Coordinator :=
  handleAdminMigrateShard ((fun r => (msShardID r, msNewReplicas r)) <$> decode_body MigrateShard_fields (mkMigrate "" []) body) s.

Definition serveSplitShard (body : bytes) (s : Coordinator) : result coerr unit * Coordinator :=
  handleAdminSplitShard ((fun r => (spSourceShardID r, spNewShardID r, spNewReplicas r)) <$>
    decode_body SplitShard_fields (mkSplit "" "" []) body) s.

(** ** Routing *)

(** [cleanPath] of net/http; [path.Clean] is [Clean] on rooted paths. *)
Definition cleanPath (p : bytes) : bytes :=
  match p with
  | [] => [slash]
  | c :: _ =>
      let p := if decide (c = slash) then p else slash :: p in
      let np := Clean p in
      if decide (last p = Some slash /\ np <> [slash]) then np ++ [slash] else np
  end.

Inductive routed (H : Type) :=
| RouteTo (h : H)
| RouteRedirect (path : string)
| RouteNotFound
| RouteMethodNotAllowed.
Arguments RouteTo {H} h.
Arguments RouteRedirect {H} path.
Arguments RouteNotFound {H}.
Arguments RouteMethodNotAllowed {H}.

(** A pattern with method GET also matches HEAD. *)
Definition method_matches (pattern method : string) : bool :=
  bool_decide (pattern = method) || (bool_decide (pattern = "GET") && bool_decide (method = "HEAD")).

(** [ServeMux] with the routes in [routes]: method, path and handler. *)
Definition serve_mux {H} (routes : list (string * string * H)) (method path : string) : routed H :=
  let cleaned := to_str (cleanPath (of_str path)) in
  if negb (bool_decide (method = "CONNECT")) && negb (bool_decide (cleaned = path)) then RouteRedirect cleaned
  else
    match find (fun r => method_matches r.1.1 method && bool_decide (r.1.2 = path)) routes with
    | Some r => RouteTo r.2
    | None => if existsb (fun r => bool_decide (r.1.2 = path)) routes then RouteMethodNotAllowed else RouteNotFound
    end.

(** ** The coordinator *)

Inductive co_handler := CoReady | CoAddNode | CoMigrateShard | CoSplitShard | CoMetrics.

Definition coordinator_routes : list (string * string * co_handler) :=
  [("GET", "/ready", CoReady);
   ("POST", "/admin/add_node", CoAddNode);
   ("POST", "/admin/migrate_shard", CoMigrateShard);
   ("POST", "/admin/split_shard", CoSplitShard);
   ("GET", "/metrics", CoMetrics)].

(** The status code of a handler's answer. *)
Definition co_status (r : result coerr unit) : Z :=
  match r with
  | Ok _ => 200
  | Fail CoBadRequest => 400
  | Fail (CoUnknownNode _) => 400
  | Fail (CoNotFound _) => 404
  | Fail CoLeaderUnknown => 500
  | Fail (CoConflict _) => 409
  | Fail CoStale => 409
  | Fail CoNotReady => 503
  end.

Section coordinator.
(** The status of the page [promhttp] serves. *)
Context (metrics_status : Z).

Definition coordinator_http (method path : string) (body : bytes) (s : Coordinator) : Z * Coordinator :=
  match serve_mux coordinator_routes method path with
  | RouteRedirect _ => (301, s)
  | RouteNotFound => (404, s)
  | RouteMethodNotAllowed => (405, s)
  | RouteTo CoReady => (co_status (Coordinator.handleReady s), s)
  | RouteTo CoMetrics => (metrics_status, s)
  | RouteTo CoAddNode => let '(r, s') := serveAddNode body s in (co_status r, s')
  | RouteTo CoMigrateShard => let '(r, s') := serveMigrateShard body s in (co_status r, s')
  | RouteTo CoSplitShard => let '(r, s') := serveSplitShard body s in (co_status r, s')
  end.
End coordinator.

(** ** The shard map as JSON *)

(** A slice of strings; an empty one is [nil] ([append([]string(nil), ...)]). *)
Definition j_strings (l : list string) : json :=
  match l with [] => JNull | _ => JArr (j_string <$> l) end.

Definition ShardInfo_members (s : ShardInfo) : list (bytes * json) :=
  [(of_str "id", j_string (shID s)); (of_str "replicas", j_strings (shReplicas s));
   (of_str "leader", j_string (shLeader s))] ++
  (if decide (shBootstrapSource s = "") then []
   else [(of_str "bootstrap_source_shard_id", j_string (shBootstrapSource s))]) ++
  (match shIncoming s with [] => [] | _ => [(of_str "incoming_replicas", j_strings (shIncoming s))] end).

Definition ShardInfo_fields : list (field ShardInfo) :=
  [mkField "id" (set_string (fun v s => s <| shID := v |>));
   mkField "replicas" (set_strings shReplicas (fun v s => s <| shReplicas := v |>));
   mkField "leader" (set_string (fun v s => s <| shLeader := v |>));
   mkField "bootstrap_source_shard_id" (set_string (fun v s => s <| shBootstrapSource := v |>));
   mkField "incoming_replicas" (set_strings shIncoming (fun v s => s <| shIncoming := v |>))].

Definition ShardInfo_zero : ShardInfo := mkShard "" [] "" "" [].

#[global] Instance ShardMapResponse_eta : Eta ShardMapResponse := fun r =>
  mkShardMapResponse (smrVersion r) (smrShards r) (smrNodeAddresses r).

Definition ShardMapResponse_members (r : ShardMapResponse) : list (bytes * json) :=
  [(of_str "version", j_uint (smrVersion r));
   (of_str "shards", JArr ((fun s => JObj (ShardInfo_members s)) <$> smrShards r));
   (of_str "node_addresses", j_string_map (smrNodeAddresses r))].

Definition ShardMapResponse_fields : list (field ShardMapResponse) :=
  [mkField "version" (set_uint (fun v r => r <| smrVersion := v |>));
   mkField "shards" (set_slice (dec_struct ShardInfo_fields) ShardInfo_zero smrShards (fun v r => r <| smrShards := v |>));
   mkField "node_addresses" (set_string_map smrNodeAddresses (fun v r => r <| smrNodeAddresses := v |>))].

Definition ShardMapResponse_zero : ShardMapResponse := mkShardMapResponse 0 [] ∅.

(** [json.NewEncoder(w).Encode(resp)] ends the value with a newline. *)
Definition encode_shard_map (r : ShardMapResponse) : bytes := print_json (JObj (ShardMapResponse_members r)) ++ [newline].

Section shard_map.
Context (norder : gmap string NodeStatus -> list (string * NodeStatus)).
Context (sorder : gmap string ShardInfo -> list (string * ShardInfo)).

(** [handleShardMap]: status and body. *)
Definition handleShardMap (s : Coordinator) : Z * bytes :=
  (200, encode_shard_map (buildShardMapResponse norder sorder s)).
End shard_map.

Inductive fetcherr := FetchGet | FetchStatus (code : Z) | FetchDecode.

(** cmd/node: [get url] is the answer to [http.Get], status and body. *)
Definition fetchShardMap (get : string -> option (Z * bytes)) (coordinatorAddr : string)
    : result fetcherr ShardMapResponse :=
  match get ("http://" +:+ coordinatorAddr +:+ "/shardmap") with
  | None => Fail FetchGet
  | Some (code, body) =>
      if negb (code =? 200) then Fail (FetchStatus code)
      else match decode_body ShardMapResponse_fields ShardMapResponse_zero body with
           | Some r => Ok r
           | None => Fail FetchDecode
           end
  end.

(** ** The node *)

Inductive node_handler := ServeStatus | ServeReady | ServeMetrics.

Definition node_routes : list (string * string * node_handler) :=
  [("GET", "/status", ServeStatus); ("GET", "/ready", ServeReady); ("GET", "/metrics", ServeMetrics)].

(** The status code; no route changes the node. *)
Definition node_http (rorder : gmap string ReplicaState -> list (string * ReplicaState)) (metrics_status : Z)
    (method path : string) (s : Server) : Z :=
  match serve_mux node_routes method path with
  | RouteRedirect _ => 301
  | RouteNotFound => 404
  | RouteMethodNotAllowed => 405
  | RouteTo ServeStatus => 200
  | RouteTo ServeReady => if Server.handleReady rorder s then 200 else 503
  | RouteTo ServeMetrics => metrics_status
  end.

(** ** The programs *)

Inductive mainerr := MainConfig (e : cfgerr) | MainFetch (e : fetcherr) | MainInit (e : maperr) | MainShards (e : smerr).

(** cmd/coordinator, up to [Start]. *)
Definition coordinator_main (unmarshal : bytes -> option ClusterConfig) (path : string)
    : M World mainerr Coordinator :=
  do cfg <- io_map_err MainConfig (LoadClusterConfig unmarshal path);
  match Coordinator_Init cfg (Coordinator_New cfg) with
  | (Fail e, _) => io_fail (MainInit e)
  | (Ok _, s) => io_ret s
  end.

(** cmd/node, up to [Start]. *)
Definition node_main (unmarshal : bytes -> option NodeConfig) (get : string -> option (Z * bytes)) (path : string)
    (now : Z) (draw : string -> Z) : M World mainerr Server :=
  do cfg <- io_map_err MainConfig (LoadNodeConfig unmarshal path);
  match fetchShardMap get (ncCoordinatorAddress cfg) with
  | Fail e => io_fail (MainFetch e)
  | Ok resp => fun W =>
      let '(o, (s, W')) := InitShards now draw resp (NewServer cfg now, W) in
      (match o with Ret _ => Ret s | Err e => Err (MainShards e) | Crashed => Crashed end, W')
  end.

(** ** Bodies *)

Lemma decode_elems_strings l :
  decode_elems dec_string "" [] (j_string <$> l) = Some l.
Proof.
  induction l as [|x l IH]; [done|]. cbn [fmap list_fmap decode_elems tail head default].
  unfold dec_string at 1. rewrite set_string_j. change (tail []) with (@nil string). by rewrite IH.
Qed.

Lemma set_strings_j {A} get (set : list string -> A -> A) l a :
  get a = [] -> set_strings get set (j_strings l) a = Some (set l a).
Proof.
  intros Hg. unfold set_strings, set_slice, j_strings. destruct l as [|x l]; [done|].
  by rewrite Hg, decode_elems_strings.
Qed.

Lemma wf_strings l : Forall utf8_str l -> wf_json (j_strings l).
Proof.
  intros Hl. unfold j_strings. destruct l as [|x l]; [done|]. apply foldr_Forall, Forall_fmap.
  eapply Forall_impl; [exact Hl|]. intros y Hy. by apply wf_string.
Qed.

(** Decoding what was encoded, whatever follows it. *)
Lemma decode_body_print {A} (fs : list (field A)) zero ms a rest :
  wf_json (JObj ms) -> set_members fs ms zero = Some a -> delimited rest ->
  decode_body fs zero (print_json (JObj ms) ++ rest) = Some a.
Proof.
  intros Hwf Hset Hrest. unfold decode_body.
  rewrite (proj1 (parse_print_value _) (JObj ms) rest Hwf); [done| |done]. rewrite length_app. lia.
Qed.

Definition shard_utf8 (s : ShardInfo) : Prop :=
  utf8_str (shID s) /\ Forall utf8_str (shReplicas s) /\ utf8_str (shLeader s) /\
  utf8_str (shBootstrapSource s) /\ Forall utf8_str (shIncoming s).

Lemma ShardInfo_wf s : shard_utf8 s -> wf_json (JObj (ShardInfo_members s)).
Proof.
  intros (Hi & Hr & Hl & Hb & Hn). apply wf_members. unfold ShardInfo_members.
  repeat apply Forall_app_2; try case_decide; try (destruct (shIncoming s) as [|y l] eqn:He);
    repeat (apply Forall_cons; split; [split; [cbn [fst]; utf8_ascii|cbn [snd]; auto using wf_string, wf_strings]|]);
    try apply Forall_nil_2.
Qed.

Lemma ShardInfo_set s : set_members ShardInfo_fields (ShardInfo_members s) ShardInfo_zero = Some s.
Proof.
  destruct s as [i r l b n]. unfold ShardInfo_members. cbn [shID shReplicas shLeader shBootstrapSource shIncoming app].
  erewrite (set_members_cons _ (of_str "id")); [|reflexivity|apply set_string_j]. cbv beta.
  erewrite (set_members_cons _ (of_str "replicas")); [|reflexivity|by apply set_strings_j]. cbv beta.
  cbn [app]. erewrite (set_members_cons _ (of_str "leader")); [|reflexivity|apply set_string_j]. cbv beta.
  case_decide as Hb; [subst b|].
  - cbn [app]. destruct n as [|y n]; [done|].
    erewrite (set_members_cons _ (of_str "incoming_replicas")); [|reflexivity|by apply set_strings_j]. done.
  - cbn [app]. erewrite (set_members_cons _ (of_str "bootstrap_source_shard_id")); [|reflexivity|apply set_string_j]. cbv beta.
    destruct n as [|y n]; [done|].
    erewrite (set_members_cons _ (of_str "incoming_replicas")); [|reflexivity|by apply set_strings_j]. done.
Qed.

Lemma decode_elems_shards l :
  decode_elems (dec_struct ShardInfo_fields) ShardInfo_zero [] ((fun s => JObj (ShardInfo_members s)) <$> l) = Some l.
Proof.
  induction l as [|s l IH]; [done|]. cbn [fmap list_fmap decode_elems tail head default dec_struct].
  rewrite ShardInfo_set. change (tail []) with (@nil ShardInfo). by rewrite IH.
Qed.

Definition response_utf8 (r : ShardMapResponse) : Prop :=
  u64 (smrVersion r) /\ Forall shard_utf8 (smrShards r) /\ utf8_map (smrNodeAddresses r).

Lemma ShardMapResponse_decodes r rest :
  response_utf8 r -> delimited rest ->
  decode_body ShardMapResponse_fields ShardMapResponse_zero (print_json (JObj (ShardMapResponse_members r)) ++ rest) = Some r.
Proof.
  intros (Hv & Hs & Hm) Hrest. apply decode_body_print; [| |done].
  - apply wf_members. unfold ShardMapResponse_members.
    repeat (apply Forall_cons; split; [split; [cbn [fst]; utf8_ascii|cbn [snd]]|]); [by apply wf_uint| |by apply wf_string_map|apply Forall_nil_2].
    apply foldr_Forall, Forall_fmap. eapply Forall_impl; [exact Hs|]. intros s. apply ShardInfo_wf.
  - destruct r as [v ss m]. unfold ShardMapResponse_members. cbn [smrVersion smrShards smrNodeAddresses] in *.
    erewrite (set_members_cons _ (of_str "version")); [|reflexivity|by apply set_uint_j]. cbv beta.
    erewrite (set_members_cons _ (of_str "shards")); [|reflexivity|].
    2:{ cbn [fset]. unfold set_slice. cbn [smrShards]. change (smrShards (_ <| smrVersion := v |>)) with (@nil ShardInfo).
        rewrite decode_elems_shards. reflexivity. }
    erewrite (set_members_cons _ (of_str "node_addresses")); [|reflexivity|by apply set_string_map_j]. done.
Qed.

(** C35: The shard map survives the way from the coordinator to a node: what
    [handleShardMap] writes is what [fetchShardMap] reads, with the version, every
    shard with its replicas, leader, bootstrap source and incoming replicas, and
    the node addresses, as long as the names are valid UTF-8. *)
Theorem fetchShardMap_handleShardMap norder sorder get addr s :
  get ("http://" +:+ addr +:+ "/shardmap") = Some (handleShardMap norder sorder s) ->
  response_utf8 (buildShardMapResponse norder sorder s) ->
  fetchShardMap get addr = Ok (buildShardMapResponse norder sorder s).
Proof.
  intros Hget Hok. unfold fetchShardMap. rewrite Hget. unfold handleShardMap, encode_shard_map. cbn [negb Z.eqb].
  by rewrite ShardMapResponse_decodes.
Qed.

(** ** What HTTP requests can do to the coordinator *)

Lemma StartMigration_fails shardID new mm e mm' : StartMigration shardID new mm = (Fail e, mm') -> mm' = mm.
Proof.
  unfold StartMigration. destruct (ShardMap_Get _ _) as [sh|]; [|by intros [= _ ->]].
  destruct (SetReplicas _ _ _) as [m|] eqn:Hr; [|by intros [= _ ->]].
  destruct (SetIncomingReplicas _ _ _) as [m'|] eqn:Hi; [done|].
  exfalso. unfold SetReplicas in Hr. destruct (mapShards (mmShards mm) !! shardID); [|done]. injection Hr as <-.
  unfold SetIncomingReplicas, set_shards, mmShards in Hi. simpl in Hi. by rewrite lookup_insert_eq in Hi.
Qed.

Lemma serve_mux_found {H} (routes : list (string * string * H)) method path h :
  serve_mux routes method path = RouteTo h ->
  exists m, (m, path, h) ∈ routes /\ method_matches m method = true.
Proof.
  unfold serve_mux. destruct (_ && _); [done|].
  destruct (find _ routes) as [[[m p] h']|] eqn:Hf; [|by destruct (existsb _ _)].
  intros [= ->]. apply find_some in Hf as [Hin Hm]. apply list_elem_of_In in Hin. simpl in Hm.
  apply andb_true_iff in Hm as [Hm Hp%bool_decide_eq_true_1]. subst. by exists m.
Qed.

Definition admin_paths : list string := ["/admin/add_node"; "/admin/migrate_shard"; "/admin/split_shard"].

Lemma admin_route method path h :
  serve_mux coordinator_routes method path = RouteTo h -> h <> CoReady -> h <> CoMetrics ->
  method = "POST" /\ path ∈ admin_paths.
Proof.
  intros (m & Hin & Hm)%serve_mux_found H1 H2. unfold coordinator_routes, admin_paths in *.
  apply list_elem_of_In in Hin. simpl in Hin. rewrite list_elem_of_In.
  destruct Hin as [[= <- <- <-]|[[= <- <- <-]|[[= <- <- <-]|[[= <- <- <-]|[[= <- <- <-]|[]]]]]]; try done; apply orb_true_iff in Hm as [Hm|Hm]; try done;
    apply bool_decide_eq_true_1 in Hm; subst; simpl; auto.
Qed.

Lemma coMigration_id s : s <| coMigration := coMigration s |> = s.
Proof. by destruct s. Qed.

Lemma admin_refused_unchanged :
  (forall body s r s', serveAddNode body s = (r, s') -> r <> Ok tt -> s' = s) /\
  (forall body s r s', serveMigrateShard body s = (r, s') -> r <> Ok tt -> s' = s) /\
  (forall body s r s', serveSplitShard body s = (r, s') -> r <> Ok tt -> s' = s).
Proof.
  split_and!; intros body s r s'.
  - unfold serveAddNode. destruct (decode_body _ _ body) as [q|]; simpl; [case_decide|]; by intros [= <- <-].
  - unfold serveMigrateShard. destruct (decode_body _ _ body) as [q|]; simpl; [case_decide|]; try by intros [= <- <-].
    destruct (StartMigration _ _ _) as [[u|e] mm] eqn:Hm; intros [= <- <-]; [by destruct u|].
    intros _. apply StartMigration_fails in Hm. subst. apply coMigration_id.
  - unfold serveSplitShard. destruct (decode_body _ _ body) as [q|]; simpl; [case_decide|]; try by intros [= <- <-].
    destruct (ShardMap_Get _ _); [|by intros [= <- <-]]. destruct (AddShard _ _); by intros [= <- <-].
Qed.

(** C34: Over HTTP the coordinator is changed by nothing but its three admin
    requests: a request that is answered with anything but 200 has no effect, one
    that has an effect is a POST to an admin path, and whatever the method, the
    path and the body, the invariant of the coordinator is kept. *)
Theorem coordinator_http_effects metrics_status method path body s :
  let '(status, s') := coordinator_http metrics_status method path body s in
  (status <> 200 -> s' = s) /\ (s' <> s -> method = "POST" /\ path ∈ admin_paths) /\
  (co_wf (coMigration s) -> co_wf (coMigration s')).
Proof.
  unfold coordinator_http. destruct (serve_mux coordinator_routes method path) as [h|p| |] eqn:Hr; try done.
  destruct admin_refused_unchanged as (Hadd & Hmig & Hsplit).
  assert (Hst : forall r : result coerr unit, co_status r <> 200 -> r <> Ok tt) by (intros r H ->; by apply H).
  destruct h; try done.
  - pose proof (co_add_node s) as Hstep. destruct (serveAddNode body s) as [r s'] eqn:Hs. split_and!.
    + intros Hne. eapply Hadd; [exact Hs|by apply Hst].
    + intros _. by eapply admin_route.
    + intros Hwf. unfold serveAddNode in Hs. apply (f_equal snd) in Hs. simpl in Hs. subst s'.
      eapply co_step_wf; [apply Hstep|done].
  - pose proof (co_migrate s) as Hstep. destruct (serveMigrateShard body s) as [r s'] eqn:Hs. split_and!.
    + intros Hne. eapply Hmig; [exact Hs|by apply Hst].
    + intros _. by eapply admin_route.
    + intros Hwf. unfold serveMigrateShard in Hs. apply (f_equal snd) in Hs. simpl in Hs. subst s'.
      eapply co_step_wf; [apply Hstep|done].
  - pose proof (co_split s) as Hstep. destruct (serveSplitShard body s) as [r s'] eqn:Hs. split_and!.
    + intros Hne. eapply Hsplit; [exact Hs|by apply Hst].
    + intros _. by eapply admin_route.
    + intros Hwf. unfold serveSplitShard in Hs. apply (f_equal snd) in Hs. simpl in Hs. subst s'.
      eapply co_step_wf; [apply Hstep|done].
Qed.

(** ** The node program *)

Lemma shardmap_not_routed metrics_status body s :
  coordinator_http metrics_status "GET" "/shardmap" body s = (404, s).
Proof. done. Qed.

(** C36: The node program cannot start against this coordinator: whatever its
    configuration, its disk and the state of the coordinator, GET /shardmap is
    answered with 404, and the program ends with an error before it creates the
    server. *)
Theorem node_main_fails metrics_status s get unmarshal path now draw W :
  (forall addr, get ("http://" +:+ addr +:+ "/shardmap") =
     Some (fst (coordinator_http metrics_status "GET" "/shardmap" [] s), [])) ->
  let '(o, _) := node_main unmarshal get path now draw W in
  o = Crashed \/ (exists e, o = Err (MainConfig e)) \/ o = Err (MainFetch (FetchStatus 404)).
Proof.
  intros Hget. unfold node_main, io_bind, io_map_err.
  destruct (LoadNodeConfig unmarshal path W) as [[cfg|e|] W1]; [|by eauto|by eauto].
  unfold fetchShardMap. rewrite Hget, shardmap_not_routed. right. right. reflexivity.
Qed.

(** ** Concrete requests *)

(** Go's decoder folds the case of names, skips unknown members and does not
    read past the first value. *)
Definition split_body : bytes :=
  of_str "{'source_shard_id':'s1','extra':[1,2],'NEW_SHARD_ID':'s9','new_replicas':['n2','n3']} trailing".

Definition as_json (s : bytes) : bytes := (fun c => if decide (c = "'"%char) then dquote else c) <$> s.

Theorem split_over_http :
  let '(status, s) := coordinator_http 200 "POST" "/admin/split_shard" (as_json split_body) coordinator1 in
  status = 200 /\ mapShards (coShards s) !! "s9" = Some (mkShard "s9" ["n2"; "n3"] "" "s1" []).
Proof. by vm_compute. Qed.

(** Routing answers what [ServeMux] answers: a wrong method, an unknown path, a
    path that is not clean. *)
Theorem routing_errors :
  fst (coordinator_http 200 "GET" "/admin/add_node" [] coordinator1) = 405 /\
  fst (coordinator_http 200 "POST" "/heartbeat" [] coordinator1) = 404 /\
  fst (coordinator_http 200 "HEAD" "/ready" [] coordinator1) = 200 /\
  fst (coordinator_http 200 "POST" "/admin//add_node" [] coordinator1) = 301 /\
  fst (coordinator_http 200 "POST" "/admin/add_node" (as_json (of_str "{'node_id':7}")) coordinator1) = 400.
Proof. by vm_compute. Qed.

Definition serving (s : Coordinator) (url : string) : option (Z * bytes) :=
  if decide (url = "http://c:1/shardmap") then Some (handleShardMap map_to_list map_to_list s) else None.

Lemma coordinator1_utf8 : response_utf8 (buildShardMapResponse map_to_list map_to_list coordinator1).
Proof.
  split_and!; [by vm_compute|..].
  - apply Forall_singleton. split_and!; repeat first [apply Forall_nil_2 | apply Forall_cons_2]; utf8_ascii.
  - apply map_Forall_to_list.
    eassert (Heq : map_to_list (smrNodeAddresses (buildShardMapResponse map_to_list map_to_list coordinator1)) = _)
      by (vm_compute; reflexivity).
    rewrite Heq. repeat first [apply Forall_nil_2 | apply Forall_cons_2]; split; utf8_ascii.
Qed.

Lemma fetchShardMap_handleShardMap_witness :
  fetchShardMap (serving coordinator1) "c:1" = Ok (buildShardMapResponse map_to_list map_to_list coordinator1).
Proof.
  apply (fetchShardMap_handleShardMap map_to_list map_to_list (serving coordinator1) "c:1" coordinator1 eq_refl coordinator1_utf8).
Defined.

Lemma node_main_fails_witness :
  let get := fun _ : string => Some (fst (coordinator_http 200 "GET" "/shardmap" [] coordinator1), []) in
  let '(o, _) := node_main (fun _ => Some node_config1) get "node.yaml" 0 (fun _ => 0) (healthy {["node.yaml" := []]}) in
  o = Crashed \/ (exists e, o = Err (MainConfig e)) \/ o = Err (MainFetch (FetchStatus 404)).
Proof.
  apply (node_main_fails 200 coordinator1 (fun _ => Some (fst (coordinator_http 200 "GET" "/shardmap" [] coordinator1), []))).
  intros addr. reflexivity.
Defined.
