(* ===== verification/KvHttp.v ===== *)
(** The key-value endpoint over HTTP: the JSON bodies of POST /kv/{shard_id}
    (src/node/server.go) and the client of the test harness that speaks to it
    (src/test/reliability/cluster.go, PutKV and GetKV).

    What the client reports is what the replica did: [true] for a put exactly
    when the write was acknowledged, a value for a get exactly when the replica
    leads and holds it. *)

From S2P Require Import Prelude Strconv Fs Json JsonStruct Storage StateMachine Replica Write Kv Http.
From Stdlib Require Import Ascii.

(** ** Bodies *)

#[global] Instance KVRequest_eta : Eta KVRequest := fun r => mkKVRequest (kqOp r) (kqKey r) (kqValue r).

Record KVResponse := mkKVResponse {
  krOK : bool;
  krValue : string;
  krError : string;
  krLeaderID : string;
  krLeaderAddress : string;
  krAppliedVersion : Z;
  krQuorum : Z;
}.
#[global] Instance KVResponse_eta : Eta KVResponse := fun r =>
  mkKVResponse (krOK r) (krValue r) (krError r) (krLeaderID r) (krLeaderAddress r) (krAppliedVersion r) (krQuorum r).

(** Members with [omitempty]. *)
Definition omit_string (name v : string) : list (bytes * json) := if decide (v = "") then [] else [(of_str name, j_string v)].
Definition omit_uint (name : string) (v : Z) : list (bytes * json) := if decide (v = 0) then [] else [(of_str name, j_uint v)].
Definition omit_int (name : string) (v : Z) : list (bytes * json) := if decide (v = 0) then [] else [(of_str name, j_int v)].

Definition KVRequest_members (r : KVRequest) : list (bytes * json) :=
  [(of_str "op", j_string (kqOp r)); (of_str "key", j_string (kqKey r))] ++ omit_string "value" (kqValue r).

Definition KVRequest_fields : list (field KVRequest) :=
  [mkField "op" (set_string (fun v r => r <| kqOp := v |>));
   mkField "key" (set_string (fun v r => r <| kqKey := v |>));
   mkField "value" (set_string (fun v r => r <| kqValue := v |>))].

Definition KVResponse_members (r : KVResponse) : list (bytes * json) :=
  [(of_str "ok", JBool (krOK r))] ++ omit_string "value" (krValue r) ++ omit_string "error" (krError r) ++
  omit_string "leader_id" (krLeaderID r) ++ omit_string "leader_address" (krLeaderAddress r) ++
  omit_uint "applied_version" (krAppliedVersion r) ++ omit_int "quorum" (krQuorum r).

Definition KVResponse_fields : list (field KVResponse) :=
  [mkField "ok" (set_bool (fun v r => r <| krOK := v |>));
   mkField "value" (set_string (fun v r => r <| krValue := v |>));
   mkField "error" (set_string (fun v r => r <| krError := v |>));
   mkField "leader_id" (set_string (fun v r => r <| krLeaderID := v |>));
   mkField "leader_address" (set_string (fun v r => r <| krLeaderAddress := v |>));
   mkField "applied_version" (set_uint (fun v r => r <| krAppliedVersion := v |>));
   mkField "quorum" (set_int (fun v r => r <| krQuorum := v |>))].

Definition KVRequest_zero : KVRequest := mkKVRequest "" "" "".
Definition KVResponse_zero : KVResponse := mkKVResponse false "" "" "" "" 0 0.

Section server.
(** [err.Error()] of a refused write. *)
Context (error_text : writeerr -> string).

Definition refusal (e : string) : KVResponse := mkKVResponse false "" e "" "" 0 0.
Definition kv_json (r : KVResponse) : bytes := print_json (JObj (KVResponse_members r)) ++ [newline].

(** [http.Error] *)
Definition plain (text : string) : bytes := of_str text ++ [newline].

(** Status and body of every answer of [handleKV]. *)
Definition kv_answer (reply : KVReply) : Z * bytes :=
  match reply with
  | KV_NOT_LEADER id addr => (421, kv_json (mkKVResponse false "" "NOT_LEADER" id addr 0 0))
  | KV_NOT_READY => (503, plain "replica not ready")
  | KV_BAD_REQUEST => (400, plain "bad request")
  | KV_NOT_FOUND => (200, kv_json (refusal "not found"))
  | KV_VALUE v => (200, kv_json (mkKVResponse true v "" "" "" 0 0))
  | KV_SHARD_MAP_STALE => (503, kv_json (refusal "SHARD_MAP_STALE"))
  | KV_REFUSED e => (503, kv_json (refusal (error_text e)))
  | KV_APPLIED version quorum => (200, kv_json (mkKVResponse true "" "" "" "" version quorum))
  | KV_UNKNOWN_OP op => (400, plain ("unknown op: " +:+ op))
  end.

(** The handler from bytes to bytes; no answer when the process dies. *)
Definition serveKV (now : Z) (env : write_env) (body : bytes) (s : node * cluster) : option (Z * bytes) * (node * cluster) :=
  match handleKV now env (decode_body KVRequest_fields KVRequest_zero body) s with
  | (Ret reply, s') => (Some (kv_answer reply), s')
  | (_, s') => (None, s')
  end.
End server.

(** ** The client *)

(** [post url body] is the answer to [httpClient.Post], [None] when it fails. *)
Definition kv_call (post : string -> bytes -> option (Z * bytes)) (nodeAddr shardID : string) (req : KVRequest)
    : option (Z * KVResponse) :=
  resp ← post ("http://" +:+ nodeAddr +:+ "/kv/" +:+ shardID) (print_json (JObj (KVRequest_members req)));
  kvr ← decode_body KVResponse_fields KVResponse_zero (snd resp);
  Some (fst resp, kvr).

Definition PutKV (post : string -> bytes -> option (Z * bytes)) (nodeAddr shardID key value : string) : bool :=
  match kv_call post nodeAddr shardID (mkKVRequest "put" key value) with
  | Some (code, kvr) => (code =? 200) && krOK kvr
  | None => false
  end.

Definition GetKV (post : string -> bytes -> option (Z * bytes)) (nodeAddr shardID key : string) : string * bool :=
  match kv_call post nodeAddr shardID (mkKVRequest "get" key "") with
  | Some (code, kvr) => (krValue kvr, (code =? 200) && krOK kvr)
  | None => ("", false)
  end.

(** ** Bodies are read back *)

Lemma set_omit_string {A} (fs : list (field A)) name (set : string -> A -> A) v ms a :
  find_field fs (of_str name) = Some (mkField name (set_string set)) -> set "" a = a ->
  set_members fs (omit_string name v ++ ms) a = set_members fs ms (set v a).
Proof.
  intros Hf Hz. unfold omit_string. case_decide as Hv; [subst v; by rewrite Hz|]. cbn [app].
  eapply set_members_cons; [exact Hf|]. apply set_string_j.
Qed.

Lemma set_omit_uint {A} (fs : list (field A)) name (set : Z -> A -> A) v ms a :
  find_field fs (of_str name) = Some (mkField name (set_uint set)) -> set 0 a = a -> u64 v ->
  set_members fs (omit_uint name v ++ ms) a = set_members fs ms (set v a).
Proof.
  intros Hf Hz Hu. unfold omit_uint. case_decide as Hv; [subst v; by rewrite Hz|]. cbn [app].
  eapply set_members_cons; [exact Hf|]. by apply set_uint_j.
Qed.

Lemma set_omit_int {A} (fs : list (field A)) name (set : Z -> A -> A) v ms a :
  find_field fs (of_str name) = Some (mkField name (set_int set)) -> set 0 a = a -> int64 v ->
  set_members fs (omit_int name v ++ ms) a = set_members fs ms (set v a).
Proof.
  intros Hf Hz Hu. unfold omit_int. case_decide as Hv; [subst v; by rewrite Hz|]. cbn [app].
  eapply set_members_cons; [exact Hf|]. by apply set_int_j.
Qed.

Definition member_ok (kv : bytes * json) : Prop := utf8 (fst kv) /\ wf_json (snd kv).

Lemma omit_string_ok name v : utf8_str name -> utf8_str v -> Forall member_ok (omit_string name v).
Proof. intros Hn Hv. unfold omit_string. case_decide; [done|]. by apply Forall_singleton. Qed.
Lemma omit_uint_ok name v : utf8_str name -> u64 v -> Forall member_ok (omit_uint name v).
Proof. intros Hn Hv. unfold omit_uint. case_decide; [done|]. apply Forall_singleton. split; [done|by apply wf_uint]. Qed.
Lemma omit_int_ok name v : utf8_str name -> int64 v -> Forall member_ok (omit_int name v).
Proof. intros Hn Hv. unfold omit_int. case_decide; [done|]. apply Forall_singleton. split; [done|by apply wf_int]. Qed.

Lemma KVRequest_decodes r rest :
  utf8_str (kqOp r) -> utf8_str (kqKey r) -> utf8_str (kqValue r) -> delimited rest ->
  decode_body KVRequest_fields KVRequest_zero (print_json (JObj (KVRequest_members r)) ++ rest) = Some r.
Proof.
  intros Ho Hk Hv Hrest. apply decode_body_print; [| |done].
  - apply wf_members. unfold KVRequest_members. apply Forall_app_2; [|apply omit_string_ok; [utf8_ascii|done]].
    repeat (apply Forall_cons; split; [split; [cbn [fst]; utf8_ascii|by apply wf_string]|]). apply Forall_nil_2.
  - destruct r as [o k v]. unfold KVRequest_members. cbn [kqOp kqKey kqValue app].
    erewrite (set_members_cons _ (of_str "op")); [|reflexivity|apply set_string_j]. cbv beta.
    erewrite (set_members_cons _ (of_str "key")); [|reflexivity|apply set_string_j]. cbv beta.
    rewrite <- (app_nil_r (omit_string _ _)). erewrite set_omit_string; [|reflexivity|reflexivity]. done.
Qed.

Definition response_ok (r : KVResponse) : Prop :=
  utf8_str (krValue r) /\ utf8_str (krError r) /\ utf8_str (krLeaderID r) /\ utf8_str (krLeaderAddress r) /\
  u64 (krAppliedVersion r) /\ int64 (krQuorum r).

Lemma KVResponse_decodes r :
  response_ok r -> decode_body KVResponse_fields KVResponse_zero (kv_json r) = Some r.
Proof.
  intros (Hv & He & Hi & Ha & Hn & Hq). apply decode_body_print; [| |done].
  - apply wf_members. unfold KVResponse_members. apply Forall_cons. split; [split; [cbn [fst]; utf8_ascii|done]|]. cbn [app].
    repeat apply Forall_app_2; first [apply omit_string_ok|apply omit_uint_ok|apply omit_int_ok]; done || utf8_ascii.
  - destruct r as [o v e i a n q]. unfold KVResponse_members.
    cbn [krOK krValue krError krLeaderID krLeaderAddress krAppliedVersion krQuorum app] in *.
    erewrite (set_members_cons _ (of_str "ok")); [|reflexivity|reflexivity]. cbv beta.
    do 4 (erewrite set_omit_string; [|reflexivity|reflexivity]). erewrite set_omit_uint; [|reflexivity|reflexivity|done].
    rewrite <- (app_nil_r (omit_int _ _)). erewrite set_omit_int; [|reflexivity|reflexivity|done]. done.
Qed.

(** ** What the client is told *)

Section contract.
Context (error_text : writeerr -> string).

(** A reply JSON can carry: the numbers are in the range of their Go types and
    the strings are valid UTF-8. *)
Definition reply_ok (reply : KVReply) : Prop :=
  match reply with
  | KV_NOT_LEADER id addr => utf8_str id /\ utf8_str addr
  | KV_VALUE v => utf8_str v
  | KV_REFUSED e => utf8_str (error_text e)
  | KV_APPLIED version quorum => u64 version /\ int64 quorum
  | _ => True
  end.

(** The client's view of an answer: [None] for a body that is not JSON. *)
Definition kv_seen (reply : KVReply) : option (Z * KVResponse) :=
  let '(code, body) := kv_answer error_text reply in
  kvr ← decode_body KVResponse_fields KVResponse_zero body; Some (code, kvr).

Lemma zero_fields : utf8_str "" /\ u64 0 /\ int64 0.
Proof. split_and!; [apply utf8_nil|by unfold u64, two64|by unfold int64, min_int64, max_int64]. Qed.

(** The client takes an answer for a success. *)
Definition kv_success (reply : KVReply) : bool :=
  match kv_seen reply with Some (code, kvr) => (code =? 200) && krOK kvr | None => false end.

Lemma kv_success_iff reply :
  reply_ok reply -> kv_success reply = match reply with KV_VALUE _ | KV_APPLIED _ _ => true | _ => false end.
Proof.
  destruct zero_fields as (Hs & Hu & Hi). intros Hok. unfold kv_success, kv_seen.
  destruct reply; cbn [kv_answer reply_ok] in *;
    try (rewrite KVResponse_decodes by (unfold response_ok, refusal; cbn; split_and!; done || tauto || utf8_ascii));
    try done; by destruct (decode_body _ _ _).
Qed.

Lemma kv_seen_value v : utf8_str v -> kv_seen (KV_VALUE v) = Some (200, mkKVResponse true v "" "" "" 0 0).
Proof.
  destruct zero_fields as (Hs & Hu & Hi). intros Hv. unfold kv_seen. cbn [kv_answer].
  rewrite KVResponse_decodes by (unfold response_ok; cbn; by split_and!). done.
Qed.

(** The client and the handler agree: over HTTP a put is reported as done exactly
    when the replica leads, is ready and acknowledged the write, and a get returns
    a value exactly when the replica leads, is ready and holds that value under
    the key.  The node does not register the route, so this is about the two
    functions and not about a running node ([kv_client_never_succeeds] in
    [Harness.v]). *)
Theorem kv_client_faithful post now env addr shardID key value s :
  (forall url body, post url body = (serveKV error_text now env body s).1) -> utf8_str key -> utf8_str value ->
  (forall reply s', handleKV now env (Some (mkKVRequest "put" key value)) s = (Ret reply, s') -> reply_ok reply) ->
  (forall reply s', handleKV now env (Some (mkKVRequest "get" key "")) s = (Ret reply, s') -> reply_ok reply) ->
  let r := fst (fst s) in
  (PutKV post addr shardID key value = true <->
     ensureLeaderReady r = Ok tt /\ exists res s', leaderWrite now env (mkKVRequest "put" key value) s = (Ret res, s')) /\
  (forall v, GetKV post addr shardID key = (v, true) <-> ensureLeaderReady r = Ok tt /\ SM_Get (rSM r) key = Some v).
Proof.
  intros Hpost Hk Hv Hokput Hokget r.
  assert (Hcall : forall req, utf8_str (kqOp req) -> utf8_str (kqKey req) -> utf8_str (kqValue req) ->
    kv_call post addr shardID req = match handleKV now env (Some req) s with (Ret reply, _) => kv_seen reply | _ => None end).
  { intros req H1 H2 H3. unfold kv_call. rewrite Hpost. unfold serveKV.
    rewrite <- (app_nil_r (print_json _)), KVRequest_decodes by done.
    destruct (handleKV now env (Some req) s) as [[reply|[]|] s']; [|done]. unfold kv_seen.
    by destruct (kv_answer error_text reply). }
  split.
  - unfold PutKV. rewrite Hcall by (done || utf8_ascii). pose proof Hokput as Hok.
    destruct (handleKV now env _ s) as [o s1] eqn:Hh.
    assert (Hput : match o with Ret reply => kv_success reply | _ => false end = true <->
      ensureLeaderReady r = Ok tt /\ exists res s', leaderWrite now env (mkKVRequest "put" key value) s = (Ret res, s')).
    { unfold handleKV in Hh. cbn [kqOp] in Hh. fold r in Hh. destruct (ensureLeaderReady r) as [[]|e].
      - rewrite decide_False, decide_True in Hh by auto.
        destruct (leaderWrite now env _ s) as [[res|[[]| | |]|] s2]; injection Hh as <- <-;
          try (rewrite (kv_success_iff _ (Hok _ _ eq_refl))); split; try done; try (intros (_ & ? & ? & [=]));
          intros _; split; [done|by eauto].
      - destruct e; injection Hh as <- <-; rewrite (kv_success_iff _ (Hok _ _ eq_refl)); split; try done; by intros [[=] _]. }
    rewrite <- Hput. by destruct o.
  - intros v. unfold GetKV. rewrite Hcall by (done || utf8_ascii || apply utf8_nil). pose proof Hokget as Hok.
    unfold handleKV in *. cbn [kqOp kqKey] in *. fold r in Hok |- *. destruct (ensureLeaderReady r) as [[]|e].
    + rewrite decide_True in Hok |- * by done. destruct (SM_Get (rSM r) key) as [w|].
      * rewrite kv_seen_value by exact (Hok _ _ eq_refl). cbn. split; [by intros [= ->]|by intros [_ [= ->]]].
      * pose proof (kv_success_iff _ (Hok _ _ eq_refl)) as Hs. unfold kv_success in Hs.
        destruct (kv_seen KV_NOT_FOUND) as [[code kvr]|]; split; try (by intros [_ [=]]); congruence.
    + assert (Hno : forall reply, (Ret reply, s) = match e with
          | errNotLeader => (Ret (KV_NOT_LEADER (rLeaderID r) (default "" (weAddresses env !! rLeaderID r))), s)
          | _ => (Ret KV_NOT_READY, s) end :> (outcome Empty_set KVReply * (node * cluster)) -> kv_success reply = false).
      { intros reply Hr. rewrite (kv_success_iff reply (Hok reply s (eq_sym Hr))). destruct e; by injection Hr as ->. }
      destruct e; match goal with |- context [kv_seen ?rep] => specialize (Hno rep eq_refl); unfold kv_success in Hno;
        destruct (kv_seen rep) as [[code kvr]|] end; split; try (by intros [[=] _]); congruence.
Qed.
End contract.

(** ** An exchange *)

Definition kv_post (url : string) (body : bytes) : option (Z * bytes) :=
  (serveKV (fun _ => "refused") 200 write_env1 body ((write_leader, healthy ∅), write_others)).1.

Lemma kv_client_faithful_witness :
  PutKV kv_post "n1:1" "s" "k" "v" = true /\ (forall v, GetKV kv_post "n1:1" "s" "k" = (v, true) <-> False).
Proof.
  destruct (kv_client_faithful (fun _ => "refused") kv_post 200 write_env1 "n1:1" "s" "k" "v" ((write_leader, healthy ∅), write_others))
    as [Hput Hget]; [done|utf8_ascii|utf8_ascii|intros reply s' Hr; vm_compute in Hr; by injection Hr as <- <-|
    intros reply s' Hr; vm_compute in Hr; by injection Hr as <- <-|].
  split.
  - apply Hput. split; [done|]. destruct write_run_result as (res & Hres & _). unfold write_run in Hres.
    destruct (leaderWrite _ _ _ _) as [o s']. cbn [fst] in Hres. subst o. by exists res, s'.
  - intros v. rewrite Hget. split; [|done]. intros [_ Hv]. by vm_compute in Hv.
Defined.
