(* ===== verification/Node.v ===== *)
(** A node as a whole: the dispatch of gRPC requests to the replicas of the
    server (src/node/grpc.go) and the recovery loops (src/node/recovery.go), which
    all share one disk.

    The shards of a node do not interfere: an operation on one of them leaves the
    others' replicas and files alone, whatever fails and wherever the process
    dies. *)

From Stdlib Require Import Ascii.
From S2P Require Import Prelude Strconv Filepath Fs JsonStruct Storage ReplicationLog Wal Snapshot DiskState StateMachine.
From S2P Require Import Config Replica Wire Handlers Write Recovery Election ShardMap Coordinator Server.

(** ** Dispatch *)

Inductive Request :=
| RqPut (shardID key value : string)
| RqDelete (shardID key : string)
| RqGet (shardID key : string)
| RqReplicate (req : ReplicateRequest)
| RqRecover (shardID : string) (sinceVersion : Z)
| RqForceRecover (shardID : string)
| RqRequestVote (req : VoteRequest)
| RqLeaderHeartbeat (req : LeaderHeartbeatRequest).

Inductive Reply :=
| RsWrite (r : PutResult)
| RsDelete (r : DeleteResult)
| RsGet (r : GetResult)
| RsReplicate (r : ReplicateResponse)
| RsRecover (r : RecoverResponse)
| RsForceRecover
| RsRequestVote (r : VoteResponse)
| RsLeaderHeartbeat (term : Z).

Definition request_shard (req : Request) : string :=
  match req with
  | RqPut id _ _ | RqDelete id _ | RqGet id _ | RqRecover id _ | RqForceRecover id => id
  | RqReplicate req => rqShardId req
  | RqRequestVote req => vqShardId req
  | RqLeaderHeartbeat req => hqShardId req
  end.

(** The node's server and disk, and the other nodes of the shard in question. *)
Abbreviation machine := ((Server * World) * cluster)%type.

(** Run a handler on the replica of a shard, if the node hosts one. *)
Definition on_shard {A} (shardID : string) (c : M (node * cluster) rpcerr A) : M machine rpcerr A := fun s =>
  match svReplicas (fst (fst s)) !! shardID with
  | None => (Err RpcNotFound, s)
  | Some r =>
      let '(o, ((r', W), cl)) := c ((r, snd (fst s)), snd s) in
      (o, ((put_replica shardID r' (fst (fst s)), W), cl))
  end.

(** What a write reads of the server; the network and the order are given. *)
Definition server_env (order : gmap string string -> list string) (net netRecover : string -> delivery) (s : Server) : write_env :=
  mkWriteEnv (svShardMapVersion s) (svNodeAddresses s) (ncLeaderHeartbeat (svCfg s)) order net netRecover.

(** A handler without access to the disk. *)
Definition pure_handler {A} (f : ReplicaState -> A * ReplicaState) : M (node * cluster) rpcerr A := fun s =>
  let '(a, r) := f (fst (fst s)) in (Ret a, ((r, snd (fst s)), snd s)).

Definition io_map {S E A B} (f : A -> B) (c : M S E A) : M S E B := do a <- c; io_ret (f a).

Section serve.
Context (now : Z) (order : gmap string string -> list string) (net netRecover : string -> delivery)
  (kvorder : gmap string string -> list (string * string)).

Definition handler (env : write_env) (req : Request) : M (node * cluster) rpcerr Reply :=
  match req with
  | RqPut _ key value => io_map RsWrite (Put now env key value)
  | RqDelete _ key => io_map RsDelete (Delete now env key)
  | RqGet _ key => pure_handler (fun r => (RsGet (Get key r), r))
  | RqReplicate req => io_map RsReplicate (on_leader (Replicate now req))
  | RqRecover _ since => do s <- io_get; io_map RsRecover (of_result (Recover kvorder since (fst (fst s))))
  | RqForceRecover _ => pure_handler (fun r => (RsForceRecover, ForceRecover now r))
  | RqRequestVote req => pure_handler (fun r => let '(a, r') := RequestVote now req r in (RsRequestVote a, r'))
  | RqLeaderHeartbeat req => pure_handler (fun r => let '(a, r') := LeaderHeartbeat now req r in (RsLeaderHeartbeat a, r'))
  end.

Definition serve (req : Request) : M machine rpcerr Reply := fun s =>
  on_shard (request_shard req) (handler (server_env order net netRecover (fst (fst s))) req) s.
End serve.

(** ** Invariants of programs *)

(** Whatever its outcome, the program leaves [I] true. *)
Definition stable {S E A} (I : S -> Prop) (c : M S E A) : Prop := forall s, I s -> I (snd (c s)).

Section stable.
Context {S : Type} (I : S -> Prop).

Lemma stable_ret {E A} (a : A) : stable I (io_ret (E := E) a).
Proof. by intros s Hs. Qed.
Lemma stable_fail {E A} (e : E) : stable I (io_fail (A := A) e).
Proof. by intros s Hs. Qed.
Lemma stable_of_result {E A} (r : result E A) : stable I (of_result r).
Proof. by intros s Hs; destruct r. Qed.
Lemma stable_bind {E A B} (c : M S E A) (k : A -> M S E B) : stable I c -> (forall a, stable I (k a)) -> stable I (do a <- c; k a).
Proof. intros Hc Hk s Hs. specialize (Hc s Hs). unfold io_bind. destruct (c s) as [[a|e|] s']; [by apply Hk|done|done]. Qed.
(** The state read satisfies the invariant. *)
Lemma stable_get {E B} (k : S -> M S E B) : (forall s, I s -> stable I (k s)) -> stable I (do s <- io_get; k s).
Proof. intros Hk s Hs. by apply Hk. Qed.
Lemma stable_modify {E} (f : S -> S) : (forall s, I s -> I (f s)) -> stable I (io_modify (E := E) f).
Proof. intros Hf s Hs. by apply Hf. Qed.
Lemma stable_attempt {E F A} (c : M S E A) : stable I c -> stable I (attempt (F := F) c).
Proof. intros Hc s Hs. specialize (Hc s Hs). unfold attempt. by destruct (c s) as [[] ?]. Qed.
Lemma stable_map_err {E F A} (f : E -> F) (c : M S E A) : stable I c -> stable I (io_map_err f c).
Proof. intros Hc s Hs. specialize (Hc s Hs). unfold io_map_err. by destruct (c s) as [[] ?]. Qed.
Lemma stable_zoom {T E A} (J : T -> Prop) (get : S -> T) put (c : M T E A) :
  (forall s, I s -> J (get s)) -> (forall s t, I s -> J t -> I (put t s)) -> stable J c -> stable I (zoom get put c).
Proof. intros Hget Hput Hc s Hs. specialize (Hc (get s) (Hget s Hs)). unfold zoom. destruct (c (get s)). by apply Hput. Qed.
End stable.

Create HintDb frames.
#[export] Hint Resolve stable_ret stable_fail stable_of_result stable_attempt stable_map_err : frames.

(** Decompose a program down to the operations the database knows. *)
Ltac stable :=
  repeat first
    [ solve [eauto 3 with frames nocore]
    | match goal with |- stable _ (io_bind io_get _) => apply stable_get; intros ?s ?Hs end
    | match goal with |- stable _ (io_bind _ _) => apply stable_bind; [|intros ?] end
    | match goal with |- stable _ (match ?x with _ => _ end) => destruct x end
    | match goal with |- stable _ (ignore _) => unfold ignore end
    | apply stable_attempt | apply stable_map_err ].

(** ** The files a shard may touch *)

Definition same_outside (P : string -> Prop) (fs fs' : gmap string bytes) : Prop := forall p, ~ P p -> fs' !! p = fs !! p.

Section frame.
Context (P : string -> Prop) (fs0 : gmap string bytes).

Definition world_in (w : World) : Prop := same_outside P fs0 (files w).

Lemma stable_atomic f : (forall fs, same_outside P fs0 fs -> same_outside P fs0 (f fs)) -> stable world_in (os_atomic f).
Proof.
  intros Hf w Hw. unfold os_atomic, os_op, world_in in *. destruct (sched w) as [|[|n|[|n]] sc]; simpl; by auto.
Qed.

Lemma insert_outside p d fs : P p -> same_outside P fs0 fs -> same_outside P fs0 (<[p := d]> fs).
Proof. intros Hp Hfs q Hq. rewrite lookup_insert_ne by (intros ->; done). by apply Hfs. Qed.
Lemma delete_outside p fs : P p -> same_outside P fs0 fs -> same_outside P fs0 (delete p fs).
Proof. intros Hp Hfs q Hq. rewrite lookup_delete_ne by (intros ->; done). by apply Hfs. Qed.
Local Hint Resolve insert_outside delete_outside : frames.

Lemma stable_skip : stable world_in (os_atomic (fun fs => fs)).
Proof. by apply stable_atomic. Qed.
Lemma stable_Write p d : P p -> stable world_in (file_Write p d).
Proof.
  intros Hp w Hw. unfold file_Write, os_op, world_in, append_to in *.
  destruct (sched w) as [|[|n|n] sc]; simpl; by apply insert_outside.
Qed.
Lemma stable_Create p : P p -> stable world_in (os_Create p).
Proof. intros Hp. apply stable_atomic. intros fs. by apply insert_outside. Qed.
Lemma stable_Truncate p : P p -> stable world_in (file_Truncate p).
Proof. intros Hp. apply stable_atomic. intros fs. by apply insert_outside. Qed.
Lemma stable_OpenAppend p : P p -> stable world_in (os_OpenAppend p).
Proof. intros Hp. apply stable_atomic. intros fs Hfs. destruct (fs !! p); [done|by apply insert_outside]. Qed.
Lemma stable_Remove p : P p -> stable world_in (os_Remove p).
Proof.
  intros Hp w Hw. unfold os_Remove. destruct (files w !! p); [|done].
  revert w Hw. apply stable_atomic. intros fs. by apply delete_outside.
Qed.
Lemma stable_Rename p q : P p -> P q -> stable world_in (os_Rename p q).
Proof.
  intros Hp Hq w Hw. unfold os_Rename. destruct (files w !! p); [|done].
  revert w Hw. apply stable_atomic. intros fs Hfs. unfold rename_files. destruct (fs !! p); [|done].
  by apply insert_outside, delete_outside.
Qed.
Lemma stable_Stat p : stable world_in (os_Stat p).
Proof.
  intros w Hw. pose proof (stable_skip w Hw) as Hs. unfold os_Stat. by destruct (os_atomic _ w) as [[] ?].
Qed.
Lemma stable_ReadFile p : stable world_in (os_ReadFile p).
Proof.
  intros w Hw. pose proof (stable_skip w Hw) as Hs. unfold os_ReadFile. by destruct (os_atomic _ w) as [[] ?].
Qed.
Lemma stable_ReadSome p : stable world_in (file_ReadSome p).
Proof. intros w Hw. unfold file_ReadSome. by destruct (sched w) as [|[|n|n] sc]. Qed.
Local Hint Resolve stable_skip stable_Write stable_Create stable_Truncate stable_OpenAppend stable_Remove stable_Rename
  stable_Stat stable_ReadFile stable_ReadSome : frames.
Local Hint Extern 1 (stable _ file_Sync) => exact stable_skip : frames.
Local Hint Extern 1 (stable _ file_Close) => exact stable_skip : frames.
Local Hint Extern 1 (stable _ (os_MkdirAll _)) => exact stable_skip : frames.

(** A program on the disk alone, run next to other state. *)
Lemma stable_on_world {T E A} (J : T -> Prop) (c : M World E A) :
  stable world_in c -> stable (fun s : T * World => J (fst s) /\ world_in (snd s)) (on_world c).
Proof. intros Hc. apply (stable_zoom _ world_in); [by intros s [_ ?]|by intros s t [? _]|done]. Qed.

(** *** Snapshots and the log *)

Lemma stable_writeAndSync p d : P p -> stable world_in (writeAndSync p d).
Proof. intros Hp. unfold writeAndSync. stable. Qed.
Local Hint Resolve stable_writeAndSync : frames.

Lemma stable_Save p s : P p -> P (tmp_path p) -> stable world_in (Save p s).
Proof. intros Hp Ht. unfold Save. stable. Qed.

Lemma stable_Load p : stable world_in (Load p).
Proof. unfold Load. stable. Qed.

Definition wal_in (s : WAL * World) : Prop := P (walFilePath (fst s)) /\ world_in (snd s).

Lemma stable_WAL_Append e : stable wal_in (WAL_Append e).
Proof.
  unfold WAL_Append. apply stable_bind; [|intros _; apply (stable_on_world (fun w => P (walFilePath w))), stable_skip].
  intros [w W] [Hp HW]. unfold encoder_Encode. simpl. destruct (encErr w); [done|].
  pose proof (stable_Write (walFilePath w) (codec_enc e ++ [newline]) Hp W HW) as Hw. unfold on_world, zoom. simpl.
  by destruct (file_Write _ _ W) as [[] ?].
Qed.

Lemma stable_WAL_Truncate : stable wal_in WAL_Truncate.
Proof.
  unfold WAL_Truncate. apply stable_get. intros s [Hp _].
  apply stable_bind; [apply (stable_on_world (fun w => P (walFilePath w))); by apply stable_Truncate|].
  intros _. by apply stable_modify.
Qed.

Lemma stable_ReadAll p : stable world_in (ReadAll p).
Proof. unfold ReadAll. stable. Qed.
Local Hint Resolve stable_Save stable_Load stable_WAL_Append stable_WAL_Truncate stable_ReadAll : frames.
End frame.

(** *** Disk states, state machines, replicas *)

(** All files of a disk state are among [P]. *)
Definition ds_within (P : string -> Prop) (ds : diskState) : Prop :=
  P (walFilePath (walFile ds)) /\ P (walPath ds) /\
  (forall i, P (snapshotPathFor (snapshotPath ds) i)) /\ P (tmp_path (snapshotPath ds)).

Definition replica_within (P : string -> Prop) (r : ReplicaState) : Prop :=
  forall ds, smDs (rSM r) = Some ds -> ds_within P ds.

Section frame_replica.
Context (P : string -> Prop) (fs0 : gmap string bytes).

Local Hint Resolve stable_Save stable_Load stable_WAL_Append stable_WAL_Truncate stable_ReadAll stable_Stat stable_Rename
  stable_Remove : frames.
Local Abbreviation world_in := (world_in P fs0).

Definition ds_in (s : diskState * World) : Prop := ds_within P (fst s) /\ world_in (snd s).
Definition sm_in (s : shardStateMachine Store * World) : Prop :=
  (forall ds, smDs (fst s) = Some ds -> ds_within P ds) /\ world_in (snd s).
Definition replica_in (s : ReplicaState * World) : Prop := replica_within P (fst s) /\ world_in (snd s).

Lemma stable_rotate_step base i : (forall i, P (snapshotPathFor base i)) -> stable world_in (rotate_step base i).
Proof. intros Hb. unfold rotate_step. stable. Qed.

Lemma stable_rotate base retention : (forall i, P (snapshotPathFor base i)) -> stable world_in (rotateSnapshots base retention).
Proof.
  intros Hb. unfold rotateSnapshots. destruct (retention <=? 1); [stable|].
  apply stable_bind; [|intros _; by apply stable_rotate_step].
  induction (Z.to_nat (retention - 1)) as [|n IH]; cbn [rotate_from]; [stable|].
  pose proof (stable_rotate_step base (Z.of_nat (S n)) Hb). stable.
Qed.

Lemma stable_on_wal {A} (c : M (WAL * World) ioerr A) :
  (forall p, stable (fun s => walFilePath (fst s) = p /\ wal_in P fs0 s) c) -> stable ds_in (on_wal c).
Proof.
  intros Hc [ds W] [(Hw & Hwp & Hs & Ht) HW]. specialize (Hc (walFilePath (walFile ds)) (walFile ds, W)). simpl in Hc.
  unfold on_wal, zoom. simpl. destruct (c (walFile ds, W)) as [o [w' W']]. destruct Hc as (Hp & Hp' & HW'); [done|].
  simpl in *. by split_and!.
Qed.

(** The log keeps its path. *)
Lemma wal_path_Append e p : stable (fun s => walFilePath (fst s) = p /\ wal_in P fs0 s) (WAL_Append e).
Proof.
  intros s [Hp Hs]. pose proof (stable_WAL_Append P fs0 e s Hs) as Hs'. split; [|done]. clear Hs Hs'.
  destruct s as [w W]. simpl in *. unfold WAL_Append, io_bind, encoder_Encode, on_world, zoom. simpl.
  destruct (encErr w); [done|]. destruct (file_Write _ _ W) as [[[]|x|] W1]; simpl; [|done|done].
  by destruct (file_Sync W1).
Qed.

Lemma wal_path_Truncate p : stable (fun s => walFilePath (fst s) = p /\ wal_in P fs0 s) WAL_Truncate.
Proof.
  intros s [Hp Hs]. pose proof (stable_WAL_Truncate P fs0 s Hs) as Hs'. split; [|done]. clear Hs Hs'.
  destruct s as [w W]. simpl in *. unfold WAL_Truncate, io_bind, io_get, io_modify, on_world, zoom. simpl.
  by destruct (file_Truncate _ W) as [[] ?].
Qed.

Lemma stable_appendWAL e : stable ds_in (appendWAL e).
Proof.
  unfold appendWAL. apply stable_bind; [apply stable_map_err, stable_on_wal, wal_path_Append|].
  intros _. by apply stable_modify.
Qed.

Lemma stable_replaceSnapshot term version kv : stable ds_in (replaceSnapshot term version kv).
Proof.
  unfold replaceSnapshot. apply stable_get. intros s [(_ & _ & Hs & Ht) _].
  apply stable_bind; [apply stable_on_world; by apply stable_rotate|intros _].
  apply stable_bind; [apply stable_on_world, stable_map_err, stable_Save; [apply (Hs 0)|done]|intros _].
  apply stable_bind; [apply stable_map_err, stable_on_wal, wal_path_Truncate|intros _]. by apply stable_modify.
Qed.

Lemma stable_maybeSnapshot term version kv : stable ds_in (maybeSnapshot term version kv).
Proof. unfold maybeSnapshot. apply stable_get. intros s _. destruct (negb _); [stable|]. apply stable_replaceSnapshot. Qed.

Lemma stable_on_ds c : stable ds_in c -> stable sm_in (on_ds c).
Proof.
  intros Hc [sm W] [Hds HW]. unfold on_ds. simpl in *. destruct (smDs sm) as [ds|] eqn:Hd; [|split; [intros ds; simpl; congruence|done]].
  specialize (Hc (ds, W) (conj (Hds ds eq_refl) HW)). destruct (c (ds, W)) as [o [ds' W']]. destruct Hc as [Hds' HW'].
  split; [|done]. simpl. by intros ? [= <-].
Qed.

Lemma stable_SM_Apply e mode : stable sm_in (SM_Apply e mode).
Proof.
  unfold SM_Apply. apply stable_get. intros s _. destruct (negb _); [stable|]. destruct (_ <? _); [stable|].
  apply stable_bind; [destruct mode; [apply stable_map_err, stable_on_ds, stable_appendWAL|stable]|intros _].
  unfold SM_commit. apply stable_get. intros s' _. apply stable_bind; [stable|]. intros kv. by apply stable_modify.
Qed.

Lemma stable_SM_ApplySnapshot snap mode : stable sm_in (SM_ApplySnapshot snap mode).
Proof.
  unfold SM_ApplySnapshot. apply stable_bind; [by apply stable_modify|intros _].
  destruct mode; [apply stable_map_err, stable_on_ds, stable_replaceSnapshot|stable].
Qed.

Lemma stable_on_sm {A} (c : M (shardStateMachine Store * World) smerr A) : stable sm_in c -> stable replica_in (on_sm c).
Proof. intros Hc. by apply (stable_zoom _ sm_in). Qed.

(** A change of the replica that keeps its disk state. *)
Lemma stable_on_replica {E} (f : ReplicaState -> ReplicaState) :
  (forall r, smDs (rSM (f r)) = smDs (rSM r)) -> stable replica_in (on_replica (E := E) f).
Proof. intros Hf. apply stable_modify. intros [r W] [Hr HW]. split; [|done]. intros ds. simpl. rewrite Hf. apply Hr. Qed.

Lemma adopt_term_ds t r : smDs (rSM (adopt_term t r)) = smDs (rSM r).
Proof. unfold adopt_term. by destruct (_ <? _). Qed.

Lemma stable_Replicate now req : stable replica_in (Replicate now req).
Proof.
  unfold Replicate. apply stable_get. intros s _. destruct (_ <? _); [stable|].
  apply stable_bind; [apply stable_on_replica, adopt_term_ds|intros _]. apply stable_get. intros s' _.
  destruct (_ <=? _); [stable|]. destruct (negb _).
  - apply stable_bind; [by apply stable_on_replica|stable].
  - apply stable_bind; [apply stable_map_err, stable_on_sm, stable_SM_Apply|intros _].
    apply stable_bind; [by apply stable_on_replica|stable].
Qed.

Lemma stable_commit_local e : stable replica_in (commit_local e).
Proof.
  unfold commit_local. apply stable_bind; [apply stable_map_err, stable_on_sm, stable_SM_Apply|intros _].
  apply stable_bind; [by apply stable_on_replica|intros _]. apply stable_get. intros s _.
  apply stable_bind; [unfold ignore; apply stable_bind; [|stable]|intros _; by apply stable_on_replica].
  apply stable_attempt, stable_on_sm, stable_map_err, stable_on_ds, stable_maybeSnapshot.
Qed.

Lemma stable_recovery_apply resp : stable replica_in (recovery_apply resp).
Proof.
  unfold recovery_apply. destruct (rvType resp); [stable| |].
  - apply stable_get. intros s _. apply stable_bind; [stable|intros _].
    apply stable_bind; [|intros _; apply stable_bind; [by apply stable_on_replica|stable]].
    induction (rvEntries resp) as [|e es IH]; cbn [apply_entries]; [stable|].
    apply stable_get. intros s' _. destruct (_ <=? _); [done|].
    apply stable_bind; [apply stable_map_err, stable_on_sm, stable_SM_Apply|done].
  - apply stable_bind; [apply stable_map_err, stable_on_sm, stable_SM_ApplySnapshot|intros _].
    apply stable_bind; [by apply stable_on_replica|stable].
Qed.

Lemma stable_recovery_tick addr rpc : stable replica_in (recovery_tick addr rpc).
Proof.
  unfold recovery_tick. apply stable_get. intros s _.
  destruct (rIsReady _); [apply stable_bind; [by apply stable_on_replica|stable]|].
  destruct (decide _); [apply stable_bind; [by apply stable_on_replica|stable]|].
  apply stable_bind; [by apply stable_on_replica|intros _].
  apply stable_bind; [apply stable_attempt|intros [|]; (apply stable_bind; [by apply stable_on_replica|stable])].
  unfold doIncrementalRecovery. apply stable_get. intros s' _. destruct (recovery_request _) as [sh since].
  destruct (rpc _ sh since); [apply stable_recovery_apply|stable].
Qed.
End frame_replica.

(** *** Handlers *)

Section frame_handlers.
Context (P : string -> Prop) (fs0 : gmap string bytes).

Definition node_in (s : node * cluster) : Prop := replica_in P fs0 (fst s).

Lemma stable_on_leader {E A} (c : M node E A) : stable (replica_in P fs0) c -> stable node_in (on_leader c).
Proof. intros Hc. by apply (stable_zoom _ (replica_in P fs0)). Qed.

Lemma stable_cluster {E} (f : node * cluster -> cluster) : stable node_in (io_modify (E := E) (fun s => (fst s, f s))).
Proof. by apply stable_modify. Qed.

Lemma stable_leaderWrite now env req : stable node_in (leaderWrite now env req).
Proof.
  unfold leaderWrite. apply stable_get. intros s _. destruct (ensureLeaderReady _); [|stable].
  destruct (negb _); [stable|]. cbv zeta. destruct (_ =? 0).
  { apply stable_bind; [apply stable_on_leader, stable_commit_local|stable]. }
  destruct (negb _); [apply stable_bind; [by apply stable_on_leader, stable_on_replica|stable]|].
  destruct (fanOutReplicate _ _ _ _ _) as [acked c]. apply stable_bind; [apply stable_cluster|intros _].
  destruct (_ <? _).
  - apply stable_bind; [apply (stable_cluster (fun s => (fanOutForceRecover now _ _ acked (snd s)).2))|intros _].
    apply stable_bind; [by apply stable_on_leader, stable_on_replica|stable].
  - apply stable_bind; [by apply stable_on_leader, stable_on_replica|intros _].
    apply stable_bind; [apply stable_on_leader, stable_commit_local|stable].
Qed.

Lemma stable_handleWrite now env req : stable node_in (handleWrite now env req).
Proof.
  intros s Hs. unfold handleWrite. pose proof (stable_leaderWrite now env req s Hs) as Hw.
  destruct (ensureLeaderReady _) as [|[]]; try done. by destruct (leaderWrite now env req s) as [[|[[]| | |]|] ?].
Qed.

Lemma stable_io_map {S E A B} (I : S -> Prop) (f : A -> B) (c : M S E A) : stable I c -> stable I (io_map f c).
Proof. intros Hc. unfold io_map. apply stable_bind; [done|stable]. Qed.

Lemma stable_pure_handler {A} (f : ReplicaState -> A * ReplicaState) :
  (forall r, smDs (rSM (snd (f r))) = smDs (rSM r)) -> stable node_in (pure_handler f).
Proof.
  intros Hf [[r W] cl] [Hr HW]. unfold pure_handler. simpl. specialize (Hf r). destruct (f r) as [a r']. split; [|done].
  intros ds. simpl in *. rewrite Hf. apply Hr.
Qed.

Lemma RequestVote_ds now req r : smDs (rSM (snd (RequestVote now req r))) = smDs (rSM r).
Proof. unfold RequestVote. repeat (case_match || case_decide); by simplify_eq. Qed.

Lemma stable_handler now kvorder env req : stable node_in (handler now kvorder env req).
Proof.
  destruct req; simpl.
  - apply stable_io_map, stable_handleWrite.
  - apply stable_io_map, stable_bind; [apply stable_handleWrite|stable].
  - by apply stable_pure_handler.
  - apply stable_io_map, stable_on_leader, stable_Replicate.
  - apply stable_get. intros s _. apply stable_io_map, stable_of_result.
  - by apply stable_pure_handler.
  - apply stable_pure_handler. intros r. pose proof (RequestVote_ds now req r). by destruct (RequestVote now req r).
  - apply stable_pure_handler. intros r. unfold LeaderHeartbeat. destruct (_ <? _); [done|]. simpl. apply adopt_term_ds.
Qed.
End frame_handlers.

(** ** The files of a shard *)

(** What every path of a shard's files starts with, from the data directory. *)
Definition shards_dir (dataDir : string) : bytes := of_str dataDir ++ of_str "/shards".
Definition shard_prefix (dataDir : string) : bytes :=
  (if is_rooted (shards_dir dataDir) then [slash] else []) ++ join_slash (clean_components (shards_dir dataDir)) ++ [slash].

(** The paths inside the directory of a shard. *)
Definition under (dataDir shardID : string) (p : string) : Prop :=
  exists rest, of_str p = shard_prefix dataDir ++ of_str shardID ++ slash :: rest.

Lemma under_unique d a b p : simple_name (of_str a) -> simple_name (of_str b) -> under d a p -> under d b p -> a = b.
Proof.
  intros (_ & _ & _ & Ha) (_ & _ & _ & Hb) [ra Hra] [rb Hrb]. rewrite Hra in Hrb. apply app_inv_head in Hrb.
  assert (Heq : of_str a = of_str b).
  { clear Hra. revert Ha Hb Hrb. generalize (of_str a) (of_str b). clear. induction l as [|x l IH]; intros [|y l'] Ha Hb; simpl.
    - done.
    - intros [= <- _]. set_solver.
    - intros [= -> _]. set_solver.
    - intros [= -> Heq]. f_equal. apply IH; set_solver. }
  by rewrite <- (to_of_str a), <- (to_of_str b), Heq.
Qed.

Lemma clean_components_snoc s n : s <> [] -> simple_name n -> clean_components (s ++ slash :: n) = clean_components s ++ [n].
Proof.
  intros Hs Hn. unfold clean_components, components. rewrite split_from_app, foldl_app by apply Hn. simpl.
  rewrite clean_step_name, reverse_cons by done. by destruct s.
Qed.

Lemma shard_path d id name : simple_name (of_str id) -> simple_name (of_str name) ->
  of_str (Join (shardDataDir d id) name) = shard_prefix d ++ of_str id ++ slash :: of_str name.
Proof.
  intros Hid Hname. pose proof Hname as (Hne & _).
  assert (Hdir : of_str (shardDataDir d id) = shards_dir d ++ slash :: of_str id).
  { unfold shardDataDir, shards_dir. rewrite !of_str_app, <- app_assoc. done. }
  assert (Hs : shards_dir d <> []) by (unfold shards_dir; by destruct (of_str d)).
  assert (Hr : forall t, is_rooted (shards_dir d ++ t) = is_rooted (shards_dir d)) by (intros t; by destruct (shards_dir d)).
  unfold Join. rewrite of_to_str, Hdir.
  destruct (shards_dir d ++ slash :: of_str id) as [|c s] eqn:Hcs; [by destruct (shards_dir d)|]. rewrite <- Hcs.
  destruct (of_str name) as [|a r] eqn:Hn; [done|]. rewrite <- Hn in *.
  unfold Clean. rewrite clean_components_snoc, clean_components_snoc; [|done|done|by rewrite Hcs|done].
  rewrite <- (app_assoc (shards_dir d)), Hr, !join_slash_snoc. unfold shard_prefix.
  assert (Hcc : clean_components (shards_dir d) <> []).
  { unfold shards_dir. change (of_str "/shards") with (slash :: of_str "shards").
    destruct (of_str d) as [|x l]; [by vm_compute|]. rewrite clean_components_snoc; [by destruct (clean_components _)|done|].
    split_and!; try done. apply (bool_decide_eq_true_1 _). by vm_compute. }
  destruct (clean_components (shards_dir d)) as [|x l] eqn:Hc; [done|]. rewrite <- Hc in *.
  destruct (is_rooted (shards_dir d)), (clean_components (shards_dir d) ++ [of_str id]) eqn:Ha;
    try (by destruct (clean_components (shards_dir d))).
  all: rewrite <- ?app_assoc; simpl; rewrite <- ?app_assoc; done.
Qed.

(** ** Servers whose replicas keep to their directories *)

Definition homes (s : Server) : Prop := forall id r, svReplicas s !! id = Some r ->
  simple_name (of_str id) /\ replica_within (under (ncDataDir (svCfg s)) id) r.

Lemma under_app d id p t : under d id p -> under d id (p +:+ t).
Proof. intros [rest Hr]. exists (rest ++ of_str t). by rewrite of_str_app, Hr, <- !app_assoc. Qed.

Lemma opened_within d id w n i k : simple_name (of_str id) -> walFilePath w = Join (shardDataDir d id) "wal.jsonl" ->
  ds_within (under d id) (mkDiskState w (Join (shardDataDir d id) "wal.jsonl") (Join (shardDataDir d id) "snapshot.json") n i k).
Proof.
  intros Hid Hw.
  assert (Hfile : forall name, simple_name (of_str name) -> under d id (Join (shardDataDir d id) name)).
  { intros name Hn. exists (of_str name). by apply shard_path. }
  assert (Hwal : under d id (Join (shardDataDir d id) "wal.jsonl")).
  { apply Hfile. split_and!; try done. apply (bool_decide_eq_true_1 _). by vm_compute. }
  assert (Hsnap : under d id (Join (shardDataDir d id) "snapshot.json")).
  { apply Hfile. split_and!; try done. apply (bool_decide_eq_true_1 _). by vm_compute. }
  split_and!; simpl; [by rewrite Hw|done| |by apply under_app].
  intros j. unfold snapshotPathFor. destruct (j =? 0); [done|by apply under_app].
Qed.

Lemma openDiskState_within d id interval retention W ds W' : simple_name (of_str id) ->
  openDiskState (shardDataDir d id) interval retention W = (Ret ds, W') -> ds_within (under d id) ds.
Proof.
  intros Hid. unfold openDiskState, io_bind, io_map_err, WAL_Open. destruct (os_MkdirAll _ W) as [[[]|e|] W1]; try done.
  destruct (interval <=? 0); [done|]. destruct (retention <=? 0); [done|]. unfold io_bind.
  destruct (os_OpenAppend _ W1) as [[[]|e|] W2]; try done. intros [= <- _]. by apply opened_within.
Qed.

(** Restoring from disk attaches a disk state of the shard's directory. *)
Lemma restore_within cfg id r W : simple_name (of_str id) -> replica_within (under (ncDataDir cfg) id) r ->
  replica_within (under (ncDataDir cfg) id) (fst (snd (restore_replica cfg id (r, W)))).
Proof.
  intros Hid Hr. set (P := under (ncDataDir cfg) id) in *. set (I := fun s : ReplicaState * World => replica_within P (fst s)).
  change (I (snd (restore_replica cfg id (r, W)))). unfold restore_replica.
  destruct (decide (ncDataDir cfg = "")); [done|]. unfold io_bind at 1, attempt at 1, zoom at 1. simpl.
  destruct (openDiskState _ _ _ W) as [[ds|e|] W1] eqn:Ho; [|done|done]. apply openDiskState_within in Ho; [|done].
  assert (Hon : forall (f : ReplicaState -> ReplicaState), (forall r, smDs (rSM (f r)) = smDs (rSM r)) ->
    stable I (on_replica (E := smerr) f)).
  { intros f Hf. apply stable_modify. intros s Hs ds'. simpl. rewrite Hf. apply Hs. }
  unfold io_bind at 1. simpl.
  match goal with |- I (snd (?c ?s)) => assert (Hst : stable I c); [|apply Hst] end.
  - apply stable_bind; [apply stable_attempt, (stable_zoom _ (fun _ => True)); done|]. intros [l|e]; [|stable].
    destruct (dlValid l); [|stable]. unfold loaded_replica, ignore. apply stable_bind; [|intros _; by apply Hon].
    apply stable_bind; [|stable]. apply stable_attempt, stable_bind; [|intros _; by apply Hon].
    intros [r' W'] Hs ds'. simpl. apply Hs.
  - intros ds'. simpl. by intros [= <-].
Qed.

Lemma homes_put s id r : homes s -> simple_name (of_str id) -> replica_within (under (ncDataDir (svCfg s)) id) r ->
  homes (put_replica id r s).
Proof.
  intros Hs Hid Hr id' r'. cbn. destruct (decide (id = id')) as [<-|Hne].
  - rewrite lookup_insert_eq. by intros [= <-].
  - rewrite lookup_insert_ne by done. apply Hs.
Qed.

(** The server's invariant, with its configuration. *)
Definition server_in (cfg : NodeConfig) (s : Server * World) : Prop := svCfg (fst s) = cfg /\ homes (fst s).

Lemma stable_on_server {E} cfg (f : Server -> Server) :
  (forall s, svCfg (f s) = svCfg s) -> (forall s, homes s -> homes (f s)) -> stable (server_in cfg) (on_server (E := E) f).
Proof. intros Hc Hf. apply stable_modify. intros [s W] [Hs Hh]. split; simpl; [by rewrite Hc|by apply Hf]. Qed.

Lemma stable_initShard cfg now draw shard resp : simple_name (of_str (shID shard)) ->
  stable (server_in cfg) (initShardLocked now draw shard resp).
Proof.
  intros Hid. unfold initShardLocked. apply stable_get. intros s [Hc _]. destruct (svReplicas (fst s) !! shID shard); [stable|].
  intros [s' W] [Hc' Hh]. unfold on_new. simpl in *. set (r := fresh_replica now draw shard resp (fst s)).
  assert (Hr : replica_within (under (ncDataDir cfg) (shID shard)) r).
  { intros ds. unfold r, fresh_replica. by repeat case_decide. }
  rewrite Hc. pose proof (restore_within cfg (shID shard) r W Hid Hr) as Hw. destruct (restore_replica _ _ _) as [o [r' W']].
  split; simpl in *; [by destruct o|]. destruct o; [|done|done]. apply homes_put; [done|done|by rewrite Hc'].
Qed.

Lemma stable_init_each cfg now draw resp shards : Forall (fun sh => simple_name (of_str (shID sh))) shards ->
  stable (server_in cfg) (init_each now draw resp shards).
Proof.
  induction 1 as [|sh shards Hsh _ IH]; cbn [init_each]; [stable|]. apply stable_get. intros s _.
  apply stable_bind; [|done]. destruct (HasReplica _ _); [by apply stable_initShard|stable].
Qed.

Lemma stable_InitShards cfg now draw resp : Forall (fun sh => simple_name (of_str (shID sh))) (smrShards resp) ->
  stable (server_in cfg) (InitShards now draw resp).
Proof.
  intros Hall. unfold InitShards. apply stable_bind; [by apply stable_on_server|]. intros _. by apply stable_init_each.
Qed.

Lemma update_replica_ds now id v shard r : smDs (rSM (update_replica now id v shard r)) = smDs (rSM r).
Proof. unfold update_replica. by repeat case_decide. Qed.

Lemma homes_start now id s : homes s -> homes (startShardGoroutines now id s) /\ svCfg (startShardGoroutines now id s) = svCfg s.
Proof.
  intros Hs. unfold startShardGoroutines. destruct (svReplicas s !! id) as [r|] eqn:Hr; [|done]. destruct (svServing s); [|done].
  split; [|done]. intros id' r'. cbn. destruct (decide (id = id')) as [<-|Hne].
  - rewrite lookup_insert_eq. intros [= <-]. destruct (Hs _ _ Hr) as [Hid Hw]. split; [done|]. intros ds. apply Hw.
  - rewrite lookup_insert_ne by done. apply Hs.
Qed.

Lemma stable_drop cfg ids : stable (server_in cfg) (drop_all ids).
Proof.
  induction ids as [|id ids IH]; cbn [drop_all]; [stable|]. apply stable_bind; [|done].
  unfold dropShard. apply stable_get. intros s _. apply stable_bind.
  - apply stable_on_server; [done|]. intros s' Hs' id' r' Hr. cbn in Hr. apply lookup_delete_Some in Hr as [_ Hr]. by apply Hs'.
  - intros _. destruct (_ ≫= _); [|stable]. unfold ignore. apply stable_bind; [|stable].
    apply stable_attempt, (stable_zoom _ (fun _ => True)); done.
Qed.

Lemma stable_host_all cfg now draw resp shards : Forall (fun p => simple_name (of_str p.1) /\ shID p.2 = p.1) shards ->
  stable (server_in cfg) (host_all now draw resp shards).
Proof.
  induction 1 as [|[id sh] shards [Hid Hsh] _ IH]; cbn [host_all]; [stable|].
  apply stable_bind; [|intros ?; apply stable_bind; [done|stable]]. unfold host_shard. apply stable_get. intros s [Hc Hh].
  simpl in *. destruct (svReplicas (fst s) !! id) as [r|] eqn:Hr.
  - apply stable_bind; [|stable]. apply stable_modify. intros s' [Hc' Hh']. split; [done|]. apply homes_put; [done..|].
    intros ds. rewrite update_replica_ds, Hc', <- Hc. apply Hh in Hr as [_ Hr]. apply Hr.
  - apply stable_bind; [|stable]. apply stable_initShard. by rewrite Hsh.
Qed.

Definition names_ok (resp : ShardMapResponse) : Prop := Forall (fun sh => simple_name (of_str (shID sh))) (smrShards resp).

Lemma should_host_names nodeID resp id sh : names_ok resp -> should_host nodeID resp !! id = Some sh ->
  simple_name (of_str id) /\ shID sh = id.
Proof.
  unfold names_ok, should_host. intros Hall.
  assert (Hacc : forall shards (acc : gmap string ShardInfo), Forall (fun sh => simple_name (of_str (shID sh))) shards ->
    map_Forall (fun id sh => simple_name (of_str id) /\ shID sh = id) acc ->
    map_Forall (fun id sh => simple_name (of_str id) /\ shID sh = id)
      (foldl (fun m sh => if HasReplica sh nodeID then <[shID sh := sh]> m else m) acc shards)).
  { induction shards as [|sh' shards IH]; intros acc Hs Ha; [done|]. apply Forall_cons in Hs as [Hs' Hs]. apply IH; [done|].
    destruct (HasReplica sh' nodeID); [|done]. by apply map_Forall_insert_2. }
  intros Hl. by apply (Hacc (smrShards resp) ∅ Hall (map_Forall_empty _)) in Hl.
Qed.

Lemma stable_refetch cfg rorder horder now draw resp : iterates horder -> names_ok resp ->
  stable (server_in cfg) (refetchShardMap rorder horder now draw (Some resp)).
Proof.
  intros Hord Hn. unfold refetchShardMap. apply stable_get. intros s _. cbv zeta.
  apply stable_bind; [by apply stable_on_server|intros _]. apply stable_get. intros s' _.
  apply stable_bind; [|intros new; apply stable_bind; [|intros _; apply stable_drop]].
  - apply stable_host_all, Forall_forall. intros [id sh] Hin. rewrite (Hord _) in Hin. apply elem_of_map_to_list in Hin.
    by apply should_host_names in Hin.
  - apply stable_modify. intros [s1 W] [Hc Hh]. cbn [fst]. clear -Hc Hh. revert s1 Hc Hh.
    induction new as [|id new IH]; intros s1 Hc Hh; [done|]. simpl.
    destruct (homes_start now id s1 Hh) as [Hh' Hc']. apply IH; [simpl in *; by rewrite Hc'|done].
Qed.

(** ** Operations of a node *)

(** Those on one shard. *)
Inductive ShardOp :=
| OpServe (now : Z) (order : gmap string string -> list string) (net netRecover : string -> delivery)
    (kvorder : gmap string string -> list (string * string)) (req : Request)
| OpRecovery (shardID : string) (rpc : string -> string -> Z -> option RecoverResponse)
| OpElectionTick (shardID : string) (now : Z)
| OpElectionBegin (shardID : string) (now : Z)
| OpElectionEnd (shardID : string) (now term : Z) (peers : list string) (t : tally_result)
| OpHeartbeatReply (shardID : string) (now sent : Z) (peer : string) (term : Z).

Definition op_shard (op : ShardOp) : string :=
  match op with
  | OpServe _ _ _ _ _ req => request_shard req
  | OpRecovery id _ | OpElectionTick id _ | OpElectionBegin id _ | OpElectionEnd id _ _ _ _ | OpHeartbeatReply id _ _ _ _ => id
  end.

(** One turn of a shard's recovery loop. *)
Definition recovery_turn (shardID : string) (rpc : string -> string -> Z -> option RecoverResponse) : M machine rpcerr unit := fun s =>
  on_shard shardID (do n <- io_get;
    ignore (on_leader (recovery_tick (leaderAddrForReplica (fst (fst n)) (fst (fst s))) rpc))) s.

(** What the loops of a shard do under its lock: the election timer, the two
    halves of an election (votes are collected without the lock), and a reply to
    a leader's heartbeat. *)
Definition loop_turn (op : ShardOp) (r : ReplicaState) : ReplicaState :=
  match op with
  | OpElectionTick _ now => (election_tick now r).2
  | OpElectionBegin _ now => match startElection_begin now r with Some (_, r') => r' | None => r end
  | OpElectionEnd _ now term peers t => (startElection_end now term peers t r).2
  | OpHeartbeatReply _ now sent peer term => heartbeat_reply now sent peer term r
  | _ => r
  end.

Definition run_op (op : ShardOp) : M machine rpcerr (option Reply) :=
  match op with
  | OpServe now order net netRecover kvorder req => io_map Some (serve now order net netRecover kvorder req)
  | OpRecovery id rpc => io_map (fun _ => None) (recovery_turn id rpc)
  | _ => on_shard (op_shard op) (pure_handler (fun r => (None, loop_turn op r)))
  end.

(** Everything a node does with its shards: these operations, following the shard
    map, starting its background jobs, and starting again on the files it left;
    the other nodes do as they like. *)
Inductive node_step : machine -> machine -> Prop :=
| step_op op m : node_step m (snd (run_op op m))
| step_init now draw resp sW cl : names_ok resp -> node_step (sW, cl) (snd (InitShards now draw resp sW), cl)
| step_refetch rorder horder now draw resp sW cl :
    iterates horder -> names_ok resp -> node_step (sW, cl) (snd (refetchShardMap rorder horder now draw (Some resp) sW), cl)
| step_serving now s W cl : node_step ((s, W), cl) ((startBackgroundJobs now s, W), cl)
| step_restart cfg now sched s W cl : node_step ((s, W), cl) ((NewServer cfg now, mkWorld (files W) sched), cl)
| step_others sW cl cl' : node_step (sW, cl) (sW, cl').

(** What an operation on one shard leaves alone. *)
Definition leaves_alone (id : string) (m m' : machine) : Prop :=
  svReplicas (fst (fst m')) !! id = svReplicas (fst (fst m)) !! id /\
  (simple_name (of_str id) -> forall p, under (ncDataDir (svCfg (fst (fst m)))) id p ->
     files (snd (fst m')) !! p = files (snd (fst m)) !! p).

Lemma on_shard_frame {A} shardID (c : M (node * cluster) rpcerr A) m :
  homes (fst (fst m)) -> (forall P fs0, stable (node_in P fs0) c) ->
  homes (fst (fst (snd (on_shard shardID c m)))) /\ svCfg (fst (fst (snd (on_shard shardID c m)))) = svCfg (fst (fst m)) /\
  forall id, id <> shardID -> leaves_alone id m (snd (on_shard shardID c m)).
Proof.
  destruct m as [[s W] cl]. simpl. intros Hh Hc. unfold on_shard. simpl. destruct (svReplicas s !! shardID) as [r|] eqn:Hr; [|by split_and!].
  destruct (Hh _ _ Hr) as [Hid Hw]. set (P := under (ncDataDir (svCfg s)) shardID) in *.
  specialize (Hc P (files W) ((r, W), cl)). destruct (c ((r, W), cl)) as [o [[r' W'] cl']]. simpl in *.
  destruct Hc as [Hr' HW']; [by split|]. simpl in *. split_and!; [by apply homes_put|done|].
  intros id Hne. split; cbn; [by rewrite lookup_insert_ne|]. intros Hsimple p Hp. apply HW'. intros Hp'.
  apply Hne. by eapply under_unique.
Qed.

Lemma io_map_state {S E A B} (f : A -> B) (c : M S E A) s : snd (io_map f c s) = snd (c s).
Proof. unfold io_map, io_bind. by destruct (c s) as [[] ?]. Qed.

Lemma loop_turn_ds op r : smDs (rSM (loop_turn op r)) = smDs (rSM r).
Proof.
  destruct op; cbn [loop_turn]; try done; unfold election_tick, startElection_begin, startElection_end, heartbeat_reply;
    by repeat case_match; simplify_eq/=.
Qed.

Lemma homes_serving now s : homes s -> homes (startBackgroundJobs now s).
Proof.
  intros Hs id r'. cbn. rewrite lookup_fmap_Some. intros (r & <- & Hr). destruct (Hs _ _ Hr) as [Hid Hw].
  split; [done|]. intros ds. apply Hw.
Qed.

Lemma run_op_frame op m : homes (fst (fst m)) ->
  homes (fst (fst (snd (run_op op m)))) /\ svCfg (fst (fst (snd (run_op op m)))) = svCfg (fst (fst m)) /\
  forall id, id <> op_shard op -> leaves_alone id m (snd (run_op op m)).
Proof.
  intros Hh. destruct op as [now order net netRecover kvorder req|id rpc|id now|id now|id now term peers t|id now sent p t];
    cbn [run_op op_shard]; try rewrite io_map_state.
  3-6: apply on_shard_frame; [done|]; intros P fs0; apply stable_pure_handler; apply loop_turn_ds.
  - unfold serve. apply on_shard_frame; [done|]. intros P fs0. apply stable_handler.
  - unfold recovery_turn. apply on_shard_frame; [done|]. intros P fs0. apply stable_get. intros n _.
    unfold ignore. apply stable_bind; [|stable]. apply stable_attempt, stable_on_leader, stable_recovery_tick.
Qed.

Lemma node_step_homes m m' : node_step m m' -> homes (fst (fst m)) -> homes (fst (fst m')).
Proof.
  intros Hstep Hh. destruct Hstep as [op m|now draw resp [s W] cl Hn|rorder horder now draw resp [s W] cl Ho Hn|
    now s W cl|cfg now sched s W cl|sW cl cl'].
  - by apply run_op_frame.
  - by apply (stable_InitShards (svCfg s) now draw resp Hn (s, W)).
  - by apply (stable_refetch (svCfg s) rorder horder now draw resp Ho Hn (s, W)).
  - by apply homes_serving.
  - intros id r. cbn. by rewrite lookup_empty.
  - done.
Qed.

Lemma disk_view_ext P ds fs fs' : ds_within P ds -> (forall p, P p -> fs' !! p = fs !! p) -> disk_view ds fs' = disk_view ds fs.
Proof.
  intros (_ & Hwal & Hsnap & _) Heq. unfold disk_view, log_entries, latest. rewrite (Heq _ Hwal). f_equal.
  generalize (Z.to_nat (snapshotRetention ds)) 0 (None : option Snapshot). induction n as [|n IH]; intros i best; [done|].
  cbn [latest_from]. unfold snap_at. by rewrite (Heq _ (Hsnap i)), IH.
Qed.

(** C17: The shards of a node do not interfere.  In every state a node reaches, from
    an empty server on any disk, with any errors and deaths of the process, an
    operation on one shard (any gRPC request, a turn of its recovery loop, its
    election timer, either half of an election, or a reply to its heartbeat)
    leaves every other shard's replica as it is, and every file of the other
    shards, so that a restart would load the same of them.  An operation on a
    shard the node does not host is refused without any effect.

    The shard maps the node follows name each shard by a plain file name
    ([names_ok]: not empty, no slash, not a dot or two).  Nothing checks that,
    and without it two shards can share a log, [shard_names_can_share_a_log]. *)
Theorem shards_isolated m0 m op :
  svReplicas (fst (fst m0)) = ∅ -> rtc node_step m0 m ->
  let '(o, m') := run_op op m in
  (svReplicas (fst (fst m)) !! op_shard op = None -> o = Err RpcNotFound /\ m' = m) /\
  (forall id, id <> op_shard op -> leaves_alone id m m') /\
  (forall id r ds, id <> op_shard op -> svReplicas (fst (fst m)) !! id = Some r -> smDs (rSM r) = Some ds ->
     disk_view ds (files (snd (fst m'))) = disk_view ds (files (snd (fst m)))).
Proof.
  intros H0 Hreach. assert (Hh : homes (fst (fst m))).
  { assert (Hh0 : homes (fst (fst m0))) by (intros id r; rewrite H0; by rewrite lookup_empty).
    clear H0. induction Hreach as [|m0 m1 m2 Hs _ IH]; [done|]. apply IH. by eapply node_step_homes. }
  destruct (run_op_frame op m Hh) as (_ & _ & Halone). destruct (run_op op m) as [o m'] eqn:Hrun. simpl in *. split_and!.
  - intros Hnone. destruct op; cbn [run_op op_shard] in *;
      unfold io_map, io_bind, serve, recovery_turn, on_shard in Hrun; rewrite Hnone in Hrun; by injection Hrun as <- <-.
  - done.
  - intros id r ds Hne Hr Hds. destruct (Hh _ _ Hr) as [Hid Hw]. destruct (Halone id Hne) as [_ Hf].
    eapply disk_view_ext; [by apply Hw|]. by apply Hf.
Qed.

(** ** Examples *)

Definition two_shards : ShardMapResponse :=
  mkShardMapResponse 3 [mkShard "s1" ["n1"; "n2"] "n2" "" []; mkShard "s2" ["n1"; "n2"] "n1" "" []]
    {["n1" := "a1"; "n2" := "a2"]}.

Definition machine0 : machine := ((NewServer node_cfg1 0, healthy ∅), ∅).
Definition machine1 : machine := (snd (InitShards 5 (fun _ => 0) two_shards (fst machine0)), ∅).

Definition replicate1 : ShardOp :=
  OpServe 7 (fun m => (map_to_list m).*1) (fun _ => Delivered) (fun _ => Delivered) (fun m => map_to_list m)
    (RqReplicate (mkReplicateRequest "s1" 1 1 (Some (mkOperation TYPE_PUT "k" "v")))).

Lemma machine1_reached : rtc node_step machine0 machine1.
Proof.
  apply rtc_once. apply (step_init 5 (fun _ => 0) two_shards (fst machine0) ∅).
  repeat apply Forall_cons_2; [..|by apply Forall_nil_2]; (split_and!; try done; apply (bool_decide_eq_true_1 _); by vm_compute).
Qed.

(** The request is applied to the first shard, whose log it extends. *)
Lemma replicate1_result :
  fst (run_op replicate1 machine1) = Ret (Some (RsReplicate (mkReplicateResponse true 1))) /\
  files (snd (fst (snd (run_op replicate1 machine1)))) !! "data/shards/s1/wal.jsonl" <>
    files (snd (fst machine1)) !! "data/shards/s1/wal.jsonl".
Proof. split; [by vm_compute|]. vm_compute. done. Qed.

Lemma shards_isolated_witness :
  svReplicas (fst (fst machine0)) = ∅ /\
  let '(o, m') := run_op replicate1 machine1 in
  (svReplicas (fst (fst machine1)) !! op_shard replicate1 = None -> o = Err RpcNotFound /\ m' = machine1) /\
  (forall id, id <> op_shard replicate1 -> leaves_alone id machine1 m') /\
  (forall id r ds, id <> op_shard replicate1 -> svReplicas (fst (fst machine1)) !! id = Some r -> smDs (rSM r) = Some ds ->
     disk_view ds (files (snd (fst m'))) = disk_view ds (files (snd (fst machine1)))).
Proof. split; [reflexivity|]. exact (shards_isolated machine0 machine1 replicate1 eq_refl machine1_reached). Defined.

(** Nothing checks that a shard's name is a file name: two shards that the
    configuration tells apart can have the same log. *)
Theorem shard_names_can_share_a_log :
  Join (shardDataDir "data" "./s1") "wal.jsonl" = Join (shardDataDir "data" "s1") "wal.jsonl" /\
  Cluster_validate (mkClusterConfig (mkCoordinatorConfig "c" 0 0 0 0) [mkNodeSpec "n1" "a1"]
    [mkShardSpec "s1" ["n1"] ""; mkShardSpec "./s1" ["n1"] ""] (mkReplicationConfig 0 0 0)) = Ok tt.
Proof. by vm_compute. Qed.
