(* ===== verification/Placement.v ===== *)
(** The seat of a replica: which shard it is a copy of, on which node, with which
    peers, by which version of the shard map.

    Only following the shard map moves a seat (src/node/server.go,
    refetchShardMap); no request a node serves, no recovery, no election and no
    heartbeat does, whatever the disks and the network do. *)

From S2P Require Import Prelude Fs Storage ReplicationLog StateMachine Config Replica Wire Handlers Write Recovery Election.
From S2P Require Import ShardMap Coordinator Server Node.

(** What the shard map gives a replica and only the shard map changes.  The role
    and the leader are not among it: the map sets them too, but elections and
    heartbeats move them afterwards. *)
Record Seat := mkSeat {
  seShardID : string;
  seNodeID : string;
  sePeers : list string;
  seMapVersion : Z;
  seBootstrap : string;
}.

Definition seat (r : ReplicaState) : Seat :=
  mkSeat (rShardID r) (rNodeID r) (rPeers r) (rShardMapVersion r) (rBootstrapShardID r).

(** The seats of the replicas of a shard. *)
Definition seats (c : cluster) : gmap string Seat := (fun n => seat (fst n)) <$> c.

(** What the replica has counted for its status page. *)
Record Stats := mkStats { staElections : Z; staRecoveries : Z; staWrites : Z; staErrors : Z }.

Definition stats (r : ReplicaState) : Stats :=
  mkStats (rElectionCount r) (rRecoveryCount r) (rWriteOpsTotal r) (rWriteErrTotal r).

Definition post (r : ReplicaState) : Seat * Stats := (seat r, stats r).

(** ** One replica *)

(** What holds of a replica because of its seat and its stats outlives the
    requests it serves as a follower. *)
Section kept.
Context (I : ReplicaState -> Prop) (HI : forall r r', post r' = post r -> I r -> I r').

Definition kept (s : ReplicaState * World) : Prop := I (fst s).

Lemma kept_on_replica {E} f : (forall r, post (f r) = post r) -> stable kept (on_replica (E := E) f).
Proof. intros Hf. apply stable_modify. intros s Hs. unfold kept in *. eapply HI; [apply Hf|exact Hs]. Qed.

(** Whatever happens to the data. *)
Lemma kept_on_sm {A} (c : M (shardStateMachine Store * World) smerr A) : stable kept (on_sm c).
Proof. apply (stable_zoom _ (fun _ => True)); [done|intros s t Hs _; unfold kept in *; eapply HI; [|exact Hs]; done|done]. Qed.

Local Hint Resolve kept_on_sm : frames.
Local Hint Extern 2 (stable kept (on_replica _)) => by apply kept_on_replica : frames.

Lemma adopt_term_post t r : post (adopt_term t r) = post r.
Proof. unfold adopt_term. by destruct (_ <? _). Qed.

Lemma kept_adopt_term {E} t : stable kept (on_replica (E := E) (adopt_term t)).
Proof. apply kept_on_replica. apply adopt_term_post. Qed.
Local Hint Resolve kept_adopt_term : frames.

Lemma kept_Replicate now req : stable kept (Replicate now req).
Proof. unfold Replicate. stable. Qed.

Lemma kept_handleReplicate now body : stable kept (handleReplicate now body).
Proof. unfold handleReplicate. stable. Qed.

Lemma ForceRecover_post now r : post (ForceRecover now r) = post r.
Proof. done. Qed.
End kept.

Lemma RequestVote_post now req r : post (RequestVote now req r).2 = post r.
Proof. unfold RequestVote. repeat (case_match || case_decide); by simplify_eq. Qed.

Lemma LeaderHeartbeat_post now req r : post (LeaderHeartbeat now req r).2 = post r.
Proof. unfold LeaderHeartbeat. destruct (_ <? _); [done|]. simpl. by rewrite <- (adopt_term_post (hqTerm req) r). Qed.

Lemma startElection_begin_post now r req r' : startElection_begin now r = Some (req, r') -> post r' = post r.
Proof. unfold startElection_begin. case_decide; [done|]. by intros [= <- <-]. Qed.

Lemma startElection_end_seat now term peers t r : seat (startElection_end now term peers t r).2 = seat r.
Proof. unfold startElection_end. destruct t; [by destruct (_ <? _)|]. case_decide; [done|]. by destruct (_ <? _). Qed.

Lemma heartbeat_reply_post now sent p t r : post (heartbeat_reply now sent p t r) = post r.
Proof. unfold heartbeat_reply. destruct (t =? 0), (sent <? t), (rTerm r <? t); try case_decide; done. Qed.

Lemma election_tick_post now r : post (election_tick now r).2 = post r.
Proof. unfold election_tick. case_decide; [done|]. destruct (time_IsZero _); [done|]. by destruct (_ <? _). Qed.

Lemma post_seat r r' : post r' = post r -> seat r' = seat r.
Proof. unfold post. congruence. Qed.

Lemma seat_kept x r r' : post r' = post r -> seat r = x -> seat r' = x.
Proof. intros Hp <-. by apply post_seat. Qed.

(** *** Recovery *)

Section recovery.
Context (I : ReplicaState -> Prop) (HI : forall r r', post r' = post r -> I r -> I r').
Context (Hrec : forall r, I r -> I (recovered r)).

Local Hint Resolve kept_on_sm : frames.
Lemma kept_recovered {E} : stable (kept I) (on_replica (E := E) recovered).
Proof. apply stable_modify. intros s. unfold kept. apply Hrec. Qed.
Local Hint Resolve kept_recovered : frames.
Local Hint Extern 3 (stable (kept I) (on_replica _)) => by apply kept_on_replica : frames.

Lemma kept_apply_entries es : stable (kept I) (apply_entries es).
Proof. induction es as [|e es IH]; cbn [apply_entries]; stable. Qed.
Local Hint Resolve kept_apply_entries : frames.

Lemma kept_doIncrementalRecovery rpc : stable (kept I) (doIncrementalRecovery rpc).
Proof. unfold doIncrementalRecovery, recovery_apply. stable. Qed.
Local Hint Resolve kept_doIncrementalRecovery : frames.

(** The tick adds one to the recoveries if it succeeded. *)
Lemma kept_recovery_tick addr rpc :
  (forall r n, I r -> I (r <| rRecoveryCount := n |>)) -> stable (kept I) (recovery_tick addr rpc).
Proof.
  intros Hcount. unfold recovery_tick. cbv zeta.
  assert (Hon : stable (kept I) (on_replica (E := recerr) (fun r => r <| rRecoveryCount ::= fun n => wrap_int64 (n + 1) |>)))
    by (apply stable_modify; intros s; unfold kept; apply Hcount).
  stable.
Qed.
End recovery.

Lemma seated_recovery_tick x addr rpc : seBootstrap x = "" -> stable (kept (fun r => seat r = x)) (recovery_tick addr rpc).
Proof.
  intros Hx. apply kept_recovery_tick; [apply seat_kept| |done]. intros r <-. unfold seat in *. simpl in *. by rewrite Hx.
Qed.

(** ** A replica and its peers *)

Section placed.
Context (I : ReplicaState -> Prop) (HI : forall r r', post r' = post r -> I r -> I r') (y : gmap string Seat).
Context (Hwrites : forall r n, I r -> I (r <| rWriteOpsTotal := n |>)) (Herrors : forall r n, I r -> I (r <| rWriteErrTotal := n |>)).

Definition placed (s : node * cluster) : Prop := kept I (fst s) /\ seats (snd s) = y.

Lemma placed_on_leader {E A} (c : M node E A) : stable (kept I) c -> stable placed (on_leader c).
Proof. intros Hc. apply (stable_zoom _ (kept I)); [by intros s [? _]|by intros s t [_ ?]|done]. Qed.

Lemma kept_commit_local e : stable (kept I) (commit_local e).
Proof.
  pose proof (@kept_on_sm I HI) as Hsm. unfold commit_local.
  apply stable_bind; [by apply stable_map_err|intros _]. apply stable_bind; [by apply kept_on_replica|intros _].
  apply stable_get. intros s _. apply stable_bind; [apply stable_bind; [apply stable_attempt, Hsm|stable]|intros _].
  apply stable_modify. intros t. unfold kept. apply Hwrites.
Qed.

Lemma kept_count_error {E} : stable (kept I) (on_replica (E := E) count_error).
Proof. apply stable_modify. intros s. unfold kept. apply Herrors. Qed.

Lemma seats_insert c p n n' : c !! p = Some n -> seat (fst n') = seat (fst n) -> seats (<[p := n']> c) = seats c.
Proof.
  intros Hp Hn. unfold seats. rewrite fmap_insert, Hn. apply insert_id. by rewrite lookup_fmap, Hp.
Qed.

Lemma seats_fanOutReplicate now net req ps c : seats (fanOutReplicate now net req ps c).2 = seats c.
Proof.
  revert c. induction ps as [|p ps IH]; intros c; [done|]. cbn [fanOutReplicate].
  assert (Hsend : seats (sendReplicateRequest now (net p) req p c).2 = seats c).
  { unfold sendReplicateRequest. destruct (c !! p) as [n|] eqn:Hp; [|by destruct (net p)].
    pose proof (kept_Replicate _ (seat_kept (seat (fst n))) now req n eq_refl) as Hr. unfold kept in Hr.
    destruct (Replicate now req n) as [o n']. destruct (net p); try done; simpl in *; by eapply seats_insert. }
  destruct (sendReplicateRequest now (net p) req p c) as [ok c1]. simpl in Hsend. specialize (IH c1).
  destruct (fanOutReplicate now net req ps c1). simpl in *. congruence.
Qed.

Lemma seats_fanOutForceRecover now net addrs ps c : seats (fanOutForceRecover now net addrs ps c).2 = seats c.
Proof.
  revert c. induction ps as [|p ps IH]; intros c; [done|]. cbn [fanOutForceRecover]. destruct (addrs !! p); [|done].
  assert (Hsend : seats (sendForceRecoverRequest now (net p) p c).2 = seats c).
  { unfold sendForceRecoverRequest. destruct (c !! p) as [[r W]|] eqn:Hp; [|by destruct (net p)].
    destruct (net p); try done; simpl; by eapply seats_insert. }
  destruct (sendForceRecoverRequest now (net p) p c) as [ok c1]. simpl in Hsend. specialize (IH c1).
  destruct (fanOutForceRecover now net addrs ps c1). simpl in *. congruence.
Qed.

Lemma placed_leaderWrite now env req : stable placed (leaderWrite now env req).
Proof.
  unfold leaderWrite. apply stable_get. intros s [_ Hy]. destruct (ensureLeaderReady _); [|stable].
  destruct (negb _); [stable|]. cbv zeta.
  assert (Hcommit : forall e, stable placed (on_leader (commit_local e))) by (intros e; by apply placed_on_leader, kept_commit_local).
  assert (Hon : forall f, (forall r, post (f r) = post r) -> stable placed (on_leader (on_replica (E := writeerr) f)))
    by (intros f Hf; by apply placed_on_leader, kept_on_replica).
  destruct (_ =? 0); [apply stable_bind; [apply Hcommit|stable]|]. destruct (negb _); [apply stable_bind; [by apply placed_on_leader, kept_count_error|stable]|].
  pose proof (seats_fanOutReplicate now (weNet env)) as Hfan.
  match goal with |- context [fanOutReplicate ?a ?b ?q ?ps ?c] => specialize (Hfan q ps c); destruct (fanOutReplicate a b q ps c) as [acked c'] end.
  apply stable_bind; [apply stable_modify; intros t [Ht _]; split; [done|simpl in *; congruence]|intros _].
  destruct (_ <? _).
  - apply stable_bind; [apply stable_modify; intros t [Ht Hty]; split; [done|]; simpl; by rewrite seats_fanOutForceRecover|intros _].
    apply stable_bind; [by apply placed_on_leader, kept_count_error|stable].
  - apply stable_bind; [by apply Hon|intros _]. apply stable_bind; [apply Hcommit|stable].
Qed.

Lemma placed_handleWrite now env req : stable placed (handleWrite now env req).
Proof.
  intros s Hs. unfold handleWrite. pose proof (placed_leaderWrite now env req s Hs) as Hw.
  destruct (ensureLeaderReady _) as [|[]]; try done. by destruct (leaderWrite now env req s) as [[|[[]| | |]|] ?].
Qed.

Lemma placed_pure_handler {A} (f : ReplicaState -> A * ReplicaState) :
  (forall r, post (f r).2 = post r) -> stable placed (pure_handler f).
Proof.
  intros Hf [[r W] c] [Hr Hc]. unfold pure_handler. simpl in *. specialize (Hf r). destruct (f r) as [a r'].
  split; [|done]. unfold kept in *. eapply HI; [|done]. simpl in *. congruence.
Qed.

Lemma placed_handler now kvorder env req : stable placed (handler now kvorder env req).
Proof.
  destruct req; simpl.
  - apply stable_io_map, placed_handleWrite.
  - apply stable_io_map, stable_bind; [apply placed_handleWrite|stable].
  - by apply placed_pure_handler.
  - by apply stable_io_map, placed_on_leader, kept_Replicate.
  - apply stable_get. intros s _. apply stable_io_map, stable_of_result.
  - by apply placed_pure_handler.
  - apply placed_pure_handler. intros r. rewrite <- (RequestVote_post now req r). by destruct (RequestVote now req r).
  - apply placed_pure_handler. intros r. rewrite <- (LeaderHeartbeat_post now req r). by destruct (LeaderHeartbeat now req r).
Qed.
End placed.
