(* ===== verification/Prometheus.v ===== *)
(** The Prometheus client library, as src/internal/metrics/metrics.go uses it.

    The client is an interface with the laws its documentation states: a name is
    registered once; an update names as many label values as the metric has
    labels, all valid UTF-8, and changes one value.  Anything else may panic,
    which is [None].  Values are integers where the library has a [float64], and
    of a histogram the number of observations is read. *)

From S2P Require Import Prelude Strconv Json JsonStruct.
From Stdlib Require Import Ascii.

Inductive metric_kind := Gauge | Counter | Histogram.
#[global] Instance metric_kind_eq_dec : EqDecision metric_kind.
Proof. solve_decision. Defined.

(** The options and label names a metric is created with. *)
Record desc := mkDesc { deKind : metric_kind; deName : string; deHelp : string; deLabels : list string }.

(** The names Prometheus accepts, for labels and, colons apart, for metrics. *)
Definition name_start (c : ascii) : bool := between 97 122 c || between 65 90 c || (bz c =? 95).
Definition name_char (c : ascii) : bool := name_start c || between 48 57 c.

Definition valid_ident (s : string) : bool :=
  match of_str s with [] => false | c :: rest => name_start c && forallb name_char rest end.

Definition acceptable (d : desc) : bool := valid_ident (deName d) && forallb valid_ident (deLabels d).

(** [Inc], [GaugeSet] and [Observe] are [WithLabelValues(...)] followed by the
    update of the metric of that name; [value] is what a scrape shows, 0 for
    labels not used yet. *)
Class Prometheus (Reg : Type) := {
  NewRegistry : Reg;
  MustRegister : desc -> Reg -> option Reg;
  Inc : string -> list string -> Reg -> option Reg;
  GaugeSet : string -> list string -> Z -> Reg -> option Reg;
  Observe : string -> list string -> Z -> Reg -> option Reg;
  described : string -> Reg -> option desc;
  value : string -> list string -> Reg -> Z;
}.

(** The value of one metric at some labels becomes [v]. *)
Definition changed {Reg} `{Prometheus Reg} (name : string) (lvs : list string) (v : Z) (reg reg' : Reg) : Prop :=
  (forall n, described n reg' = described n reg) /\ value name lvs reg' = v /\
  forall name' lvs', (name', lvs') <> (name, lvs) -> value name' lvs' reg' = value name' lvs' reg.

(** [reg] has the metric [name] of a kind, and it takes the label values [lvs]. *)
Definition takes {Reg} `{Prometheus Reg} (kind : metric_kind) (name : string) (lvs : list string) (reg : Reg) : Prop :=
  Forall utf8_str lvs /\ exists d, described name reg = Some d /\ deKind d = kind /\ length (deLabels d) = length lvs.

Class PrometheusLaws (Reg : Type) `{Prometheus Reg} : Prop := {
  new_described n : described n NewRegistry = None;
  new_value n lvs : value n lvs NewRegistry = 0;
  register_new d reg : described (deName d) reg = None -> acceptable d = true ->
    exists reg', MustRegister d reg = Some reg' /\ described (deName d) reg' = Some d /\
      (forall n, n <> deName d -> described n reg' = described n reg) /\
      (forall n lvs, value n lvs reg' = value n lvs reg);
  inc_counter name lvs reg : takes Counter name lvs reg ->
    exists reg', Inc name lvs reg = Some reg' /\ changed name lvs (value name lvs reg + 1) reg reg';
  set_gauge name lvs v reg : takes Gauge name lvs reg ->
    exists reg', GaugeSet name lvs v reg = Some reg' /\ changed name lvs v reg reg';
  observe_histogram name lvs v reg : takes Histogram name lvs reg ->
    exists reg', Observe name lvs v reg = Some reg' /\ changed name lvs (value name lvs reg + 1) reg reg';
}.

(** ** Counting events *)

(** An event is one increment of a counter: its name and its label values. *)
Abbreviation event := (string * list string)%type.

Fixpoint occ (k : event) (l : list event) : Z :=
  match l with [] => 0 | x :: l' => (if decide (x = k) then 1 else 0) + occ k l' end.

Lemma occ_app k l l' : occ k (l ++ l') = occ k l + occ k l'.
Proof. induction l as [|x l IH]; simpl; [done|]. rewrite IH. lia. Qed.

(** Compute the occurrences in a list written out. *)
Ltac occs := cbn [occ app]; repeat case_decide; simplify_eq; try lia.

(** ** Registries that hold given metrics *)

Section registered.
Context {Reg : Type} `{!Prometheus Reg, !PrometheusLaws Reg}.

(** [MustRegister] of all the collectors, in order. *)
Definition register_each (l : list desc) : option Reg :=
  foldl (fun o d => o ≫= MustRegister d) (Some NewRegistry) l.

Definition registered (l : list desc) (reg : Reg) : Prop := Forall (fun d => described (deName d) reg = Some d) l.

(** [name] is a metric of [l] of that kind with [n] labels. *)
Definition family (l : list desc) (kind : metric_kind) (name : string) (n : nat) : bool :=
  existsb (fun d => bool_decide (deName d = name) && bool_decide (deKind d = kind) && bool_decide (length (deLabels d) = n)) l.

(** Registering metrics of distinct, acceptable names succeeds and counts
    nothing. *)
Lemma register_all l :
  NoDup (deName <$> l) -> forallb acceptable l = true ->
  exists reg, register_each l = Some reg /\ (forall d, d ∈ l -> described (deName d) reg = Some d) /\
    (forall n, n ∉ (deName <$> l) -> described n reg = None) /\ forall n lvs, value n lvs reg = 0.
Proof.
  induction l as [|d l IH] using rev_ind; intros Hnd Hok.
  { exists NewRegistry. split_and!; [done|by intros d ?%elem_of_nil|intros; apply new_described|intros; apply new_value]. }
  rewrite fmap_app in Hnd. apply NoDup_app in Hnd as (Hnd & Hfresh & _).
  rewrite forallb_app in Hok. apply andb_true_iff in Hok as [Hok Hd]. simpl in Hd. rewrite andb_true_r in Hd.
  destruct (IH Hnd Hok) as (reg & Heq & Hin & Hout & Hz). unfold register_each in *. rewrite foldl_app, Heq. simpl.
  assert (Hd' : deName d ∉ (deName <$> l)) by (intros Hi; apply (Hfresh _ Hi); simpl; by apply list_elem_of_singleton).
  destruct (register_new d reg) as (reg' & Hr & Hnew & Hother & Hv); [by apply Hout|done|].
  exists reg'. split_and!; [done| | |intros; by rewrite Hv].
  - intros d' [Hin'| ->%list_elem_of_singleton]%elem_of_app; [|done]. rewrite Hother; [by apply Hin|].
    intros He. apply Hd'. rewrite <- He. by apply list_elem_of_fmap_2.
  - intros n Hn. rewrite fmap_app, not_elem_of_app in Hn. destruct Hn as [Hn Hn']. simpl in Hn'.
    rewrite Hother; [by apply Hout|]. intros ->. apply Hn'. by apply list_elem_of_singleton.
Qed.

Lemma register_registers l :
  NoDup (deName <$> l) -> forallb acceptable l = true ->
  exists reg, register_each l = Some reg /\ registered l reg /\ forall n lvs, value n lvs reg = 0.
Proof.
  intros Hnd Hok. destruct (register_all l Hnd Hok) as (reg & Heq & Hin & _ & Hz).
  exists reg. split_and!; [done|by apply Forall_forall|done].
Qed.

Section families.
Context (l : list desc).

Lemma family_described kind name n reg :
  registered l reg -> family l kind name n = true ->
  exists d, described name reg = Some d /\ deKind d = kind /\ length (deLabels d) = n.
Proof.
  intros Hreg (d & Hin%list_elem_of_In & Hm)%existsb_exists. apply andb_true_iff in Hm as [Hm Hlen%bool_decide_eq_true_1].
  apply andb_true_iff in Hm as [<-%bool_decide_eq_true_1 Hk%bool_decide_eq_true_1].
  exists d. split_and!; [|done|done]. unfold registered in Hreg. rewrite Forall_forall in Hreg. by apply Hreg.
Qed.

Lemma registered_takes kind name lvs reg :
  registered l reg -> family l kind name (length lvs) = true -> Forall utf8_str lvs -> takes kind name lvs reg.
Proof. intros Hreg Hm Hu. split; [done|]. by apply family_described. Qed.

Lemma changed_registered name lvs v reg reg' : registered l reg -> changed name lvs v reg reg' -> registered l reg'.
Proof. intros Hreg [Hd _]. eapply Forall_impl; [exact Hreg|]. intros d Hr. cbn beta in *. by rewrite Hd. Qed.

Lemma set_registered name lvs v reg :
  registered l reg -> family l Gauge name (length lvs) = true -> Forall utf8_str lvs ->
  exists reg', GaugeSet name lvs v reg = Some reg' /\ registered l reg' /\ changed name lvs v reg reg'.
Proof.
  intros Hreg Hm Hu. destruct (set_gauge name lvs v reg) as (reg' & Heq & Hc); [by apply registered_takes|].
  eauto using changed_registered.
Qed.

(** From [reg] to [reg'], the counters of [l] count the events [ev]. *)
Definition counts (reg : Reg) (ev : list event) (reg' : Reg) : Prop :=
  registered l reg' /\
  forall name n lvs, family l Counter name n = true -> value name lvs reg' = value name lvs reg + occ (name, lvs) ev.

Lemma counts_nil reg : registered l reg -> counts reg [] reg.
Proof. intros Hreg. split; [done|]. intros. simpl. lia. Qed.

Lemma counts_app reg ev reg1 ev' reg2 : counts reg ev reg1 -> counts reg1 ev' reg2 -> counts reg (ev ++ ev') reg2.
Proof.
  intros [_ H1] [Hreg H2]. split; [done|]. intros name n lvs Hf. rewrite (H2 _ _ _ Hf), (H1 _ _ _ Hf), occ_app. lia.
Qed.

Lemma inc_counts name lvs reg :
  registered l reg -> family l Counter name (length lvs) = true -> Forall utf8_str lvs ->
  exists reg', Inc name lvs reg = Some reg' /\ counts reg [(name, lvs)] reg'.
Proof.
  intros Hreg Hm Hu. destruct (inc_counter name lvs reg) as (reg' & Heq & Hc); [by apply registered_takes|].
  exists reg'. split; [done|]. split; [by eapply changed_registered|]. intros name' n lvs' _. cbn [occ].
  destruct Hc as (_ & Hv & Hkeep). case_decide as Hd; [injection Hd as <- <-; lia|]. rewrite Hkeep by congruence. lia.
Qed.

(** A metric that is not a counter. *)
Lemma changed_counts kind name lvs v reg reg' :
  registered l reg -> kind <> Counter -> family l kind name (length lvs) = true -> changed name lvs v reg reg' ->
  counts reg [] reg'.
Proof.
  intros Hreg Hk Hm Hc. split; [by eapply changed_registered|]. intros name' n lvs' Hf. cbn [occ].
  destruct (family_described _ _ _ _ Hreg Hm) as (d & Hd & Hdk & _). destruct (family_described _ _ _ _ Hreg Hf) as (d' & Hd' & Hdk' & _).
  destruct Hc as (_ & _ & Hkeep). rewrite Hkeep by congruence. lia.
Qed.

Lemma observe_counts name lvs v reg :
  registered l reg -> family l Histogram name (length lvs) = true -> Forall utf8_str lvs ->
  exists reg', Observe name lvs v reg = Some reg' /\ counts reg [] reg'.
Proof.
  intros Hreg Hm Hu. destruct (observe_histogram name lvs v reg) as (reg' & Heq & Hc); [by apply registered_takes|].
  exists reg'. split; [done|]. by eapply (changed_counts Histogram).
Qed.
End families.
End registered.

(** ** A registry *)

(** It keeps the laws, and panics on other names, kinds and numbers of labels. *)
Record registry := mkRegistry { regDescs : gmap string desc; regValues : gmap (string * list string) Z }.

Definition reg_value (name : string) (lvs : list string) (reg : registry) : Z := default 0 (regValues reg !! (name, lvs)).

Definition reg_update (kind : metric_kind) (name : string) (lvs : list string) (f : Z -> Z) (reg : registry)
    : option registry :=
  d ← regDescs reg !! name;
  if decide (deKind d = kind /\ length (deLabels d) = length lvs)
  then Some (mkRegistry (regDescs reg) (<[(name, lvs) := f (reg_value name lvs reg)]> (regValues reg))) else None.

#[export] Instance registry_prometheus : Prometheus registry := {
  NewRegistry := mkRegistry ∅ ∅;
  MustRegister d reg :=
    if decide (regDescs reg !! deName d = None /\ acceptable d = true)
    then Some (mkRegistry (<[deName d := d]> (regDescs reg)) (regValues reg)) else None;
  Inc name lvs := reg_update Counter name lvs (fun n => n + 1);
  GaugeSet name lvs v := reg_update Gauge name lvs (fun _ => v);
  Observe name lvs _ := reg_update Histogram name lvs (fun n => n + 1);
  described name reg := regDescs reg !! name;
  value := reg_value;
}.

Lemma reg_update_changes kind name lvs f reg :
  takes kind name lvs reg -> exists reg', reg_update kind name lvs f reg = Some reg' /\ changed name lvs (f (value name lvs reg)) reg reg'.
Proof.
  intros (_ & d & Hd & Hk & Hl). cbn in Hd. unfold reg_update. rewrite Hd. cbn [mbind option_bind].
  rewrite decide_True by done. eexists. split; [done|]. split_and!; cbn; [done| |].
  - unfold reg_value. cbn. by rewrite lookup_insert_eq.
  - intros name' lvs' Hne. unfold reg_value. cbn. by rewrite lookup_insert_ne.
Qed.

#[export] Instance registry_laws : PrometheusLaws registry.
Proof.
  split; [done|done| |intros; by apply reg_update_changes..].
  intros d reg Hnone Hok. cbn in *. rewrite decide_True by done. eexists. split; [done|]. split_and!; [|intros n Hn|done];
    cbn; [apply lookup_insert_eq|by rewrite lookup_insert_ne].
Qed.
