(* ===== verification/Metrics.v ===== *)
(** The metrics of a node, src/internal/metrics/metrics.go, and the places in
    src/node that update them.

    The other files leave the updates out of the handlers; here the handlers and
    background jobs of a replica, over gRPC and over HTTP, run together with the
    updates they make.  Durations are in nanoseconds. *)

From stdpp Require Import relations.
From S2P Require Import Prelude Strconv Fs Json JsonStruct Storage ReplicationLog StateMachine DiskState Durability Config Replica Wire Handlers Write Kv Recovery Election.
From S2P Require Import ShardMap Server Group Node Placement Prometheus.

(** ** What a node registers *)

Definition node_families : list desc :=
  [mkDesc Gauge "doki_replica_version" "Current committed version for a shard replica." ["shard_id"; "node_id"];
   mkDesc Gauge "doki_replica_term" "Current term for a shard replica." ["shard_id"; "node_id"];
   mkDesc Gauge "doki_replica_is_leader" "1 if this replica is the current leader for its shard." ["shard_id"; "node_id"];
   mkDesc Counter "doki_writes_total" "Total KV write operations by result." ["shard_id"; "result"];
   mkDesc Histogram "doki_write_duration_seconds" "Latency of leader write operations." ["shard_id"];
   mkDesc Counter "doki_replications_total" "Total incoming replication operations by result." ["shard_id"; "result"];
   mkDesc Counter "doki_elections_total" "Total elections by result." ["shard_id"; "result"];
   mkDesc Counter "doki_leader_heartbeats_sent_total" "Total leader heartbeats sent to peers." ["shard_id"];
   mkDesc Counter "doki_leader_heartbeats_missed_total" "Total leader heartbeats with no peer response." ["shard_id"];
   mkDesc Counter "doki_recoveries_total" "Total recovery events by type." ["shard_id"; "recovery_type"];
   mkDesc Gauge "doki_last_leader_contact_seconds" "Age in seconds of the last received leader message per replica." ["shard_id"; "node_id"]].

Inductive metered (A : Type) := MDone (a : A) | MPanic | MCrashed.
Arguments MDone {A} a.
Arguments MPanic {A}.
Arguments MCrashed {A}.

(** The label under which the replication handlers count a request. *)
Definition replication_label (term version : Z) (r : ReplicaState) (applied : bool) : string :=
  if term <? rTerm r then "stale_term"
  else if version <=? rVersion r then "duplicate"
  else if negb (version =? u64_succ (rVersion r)) then "gap"
  else if applied then "apply_ok" else "wal_error".

Definition returned {E A} (o : outcome E A) : bool := match o with Ret _ => true | _ => false end.

Definition recovery_label (kind : RecoveryKind) : string :=
  match kind with Incremental => "incremental" | FromSnapshot => "snapshot" end.

(** What a replica does, as a server of requests and in the background. *)
Inductive replica_op :=
| OpReplicate (now : Z) (req : ReplicateRequest)
| OpHttpReplicate (now : Z) (body : option HttpReplicateRequest)
| OpWrite (now elapsed : Z) (env : write_env) (req : KVRequest) (others : cluster)
| OpKV (now elapsed : Z) (env : write_env) (body : option KVRequest) (others : cluster)
| OpVote (now : Z) (req : VoteRequest)
| OpLeaderHeartbeat (now : Z) (req : LeaderHeartbeatRequest)
| OpForceRecover (now : Z)
| OpElectionBegin (now : Z)
| OpElectionEnd (now term : Z) (peers : list string) (t : tally_result)
| OpHeartbeatReply (now sent : Z) (peerID : string) (peerTerm : Z)
| OpRecovery (leaderAddr : string) (rpc : string -> string -> Z -> option RecoverResponse).

Definition is_recovery (op : replica_op) : bool := match op with OpRecovery _ _ => true | _ => false end.

(** ** Counting with machine integers *)

(** A counter at [c] is at [c'] after [n] increments. *)
Definition up_i64 (c n c' : Z) : Prop := int64 c -> c' = wrap_int64 (c + n).
Definition up_u64 (c n c' : Z) : Prop := u64 c -> c' = wrap64 (c + n).

Lemma up_i64_same c : up_i64 c 0 c.
Proof. intros Hc. by rewrite Z.add_0_r, wrap_int64_id. Qed.

Lemma up_i64_trans c n c1 m c2 : up_i64 c n c1 -> up_i64 c1 m c2 -> up_i64 c (n + m) c2.
Proof.
  intros H1 H2 Hc. rewrite H2, (H1 Hc) by (rewrite (H1 Hc); apply wrap_int64_range). by rewrite wrap_int64_add, Z.add_assoc.
Qed.

Lemma up_u64_same c : up_u64 c 0 c.
Proof. intros Hc. by rewrite Z.add_0_r, wrap64_id. Qed.

Lemma up_u64_trans c n c1 m c2 : up_u64 c n c1 -> up_u64 c1 m c2 -> up_u64 c (n + m) c2.
Proof.
  intros H1 H2 Hc. rewrite H2, (H1 Hc) by (rewrite (H1 Hc); apply wrap64_range). by rewrite wrap64_add, Z.add_assoc.
Qed.

(** ** What a write adds to the statistics of the leader *)

Definition count_write (r : ReplicaState) : ReplicaState := r <| rWriteOpsTotal ::= fun n => wrap_int64 (n + 1) |>.

Lemma post_kept p r r' : post r' = post r -> post r = p -> post r' = p.
Proof. congruence. Qed.

Lemma post_inv r r' : post r' = post r -> rShardID r' = rShardID r /\ stats r' = stats r.
Proof. unfold post, seat. intros Hp. split; congruence. Qed.

Lemma wp_stable {S E A} (I : S -> Prop) (c : M S E A) Q s :
  stable I c -> I s -> (forall o s', I s' -> Q o s') -> wp c Q s.
Proof. intros Hc Hs HQ. specialize (Hc s Hs). unfold wp. destruct (c s) as [o s']. by apply HQ. Qed.

(** An acknowledged write is counted as a write, a write without a quorum as an
    error; a write the guards or the disk refuse is not counted. *)
Definition write_stats {A} (r : ReplicaState) (o : outcome writeerr A) (r' : ReplicaState) : Prop :=
  match o with
  | Ret _ => post r' = post (count_write r)
  | Err (WGuard _ | WApply _) => post r' = post r
  | Err _ => post r' = post (count_error r)
  | Crashed => True
  end.

Lemma commit_local_stats e r r0 W :
  post r0 = post r -> wp (commit_local e) (fun o s' => write_stats r o (fst s')) (r0, W).
Proof.
  intros Hr0. pose proof (@kept_on_sm _ (post_kept (post r))) as Hsm. unfold commit_local.
  apply wp_bind, wp_map_err. eapply wp_stable; [apply Hsm|exact Hr0|]. intros [[]|x|] [r1 W1] Hr1; [|done|done].
  apply wp_bind, wp_modify, wp_bind, wp_get. cbn [fst snd]. apply wp_bind, wp_ignore.
  eapply wp_stable; [apply Hsm|exact Hr1|].
  assert (Hcount : forall r2 W2, post r2 = post r -> wp (on_replica (E := writeerr) count_write)
    (fun o s' => write_stats r o (fst s')) (r2, W2)).
  { intros r2 W2 Hr2. apply wp_modify. unfold write_stats, post, seat, stats in *. simpl in *. congruence. }
  intros [res|x|] [r2 W2] Hr2; [by apply Hcount..|done].
Qed.

Lemma leaderWrite_stats now env req r W c :
  wp (leaderWrite now env req) (fun o s' => write_stats r o (fst (fst s'))) ((r, W), c).
Proof.
  unfold leaderWrite. apply wp_bind, wp_get. cbn [fst snd].
  destruct (ensureLeaderReady r); [|done]. destruct (negb _); [done|]. set (e := mkEntry _ _ _ _ _).
  set (plan := planQuorum _ _ _ _).
  assert (Hcommit : forall r1 W1 c1 (res : WriteResult), post r1 = post r ->
    wp (io_bind (on_leader (commit_local e)) (fun _ => io_ret res)) (fun o s' => write_stats r o (fst (fst s'))) ((r1, W1), c1)).
  { intros r1 W1 c1 res Hr1. apply wp_bind, wp_zoom. cbn [fst snd].
    eapply wp_mono; [by apply (commit_local_stats e r)|]. cbn beta. by intros [[]|x|] [r2 W2] Ho. }
  destruct (NeededFollowers plan =? 0); [by apply Hcommit|].
  destruct (negb (hasLiveQuorum plan)); [by apply wp_bind, wp_zoom, wp_modify|].
  destruct (fanOutReplicate _ _ _ _ _) as [acked c1]. apply wp_bind, wp_modify. cbn [fst snd].
  destruct (_ <? _); [by apply wp_bind, wp_modify, wp_bind, wp_zoom, wp_modify|].
  apply wp_bind, wp_zoom, wp_modify. by apply Hcommit.
Qed.

(** ** What the other jobs do to the version and the statistics *)

(** An entry is applied exactly when it is counted as applied. *)
Definition replication_moves (term version : Z) (r : ReplicaState) (applied : bool) (r' : ReplicaState) : Prop :=
  rVersion r' = if decide (replication_label term version r applied = "apply_ok") then u64_succ (rVersion r) else rVersion r.

Lemma Replicate_moves now req r W :
  let '(o, (r', _)) := Replicate now req (r, W) in replication_moves (rqTerm req) (rqVersion req) r (returned o) r'.
Proof.
  pose proof (Replicate_cases now req r W) as Hc. destruct (Replicate now req (r, W)) as [o [r' W']].
  unfold replication_moves, replication_label.
  inversion Hc as [Hs|r1 Ht Hv Ht' Hd|r1 Ht Hv Hne Ht' Hd|r1 Ht Hn Hv Hk Ht' Hv' Hc'|o1 r1 Ht Hv Hne Ht' Hd];
    subst; try destruct Hd as [Hd _];
    (destruct (Z.ltb_spec (rqTerm req) (rTerm r)); [done || lia|]) ||
    (destruct (Z.ltb_spec (rqTerm req) (rTerm r')); [done|lia]);
    (destruct (Z.leb_spec (rqVersion req) (rVersion r)); [done || lia|]); [lia|..];
    (destruct (Z.eqb_spec (rqVersion req) (u64_succ (rVersion r))) as [He|He]; [|done]); cbn [negb].
  - done.
  - cbn [returned]. rewrite decide_True by done. congruence.
  - destruct o as [a| |]; [by destruct (Hne a)|done..].
Qed.

Lemma handleReplicate_moves now req r W :
  let '(o, (r', _)) := handleReplicate now (Some req) (r, W) in replication_moves (hrTerm req) (hrVersion req) r (returned o) r'.
Proof.
  enough (Hwp : wp (handleReplicate now (Some req))
    (fun o s' => replication_moves (hrTerm req) (hrVersion req) r (returned o) (fst s')) (r, W)).
  { unfold wp in Hwp. by destruct (handleReplicate now (Some req) (r, W)) as [o [r' W']]. }
  unfold handleReplicate, replication_moves, replication_label. apply wp_bind, wp_get. cbn [fst].
  destruct (hrTerm req <? rTerm r); [done|]. apply wp_bind, wp_modify, wp_bind, wp_get. cbn [fst snd].
  destruct (adopt_term_data (hrTerm req) r) as [[Hv _] _]. set (r1 := adopt_term (hrTerm req) r) in *. rewrite !Hv.
  destruct (hrVersion req <=? rVersion r); [by apply wp_ret|].
  destruct (Z.eqb_spec (hrVersion req) (u64_succ (rVersion r))) as [Hnext|]; cbn [negb]; [|by apply wp_bind, wp_modify, wp_ret].
  apply wp_bind, wp_map_err. eapply wp_mono; [apply wp_on_sm_apply|]. cbn beta.
  intros o [r2 W2] (sm' & Hr2 & Hret & Herr). simpl in Hr2. subst r2. destruct o as [[]|x|].
  - destruct (Hret eq_refl) as (_ & _ & Hver & _). apply wp_bind, wp_modify, wp_ret. cbn. unfold rVersion in *. simpl in *. congruence.
  - destruct (Herr ltac:(done)) as (Hver & _). cbn. unfold rVersion in *. simpl in *. congruence.
  - destruct (Herr ltac:(done)) as (Hver & _). cbn. unfold rVersion in *. simpl in *. congruence.
Qed.

Definition count_recovery (r : ReplicaState) : ReplicaState := r <| rRecoveryCount ::= fun n => wrap_int64 (n + 1) |>.

(** The recoveries the replica counts are those that succeed. *)
Lemma recovery_tick_stats addr rpc r W :
  wp (recovery_tick addr rpc) (fun o s' => rShardID (fst s') = rShardID r /\
    stats (fst s') = stats match o with Ret (Some _) => count_recovery r | _ => r end) (r, W).
Proof.
  set (I := fun r0 => rShardID r0 = rShardID r /\ stats r0 = stats r).
  assert (HI : forall r0 r1, post r1 = post r0 -> I r0 -> I r1)
    by (unfold I, post, seat; intros r0 r1 Hp [? ?]; split; congruence).
  assert (Hrec : forall r0, I r0 -> I (recovered r0)) by done.
  unfold recovery_tick. apply wp_bind, wp_get. cbn [fst]. destruct (rIsReady r); [by apply wp_bind, wp_modify, wp_ret|].
  case_decide; [by apply wp_bind, wp_modify, wp_ret|]. apply wp_bind, wp_modify, wp_bind, wp_attempt.
  eapply wp_stable; [by apply (kept_doIncrementalRecovery I HI Hrec)|done|].
  intros [kind|x|] [r1 W1] [Hid Hst]; [|by apply wp_bind, wp_modify, wp_ret|done].
  apply wp_bind, wp_modify, wp_ret. split; [done|]. unfold stats in *. simpl in *. congruence.
Qed.

Section metered.
Context {Reg : Type} `{!Prometheus Reg}.

Definition NewNodeMetrics : option Reg := register_each node_families.

(** ** The handlers with their counters *)

(** The update after an operation; nothing is counted when the process dies. *)
Definition counted {A} (reg : option Reg) (a : A) : metered (A * Reg) :=
  match reg with Some reg => MDone (a, reg) | None => MPanic end.

Definition Replicate_m (shardID : string) (now : Z) (req : ReplicateRequest) (s : node * Reg)
    : metered (node * Reg) :=
  let '(o, x') := Replicate now req (fst s) in
  match o with
  | Crashed => MCrashed
  | _ => counted (Inc "doki_replications_total"
           [shardID; replication_label (rqTerm req) (rqVersion req) (fst (fst s)) (returned o)] (snd s)) x'
  end.

(** A body that does not decode is not counted. *)
Definition handleReplicate_m (shardID : string) (now : Z) (body : option HttpReplicateRequest) (s : node * Reg)
    : metered (node * Reg) :=
  let '(o, x') := handleReplicate now body (fst s) in
  match o, body with
  | Crashed, _ => MCrashed
  | _, None => MDone (x', snd s)
  | _, Some req => counted (Inc "doki_replications_total"
      [shardID; replication_label (hrTerm req) (hrVersion req) (fst (fst s)) (returned o)] (snd s)) x'
  end.

(** The part of the write handlers around [leaderWrite], which observes how long
    it took. *)
Definition write_m (shardID : string) (now elapsed : Z) (env : write_env) (req : KVRequest) (c : cluster)
    (s : node * Reg) : metered (node * Reg) :=
  let '(o, (x', _)) := leaderWrite now env req (fst s, c) in
  let observed := Observe "doki_write_duration_seconds" [rShardID (fst (fst s))] elapsed (snd s) in
  match o with
  | Crashed => MCrashed
  | Ret _ => counted (observed ≫= Inc "doki_writes_total" [shardID; "ok"]) x'
  | Err (WGuard errShardMapStale) => counted observed x'
  | Err _ => counted (observed ≫= Inc "doki_writes_total" [shardID; "quorum_unavailable"]) x'
  end.

(** gRPC [handleWrite]: only a write that was tried is counted. *)
Definition handleWrite_m (shardID : string) (now elapsed : Z) (env : write_env) (req : KVRequest) (c : cluster)
    (s : node * Reg) : metered (node * Reg) :=
  match ensureLeaderReady (fst (fst s)) with
  | Fail _ => MDone s
  | Ok _ => write_m shardID now elapsed env req c s
  end.

(** Over HTTP a request to a replica that does not lead is counted too, whatever
    its body. *)
Definition handleKV_m (shardID : string) (now elapsed : Z) (env : write_env) (body : option KVRequest) (c : cluster)
    (s : node * Reg) : metered (node * Reg) :=
  match ensureLeaderReady (fst (fst s)) with
  | Fail errNotLeader => counted (Inc "doki_writes_total" [shardID; "not_leader"] (snd s)) (fst s)
  | Fail _ => MDone s
  | Ok _ =>
      match body with
      | None => MDone s
      | Some req =>
          if decide (kqOp req = "get") then MDone s
          else if decide (kqOp req = "put" \/ kqOp req = "delete") then write_m shardID now elapsed env req c s
          else MDone s
      end
  end.

(** The end of [startElection]. *)
Definition startElection_end_m (shardID : string) (now term : Z) (peers : list string) (t : tally_result)
    (s : node * Reg) : metered (node * Reg) :=
  let '(res, r') := startElection_end now term peers t (fst (fst s)) in
  let x' := (r', snd (fst s)) in
  match res with
  | ElectionAborted => MDone (x', snd s)
  | ElectionLost => counted (Inc "doki_elections_total" [shardID; "lost"] (snd s)) x'
  | ElectionWon => counted (Inc "doki_elections_total" [shardID; "won"] (snd s)) x'
  end.

(** One peer in a tick of [runLeaderHeartbeat]. *)
Definition heartbeat_reply_m (shardID : string) (now sent : Z) (peerID : string) (peerTerm : Z) (s : node * Reg)
    : metered (node * Reg) :=
  let x' := (heartbeat_reply now sent peerID peerTerm (fst (fst s)), snd (fst s)) in
  let sent_reg := Inc "doki_leader_heartbeats_sent_total" [shardID] (snd s) in
  if peerTerm =? 0 then counted (sent_reg ≫= Inc "doki_leader_heartbeats_missed_total" [shardID]) x'
  else if sent <? peerTerm then counted (sent_reg ≫= Inc "doki_elections_total" [shardID; "stepped_down"]) x'
  else counted sent_reg x'.

(** A tick of [runRecoveryLoop]. *)
Definition recovery_tick_m (shardID leaderAddr : string) (rpc : string -> string -> Z -> option RecoverResponse)
    (s : node * Reg) : metered (node * Reg) :=
  match recovery_tick leaderAddr rpc (fst s) with
  | (Crashed, _) => MCrashed
  | (Ret (Some kind), x') => counted (Inc "doki_recoveries_total" [shardID; recovery_label kind] (snd s)) x'
  | (_, x') => MDone (x', snd s)
  end.

(** The handlers and steps that count nothing. *)
Definition uncounted (f : ReplicaState -> ReplicaState) (s : node * Reg) : metered (node * Reg) :=
  MDone ((f (fst (fst s)), snd (fst s)), snd s).

(** [refreshReplicaMetrics], over the replicas in the order of the map. *)
Definition refresh_one (nodeID : string) (now : Z) (r : ReplicaState) (reg : Reg) : option Reg :=
  let lvs := [rShardID r; nodeID] in
  reg ← GaugeSet "doki_replica_version" lvs (rVersion r) reg;
  reg ← GaugeSet "doki_replica_term" lvs (rTerm r) reg;
  reg ← GaugeSet "doki_replica_is_leader" lvs (if decide (rRole r = RoleLeader) then 1 else 0) reg;
  if time_IsZero (rLastLeaderContact r) then Some reg
  else GaugeSet "doki_last_leader_contact_seconds" lvs (time_Sub now (rLastLeaderContact r)) reg.

Definition refreshReplicaMetrics (rorder : gmap string ReplicaState -> list (string * ReplicaState)) (now : Z)
    (s : Server) (reg : Reg) : option Reg :=
  foldl (fun o p => o ≫= refresh_one (svNodeID s) now p.2) (Some reg) (rorder (svReplicas s)).

Definition run_replica_op (shardID : string) (op : replica_op) (s : node * Reg) : metered (node * Reg) :=
  match op with
  | OpReplicate now req => Replicate_m shardID now req s
  | OpHttpReplicate now body => handleReplicate_m shardID now body s
  | OpWrite now elapsed env req others => handleWrite_m shardID now elapsed env req others s
  | OpKV now elapsed env body others => handleKV_m shardID now elapsed env body others s
  | OpVote now req => uncounted (fun r => (RequestVote now req r).2) s
  | OpLeaderHeartbeat now req => uncounted (fun r => (LeaderHeartbeat now req r).2) s
  | OpForceRecover now => uncounted (ForceRecover now) s
  | OpElectionBegin now => uncounted (fun r => match startElection_begin now r with Some (_, r') => r' | None => r end) s
  | OpElectionEnd now term peers t => startElection_end_m shardID now term peers t s
  | OpHeartbeatReply now sent peerID peerTerm => heartbeat_reply_m shardID now sent peerID peerTerm s
  | OpRecovery leaderAddr rpc => recovery_tick_m shardID leaderAddr rpc s
  end.

Fixpoint run_replica_ops (shardID : string) (ops : list replica_op) (s : node * Reg) : metered (node * Reg) :=
  match ops with
  | [] => MDone s
  | op :: ops' =>
      match run_replica_op shardID op s with
      | MDone s' => run_replica_ops shardID ops' s'
      | MPanic => MPanic
      | MCrashed => MCrashed
      end
  end.

Context `{!PrometheusLaws Reg}.

Lemma NewNodeMetrics_registers :
  exists reg, NewNodeMetrics = Some reg /\ registered node_families reg /\ forall n lvs, value n lvs reg = 0.
Proof. apply register_registers; [apply (bool_decide_eq_true_1 _)|]; by vm_compute. Qed.

(** ** The counters and the replica *)

(** The events move the statistics of the status page from [st] to [st']. *)
Definition stats_agree (shardID : string) (ev : list event) (st st' : Stats) : Prop :=
  up_i64 (staElections st) (occ ("doki_elections_total", [shardID; "won"]) ev + occ ("doki_elections_total", [shardID; "lost"]) ev)
    (staElections st') /\
  up_i64 (staRecoveries st) (occ ("doki_recoveries_total", [shardID; "incremental"]) ev + occ ("doki_recoveries_total", [shardID; "snapshot"]) ev)
    (staRecoveries st') /\
  up_i64 (staWrites st) (occ ("doki_writes_total", [shardID; "ok"]) ev) (staWrites st').

(** The events that move the version. *)
Definition applied (shardID : string) (ev : list event) : Z :=
  occ ("doki_replications_total", [shardID; "apply_ok"]) ev + occ ("doki_writes_total", [shardID; "ok"]) ev.

(** [m], started in [s], counts what it does; [recovers] allows the version to
    move otherwise. *)
Definition op_accounts (shardID : string) (recovers : bool) (s : node * Reg) (m : metered (node * Reg)) : Prop :=
  match m with
  | MPanic => False
  | MCrashed => True
  | MDone s' => exists ev, counts node_families (snd s) ev (snd s') /\ rShardID (fst (fst s')) = rShardID (fst (fst s)) /\
      stats_agree shardID ev (stats (fst (fst s))) (stats (fst (fst s'))) /\
      (recovers = false -> up_u64 (rVersion (fst (fst s))) (applied shardID ev) (rVersion (fst (fst s'))))
  end.

Lemma stats_agree_nil shardID ev st st' :
  staElections st' = staElections st -> staRecoveries st' = staRecoveries st -> staWrites st' = staWrites st ->
  occ ("doki_elections_total", [shardID; "won"]) ev = 0 -> occ ("doki_elections_total", [shardID; "lost"]) ev = 0 ->
  occ ("doki_recoveries_total", [shardID; "incremental"]) ev = 0 -> occ ("doki_recoveries_total", [shardID; "snapshot"]) ev = 0 ->
  occ ("doki_writes_total", [shardID; "ok"]) ev = 0 -> stats_agree shardID ev st st'.
Proof.
  intros He Hr Hw H1 H2 H3 H4 H5. unfold stats_agree. rewrite He, Hr, Hw, H1, H2, H3, H4, H5. split_and!; apply up_i64_same.
Qed.

Lemma op_accounts_ret shardID recovers x reg x' :
  registered node_families reg -> post (fst x') = post (fst x) -> rVersion (fst x') = rVersion (fst x) ->
  op_accounts shardID recovers (x, reg) (MDone (x', reg)).
Proof.
  intros Hreg Hp Hv. exists []. cbn [fst snd]. destruct (post_inv _ _ Hp) as [Hid Hst].
  split_and!; [by apply counts_nil|done|rewrite Hst; by apply stats_agree_nil|].
  intros _. rewrite Hv. apply up_u64_same.
Qed.

Section shard.
Context (shardID : string) (Hutf8 : utf8_str shardID).

Lemma labels_utf8 lvs : Forall utf8_str lvs -> Forall utf8_str (shardID :: lvs).
Proof. by constructor. Qed.

Lemma replication_label_utf8 term version r ok : utf8_str (replication_label term version r ok).
Proof. unfold replication_label. repeat case_match; utf8_ascii. Qed.

(** One counter of the shard is incremented. *)
Lemma inc_node name lvs reg :
  registered node_families reg -> family node_families Counter name (S (length lvs)) = true -> Forall utf8_str lvs ->
  exists reg', Inc name (shardID :: lvs) reg = Some reg' /\ counts node_families reg [(name, shardID :: lvs)] reg'.
Proof. intros. by apply inc_counts; [..|apply labels_utf8]. Qed.

Lemma replication_accounts term version ok x x' reg :
  registered node_families reg -> post (fst x') = post (fst x) -> replication_moves term version (fst x) ok (fst x') ->
  op_accounts shardID false (x, reg)
    (counted (Inc "doki_replications_total" [shardID; replication_label term version (fst x) ok] reg) x').
Proof.
  intros Hreg Hp Hv.
  destruct (inc_node "doki_replications_total" [replication_label term version (fst x) ok] reg) as (reg' & -> & Hc);
    [done|done|repeat constructor; apply replication_label_utf8|].
  eexists. split; [exact Hc|]. cbn [fst snd]. destruct (post_inv _ _ Hp) as [Hid Hst].
  split; [done|]. split; [rewrite Hst; apply stats_agree_nil; done || occs|]. intros _.
  unfold replication_moves in Hv. rewrite Hv. unfold applied. cbn [occ]. intros Hu.
  destruct (decide (replication_label _ _ _ _ = "apply_ok")) as [->|Hne].
  - rewrite decide_True by done. rewrite decide_False by congruence. done.
  - rewrite !decide_False by congruence. by apply up_u64_same.
Qed.

Lemma Replicate_m_accounts now req s :
  registered node_families (snd s) -> op_accounts shardID false s (Replicate_m shardID now req s).
Proof.
  destruct s as [[r W] reg]. cbn [snd]. intros Hreg. unfold Replicate_m. cbn [fst snd].
  pose proof (kept_Replicate _ (post_kept (post r)) now req (r, W) eq_refl) as Hp. unfold kept in Hp.
  pose proof (Replicate_moves now req r W) as Hm. destruct (Replicate now req (r, W)) as [o [r' W']].
  destruct o; [..|done]; by apply replication_accounts.
Qed.

Lemma handleReplicate_m_accounts now body s :
  registered node_families (snd s) -> op_accounts shardID false s (handleReplicate_m shardID now body s).
Proof.
  destruct s as [[r W] reg]. cbn [snd]. intros Hreg. unfold handleReplicate_m. cbn [fst snd].
  destruct body as [req|]; [|by apply op_accounts_ret].
  pose proof (kept_handleReplicate _ (post_kept (post r)) now (Some req) (r, W) eq_refl) as Hp. unfold kept in Hp.
  pose proof (handleReplicate_moves now req r W) as Hm. destruct (handleReplicate now (Some req) (r, W)) as [o [r' W']].
  destruct o; [..|done]; by apply replication_accounts.
Qed.

Lemma write_ok_accounts x x' reg reg' :
  post (fst x') = post (count_write (fst x)) -> rVersion (fst x') = u64_succ (rVersion (fst x)) ->
  counts node_families reg [("doki_writes_total", [shardID; "ok"])] reg' ->
  op_accounts shardID false (x, reg) (MDone (x', reg')).
Proof.
  intros Hp Hv Hc. destruct (post_inv _ _ Hp) as [Hid Hst]. eexists. split; [exact Hc|]. cbn [fst snd]. split; [done|].
  rewrite Hst, Hv. unfold stats_agree, applied. cbn [occ]. split; [|intros _].
  - split_and!; [rewrite !decide_False by congruence; apply up_i64_same..|]. rewrite decide_True by done. by intros _.
  - rewrite decide_False by congruence. rewrite decide_True by done. by intros _.
Qed.

Lemma write_refused_accounts e x x' reg ev reg' :
  write_stats (A := unit) (fst x) (Err e) (fst x') -> rVersion (fst x') = rVersion (fst x) ->
  ev = [] \/ ev = [("doki_writes_total", [shardID; "quorum_unavailable"])] -> counts node_families reg ev reg' ->
  op_accounts shardID false (x, reg) (MDone (x', reg')).
Proof.
  intros Hst Hv Hev Hc. exists ev. split; [exact Hc|]. cbn [fst snd].
  assert (Hz : forall k, k <> ("doki_writes_total", [shardID; "quorum_unavailable"]) -> occ k ev = 0)
    by (intros k Hk; destruct Hev as [->| ->]; occs).
  unfold write_stats, post, seat, stats in *. split_and!; [destruct e; simpl in *; congruence| |].
  - apply stats_agree_nil; try (apply Hz; congruence); destruct e; simpl in *; congruence.
  - intros _. rewrite Hv. unfold applied. rewrite !Hz by congruence. apply up_u64_same.
Qed.

(** A write that was tried: observed, and counted unless the map was stale. *)
Lemma write_m_accounts now elapsed env req c s :
  registered node_families (snd s) -> rShardID (fst (fst s)) = shardID ->
  op_accounts shardID false s (write_m shardID now elapsed env req c s).
Proof.
  destruct s as [[r W] reg]. cbn [fst snd]. intros Hreg Hid. unfold write_m. cbn [fst snd]. rewrite Hid.
  pose proof (leaderWrite_effect now env req r W c) as He. pose proof (leaderWrite_stats now env req r W c) as Hst.
  unfold wp in He, Hst. destruct (leaderWrite now env req (r, W, c)) as [o [[r' W'] c']]. cbn [fst] in He, Hst.
  destruct (observe_counts node_families "doki_write_duration_seconds" [shardID] elapsed reg) as (reg1 & -> & Hc1);
    [done|done|by apply labels_utf8|]. cbn [mbind option_bind]. destruct o as [res|e|]; [|..|done].
  - destruct (inc_node "doki_writes_total" ["ok"] reg1 (proj1 Hc1) eq_refl) as (reg2 & -> & Hc2); [repeat constructor; utf8_ascii|].
    apply write_ok_accounts; [done|apply He|exact (counts_app _ _ _ _ _ _ Hc1 Hc2)].
  - destruct (inc_node "doki_writes_total" ["quorum_unavailable"] reg1 (proj1 Hc1) eq_refl) as (reg2 & -> & Hc2);
      [repeat constructor; utf8_ascii|]. pose proof (counts_app _ _ _ _ _ _ Hc1 Hc2) as Hc.
    assert (Hv : rVersion r' = rVersion r) by apply He.
    pose proof (write_refused_accounts e (r, W) (r', W') reg [] reg1 Hst Hv (or_introl eq_refl) Hc1) as Hstale.
    pose proof (write_refused_accounts e (r, W) (r', W') reg _ reg2 Hst Hv (or_intror eq_refl) Hc) as Hquorum.
    by destruct e as [[]| | |].
Qed.

Lemma handleWrite_m_accounts now elapsed env req c s :
  registered node_families (snd s) -> rShardID (fst (fst s)) = shardID ->
  op_accounts shardID false s (handleWrite_m shardID now elapsed env req c s).
Proof.
  intros Hreg Hid. unfold handleWrite_m. destruct (ensureLeaderReady _); [by apply write_m_accounts|].
  destruct s. by apply op_accounts_ret.
Qed.

Lemma handleKV_m_accounts now elapsed env body c s :
  registered node_families (snd s) -> rShardID (fst (fst s)) = shardID ->
  op_accounts shardID false s (handleKV_m shardID now elapsed env body c s).
Proof.
  intros Hreg Hid. assert (Hret : op_accounts shardID false s (MDone s)) by (destruct s; by apply op_accounts_ret).
  unfold handleKV_m. destruct (ensureLeaderReady _) as [|[]]; [|..|done|done].
  - destruct body as [req|]; [|done]. case_decide; [done|]. case_decide; [by apply write_m_accounts|done].
  - destruct s as [x reg]. cbn [fst snd] in *. destruct (inc_node "doki_writes_total" ["not_leader"] reg Hreg eq_refl) as (reg1 & -> & Hc);
      [repeat constructor; utf8_ascii|].
    eexists. split; [exact Hc|]. split; [done|]. split; [apply stats_agree_nil; done || occs|].
    intros _. unfold applied. cbn [occ fst snd]. rewrite !decide_False by congruence. apply up_u64_same.
Qed.

(** An increment the statistics and the version do not count. *)
Lemma other_accounts reg ev reg' x x' :
  counts node_families reg ev reg' -> post (fst x') = post (fst x) -> rVersion (fst x') = rVersion (fst x) ->
  Forall (fun k => k.1 = "doki_leader_heartbeats_sent_total" \/ k.1 = "doki_leader_heartbeats_missed_total" \/
                   k = ("doki_elections_total", [shardID; "stepped_down"])) ev ->
  op_accounts shardID false (x, reg) (MDone (x', reg')).
Proof.
  intros Hc Hp Hv Hev. exists ev. split; [exact Hc|]. cbn [fst snd]. destruct (post_inv _ _ Hp) as [Hid Hst].
  assert (Hz : forall n l, n <> "doki_leader_heartbeats_sent_total" -> n <> "doki_leader_heartbeats_missed_total" ->
    (n, l) <> ("doki_elections_total", [shardID; "stepped_down"]) -> occ (n, l) ev = 0).
  { intros n l H1 H2 H3. clear Hc. induction Hev as [|[k lk] ev Hk Hev IH]; [done|]. cbn [occ].
    rewrite IH, decide_False; [done|]. intros [= -> ->]. naive_solver. }
  split; [done|]. rewrite Hst, Hv. split; [apply stats_agree_nil; try done; apply Hz; congruence|].
  intros _. unfold applied. rewrite !Hz by congruence. apply up_u64_same.
Qed.

Lemma heartbeat_m_accounts now sent p t s :
  registered node_families (snd s) -> op_accounts shardID false s (heartbeat_reply_m shardID now sent p t s).
Proof.
  destruct s as [[r W] reg]. cbn [fst snd]. intros Hreg. unfold heartbeat_reply_m. cbn [fst snd].
  assert (Hv : rVersion (heartbeat_reply now sent p t r) = rVersion r)
    by (unfold heartbeat_reply; destruct (t =? 0), (sent <? t), (rTerm r <? t); try case_decide; done).
  pose proof (heartbeat_reply_post now sent p t r) as Hp. set (x' := (heartbeat_reply now sent p t r, W)).
  destruct (inc_node "doki_leader_heartbeats_sent_total" [] reg Hreg eq_refl) as (reg1 & -> & Hc1); [done|].
  cbn [mbind option_bind].
  destruct (inc_node "doki_leader_heartbeats_missed_total" [] reg1 (proj1 Hc1) eq_refl) as (reg2 & -> & Hc2); [done|].
  destruct (inc_node "doki_elections_total" ["stepped_down"] reg1 (proj1 Hc1) eq_refl) as (reg3 & -> & Hc3);
    [repeat constructor; utf8_ascii|].
  destruct (t =? 0); [|destruct (sent <? t)].
  - eapply other_accounts; [exact (counts_app _ _ _ _ _ _ Hc1 Hc2)|done|done|rewrite ?Forall_app, !Forall_cons, Forall_nil; simpl; tauto].
  - eapply other_accounts; [exact (counts_app _ _ _ _ _ _ Hc1 Hc3)|done|done|rewrite ?Forall_app, !Forall_cons, Forall_nil; simpl; tauto].
  - eapply other_accounts; [exact Hc1|done|done|rewrite ?Forall_app, !Forall_cons, Forall_nil; simpl; tauto].
Qed.

Lemma election_m_accounts now term peers t s :
  registered node_families (snd s) -> op_accounts shardID false s (startElection_end_m shardID now term peers t s).
Proof.
  destruct s as [[r W] reg]. cbn [fst snd]. intros Hreg. unfold startElection_end_m. cbn [fst snd].
  destruct (startElection_end now term peers t r) as [res r'] eqn:He. pose proof (startElection_end_version _ _ _ _ _ _ _ He) as Hv.
  assert (Hst : post r' = post match res with ElectionAborted => r | _ => r <| rElectionCount ::= fun n => wrap_int64 (n + 1) |> end)
    by (revert He; unfold startElection_end; destruct t as [h|votes]; [destruct (_ <? _); by intros [= <- <-]|];
        case_decide; [by intros [= <- <-]|]; destruct (_ <? _); by intros [= <- <-]).
  assert (Hcount : forall label, label = "won" \/ label = "lost" ->
    post r' = post (r <| rElectionCount ::= fun n => wrap_int64 (n + 1) |>) ->
    op_accounts shardID false (r, W, reg) (counted (Inc "doki_elections_total" [shardID; label] reg) (r', W))).
  { intros label Hl Hp. destruct (post_inv _ _ Hp) as [Hid Hs].
    destruct (inc_node "doki_elections_total" [label] reg Hreg eq_refl) as (reg1 & -> & Hc);
      [destruct Hl as [->| ->]; repeat constructor; utf8_ascii|].
    eexists. split; [exact Hc|]. cbn [fst snd]. split; [done|]. rewrite Hs, Hv. unfold stats_agree, applied. cbn [occ]. split.
    - rewrite (decide_False (P := _ = (_, [shardID; "incremental"]))), (decide_False (P := _ = (_, [shardID; "snapshot"]))),
        (decide_False (P := _ = (_, [shardID; "ok"]))) by congruence.
      split_and!; [|apply up_i64_same..]. destruct Hl as [->| ->].
      + rewrite decide_True, decide_False by congruence. by intros _.
      + rewrite decide_False, decide_True by congruence. by intros _.
    - intros _. rewrite !decide_False by congruence. apply up_u64_same. }
  destruct res; [by apply op_accounts_ret|apply Hcount; auto..].
Qed.

Lemma recovery_m_accounts addr rpc s :
  registered node_families (snd s) -> op_accounts shardID true s (recovery_tick_m shardID addr rpc s).
Proof.
  destruct s as [[r W] reg]. cbn [fst snd]. intros Hreg. unfold recovery_tick_m. cbn [fst snd].
  pose proof (recovery_tick_stats addr rpc r W) as Hst. unfold wp in Hst.
  destruct (recovery_tick addr rpc (r, W)) as [o [r' W']]. destruct Hst as [Hid Hst]. cbn [fst] in Hid, Hst.
  assert (Hnone : stats r' = stats r -> op_accounts shardID true (r, W, reg) (MDone (r', W', reg))).
  { intros Hs. exists []. cbn [fst snd]. rewrite Hs. split_and!; [by apply counts_nil|done|by apply stats_agree_nil|done]. }
  destruct o as [[kind|]|e|]; [|by apply Hnone..|done].
  destruct (inc_node "doki_recoveries_total" [recovery_label kind] reg Hreg eq_refl) as (reg1 & -> & Hc);
    [destruct kind; repeat constructor; utf8_ascii|].
  eexists. split; [exact Hc|]. cbn [fst snd]. split; [done|]. split; [|done]. rewrite Hst. unfold stats_agree. cbn [occ].
  rewrite (decide_False (P := _ = (_, [shardID; "won"]))), (decide_False (P := _ = (_, [shardID; "lost"]))),
    (decide_False (P := _ = (_, [shardID; "ok"]))) by congruence. split_and!; [apply up_i64_same| |apply up_i64_same].
  destruct kind; cbn [recovery_label].
  - rewrite decide_True, decide_False by congruence. by intros _.
  - rewrite decide_False, decide_True by congruence. by intros _.
Qed.

Lemma op_accounted op s :
  registered node_families (snd s) -> rShardID (fst (fst s)) = shardID ->
  op_accounts shardID (is_recovery op) s (run_replica_op shardID op s).
Proof.
  intros Hreg Hid. destruct op; cbn [run_replica_op is_recovery].
  - by apply Replicate_m_accounts.
  - by apply handleReplicate_m_accounts.
  - by apply handleWrite_m_accounts.
  - by apply handleKV_m_accounts.
  - destruct s as [[r W] reg]. apply op_accounts_ret; [done|apply RequestVote_post|].
    cbn [fst]. unfold RequestVote. by repeat (case_match || case_decide); simplify_eq.
  - destruct s as [[r W] reg]. apply op_accounts_ret; [done|apply LeaderHeartbeat_post|].
    cbn [fst]. unfold LeaderHeartbeat. destruct (_ <? _); [done|]. by destruct (adopt_term_data (hqTerm req) r) as [[Hv _] _].
  - destruct s as [[r W] reg]. by apply op_accounts_ret.
  - destruct s as [[r W] reg]. unfold uncounted. cbn [fst snd]. destruct (startElection_begin now r) as [[q r']|] eqn:Hb; [|by apply op_accounts_ret].
    apply op_accounts_ret; [done|by eapply startElection_begin_post|].
    revert Hb. unfold startElection_begin. case_decide; [done|]. by intros [= <- <-].
  - by apply election_m_accounts.
  - by apply heartbeat_m_accounts.
  - by apply recovery_m_accounts.
Qed.

Lemma stats_agree_trans ev ev' st st1 st2 :
  stats_agree shardID ev st st1 -> stats_agree shardID ev' st1 st2 -> stats_agree shardID (ev ++ ev') st st2.
Proof.
  intros (He & Hr & Hw) (He' & Hr' & Hw'). unfold stats_agree. rewrite !occ_app. split_and!.
  - pose proof (up_i64_trans _ _ _ _ _ He He') as H. intros Hi. rewrite (H Hi). f_equal. lia.
  - pose proof (up_i64_trans _ _ _ _ _ Hr Hr') as H. intros Hi. rewrite (H Hi). f_equal. lia.
  - exact (up_i64_trans _ _ _ _ _ Hw Hw').
Qed.

Lemma ops_accounted ops s :
  registered node_families (snd s) -> rShardID (fst (fst s)) = shardID ->
  op_accounts shardID (existsb is_recovery ops) s (run_replica_ops shardID ops s).
Proof.
  revert s. induction ops as [|op ops IH]; intros s Hreg Hid; cbn [run_replica_ops existsb]; [destruct s; by apply op_accounts_ret|].
  pose proof (op_accounted op s Hreg Hid) as Hop. destruct (run_replica_op shardID op s) as [s1| |]; [|done|done].
  destruct Hop as (ev & Hc & Hid1 & Hst & Hv). specialize (IH s1 (proj1 Hc) (eq_trans Hid1 Hid)).
  destruct (run_replica_ops shardID ops s1) as [s2| |]; [|done|done]. destruct IH as (ev' & Hc' & Hid2 & Hst' & Hv').
  exists (ev ++ ev'). split_and!; [by eapply counts_app|congruence|by eapply stats_agree_trans|].
  intros [Hr Hr']%orb_false_iff. pose proof (up_u64_trans _ _ _ _ _ (Hv Hr) (Hv' Hr')) as H. intros Hu. rewrite (H Hu).
  f_equal. unfold applied. rewrite !occ_app. lia.
Qed.

(** C37: The counters account for the replica.  Take a node that has just created
    its metrics and let a replica do anything it does, in any order: replication,
    reads and writes over gRPC and HTTP, votes, elections, heartbeats and
    recoveries, with failing disks and any network.  No update of a metric
    panics, and as long as the process lives the elections, recoveries and writes
    the status page reports are those the counters show.  Unless the replica
    recovers, its version has grown by exactly the entries counted as applied by
    replication and by writes. *)
Theorem counters_account_for_replica ops x :
  rShardID (fst x) = shardID -> int64 (rElectionCount (fst x)) -> int64 (rRecoveryCount (fst x)) ->
  int64 (rWriteOpsTotal (fst x)) -> u64 (rVersion (fst x)) ->
  exists reg, NewNodeMetrics = Some reg /\
    match run_replica_ops shardID ops (x, reg) with
    | MPanic => False
    | MCrashed => True
    | MDone (x', reg') =>
        let count name label := value name [shardID; label] reg' in
        rElectionCount (fst x') =
          wrap_int64 (rElectionCount (fst x) + (count "doki_elections_total" "won" + count "doki_elections_total" "lost")) /\
        rRecoveryCount (fst x') =
          wrap_int64 (rRecoveryCount (fst x) + (count "doki_recoveries_total" "incremental" + count "doki_recoveries_total" "snapshot")) /\
        rWriteOpsTotal (fst x') = wrap_int64 (rWriteOpsTotal (fst x) + count "doki_writes_total" "ok") /\
        (existsb is_recovery ops = false ->
           rVersion (fst x') =
             wrap64 (rVersion (fst x) + (count "doki_replications_total" "apply_ok" + count "doki_writes_total" "ok")))
    end.
Proof.
  intros Hid H1 H2 H3 H4. destruct NewNodeMetrics_registers as (reg & Heq & Hreg & Hz).
  exists reg. split; [done|]. pose proof (ops_accounted ops (x, reg) Hreg Hid) as Hrun.
  destruct (run_replica_ops shardID ops (x, reg)) as [[x' reg']| |]; [|done|done].
  destruct Hrun as (ev & [_ Hc] & _ & (He & Hr & Hw) & Hv). cbn [fst snd] in *.
  rewrite !(Hc _ 2%nat) by done. rewrite !Hz. cbv zeta. rewrite !Z.add_0_l.
  split_and!; [exact (He H1)|exact (Hr H2)|exact (Hw H3)|]. intros Hno. exact (Hv Hno H4).
Qed.
End shard.

(** What the gauges of a replica show. *)
Definition shows (nodeID : string) (r : ReplicaState) (reg : Reg) : Prop :=
  let lvs := [rShardID r; nodeID] in
  value "doki_replica_version" lvs reg = rVersion r /\ value "doki_replica_term" lvs reg = rTerm r /\
  value "doki_replica_is_leader" lvs reg = (if decide (rRole r = RoleLeader) then 1 else 0).

Lemma refresh_one_spec nodeID now r reg :
  utf8_str nodeID -> utf8_str (rShardID r) -> registered node_families reg ->
  exists reg', refresh_one nodeID now r reg = Some reg' /\ registered node_families reg' /\ shows nodeID r reg' /\
    forall name lvs, lvs <> [rShardID r; nodeID] -> value name lvs reg' = value name lvs reg.
Proof.
  intros Hn Hs Hreg. unfold refresh_one. set (lvs := [rShardID r; nodeID]).
  assert (Hu : Forall utf8_str lvs) by by repeat constructor.
  destruct (set_registered node_families "doki_replica_version" lvs (rVersion r) reg Hreg eq_refl Hu) as (reg1 & -> & Hreg1 & _ & Hv1 & Hk1).
  cbn [mbind option_bind].
  destruct (set_registered node_families "doki_replica_term" lvs (rTerm r) reg1 Hreg1 eq_refl Hu) as (reg2 & -> & Hreg2 & _ & Hv2 & Hk2).
  cbn [mbind option_bind].
  destruct (set_registered node_families "doki_replica_is_leader" lvs (if decide (rRole r = RoleLeader) then 1 else 0) reg2 Hreg2 eq_refl Hu)
    as (reg3 & -> & Hreg3 & _ & Hv3 & Hk3).
  cbn [mbind option_bind].
  assert (Hshow : shows nodeID r reg3).
  { unfold shows. fold lvs. rewrite Hv3, !Hk3, Hv2, Hk2, Hv1 by congruence. done. }
  destruct (time_IsZero (rLastLeaderContact r)).
  - exists reg3. split_and!; [done|done|done|]. intros name l Hl. rewrite Hk3, Hk2, Hk1 by congruence. done.
  - destruct (set_registered node_families "doki_last_leader_contact_seconds" lvs (time_Sub now (rLastLeaderContact r)) reg3 Hreg3 eq_refl Hu)
      as (reg4 & -> & Hreg4 & _ & Hv4 & Hk4).
    exists reg4. split_and!; [done|done| |].
    + destruct Hshow as (Hs1 & Hs2 & Hs3). unfold shows. fold lvs. fold lvs in Hs1, Hs2, Hs3. rewrite !Hk4 by congruence. done.
    + intros name l Hl. rewrite Hk4, Hk3, Hk2, Hk1 by congruence. done.
Qed.

Lemma refresh_all nodeID0 now l reg :
  utf8_str nodeID0 -> (forall p : string * ReplicaState, p ∈ l -> utf8_str p.1) -> registered node_families reg -> NoDup l.*1 -> (forall p, p ∈ l -> rShardID p.2 = p.1) ->
  exists reg', foldl (fun o p => o ≫= refresh_one nodeID0 now p.2) (Some reg) l = Some reg' /\ registered node_families reg' /\
    (forall p : string * ReplicaState, p ∈ l -> shows nodeID0 p.2 reg') /\
    (forall name id nodeID, id ∉ l.*1 \/ nodeID <> nodeID0 -> value name [id; nodeID] reg' = value name [id; nodeID] reg).
Proof.
  intros Hn Hu Hreg Hnd Hkey. induction l as [|[id r] l IH] using rev_ind.
  { exists reg. split_and!; [done|done|by intros p ?%elem_of_nil|done]. }
  rewrite fmap_app in Hnd. apply NoDup_app in Hnd as (Hnd & Hfresh & _).
  destruct IH as (reg1 & Heq & Hreg1 & Hshow & Hkeep);
    [intros p Hp; apply Hu; set_solver|done|intros p Hp; apply Hkey; set_solver|].
  rewrite foldl_app, Heq. cbn [foldl mbind option_bind snd].
  assert (Hr : rShardID r = id) by (apply (Hkey (id, r)); set_solver).
  destruct (refresh_one_spec nodeID0 now r reg1) as (reg2 & -> & Hreg2 & Hs & Hother);
    [done|rewrite Hr; apply (Hu (id, r)); set_solver|done|]. rewrite Hr in Hother.
  exists reg2. split_and!; [done|done| |].
  - intros p [Hp| ->%list_elem_of_singleton]%elem_of_app; [|done].
    assert (p.1 <> id). { intros Hpe. apply (Hfresh p.1); [by apply list_elem_of_fmap_2|]. rewrite Hpe. set_solver. }
    assert (Hpk : rShardID p.2 = p.1) by (apply Hkey; set_solver).
    destruct (Hshow p Hp) as (Hs1 & Hs2 & Hs3). unfold shows in *. rewrite Hpk in *. rewrite !Hother by congruence. done.
  - intros name id' nodeID Hor. rewrite Hother; [apply Hkeep|].
    + destruct Hor; [left|by right]. set_solver.
    + intros [= -> ->]. destruct Hor as [Hn2|]; [|done]. apply Hn2. rewrite fmap_app. set_solver.
Qed.

(** The tick of the metrics updater does not panic; afterwards the gauges show
    the version, the term and the role of every replica the node hosts, and
    every other label keeps the value it had. *)
Theorem refreshReplicaMetrics_spec rorder now s reg :
  iterates rorder -> utf8_str (svNodeID s) -> (forall id r, svReplicas s !! id = Some r -> utf8_str id) -> registered node_families reg -> (forall id r, svReplicas s !! id = Some r -> rShardID r = id) ->
  exists reg', refreshReplicaMetrics rorder now s reg = Some reg' /\ registered node_families reg' /\
    (forall id r, svReplicas s !! id = Some r -> shows (svNodeID s) r reg') /\
    (forall name id nodeID, svReplicas s !! id = None \/ nodeID <> svNodeID s ->
       value name [id; nodeID] reg' = value name [id; nodeID] reg).
Proof.
  intros Horder Hn Hu Hreg Hid. unfold refreshReplicaMetrics.
  assert (Hall : forall id r, (id, r) ∈ rorder (svReplicas s) <-> svReplicas s !! id = Some r)
    by (intros; by apply iterates_elem).
  assert (Hnd : NoDup (rorder (svReplicas s)).*1) by by apply iterates_NoDup.
  assert (Hkey : forall p, p ∈ rorder (svReplicas s) -> rShardID p.2 = p.1) by (intros [id r] Hp; by apply Hid, Hall).
  assert (Hu' : forall p, p ∈ rorder (svReplicas s) -> utf8_str p.1) by (intros [id r] Hp; by eapply Hu, Hall).
  destruct (refresh_all (svNodeID s) now (rorder (svReplicas s)) reg Hn Hu' Hreg Hnd Hkey) as (reg' & Heq & Hreg' & Hshow & Hkeep).
  exists reg'. split_and!; [done|done|intros id r Hr; by apply (Hshow (id, r)), Hall|].
  intros name id nodeID Hor. apply Hkeep. destruct Hor as [Hnone|]; [left|by right].
  intros ([id' r] & -> & Hin)%list_elem_of_fmap. apply Hall in Hin. simpl in Hnone. congruence.
Qed.

End metered.

(** The handlers that are metered by their guards leave the replica as [handleKV]
    and [handleWrite] do. *)
Lemma metered_writes {Reg} `{!Prometheus Reg} shardID now elapsed env c (s : node * Reg) :
  (forall body x' reg', handleKV_m shardID now elapsed env body c s = MDone (x', reg') ->
     x' = fst (handleKV now env body (fst s, c)).2) /\
  (forall req x' reg', handleWrite_m shardID now elapsed env req c s = MDone (x', reg') ->
     x' = fst (handleWrite now env req (fst s, c)).2).
Proof.
  assert (Hw : forall req x' reg', write_m shardID now elapsed env req c s = MDone (x', reg') ->
    x' = fst (leaderWrite now env req (fst s, c)).2).
  { intros req x' reg'. unfold write_m, counted. destruct (leaderWrite now env req (fst s, c)) as [o [x1 c1]]. cbn [fst snd].
    repeat case_match; congruence. }
  split.
  - intros body x' reg'. unfold handleKV_m, handleKV, counted. cbn [fst snd]. destruct (ensureLeaderReady _) as [|[]].
    + destruct body as [req|]; [|by intros [= ->]]. case_decide; [by intros [= ->]|]. case_decide; [|by intros [= ->]].
      intros Heq%Hw. rewrite Heq. by destruct (leaderWrite now env req (fst s, c)) as [[|[[]| | |]|] [x1 c1]].
    + destruct (Inc _ _ _); [by intros [= ->]|done].
    + by intros [= ->].
    + by intros [= ->].
  - intros req x' reg'. unfold handleWrite_m, handleWrite. cbn [fst]. destruct (ensureLeaderReady _) as [|[]]; [|by intros [= ->]..].
    intros Heq%Hw. rewrite Heq. by destruct (leaderWrite now env req (fst s, c)) as [[|[[]| | |]|] [x1 c1]].
Qed.

(** ** Concrete runs *)

(** A leader writes and reads, gets the next entry from another leader, the same
    again and a stale one, refuses a write, and loses an election. *)
Definition ops_of_leader : list replica_op :=
  [OpWrite 200 5 write_env1 (mkKVRequest "put" "k" "v") write_others;
   OpKV 210 5 write_env1 (Some (mkKVRequest "get" "k" "")) write_others;
   OpReplicate 300 (mkReplicateRequest "s" 1 2 (Some (mkOperation TYPE_PUT "k" "w")));
   OpReplicate 310 (mkReplicateRequest "s" 1 2 (Some (mkOperation TYPE_PUT "k" "w")));
   OpHttpReplicate 320 (Some (mkHttpReplicate 0 3 "put" "k" "x"));
   OpKV 330 5 write_env1 (Some (mkKVRequest "put" "k" "y")) write_others;
   OpElectionBegin 400;
   OpElectionEnd 410 2 ["n2"; "n3"] (TallyVotes 1)].

Lemma counters_account_for_replica_witness :
  exists reg : registry, NewNodeMetrics = Some reg /\
    match run_replica_ops "s" ops_of_leader ((write_leader, healthy ∅), reg) with
    | MPanic => False
    | MCrashed => True
    | MDone (x', reg') =>
        let count name label := value name ["s"; label] reg' in
        rElectionCount (fst x') = wrap_int64 (0 + (count "doki_elections_total" "won" + count "doki_elections_total" "lost")) /\
        rRecoveryCount (fst x') =
          wrap_int64 (0 + (count "doki_recoveries_total" "incremental" + count "doki_recoveries_total" "snapshot")) /\
        rWriteOpsTotal (fst x') = wrap_int64 (0 + count "doki_writes_total" "ok") /\
        (existsb is_recovery ops_of_leader = false ->
           rVersion (fst x') =
             wrap64 (0 + (count "doki_replications_total" "apply_ok" + count "doki_writes_total" "ok")))
    end.
Proof.
  assert (Hs : utf8_str "s") by utf8_ascii.
  apply (counters_account_for_replica "s" Hs ops_of_leader (write_leader, healthy ∅)); by vm_compute.
Defined.

(** What these operations show: one write, one entry applied, one duplicate, one
    stale request, one write refused, one election lost. *)
Lemma ops_of_leader_counts :
  match NewNodeMetrics ≫= fun reg : registry =>
          match run_replica_ops "s" ops_of_leader ((write_leader, healthy ∅), reg) with MDone s => Some s | _ => None end with
  | Some (x', reg') => rVersion (fst x') = 2 /\ rElectionCount (fst x') = 1 /\
      (fun l => value "doki_replications_total" ["s"; l] reg') <$> ["apply_ok"; "duplicate"; "gap"; "stale_term"] = [1; 1; 0; 1] /\
      (fun l => value "doki_writes_total" ["s"; l] reg') <$> ["ok"; "not_leader"] = [1; 1] /\
      value "doki_elections_total" ["s"; "lost"] reg' = 1
  | None => False
  end.
Proof. vm_compute. by split_and!. Qed.

(** A write whose quorum acknowledged it and whose own disk then fails is counted
    as quorum_unavailable; the error count of the status page leaves it out. *)
Definition disk_leader : ReplicaState := write_leader <| rSM := sm2 |>.

Theorem failed_disk_counted_as_quorum :
  match NewNodeMetrics ≫= fun reg : registry =>
          match run_replica_ops "s" [OpWrite 200 5 write_env1 (mkKVRequest "put" "k" "v") write_others]
                  ((disk_leader, mkWorld {["d/wal.jsonl" := []]} [FErr 0]), reg) with MDone s => Some s | _ => None end with
  | Some (x', reg') => value "doki_writes_total" ["s"; "quorum_unavailable"] reg' = 1 /\ rWriteErrTotal (fst x') = 0
  | None => False
  end.
Proof. vm_compute. by split_and!. Qed.

(** A server with a replica that leads, before and after it drops the shard. *)
Definition leading_server : Server :=
  put_replica "s" write_leader (NewServer node_cfg1 0).

(** The gauges of a shard the node no longer hosts are not taken back: the node
    goes on reporting itself as its leader. *)
Theorem dropped_shard_still_led :
  let '(o, (s, _)) := dropShard "s" (leading_server, healthy ∅) in
  o = Ret tt /\ svReplicas s !! "s" = None /\
  ((fun reg : registry => value "doki_replica_is_leader" ["s"; "n1"] reg) <$>
     ((NewNodeMetrics ≫= refreshReplicaMetrics (fun m => map_to_list m) 500 leading_server)
        ≫= refreshReplicaMetrics (fun m => map_to_list m) 700 s)) = Some 1.
Proof. vm_compute. by split_and!. Qed.
