(* ===== verification/Cluster.v ===== *)
(** The whole system: the coordinator (src/coordinator) and the nodes (src/node)
    with their replicas and disks, connected by a network that loses and delays
    what it likes.

    The nodes follow the coordinator's shard map.  Every node is at some version
    the map has had, never ahead of it, and hosts exactly what that version
    assigns to it; a heartbeat exchange brings it up to date; and when a leader
    falls silent, the replica the coordinator appoints takes over with its next
    heartbeat. *)

From stdpp Require Import relations.
From S2P Require Import Prelude Strconv Fs Storage ReplicationLog StateMachine Config Replica Wire Handlers Write Recovery Election Rounds.
From S2P Require Import ShardMap Membership Leader Migration Coordinator Server Node Placement.

(** ** The history of the shard map *)

(** Fewer than 2^64 mutations are counted without wrapping, so the version grows
    and tells the states of the map apart. *)
Definition map_of (ops : list map_op) : ShardMap := foldl map_exec ShardMap_New ops.

Lemma map_of_range ops : Z.of_nat (length ops) < two64 -> 0 <= mapVersion (map_of ops) <= Z.of_nat (length ops).
Proof.
  intros Hlen. destruct (map_exec_versions ops ShardMap_New) as (k & Hk & Hv & _); [unfold u64, two64; simpl; lia|].
  unfold map_of. rewrite Hv. simpl. rewrite wrap64_id by (unfold u64, two64 in *; lia). lia.
Qed.

Lemma map_of_grows ops ops' : Z.of_nat (length (ops ++ ops')) < two64 ->
  mapVersion (map_of ops) <= mapVersion (map_of (ops ++ ops')) /\
  (mapVersion (map_of ops) = mapVersion (map_of (ops ++ ops')) -> map_of (ops ++ ops') = map_of ops).
Proof.
  rewrite length_app. intros Hlen. pose proof (map_of_range ops ltac:(lia)) as H0.
  destruct (map_exec_versions ops' (map_of ops)) as (k & Hk & Hv & Hsame); [unfold u64, two64 in *; lia|].
  unfold map_of in *. rewrite foldl_app. rewrite wrap64_id in Hv by (unfold u64, two64 in *; lia). split; [lia|].
  intros Heq. assert (Hs := Hsame ltac:(lia)). destruct (foldl map_exec (foldl map_exec ShardMap_New ops) ops'), (foldl map_exec ShardMap_New ops).
  simpl in *. congruence.
Qed.

(** ** The cluster *)

(** The coordinator; its mutations of the map so far, which only the proofs look
    at; the nodes that run; the files of those that do not; and the answers the
    coordinator has given to requests for the map. *)
Record Cluster := mkCluster {
  clCo : Coordinator;
  clOps : list map_op;
  clNodes : gmap string (Server * World);
  clDown : gmap string (gmap string bytes);
  clAnswers : list ShardMapResponse;
}.
#[global] Instance Cluster_eta : Eta Cluster := fun C =>
  mkCluster (clCo C) (clOps C) (clNodes C) (clDown C) (clAnswers C).

(** What a node reads of an answer to [GetShardMap]. *)
Definition map_answer (norder : gmap string NodeStatus -> list (string * NodeStatus))
    (sorder : gmap string ShardInfo -> list (string * ShardInfo)) (co : Coordinator) : ShardMapResponse :=
  shardMapResponseFromProto (Some (GetShardMap norder sorder co)).

(** A node after an operation: it goes on, or its process has died and left its
    files. *)
Definition settle {E A} (n : string) (res : outcome E A * (Server * World)) (C : Cluster) : Cluster :=
  match res.1 with
  | Crashed => C <| clNodes ::= delete n |> <| clDown ::= <[n := files res.2.2]> |>
  | _ => C <| clNodes ::= <[n := res.2]> |> <| clDown ::= delete n |>
  end.

(** The replicas of a shard, and the nodes with these replicas. *)
Definition shard_view (id : string) (nodes : gmap string (Server * World)) : cluster :=
  omap (fun x => r ← svReplicas (fst x) !! id; Some (r, snd x)) nodes.

Definition put_view (id : string) (c : cluster) (nodes : gmap string (Server * World)) : gmap string (Server * World) :=
  map_imap (fun n x => Some (match c !! n with Some (r, W) => (put_replica id r (fst x), W) | None => x end)) nodes.

(** A request served by node [n]; its handler may call the replicas of the shard
    on the other nodes.  (A peer whose process dies while it handles such a call
    is left in the state it died in; it may be stopped at any later point.) *)
Definition cluster_serve (now : Z) (order : gmap string string -> list string) (net netRecover : string -> delivery)
    (kvorder : gmap string string -> list (string * string)) (n : string) (req : Request) (C : Cluster) : Cluster :=
  match clNodes C !! n with
  | None => C
  | Some x =>
      let others := delete n (shard_view (request_shard req) (clNodes C)) in
      let '(o, (x', c)) := serve now order net netRecover kvorder req (x, others) in
      settle n (o, x') (C <| clNodes ::= put_view (request_shard req) c |>)
  end.

(** What the election timer and the heartbeats of a leader do to a replica. *)
Inductive replica_step (r : ReplicaState) : ReplicaState -> Prop :=
| rs_tick now : replica_step r (election_tick now r).2
| rs_begin now req r' : startElection_begin now r = Some (req, r') -> replica_step r r'
| rs_end now term peers t : replica_step r (startElection_end now term peers t r).2
| rs_reply now sent p t : replica_step r (heartbeat_reply now sent p t r).

Inductive cstep : Cluster -> Cluster -> Prop :=
| cl_coordinator C co ops :
    co_step (clCo C) co -> coShards co = foldl map_exec (coShards (clCo C)) ops ->
    cstep C (C <| clCo := co |> <| clOps ::= fun l => l ++ ops |>)
| cl_answer C norder sorder :
    iterates norder -> iterates sorder -> cstep C (C <| clAnswers ::= cons (map_answer norder sorder (clCo C)) |>)
| cl_join C n fs : clNodes C !! n = None -> cstep C (C <| clDown ::= <[n := fs]> |>)
| cl_start C n fs cfg now draw sched resp :
    clDown C !! n = Some fs -> nsID (ncNode cfg) = n -> resp ∈ clAnswers C ->
    cstep C (settle n (InitShards now draw resp (NewServer cfg now, mkWorld fs sched)) C)
| cl_serving C n s W now :
    clNodes C !! n = Some (s, W) -> cstep C (C <| clNodes ::= <[n := (startBackgroundJobs now s, W)]> |>)
| cl_refetch C n x rorder horder now draw resp :
    clNodes C !! n = Some x -> iterates rorder -> iterates horder -> resp ∈ clAnswers C ->
    cstep C (settle n (refetchShardMap rorder horder now draw (Some resp) x) C)
| cl_serve C now order net netRecover kvorder n req :
    cstep C (cluster_serve now order net netRecover kvorder n req C)
| cl_recovery C n x id rpc o x' c :
    clNodes C !! n = Some x -> recovery_turn id rpc (x, ∅) = (o, (x', c)) -> cstep C (settle n (o, x') C)
| cl_replica C n s W id r r' :
    clNodes C !! n = Some (s, W) -> svReplicas s !! id = Some r -> replica_step r r' ->
    cstep C (C <| clNodes ::= <[n := (put_replica id r' s, W)]> |>)
| cl_stop C n s W :
    clNodes C !! n = Some (s, W) -> cstep C (C <| clNodes ::= delete n |> <| clDown ::= <[n := files W]> |>).

(** A coordinator started from a valid configuration, and no node yet. *)
Definition fresh_cluster (C : Cluster) : Prop :=
  (exists unmarshal data cfg, ParseClusterConfig unmarshal data = Ok cfg /\
     clCo C = (Coordinator_Init cfg (Coordinator_New cfg)).2) /\
  coShards (clCo C) = map_of (clOps C) /\ clNodes C = ∅ /\ clAnswers C = [].

(** The record of the mutations is no restriction: every configuration has a fresh
    cluster, and every step of the coordinator is one of the cluster. *)
Lemma fresh_cluster_exists unmarshal data cfg :
  ParseClusterConfig unmarshal data = Ok cfg ->
  exists C, fresh_cluster C /\ clCo C = (Coordinator_Init cfg (Coordinator_New cfg)).2.
Proof.
  intros Hp. destruct (Init_evolves (fun _ _ => True) cfg (Coordinator_New cfg)) as (ops & _ & Hops).
  { apply Forall_forall. by right. }
  exists (mkCluster (Coordinator_Init cfg (Coordinator_New cfg)).2 ops ∅ ∅ []). split; [|done]. split; [|done].
  by exists unmarshal, data, cfg.
Qed.

Lemma coordinator_cstep C co : co_step (clCo C) co ->
  exists ops, cstep C (C <| clCo := co |> <| clOps ::= fun l => l ++ ops |>).
Proof. intros Hco. destruct (co_step_evolves _ _ Hco) as (ops & _ & Hops). exists ops. by apply cl_coordinator. Qed.

(** ** What a version of the map assigns to a node *)

Definition placement (n : string) (m : ShardMap) : gmap string Seat :=
  omap (fun sh => if decide (n ∈ shReplicas sh)
                  then Some (mkSeat (shID sh) n (peers_of n (shReplicas sh)) (mapVersion m) "") else None) (mapShards m).

Definition server_seats (s : Server) : gmap string Seat := seat <$> svReplicas s.

(** The answer is a copy of the map, without what the wire does not carry. *)
Definition wire (sh : ShardInfo) : ShardInfo := mkShard (shID sh) (shReplicas sh) (shLeader sh) "" [].

Definition copy_of (m : ShardMap) (resp : ShardMapResponse) : Prop :=
  smrVersion resp = mapVersion m /\ smrShards resp ≡ₚ wire <$> (map_to_list (mapShards m)).*2.

Lemma map_answer_copy norder sorder co : iterates sorder -> copy_of (coShards co) (map_answer norder sorder co).
Proof.
  intros Hs. unfold map_answer, GetShardMap, ShardMap_Snapshot. cbn [shardMapResponseFromProto]. split; [done|].
  cbn [smrShards]. unfold shardInfoFromProto, shardInfoToProto. rewrite <- list_fmap_compose.
  change (fmap ((fun sh => mkShard (pbShardId sh) (pbReplicas sh) (pbLeader sh) "" []) ∘
    (fun sh => mkPbShardInfo (shID sh) (shLeader sh) (shReplicas sh)))) with (fmap wire : list ShardInfo -> list ShardInfo).
  by rewrite (Hs (mapShards (coShards co))).
Qed.

Lemma copy_elem m resp sh : copy_of m resp -> map_filed m ->
  sh ∈ smrShards resp <-> exists sh0, mapShards m !! shID sh = Some sh0 /\ sh = wire sh0.
Proof.
  intros [_ Hp] Hwf. rewrite Hp, list_elem_of_fmap. split.
  - intros (sh0 & -> & Hin). apply list_elem_of_fmap in Hin as ([id sh1] & -> & Hin). apply elem_of_map_to_list in Hin.
    simpl. pose proof (proj2 Hwf _ _ Hin) as Hid. cbn beta in Hid. exists sh1. split; [|done]. simpl. by rewrite Hid.
  - intros (sh0 & Hl & ->). exists sh0. split; [done|]. apply list_elem_of_fmap. exists (shID (wire sh0), sh0).
    split; [done|]. by apply elem_of_map_to_list.
Qed.

Lemma copy_NoDup m resp : copy_of m resp -> map_filed m -> NoDup (shID <$> smrShards resp).
Proof.
  intros [_ Hp] Hwf. rewrite Hp. rewrite <- !list_fmap_compose.
  assert (Heq : (shID ∘ wire ∘ snd) <$> map_to_list (mapShards m) = (map_to_list (mapShards m)).*1).
  { apply list_fmap_ext. intros i [id sh] Hi. simpl. apply list_elem_of_lookup_2, elem_of_map_to_list in Hi.
    exact (proj2 Hwf _ _ Hi). }
  rewrite Heq. apply NoDup_fst_map_to_list.
Qed.

Lemma placement_lookup n m id : map_filed m ->
  placement n m !! id = sh ← mapShards m !! id;
    if decide (n ∈ shReplicas sh) then Some (mkSeat id n (peers_of n (shReplicas sh)) (mapVersion m) "") else None.
Proof.
  intros Hwf. unfold placement. rewrite lookup_omap. destruct (mapShards m !! id) as [sh|] eqn:Hl; [|done]. simpl.
  by rewrite (proj2 Hwf _ _ Hl).
Qed.

(** ** The nodes follow the map *)

(** The server is at a version the map has had and hosts what it assigns. *)
Definition follows (ops : list map_op) (n : string) (s : Server) : Prop :=
  svNodeID s = n /\ exists ops1 ops2, ops = ops1 ++ ops2 /\ map_filed (map_of ops1) /\
    svShardMapVersion s = mapVersion (map_of ops1) /\ server_seats s = placement n (map_of ops1).

Lemma follows_later ops ops' n s : follows ops n s -> follows (ops ++ ops') n s.
Proof.
  intros (Hn & ops1 & ops2 & -> & Hrest). split; [done|]. exists ops1, (ops2 ++ ops'). by rewrite app_assoc.
Qed.

Lemma follows_same ops n s s' :
  svCfg s' = svCfg s -> svShardMapVersion s' = svShardMapVersion s -> server_seats s' = server_seats s ->
  follows ops n s -> follows ops n s'.
Proof.
  intros Hc Hv Hs (Hn & ops1 & ops2 & Ho & Hwf & Hv1 & Hs1). split; [unfold svNodeID in *; congruence|].
  exists ops1, ops2. split_and!; congruence.
Qed.

Lemma put_replica_seats id r r' s : svReplicas s !! id = Some r -> seat r' = seat r ->
  server_seats (put_replica id r' s) = server_seats s.
Proof.
  intros Hr Hs. unfold server_seats. cbn. rewrite fmap_insert, Hs. apply insert_id. by rewrite lookup_fmap, Hr.
Qed.

Lemma assigned_seat n v sh old r' :
  assigned n v (wire sh) old r' ->
  (forall r, old = Some r -> rShardID r = shID sh /\ rNodeID r = n /\ rBootstrapShardID r = "") ->
  seat r' = mkSeat (shID sh) n (peers_of n (shReplicas sh)) v "".
Proof.
  intros (_ & Hp & Hv & _ & Hold) Hr. unfold seat. destruct old as [r|].
  - destruct Hold as (_ & _ & _ & Hi & Hn & Hb & _). destruct (Hr r eq_refl) as (? & ? & ?). simpl in Hp. congruence.
  - destruct Hold as (Hi & Hn & Hb & _). rewrite Hb by done. simpl in *. congruence.
Qed.

Lemma placed_replica n m s id r : map_filed m -> server_seats s = placement n m -> svReplicas s !! id = Some r ->
  rShardID r = id /\ rNodeID r = n /\ rBootstrapShardID r = "".
Proof.
  intros Hwf Hs Hr. assert (Hl : server_seats s !! id = Some (seat r)) by (unfold server_seats; by rewrite lookup_fmap, Hr).
  rewrite Hs, placement_lookup in Hl by done. destruct (mapShards m !! id) as [sh|]; [|done]. simpl in Hl.
  case_decide; [|done]. unfold seat in Hl. by injection Hl as <- <- _ _ <-.
Qed.

(** Taking over a copy of the map. *)
Lemma hosting_placement n m resp s' (old : gmap string ReplicaState) :
  map_filed m -> copy_of m resp ->
  (forall id r, old !! id = Some r -> rShardID r = id /\ rNodeID r = n /\ rBootstrapShardID r = "") ->
  (forall id, match should_host n resp !! id with
     | None => svReplicas s' !! id = None
     | Some sh => exists r', svReplicas s' !! id = Some r' /\ assigned n (smrVersion resp) sh (old !! id) r'
     end) ->
  server_seats s' = placement n m.
Proof.
  intros Hwf Hcopy Hold Hall. pose proof (copy_NoDup m resp Hcopy Hwf) as Hnd. apply map_eq. intros id.
  rewrite placement_lookup by done. unfold server_seats. rewrite lookup_fmap. specialize (Hall id).
  pose proof (fun sh => should_host_lookup n resp id sh Hnd) as Hlook.
  destruct (should_host n resp !! id) as [sh|].
  - destruct Hall as (r' & -> & Ha). destruct (proj1 (Hlook sh) eq_refl) as (Hin & <- & Hrep).
    apply (copy_elem m resp sh Hcopy Hwf) in Hin as (sh0 & Hl & ->). cbn [shID wire] in *. rewrite Hl. simpl.
    rewrite decide_True by done. f_equal. rewrite <- (proj1 Hcopy). eapply assigned_seat; [done|].
    intros r Hr. by apply Hold in Hr.
  - rewrite Hall. simpl. destruct (mapShards m !! id) as [sh0|] eqn:Hl; [|done]. simpl. case_decide as Hrep; [|done].
    pose proof (proj2 Hwf _ _ Hl) as Hid. cbn beta in Hid.
    assert (Hbad : None = Some (wire sh0)); [|done]. apply Hlook. split_and!; [|done|done].
    apply (copy_elem m resp _ Hcopy Hwf). exists sh0. simpl. by rewrite Hid.
Qed.

Lemma refetch_follows rorder horder now draw resp s W o s' W' m0 m n :
  iterates rorder -> iterates horder -> svNodeID s = n -> map_filed m0 -> server_seats s = placement n m0 ->
  map_filed m -> copy_of m resp ->
  refetchShardMap rorder horder now draw (Some resp) (s, W) = (o, (s', W')) -> o <> Crashed ->
  svNodeID s' = n /\ svShardMapVersion s' = mapVersion m /\ server_seats s' = placement n m /\
  forall id sh r', mapShards m !! id = Some sh -> svReplicas s' !! id = Some r' ->
    assigned n (mapVersion m) (wire sh) (svReplicas s !! id) r'.
Proof.
  intros Hro Hho Hn Hwf0 Hs0 Hwf Hcopy Heq Ho.
  pose proof (refetchShardMap_never_fails rorder horder now draw (Some resp) (s, W)) as Hne. rewrite Heq in Hne.
  destruct o as [[]|e|]; [|by destruct (Hne e)|done].
  destruct (wp_use _ _ _ _ _ (wp_refetchShardMap rorder horder now draw resp s W Hro Hho) Heq eq_refl) as (Hc & _ & Hv & Hall).
  cbn [fst] in *. rewrite Hn in Hall. split_and!; [unfold svNodeID in *; congruence|rewrite Hv; apply Hcopy| |].
  - eapply hosting_placement; [done|exact Hcopy| |exact Hall]. intros id r Hr. by apply (placed_replica n m0 s).
  - intros id sh r' Hl Hr'. specialize (Hall id). pose proof (proj2 Hwf _ _ Hl) as Hid. cbn beta in Hid.
    pose proof (copy_NoDup m resp Hcopy Hwf) as Hnd. rewrite <- (proj1 Hcopy).
    destruct (should_host n resp !! id) as [sh'|] eqn:Hh; [|congruence]. destruct Hall as (r2 & Hr2 & Ha). simplify_eq.
    apply should_host_lookup in Hh as (Hin & Hid' & _); [|done].
    apply (copy_elem m resp _ Hcopy Hwf) in Hin as (sh0 & Hl0 & ->). rewrite Hid', Hl in Hl0. by injection Hl0 as <-.
Qed.

Lemma init_follows cfg now draw resp W o s' W' m n :
  nsID (ncNode cfg) = n -> map_filed m -> copy_of m resp ->
  InitShards now draw resp (NewServer cfg now, W) = (o, (s', W')) -> o <> Crashed ->
  svNodeID s' = n /\ svShardMapVersion s' = mapVersion m /\ server_seats s' = placement n m.
Proof.
  intros Hn Hwf Hcopy Heq Ho. pose proof (copy_NoDup m resp Hcopy Hwf) as Hnd.
  assert (Hne : never_fails (InitShards now draw resp)).
  { unfold InitShards, on_server. never_fails. generalize (smrShards resp) as l. intros l.
    induction l as [|sh l IH]; cbn [init_each]; never_fails. }
  specialize (Hne (NewServer cfg now, W)). rewrite Heq in Hne. destruct o as [[]|e|]; [|by destruct (Hne e)|done].
  destruct (wp_use _ _ _ _ _ (wp_InitShards now draw resp (NewServer cfg now) W Hnd eq_refl) Heq eq_refl) as (Hc & Hv & Hout & Hin).
  cbn [fst] in *. assert (Hid : svNodeID (NewServer cfg now) = n) by done. rewrite Hid in Hin.
  split_and!; [unfold svNodeID in *; congruence|rewrite Hv; apply Hcopy|].
  eapply (hosting_placement n m resp s' ∅); [done|done|intros id r; by rewrite lookup_empty|]. intros id. rewrite lookup_empty.
  pose proof (fun sh => should_host_lookup n resp id sh Hnd) as Hlook.
  destruct (should_host n resp !! id) as [sh|].
  - destruct (proj1 (Hlook sh) eq_refl) as (Hi & <- & Hrep). specialize (Hin sh Hi). unfold HasReplica in Hin.
    by rewrite bool_decide_eq_true_2 in Hin.
  - destruct (decide (id ∈ shID <$> smrShards resp)) as [Hi|Hi]; [|by apply Hout].
    apply list_elem_of_fmap in Hi as (sh & -> & Hi). specialize (Hin sh Hi). unfold HasReplica in Hin.
    case_bool_decide as Hrep; [|done]. assert (Hbad : None = Some sh) by (by apply Hlook). done.
Qed.

(** *** Serving requests *)

Lemma serve_seats now order net netRecover kvorder req x others o x' c :
  serve now order net netRecover kvorder req (x, others) = (o, (x', c)) ->
  svCfg (fst x') = svCfg (fst x) /\ svShardMapVersion (fst x') = svShardMapVersion (fst x) /\
  server_seats (fst x') = server_seats (fst x) /\ seats c = seats others.
Proof.
  unfold serve, on_shard. destruct x as [s W]. cbn [fst snd].
  destruct (svReplicas s !! request_shard req) as [r|] eqn:Hr; [|by intros [= <- <- <-]].
  pose proof (placed_handler _ (seat_kept (seat r)) (seats others) (fun _ _ H => H) (fun _ _ H => H) now kvorder (server_env order net netRecover s) req ((r, W), others)) as Hp.
  destruct (handler _ _ _ _ _) as [o1 [[r1 W1] c1]]. destruct Hp as [Hr1 Hc1]; [done|]. unfold kept in Hr1. cbn [fst snd] in *.
  intros [= <- <- <-]. cbn [fst]. split_and!; [done|done|by eapply put_replica_seats|done].
Qed.

Lemma recovery_turn_seats id rpc x c0 o x' c m n :
  map_filed m -> server_seats (fst x) = placement n m -> recovery_turn id rpc (x, c0) = (o, (x', c)) ->
  svCfg (fst x') = svCfg (fst x) /\ svShardMapVersion (fst x') = svShardMapVersion (fst x) /\
  server_seats (fst x') = server_seats (fst x).
Proof.
  intros Hwf Hs. unfold recovery_turn, on_shard. destruct x as [s W]. cbn [fst snd] in *.
  destruct (svReplicas s !! id) as [r|] eqn:Hr; [|by intros [= <- <- <-]].
  destruct (placed_replica n m s id r Hwf Hs Hr) as (_ & _ & Hb).
  set (prog := io_bind io_get _).
  assert (Hp : stable (placed (fun r0 => seat r0 = seat r) (seats c0)) prog).
  { unfold prog. apply stable_get. intros y _. unfold ignore. apply stable_bind; [|stable].
    apply stable_attempt, placed_on_leader. by apply seated_recovery_tick. }
  specialize (Hp ((r, W), c0)). destruct (prog ((r, W), c0)) as [o1 [[r1 W1] c1]]. destruct Hp as [Hr1 _]; [done|].
  unfold kept in Hr1. cbn [fst snd] in *. intros [= <- <- <-]. cbn [fst]. split_and!; [done|done|by eapply put_replica_seats].
Qed.

Lemma put_view_follows ops id n c nodes :
  seats c = seats (delete n (shard_view id nodes)) ->
  map_Forall (fun p x => follows ops p (fst x)) nodes -> map_Forall (fun p x => follows ops p (fst x)) (put_view id c nodes).
Proof.
  intros Hc Hall p x Hp. unfold put_view in Hp. rewrite map_lookup_imap in Hp.
  destruct (nodes !! p) as [[s W]|] eqn:Hn; [|done]. simpl in Hp. injection Hp as <-. specialize (Hall p _ Hn). cbn [fst] in Hall.
  destruct (c !! p) as [[r W']|] eqn:Hcp; [|done]. cbn [fst].
  assert (Hl : seats c !! p = Some (seat r)) by (unfold seats; by rewrite lookup_fmap, Hcp).
  rewrite Hc in Hl. unfold seats, shard_view in Hl. rewrite lookup_fmap, fmap_Some in Hl.
  destruct Hl as ([r0 W0] & Hl & Hseat). apply lookup_delete_Some in Hl as [_ Hl]. rewrite lookup_omap, Hn in Hl. simpl in Hl.
  destruct (svReplicas s !! id) as [r1|] eqn:Hr; [|done]. simplify_eq/=.
  eapply follows_same; [| | |exact Hall]; [done|done|eapply put_replica_seats; [exact Hr|unfold seat; congruence]].
Qed.

Lemma replica_step_seat r r' : replica_step r r' -> seat r' = seat r.
Proof.
  intros [now|now req r1 Hb|now term peers t|now sent p t].
  - apply post_seat, election_tick_post.
  - unfold startElection_begin in Hb. case_decide; [done|]. by simplify_eq.
  - apply startElection_end_seat.
  - apply post_seat, heartbeat_reply_post.
Qed.

(** *** The invariant *)

Record cluster_inv (C : Cluster) : Prop := {
  ci_books : co_books (coMigration (clCo C));
  ci_map : coShards (clCo C) = map_of (clOps C);
  ci_answers : Forall (fun resp => exists ops1 ops2, clOps C = ops1 ++ ops2 /\ map_filed (map_of ops1) /\
                 copy_of (map_of ops1) resp) (clAnswers C);
  ci_nodes : map_Forall (fun n x => follows (clOps C) n (fst x)) (clNodes C);
}.

Lemma ci_map_filed C : cluster_inv C -> map_filed (coShards (clCo C)).
Proof. intros HC. exact (cb_shards _ (ci_books C HC)). Qed.

Lemma settle_inv {E A} n (res : outcome E A * (Server * World)) C :
  cluster_inv C -> (res.1 <> Crashed -> follows (clOps C) n (fst res.2)) -> cluster_inv (settle n res C).
Proof.
  intros [Hwf Hmap Hans Hnodes] Hn. unfold settle. destruct res as [o [s W]]. cbn [fst snd] in *.
  assert (Hput : o <> Crashed -> map_Forall (fun p x => follows (clOps C) p (fst x)) (<[n := (s, W)]> (clNodes C)))
    by (intros Ho; apply map_Forall_insert_2; [by apply Hn|done]).
  destruct o; split; cbn; try done; try (by apply Hput). by apply map_Forall_delete.
Qed.

Lemma answered C resp : cluster_inv C -> resp ∈ clAnswers C ->
  exists ops1 ops2, clOps C = ops1 ++ ops2 /\ map_filed (map_of ops1) /\ copy_of (map_of ops1) resp.
Proof. intros HC Hin. pose proof (ci_answers C HC) as Ha. rewrite Forall_forall in Ha. by apply Ha. Qed.

Lemma serve_inv now order net netRecover kvorder n req C :
  cluster_inv C -> cluster_inv (cluster_serve now order net netRecover kvorder n req C).
Proof.
  intros HC. unfold cluster_serve. destruct (clNodes C !! n) as [x|] eqn:Hx; [|done].
  destruct (serve _ _ _ _ _ _ _) as [o [x' c]] eqn:Hs. apply serve_seats in Hs as (Hcfg & Hv & Hse & Hc).
  pose proof (ci_nodes C HC) as Hnodes. apply settle_inv.
  - destruct HC. split; [done|done|done|]. by eapply put_view_follows.
  - intros _. eapply follows_same; [exact Hcfg|exact Hv|exact Hse|]. exact (Hnodes n x Hx).
Qed.

Lemma cstep_inv C C' : cstep C C' -> cluster_inv C -> cluster_inv C'.
Proof.
  intros Hstep HC. pose proof (ci_nodes C HC) as Hnodes. pose proof HC as [Hwf Hmap Hans _].
  destruct Hstep as [C co ops Hco Hops|C norder sorder Hn Hs|C n fs Hn|C n fs cfg now draw sched resp Hf Hid Hin|C n s W now Hn|
    C n [s W] rorder horder now draw resp Hn Hro Hho Hin|C now order net netRecover kvorder n req|C n x id rpc o x' c Hn Hr|
    C n s W id r r' Hn Hr Hst|C n s W Hn].
  - split; cbn; [by eapply co_step_books|rewrite Hops, Hmap; unfold map_of; by rewrite foldl_app| |].
    + eapply Forall_impl; [exact Hans|]. cbn beta. intros resp (ops1 & ops2 & -> & Hrest). exists ops1, (ops2 ++ ops). by rewrite app_assoc.
    + eapply map_Forall_impl; [exact Hnodes|]. cbn beta. intros p x. apply follows_later.
  - split; cbn; [done|done| |done]. apply Forall_cons. split; [|done]. exists (clOps C), []. rewrite app_nil_r, <- Hmap.
    split_and!; [done|by apply ci_map_filed|by apply map_answer_copy].
  - by split.
  - apply settle_inv; [done|]. destruct (answered C resp HC Hin) as (ops1 & ops2 & Ho & Hw & Hc).
    destruct (InitShards now draw resp _) as [o [s' W']] eqn:Hi. cbn [fst snd]. intros Hne.
    destruct (init_follows _ _ _ _ _ _ _ _ _ n Hid Hw Hc Hi Hne) as (? & ? & ?). split; [done|]. by exists ops1, ops2.
  - split; cbn; try done. apply map_Forall_insert_2; [|done]. eapply follows_same; [..|exact (Hnodes n _ Hn)]; [done|done|].
    unfold server_seats. cbn. rewrite <- map_fmap_compose. done.
  - apply settle_inv; [done|]. destruct (answered C resp HC Hin) as (ops1 & ops2 & Ho & Hw & Hc).
    destruct (Hnodes n _ Hn) as (Hid & o1 & o2 & _ & Hw0 & _ & Hs0). cbn [fst] in *.
    destruct (refetchShardMap _ _ _ _ _ _) as [o [s' W']] eqn:Hi. cbn [fst snd]. intros Hne.
    destruct (refetch_follows _ _ _ _ _ _ _ _ _ _ _ _ n Hro Hho Hid Hw0 Hs0 Hw Hc Hi Hne) as (? & ? & ? & _). split; [done|].
    by exists ops1, ops2.
  - by apply serve_inv.
  - apply settle_inv; [done|]. intros _. destruct (Hnodes n _ Hn) as (Hid & o1 & o2 & Ho & Hw0 & Hv0 & Hs0).
    destruct (recovery_turn_seats _ _ _ _ _ _ _ _ n Hw0 Hs0 Hr) as (Hc & Hv & Hs).
    eapply follows_same; [exact Hc|exact Hv|exact Hs|]. exact (Hnodes n _ Hn).
  - split; cbn; try done. apply map_Forall_insert_2; [|done]. eapply follows_same; [..|exact (Hnodes n _ Hn)]; [done|done|].
    eapply put_replica_seats; [done|by apply replica_step_seat].
  - split; cbn; try done. by apply map_Forall_delete.
Qed.

Lemma cluster_inv_reachable C0 C : fresh_cluster C0 -> rtc cstep C0 C -> cluster_inv C.
Proof.
  intros ((unmarshal & data & cfg & Hp & Hco) & Hmap & Hn & Ha) Hsteps.
  assert (H0 : cluster_inv C0).
  { split; [|done|by rewrite Ha|by rewrite Hn]. rewrite Hco. eapply Init_books, New_books, parsed_nodes; done. }
  clear Hp Hco Hmap Hn Ha. induction Hsteps; eauto using cstep_inv.
Qed.

(** The leaders of the initial map are replicas of their shards, and stay so. *)
Lemma replica_leaders C0 C : leaders_from (fun _ _ => False) (coShards (clCo C0)) -> rtc cstep C0 C ->
  leaders_from (fun _ _ => False) (coShards (clCo C)).
Proof.
  intros Hl Hsteps. induction Hsteps as [|C1 C2 C3 Hstep _ IH]; [done|]. apply IH.
  assert (Hsettle : forall E A n (res : outcome E A * (Server * World)) C, clCo (settle n res C) = clCo C)
    by (intros E A n [[] ?] C; done).
  destruct Hstep; try (by rewrite Hsettle); try done; [by eapply co_step_leaders|].
  unfold cluster_serve. destruct (clNodes C !! n) as [x|]; [|done]. destruct (serve _ _ _ _ _ _ _) as [o [x' c]].
  by rewrite Hsettle.
Qed.

(** C4: The nodes follow the coordinator's shard map.  In every state the system
    reaches from any configuration that parses, with nodes starting, stopping and
    dying, disks failing, answers of the coordinator delayed without bound, and
    requests, recovery and elections in between: the coordinator's map is the
    outcome of its changes so far; every node is at the version of the map after
    some prefix of these changes and hosts a replica for exactly the shards whose
    replica set contained it then, each with the other replicas as its peers and
    stamped with that version.  So no node is ahead of the coordinator, and a node
    at the coordinator's version hosts what the map assigns to it now.  (Until the
    map has been changed 2^64 times; the coordinator does not restart,
    [coordinator_restart_unnoticed].) *)
Theorem nodes_follow_the_map C0 C n s W :
  fresh_cluster C0 -> rtc cstep C0 C -> Z.of_nat (length (clOps C)) < two64 -> clNodes C !! n = Some (s, W) ->
  coShards (clCo C) = map_of (clOps C) /\
  (exists before after, clOps C = before ++ after /\
     svShardMapVersion s = mapVersion (map_of before) /\ server_seats s = placement n (map_of before)) /\
  svShardMapVersion s <= mapVersion (coShards (clCo C)) /\
  (svShardMapVersion s = mapVersion (coShards (clCo C)) -> server_seats s = placement n (coShards (clCo C))).
Proof.
  intros H0 Hreach Hlen Hn. pose proof (cluster_inv_reachable _ _ H0 Hreach) as HC.
  destruct (ci_nodes C HC n _ Hn) as (_ & ops1 & ops2 & Ho & _ & Hv & Hs). cbn [fst] in *.
  split; [by apply ci_map|]. split; [by exists ops1, ops2|].
  rewrite (ci_map C HC), Ho, Hv, Hs in *. destruct (map_of_grows ops1 ops2 Hlen) as [Hle Heq].
  split; [done|]. intros He. by rewrite Heq.
Qed.

(** ** Heartbeat exchanges *)

(** Node [n] sends its heartbeat to the coordinator and, told of a newer map,
    fetches it: [sendHeartbeat] against [Heartbeat] and [GetShardMap], with
    nothing else in between. *)
Definition exchange (norder : gmap string NodeStatus -> list (string * NodeStatus))
    (sorder : gmap string ShardInfo -> list (string * ShardInfo))
    (rorder : gmap string ReplicaState -> list (string * ReplicaState))
    (horder : gmap string ShardInfo -> list (string * ShardInfo)) (coNow now : Z) (draw : string -> Z)
    (n : string) (C : Cluster) : Cluster :=
  match clNodes C !! n with
  | None => C
  | Some x =>
      let '(reply, co) := Heartbeat coNow (svNodeID (fst x)) (heartbeat_shards rorder (fst x)) (clCo C) in
      settle n (sendHeartbeat rorder horder now draw (match reply with Ok v => Some v | Fail _ => None end)
                  (Some (map_answer norder sorder co)) x) (C <| clCo := co |>)
  end.

Lemma Heartbeat_known now n shards co : is_Some (memNodes (coMembership co) !! n) ->
  exists co', Heartbeat now n shards co = (Ok (mapVersion (coShards co)), co') /\ coShards co' = coShards co.
Proof.
  intros [ns Hns]. unfold Heartbeat, RecordHeartbeat. rewrite Hns. eexists. by split.
Qed.

Section exchange.
Context (norder : gmap string NodeStatus -> list (string * NodeStatus))
  (sorder : gmap string ShardInfo -> list (string * ShardInfo))
  (rorder : gmap string ReplicaState -> list (string * ReplicaState))
  (horder : gmap string ShardInfo -> list (string * ShardInfo)).
Context (Hs : iterates sorder) (Hr : iterates rorder) (Hh : iterates horder).

(** What the node and the coordinator are after an exchange, or the node has
    died. *)
Lemma exchange_run coNow now draw n C s W :
  cluster_inv C -> clNodes C !! n = Some (s, W) -> is_Some (memNodes (coMembership (clCo C)) !! n) ->
  let C' := exchange norder sorder rorder horder coNow now draw n C in
  coShards (clCo C') = coShards (clCo C) /\
  (clNodes C' !! n = None \/
   exists s' W', clNodes C' !! n = Some (s', W') /\
     if svShardMapVersion s <? mapVersion (coShards (clCo C))
     then svShardMapVersion s' = mapVersion (coShards (clCo C)) /\ server_seats s' = placement n (coShards (clCo C)) /\
          (forall id sh r', mapShards (coShards (clCo C)) !! id = Some sh -> svReplicas s' !! id = Some r' ->
             assigned n (mapVersion (coShards (clCo C))) (wire sh) (svReplicas s !! id) r')
     else s' = s).
Proof.
  intros HC Hn Hmem. destruct (ci_nodes C HC n _ Hn) as (Hid & ops1 & ops2 & _ & Hw0 & _ & Hs0). cbn [fst] in *.
  unfold exchange. rewrite Hn. cbn [fst]. rewrite Hid.
  destruct (Heartbeat_known coNow n (heartbeat_shards rorder s) (clCo C) Hmem) as (co & -> & Hco).
  unfold sendHeartbeat, io_bind, io_get. cbn [fst snd].
  destruct (svShardMapVersion s <? mapVersion (coShards (clCo C))).
  - destruct (refetchShardMap _ _ _ _ _ (s, W)) as [o [s' W']] eqn:Hf.
    assert (Hcopy : copy_of (coShards (clCo C)) (map_answer norder sorder co)) by (rewrite <- Hco; by apply map_answer_copy).
    unfold settle. cbn [fst snd]. destruct o as [[]|e|]; cbn; (split; [done|]).
    + right. exists s', W'. rewrite lookup_insert_eq. split; [done|].
      by destruct (refetch_follows _ _ _ _ _ _ _ _ _ _ _ _ n Hr Hh Hid Hw0 Hs0 (ci_map_filed C HC) Hcopy Hf) as (_ & ? & ? & ?).
    + exfalso. pose proof (refetchShardMap_never_fails rorder horder now draw (Some (map_answer norder sorder co)) (s, W) e) as He.
      rewrite Hf in He. by apply He.
    + left. apply lookup_delete_eq.
  - unfold settle. cbn. split; [done|]. right. exists s, W. by rewrite lookup_insert_eq.
Qed.

(** C15: A heartbeat exchange brings a node up to date.  In every state the system
    reaches, a node known to the coordinator that exchanges a heartbeat with it,
    and whose process does not die of it, is at the coordinator's version of the
    map afterwards and hosts exactly what the map assigns to it, whether it had
    to fetch the map or had it already, and whatever errors its disk reports. *)
Theorem exchange_synchronises C0 C n s W coNow now draw :
  fresh_cluster C0 -> rtc cstep C0 C -> Z.of_nat (length (clOps C)) < two64 ->
  clNodes C !! n = Some (s, W) -> is_Some (memNodes (coMembership (clCo C)) !! n) ->
  let C' := exchange norder sorder rorder horder coNow now draw n C in
  clNodes C' !! n = None \/
  exists s' W', clNodes C' !! n = Some (s', W') /\ svShardMapVersion s' = mapVersion (coShards (clCo C')) /\
    server_seats s' = placement n (coShards (clCo C')).
Proof.
  intros H0 Hreach Hlen Hn Hmem C'. pose proof (cluster_inv_reachable _ _ H0 Hreach) as HC.
  destruct (exchange_run coNow now draw n C s W HC Hn Hmem) as [Hco [Hdead|(s' & W' & Hn' & Hrun)]]; [by left|right].
  exists s', W'. split; [done|]. unfold C'. rewrite Hco.
  destruct (ci_nodes C HC n _ Hn) as (_ & ops1 & ops2 & Ho & _ & Hv & Hse). cbn [fst] in *.
  destruct (Z.ltb_spec (svShardMapVersion s) (mapVersion (coShards (clCo C)))) as [|Hge]; [naive_solver|]. subst s'.
  rewrite (ci_map C HC), Ho, Hv, Hse in *. destruct (map_of_grows ops1 ops2 Hlen) as [Hle Heq].
  rewrite Heq by lia. done.
Qed.

(** C14: A shard gets a new leader that takes writes.  The leader of a shard has
    been silent for the failure timeout while another replica has reported: the
    next tick of the health monitor appoints another, live replica, and when this
    one sends its next heartbeat and survives it, its replica leads the shard and
    is stamped with the version of the map the node is at, as the write path asks
    for.  It is ready if the node hosted no replica of the shard or one that did
    not lead; one that led already, by an election the coordinator had not heard
    of, is ready or not as it was.  (The initial leaders are replicas.) *)
Theorem failover_end_to_end C0 C ops morder coNow coNow' now draw id shard l r rn :
  fresh_cluster C0 -> leaders_from (fun _ _ => False) (coShards (clCo C0)) -> rtc cstep C0 C ->
  iterates norder -> iterates morder ->
  mapShards (coShards (clCo C)) !! id = Some shard ->
  memNodes (coMembership (clCo C)) !! shLeader shard = Some l -> nstIsAlive l = true ->
  memTimeout (coMembership (clCo C)) <= time_Sub coNow (nstLastHeartbeatAt l) ->
  r ∈ shReplicas shard -> memNodes (coMembership (clCo C)) !! r = Some rn -> nstLastHeartbeatAt rn <> 0 ->
  time_Sub coNow (nstLastHeartbeatAt rn) < memTimeout (coMembership (clCo C)) ->
  let co := health_tick norder sorder morder coNow (clCo C) in
  coShards co = foldl map_exec (coShards (clCo C)) ops -> Z.of_nat (length (clOps C ++ ops)) < two64 ->
  exists c, c <> shLeader shard /\ is_alive (coMembership co) c = true /\
    LeaderFor (coShards co) id = Ok c /\
    forall s W, clNodes C !! c = Some (s, W) ->
      let C' := exchange norder sorder rorder horder coNow' now draw c (C <| clCo := co |> <| clOps ::= fun l => l ++ ops |>) in
      clNodes C' !! c = None \/
      exists s' W' r', clNodes C' !! c = Some (s', W') /\ svReplicas s' !! id = Some r' /\
        rRole r' = RoleLeader /\ rShardMapVersion r' = svShardMapVersion s' /\
        rIsReady r' = match svReplicas s !! id with
                      | Some r0 => if decide (rRole r0 = RoleLeader) then rIsReady r0 else true
                      | None => true
                      end.
Proof.
  intros H0 Hlead Hreach Hn Hm Hid Hl Hla Hsil Hrep Hrn Hr0 Hrt co Hops Hlen. pose proof (cluster_inv_reachable _ _ H0 Hreach) as HC.
  assert (Hwf : co_wf (coMigration (clCo C))) by (apply co_wf_iff; split; [by apply ci_books|by eapply replica_leaders]).
  destruct (failover norder sorder morder coNow (clCo C) id shard l r rn Hn Hs Hm Hwf Hid Hl Hla Hsil Hrep Hrn Hr0 Hrt)
    as (shard' & Hid' & Hin & Hal & Hdead). fold co in Hid', Hal, Hdead.
  assert (Hne : shLeader shard' <> shLeader shard) by congruence. exists (shLeader shard').
  assert (Hstep : cstep C (C <| clCo := co |> <| clOps ::= fun l => l ++ ops |>)) by (by apply cl_coordinator; [apply co_tick|]).
  pose proof (cstep_inv _ _ Hstep HC) as HC'. clear Hstep. clearbody co. set (C1 := C <| clCo := co |> <| clOps ::= _ |>) in *.
  assert (Hwf' : map_filed (coShards co)) by apply (ci_map_filed C1 HC').
  assert (Hsome : shLeader shard' <> "").
  { intros He. rewrite He, is_alive_empty in Hal; [done|]. apply (ci_books C1 HC'). }
  split_and!; [done|done|unfold LeaderFor, ShardMap_Get; rewrite Hid'; simpl; by rewrite decide_False|]. intros s W Hnode C'.
  assert (Hver : svShardMapVersion s < mapVersion (coShards co)).
  { destruct (ci_nodes C HC _ _ Hnode) as (_ & ops1 & ops2 & Ho & _ & Hv & _). cbn [fst] in Hv.
    destruct (map_of_grows ops1 ops2) as [Hle _]; [rewrite <- Ho; rewrite length_app in Hlen; lia|].
    destruct (map_of_grows (clOps C) ops Hlen) as [Hle' Heq].
    pose proof (ci_map C1 HC') as Hm'. change (coShards co = map_of (clOps C ++ ops)) in Hm'. rewrite Hm', Hv. rewrite <- Ho in Hle.
    destruct (Z.eq_dec (mapVersion (map_of (clOps C))) (mapVersion (map_of (clOps C ++ ops)))) as [He|]; [|lia].
    exfalso. apply Hne. rewrite Hm', (Heq He), <- (ci_map C HC), Hid in Hid'. congruence. }
  assert (Hmem : is_Some (memNodes (coMembership (clCo C1)) !! shLeader shard')).
  { unfold is_alive, Membership_Get in Hal. cbn. destruct (memNodes (coMembership co) !! shLeader shard'); [by eexists|done]. }
  destruct (exchange_run coNow' now draw (shLeader shard') C1 s W HC' Hnode Hmem) as [Hco [Hgone|(s' & W' & Hn' & Hrun)]]; [by left|right].
  change (clCo C1) with co in Hrun. rewrite (proj2 (Z.ltb_lt _ _) Hver) in Hrun. destruct Hrun as (Hv' & Hse' & Hass).
  assert (Hp : server_seats s' !! id = Some (mkSeat id (shLeader shard') (peers_of (shLeader shard') (shReplicas shard')) (mapVersion (coShards co)) "")).
  { rewrite Hse', placement_lookup, Hid' by done. simpl. by rewrite decide_True. }
  unfold server_seats in Hp. rewrite lookup_fmap, fmap_Some in Hp. destruct Hp as (r' & Hr' & Hseat).
  exists s', W', r'. destruct (Hass id shard' r' Hid' Hr') as (_ & _ & Hmv & Hrole & Hold).
  split_and!; [exact Hn'|done|by apply Hrole|congruence|]. destruct (svReplicas s !! id) as [r1|] eqn:Hr1.
  - destruct (ci_nodes C HC _ _ Hnode) as (_ & ops1 & ops2 & _ & Hw0 & _ & Hs0). cbn [fst] in *.
    destruct (placed_replica _ _ s id r1 Hw0 Hs0 Hr1) as (_ & _ & Hb).
    case_decide; by apply Hold.
  - by apply Hold.
Qed.
End exchange.

(** ** Concrete clusters *)

Definition node_config (n : string) : NodeConfig := node_cfg1 <| ncNode := mkNodeSpec n (n +:+ ":1") |>.

(** The coordinator of [cluster_config2] and the disks of its nodes. *)
Definition cluster0 : Cluster :=
  mkCluster (Coordinator_Init cluster_config2 (Coordinator_New cluster_config2)).2
    [OpAddShard (mkShard "s1" ["n1"; "n2"; "n3"] "n1" "" [])] ∅ {["n1" := ∅; "n2" := ∅; "n3" := ∅]} [].

Definition answer (C : Cluster) : Cluster := C <| clAnswers ::= cons (map_answer map_to_list map_to_list (clCo C)) |>.
Definition start (n : string) (C : Cluster) : Cluster :=
  match clDown C !! n, clAnswers C with
  | Some fs, resp :: _ => settle n (InitShards 5 (fun _ => 0) resp (NewServer (node_config n) 5, mkWorld fs [])) C
  | _, _ => C
  end.
Definition coordinate (co : Coordinator) (C : Cluster) : Cluster := C <| clCo := co |> <| clOps ::= fun l => l ++ [] |>.
Definition report (now : Z) (n : string) (version : Z) (C : Cluster) : Cluster :=
  coordinate (Heartbeat now n [status_of "s1" version] (clCo C)).2 C.
Definition tick (now : Z) (C : Cluster) : Cluster :=
  coordinate (health_tick map_to_list map_to_list map_to_list now (clCo C)) C.

(** All nodes are up and have reported; [n2] has reported again, [n1] has not. *)
Definition cluster1 : Cluster := start "n3" (start "n2" (start "n1" (answer cluster0))).
Definition cluster2 : Cluster := tick 20 (report 10 "n2" 4 (report 10 "n1" 4 cluster1)).
Definition cluster3 : Cluster := report (1600 * millisecond) "n2" 5 cluster2.

Lemma cluster0_fresh : fresh_cluster cluster0.
Proof.
  split; [|split_and!; [by vm_compute|done|done]].
  exists (fun _ => Some cluster_config1), [], cluster_config2. split; [by vm_compute|done].
Qed.

Lemma cluster0_leaders : leaders_from (fun _ _ => False) (coShards (clCo cluster0)).
Proof. apply (bool_decide_eq_true_1 _). by vm_compute. Qed.

Lemma report_step now n v C : cstep C (report now n v C).
Proof.
  apply cl_coordinator; [apply (co_heartbeat (clCo C))|]. unfold Heartbeat. by destruct (RecordHeartbeat _ _ _ _).
Qed.

Lemma start_steps n C : rtc cstep C (start n C).
Proof.
  unfold start. destruct (clDown C !! n) as [fs|] eqn:Hd; [|done]. destruct (clAnswers C) as [|resp rest] eqn:Ha; [done|].
  apply rtc_once, cl_start; [done|done|]. rewrite Ha. apply list_elem_of_here.
Qed.

Lemma cluster3_reached : rtc cstep cluster0 cluster3.
Proof.
  eapply rtc_l; [by apply (cl_answer cluster0 map_to_list map_to_list); apply iterates_map_to_list|].
  do 3 (etrans; [apply start_steps|]).
  do 2 (eapply rtc_l; [apply report_step|]).
  eapply rtc_l; [|apply rtc_once, report_step]. apply cl_coordinator; [apply co_tick; apply iterates_map_to_list|by vm_compute].
Qed.

Lemma cluster3_version : (fun x => svShardMapVersion (fst x)) <$> clNodes cluster3 !! "n2" = Some 1.
Proof. by vm_compute. Qed.

Lemma nodes_follow_the_map_witness :
  exists s W, clNodes cluster3 !! "n2" = Some (s, W) /\
    (exists before after, clOps cluster3 = before ++ after /\
       svShardMapVersion s = mapVersion (map_of before) /\ server_seats s = placement "n2" (map_of before)) /\
    svShardMapVersion s <= mapVersion (coShards (clCo cluster3)) /\
    server_seats s = placement "n2" (coShards (clCo cluster3)).
Proof.
  destruct (clNodes cluster3 !! "n2") as [[s W]|] eqn:Hn; [|by vm_compute in Hn]. exists s, W. split; [done|].
  destruct (nodes_follow_the_map cluster0 cluster3 "n2" s W cluster0_fresh cluster3_reached eq_refl Hn) as (_ & Hpast & Hle & Heq).
  split; [exact Hpast|]. split; [exact Hle|].
  apply Heq. pose proof cluster3_version as Hv. rewrite Hn in Hv. injection Hv as ->. by vm_compute.
Defined.

Definition exchange1 (now : Z) (n : string) (C : Cluster) : Cluster :=
  exchange map_to_list map_to_list map_to_list map_to_list now now (fun _ => 0) n C.

(** The map has moved on: [n2] leads, and [n3] has not heard of it. *)
Definition cluster4 : Cluster :=
  let co := health_tick map_to_list map_to_list map_to_list (1700 * millisecond) (clCo cluster3) in
  cluster3 <| clCo := co |> <| clOps ::= fun l => l ++ [OpSetLeader "s1" "n2"] |>.

Lemma cluster4_reached : rtc cstep cluster0 cluster4.
Proof.
  eapply rtc_r; [apply cluster3_reached|].
  apply cl_coordinator; [apply co_tick; apply iterates_map_to_list|by vm_compute].
Qed.

Lemma cluster4_short : Z.of_nat (length (clOps cluster4)) < two64.
Proof. by vm_compute. Qed.

Lemma cluster4_knows : is_Some (memNodes (coMembership (clCo cluster4)) !! "n3").
Proof. apply (bool_decide_eq_true_1 _). by vm_compute. Qed.

Lemma exchange_synchronises_witness :
  clNodes (exchange1 (1710 * millisecond) "n3" cluster4) !! "n3" = None \/
  exists s' W', clNodes (exchange1 (1710 * millisecond) "n3" cluster4) !! "n3" = Some (s', W') /\
    svShardMapVersion s' = mapVersion (coShards (clCo (exchange1 (1710 * millisecond) "n3" cluster4))) /\
    server_seats s' = placement "n3" (coShards (clCo (exchange1 (1710 * millisecond) "n3" cluster4))).
Proof.
  destruct (clNodes cluster4 !! "n3") as [[s W]|] eqn:Hn; [|by vm_compute in Hn].
  exact (exchange_synchronises map_to_list map_to_list map_to_list map_to_list iterates_map_to_list iterates_map_to_list
    iterates_map_to_list cluster0 cluster4 "n3" s W (1710 * millisecond) (1710 * millisecond) (fun _ => 0)
    cluster0_fresh cluster4_reached cluster4_short Hn cluster4_knows).
Defined.

(** The exchange indeed goes through, and it moved [n3] from version 1 to 2. *)
Lemma exchange_moves :
  (fun x => svShardMapVersion (fst x)) <$> clNodes cluster4 !! "n3" = Some 1 /\
  (fun x => svShardMapVersion (fst x)) <$> clNodes (exchange1 (1710 * millisecond) "n3" cluster4) !! "n3" = Some 2.
Proof. by vm_compute. Qed.

Lemma failover_end_to_end_witness :
  let co := health_tick map_to_list map_to_list map_to_list (1700 * millisecond) (clCo cluster3) in
  exists c, c <> "n1" /\ is_alive (coMembership co) c = true /\ LeaderFor (coShards co) "s1" = Ok c /\
    forall s W, clNodes cluster3 !! c = Some (s, W) ->
      clNodes (exchange1 (1710 * millisecond) c cluster4) !! c = None \/
      exists s' W' r', clNodes (exchange1 (1710 * millisecond) c cluster4) !! c = Some (s', W') /\
        svReplicas s' !! "s1" = Some r' /\ rRole r' = RoleLeader /\ rShardMapVersion r' = svShardMapVersion s' /\
        rIsReady r' = match svReplicas s !! "s1" with
                      | Some r0 => if decide (rRole r0 = RoleLeader) then rIsReady r0 else true
                      | None => true
                      end.
Proof.
  refine (failover_end_to_end map_to_list map_to_list map_to_list map_to_list iterates_map_to_list iterates_map_to_list
    iterates_map_to_list cluster0 cluster3 [OpSetLeader "s1" "n2"] map_to_list (1700 * millisecond) (1710 * millisecond)
    (1710 * millisecond) (fun _ => 0) "s1" shard1 (mkNodeStatus "n1" "n1:1" true 10 {["s1" := 4]}) "n2"
    (mkNodeStatus "n2" "n2:1" true (1600 * millisecond) {["s1" := 5]}) cluster0_fresh cluster0_leaders cluster3_reached
    iterates_map_to_list iterates_map_to_list _ _ _ _ _ _ _ _ _ _).
  all: first [apply (bool_decide_eq_true_1 _); by vm_compute|by vm_compute].
Defined.

(** In that run [n2] is the one, and survives. *)
Lemma n2_takes_over_s1 :
  (fun r => (rRole r, rIsReady r, rShardMapVersion r)) <$>
    (clNodes (exchange1 (1710 * millisecond) "n2" cluster4) !! "n2" ≫= fun x => svReplicas (fst x) !! "s1") =
  Some (RoleLeader, true, 2).
Proof. by vm_compute. Qed.

(** ** What the cluster does not do *)

(** The coordinator keeps its map in memory.  Here it restarts after the failover
    above, so that its map is at version 1 again, and then accepts the election
    of [n3], which makes it version 2. *)
Definition cluster5 : Cluster := exchange1 (1710 * millisecond) "n2" cluster4.
Definition cluster6 : Cluster :=
  let co := (Coordinator_Init cluster_config2 (Coordinator_New cluster_config2)).2 in
  cluster5 <| clCo := (coNotifyLeader "s1" "n3" 2 co).2 |>.

(** The leader [n2] of the old map and a restarted coordinator are at the same
    version of different maps, and heartbeats do not tell them: the coordinator
    has [n3] as leader, [n2] goes on leading. *)
Theorem coordinator_restart_unnoticed :
  let C := exchange1 (1800 * millisecond) "n2" cluster6 in
  LeaderFor (coShards (clCo C)) "s1" = Ok "n3" /\
  (fun x => svShardMapVersion (fst x)) <$> clNodes C !! "n2" = Some (mapVersion (coShards (clCo C))) /\
  (fun r => (rRole r, rLeaderID r)) <$> (clNodes C !! "n2" ≫= fun x => svReplicas (fst x) !! "s1") = Some (RoleLeader, "n2").
Proof. by vm_compute. Qed.

(** A client's request to node [n], and the answer. *)
Definition ask (now : Z) (n : string) (req : Request) (C : Cluster) : option (outcome rpcerr Reply) :=
  x ← clNodes C !! n;
  Some (serve now key_order (fun _ => Delivered) (fun _ => Delivered) (fun m => map_to_list m) req
          (x, delete n (shard_view (request_shard req) (clNodes C)))).1.

Definition client (now : Z) (n : string) (req : Request) (C : Cluster) : Cluster :=
  cluster_serve now key_order (fun _ => Delivered) (fun _ => Delivered) (fun m => map_to_list m) n req C.

(** An operation of the replica of shard [id] on node [n] that calls the others. *)
Definition on_replicas (f : ReplicaState * cluster -> ReplicaState * cluster) (n id : string) (C : Cluster) : Cluster :=
  match clNodes C !! n with
  | None => C
  | Some (s, W) =>
      match svReplicas s !! id with
      | None => C
      | Some r =>
          let '(r', c) := f (r, delete n (shard_view id (clNodes C))) in
          C <| clNodes ::= fun nodes => <[n := (put_replica id r' s, W)]> (put_view id c nodes) |>
      end
  end.

Definition addresses3 : gmap string string := {["n1" := "n1:1"; "n2" := "n2:1"; "n3" := "n3:1"]}.
Definition elect (now : Z) (net : string -> delivery) : string -> string -> Cluster -> Cluster :=
  on_replicas (fun x => (startElection now addresses3 key_order net x).2).
Definition beat (now : Z) (net : string -> delivery) : string -> string -> Cluster -> Cluster :=
  on_replicas (heartbeat_round now addresses3 key_order net).

(** [n1] has a key in shard s1, which is then split: s2 is to start as a copy of
    it on [n1].  The node takes up s2 with its next heartbeat, and, being alone
    in it, wins its election. *)
Definition cluster7 : Cluster := client 30 "n1" (RqPut "s1" "k" "v") cluster2.
Definition cluster8 : Cluster :=
  exchange1 40 "n1" (cluster7 <| clCo := (handleAdminSplitShard (Some ("s1", "s2", ["n1"])) (clCo cluster7)).2 |>).
Definition cluster9 : Cluster := elect 900 (fun _ => Delivered) "n1" "s2" cluster8.

(** The split shard is served, and empty: the name of the shard to copy from got
    lost between the coordinator and the node. *)
Theorem split_shard_served_empty :
  ask 1000 "n1" (RqGet "s1" "k") cluster9 = Some (Ret (RsGet (GET_OK "v"))) /\
  option_map shBootstrapSource (mapShards (coShards (clCo cluster9)) !! "s2") = Some "s1" /\
  ask 1000 "n1" (RqGet "s2" "k") cluster9 = Some (Ret (RsGet GET_NOT_FOUND)) /\
  ask 1000 "n1" (RqPut "s2" "k" "w") cluster9 = Some (Ret (RsWrite PUT_OK)).
Proof. by vm_compute. Qed.

(** [n1] takes a write of the key and is cut off from then on: [n2] is elected,
    and overwrites the key. *)
Definition cut_off (p : string) : delivery := if decide (p = "n1") then LostRequest else Delivered.
Definition cluster10 : Cluster :=
  beat 710 cut_off "n2" "s1" (elect 700 cut_off "n2" "s1" (client 30 "n1" (RqPut "s1" "k" "old") cluster2)).
Definition cluster11 : Cluster :=
  cluster_serve 720 key_order cut_off cut_off (fun m => map_to_list m) "n2" (RqPut "s1" "k" "new") cluster10.

(** A leader answers reads from its own copy without asking anyone: the old one
    still answers with the value that was overwritten, after the new leader and
    a follower have applied the write and the new leader has answered with it. *)
Theorem stale_read_after_election :
  ask 730 "n2" (RqGet "s1" "k") cluster11 = Some (Ret (RsGet (GET_OK "new"))) /\
  (fun r => rVersion r) <$> (clNodes cluster11 !! "n3" ≫= fun x => svReplicas (fst x) !! "s1") = Some 2 /\
  ask 740 "n1" (RqGet "s1" "k") cluster11 = Some (Ret (RsGet (GET_OK "old"))).
Proof. by vm_compute. Qed.
