(* ===== verification/Status.v ===== *)
(** What the processes report about themselves: the status pages and their gRPC
    counterparts (src/coordinator/server.go and grpc.go, src/node/grpc.go), and the
    gauges of the coordinator (refreshMetrics).

    A gauge is a number; one with labels is a map from the label, which keeps what
    was set before. *)

From S2P Require Import Prelude Fs Config ShardMap Membership Leader Migration Coordinator Replica Server.

(** ** The coordinator *)

Record WhereIsLeaderResponse := mkWhereIsLeader { wlLeaderNodeId : string; wlAddress : string; wlTerm : Z }.

Definition grpcWhereIsLeader (shardID : string) (s : Coordinator) : result coerr WhereIsLeaderResponse :=
  match LeaderFor (coShards s) shardID with
  | Fail e => Fail (CoNotFound e)
  | Ok leader =>
      match Membership_Get (coMembership s) leader with
      | Fail _ => Fail CoLeaderUnknown
      | Ok ns => Ok (mkWhereIsLeader leader (nstAddress ns) (TermForShard (coLeader s) shardID))
      end
  end.

Record GetStatusResponse := mkGetStatusResponse {
  gsShardMapVersion : Z;
  gsNodes : list NodeHealth;
  gsShards : list PbShardInfo;
}.

Record CoordinatorGauges := mkGauges {
  cgShardsTotal : Z;
  cgShardsWithLeader : Z;
  cgShardsQuorumAvailable : Z;
  cgShardTerm : gmap string Z;
  cgNodeAlive : gmap string bool;
}.

(** The inner loops of [refreshMetrics]: the replicas some live node carries. *)
Definition alive_replicas (nodes : list NodeStatus) (sh : ShardInfo) : Z :=
  Z.of_nat (length (filter (fun rep => existsb (fun ns => bool_decide (nstID ns = rep) && nstIsAlive ns) nodes = true) (shReplicas sh))).

Section coordinator.
Context (norder : gmap string NodeStatus -> list (string * NodeStatus)).
Context (sorder : gmap string ShardInfo -> list (string * ShardInfo)).

Definition grpcGetStatus (now : Z) (s : Coordinator) : GetStatusResponse :=
  let nodes := node_health now <$> Membership_All norder (coMembership s) in
  let '(version, shards) := ShardMap_Snapshot sorder (coShards s) in
  mkGetStatusResponse version nodes (shardInfoToProto shards).

Definition refreshMetrics (s : Coordinator) (g : CoordinatorGauges) : CoordinatorGauges :=
  let '(_, shards) := ShardMap_Snapshot sorder (coShards s) in
  let nodes := Membership_All norder (coMembership s) in
  mkGauges (Z.of_nat (length shards))
    (Z.of_nat (length (filter (fun sh => shLeader sh <> "") shards)))
    (Z.of_nat (length (filter (fun sh => shQuorum sh <= alive_replicas nodes sh) shards)))
    (foldl (fun m sh => <[shID sh := TermForShard (coLeader s) (shID sh)]> m) (cgShardTerm g) shards)
    (foldl (fun m ns => <[nstID ns := nstIsAlive ns]> m) (cgNodeAlive g) nodes).
End coordinator.

(** ** A node *)

Record PbShardStatus := mkPbShardStatus {
  psShardId : string;
  psRole : string;
  psTerm : Z;
  psVersion : Z;
  psIsReady : bool;
  psRecoveryState : RecoveryState;
  psRecoverySource : string;
  psPeers : list string;
}.

Definition shard_status (snap : ReplicaStatusSnapshot) : PbShardStatus :=
  mkPbShardStatus (stShardID snap) (role_string (stRole snap)) (stTerm snap) (stVersion snap) (stIsReady snap)
    (stRecoveryState snap) (stRecoverySource snap) (stPeers snap).

Record NodeGetStatusResponse := mkNodeGetStatus {
  ngNodeId : string;
  ngUptime : Z;
  ngShards : list PbShardStatus;
  ngShardMapVersion : Z;
}.

(** [wall] is the reading of the system clock, which [StatusSnapshot] uses. *)
Definition nodeGetStatus (rorder : gmap string ReplicaState -> list (string * ReplicaState)) (now wall : Z) (s : Server)
    : NodeGetStatusResponse :=
  mkNodeGetStatus (svNodeID s) (time_Sub now (svStartedAt s))
    ((fun p => shard_status (StatusSnapshot wall p.2)) <$> rorder (svReplicas s)) (svShardMapVersion s).

(** The gRPC answer of a node is its status page, with fewer fields. *)
Lemma node_status_agrees rorder now wall s :
  let page := handleStatus rorder now wall s in
  nodeGetStatus rorder now wall s =
    mkNodeGetStatus (nrNodeID page) (nrUptime page) (shard_status <$> nrShards page) (nrShardMapVersion page).
Proof. unfold nodeGetStatus, handleStatus. simpl. by rewrite <- !list_fmap_compose. Qed.

(** ** The views agree *)

(** Setting a gauge for each element leaves the last value set under its label. *)
Lemma foldl_gauge {A B} (key : A -> string) (val : A -> B) (l : list A) (m : gmap string B) x :
  NoDup (key <$> l) -> x ∈ l -> foldl (fun m a => <[key a := val a]> m) m l !! key x = Some (val x).
Proof.
  induction l as [|a l IH] using rev_ind; intros Hnd Hx; [set_solver|]. rewrite foldl_app. simpl.
  rewrite fmap_app in Hnd. apply NoDup_app in Hnd as (Hnd & Hfresh & _).
  apply elem_of_app in Hx as [Hx| ->%list_elem_of_singleton]; [|by rewrite lookup_insert_eq].
  rewrite lookup_insert_ne; [by apply IH|]. intros Heq. apply (Hfresh (key x)); [by apply list_elem_of_fmap_2|].
  rewrite <- Heq. set_solver.
Qed.

(** The values of a map under their own keys. *)
Lemma iterates_keys {A} (order : gmap string A -> list (string * A)) (key : A -> string) (m : gmap string A) :
  iterates order -> (forall id a, m !! id = Some a -> key a = id) -> NoDup (key <$> (order m).*2).
Proof.
  intros Ho Hkey. assert (Heq : key <$> (order m).*2 = (order m).*1).
  { rewrite <- list_fmap_compose. apply list_fmap_ext. intros i [id a] Hi. simpl. apply Hkey.
    apply elem_of_map_to_list. rewrite <- (Ho m). by eapply list_elem_of_lookup_2. }
  rewrite Heq. by apply iterates_NoDup.
Qed.

Section agreement.
Context (norder : gmap string NodeStatus -> list (string * NodeStatus)) (Hnorder : iterates norder).
Context (sorder : gmap string ShardInfo -> list (string * ShardInfo)) (Hsorder : iterates sorder).

Lemma alive_replicas_spec m sh : mem_wf m ->
  alive_replicas (Membership_All norder m) sh = Z.of_nat (length (filter (fun r => is_alive m r = true) (shReplicas sh))).
Proof.
  intros Hwf. unfold alive_replicas. f_equal. f_equal. apply list_filter_iff. intros rep.
  rewrite existsb_exists. unfold is_alive, Membership_Get. split.
  - intros (ns & Hin & [Hid%bool_decide_eq_true_1 Ha]%andb_true_iff). apply list_elem_of_In in Hin.
    unfold Membership_All in Hin. apply list_elem_of_fmap in Hin as ([id ns'] & -> & Hin).
    rewrite (Hnorder _) in Hin. apply elem_of_map_to_list in Hin. simpl in *.
    destruct (Hwf _ _ Hin) as [Hn _]. rewrite <- Hid, Hn. by rewrite Hin.
  - destruct (memNodes m !! rep) as [ns|] eqn:Hr; [|done]. intros Ha. exists ns. destruct (Hwf _ _ Hr) as [Hn _]. split.
    + apply list_elem_of_In, list_elem_of_fmap. exists (rep, ns). split; [done|].
      rewrite (Hnorder _). by apply elem_of_map_to_list.
    + by rewrite bool_decide_true.
Qed.

Lemma filter_fmap_length {A B} (f : A -> B) (P : B -> Prop) (Q : A -> Prop) `{!forall b, Decision (P b), !forall a, Decision (Q a)} l :
  (forall a, P (f a) <-> Q a) -> length (filter P (f <$> l)) = length (filter Q l).
Proof.
  intros HPQ. induction l as [|a l IH]; [done|]. rewrite fmap_cons, !filter_cons.
  destruct (decide (P (f a))), (decide (Q a)); simpl; naive_solver.
Qed.

Lemma shard_health_fields s sh :
  shhInfo (shard_health s sh) = sh /\ shhTerm (shard_health s sh) = TermForShard (coLeader s) (shID sh) /\
  shhQuorumAlive (shard_health s sh) =
    (shQuorum sh <=? Z.of_nat (length (filter (fun r => is_alive (coMembership s) r = true) (shReplicas sh)))).
Proof. unfold shard_health. by destruct (replica_versions _ _). Qed.

(** C39: The views of a cluster agree.  The gRPC status carries the nodes and the
    shards of the status page under the same version; the gauges count the shards
    of that page, those with a leader and those it reports a quorum for, and show
    each shard's term and each node's liveness as the page does; the leader query
    of the gRPC service answers as the HTTP one. *)
Theorem status_views_agree now s g :
  co_wf (coMigration s) ->
  let page := Coordinator.handleStatus norder sorder now s in
  let g' := refreshMetrics norder sorder s g in
  grpcGetStatus norder sorder now s =
    mkGetStatusResponse (csShardMapVersion page) (csNodes page) (shardInfoToProto (shhInfo <$> csShards page)) /\
  cgShardsTotal g' = Z.of_nat (length (csShards page)) /\
  cgShardsWithLeader g' = Z.of_nat (length (filter (fun h => shLeader (shhInfo h) <> "") (csShards page))) /\
  cgShardsQuorumAvailable g' = Z.of_nat (length (filter (fun h => shhQuorumAlive h = true) (csShards page))) /\
  (forall h, h ∈ csShards page -> cgShardTerm g' !! shID (shhInfo h) = Some (shhTerm h)) /\
  (forall n, n ∈ csNodes page -> cgNodeAlive g' !! nhID n = Some (nhIsAlive n)) /\
  (forall id, grpcWhereIsLeader id s =
     (try r <- WhereIsLeader id s; Ok (mkWhereIsLeader (lqLeaderID r) (lqAddress r) (lqTerm r)))).
Proof.
  intros Hwf page g'. subst page g'. unfold Coordinator.handleStatus, grpcGetStatus, refreshMetrics, ShardMap_Snapshot.
  set (shards := (sorder (mapShards (coShards s))).*2).
  assert (Hinfo : shhInfo <$> (shard_health s <$> shards) = shards).
  { rewrite <- list_fmap_compose. rewrite <- (list_fmap_id shards) at 2. apply list_fmap_ext. intros i sh _. apply shard_health_fields. }
  destruct Hwf as ((Hmem & Hmap & _) & _). split_and!; cbn [csShardMapVersion csNodes csShards cgShardsTotal cgShardsWithLeader cgShardsQuorumAvailable cgShardTerm cgNodeAlive].
  - by rewrite Hinfo.
  - by rewrite length_fmap.
  - f_equal. symmetry. apply filter_fmap_length. intros sh. by rewrite (proj1 (shard_health_fields s sh)).
  - f_equal. symmetry. apply filter_fmap_length. intros sh.
    rewrite (proj2 (proj2 (shard_health_fields s sh))), Z.leb_le. by rewrite alive_replicas_spec.
  - intros h (sh & -> & Hin)%list_elem_of_fmap. destruct (shard_health_fields s sh) as (-> & -> & _).
    apply (foldl_gauge shID (fun sh => TermForShard (coLeader s) (shID sh))); [|done].
    apply iterates_keys; [done|]. intros id a Ha. by apply (map_wf_lookup _ _ _ Hmap) in Ha as [? _].
  - intros n (ns & -> & Hin)%list_elem_of_fmap. apply (foldl_gauge nstID nstIsAlive); [|done].
    apply iterates_keys; [done|]. intros id a Ha. by apply Hmem in Ha as [? _].
  - intros id. unfold grpcWhereIsLeader, WhereIsLeader. destruct (LeaderFor _ _); [|done]. by destruct (Membership_Get _ _).
Qed.
End agreement.

(** ** An example *)

Lemma status_views_agree_witness :
  let page := Coordinator.handleStatus map_to_list map_to_list 30 coordinator2 in
  let g' := refreshMetrics map_to_list map_to_list coordinator2 (mkGauges 0 0 0 ∅ ∅) in
  co_wf (coMigration coordinator2) /\
  cgShardsTotal g' = Z.of_nat (length (csShards page)) /\
  cgShardsQuorumAvailable g' = Z.of_nat (length (filter (fun h => shhQuorumAlive h = true) (csShards page))).
Proof.
  pose proof (status_views_agree map_to_list (fun m => reflexivity _) map_to_list (fun m => reflexivity _) 30 coordinator2
    (mkGauges 0 0 0 ∅ ∅) coordinator2_wf) as (_ & Htotal & _ & Hquorum & _).
  split; [exact coordinator2_wf|]. split; [exact Htotal|exact Hquorum].
Defined.
