(* ===== verification/CoordinatorMetrics.v ===== *)
(** The metrics of the coordinator, src/internal/metrics/metrics.go, and the places
    in src/coordinator that update them: the heartbeat and notice handlers, over
    gRPC and over HTTP, and the health monitor. *)

From stdpp Require Import relations.
From S2P Require Import Prelude Strconv Json JsonStruct Config ShardMap Membership Leader Migration Coordinator.
From S2P Require Import Prometheus Cluster Status.

Definition coordinator_families : list desc :=
  [mkDesc Gauge "doki_shards_total" "Total number of shards in the cluster." [];
   mkDesc Gauge "doki_shards_with_leader" "Number of shards that have an elected leader." [];
   mkDesc Gauge "doki_shards_quorum_available" "Number of shards where a majority of replicas are alive." [];
   mkDesc Gauge "doki_shard_term" "Current leader term for a shard." ["shard_id"];
   mkDesc Gauge "doki_node_alive" "1 if the node is alive according to the coordinator, 0 otherwise." ["node_id"];
   mkDesc Counter "doki_heartbeat_received_total" "Number of coordinator heartbeats received from each node." ["node_id"];
   mkDesc Counter "doki_leader_reassignments_total" "Number of coordinator-initiated leader reassignments per shard." ["shard_id"];
   mkDesc Counter "doki_notify_leader_total" "Number of /notify_leader calls by result." ["result"]].

(** What the coordinator does. *)
Inductive co_op :=
| CoOpHeartbeat (now : Z) (nodeID : string) (shards : list ShardStatus)
| CoOpHeartbeatHttp (now : Z) (body : option (string * list ShardStatus))
| CoOpNotify (shardID leaderID : string) (term : Z)
| CoOpNotifyHttp (body : option (string * string * Z))
| CoOpTick (now : Z)
| CoOpAddNode (body : option (string * string))
| CoOpMigrate (body : option (string * list string))
| CoOpSplit (body : option (string * string * list string)).

(** The ids a request brings in are valid UTF-8, as JSON decoding makes them. *)
Definition request_utf8 (op : co_op) : Prop :=
  match op with
  | CoOpAddNode (Some (nodeID, _)) => utf8_str nodeID
  | CoOpSplit (Some (_, newShard, _)) => utf8_str newShard
  | _ => True
  end.

Section metered.
Context {Reg : Type} `{!Prometheus Reg}.

Definition NewCoordinatorMetrics : option Reg := register_each coordinator_families.

(** ** The handlers with their counters

    The result is [None] if an update panics. *)

Definition Heartbeat_m (now : Z) (nodeID : string) (shards : list ShardStatus) (s : Coordinator * Reg)
    : option (result coerr Z * (Coordinator * Reg)) :=
  let '(res, c) := Heartbeat now nodeID shards (fst s) in
  match res with
  | Fail _ => Some (res, (c, snd s))
  | Ok _ => reg ← Inc "doki_heartbeat_received_total" [nodeID] (snd s); Some (res, (c, reg))
  end.

Definition handleHeartbeat_m (now : Z) (body : option (string * list ShardStatus)) (s : Coordinator * Reg)
    : option (result coerr Z * (Coordinator * Reg)) :=
  match body with
  | None => Some (Fail CoBadRequest, s)
  | Some (nodeID, shards) => Heartbeat_m now nodeID shards s
  end.

Definition notice_label (accepted : bool) : string := if accepted then "accepted" else "rejected".

Definition NotifyLeader_m (shardID leaderID : string) (term : Z) (s : Coordinator * Reg)
    : option ((bool * Z) * (Coordinator * Reg)) :=
  let '(res, c) := coNotifyLeader shardID leaderID term (fst s) in
  reg ← Inc "doki_notify_leader_total" [notice_label (fst res)] (snd s); Some (res, (c, reg)).

(** A request with missing fields is not counted. *)
Definition handleNotifyLeader_m (body : option (string * string * Z)) (s : Coordinator * Reg)
    : option (result coerr unit * (Coordinator * Reg)) :=
  let '(res, c) := handleNotifyLeader body (fst s) in
  match res with
  | Ok _ => reg ← Inc "doki_notify_leader_total" ["accepted"] (snd s); Some (res, (c, reg))
  | Fail CoStale => reg ← Inc "doki_notify_leader_total" ["rejected"] (snd s); Some (res, (c, reg))
  | Fail _ => Some (res, (c, snd s))
  end.

(** ** The health monitor *)

(** Set a gauge for each element. *)
Definition set_each {A} (name : string) (key : A -> string) (val : A -> Z) (l : list A) (reg : Reg) : option Reg :=
  foldl (fun o a => o ≫= GaugeSet name [key a] (val a)) (Some reg) l.

Section orders.
Context (norder : gmap string NodeStatus -> list (string * NodeStatus)).
Context (sorder : gmap string ShardInfo -> list (string * ShardInfo)).
Context (morder : gmap string migration -> list (string * migration)).

Definition refreshMetrics_m (s : Coordinator) (reg : Reg) : option Reg :=
  let '(_, shards) := ShardMap_Snapshot sorder (coShards s) in
  let nodes := Membership_All norder (coMembership s) in
  reg ← set_each "doki_shard_term" shID (fun sh => TermForShard (coLeader s) (shID sh)) shards reg;
  reg ← GaugeSet "doki_shards_total" [] (Z.of_nat (length shards)) reg;
  reg ← GaugeSet "doki_shards_with_leader" [] (Z.of_nat (length (filter (fun sh => shLeader sh <> "") shards))) reg;
  reg ← GaugeSet "doki_shards_quorum_available" []
          (Z.of_nat (length (filter (fun sh => shQuorum sh <= alive_replicas nodes sh) shards))) reg;
  set_each "doki_node_alive" nstID (fun ns => if nstIsAlive ns then 1 else 0) nodes reg.

Definition health_tick_m (now : Z) (s : Coordinator * Reg) : option (Coordinator * Reg) :=
  let '(changed, m) := RefreshLiveness norder now (coMembership (fst s)) in
  let c := set_membership m (fst s) in
  s1 ← match changed with
       | [] => Some (c, snd s)
       | _ =>
           let '(reassigned, lm) := CheckAndReassign sorder (coLeader c) in
           reg ← foldl (fun o id => o ≫= Inc "doki_leader_reassignments_total" [id]) (Some (snd s)) reassigned;
           Some (set_leader lm c, reg)
       end;
  let c := fst s1 <| coMigration ::= CheckMigrations sorder morder |> in
  reg ← refreshMetrics_m c (snd s1); Some (c, reg).

Definition run_co (op : co_op) (s : Coordinator) : Coordinator :=
  match op with
  | CoOpHeartbeat now nodeID shards => (Heartbeat now nodeID shards s).2
  | CoOpHeartbeatHttp now body => (handleHeartbeat now body s).2
  | CoOpNotify shardID leaderID term => (coNotifyLeader shardID leaderID term s).2
  | CoOpNotifyHttp body => (handleNotifyLeader body s).2
  | CoOpTick now => health_tick norder sorder morder now s
  | CoOpAddNode body => (handleAdminAddNode body s).2
  | CoOpMigrate body => (handleAdminMigrateShard body s).2
  | CoOpSplit body => (handleAdminSplitShard body s).2
  end.

Definition run_co_m (op : co_op) (s : Coordinator * Reg) : option (Coordinator * Reg) :=
  match op with
  | CoOpHeartbeat now nodeID shards => snd <$> Heartbeat_m now nodeID shards s
  | CoOpHeartbeatHttp now body => snd <$> handleHeartbeat_m now body s
  | CoOpNotify shardID leaderID term => snd <$> NotifyLeader_m shardID leaderID term s
  | CoOpNotifyHttp body => snd <$> handleNotifyLeader_m body s
  | CoOpTick now => health_tick_m now s
  | CoOpAddNode _ | CoOpMigrate _ | CoOpSplit _ => Some (run_co op (fst s), snd s)
  end.

Fixpoint run_co_ops_m (ops : list co_op) (s : Coordinator * Reg) : option (Coordinator * Reg) :=
  match ops with [] => Some s | op :: ops' => s' ← run_co_m op s; run_co_ops_m ops' s' end.

(** The shards a tick appoints a new leader for, because liveness changed. *)
Definition tick_reassigned (now : Z) (s : Coordinator) : list string :=
  let '(changed, m) := RefreshLiveness norder now (coMembership s) in
  match changed with [] => [] | _ => (CheckAndReassign sorder (coLeader (set_membership m s))).1 end.

(** What is to be counted: the heartbeats and the election notices that were not
    refused as malformed, and the reassignments. *)
Definition co_events (op : co_op) (s : Coordinator) : list event :=
  let beat now nodeID shards :=
    match (Heartbeat now nodeID shards s).1 with Ok _ => [("doki_heartbeat_received_total", [nodeID])] | Fail _ => [] end in
  match op with
  | CoOpHeartbeat now nodeID shards => beat now nodeID shards
  | CoOpHeartbeatHttp now (Some (nodeID, shards)) => beat now nodeID shards
  | CoOpNotify shardID leaderID term =>
      [("doki_notify_leader_total", [notice_label (coNotifyLeader shardID leaderID term s).1.1])]
  | CoOpNotifyHttp body =>
      match (handleNotifyLeader body s).1 with
      | Ok _ => [("doki_notify_leader_total", ["accepted"])]
      | Fail CoStale => [("doki_notify_leader_total", ["rejected"])]
      | Fail _ => []
      end
  | CoOpTick now => (fun id => ("doki_leader_reassignments_total", [id])) <$> tick_reassigned now s
  | _ => []
  end.

Fixpoint co_run_events (ops : list co_op) (s : Coordinator) : list event :=
  match ops with [] => [] | op :: ops' => co_events op s ++ co_run_events ops' (run_co op s) end.
End orders.

(** ** No update panics *)

Context `{!PrometheusLaws Reg}.

Lemma NewCoordinatorMetrics_registers :
  exists reg, NewCoordinatorMetrics = Some reg /\ registered coordinator_families reg /\ forall n lvs, value n lvs reg = 0.
Proof. apply register_registers; [apply (bool_decide_eq_true_1 _)|]; by vm_compute. Qed.

Lemma inc_each name (l : list string) reg :
  registered coordinator_families reg -> family coordinator_families Counter name 1 = true -> Forall utf8_str l ->
  exists reg', foldl (fun o id => o ≫= Inc name [id]) (Some reg) l = Some reg' /\
    counts coordinator_families reg ((fun id => (name, [id])) <$> l) reg'.
Proof.
  intros Hreg Hf Hl. induction l as [|id l IH] using rev_ind; [exists reg; split; [done|by apply counts_nil]|].
  apply Forall_app in Hl as [Hl Hid]. destruct (IH Hl) as (reg1 & Heq & Hc1). rewrite foldl_app, Heq. cbn [foldl mbind option_bind].
  destruct (inc_counts coordinator_families name [id] reg1) as (reg2 & -> & Hc2); [apply Hc1|done|done|].
  exists reg2. split; [done|]. rewrite fmap_app. exact (counts_app _ _ _ _ _ _ Hc1 Hc2).
Qed.

(** Setting a gauge for elements with distinct keys leaves it at their values,
    and every other metric as it was. *)
Lemma set_each_spec {A} name (key : A -> string) (val : A -> Z) l reg :
  registered coordinator_families reg -> family coordinator_families Gauge name 1 = true ->
  Forall utf8_str (key <$> l) -> NoDup (key <$> l) ->
  exists reg', set_each name key val l reg = Some reg' /\ registered coordinator_families reg' /\
    counts coordinator_families reg [] reg' /\
    (forall a, a ∈ l -> value name [key a] reg' = val a) /\
    (forall name' lvs, name' <> name -> value name' lvs reg' = value name' lvs reg).
Proof.
  intros Hreg Hf. unfold set_each. induction l as [|a l IH] using rev_ind; intros Hu Hnd.
  { exists reg. split_and!; [done|done|by apply counts_nil|by intros a ?%elem_of_nil|done]. }
  rewrite fmap_app in Hu, Hnd. apply Forall_app in Hu as [Hu Ha]. apply NoDup_app in Hnd as (Hnd & Hfresh & _).
  destruct (IH Hu Hnd) as (reg1 & Heq & Hreg1 & Hc1 & Hval & Hkeep). rewrite foldl_app, Heq. cbn [foldl mbind option_bind].
  destruct (set_gauge name [key a] (val a) reg1) as (reg2 & -> & Hc); [by apply (registered_takes coordinator_families)|].
  exists reg2. pose proof Hc as (_ & Hv & Hother). split_and!; [done|by eapply changed_registered| | |].
  - exact (counts_app _ _ _ _ _ _ Hc1 (changed_counts coordinator_families Gauge _ [key a] _ _ _ Hreg1 ltac:(done) Hf Hc)).
  - intros b [Hb| ->%list_elem_of_singleton]%elem_of_app; [|done]. rewrite Hother; [by apply Hval|].
    intros [= He]. apply (Hfresh (key b)); [by apply list_elem_of_fmap_2|]. rewrite He. simpl. set_solver.
  - intros name' lvs Hn. rewrite Hother by congruence. by apply Hkeep.
Qed.

Lemma set_one_spec name v reg :
  registered coordinator_families reg -> family coordinator_families Gauge name 0 = true ->
  exists reg', GaugeSet name [] v reg = Some reg' /\ counts coordinator_families reg [] reg' /\ value name [] reg' = v /\
    (forall name' lvs, name' <> name -> value name' lvs reg' = value name' lvs reg).
Proof.
  intros Hreg Hf. destruct (set_registered coordinator_families name [] v reg) as (reg' & Heq & Hreg' & Hc); [done..|].
  exists reg'. split; [done|]. split; [by eapply (changed_counts coordinator_families Gauge name [])|]. destruct Hc as (_ & Hv & Hkeep).
  split; [done|]. intros. apply Hkeep. congruence.
Qed.

Section runs.
Context (norder : gmap string NodeStatus -> list (string * NodeStatus)) (Hnorder : iterates norder).
Context (sorder : gmap string ShardInfo -> list (string * ShardInfo)) (Hsorder : iterates sorder).
Context (morder : gmap string migration -> list (string * migration)) (Hmorder : iterates morder).

(** All ids the coordinator knows are valid UTF-8. *)
Definition ids_utf8 (s : Coordinator) : Prop :=
  (forall id, id ∈ dom (memNodes (coMembership s)) -> utf8_str id) /\
  (forall id, id ∈ dom (mapShards (coShards s)) -> utf8_str id).

Lemma node_ids m : mem_wf m -> (forall id, id ∈ dom (memNodes m) -> utf8_str id) ->
  Forall utf8_str (nstID <$> Membership_All norder m) /\ NoDup (nstID <$> Membership_All norder m).
Proof.
  intros Hwf Hu. split; [|apply iterates_keys; [done|]; intros id a Ha; by destruct (Hwf _ _ Ha)].
  rewrite Forall_fmap, Forall_forall. intros ns Hin. unfold Membership_All in Hin.
  apply list_elem_of_fmap in Hin as ([id ns'] & -> & Hin). apply (iterates_elem norder) in Hin; [|done].
  simpl. destruct (Hwf _ _ Hin) as [-> _]. apply Hu. by apply elem_of_dom_2 in Hin.
Qed.

Lemma shard_ids m : map_wf m -> (forall id, id ∈ dom (mapShards m) -> utf8_str id) ->
  Forall utf8_str (shID <$> (ShardMap_Snapshot sorder m).2) /\ NoDup (shID <$> (ShardMap_Snapshot sorder m).2).
Proof.
  intros Hwf Hu. split; [|apply iterates_keys; [done|]; intros id a Ha; by destruct (map_wf_lookup _ _ _ Hwf Ha)].
  rewrite Forall_fmap, Forall_forall. intros sh Hin. apply list_elem_of_fmap in Hin as ([id sh'] & -> & Hin).
  apply (iterates_elem sorder) in Hin; [|done]. simpl. destruct (map_wf_lookup _ _ _ Hwf Hin) as [-> _]. apply Hu. by apply elem_of_dom_2 in Hin.
Qed.

(** The registry shows the gauges [g] for the shards and the nodes of [s]. *)
Definition shows_gauges (s : Coordinator) (g : CoordinatorGauges) (reg : Reg) : Prop :=
  value "doki_shards_total" [] reg = cgShardsTotal g /\
  value "doki_shards_with_leader" [] reg = cgShardsWithLeader g /\
  value "doki_shards_quorum_available" [] reg = cgShardsQuorumAvailable g /\
  (forall id, id ∈ dom (mapShards (coShards s)) -> cgShardTerm g !! id = Some (value "doki_shard_term" [id] reg)) /\
  (forall id, id ∈ dom (memNodes (coMembership s)) ->
     exists alive : bool, cgNodeAlive g !! id = Some alive /\ value "doki_node_alive" [id] reg = if alive then 1 else 0).

Lemma refreshMetrics_m_spec s g reg :
  co_wf (coMigration s) -> ids_utf8 s -> registered coordinator_families reg ->
  exists reg', refreshMetrics_m norder sorder s reg = Some reg' /\ counts coordinator_families reg [] reg' /\
    shows_gauges s (refreshMetrics norder sorder s g) reg'.
Proof.
  intros ((Hmem & Hmap & _) & _) [Hun Hus] Hreg. unfold refreshMetrics_m, refreshMetrics.
  destruct (shard_ids _ Hmap Hus) as [Hsu Hsnd]. destruct (node_ids _ Hmem Hun) as [Hnu Hnnd].
  unfold ShardMap_Snapshot in *. cbn [snd] in *. set (shards := (sorder (mapShards (coShards s))).*2) in *.
  set (nodes := Membership_All norder (coMembership s)) in *.
  destruct (set_each_spec "doki_shard_term" shID (fun sh => TermForShard (coLeader s) (shID sh)) shards reg)
    as (reg1 & -> & Hreg1 & Hc1 & Hv1 & Hk1); [done..|]. cbn [mbind option_bind].
  destruct (set_one_spec "doki_shards_total" (Z.of_nat (length shards)) reg1 Hreg1 eq_refl) as (reg2 & -> & Hc2 & Hv2 & Hk2).
  cbn [mbind option_bind].
  destruct (set_one_spec "doki_shards_with_leader" (Z.of_nat (length (filter (fun sh => shLeader sh <> "") shards))) reg2
    (proj1 Hc2) eq_refl) as (reg3 & -> & Hc3 & Hv3 & Hk3). cbn [mbind option_bind].
  destruct (set_one_spec "doki_shards_quorum_available" (Z.of_nat (length (filter (fun sh => shQuorum sh <= alive_replicas nodes sh) shards)))
    reg3 (proj1 Hc3) eq_refl) as (reg4 & -> & Hc4 & Hv4 & Hk4). cbn [mbind option_bind].
  destruct (set_each_spec "doki_node_alive" nstID (fun ns => if nstIsAlive ns then 1 else 0) nodes reg4)
    as (reg5 & -> & Hreg5 & Hc5 & Hv5 & Hk5); [apply Hc4|done..|].
  exists reg5. split; [done|]. split.
  { exact (counts_app _ _ _ _ _ _ Hc1 (counts_app _ _ _ _ _ _ Hc2 (counts_app _ _ _ _ _ _ Hc3 (counts_app _ _ _ _ _ _ Hc4 Hc5)))). }
  unfold shows_gauges. cbn [cgShardsTotal cgShardsWithLeader cgShardsQuorumAvailable cgShardTerm cgNodeAlive].
  split_and!; [by rewrite Hk5, Hk4, Hk3, Hv2|by rewrite Hk5, Hk4, Hv3|by rewrite Hk5, Hv4| |].
  - intros id [sh Hsh]%elem_of_dom. destruct (map_wf_lookup _ _ _ Hmap Hsh) as [<- _].
    assert (Hin : sh ∈ shards) by (apply list_elem_of_fmap; exists (shID sh, sh); split; [done|by apply iterates_elem]).
    rewrite (foldl_gauge shID (fun sh => TermForShard (coLeader s) (shID sh)) shards) by done.
    by rewrite Hk5, Hk4, Hk3, Hk2, Hv1.
  - intros id [ns Hns]%elem_of_dom. destruct (Hmem _ _ Hns) as [<- _].
    assert (Hin : ns ∈ nodes) by (apply list_elem_of_fmap; exists (nstID ns, ns); split; [done|by apply iterates_elem]).
    exists (nstIsAlive ns). by rewrite (foldl_gauge nstID nstIsAlive nodes), Hv5.
Qed.

Lemma run_co_step op s : co_step s (run_co norder sorder morder op s).
Proof. destruct op; by constructor. Qed.

Lemma CheckMigrations_membership mm :
  mm_wf mm -> mmMembership (CheckMigrations sorder morder mm) = mmMembership mm.
Proof.
  intros Hwf. destruct (exist_fresh (dom (mmMigrations mm))) as [id Hid%not_elem_of_dom].
  by destruct (CheckMigrations_idle sorder Hsorder morder mm id Hmorder Hwf Hid) as (_ & Hm & _).
Qed.

(** A tick keeps the ids of the nodes and of the shards. *)
Lemma health_tick_ids now s :
  co_wf (coMigration s) ->
  let s' := health_tick norder sorder morder now s in
  dom (memNodes (coMembership s')) = dom (memNodes (coMembership s)) /\
  dom (mapShards (coShards s')) = dom (mapShards (coShards s)).
Proof.
  intros Hwf. split; [|apply updates_dom, health_tick_updates]. unfold health_tick.
  destruct (RefreshLiveness norder now (coMembership s)) as [changed m] eqn:Hl.
  assert (Hm : dom (memNodes m) = dom (memNodes (coMembership s))) by (injection Hl as _ <-; simpl; by rewrite dom_fmap_L).
  pose proof (RefreshLiveness_wf norder now (coMembership s) (proj1 (proj1 Hwf))) as Hmw. rewrite Hl in Hmw.
  pose proof (set_membership_wf m s Hwf Hmw) as Hwf1. cbv zeta. rewrite <- Hm. unfold coMembership. simpl.
  destruct changed as [|c changed].
  - rewrite CheckMigrations_membership; [done|apply Hwf1].
  - destruct (reassign_shards sorder Hsorder (coMigration (set_membership m s)) (proj1 Hwf1)) as (_ & Hmem & Hwf2).
    match goal with |- context [CheckMigrations _ _ ?mm] => change mm with (reassign sorder (coMigration (set_membership m s))) end.
    rewrite CheckMigrations_membership by exact Hwf2. by rewrite Hmem.
Qed.

Lemma ids_utf8_step op s :
  co_wf (coMigration s) -> ids_utf8 s -> request_utf8 op -> ids_utf8 (run_co norder sorder morder op s).
Proof.
  intros Hwf [Hn Hs] Hop.
  assert (Hbeat : forall now nodeID shards, ids_utf8 (Heartbeat now nodeID shards s).2).
  { intros now nodeID shards. unfold Heartbeat, RecordHeartbeat. destruct (memNodes _ !! nodeID) as [ns|] eqn:Hns; [|done].
    split; [|done]. intros id. simpl. rewrite dom_insert_lookup_L by by rewrite Hns. apply Hn. }
  assert (Hnotice : forall shardID leaderID term, ids_utf8 (set_leader (NotifyLeader shardID leaderID term (coLeader s)).2 s)).
  { intros shardID leaderID term. split.
    - unfold NotifyLeader. destruct (lmTerms _ !! _); [|done]. destruct (_ <=? _); [done|]. by destruct (SetLeader _ _ _).
    - intros id. simpl. pose proof (updates_dom _ _ (NotifyLeader_updates shardID leaderID term (coLeader s))) as Hd.
      unfold coShards, mmShards. simpl. rewrite Hd. apply Hs. }
  destruct op as [now nodeID shards|now [[nodeID shards]|]|shardID leaderID term|[[[shardID leaderID] term]|]|now|
    [[nodeID addr]|]|[[shardID new]|]|[[[source newShard] new]|]]; cbn [run_co]; try done; try apply Hbeat.
  - specialize (Hnotice shardID leaderID term). unfold coNotifyLeader. by destruct (NotifyLeader _ _ _ _).
  - simpl. case_decide; [done|]. specialize (Hnotice shardID leaderID term). by destruct (NotifyLeader _ _ _ _).
  - destruct (health_tick_ids now s Hwf) as [Hdn Hds]. split; [by rewrite Hdn|by rewrite Hds].
  - simpl. case_decide; [done|]. split; [|done]. intros id. simpl. unfold AddNode. simpl.
    destruct (memNodes _ !! nodeID); simpl; rewrite dom_insert_L; intros [->%elem_of_singleton|Hid]%elem_of_union; by auto.
  - simpl. case_decide; [done|]. pose proof (updates_dom _ _ (StartMigration_updates shardID new (coMigration s))) as Hd.
    assert (Hmem : mmMembership (StartMigration shardID new (coMigration s)).2 = mmMembership (coMigration s)).
    { unfold StartMigration. destruct (ShardMap_Get _ _); [|done]. destruct (SetReplicas _ _ _); [|done].
      cbv zeta. by destruct (SetIncomingReplicas _ _ _). }
    destruct (StartMigration shardID new (coMigration s)) as [[] mm]; cbn [snd] in *; unfold ids_utf8, coMembership, coShards in *;
      simpl; rewrite Hmem, Hd; done.
  - simpl. case_decide; [done|]. destruct (ShardMap_Get _ _); [|done]. unfold AddShard.
    cbn [shID]. destruct (mapShards (coShards s) !! newShard); [done|]. split.
    + intros id. simpl. unfold InitTerm. simpl. destruct (lmTerms _ !! _); apply Hn.
    + intros id. simpl. assert (Hd : id ∈ dom (<[newShard := mkShard newShard new "" source []]> (mapShards (coShards s))) -> utf8_str id).
      { rewrite dom_insert_L. intros [->%elem_of_singleton|Hid]%elem_of_union; by auto. }
      unfold InitTerm. simpl. destruct (lmTerms _ !! _); apply Hd.
Qed.

(** The shards a tick reassigns are shards of the map. *)
Lemma tick_reassigned_ids now s id :
  co_wf (coMigration s) -> id ∈ tick_reassigned norder sorder now s -> id ∈ dom (mapShards (coShards s)).
Proof.
  intros Hwf. unfold tick_reassigned. destruct (RefreshLiveness norder now (coMembership s)) as [changed m] eqn:Hl.
  pose proof (RefreshLiveness_wf norder now (coMembership s) (proj1 (proj1 Hwf))) as Hmw. rewrite Hl in Hmw.
  destruct changed as [|c changed]; [by intros ?%elem_of_nil|].
  pose proof (CheckAndReassign_facts sorder Hsorder (coLeader (set_membership m s)) Hmw (map_wf_filed _ (proj1 (proj2 (proj1 Hwf))))) as Hf.
  destruct (CheckAndReassign sorder (coLeader (set_membership m s))) as [ch lm]. destruct Hf as (_ & _ & _ & _ & Hch & _).
  cbn [fst]. intros Hid%Hch. apply elem_of_dom. change (lmShards (coLeader (set_membership m s))) with (coShards s) in Hid.
  destruct (mapShards (coShards s) !! id); [done|by destruct Hid].
Qed.

(** A tick does what it does without metrics; the reassignments because of
    liveness are counted, and the gauges show the state it leaves. *)
Lemma health_tick_m_spec now s g reg :
  co_wf (coMigration s) -> ids_utf8 s -> registered coordinator_families reg ->
  let s' := health_tick norder sorder morder now s in
  exists reg', health_tick_m norder sorder morder now (s, reg) = Some (s', reg') /\
    counts coordinator_families reg ((fun id => ("doki_leader_reassignments_total", [id])) <$> tick_reassigned norder sorder now s) reg' /\
    shows_gauges s' (refreshMetrics norder sorder s' g) reg'.
Proof.
  intros Hwf Hu Hreg s'. pose proof (co_step_wf _ _ (run_co_step (CoOpTick now) s) Hwf) as Hwf'.
  pose proof (ids_utf8_step (CoOpTick now) s Hwf Hu I) as Hu'. cbn [run_co] in Hwf', Hu'. fold s' in Hwf', Hu'.
  assert (Hids : Forall utf8_str (tick_reassigned norder sorder now s))
    by (apply Forall_forall; intros id Hid; eapply Hu, tick_reassigned_ids; eauto).
  destruct (inc_each "doki_leader_reassignments_total" _ reg Hreg eq_refl Hids) as (reg1 & Heq & Hc1).
  destruct (refreshMetrics_m_spec s' g reg1 Hwf' Hu' (proj1 Hc1)) as (reg2 & Heq2 & Hc2 & Hg).
  exists reg2. split_and!; [|pose proof (counts_app _ _ _ _ _ _ Hc1 Hc2) as Hc; by rewrite app_nil_r in Hc|done].
  unfold health_tick_m, tick_reassigned in *. cbn [fst snd]. unfold s', health_tick in *.
  destruct (RefreshLiveness norder now (coMembership s)) as [[|c changed] m]; cbn [mbind option_bind fst snd].
  - simpl in Heq. injection Heq as <-. by rewrite Heq2.
  - destruct (CheckAndReassign sorder (coLeader (set_membership m s))) as [ch lm]. cbn [fst snd] in *. rewrite Heq.
    cbn [mbind option_bind fst snd]. by rewrite Heq2.
Qed.

(** One operation: it does what it does without metrics, and what is to be
    counted is counted. *)
Lemma run_co_counts op s reg :
  co_wf (coMigration s) -> ids_utf8 s -> request_utf8 op -> registered coordinator_families reg ->
  exists reg', run_co_m norder sorder morder op (s, reg) = Some (run_co norder sorder morder op s, reg') /\
    counts coordinator_families reg (co_events norder sorder op s) reg'.
Proof.
  intros Hwf Hu Hop Hreg.
  assert (Hquiet : exists reg', Some (run_co norder sorder morder op s, reg) = Some (run_co norder sorder morder op s, reg') /\
    counts coordinator_families reg [] reg') by (exists reg; split; [done|by apply counts_nil]).
  assert (Hbeat : forall now nodeID shards, exists reg',
    snd <$> Heartbeat_m now nodeID shards (s, reg) = Some ((Heartbeat now nodeID shards s).2, reg') /\
    counts coordinator_families reg
      match (Heartbeat now nodeID shards s).1 with Ok _ => [("doki_heartbeat_received_total", [nodeID])] | Fail _ => [] end reg').
  { intros now nodeID shards. unfold Heartbeat_m. cbn [fst snd]. unfold Heartbeat, RecordHeartbeat.
    destruct (memNodes _ !! nodeID) as [ns|] eqn:Hns; [|exists reg; split; [done|by apply counts_nil]].
    destruct (inc_counts coordinator_families "doki_heartbeat_received_total" [nodeID] reg) as (reg1 & Heq & Hc);
      [done|done|apply Forall_singleton, (proj1 Hu); by apply elem_of_dom_2 in Hns|].
    exists reg1. cbn [fst snd]. rewrite Heq. done. }
  assert (Hnotice : forall label, label = "accepted" \/ label = "rejected" -> exists reg',
    Inc "doki_notify_leader_total" [label] reg = Some reg' /\ counts coordinator_families reg [("doki_notify_leader_total", [label])] reg').
  { intros label Hl. apply inc_counts; [done|done|]. destruct Hl as [->| ->]; repeat constructor; utf8_ascii. }
  destruct op as [now nodeID shards|now [[nodeID shards]|]|shardID leaderID term|body|now|body|body|body];
    cbn [run_co_m run_co co_events]; try done; try apply Hbeat.
  - unfold NotifyLeader_m. cbn [fst snd]. destruct (coNotifyLeader shardID leaderID term s) as [[accepted t] c]. cbn [fst snd].
    destruct (Hnotice (notice_label accepted)) as (reg' & -> & Hc); [destruct accepted; auto|]. by exists reg'.
  - unfold handleNotifyLeader_m. cbn [fst snd]. destruct (handleNotifyLeader body s) as [[u|e] c]; cbn [fst snd].
    + destruct (Hnotice "accepted") as (reg' & -> & Hc); [by left|]. by exists reg'.
    + assert (Hq : exists reg', Some (c, reg) = Some (c, reg') /\ counts coordinator_families reg [] reg')
        by (exists reg; split; [done|by apply counts_nil]).
      destruct e; try exact Hq. destruct (Hnotice "rejected") as (reg' & -> & Hc); [by right|]. by exists reg'.
  - destruct (health_tick_m_spec now s (mkGauges 0 0 0 ∅ ∅) reg Hwf Hu Hreg) as (reg' & Heq & Hc & _). by exists reg'.
Qed.

(** The counters of the coordinator.  From a well-formed state, whatever the nodes
    and the operators ask and whenever the health monitor ticks: no update of a
    metric panics, the coordinator does what it does without metrics, and every
    counter has grown by the heartbeats, notices and reassignments it is for. *)
Theorem coordinator_counters ops s reg :
  co_wf (coMigration s) -> ids_utf8 s -> Forall request_utf8 ops -> registered coordinator_families reg ->
  exists reg', run_co_ops_m norder sorder morder ops (s, reg) = Some (foldl (fun s op => run_co norder sorder morder op s) s ops, reg') /\
    counts coordinator_families reg (co_run_events norder sorder morder ops s) reg'.
Proof.
  revert s reg. induction ops as [|op ops IH]; intros s reg Hwf Hu Hops Hreg; cbn [run_co_ops_m co_run_events foldl].
  { exists reg. split; [done|by apply counts_nil]. }
  apply Forall_cons in Hops as [Hop Hops]. destruct (run_co_counts op s reg Hwf Hu Hop Hreg) as (reg1 & -> & Hc1).
  cbn [mbind option_bind].
  destruct (IH (run_co norder sorder morder op s) reg1) as (reg2 & Heq & Hc2);
    [by eapply co_step_wf, Hwf; apply run_co_step|by apply ids_utf8_step|done|apply Hc1|].
  exists reg2. split; [exact Heq|by eapply counts_app].
Qed.
End runs.
End metered.

(** ** Concrete runs *)

(** The leader moves to [n2] by a migration: the monitor ticks once the new
    replica has reported. *)
Definition ops_of_migration : list co_op :=
  [CoOpMigrate (Some ("s1", ["n2"])); CoOpHeartbeat 30 "n2" [status_of "s1" 4]; CoOpTick 40].

Lemma coordinator1_ids : ids_utf8 coordinator1.
Proof.
  assert (Hn : dom (memNodes (coMembership coordinator1)) ⊆ ({["n1"; "n2"; "n3"]} : gset string) /\
               dom (mapShards (coShards coordinator1)) ⊆ ({["s1"]} : gset string))
    by (apply (bool_decide_eq_true_1 _); by vm_compute).
  destruct Hn as [Hn Hs]. split; [intros id Hid%Hn|intros id Hid%Hs]; set_unfold in Hid;
    destruct_or? Hid; subst; utf8_ascii.
Qed.

Lemma coordinator1_wf : co_wf (coMigration coordinator1).
Proof. split; [split; [|split; [split|]]|split]; apply (bool_decide_eq_true_1 _); by vm_compute. Qed.

Lemma coordinator_counters_witness :
  exists reg reg' : registry, NewCoordinatorMetrics = Some reg /\
    run_co_ops_m map_to_list map_to_list map_to_list ops_of_migration (coordinator1, reg) =
      Some (foldl (fun s op => run_co map_to_list map_to_list map_to_list op s) coordinator1 ops_of_migration, reg') /\
    counts coordinator_families reg [("doki_heartbeat_received_total", ["n2"])] reg'.
Proof.
  destruct (NewCoordinatorMetrics_registers (Reg := registry)) as (reg & Heq & Hreg & _).
  assert (Hops : Forall request_utf8 ops_of_migration) by by repeat constructor.
  destruct (coordinator_counters map_to_list (fun m => reflexivity _) map_to_list (fun m => reflexivity _)
    map_to_list (fun m => reflexivity _) ops_of_migration coordinator1 reg coordinator1_wf coordinator1_ids Hops Hreg)
    as (reg' & Hrun & Hc).
  exists reg, reg'. split; [exact Heq|]. split; [exact Hrun|exact Hc].
Defined.

(** A leader appointed by a migration is not counted as a reassignment, although
    it is the coordinator that reassigns it. *)
Theorem migration_reassignment_uncounted :
  match NewCoordinatorMetrics ≫= fun reg : registry =>
          run_co_ops_m map_to_list map_to_list map_to_list ops_of_migration (coordinator1, reg) with
  | Some (s, reg) =>
      LeaderFor (coShards coordinator1) "s1" = Ok "n1" /\ LeaderFor (coShards s) "s1" = Ok "n2" /\
      TermForShard (coLeader s) "s1" = TermForShard (coLeader coordinator1) "s1" + 1 /\
      value "doki_leader_reassignments_total" ["s1"] reg = 0
  | None => False
  end.
Proof. vm_compute. by split_and!. Qed.
