(* ===== verification/Harness.v ===== *)
(** The test harness of the repository, src/test/reliability: the transport that
    injects faults, the client helpers, the load generator with its tracker of
    acknowledged writes, and the assertions on a running cluster.

    Requests go through [get] and [post] as in [Http] and [KvHttp].  The clock
    readings and answers of a polling loop are a list, one pair for each turn.
    Durations are in nanoseconds; starting processes and listeners is left out. *)

From S2P Require Import Prelude Strconv Fs Json JsonStruct Storage StateMachine Config Replica Write Kv ShardMap Membership.
From S2P Require Import Leader Migration Coordinator Server Http KvHttp Status.
From Stdlib Require Import Ascii.

(** ** Fault injection *)

Record faultTransport := mkFaultTransport { ftSlow : gmap string Z; ftDropped : gmap string bool }.
#[global] Instance faultTransport_eta : Eta faultTransport := fun ft => mkFaultTransport (ftSlow ft) (ftDropped ft).

Definition newFaultTransport : faultTransport := mkFaultTransport ∅ ∅.

Inductive rterr := RtPartitioned (host : string) | RtContext | RtInner.

(** [patience] is the time until the request's context is done, [None] for
    never; [inner] is the default transport with the time that is left.  When the
    context and the timer are done together, [tie] is the choice of [select]. *)
Definition RoundTrip {A} (tie : bool) (patience : option Z) (host : string) (inner : option Z -> result rterr A)
    (ft : faultTransport) : result rterr A :=
  if default false (ftDropped ft !! host) then Fail (RtPartitioned host)
  else
    let latency := default 0 (ftSlow ft !! host) in
    if 0 <? latency then
      match patience with
      | None => inner None
      | Some p => if (p <? latency) || ((p =? latency) && tie) then Fail RtContext else inner (Some (p - latency))
      end
    else inner patience.

Definition setLatency (addr : string) (d : Z) (ft : faultTransport) : faultTransport :=
  if decide (d = 0) then ft <| ftSlow ::= delete addr |> else ft <| ftSlow ::= <[addr := d]> |>.

Definition setDropped (addr : string) (drop : bool) (ft : faultTransport) : faultTransport :=
  if negb drop then ft <| ftDropped ::= delete addr |> else ft <| ftDropped ::= <[addr := true]> |>.

(** What the operations of this file use of [reliabilityCluster]; [rcRunning]
    are the keys of [nodeCancels]. *)
Record reliabilityCluster := mkReliability {
  rcCoordinatorAddr : string;
  rcNodeAddrs : gmap string string;
  rcRunning : gset string;
  rcFt : faultTransport;
}.
#[global] Instance reliabilityCluster_eta : Eta reliabilityCluster := fun rc =>
  mkReliability (rcCoordinatorAddr rc) (rcNodeAddrs rc) (rcRunning rc) (rcFt rc).

Definition on_addr (id : string) (f : string -> faultTransport -> faultTransport) (rc : reliabilityCluster) : reliabilityCluster :=
  match rcNodeAddrs rc !! id with None => rc | Some addr => rc <| rcFt ::= f addr |> end.

Definition StopNode (id : string) (rc : reliabilityCluster) : reliabilityCluster := rc <| rcRunning ::= fun s => s ∖ {[id]} |>.
Definition SlowNode (id : string) (latency : Z) : reliabilityCluster -> reliabilityCluster :=
  on_addr id (fun addr => setLatency addr latency).
Definition HealNode (id : string) : reliabilityCluster -> reliabilityCluster :=
  on_addr id (fun addr ft => setDropped addr false (setLatency addr 0 ft)).
Definition PartitionNode (id : string) : reliabilityCluster -> reliabilityCluster := on_addr id (fun addr => setDropped addr true).
Definition HealPartition : string -> reliabilityCluster -> reliabilityCluster := HealNode.

Inductive chaos := ChaosStop (id : string) | ChaosSlow (id : string) (latency : Z) | ChaosPartition (id : string)
| ChaosHeal (id : string).

Definition chaos_target (f : chaos) : string :=
  match f with ChaosStop id | ChaosSlow id _ | ChaosPartition id | ChaosHeal id => id end.

Definition inject (rc : reliabilityCluster) (f : chaos) : reliabilityCluster :=
  match f with
  | ChaosStop id => StopNode id rc
  | ChaosSlow id latency => SlowNode id latency rc
  | ChaosPartition id => PartitionNode id rc
  | ChaosHeal id => HealNode id rc
  end.

(** ** Requests of the helpers *)

(** [getJSONDecoded]; [dec] is the decoder of the target's type. *)
Definition getJSONDecoded {A} (get : string -> option (Z * bytes)) (dec : bytes -> option A) (url : string) : option A :=
  match get url with
  | None => None
  | Some (code, body) => if negb (code =? 200) then None else dec body
  end.

(** The harness's own [fetchShardMap]: [None] fails the test. *)
Definition harness_fetchShardMap (get : string -> option (Z * bytes)) (url : string) : option ShardMapResponse :=
  getJSONDecoded get (decode_body ShardMapResponse_fields ShardMapResponse_zero) url.

(** The loop of [CurrentLeader] and [WaitForLeaderChange]: each turn reads the
    clock and, before the deadline, asks once. *)
Inductive polled (A : Type) := PollFound (a : A) | PollFailed | PollGoing.
Arguments PollFound {A} a.
Arguments PollFailed {A}.
Arguments PollGoing {A}.

Fixpoint poll {A} (deadline : Z) (accept : A -> bool) (turns : list (Z * option A)) : polled A :=
  match turns with
  | [] => PollGoing
  | (now, answer) :: turns' =>
      if now <? deadline then
        match answer with
        | Some a => if accept a then PollFound a else poll deadline accept turns'
        | None => poll deadline accept turns'
        end
      else PollFailed
  end.

Definition CurrentLeader (deadline : Z) : list (Z * option LeaderQueryResponse) -> polled LeaderQueryResponse :=
  poll deadline (fun lr => negb (bool_decide (lqAddress lr = ""))).

Definition WaitForLeaderChange (prevAddr : string) (deadline : Z) : list (Z * option LeaderQueryResponse) -> polled LeaderQueryResponse :=
  poll deadline (fun lr => negb (bool_decide (lqAddress lr = "")) && negb (bool_decide (lqAddress lr = prevAddr))).

(** The status codes of the answers, [None] for a request that failed. *)
Definition waitForReady (deadline : Z) : list (Z * option Z) -> polled Z := poll deadline (fun code => code =? 200).

(** In the order of the map. *)
Definition AllNodeAddrs (norder : gmap string string -> list (string * string)) (rc : reliabilityCluster) : list string :=
  (norder (rcNodeAddrs rc)).*2.

(** [None] when the status cannot be fetched or read. *)
Definition NodeShardRole (status : string -> option NodeStatusResponse) (addr shardID : string) : option Role :=
  page ← status addr;
  snap ← List.find (fun s => bool_decide (stShardID s = shardID)) (nrShards page);
  Some (stRole snap).

(** ** Assertions *)

Definition AssertNoSplitBrain (norder : gmap string string -> list (string * string))
    (status : string -> option NodeStatusResponse) (rc : reliabilityCluster) (shardID : string) : bool :=
  let leaders := filter (fun p => p.1 ∈ rcRunning rc /\ NodeShardRole status p.2 shardID = Some RoleLeader) (norder (rcNodeAddrs rc)) in
  bool_decide (length leaders <= 1)%nat.

Definition AssertQuorumAvailable (page : option CoordinatorStatus) : bool :=
  match page with None => false | Some page => forallb shhQuorumAlive (csShards page) end.

(** One turn of [AssertFollowersConverge]. *)
Definition followers_converged (page : option CoordinatorStatus) (shardID : string) : bool :=
  match page with
  | None => false
  | Some page => forallb (fun h => negb (bool_decide (shID (shhInfo h) = shardID)) || negb (0 <? shhMaxReplicationLag h)) (csShards page)
  end.

Definition AssertReplicationLagBelow (page : option CoordinatorStatus) (maxLag : Z) : bool :=
  match page with None => false | Some page => forallb (fun h => shhMaxReplicationLag h <=? maxLag) (csShards page) end.

(** ** Load *)

Record WriteTracker := mkTracker { wtWrites : gmap string string; wtSuccess : Z; wtFail : Z }.
#[global] Instance WriteTracker_eta : Eta WriteTracker := fun w => mkTracker (wtWrites w) (wtSuccess w) (wtFail w).

Definition newWriteTracker : WriteTracker := mkTracker ∅ 0 0.
Definition Record_write (key value : string) (w : WriteTracker) : WriteTracker := w <| wtWrites ::= <[key := value]> |>.
Definition Committed (w : WriteTracker) : gmap string string := wtWrites w.

Record Load := mkLoad {
  ldSuccess : Z;
  ldFail : Z;
  ldKeys : Z;
  ldLatencies : list Z;
  ldTracker : option WriteTracker;
}.
#[global] Instance Load_eta : Eta Load := fun l => mkLoad (ldSuccess l) (ldFail l) (ldKeys l) (ldLatencies l) (ldTracker l).

Definition load_key (worker idx : Z) : string := to_str (of_str "load-w" ++ FormatInt worker ++ of_str "-k" ++ FormatInt idx).
Definition load_value (worker idx : Z) : string := to_str (of_str "v" ++ FormatInt worker ++ of_str "-" ++ FormatInt idx).

Definition incr (n : Z) : Z := wrap_int64 (n + 1).

(** One turn of a worker: [leaderAddr] is what [getLeaderAddr] returns, [put]
    the outcome of [PutKV] and [elapsed] the time it took. *)
Definition writeOnce (worker : Z) (leaderAddr : string) (put : string -> string -> string -> bool) (elapsed : Z) (l : Load) : Load :=
  if decide (leaderAddr = "") then l <| ldFail ::= incr |>
  else
    let l := l <| ldKeys ::= incr |> in
    let key := load_key worker (ldKeys l) in
    let value := load_value worker (ldKeys l) in
    if put leaderAddr key value then
      l <| ldSuccess ::= incr |>
        <| ldTracker ::= fmap (fun w => Record_write key value w <| wtSuccess ::= incr |>) |>
        <| ldLatencies ::= fun ls => ls ++ [elapsed] |>
    else l <| ldFail ::= incr |> <| ldTracker ::= fmap (fun w => w <| wtFail ::= incr |>) |>.

(** The workers' turns in the order they take effect. *)
Record turn := mkTurn { tnWorker : Z; tnLeader : string; tnPut : string -> string -> string -> bool; tnElapsed : Z }.
Definition take_turn (l : Load) (t : turn) : Load := writeOnce (tnWorker t) (tnLeader t) (tnPut t) (tnElapsed t) l.
Definition NewLoad (tracker : option WriteTracker) : Load := mkLoad 0 0 0 [] tracker.

Definition AssertAllCommittedWritesSurvive (order : gmap string string -> list (string * string))
    (getKV : string -> string * bool) (w : WriteTracker) : bool :=
  let failures := filter (fun p => (getKV p.1).2 = false \/ (getKV p.1).1 <> p.2) (order (Committed w)) in
  bool_decide (failures = []).

(** ** Faults are local and can be healed *)

(** What the transport does to requests for [addr]. *)
Definition faults_at (addr : string) (ft : faultTransport) : option Z * option bool := (ftSlow ft !! addr, ftDropped ft !! addr).

Lemma RoundTrip_faults {A} tie patience host (inner : option Z -> result rterr A) ft ft' :
  faults_at host ft' = faults_at host ft -> RoundTrip tie patience host inner ft' = RoundTrip tie patience host inner ft.
Proof. unfold faults_at, RoundTrip. by intros [= -> ->]. Qed.

Definition addrs_distinct (rc : reliabilityCluster) : Prop :=
  forall id id' addr, rcNodeAddrs rc !! id = Some addr -> rcNodeAddrs rc !! id' = Some addr -> id = id'.

Lemma setLatency_other addr addr' d ft : addr' <> addr -> faults_at addr' (setLatency addr d ft) = faults_at addr' ft.
Proof.
  intros Hne. unfold faults_at, setLatency. case_decide; simpl; [by rewrite lookup_delete_ne|by rewrite lookup_insert_ne].
Qed.

Lemma setDropped_other addr addr' b ft : addr' <> addr -> faults_at addr' (setDropped addr b ft) = faults_at addr' ft.
Proof.
  intros Hne. unfold faults_at, setDropped. destruct b; simpl; [by rewrite lookup_insert_ne|by rewrite lookup_delete_ne].
Qed.

Lemma inject_addrs f rc : rcNodeAddrs (inject rc f) = rcNodeAddrs rc.
Proof. destruct f; simpl; try done; unfold SlowNode, PartitionNode, HealNode, on_addr; by destruct (rcNodeAddrs rc !! id). Qed.

Lemma inject_all_addrs fs rc : rcNodeAddrs (foldl inject rc fs) = rcNodeAddrs rc.
Proof. revert rc. induction fs as [|f fs IH]; intros rc; [done|]. simpl. by rewrite IH, inject_addrs. Qed.

Lemma inject_other f rc id addr :
  addrs_distinct rc -> rcNodeAddrs rc !! id = Some addr -> chaos_target f <> id ->
  faults_at addr (rcFt (inject rc f)) = faults_at addr (rcFt rc).
Proof.
  intros Hd Ha Hne. destruct f as [i|i d|i|i]; simpl in *; [done|..]; unfold SlowNode, PartitionNode, HealNode, on_addr;
    destruct (rcNodeAddrs rc !! i) as [a|] eqn:Hi; try done; simpl;
    assert (addr <> a) by (intros ->; apply Hne; by eapply Hd);
    by rewrite ?setDropped_other, ?setLatency_other.
Qed.

(** A fault only reads and changes the state of its own address. *)
Lemma inject_same f rc rc' id addr :
  rcNodeAddrs rc = rcNodeAddrs rc' -> rcNodeAddrs rc !! id = Some addr -> chaos_target f = id ->
  faults_at addr (rcFt rc) = faults_at addr (rcFt rc') -> faults_at addr (rcFt (inject rc f)) = faults_at addr (rcFt (inject rc' f)).
Proof.
  intros Heq Ha <- Hf. pose proof Ha as Ha'. rewrite Heq in Ha'.
  destruct f as [i|i d|i|i]; simpl in *; [done|..]; unfold SlowNode, PartitionNode, HealNode, on_addr; rewrite Ha, Ha'; simpl;
    unfold faults_at, setLatency, setDropped in *; try case_decide; simpl; injection Hf as Hs Hdr;
    by rewrite ?lookup_insert_eq, ?lookup_delete_eq, ?Hs, ?Hdr.
Qed.

Lemma faults_filtered fs rc rc' id addr :
  addrs_distinct rc -> rcNodeAddrs rc = rcNodeAddrs rc' -> rcNodeAddrs rc !! id = Some addr ->
  faults_at addr (rcFt rc) = faults_at addr (rcFt rc') ->
  faults_at addr (rcFt (foldl inject rc fs)) = faults_at addr (rcFt (foldl inject rc' (filter (fun f => chaos_target f = id) fs))).
Proof.
  revert rc rc'. induction fs as [|f fs IH]; intros rc rc' Hd Heq Ha Hf; [done|]. cbn [foldl]. rewrite filter_cons.
  case_decide as Ht; cbn [foldl].
  - apply IH; [|by rewrite !inject_addrs|by rewrite inject_addrs|by eapply inject_same].
    intros i i' a. rewrite inject_addrs. apply Hd.
  - apply IH; [|by rewrite inject_addrs|by rewrite inject_addrs|by rewrite (inject_other f rc id)].
    intros i i' a. rewrite inject_addrs. apply Hd.
Qed.

(** Requests to a node are treated according to the faults injected for that node
    alone, in their order; after a partition they are refused, and after healing
    they go through as if there had never been a fault. *)
Theorem faults_local {A} tie patience (inner : option Z -> result rterr A) fs rc id addr :
  addrs_distinct rc -> rcNodeAddrs rc !! id = Some addr ->
  let trip fs := RoundTrip tie patience addr inner (rcFt (foldl inject rc fs)) in
  trip fs = trip (filter (fun f => chaos_target f = id) fs) /\
  trip (fs ++ [ChaosPartition id]) = Fail (RtPartitioned addr) /\
  trip (fs ++ [ChaosHeal id]) = inner patience.
Proof.
  intros Hd Ha trip. subst trip. cbv beta. split_and!.
  - apply RoundTrip_faults. by apply faults_filtered.
  - rewrite foldl_app. simpl. unfold PartitionNode, on_addr. rewrite inject_all_addrs, Ha. unfold RoundTrip, setDropped. simpl.
    by rewrite lookup_insert_eq.
  - rewrite foldl_app. simpl. unfold HealNode, on_addr. rewrite inject_all_addrs, Ha. unfold RoundTrip, setDropped, setLatency. simpl.
    by rewrite !lookup_delete_eq.
Qed.

(** ** Polling ends *)

(** What the loop returns was accepted and answered before the deadline. *)
Lemma poll_found {A} deadline accept (turns : list (Z * option A)) a :
  poll deadline accept turns = PollFound a -> accept a = true /\ exists now, (now, Some a) ∈ turns /\ now < deadline.
Proof.
  induction turns as [|[now answer] turns IH]; [done|]. cbn [poll]. destruct (Z.ltb_spec now deadline); [|done].
  assert (Hrec : poll deadline accept turns = PollFound a -> accept a = true /\ exists t, (t, Some a) ∈ (now, answer) :: turns /\ t < deadline)
    by (intros (Ha & t & Hin & Ht)%IH; split; [done|]; exists t; split; [by right|done]).
  destruct answer as [b|]; [|done]. destruct (accept b) eqn:Hb; [|done]. intros [= ->]. split; [done|]. exists now. split; [by left|done].
Qed.

(** The readings of a clock that moves by at least [step] in each turn. *)
Fixpoint ticking (step from : Z) (turns : list Z) : Prop :=
  match turns with [] => True | now :: turns' => from <= now /\ ticking step (now + step) turns' end.

(** The loop is over after at most timeout / step turns and one more. *)
Theorem poll_terminates {A} start timeout step accept (turns : list (Z * option A)) :
  0 < step -> 0 <= timeout -> ticking step start turns.*1 -> timeout <= (Z.of_nat (length turns) - 1) * step ->
  poll (start + timeout) accept turns <> PollGoing.
Proof.
  intros Hstep Htimeout Hticks Hlen.
  enough (Hgo : forall turns from, ticking step from turns.*1 -> poll (start + timeout) accept turns = PollGoing ->
    turns = [] \/ from + (Z.of_nat (length turns) - 1) * step < start + timeout).
  { intros Hp. destruct (Hgo turns start Hticks Hp) as [->|Hlt]; [simpl in Hlen|]; lia. }
  clear turns Hticks Hlen. induction turns as [|[now answer] turns IH]; intros from Hticks Hp; [by left|right].
  cbn [poll] in Hp. cbn in Hticks. destruct Hticks as [Hfrom Hticks]. destruct (Z.ltb_spec now (start + timeout)); [|done].
  assert (Hrest : poll (start + timeout) accept turns = PollGoing) by (destruct answer as [a|]; [destruct (accept a)|]; done).
  destruct (IH _ Hticks Hrest) as [->|Hlt]; cbn [length]; lia.
Qed.

(** ** The load *)

Lemma digits_no_k n : int64 n -> ("k"%char : ascii) ∉ FormatInt n.
Proof.
  intros Hn. assert (Hdig : forall m, u64 m -> ("k"%char : ascii) ∉ FormatUint m).
  { intros m Hm Hin. pose proof (FormatUint_digits m Hm) as Hd. rewrite forallb_forall in Hd.
    apply list_elem_of_In, Hd in Hin. done. }
  unfold FormatInt, int64, min_int64, max_int64 in *. destruct (Z.ltb_spec n 0).
  - intros [Hc|Hin]%elem_of_cons; [done|]. revert Hin. apply Hdig. unfold u64, two64. lia.
  - apply Hdig. unfold u64, two64. lia.
Qed.

Lemma app_last_inj (c : ascii) (l1 l2 r1 r2 : bytes) : c ∉ r1 -> c ∉ r2 -> l1 ++ c :: r1 = l2 ++ c :: r2 -> r1 = r2.
Proof.
  revert l2. induction l1 as [|a l1 IH]; intros [|b l2] H1 H2; simpl.
  - by intros [= ->].
  - intros [= -> ->]. exfalso. apply H1. set_solver.
  - intros [= -> <-]. exfalso. apply H2. set_solver.
  - intros [= _ Heq]. by apply (IH l2).
Qed.

(** Writes with different numbers have different keys. *)
Lemma load_key_inj w w' i i' : int64 i -> int64 i' -> load_key w i = load_key w' i' -> i = i'.
Proof.
  intros Hi Hi' Heq. apply (f_equal of_str) in Heq. unfold load_key in Heq. rewrite !of_to_str in Heq.
  apply FormatInt_inj; [done|done|]. apply (app_last_inj "k"%char (of_str "load-w" ++ FormatInt w ++ of_str "-") (of_str "load-w" ++ FormatInt w' ++ of_str "-"));
    [by apply digits_no_k..|]. rewrite <- !app_assoc. exact Heq.
Qed.

(** After a number of turns: the counts, and where each tracked key is from. *)
Record load_inv (turns : list turn) (l : Load) (w : WriteTracker) : Prop := {
  li_tracker : ldTracker l = Some w;
  li_counts : ldSuccess l + ldFail l = Z.of_nat (length turns);
  li_range : 0 <= ldSuccess l /\ 0 <= ldFail l /\ 0 <= ldKeys l <= Z.of_nat (length turns);
  li_success : wtSuccess w = ldSuccess l;
  li_latencies : Z.of_nat (length (ldLatencies l)) = ldSuccess l;
  li_size : Z.of_nat (size (wtWrites w)) = ldSuccess l;
  li_keys : forall k v, wtWrites w !! k = Some v ->
    (exists worker i, k = load_key worker i /\ 0 < i <= ldKeys l) /\
    exists t, t ∈ turns /\ tnLeader t <> "" /\ tnPut t (tnLeader t) k v = true;
}.

Lemma incr_small n : 0 <= n < max_int64 -> incr n = n + 1.
Proof. intros Hn. apply wrap_int64_id. unfold int64, min_int64, max_int64 in *. lia. Qed.

Lemma take_turn_inv turns t l w :
  load_inv turns l w -> Z.of_nat (length turns) < max_int64 -> exists w', load_inv (turns ++ [t]) (take_turn l t) w'.
Proof.
  intros [Htr Hcounts Hrange Hsucc Hlat Hsize Hkeys] Hmax. destruct t as [worker leader put elapsed].
  assert (Hlen : Z.of_nat (length (turns ++ [mkTurn worker leader put elapsed])) = Z.of_nat (length turns) + 1)
    by (rewrite length_app; simpl; lia).
  assert (Hold : forall n k v, ldKeys l <= n -> wtWrites w !! k = Some v ->
    (exists worker i, k = load_key worker i /\ 0 < i <= n) /\
    exists t, t ∈ turns ++ [mkTurn worker leader put elapsed] /\ tnLeader t <> "" /\ tnPut t (tnLeader t) k v = true).
  { intros n k v Hn Hk. destruct (Hkeys k v Hk) as [(w0 & i & -> & Hi) (t & Ht & Hput)].
    split; [exists w0, i; split; [done|lia]|]. exists t. split; [|done]. apply elem_of_app. by left. }
  unfold take_turn, writeOnce. cbn [tnWorker tnLeader tnPut tnElapsed].
  case_decide as Hl; [|destruct (put leader _ _) eqn:Hput].
  - exists w. split; simpl; rewrite ?Hlen, ?incr_small by lia; try done; try lia. intros k v. by apply Hold.
  - set (idx := incr (ldKeys l)) in *. assert (Hidx : idx = ldKeys l + 1) by (apply incr_small; lia).
    set (key := load_key worker idx) in *. set (value := load_value worker idx) in *.
    assert (Hfresh : wtWrites w !! key = None).
    { destruct (wtWrites w !! key) as [v|] eqn:Hk; [|done]. destruct (Hkeys _ _ Hk) as [(w0 & i & Heq & Hi) _].
      apply load_key_inj in Heq; [lia|..]; unfold int64, min_int64, max_int64 in *; lia. }
    exists (Record_write key value w <| wtSuccess ::= incr |>).
    split; simpl; fold idx key value; rewrite ?Hlen, ?Htr, ?Hsucc, ?incr_small, ?length_app by lia; simpl; try done; try lia.
    + rewrite map_size_insert_None by done. lia.
    + intros k v [[<- <-]|[Hne Hk]]%lookup_insert_Some; [|by apply Hold; [lia|]].
      split; [exists worker, idx; split; [done|lia]|]. exists (mkTurn worker leader put elapsed).
      split; [apply elem_of_app; right; by left|done].
  - exists (w <| wtFail ::= incr |>). assert (Hidx : incr (ldKeys l) = ldKeys l + 1) by (apply incr_small; lia).
    split; simpl; rewrite ?Hlen, ?Htr, ?Hidx, ?incr_small by lia; simpl; try done; try lia. intros k v. apply Hold. lia.
Qed.

(** However the workers' turns interleave and whatever the leaders answer: every
    turn is counted once, as a success or as a failure; the tracker has as many
    keys as there were successes, so no acknowledged write is recorded over
    another; and every pair in it was acknowledged. *)
Theorem load_accounts turns :
  Z.of_nat (length turns) <= max_int64 ->
  let l := foldl take_turn (NewLoad (Some newWriteTracker)) turns in
  ldSuccess l + ldFail l = Z.of_nat (length turns) /\ Z.of_nat (length (ldLatencies l)) = ldSuccess l /\
  exists w, ldTracker l = Some w /\ wtSuccess w = ldSuccess l /\ Z.of_nat (size (Committed w)) = ldSuccess l /\
    forall k v, Committed w !! k = Some v -> exists t, t ∈ turns /\ tnLeader t <> "" /\ tnPut t (tnLeader t) k v = true.
Proof.
  intros Hmax l. assert (Hinv : exists w, load_inv turns l w).
  { subst l. induction turns as [|t turns IH] using rev_ind; [exists newWriteTracker; by split|].
    rewrite length_app in Hmax. simpl in Hmax. destruct IH as [w Hw]; [lia|]. rewrite foldl_app. apply (take_turn_inv _ _ _ w Hw). lia. }
  destruct Hinv as [w []]. split_and!; [done|done|]. exists w. split_and!; [done|done|done|].
  intros k v Hk. by destruct (li_keys0 k v Hk) as [_ ?].
Qed.

(** ** What the assertions establish *)

Lemma page_shards norder sorder now s h :
  iterates sorder -> h ∈ csShards (Coordinator.handleStatus norder sorder now s) <->
  exists id sh, mapShards (coShards s) !! id = Some sh /\ h = shard_health s sh.
Proof.
  intros Ho. unfold Coordinator.handleStatus, ShardMap_Snapshot. cbn [csShards]. rewrite list_elem_of_fmap. split.
  - intros (sh & -> & Hin). apply list_elem_of_fmap in Hin as ([id sh'] & -> & Hin).
    apply (iterates_elem sorder) in Hin; [|done]. by exists id, sh'.
  - intros (id & sh & Hl & ->). exists sh. split; [done|]. apply list_elem_of_fmap. exists (id, sh).
    split; [done|by apply iterates_elem].
Qed.

Lemma shard_lag_le s sh maxLag :
  (forall n id, 0 <= VersionForShard (coMembership s) n id) -> 0 <= maxLag -> shhMaxReplicationLag (shard_health s sh) <= maxLag <->
  (shLeader sh ∈ shReplicas sh -> forall r, r ∈ shReplicas sh ->
     VersionForShard (coMembership s) (shLeader sh) (shID sh) - VersionForShard (coMembership s) r (shID sh) <= maxLag).
Proof.
  intros Hv0 H0. destruct (shard_health_spec s sh) as (_ & _ & Hlag). split.
  - intros Hle Hl r Hr. destruct (Hlag Hl) as [Hall _]. specialize (Hall r Hr). lia.
  - intros Hall. destruct (decide (shLeader sh ∈ shReplicas sh)) as [Hl|Hl].
    + destruct (Hlag Hl) as [_ (r & Hr & ->)]. by apply Hall.
    + unfold shard_health. pose proof (replica_versions_spec (coMembership s) sh) as Hv.
      destruct (replica_versions (coMembership s) sh) as [vs lv]. destruct Hv as [Hvs ->]. rewrite decide_False by done. simpl.
      destruct (max_lag_spec vs 0 (shReplicas sh)) as (_ & _ & [->|(r & Hr & ->)]); [done|].
      rewrite (Hvs r Hr). simpl. specialize (Hv0 r (shID sh)). lia.
Qed.

(** On the status page of a coordinator, the assertions on quorum, lag and
    convergence hold exactly when a majority of every shard's replicas is alive,
    no replica is further behind its leader than allowed, and no replica of the
    shard is behind its leader, by what the nodes have reported. *)
Theorem status_assertions_mean norder sorder now s maxLag shardID :
  iterates sorder -> map_wf (coShards s) -> (forall n id, 0 <= VersionForShard (coMembership s) n id) -> 0 <= maxLag ->
  let page := Some (Coordinator.handleStatus norder sorder now s) in
  let version sh r := VersionForShard (coMembership s) r (shID sh) in
  let shards P := forall id sh, mapShards (coShards s) !! id = Some sh -> P id sh in
  let behind sh n := shLeader sh ∈ shReplicas sh -> forall r, r ∈ shReplicas sh -> version sh (shLeader sh) - version sh r <= n in
  (AssertQuorumAvailable page = true <-> shards (fun _ sh =>
     (length (shReplicas sh) < 2 * length (filter (fun r => is_alive (coMembership s) r = true) (shReplicas sh)))%nat)) /\
  (AssertReplicationLagBelow page maxLag = true <-> shards (fun _ sh => behind sh maxLag)) /\
  (followers_converged page shardID = true <-> shards (fun id sh => id = shardID -> behind sh 0)).
Proof.
  intros Ho Hwf Hv0 H0 page version shards behind. subst page shards.
  assert (Hpage : forall (P : ShardHealth -> bool) (Q : string -> ShardInfo -> Prop),
    (forall id sh, mapShards (coShards s) !! id = Some sh -> P (shard_health s sh) = true <-> Q id sh) ->
    forallb P (csShards (Coordinator.handleStatus norder sorder now s)) = true <->
    forall id sh, mapShards (coShards s) !! id = Some sh -> Q id sh).
  { intros P Q HPQ. rewrite forallb_forall. split.
    - intros HP id sh Hl. apply HPQ; [done|]. apply HP, list_elem_of_In, page_shards; [done|]. by exists id, sh.
    - intros HQ h Hin%list_elem_of_In. apply page_shards in Hin as (id & sh & Hl & ->); [|done]. by eapply HPQ, HQ. }
  split_and!; apply Hpage; intros id sh Hl.
  - apply shard_health_spec.
  - rewrite Z.leb_le. by apply shard_lag_le.
  - destruct (map_wf_lookup _ _ _ Hwf Hl) as [Hid _]. destruct (shard_health_fields s sh) as (-> & _). rewrite Hid.
    rewrite orb_true_iff, !negb_true_iff, Z.ltb_ge, bool_decide_eq_false, shard_lag_le by done. subst behind. cbv beta.
    destruct (decide (id = shardID)); naive_solver.
Qed.

Lemma filter_fst_NoDup {A B} (P : A * B -> Prop) `{!forall x, Decision (P x)} (l : list (A * B)) :
  NoDup l.*1 -> NoDup (filter P l).*1.
Proof.
  induction l as [|x l IH]; [done|]. rewrite fmap_cons, filter_cons. intros [Hx Hl]%NoDup_cons.
  case_decide; [|by apply IH]. rewrite fmap_cons. apply NoDup_cons. split; [|by apply IH].
  intros (y & Hy & [_ Hin]%list_elem_of_filter)%list_elem_of_fmap. apply Hx. rewrite Hy. by apply list_elem_of_fmap_2.
Qed.

(** The assertion holds exactly when no two running nodes say they lead the
    shard. *)
Theorem no_split_brain_means norder status rc shardID :
  iterates norder ->
  let leads id := id ∈ rcRunning rc /\ exists addr, rcNodeAddrs rc !! id = Some addr /\ NodeShardRole status addr shardID = Some RoleLeader in
  AssertNoSplitBrain norder status rc shardID = true <-> forall id id', leads id -> leads id' -> id = id'.
Proof.
  intros Ho leads. unfold AssertNoSplitBrain. rewrite bool_decide_eq_true. set (l := filter _ _).
  assert (Hnd : NoDup l.*1).
  { apply filter_fst_NoDup, (iterates_NoDup norder (rcNodeAddrs rc) Ho). }
  assert (Hl : forall id, id ∈ l.*1 <-> leads id).
  { intros id. rewrite list_elem_of_fmap. split.
    - intros ([id' addr] & -> & [[Hr Hrole] Hin]%list_elem_of_filter). split; [done|]. exists addr.
      split; [by apply (iterates_elem norder) in Hin|done].
    - intros [Hr (addr & Ha & Hrole)]. exists (id, addr). split; [done|]. apply list_elem_of_filter.
      split; [done|by apply iterates_elem]. }
  rewrite <- (length_fmap fst). destruct (l.*1) as [|a [|b ids]] eqn:He; simpl.
  - split; [|lia]. intros _ id id' Hid _. apply Hl in Hid. by apply elem_of_nil in Hid.
  - split; [|lia]. intros _ id id' ->%Hl%list_elem_of_singleton ->%Hl%list_elem_of_singleton. done.
  - split; [lia|]. intros Huniq. exfalso. apply NoDup_cons in Hnd as [Hab _]. apply Hab.
    rewrite (Huniq a b); [by left| |]; apply Hl; set_solver.
Qed.

(** The assertion holds exactly when every tracked write is read back. *)
Theorem committed_survive_means order getKV w :
  iterates order ->
  AssertAllCommittedWritesSurvive order getKV w = true <-> forall k v, Committed w !! k = Some v -> getKV k = (v, true).
Proof.
  intros Ho. unfold AssertAllCommittedWritesSurvive. rewrite bool_decide_eq_true. split.
  - intros Hnil k v Hk. destruct (decide (getKV k = (v, true))) as [|Hne]; [done|]. exfalso.
    assert (Hin : (k, v) ∈ filter (fun p => (getKV p.1).2 = false \/ (getKV p.1).1 <> p.2) (order (Committed w))).
    { apply list_elem_of_filter. split; [|by apply iterates_elem]. simpl. destruct (getKV k) as [v' [|]]; simpl; [|by left].
      right. congruence. }
    rewrite Hnil in Hin. by apply elem_of_nil in Hin.
  - intros Hall. apply elem_of_nil_inv. intros [k v] [Hbad Hin]%list_elem_of_filter.
    apply (iterates_elem order) in Hin; [|done]. simpl in Hbad. rewrite (Hall _ _ Hin) in Hbad. by destruct Hbad.
Qed.

(** ** The harness and the servers *)

(** What [startReliabilityCluster] does for the first node: it fetches the map
    and fails the test without one. *)
Definition start_node (get : string -> option (Z * bytes)) (coordAddr : string) (cfg : NodeConfig) (now : Z) (draw : string -> Z)
    (W : World) : option (Server * World) :=
  resp ← harness_fetchShardMap get ("http://" +:+ coordAddr +:+ "/shardmap");
  Some (snd (InitShards now draw resp (NewServer (EnsureDefaults cfg) now, W))).

(** Against this coordinator no test of the suite gets past the start: it answers
    GET /shardmap with 404. *)
Theorem harness_cannot_start metrics_status s get coordAddr cfg now draw W :
  (forall addr, get ("http://" +:+ addr +:+ "/shardmap") = Some (fst (coordinator_http metrics_status "GET" "/shardmap" [] s), [])) ->
  start_node get coordAddr cfg now draw W = None.
Proof. intros Hget. unfold start_node, harness_fetchShardMap, getJSONDecoded. by rewrite Hget, shardmap_not_routed. Qed.

Lemma kv_not_routed rorder metrics_status shardID s :
  cleanPath (of_str ("/kv/" +:+ shardID)) = of_str ("/kv/" +:+ shardID) ->
  node_http rorder metrics_status "POST" ("/kv/" +:+ shardID) s = 404.
Proof.
  intros Hclean. unfold node_http, serve_mux. rewrite Hclean, to_of_str. rewrite (bool_decide_eq_true_2 _ eq_refl). cbn [negb].
  rewrite andb_false_r. cbn [find node_routes method_matches fst snd].
  rewrite !bool_decide_eq_false_2 by done. done.
Qed.

(** And no node serves /kv: whatever the client puts or gets, it reports a
    failure. *)
Theorem kv_client_never_succeeds rorder metrics_status s post page addr shardID key value :
  cleanPath (of_str ("/kv/" +:+ shardID)) = of_str ("/kv/" +:+ shardID) ->
  (forall body, post ("http://" +:+ addr +:+ "/kv/" +:+ shardID) body =
     Some (node_http rorder metrics_status "POST" ("/kv/" +:+ shardID) s, page)) ->
  PutKV post addr shardID key value = false /\ (GetKV post addr shardID key).2 = false.
Proof.
  intros Hclean Hpost. unfold PutKV, GetKV, kv_call. rewrite !Hpost, kv_not_routed by done. cbn [mbind option_bind fst snd].
  by destruct (decode_body _ _ page).
Qed.

(** ** Concrete runs *)

Definition chaos_cluster : reliabilityCluster :=
  mkReliability "c:1" {["n1" := "n1:1"; "n2" := "n2:1"]} {["n1"; "n2"]} newFaultTransport.

(** A node is slow for a caller with less time than the delay, out of reach while
    partitioned, and back after healing; the other is never affected. *)
Lemma chaos_run :
  let ask fs addr := RoundTrip true (Some (2 * second)) addr (fun left => Ok left) (rcFt (foldl inject chaos_cluster fs)) in
  let slow := [ChaosSlow "n1" (3 * second)] in
  ask slow "n1:1" = Fail RtContext /\ ask slow "n2:1" = Ok (Some (2 * second)) /\
  ask (slow ++ [ChaosPartition "n1"]) "n1:1" = Fail (RtPartitioned "n1:1") /\
  ask (slow ++ [ChaosPartition "n1"; ChaosHeal "n1"]) "n1:1" = Ok (Some (2 * second)) /\
  ask [ChaosSlow "n1" second] "n1:1" = Ok (Some second).
Proof. vm_compute. by split_and!. Qed.

(** Two workers, three writes, one of them refused, one turn without a leader. *)
Definition load_turns : list turn :=
  let put addr key value := bool_decide (addr = "n1:1") in
  [mkTurn 0 "n1:1" put 5; mkTurn 1 "n1:1" put 7; mkTurn 0 "" put 0; mkTurn 1 "n2:1" put 9].

Lemma load_run :
  let l := foldl take_turn (NewLoad (Some newWriteTracker)) load_turns in
  ldSuccess l = 2 /\ ldFail l = 2 /\
  ldTracker l = Some (mkTracker {["load-w0-k1" := "v0-1"; "load-w1-k2" := "v1-2"]} 2 1).
Proof. vm_compute. by split_and!. Qed.

(** The addresses [AllNodeAddrs] returns are those of all nodes, stopped or not. *)
Theorem stopped_node_still_listed :
  "n1" ∉ rcRunning (StopNode "n1" chaos_cluster) /\ "n1:1" ∈ AllNodeAddrs (fun m => map_to_list m) (StopNode "n1" chaos_cluster).
Proof. split; [apply (bool_decide_eq_true_1 _)|apply (bool_decide_eq_true_1 _)]; by vm_compute. Qed.
