(* ===== verification/SqlLexer.v ===== *)
(** The SQL tokens and lexer (src/internal/sql/token.go and lexer.go).

    A lexer is the input from its position on, and the position.  The main loop
    runs on fuel; [Lex] supplies one unit per byte and one for the end, which is
    always enough. *)

From Stdlib Require Import Ascii.
From S2P Require Import Prelude Strconv Json.

Inductive TokenType :=
| TOKEN_SELECT | TOKEN_INSERT | TOKEN_UPDATE | TOKEN_DELETE | TOKEN_CREATE | TOKEN_TABLE | TOKEN_FROM | TOKEN_WHERE
| TOKEN_INTO | TOKEN_VALUES | TOKEN_SET | TOKEN_PRIMARY | TOKEN_KEY | TOKEN_INT | TOKEN_TEXT | TOKEN_BOOL | TOKEN_NOT
| TOKEN_NULL | TOKEN_AND | TOKEN_OR | TOKEN_TRUE | TOKEN_FALSE
| TOKEN_IDENT | TOKEN_NUMBER | TOKEN_STRING
| TOKEN_LPAREN | TOKEN_RPAREN | TOKEN_COMMA | TOKEN_SEMICOLON | TOKEN_EQ | TOKEN_NEQ | TOKEN_LT | TOKEN_GT | TOKEN_LTE
| TOKEN_GTE | TOKEN_STAR
| TOKEN_EOF.
#[global] Instance TokenType_eq_dec : EqDecision TokenType.
Proof. solve_decision. Defined.

Definition keywords : gmap string TokenType :=
  list_to_map
    [("select", TOKEN_SELECT); ("insert", TOKEN_INSERT); ("update", TOKEN_UPDATE); ("delete", TOKEN_DELETE);
     ("create", TOKEN_CREATE); ("table", TOKEN_TABLE); ("from", TOKEN_FROM); ("where", TOKEN_WHERE);
     ("into", TOKEN_INTO); ("values", TOKEN_VALUES); ("set", TOKEN_SET); ("primary", TOKEN_PRIMARY);
     ("key", TOKEN_KEY); ("int", TOKEN_INT); ("text", TOKEN_TEXT); ("bool", TOKEN_BOOL); ("not", TOKEN_NOT);
     ("null", TOKEN_NULL); ("and", TOKEN_AND); ("or", TOKEN_OR); ("true", TOKEN_TRUE); ("false", TOKEN_FALSE)].

Record Token := mkToken { tType : TokenType; tLiteral : bytes; tPos : Z }.

Inductive lexerr :=
| UnexpectedCharacter (ch : ascii) (pos : Z)
| UnterminatedString (pos : Z)
| LexFuel.

Record lexer := mkLexer { lxRest : bytes; lxPos : Z }.

(** Move past the first [n] bytes of what is left. *)
Definition lx_advance (n : nat) (l : lexer) : lexer := mkLexer (drop n (lxRest l)) (lxPos l + Z.of_nat n).

Definition isLetter (ch : ascii) : bool := between 97 122 ch || between 65 90 ch || (bz ch =? 95).
Definition isLetterOrDigit (ch : ascii) : bool := isLetter ch || isdigit ch.

(** [strings.ToLower] and [ToUpper] on the bytes an identifier can have. *)
Definition lower1 (ch : ascii) : ascii := if between 65 90 ch then zb (bz ch + 32) else ch.
Definition upper1 (ch : ascii) : ascii := if between 97 122 ch then zb (bz ch - 32) else ch.
Definition ToLower (s : bytes) : bytes := lower1 <$> s.
Definition ToUpper (s : bytes) : bytes := upper1 <$> s.

Definition newline : ascii := "010"%char.
Definition tick : ascii := "'"%char.
Definition dashes : bytes := ["-"; "-"]%char.

(** [skipWhitespaceAndComments], on fuel: the number of bytes to skip. *)
Fixpoint skip_len (fuel : nat) (s : bytes) : nat :=
  match fuel, s with
  | S fuel', ch :: s' =>
      if isspace ch then S (skip_len fuel' s')
      else if bool_decide (take 2 s = dashes) then
        let n := length (span (fun c => negb (bool_decide (c = newline))) s).1 in
        (n + skip_len fuel' (drop n s))%nat
      else O
  | _, _ => O
  end.

Definition skipWhitespaceAndComments (l : lexer) : lexer := lx_advance (skip_len (length (lxRest l)) (lxRest l)) l.

(** The type of a word: a keyword's, in upper or lower case, or [TOKEN_IDENT]. *)
Definition word_type (literal : bytes) : TokenType := default TOKEN_IDENT (keywords !! to_str (ToLower literal)).

Definition lexIdentOrKeyword (l : lexer) : Token * lexer :=
  let literal := (span isLetterOrDigit (lxRest l)).1 in
  (mkToken (word_type literal) literal (lxPos l), lx_advance (length literal) l).

Definition lexNumber (l : lexer) : Token * lexer :=
  let literal := (span isdigit (lxRest l)).1 in
  (mkToken TOKEN_NUMBER literal (lxPos l), lx_advance (length literal) l).

(** The contents after an opening quote, and the number of bytes they take with
    the closing one. *)
Fixpoint string_body (s : bytes) : option (bytes * nat) :=
  match s with
  | [] => None
  | ch :: s' =>
      if decide (ch = tick) then
        match s' with
        | ch' :: s'' =>
            if decide (ch' = tick) then p ← string_body s''; Some (tick :: p.1, S (S p.2)) else Some ([], 1%nat)
        | [] => Some ([], 1%nat)
        end
      else p ← string_body s'; Some (ch :: p.1, S p.2)
  end.

Definition lexString (l : lexer) : result lexerr (Token * lexer) :=
  match string_body (drop 1 (lxRest l)) with
  | None => Fail (UnterminatedString (lxPos l))
  | Some (literal, n) => Ok (mkToken TOKEN_STRING literal (lxPos l), lx_advance (S n) l)
  end.

(** A token of fixed text. *)
Definition punct (ty : TokenType) (text : bytes) (l : lexer) : Token * lexer :=
  (mkToken ty text (lxPos l), lx_advance (length text) l).

(** One turn of the main loop, at a byte that is neither space nor comment. *)
Definition lex_token (l : lexer) : result lexerr (Token * lexer) :=
  match lxRest l with
  | [] => Ok (mkToken TOKEN_EOF [] (lxPos l), l)
  | ch :: rest =>
      let next_eq := bool_decide (head rest = Some "="%char) in
      if isLetter ch then Ok (lexIdentOrKeyword l)
      else if isdigit ch then Ok (lexNumber l)
      else if decide (ch = tick) then lexString l
      else if decide (ch = "("%char) then Ok (punct TOKEN_LPAREN ["("%char] l)
      else if decide (ch = ")"%char) then Ok (punct TOKEN_RPAREN [")"%char] l)
      else if decide (ch = ","%char) then Ok (punct TOKEN_COMMA [","%char] l)
      else if decide (ch = ";"%char) then Ok (punct TOKEN_SEMICOLON [";"%char] l)
      else if decide (ch = "*"%char) then Ok (punct TOKEN_STAR ["*"%char] l)
      else if decide (ch = "="%char) then Ok (punct TOKEN_EQ ["="%char] l)
      else if decide (ch = "!"%char) then
        if next_eq then Ok (punct TOKEN_NEQ ["!"; "="]%char l) else Fail (UnexpectedCharacter ch (lxPos l))
      else if decide (ch = "<"%char) then
        if next_eq then Ok (punct TOKEN_LTE ["<"; "="]%char l) else Ok (punct TOKEN_LT ["<"%char] l)
      else if decide (ch = ">"%char) then
        if next_eq then Ok (punct TOKEN_GTE [">"; "="]%char l) else Ok (punct TOKEN_GT [">"%char] l)
      else Fail (UnexpectedCharacter ch (lxPos l))
  end.

Fixpoint lex_from (fuel : nat) (l : lexer) : result lexerr (list Token) :=
  match fuel with
  | O => Fail LexFuel
  | S fuel' =>
      let l := skipWhitespaceAndComments l in
      match lxRest l with
      | [] => Ok [mkToken TOKEN_EOF [] (lxPos l)]
      | _ :: _ =>
          try p <- lex_token l;
          try ts <- lex_from fuel' p.2;
          Ok (p.1 :: ts)
      end
  end.

Definition Lex (input : bytes) : result lexerr (list Token) := lex_from (S (length input)) (mkLexer input 0).

(** ** Scanning *)

Lemma span_spec p s :
  s = (span p s).1 ++ (span p s).2 /\ Forall (fun c => p c = true) (span p s).1 /\
  (forall c, head (span p s).2 = Some c -> p c = false).
Proof.
  induction s as [|c s IH]; simpl; [by split_and!|]. destruct (p c) eqn:Hc.
  - destruct (span p s) as [a b]. simpl in *. destruct IH as (-> & Ha & Hb). split_and!; [done|by constructor|done].
  - simpl. split_and!; [done|constructor|]. by intros ? [= <-].
Qed.

(** Scanning a run of [p] that ends at the end or before a byte not in [p]. *)
Lemma span_exact p a b :
  Forall (fun c => p c = true) a -> (forall c, head b = Some c -> p c = false) -> span p (a ++ b) = (a, b).
Proof.
  intros Ha Hb. induction Ha as [|c a Hc Ha IH]; simpl.
  - destruct b as [|c b]; [done|]. simpl. by rewrite (Hb c eq_refl).
  - by rewrite Hc, IH.
Qed.

Lemma lx_advance_app a rest pos : lx_advance (length a) (mkLexer (a ++ rest) pos) = mkLexer rest (pos + Z.of_nat (length a)).
Proof. unfold lx_advance. simpl. by rewrite drop_app_length. Qed.

(** What [skipWhitespaceAndComments] skips: white space, and comments, each up to
    the end of its line or of the input.  [skips gap rest]: in [gap ++ rest] that
    is [gap]. *)
Definition at_token (s : bytes) : Prop :=
  match s with [] => True | c :: _ => isspace c = false /\ take 2 s <> dashes end.

Inductive skips : bytes -> bytes -> Prop :=
| skips_nothing rest : at_token rest -> skips [] rest
| skips_space c gap rest : isspace c = true -> skips gap rest -> skips (c :: gap) rest
| skips_comment body gap rest :
    newline ∉ body -> (forall c, head (gap ++ rest) = Some c -> c = newline) -> skips gap rest ->
    skips (dashes ++ body ++ gap) rest.

Definition in_line (c : ascii) : bool := negb (bool_decide (c = newline)).

Lemma comment_split s : take 2 s = dashes ->
  exists body rest, s = (dashes ++ body ++ rest) /\ (newline ∉ body) /\ (forall c, head rest = Some c -> c = newline).
Proof.
  destruct s as [|c [|d s]]; [done|done|]. intros [= -> ->].
  destruct (span_spec in_line s) as (Hs & Ha & Hb). exists (span in_line s).1, (span in_line s).2. split_and!.
  - simpl. by rewrite <- Hs.
  - intros Hin. rewrite Forall_forall in Ha. by specialize (Ha _ Hin).
  - intros c Hc. specialize (Hb c Hc). unfold in_line in Hb. by case_bool_decide.
Qed.

Lemma comment_span body rest : newline ∉ body -> (forall c, head rest = Some c -> c = newline) ->
  (span in_line (dashes ++ body ++ rest)).1 = dashes ++ body.
Proof.
  intros Hb Hr. rewrite (assoc_L (++)), span_exact; [done| |].
  - apply Forall_app. split; [by repeat constructor|]. apply Forall_forall. intros c Hc. unfold in_line.
    rewrite bool_decide_false; [done|]. by intros ->.
  - intros c ->%Hr. done.
Qed.

Lemma skips_total s : exists gap rest, s = gap ++ rest /\ skips gap rest.
Proof.
  remember (length s) as k eqn:Hk. revert s Hk. induction (lt_wf k) as [k _ IH]. intros [|c s] ->.
  { exists [], []. split; [done|by constructor]. }
  destruct (isspace c) eqn:Hc.
  { destruct (IH (length s) ltac:(simpl; lia) s eq_refl) as (gap & rest & -> & Hs). exists (c :: gap), rest. by split; [|constructor]. }
  destruct (decide (take 2 (c :: s) = dashes)) as [Hcom|]; [|exists [], (c :: s); by split; [|constructor]].
  destruct (comment_split _ Hcom) as (body & s' & Heq & Hb & Hs').
  assert (Hlen : (length s' < length (c :: s))%nat) by (rewrite Heq, !length_app; simpl; lia).
  rewrite Heq. clear Heq Hcom Hc. destruct (IH _ Hlen s' eq_refl) as (gap & rest & -> & Hs).
  exists (dashes ++ body ++ gap), rest. split; [by rewrite <- !(assoc_L (++))|by constructor].
Qed.

Lemma skips_at_token gap rest : skips gap rest -> at_token rest.
Proof. by induction 1. Qed.

Lemma skip_len_skips gap rest fuel : skips gap rest -> (length (gap ++ rest) <= fuel)%nat -> skip_len fuel (gap ++ rest) = length gap.
Proof.
  intros Hs. revert fuel. induction Hs as [rest Ht|c gap rest Hc Hs IH|body gap rest Hb Hh Hs IH]; intros fuel Hf.
  - destruct fuel as [|fuel], rest as [|c rest]; try done. destruct Ht as [Hc Hd]. cbn [app skip_len]. by rewrite Hc, bool_decide_false.
  - destruct fuel as [|fuel]; [simpl in Hf; lia|]. cbn [app skip_len]. rewrite Hc. simpl. rewrite IH by (simpl in Hf; lia). done.
  - rewrite <- !(assoc_L (++)) in *. destruct fuel as [|fuel]; [simpl in Hf; lia|].
    pose proof (comment_span body (gap ++ rest) Hb Hh) as Hsp. unfold in_line in Hsp.
    destruct (dashes ++ body ++ gap ++ rest) as [|c s] eqn:Hcs; [done|]. cbn [skip_len].
    assert (c = "-"%char) as -> by (simpl in Hcs; congruence). change (isspace "-") with false. cbv iota.
    rewrite <- Hcs in *. rewrite bool_decide_true by done. rewrite Hsp.
    rewrite (assoc_L (++)), drop_app_length, IH; [rewrite !length_app; lia|].
    rewrite !length_app in *. simpl in Hf. lia.
Qed.

Lemma skips_run gap rest pos : skips gap rest ->
  skipWhitespaceAndComments (mkLexer (gap ++ rest) pos) = mkLexer rest (pos + Z.of_nat (length gap)).
Proof. intros Hs. unfold skipWhitespaceAndComments. cbn [lxRest]. rewrite skip_len_skips by done. apply lx_advance_app. Qed.

(** ** Lexemes *)

(** A token without its position. *)
Definition shape : Type := TokenType * bytes.
Definition shape_of (t : Token) : shape := (tType t, tLiteral t).

Definition fixed_text (ty : TokenType) : option bytes :=
  match ty with
  | TOKEN_LPAREN => Some ["("] | TOKEN_RPAREN => Some [")"] | TOKEN_COMMA => Some [","] | TOKEN_SEMICOLON => Some [";"]
  | TOKEN_EQ => Some ["="] | TOKEN_NEQ => Some ["!"; "="] | TOKEN_LT => Some ["<"] | TOKEN_GT => Some [">"]
  | TOKEN_LTE => Some ["<"; "="] | TOKEN_GTE => Some [">"; "="] | TOKEN_STAR => Some ["*"]
  | _ => None
  end%char.

Definition word (s : bytes) : Prop := Forall (fun c => isLetterOrDigit c = true) s /\ exists c s', s = c :: s' /\ isLetter c = true.

(** The tokens there are: a type and a literal that go together. *)
Definition lexeme (sh : shape) : Prop :=
  match fixed_text sh.1 with
  | Some text => sh.2 = text
  | None =>
      match sh.1 with
      | TOKEN_STRING => True
      | TOKEN_NUMBER => sh.2 <> [] /\ Forall (fun c => isdigit c = true) sh.2
      | ty => word sh.2 /\ word_type sh.2 = ty
      end
  end.

(** The contents of a string literal with every quote doubled. *)
Fixpoint escape (s : bytes) : bytes :=
  match s with
  | [] => []
  | c :: s' => if decide (c = tick) then tick :: tick :: escape s' else c :: escape s'
  end.

(** The text of a token in the input. *)
Definition source (sh : shape) : bytes :=
  match sh.1 with TOKEN_STRING => tick :: escape sh.2 ++ [tick] | _ => sh.2 end.

Lemma string_body_source s lit n : string_body s = Some (lit, n) ->
  take n s = escape lit ++ [tick] /\ (n <= length s)%nat /\ head (drop n s) <> Some tick.
Proof.
  remember (length s) as k eqn:Hk. revert s lit n Hk. induction (lt_wf k) as [k _ IH]. intros [|c s] lit n -> Heq; [done|].
  cbn [string_body] in Heq. case_decide as Hc.
  - subst c. destruct s as [|d s]; [injection Heq as <- <-; simpl; split_and!; [done|lia|done]|]. case_decide as Hd.
    + subst d. destruct (string_body s) as [[lit' n']|] eqn:Hs; [|done]. injection Heq as <- <-.
      destruct (IH (length s) ltac:(simpl; lia) s lit' n' eq_refl Hs) as (Ht & Hn & Hr). simpl in *. rewrite Ht. split_and!; [done|lia|done].
    + injection Heq as <- <-. simpl. split_and!; [done|lia|congruence].
  - destruct (string_body s) as [[lit' n']|] eqn:Hs; [|done]. injection Heq as <- <-.
    destruct (IH (length s) ltac:(simpl; lia) s lit' n' eq_refl Hs) as (Ht & Hn & Hr). simpl in *. rewrite Ht.
    rewrite decide_False by done. split_and!; [done|lia|done].
Qed.

Lemma string_body_escape lit rest :
  (forall c, head rest = Some c -> c <> tick) ->
  string_body (escape lit ++ tick :: rest) = Some (lit, S (length (escape lit))).
Proof.
  intros Hrest. induction lit as [|c lit IH]; cbn [escape].
  - cbn [app string_body]. rewrite decide_True by done. destruct rest as [|d rest]; [done|].
    by rewrite decide_False by (by apply Hrest).
  - case_decide as Hc; cbn [app string_body].
    + rewrite !decide_True by done. rewrite IH. by subst c.
    + rewrite decide_False by done. by rewrite IH.
Qed.

Lemma word_span s c rest : s = c :: rest -> isLetter c = true -> word (span isLetterOrDigit s).1.
Proof.
  intros -> Hc. destruct (span_spec isLetterOrDigit (c :: rest)) as (_ & Ha & _). split; [done|].
  simpl in *. unfold isLetterOrDigit at 1. unfold isLetterOrDigit at 1 in Ha. rewrite Hc in *. simpl in *.
  destruct (span isLetterOrDigit rest) as [a b]. eauto.
Qed.

Lemma word_type_spec s : let ty := word_type s in
  fixed_text ty = None /\ ty <> TOKEN_STRING /\ ty <> TOKEN_NUMBER /\ ty <> TOKEN_EOF.
Proof.
  assert (Hall : map_Forall (fun _ ty => fixed_text ty = None /\ ty <> TOKEN_STRING /\ ty <> TOKEN_NUMBER /\ ty <> TOKEN_EOF) keywords).
  { apply (bool_decide_eq_true_1 _). by vm_compute. }
  unfold word_type. destruct (keywords !! _) as [ty|] eqn:Hs; [exact (Hall _ ty Hs)|done].
Qed.
#[global] Opaque word_type.

(** ** The first token *)

(** A token that ends where the text [rest] begins: words and numbers are as long
    as they can be, a quote after a string would belong to it, and so would an
    equals sign after a comparison. *)
Definition closes (sh : shape) (rest : bytes) : Prop :=
  match sh.1 with
  | TOKEN_STRING => head rest <> Some tick
  | TOKEN_NUMBER => forall c, head rest = Some c -> isdigit c = false
  | TOKEN_LT | TOKEN_GT => head rest <> Some "="%char
  | ty => fixed_text ty = None -> forall c, head rest = Some c -> isLetterOrDigit c = false
  end.

Definition token_at (s : bytes) (sh : shape) (rest : bytes) : Prop :=
  lexeme sh /\ closes sh rest /\ s = source sh ++ rest.

Lemma lexeme_cases sh : lexeme sh ->
  (exists lit, sh = (TOKEN_STRING, lit)) \/
  (exists lit, sh = (TOKEN_NUMBER, lit) /\ lit <> [] /\ Forall (fun c => isdigit c = true) lit) \/
  (exists text, fixed_text sh.1 = Some text /\ sh.2 = text) \/
  (word sh.2 /\ word_type sh.2 = sh.1).
Proof.
  destruct sh as [ty lit]. unfold lexeme. cbn [fst snd]. destruct (fixed_text ty) as [text|] eqn:Hf.
  { intros ->. right. right. left. by exists text. }
  destruct ty; try discriminate Hf; intros Hty;
    first [left; by exists lit|right; left; exists lit; by destruct Hty|by right; right; right].
Qed.

Lemma isLetter_not_digit c : isLetter c = true -> isdigit c = false.
Proof. unfold isLetter, isdigit, between. intros H. repeat (destruct (Z.leb_spec _ _); simpl in *; try done); lia. Qed.

Lemma word_shape lit : word lit -> lexeme (word_type lit, lit) /\ source (word_type lit, lit) = lit /\
  forall rest, (forall c, head rest = Some c -> isLetterOrDigit c = false) <-> closes (word_type lit, lit) rest.
Proof.
  intros Hw. destruct (word_type_spec lit) as (Hf & Hns & Hnn & Hne). remember (word_type lit) as ty eqn:Hty. symmetry in Hty.
  unfold lexeme, source, closes. cbn [fst snd]. rewrite Hf. split_and!; [by destruct ty|by destruct ty|].
  intros rest. destruct ty; try done; naive_solver.
Qed.

Ltac eval_isLetter := match goal with |- context [isLetter ?c] =>
  let b := eval vm_compute in (isLetter c) in change (isLetter c) with b end.
Ltac eval_isdigit := match goal with |- context [isdigit ?c] =>
  let b := eval vm_compute in (isdigit c) in change (isdigit c) with b end.

(** *** Completeness: a token in the text is read. *)

Lemma lex_fixed ty text rest pos :
  fixed_text ty = Some text -> closes (ty, text) rest ->
  lex_token (mkLexer (text ++ rest) pos) = Ok (mkToken ty text pos, mkLexer rest (pos + Z.of_nat (length text))).
Proof.
  intros Hty Hcl. rewrite <- lx_advance_app.
  destruct ty; simpl in Hty; simplify_eq; unfold lex_token; cbn [lxRest app head lxPos];
    eval_isLetter; eval_isdigit; cbv iota; repeat (rewrite decide_False by done); rewrite decide_True by done;
    rewrite ?bool_decide_true by done; try done.
  all: unfold closes in Hcl; cbn [fst] in Hcl; by rewrite bool_decide_false.
Qed.

Lemma lex_word lit rest pos :
  word lit -> (forall c, head rest = Some c -> isLetterOrDigit c = false) ->
  lex_token (mkLexer (lit ++ rest) pos) = Ok (mkToken (word_type lit) lit pos, mkLexer rest (pos + Z.of_nat (length lit))).
Proof.
  intros (Hall & c & s & -> & Hc) Hr. unfold lex_token. cbn [lxRest app]. rewrite Hc.
  unfold lexIdentOrKeyword. cbn [lxRest lxPos].
  change (c :: s ++ rest) with ((c :: s) ++ rest). rewrite span_exact by done. cbn [fst]. by rewrite lx_advance_app.
Qed.

Lemma lex_number lit rest pos :
  lit <> [] -> Forall (fun c => isdigit c = true) lit -> (forall c, head rest = Some c -> isdigit c = false) ->
  lex_token (mkLexer (lit ++ rest) pos) = Ok (mkToken TOKEN_NUMBER lit pos, mkLexer rest (pos + Z.of_nat (length lit))).
Proof.
  intros Hne Hall Hr. destruct lit as [|c s]; [done|]. assert (Hc : isdigit c = true) by exact (Forall_inv Hall).
  unfold lex_token. cbn [lxRest app].
  assert (Hl : isLetter c = false).
  { destruct (isLetter c) eqn:Hl; [|done]. apply isLetter_not_digit in Hl. by rewrite Hl in Hc. }
  rewrite Hl, Hc. unfold lexNumber. cbn [lxRest lxPos].
  change (c :: s ++ rest) with ((c :: s) ++ rest). rewrite span_exact by done. cbn [fst]. by rewrite lx_advance_app.
Qed.

Lemma lex_string lit rest pos : head rest <> Some tick ->
  lex_token (mkLexer (source (TOKEN_STRING, lit) ++ rest) pos) =
    Ok (mkToken TOKEN_STRING lit pos, mkLexer rest (pos + Z.of_nat (length (source (TOKEN_STRING, lit))))).
Proof.
  intros Hr. rewrite <- lx_advance_app. unfold lex_token, source. cbn [fst snd lxRest app].
  change (isLetter tick) with false. change (isdigit tick) with false. cbv iota. rewrite decide_True by done.
  unfold lexString. cbn [lxRest lxPos]. rewrite <- (assoc_L (++)).
  match goal with |- context [drop 1 (tick :: ?x)] => change (drop 1 (tick :: x)) with x end.
  cbn [app]. rewrite string_body_escape by (intros c Hc ->; by destruct Hr). f_equal. f_equal.
  by rewrite length_cons, length_app, Nat.add_1_r.
Qed.

Lemma lex_token_complete s sh rest pos : token_at s sh rest ->
  lex_token (mkLexer s pos) = Ok (mkToken sh.1 sh.2 pos, mkLexer rest (pos + Z.of_nat (length (source sh)))).
Proof.
  intros (Hlex & Hcl & ->).
  destruct (lexeme_cases sh Hlex) as [(lit & ->)|[(lit & -> & Hne & Hall)|[(text & Hf & Htext)|[Hw Hty]]]].
  - by apply lex_string.
  - by apply lex_number.
  - destruct sh as [ty lit]. cbn [fst snd] in *. subst lit. assert (Hs : source (ty, text) = text) by (by destruct ty).
    rewrite Hs. by apply lex_fixed.
  - destruct sh as [ty lit]. cbn [fst snd] in *. subst ty. destruct (word_shape lit Hw) as (_ & -> & Hr). apply lex_word; [done|]. by apply Hr.
Qed.

(** *** Soundness: what is read is a token in the text. *)

Definition reads (l : lexer) (t : Token) (l' : lexer) : Prop :=
  exists rest, token_at (lxRest l) (shape_of t) rest /\ tPos t = lxPos l /\
    l' = mkLexer rest (lxPos l + Z.of_nat (length (source (shape_of t)))).

Lemma reads_punct ty text l rest :
  fixed_text ty = Some text -> lxRest l = text ++ rest -> closes (ty, text) rest -> reads l (punct ty text l).1 (punct ty text l).2.
Proof.
  intros Hty Hrest Hcl. destruct l as [s pos]. simpl in Hrest. subst s.
  assert (Hsrc : source (ty, text) = text) by (by destruct ty).
  exists rest. unfold token_at, shape_of, punct. cbn [fst snd tType tLiteral lxRest lxPos]. rewrite Hsrc. split_and!; try done.
  - unfold lexeme. cbn [fst snd]. by rewrite Hty.
  - apply lx_advance_app.
Qed.

Lemma reads_word l c s : lxRest l = c :: s -> isLetter c = true ->
  reads l (lexIdentOrKeyword l).1 (lexIdentOrKeyword l).2.
Proof.
  intros Hl Hc. pose proof (word_span _ _ _ Hl Hc) as Hw.
  destruct (span_spec isLetterOrDigit (lxRest l)) as (Hs & _ & Hr). unfold lexIdentOrKeyword. cbn [fst snd].
  set (lit := (span _ _).1) in *. set (rest := (span _ _).2) in *. clearbody lit rest. destruct l as [s' pos].
  cbn [lxRest lxPos] in *. subst s'. destruct (word_shape lit Hw) as (Hlex & Hsrc & Hcl).
  exists rest. unfold token_at, shape_of. cbn [tType tLiteral tPos lxRest lxPos]. rewrite Hsrc. split_and!; [done|by apply Hcl|done|done|].
  rewrite Hs. apply lx_advance_app.
Qed.

Lemma reads_number l c s : lxRest l = c :: s -> isdigit c = true -> reads l (lexNumber l).1 (lexNumber l).2.
Proof.
  intros Hl Hc. destruct (span_spec isdigit (lxRest l)) as (Hs & Ha & Hr).
  assert (Hne : (span isdigit (lxRest l)).1 <> []) by (rewrite Hl; simpl; rewrite Hc; by destruct (span isdigit s)).
  unfold lexNumber. cbn [fst snd]. set (lit := (span _ _).1) in *. set (rest := (span _ _).2) in *. clearbody lit rest.
  destruct l as [s' pos]. cbn [lxRest lxPos] in *. subst s'. exists rest. split_and!; try done.
  rewrite Hs. apply lx_advance_app.
Qed.

Lemma reads_string l s t l' : lxRest l = tick :: s -> lexString l = Ok (t, l') -> reads l t l'.
Proof.
  destruct l as [s' pos]. cbn [lxRest]. intros ->. unfold lexString. cbn [lxRest lxPos].
  change (drop 1 (tick :: s)) with s. destruct (string_body s) as [[lit n]|] eqn:Hs; [|intros [=]]. intros [= <- <-].
  apply string_body_source in Hs as (Ht & Hn & Hr). exists (drop n s). unfold token_at, shape_of, source. simpl.
  split_and!; try done.
  - rewrite <- (take_drop n s) at 1. by rewrite Ht, <- !(assoc_L (++)).
  - unfold lx_advance. simpl. f_equal. rewrite <- Ht, length_take. lia.
Qed.

(** The outermost test of the main loop's switch. *)
Ltac branch :=
  match goal with |- (if decide ?P then _ else _) = _ -> _ => destruct (decide P) end.

Lemma lex_token_sound l t l' : lxRest l <> [] -> lex_token l = Ok (t, l') -> reads l t l'.
Proof.
  intros Hne. unfold lex_token. destruct (lxRest l) as [|c s] eqn:Hl; [done|]. clear Hne.
  destruct (isLetter c) eqn:Hc; [intros [= <- <-]; by eapply reads_word|].
  destruct (isdigit c) eqn:Hd; [intros [= <- <-]; by eapply reads_number|].
  branch; [subst; by apply reads_string with s|].
  do 6 (branch; [subst; intros [= <- <-]; by apply reads_punct with s|]).
  do 3 (branch; [subst; case_bool_decide as Hh;
    [destruct s as [|d s']; [done|]; injection Hh as ->; intros [= <- <-]; by apply reads_punct with s'
    |try done; intros [= <- <-]; by apply reads_punct with s]|]).
  done.
Qed.

(** The errors: a quote that opens no string, or a byte that opens nothing. *)
Lemma lex_token_fails c s pos e : lex_token (mkLexer (c :: s) pos) = Fail e ->
  (forall sh rest, ~ token_at (c :: s) sh rest) /\
  e = if decide (c = tick) then UnterminatedString pos else UnexpectedCharacter c pos.
Proof.
  intros Hfail. split; [intros sh rest Ht; apply (lex_token_complete _ _ _ pos) in Ht; congruence|]. revert Hfail.
  unfold lex_token. cbn [lxRest lxPos]. destruct (isLetter c); [done|]. destruct (isdigit c); [done|].
  branch; [subst c; unfold lexString; destruct (string_body _) as [[lit n]|]; [done|by intros [= <-]]|].
  do 6 (branch; [done|]). do 3 (branch; [destruct (bool_decide _); first [done|by intros [= <-]]|]). by intros [= <-].
Qed.

(** ** The whole input *)

(** [lexed pos s out]: the text [s] at position [pos] of the input is lexed as
    [out]. *)
Inductive lexed (pos : Z) : bytes -> result lexerr (list Token) -> Prop :=
| lexed_end gap :
    skips gap [] -> lexed pos gap (Ok [mkToken TOKEN_EOF [] (pos + Z.of_nat (length gap))])
| lexed_token gap s sh rest out :
    skips gap s -> token_at s sh rest ->
    lexed (pos + Z.of_nat (length gap) + Z.of_nat (length (source sh))) rest out ->
    lexed pos (gap ++ s) (try ts <- out; Ok (mkToken sh.1 sh.2 (pos + Z.of_nat (length gap)) :: ts))
| lexed_unexpected gap c s :
    skips gap (c :: s) -> c <> tick -> (forall sh rest, ~ token_at (c :: s) sh rest) ->
    lexed pos (gap ++ c :: s) (Fail (UnexpectedCharacter c (pos + Z.of_nat (length gap))))
| lexed_unterminated gap s :
    skips gap (tick :: s) -> (forall sh rest, ~ token_at (tick :: s) sh rest) ->
    lexed pos (gap ++ tick :: s) (Fail (UnterminatedString (pos + Z.of_nat (length gap)))).

Lemma source_nonempty sh : lexeme sh -> source sh <> [].
Proof.
  intros Hl. destruct (lexeme_cases sh Hl) as [(lit & ->)|[(lit & -> & Hne & _)|[(text & Hf & Ht)|[Hw Ht]]]]; [done|done| |].
  - destruct sh as [ty lit]. simpl in *. subst lit. destruct ty; simpl in Hf; simplify_eq; done.
  - destruct sh as [ty lit]. cbn [fst snd] in *. subst ty. destruct (word_shape lit Hw) as (_ & -> & _). by destruct Hw as (_ & ? & ? & -> & _).
Qed.

Lemma lex_from_sound fuel s pos : (length s < fuel)%nat -> lexed pos s (lex_from fuel (mkLexer s pos)).
Proof.
  revert s pos. induction fuel as [|fuel IH]; intros s pos Hf; [lia|]. cbn [lex_from].
  destruct (skips_total s) as (gap & rest & -> & Hs). rewrite (skips_run _ _ _ Hs). cbn [lxRest lxPos].
  destruct rest as [|c rest]; [rewrite app_nil_r; by constructor|].
  destruct (lex_token _) as [[t l']|e] eqn:Ht; cbn [result_bind fst snd].
  - apply lex_token_sound in Ht as (rest' & Htok & Hpos & ->); [|done]. cbn [lxRest lxPos] in *.
    pose proof Htok as (Hlex & _ & Hsrc). pose proof (source_nonempty _ Hlex) as Hne.
    destruct t as [ty lit p]. simpl in Hpos. subst p. unfold shape_of in *. cbn [tType tLiteral] in *.
    apply (lexed_token pos gap (c :: rest) (ty, lit) rest'); [done|done|]. apply IH.
    rewrite Hsrc, !length_app in Hf. destruct (source (ty, lit)); [done|]. simpl in Hf. lia.
  - destruct (lex_token_fails _ _ _ _ Ht) as [Hno ->]. case_decide; [subst c|]; by constructor.
Qed.

Lemma lex_from_complete fuel s pos out : lexed pos s out -> (length s < fuel)%nat -> lex_from fuel (mkLexer s pos) = out.
Proof.
  intros Hl. revert fuel. induction Hl as [pos gap Hs|pos gap s sh rest out Hs Ht Hl IH|pos gap c s Hs Hc Hno|pos gap s Hs Hno];
    intros [|fuel] Hf; try lia; cbn [lex_from].
  - pose proof (skips_run gap [] pos Hs) as Hr. rewrite app_nil_r in Hr. by rewrite Hr.
  - rewrite (skips_run _ _ _ Hs). cbn [lxRest lxPos]. pose proof Ht as (Hlex & _ & Hsrc).
    pose proof (source_nonempty _ Hlex) as Hne. destruct s as [|c s]; [by destruct (source sh)|].
    rewrite (lex_token_complete _ _ _ _ Ht). cbn [result_bind fst snd]. rewrite IH; [done|].
    rewrite Hsrc, !length_app in Hf. destruct (source sh); [done|]. simpl in Hf. lia.
  - rewrite (skips_run _ _ _ Hs). cbn [lxRest lxPos]. destruct (lex_token _) as [[t l']|e] eqn:Ht.
    + apply lex_token_sound in Ht as (rest & Htok & _); [|done]. by destruct (Hno _ _ Htok).
    + apply lex_token_fails in Ht as [_ ->]. by rewrite decide_False.
  - rewrite (skips_run _ _ _ Hs). cbn [lxRest lxPos]. destruct (lex_token _) as [[t l']|e] eqn:Ht.
    + apply lex_token_sound in Ht as (rest & Htok & _); [|done]. by destruct (Hno _ _ Htok).
    + apply lex_token_fails in Ht as [_ ->]. by rewrite decide_True.
Qed.

(** C26: The lexer does exactly what the grammar of tokens says, on every input.
    White space and comments, each up to the end of its line, are skipped; then
    the word, number, string or symbol there, as long as it can be, is the next
    token, at its position; after the last one comes an end marker.  If there is
    no token at a byte, the lexer fails with that byte and its position or, if it
    is a quote, with the position of the string that is never closed.  It always
    ends in one of these ways. *)
Theorem Lex_spec input out : Lex input = out <-> lexed 0 input out.
Proof.
  unfold Lex. split; [intros <-; apply lex_from_sound; lia|]. intros Hl. apply lex_from_complete; [done|lia].
Qed.

Lemma Lex_fuel input : Lex input <> Fail LexFuel.
Proof.
  intros Hf. pose proof (lex_from_sound (S (length input)) input 0 ltac:(lia)) as Hl. fold (Lex input) in Hl.
  rewrite Hf in Hl. clear Hf. remember (Fail LexFuel) as out eqn:Ho. revert Ho.
  induction Hl as [| pos gap s sh rest out Hs Ht Hl IH| |]; try done. destruct out; [done|]. intros [= ->]. by apply IH.
Qed.

(** ** Printed tokens *)

Definition space : ascii := " "%char.

(** Tokens written out with a space after each. *)
Fixpoint print_tokens (shs : list shape) : bytes :=
  match shs with [] => [] | sh :: rest => source sh ++ space :: print_tokens rest end.

(** Nothing is skipped before a token. *)
Lemma lexeme_at_token sh rest : lexeme sh -> at_token (source sh ++ rest).
Proof.
  destruct sh as [ty lit]. unfold lexeme. cbn [fst snd]. destruct (fixed_text ty) as [text|] eqn:Hf.
  - intros ->. destruct ty; simpl in Hf; simplify_eq; (split; [done|]); by destruct rest.
  - intros Hty. destruct (decide (ty = TOKEN_STRING)) as [->|Hns]; [split; [done|]; by destruct (escape lit)|].
    assert (Hs : source (ty, lit) = lit) by (by destruct ty). rewrite Hs.
    assert (Hc : exists c s, lit = c :: s /\ isLetterOrDigit c = true).
    { unfold isLetterOrDigit. destruct (decide (ty = TOKEN_NUMBER)) as [->|Hnn].
      - destruct Hty as [Hne Hall], lit as [|c s]; [done|]. exists c, s. split; [done|].
        assert (Hd : isdigit c = true) by exact (Forall_inv Hall). rewrite Hd. apply orb_true_r.
      - assert (Hw : word lit) by (destruct ty; by try destruct Hty). destruct Hw as (_ & c & s & -> & Hc). exists c, s. by rewrite Hc. }
    destruct Hc as (c & s & -> & Hc). simpl. split.
    + destruct (isspace c) eqn:Hsp; [|done]. unfold isspace in Hsp. unfold isLetterOrDigit, isLetter, isdigit, between in Hc.
      exfalso. repeat (destruct (Z.leb_spec _ _); simpl in *; try done); repeat (destruct (Z.eqb_spec _ _); simpl in *; try done); lia.
    + intros [= -> _]. done.
Qed.

Lemma space_closes sh s : lexeme sh -> closes sh (space :: s).
Proof.
  intros Hl. destruct (lexeme_cases sh Hl) as [(lit & ->)|[(lit & -> & _)|[(text & Hf & Ht)|[Hw Ht]]]]; [done|by intros ? [= <-]| |].
  - destruct sh as [ty lit]. by destruct ty.
  - destruct sh as [ty lit]. cbn [fst snd] in *. subst ty. destruct (word_shape lit Hw) as (_ & _ & Hcl). apply Hcl. by intros ? [= <-].
Qed.

Lemma print_tokens_at shs : Forall lexeme shs -> at_token (print_tokens shs).
Proof. intros [|sh rest Hsh _]; [done|]. by apply lexeme_at_token. Qed.

Lemma skip_print shs pre pos :
  Forall lexeme shs -> pre = [] \/ pre = [space] ->
  exists pos', skipWhitespaceAndComments (mkLexer (pre ++ print_tokens shs) pos) = mkLexer (print_tokens shs) pos'.
Proof.
  intros Hall%print_tokens_at [->| ->]; eexists; [apply (skips_run [])|apply (skips_run [space])]; by repeat constructor.
Qed.

Lemma lex_from_print shs fuel pre pos :
  Forall lexeme shs -> pre = [] \/ pre = [space] -> (length (print_tokens shs) < fuel)%nat ->
  exists ts, lex_from fuel (mkLexer (pre ++ print_tokens shs) pos) = Ok ts /\ shape_of <$> ts = shs ++ [(TOKEN_EOF, [])].
Proof.
  revert fuel pre pos. induction shs as [|sh shs IH]; intros [|fuel] pre pos Hall Hpre Hf; try lia; cbn [lex_from];
    destruct (skip_print _ pre pos Hall Hpre) as [pos' ->]; cbn [lxRest lxPos]; [by eexists|].
  apply Forall_cons in Hall as [Hsh Hall]. cbn [print_tokens] in *.
  destruct (source sh ++ space :: print_tokens shs) as [|c s] eqn:Hs; [by destruct (source sh)|]. rewrite <- Hs in *.
  rewrite (lex_token_complete _ sh (space :: print_tokens shs)) by (split_and!; [done|by apply space_closes|done]). cbn [result_bind fst snd].
  destruct (IH fuel [space] (pos' + Z.of_nat (length (source sh))) Hall (or_intror eq_refl)) as (ts & Hts & Hsh').
  { rewrite length_app in Hf. simpl in Hf. lia. }
  simpl in Hts. rewrite Hts. cbn [result_bind]. eexists. split; [done|]. by rewrite fmap_cons, Hsh'; destruct sh.
Qed.

(** Every sequence of tokens can be written, and is read back. *)
Lemma Lex_print shs : Forall lexeme shs ->
  exists ts, Lex (print_tokens shs) = Ok ts /\ shape_of <$> ts = shs ++ [(TOKEN_EOF, [])].
Proof. intros Hall. apply (lex_from_print shs _ [] 0 Hall); [by left|lia]. Qed.
