(* ===== verification/SqlParser.v ===== *)
(** The SQL syntax trees and parser (src/internal/sql/ast.go and parser.go).

    A parser takes the tokens from its position on and returns what it read and
    the tokens left.  Loops and the recursion through parentheses run on fuel;
    [Parse] supplies one more unit than there are tokens, which is always
    enough. *)

From Stdlib Require Import Ascii.
From S2P Require Import Prelude Strconv Json SqlLexer.

(** ** Syntax trees *)

Inductive ColumnType := TypeInt | TypeText | TypeBool.
#[global] Instance ColumnType_eq_dec : EqDecision ColumnType.
Proof. solve_decision. Defined.

Record ColumnDef := mkColumnDef {
  cdName : string;
  cdType : ColumnType;
  cdPrimaryKey : bool;
  cdNotNull : bool;
}.

(** The values a literal can hold: [int64], [string], [bool] or [nil]. *)
Inductive LitValue := LInt (n : Z) | LString (s : string) | LBool (b : bool) | LNull.
#[global] Instance LitValue_eq_dec : EqDecision LitValue.
Proof. solve_decision. Defined.

Inductive Expr :=
| BinaryExpr (Left : Expr) (Op : string) (Right : Expr)
| ColumnRef (Name : string)
| Literal (Value : LitValue)
| StarExpr.
#[global] Instance Expr_eq_dec : EqDecision Expr.
Proof. solve_decision. Defined.

Record Assignment := mkAssignment { asColumn : string; asValue : Expr }.

(** [Where] is [None] for a nil expression; a nil column list is [[]]. *)
Inductive Statement :=
| CreateTableStmt (TableName : string) (Columns : list ColumnDef)
| InsertStmt (TableName : string) (Columns : list string) (Values : list Expr)
| SelectStmt (Columns : list Expr) (TableName : string) (Where : option Expr)
| UpdateStmt (TableName : string) (Assignments : list Assignment) (Where : option Expr)
| DeleteStmt (TableName : string) (Where : option Expr).

(** ** Reading tokens *)

Inductive parseerr :=
| PLex (e : lexerr)
| PExpected (ty : TokenType) (got : Token)
| PStatement (got : Token)
| PColumnType (got : Token)
| PNumber (got : Token) (e : numerr)
| PExpr (got : Token)
| PFuel.

Definition parser (A : Type) : Type := list Token -> result parseerr (A * list Token).

Definition p_ret {A} (a : A) : parser A := fun ts => Ok (a, ts).
Definition p_fail {A} (e : parseerr) : parser A := fun _ => Fail e.
Definition p_bind {A B} (c : parser A) (k : A -> parser B) : parser B := fun ts =>
  match c ts with Ok (a, ts') => k a ts' | Fail e => Fail e end.

Notation "'parse' x <- c ; k" := (p_bind c (fun x => k))
  (at level 100, x pattern, c at next level, k at level 200, right associativity) : doki_scope.
Notation "'parse_' c ; k" := (p_bind c (fun _ => k))
  (at level 100, c at next level, k at level 200, right associativity) : doki_scope.

Definition peek : parser Token := fun ts =>
  Ok (match ts with tok :: _ => tok | [] => mkToken TOKEN_EOF [] 0 end, ts).

Definition advance : parser Token := fun ts =>
  match ts with tok :: ts' => Ok (tok, ts') | [] => Ok (mkToken TOKEN_EOF [] 0, []) end.

Definition expect (ty : TokenType) : parser Token :=
  parse tok <- advance;
  if decide (tType tok <> ty) then p_fail (PExpected ty tok) else p_ret tok.

Definition check (ty : TokenType) : parser bool :=
  parse tok <- peek; p_ret (bool_decide (tType tok = ty)).

(** [match] with one type, as the parser always calls it. *)
Definition p_match (ty : TokenType) : parser bool :=
  parse b <- check ty; if b then parse_ advance; p_ret true else p_ret false.

(** [for { item; if !match(COMMA) { break } }] *)
Fixpoint comma_list {A} (fuel : nat) (item : parser A) : parser (list A) :=
  match fuel with
  | O => p_fail PFuel
  | S fuel' =>
      parse x <- item;
      parse more <- p_match TOKEN_COMMA;
      if more then parse xs <- comma_list fuel' item; p_ret (x :: xs) else p_ret [x]
  end.

Definition ident : parser string := parse tok <- expect TOKEN_IDENT; p_ret (to_str (tLiteral tok)).

(** ** Expressions *)

Definition is_compare (ty : TokenType) : bool :=
  match ty with
  | TOKEN_EQ | TOKEN_NEQ | TOKEN_LT | TOKEN_GT | TOKEN_LTE | TOKEN_GTE => true
  | _ => false
  end.

Section expressions.
Context (primary : parser Expr).

(** [parseCompare] over a parser of its operands. *)
Definition compare_with : parser Expr :=
  parse lhs <- primary;
  parse tok <- peek;
  if is_compare (tType tok) then
    parse_ advance;
    parse rhs <- primary;
    p_ret (BinaryExpr lhs (to_str (tLiteral tok)) rhs)
  else p_ret lhs.

(** The loop of [parseExpr], from the expression read so far. *)
Fixpoint expr_loop (fuel : nat) (lhs : Expr) : parser Expr :=
  match fuel with
  | O => p_fail PFuel
  | S fuel' =>
      parse is_and <- check TOKEN_AND;
      parse is_or <- check TOKEN_OR;
      if is_and || is_or then
        parse opTok <- advance;
        parse rhs <- compare_with;
        expr_loop fuel' (BinaryExpr lhs (to_str (ToUpper (tLiteral opTok))) rhs)
      else p_ret lhs
  end.

Definition expr_with (fuel : nat) : parser Expr := parse lhs <- compare_with; expr_loop fuel lhs.
End expressions.

Fixpoint parsePrimary (fuel : nat) : parser Expr :=
  match fuel with
  | O => p_fail PFuel
  | S fuel' =>
      parse tok <- peek;
      match tType tok with
      | TOKEN_NUMBER =>
          parse_ advance;
          match ParseInt (tLiteral tok) with
          | Ok n => p_ret (Literal (LInt n))
          | Fail e => p_fail (PNumber tok e)
          end
      | TOKEN_STRING => parse_ advance; p_ret (Literal (LString (to_str (tLiteral tok))))
      | TOKEN_TRUE => parse_ advance; p_ret (Literal (LBool true))
      | TOKEN_FALSE => parse_ advance; p_ret (Literal (LBool false))
      | TOKEN_NULL => parse_ advance; p_ret (Literal LNull)
      | TOKEN_IDENT => parse_ advance; p_ret (ColumnRef (to_str (tLiteral tok)))
      | TOKEN_LPAREN =>
          parse_ advance;
          parse e <- expr_with (parsePrimary fuel') fuel';
          parse_ expect TOKEN_RPAREN;
          p_ret e
      | _ => p_fail (PExpr tok)
      end
  end.

Definition parseCompare (fuel : nat) : parser Expr := compare_with (parsePrimary fuel).
Definition parseExpr (fuel : nat) : parser Expr := expr_with (parsePrimary fuel) fuel.

(** ** Statements *)

Definition parseColumnType : parser ColumnType :=
  parse tok <- advance;
  match tType tok with
  | TOKEN_INT => p_ret TypeInt
  | TOKEN_TEXT => p_ret TypeText
  | TOKEN_BOOL => p_ret TypeBool
  | _ => p_fail (PColumnType tok)
  end.

(** The optional constraints of a column, in any order. *)
Fixpoint constraints (fuel : nat) (primaryKey notNull : bool) : parser (bool * bool) :=
  match fuel with
  | O => p_fail PFuel
  | S fuel' =>
      parse is_primary <- check TOKEN_PRIMARY;
      if is_primary then parse_ advance; parse_ expect TOKEN_KEY; constraints fuel' true notNull
      else
        parse is_not <- check TOKEN_NOT;
        if is_not then parse_ advance; parse_ expect TOKEN_NULL; constraints fuel' primaryKey true
        else p_ret (primaryKey, notNull)
  end.

Definition parseColumnDef (fuel : nat) : parser ColumnDef :=
  parse name <- ident;
  parse colType <- parseColumnType;
  parse (primaryKey, notNull) <- constraints fuel false false;
  p_ret (mkColumnDef name colType primaryKey notNull).

Definition parseCreateTable (fuel : nat) : parser Statement :=
  parse_ expect TOKEN_CREATE;
  parse_ expect TOKEN_TABLE;
  parse name <- ident;
  parse_ expect TOKEN_LPAREN;
  parse cols <- comma_list fuel (parseColumnDef fuel);
  parse_ expect TOKEN_RPAREN;
  parse_ p_match TOKEN_SEMICOLON;
  p_ret (CreateTableStmt name cols).

Definition parseInsert (fuel : nat) : parser Statement :=
  parse_ expect TOKEN_INSERT;
  parse_ expect TOKEN_INTO;
  parse name <- ident;
  parse has_cols <- check TOKEN_LPAREN;
  parse cols <- (if has_cols then
                   parse_ advance;
                   parse cols <- comma_list fuel ident;
                   parse_ expect TOKEN_RPAREN;
                   p_ret cols
                 else p_ret []);
  parse_ expect TOKEN_VALUES;
  parse_ expect TOKEN_LPAREN;
  parse values <- comma_list fuel (parseExpr fuel);
  parse_ expect TOKEN_RPAREN;
  parse_ p_match TOKEN_SEMICOLON;
  p_ret (InsertStmt name cols values).

Definition parseSelect (fuel : nat) : parser Statement :=
  parse_ expect TOKEN_SELECT;
  parse star <- check TOKEN_STAR;
  parse columns <- (if star then parse_ advance; p_ret [StarExpr] else comma_list fuel (parsePrimary fuel));
  parse_ expect TOKEN_FROM;
  parse name <- ident;
  parse has_where <- p_match TOKEN_WHERE;
  parse where_ <- (if has_where then parse e <- parseExpr fuel; p_ret (Some e) else p_ret None);
  parse_ p_match TOKEN_SEMICOLON;
  p_ret (SelectStmt columns name where_).

Definition parseAssignment (fuel : nat) : parser Assignment :=
  parse column <- ident;
  parse_ expect TOKEN_EQ;
  parse value <- parseExpr fuel;
  p_ret (mkAssignment column value).

Definition parseUpdate (fuel : nat) : parser Statement :=
  parse_ expect TOKEN_UPDATE;
  parse name <- ident;
  parse_ expect TOKEN_SET;
  parse assignments <- comma_list fuel (parseAssignment fuel);
  parse_ expect TOKEN_WHERE;
  parse where_ <- parseExpr fuel;
  parse_ p_match TOKEN_SEMICOLON;
  p_ret (UpdateStmt name assignments (Some where_)).

Definition parseDelete (fuel : nat) : parser Statement :=
  parse_ expect TOKEN_DELETE;
  parse_ expect TOKEN_FROM;
  parse name <- ident;
  parse_ expect TOKEN_WHERE;
  parse where_ <- parseExpr fuel;
  parse_ p_match TOKEN_SEMICOLON;
  p_ret (DeleteStmt name (Some where_)).

Definition parseStatement (fuel : nat) : parser Statement :=
  parse tok <- peek;
  match tType tok with
  | TOKEN_CREATE => parseCreateTable fuel
  | TOKEN_INSERT => parseInsert fuel
  | TOKEN_SELECT => parseSelect fuel
  | TOKEN_UPDATE => parseUpdate fuel
  | TOKEN_DELETE => parseDelete fuel
  | _ => p_fail (PStatement tok)
  end.

Definition Parse (input : bytes) : result parseerr Statement :=
  match Lex input with
  | Fail e => Fail (PLex e)
  | Ok tokens => try p <- parseStatement (S (length tokens)) tokens; Ok p.1
  end.

(** ** Termination *)

(** The errors the parser itself reports. *)
Definition grammar_error (e : parseerr) : Prop :=
  match e with PExpected _ _ | PStatement _ | PColumnType _ | PNumber _ _ | PExpr _ => True | PLex _ | PFuel => False end.

(** On fewer than [n] tokens, [c] fails, if at all, with an error of its
    own, and if it succeeds it has used up at least [k] of them. *)
Definition uses {A} (n k : nat) (c : parser A) : Prop := forall ts, (length ts < n)%nat ->
  match c ts with Ok (_, ts') => (length ts' + k <= length ts)%nat | Fail e => grammar_error e end.

Lemma uses_bind {A B} n k1 k2 (c : parser A) (f : A -> parser B) :
  uses n k1 c -> (forall a, uses (n - k1) k2 (f a)) -> uses n (k1 + k2) (p_bind c f).
Proof.
  intros Hc Hf ts Hlen. unfold p_bind. specialize (Hc ts Hlen). destruct (c ts) as [[a ts']|e]; [|done].
  specialize (Hf a ts' ltac:(lia)). destruct (f a ts') as [[b ts'']|e]; [lia|done].
Qed.

Lemma uses_mono {A} n n' k k' (c : parser A) : uses n k c -> (n' <= n)%nat -> (k' <= k)%nat -> uses n' k' c.
Proof. intros Hc Hn Hk ts Hlen. specialize (Hc ts ltac:(lia)). destruct (c ts) as [[a ts']|e]; [lia|done]. Qed.

(** Both parts may use what they like. *)
Lemma uses_seq {A B} n k (c : parser A) (f : A -> parser B) :
  uses n k c -> (forall a, uses n 0 (f a)) -> uses n k (p_bind c f).
Proof.
  intros Hc Hf. rewrite <- (Nat.add_0_r k). apply uses_bind; [done|]. intros a. eapply uses_mono; [apply Hf|lia|lia].
Qed.

Lemma uses_then {A B} n k (c : parser A) (f : A -> parser B) :
  uses n 0 c -> (forall a, uses n k (f a)) -> uses n k (p_bind c f).
Proof. intros Hc Hf. apply (uses_bind n 0 k); [done|]. intros a. rewrite Nat.sub_0_r. apply Hf. Qed.

Lemma uses_ret {A} n (a : A) : uses n 0 (p_ret a).
Proof. intros ts _. simpl. lia. Qed.

Lemma uses_fail {A} n k e : grammar_error e -> uses n k (p_fail (A := A) e).
Proof. by intros He ts _. Qed.

Lemma uses_peek n : uses n 0 peek.
Proof. intros ts _. simpl. lia. Qed.

Lemma uses_advance n : uses n 0 advance.
Proof. intros [|tok ts] _; simpl; lia. Qed.

Lemma uses_expect n ty : ty <> TOKEN_EOF -> uses n 1 (expect ty).
Proof.
  intros Hty [|tok ts] _; unfold expect, p_bind; cbn [advance tType].
  - by rewrite decide_True.
  - case_decide; simpl; [done|lia].
Qed.

Lemma uses_check n ty : uses n 0 (check ty).
Proof. apply uses_then; [apply uses_peek|]. intros tok. apply uses_ret. Qed.

Lemma uses_match n ty : uses n 0 (p_match ty).
Proof.
  apply uses_then; [apply uses_check|]. intros [].
  - apply uses_then; [apply uses_advance|]. intros _. apply uses_ret.
  - apply uses_ret.
Qed.

Lemma uses_ident n : uses n 1 ident.
Proof. apply uses_seq; [by apply uses_expect|]. intros tok. apply uses_ret. Qed.

#[export] Hint Resolve uses_ret uses_peek uses_advance uses_expect uses_check uses_match uses_ident : doki.
#[export] Hint Extern 1 (uses _ _ (p_fail _)) => by apply uses_fail : doki.

Lemma uses_comma_list {A} n fuel (item : parser A) : uses n 1 item -> (n <= fuel)%nat -> uses n 1 (comma_list fuel item).
Proof.
  revert n. induction fuel as [|fuel IH]; intros n Hitem Hn; [intros ts Hts; lia|]. cbn [comma_list].
  apply (uses_bind n 1 0); [done|]. intros x. apply uses_then; [auto with doki|]. intros []; [|auto with doki].
  apply uses_seq; [|auto with doki].
  eapply uses_mono; [apply (IH (n - 1)%nat); [eapply uses_mono; [done|lia|lia]|lia]|lia|lia].
Qed.

Lemma uses_compare n primary : uses n 1 primary -> uses n 1 (compare_with primary).
Proof.
  intros Hp. apply uses_seq; [done|]. intros lhs. apply uses_then; [auto with doki|]. intros tok.
  destruct (is_compare _); [|auto with doki]. apply uses_then; [auto with doki|]. intros _.
  apply uses_seq; [by eapply uses_mono; [done|lia|lia]|auto with doki].
Qed.

Lemma uses_expr_loop n fuel primary lhs : uses n 1 primary -> (n <= fuel)%nat -> uses n 0 (expr_loop primary fuel lhs).
Proof.
  revert n lhs. induction fuel as [|fuel IH]; intros n lhs Hp Hn; [intros ts Hts; lia|]. cbn [expr_loop].
  do 2 (apply uses_then; [auto with doki|]; intros ?). destruct (_ || _); [|auto with doki].
  apply uses_then; [auto with doki|]. intros tok.
  apply (uses_mono n n 1 0); [|lia|lia]. apply (uses_bind n 1 0); [by apply uses_compare|]. intros rhs.
  apply IH; [by eapply uses_mono; [done|lia|lia]|lia].
Qed.

Lemma uses_expr n fuel primary : uses n 1 primary -> (n <= fuel)%nat -> uses n 1 (expr_with primary fuel).
Proof. intros Hp Hn. apply uses_seq; [by apply uses_compare|]. intros lhs. by apply uses_expr_loop. Qed.

Lemma uses_primary fuel : uses fuel 1 (parsePrimary fuel).
Proof.
  induction fuel as [|fuel IH]; [intros ts Hts; lia|]. intros [|tok ts] Hts; [done|].
  cbn [parsePrimary]. unfold p_bind at 1. cbn [peek].
  assert (Hone : forall A (c : parser A), uses fuel 0 c ->
    match p_bind advance (fun _ => c) (tok :: ts) with
    | Ok (_, ts') => (length ts' + 1 <= length (tok :: ts))%nat
    | Fail e => grammar_error e
    end).
  { intros A c Hc. specialize (Hc ts ltac:(simpl in *; lia)). unfold p_bind, advance.
    destruct (c ts) as [[a ts']|e]; [simpl; lia|done]. }
  destruct (tType tok); try done; apply Hone; auto with doki.
  - destruct (ParseInt _); auto with doki.
  - apply (uses_mono fuel fuel 1 0); [|lia|lia]. apply uses_seq; [by apply uses_expr|].
    intros e. apply (uses_mono fuel fuel 1 0); [|lia|lia]. apply uses_seq; auto with doki.
Qed.

Lemma uses_some {A} n k (c : parser A) : uses n k c -> uses n 0 c.
Proof. intros Hc. eapply uses_mono; [done|lia|lia]. Qed.

Lemma uses_parseExpr fuel : uses fuel 1 (parseExpr fuel).
Proof. by apply uses_expr; [apply uses_primary|]. Qed.

Lemma uses_constraints n fuel pk nn : (n <= fuel)%nat -> uses n 0 (constraints fuel pk nn).
Proof.
  revert n pk nn. induction fuel as [|fuel IH]; intros n pk nn Hn; [intros ts Hts; lia|]. cbn [constraints].
  assert (Hone : forall ty pk' nn', ty <> TOKEN_EOF ->
    uses n 0 (parse_ advance; parse_ expect ty; constraints fuel pk' nn')).
  { intros ty pk' nn' Hty. apply uses_then; [auto with doki|]. intros _. apply (uses_mono n n 1 0); [|lia|lia].
    apply (uses_bind n 1 0); [auto with doki|]. intros _. apply IH. lia. }
  apply uses_then; [auto with doki|]. intros []; [by apply Hone|].
  apply uses_then; [auto with doki|]. intros []; [by apply Hone|auto with doki].
Qed.

Lemma uses_columnType n : uses n 0 parseColumnType.
Proof. apply uses_then; [auto with doki|]. intros tok. destruct (tType tok); auto with doki. Qed.

Lemma uses_columnDef fuel : uses fuel 1 (parseColumnDef fuel).
Proof.
  apply uses_seq; [auto with doki|]. intros name. apply uses_then; [apply uses_columnType|]. intros ty.
  apply uses_then; [by apply uses_constraints|]. intros []. auto with doki.
Qed.

Lemma uses_assignment fuel : uses fuel 1 (parseAssignment fuel).
Proof.
  apply uses_seq; [auto with doki|]. intros column. apply uses_then; [by eapply uses_some, uses_expect|]. intros _.
  apply uses_then; [eapply uses_some, uses_parseExpr|]. auto with doki.
Qed.

#[export] Hint Resolve uses_primary uses_parseExpr uses_columnDef uses_assignment uses_comma_list : doki.

(** Decompose a statement parser into its calls. *)
Ltac uses_calls :=
  repeat first
    [ progress intros
    | solve [auto 3 with doki | eapply uses_some; auto 3 with doki]
    | match goal with |- uses _ _ (if ?b then _ else _) => destruct b end
    | apply uses_then ].

Lemma uses_statement fuel : uses fuel 0 (parseStatement fuel).
Proof.
  apply uses_then; [auto with doki|]. intros tok. destruct (tType tok); auto with doki.
  - unfold parseSelect. uses_calls.
  - unfold parseInsert. uses_calls.
  - unfold parseUpdate. uses_calls.
  - unfold parseDelete. uses_calls.
  - unfold parseCreateTable. uses_calls.
Qed.

(** C25: Parsing terminates on every input: neither the lexer's loop nor the
    parser's loops and its recursion through parentheses run out of the fuel
    they are given, so every input gets a statement or an error of the lexer or
    the grammar. *)
Theorem Parse_terminates input : Parse input <> Fail PFuel /\ Parse input <> Fail (PLex LexFuel).
Proof.
  unfold Parse. pose proof (Lex_fuel input) as Hl.
  destruct (Lex input) as [ts|e]; [|split; [done|by intros [= ->]]].
  pose proof (uses_statement (S (length ts)) ts ltac:(lia)) as Hs.
  destruct (parseStatement _ ts) as [[st ts']|e]; [done|]. simpl. by split; intros [= ->].
Qed.
