(* ===== verification/SqlPrint.v ===== *)
(** SQL statements as text, and their round trip through the lexer and the
    parser (src/internal/sql/lexer.go and parser.go).

    [print_stmt] writes a statement as tokens, with parentheses around every
    operand that is itself a binary expression; [Parse] brings every statement
    the grammar can express back from that text. *)

From Stdlib Require Import Ascii.
From S2P Require Import Prelude Strconv Json SqlLexer SqlParser.

(** ** Writing *)

Definition tok (ty : TokenType) (text : string) : shape := (ty, of_str text).

Definition op_type (op : string) : option TokenType :=
  match op with
  | "=" => Some TOKEN_EQ | "!=" => Some TOKEN_NEQ | "<" => Some TOKEN_LT | ">" => Some TOKEN_GT
  | "<=" => Some TOKEN_LTE | ">=" => Some TOKEN_GTE | "AND" => Some TOKEN_AND | "OR" => Some TOKEN_OR
  | _ => None
  end%string.

Definition op_tok (op : string) : shape := tok (default TOKEN_EQ (op_type op)) op.

Definition lparen : shape := tok TOKEN_LPAREN "(".
Definition rparen : shape := tok TOKEN_RPAREN ")".
Definition comma : shape := tok TOKEN_COMMA ",".
Definition semicolon : shape := tok TOKEN_SEMICOLON ";".

Definition print_literal (v : LitValue) : shape :=
  match v with
  | LInt n => (TOKEN_NUMBER, FormatInt n)
  | LString s => tok TOKEN_STRING s
  | LBool true => tok TOKEN_TRUE "TRUE"
  | LBool false => tok TOKEN_FALSE "FALSE"
  | LNull => tok TOKEN_NULL "NULL"
  end.

Definition is_binary (e : Expr) : bool := match e with BinaryExpr _ _ _ => true | _ => false end.

Fixpoint print_expr (e : Expr) : list shape :=
  match e with
  | BinaryExpr l op r =>
      (if is_binary l then lparen :: print_expr l ++ [rparen] else print_expr l) ++
      op_tok op :: (if is_binary r then lparen :: print_expr r ++ [rparen] else print_expr r)
  | ColumnRef name => [tok TOKEN_IDENT name]
  | Literal v => [print_literal v]
  | StarExpr => [tok TOKEN_STAR "*"]
  end.

(** An expression where the grammar wants a primary. *)
Definition print_operand (e : Expr) : list shape :=
  if is_binary e then lparen :: print_expr e ++ [rparen] else print_expr e.

(** A non-empty list with commas. *)
Fixpoint print_list {A} (item : A -> list shape) (xs : list A) : list shape :=
  match xs with
  | [] => []
  | [x] => item x
  | x :: rest => item x ++ comma :: print_list item rest
  end.

Definition print_type (ty : ColumnType) : shape :=
  match ty with TypeInt => tok TOKEN_INT "INT" | TypeText => tok TOKEN_TEXT "TEXT" | TypeBool => tok TOKEN_BOOL "BOOL" end.

Definition print_column (c : ColumnDef) : list shape :=
  tok TOKEN_IDENT (cdName c) :: print_type (cdType c) ::
  (if cdPrimaryKey c then [tok TOKEN_PRIMARY "PRIMARY"; tok TOKEN_KEY "KEY"] else []) ++
  (if cdNotNull c then [tok TOKEN_NOT "NOT"; tok TOKEN_NULL "NULL"] else []).

Definition print_assignment (a : Assignment) : list shape :=
  tok TOKEN_IDENT (asColumn a) :: tok TOKEN_EQ "=" :: print_expr (asValue a).

Definition print_where (w : option Expr) : list shape :=
  match w with Some e => tok TOKEN_WHERE "WHERE" :: print_expr e | None => [] end.

Definition print_stmt (st : Statement) : list shape :=
  match st with
  | CreateTableStmt name cols =>
      [tok TOKEN_CREATE "CREATE"; tok TOKEN_TABLE "TABLE"; tok TOKEN_IDENT name; lparen] ++
      print_list print_column cols ++ [rparen; semicolon]
  | InsertStmt name cols values =>
      [tok TOKEN_INSERT "INSERT"; tok TOKEN_INTO "INTO"; tok TOKEN_IDENT name] ++
      (if decide (cols = []) then [] else lparen :: print_list (fun c => [tok TOKEN_IDENT c]) cols ++ [rparen]) ++
      [tok TOKEN_VALUES "VALUES"; lparen] ++ print_list print_expr values ++ [rparen; semicolon]
  | SelectStmt cols name w =>
      tok TOKEN_SELECT "SELECT" :: print_list print_operand cols ++
      [tok TOKEN_FROM "FROM"; tok TOKEN_IDENT name] ++ print_where w ++ [semicolon]
  | UpdateStmt name assignments w =>
      [tok TOKEN_UPDATE "UPDATE"; tok TOKEN_IDENT name; tok TOKEN_SET "SET"] ++
      print_list print_assignment assignments ++ print_where w ++ [semicolon]
  | DeleteStmt name w =>
      [tok TOKEN_DELETE "DELETE"; tok TOKEN_FROM "FROM"; tok TOKEN_IDENT name] ++ print_where w ++ [semicolon]
  end.

(** ** The statements the grammar can express *)

(** A name that is not a keyword. *)
Definition name_ok (name : string) : Prop := word (of_str name) /\ word_type (of_str name) = TOKEN_IDENT.

Definition literal_ok (v : LitValue) : Prop := match v with LInt n => 0 <= n <= max_int64 | _ => True end.

Fixpoint expr_ok (e : Expr) : Prop :=
  match e with
  | BinaryExpr l op r => expr_ok l /\ op_type op <> None /\ expr_ok r
  | ColumnRef name => name_ok name
  | Literal v => literal_ok v
  | StarExpr => False
  end.

Definition stmt_ok (st : Statement) : Prop :=
  match st with
  | CreateTableStmt name cols => name_ok name /\ cols <> [] /\ Forall (fun c => name_ok (cdName c)) cols
  | InsertStmt name cols values => name_ok name /\ Forall name_ok cols /\ values <> [] /\ Forall expr_ok values
  | SelectStmt cols name w =>
      (cols = [StarExpr] \/ cols <> [] /\ Forall expr_ok cols) /\ name_ok name /\
      match w with Some e => expr_ok e | None => True end
  | UpdateStmt name assignments w =>
      name_ok name /\ assignments <> [] /\ Forall (fun a => name_ok (asColumn a) /\ expr_ok (asValue a)) assignments /\
      match w with Some e => expr_ok e | None => False end
  | DeleteStmt name w => name_ok name /\ match w with Some e => expr_ok e | None => False end
  end.

(** ** Reading back *)

(** On tokens of the shapes [shs], followed by a token whose type is in [ok], the
    parser [c] reads exactly these tokens and returns [a]; [n] bounds their
    number. *)
Definition follow (ok : TokenType -> Prop) (rest : list Token) : Prop :=
  match rest with t :: _ => ok (tType t) | [] => False end.

Definition reads_as {A} (n : nat) (c : parser A) (shs : list shape) (ok : TokenType -> Prop) (a : A) : Prop :=
  forall ts rest, shape_of <$> ts = shs -> (length shs < n)%nat -> follow ok rest -> c (ts ++ rest) = Ok (a, rest).

Definition starts (ok : TokenType -> Prop) (shs : list shape) (ok' : TokenType -> Prop) : Prop :=
  match shs with sh :: _ => ok sh.1 | [] => forall ty, ok' ty -> ok ty end.

Lemma reads_bind {A B} n (c : parser A) (k : A -> parser B) shs1 shs2 ok1 ok2 a b :
  reads_as n c shs1 ok1 a -> reads_as n (k a) shs2 ok2 b -> starts ok1 shs2 ok2 ->
  reads_as n (p_bind c k) (shs1 ++ shs2) ok2 b.
Proof.
  intros Hc Hk Hst ts rest Hts Hlen Hrest. apply fmap_app_inv in Hts as (ts1 & ts2 & Hts1 & Hts2 & ->).
  rewrite length_app in Hlen. unfold p_bind. rewrite <- (assoc_L (++)), (Hc ts1 (ts2 ++ rest)); [|done|lia|].
  - apply Hk; [done|lia|done].
  - destruct ts2 as [|t ts2]; simpl in Hts2; subst shs2; simpl in *; [|done].
    destruct rest as [|t rest]; simpl in *; auto.
Qed.

Lemma reads_ret {A} n (a : A) ok : reads_as n (p_ret a) [] ok a.
Proof. intros ts rest Hts _ _. by apply fmap_nil_inv in Hts as ->. Qed.

Lemma reads_expect {A} n ty lit (k : Token -> parser A) shs ok a :
  (forall t, shape_of t = (ty, lit) -> reads_as n (k t) shs ok a) ->
  reads_as n (p_bind (expect ty) k) ((ty, lit) :: shs) ok a.
Proof.
  intros Hk ts rest Hts Hlen Hrest. apply fmap_cons_inv in Hts as (t & ts' & Ht & Hts' & ->). symmetry in Ht.
  unfold p_bind, expect. cbn [app]. unfold p_bind at 1. cbn [advance].
  rewrite decide_False by (injection Ht as <- <-; by intros []). cbn [p_ret].
  apply Hk; [done|done|simpl in Hlen; lia|done].
Qed.

Lemma reads_ident {A} n name (k : string -> parser A) shs ok a :
  reads_as n (k name) shs ok a -> reads_as n (p_bind ident k) (tok TOKEN_IDENT name :: shs) ok a.
Proof.
  intros Hk ts rest Hts Hlen Hrest.
  enough (He : reads_as n (p_bind (expect TOKEN_IDENT) (fun t => k (to_str (tLiteral t)))) (tok TOKEN_IDENT name :: shs) ok a).
  { specialize (He ts rest Hts Hlen Hrest). rewrite <- He. unfold ident, p_bind.
    destruct (expect TOKEN_IDENT (ts ++ rest)) as [[t ts']|]; done. }
  apply reads_expect. intros t [= _ Hl]. rewrite Hl, to_of_str. done.
Qed.

(** The first token decides a [check] and a [match]. *)
Lemma reads_check {A} n ty (k : bool -> parser A) sh shs ok a :
  reads_as n (k (bool_decide (sh.1 = ty))) (sh :: shs) ok a -> reads_as n (p_bind (check ty) k) (sh :: shs) ok a.
Proof.
  intros Hk ts rest Hts Hlen Hrest. specialize (Hk ts rest Hts Hlen Hrest).
  apply fmap_cons_inv in Hts as (t & ts' & -> & _ & ->). exact Hk.
Qed.

Lemma reads_advance {A} n (k : Token -> parser A) ty lit shs ok a :
  (forall t, shape_of t = (ty, lit) -> reads_as n (k t) shs ok a) ->
  reads_as n (p_bind advance k) ((ty, lit) :: shs) ok a.
Proof.
  intros Hk ts rest Hts Hlen Hrest. apply fmap_cons_inv in Hts as (t & ts' & Ht & Hts' & ->).
  apply (Hk t); [done|done|simpl in Hlen; lia|done].
Qed.

Lemma reads_peek {A} n (k : Token -> parser A) ty lit shs ok a :
  (forall t, shape_of t = (ty, lit) -> reads_as n (k t) ((ty, lit) :: shs) ok a) ->
  reads_as n (p_bind peek k) ((ty, lit) :: shs) ok a.
Proof.
  intros Hk ts rest Hts Hlen Hrest. pose proof Hts as Hts0. apply fmap_cons_inv in Hts as (t & ts' & Ht & Hts' & ->).
  exact (Hk t (eq_sym Ht) (t :: ts') rest Hts0 Hlen Hrest).
Qed.

Lemma reads_peek_end {A} n (k : Token -> parser A) ok a :
  (forall t, ok (tType t) -> reads_as n (k t) [] ok a) -> reads_as n (p_bind peek k) [] ok a.
Proof.
  intros Hk ts rest Hts Hlen Hrest. apply fmap_nil_inv in Hts as ->. destruct rest as [|t rest]; [done|].
  exact (Hk t Hrest [] (t :: rest) eq_refl Hlen Hrest).
Qed.

Lemma reads_check_end {A} n ty (k : bool -> parser A) (ok : TokenType -> Prop) a :
  ~ ok ty -> reads_as n (k false) [] ok a -> reads_as n (p_bind (check ty) k) [] ok a.
Proof.
  intros Hty Hk ts rest Hts Hlen Hrest. specialize (Hk ts rest Hts Hlen Hrest).
  apply fmap_nil_inv in Hts as ->. destruct rest as [|t rest]; [done|]. unfold p_bind, check. unfold p_bind at 1.
  cbn [app peek]. rewrite bool_decide_false; [exact Hk|]. intros <-. done.
Qed.

Lemma reads_any {A} n n' (c : parser A) shs ok a : reads_as n' c shs ok a -> (length shs < n')%nat -> reads_as n c shs ok a.
Proof. intros Hc Hlen ts rest Hts _. by apply Hc. Qed.

Lemma reads_follow {A} n (c : parser A) shs (ok ok' : TokenType -> Prop) a :
  reads_as n c shs ok a -> (forall ty, ok' ty -> ok ty) -> reads_as n c shs ok' a.
Proof. intros Hc Hok ts rest Hts Hlen Hrest. apply Hc; [done|done|]. destruct rest; [done|]. by apply Hok. Qed.

(** [match] on the first token. *)
Lemma reads_match_yes {A} n ty lit (k : bool -> parser A) shs ok a :
  reads_as n (k true) shs ok a -> reads_as n (p_bind (p_match ty) k) ((ty, lit) :: shs) ok a.
Proof.
  intros Hk ts rest Hts Hlen Hrest. apply fmap_cons_inv in Hts as (t & ts' & Ht & Hts' & ->).
  injection Ht as Hty _. unfold p_bind at 1, p_match, check. unfold p_bind. cbn [app peek p_ret advance].
  rewrite bool_decide_true by done. apply Hk; [done|simpl in Hlen; lia|done].
Qed.

Lemma reads_match_no {A} n ty sh (k : bool -> parser A) shs ok a :
  sh.1 <> ty -> reads_as n (k false) (sh :: shs) ok a -> reads_as n (p_bind (p_match ty) k) (sh :: shs) ok a.
Proof.
  intros Hne Hk ts rest Hts Hlen Hrest. specialize (Hk ts rest Hts Hlen Hrest).
  apply fmap_cons_inv in Hts as (t & ts' & -> & Hts' & ->).
  unfold p_bind at 1, p_match, check. unfold p_bind. cbn [app peek p_ret]. rewrite bool_decide_false by done. exact Hk.
Qed.

(** ** Expressions *)

Definition any (ty : TokenType) : Prop := True.
Definition not_compare (ty : TokenType) : Prop := is_compare ty = false.
Definition not_op (ty : TokenType) : Prop := is_compare ty = false /\ ty <> TOKEN_AND /\ ty <> TOKEN_OR.

Section operators.
Context (n : nat) (primary : parser Expr).

Lemma reads_no_compare shs e :
  reads_as n primary shs any e -> reads_as n (compare_with primary) shs not_compare e.
Proof.
  intros Hp. rewrite <- (app_nil_r shs). eapply reads_bind; [exact Hp| |done].
  apply reads_peek_end. intros t Ht. rewrite Ht. apply reads_ret.
Qed.

Lemma reads_loop_end fuel e : reads_as n (expr_loop primary (S fuel) e) [] not_op e.
Proof.
  cbn [expr_loop]. apply reads_check_end; [unfold not_op; naive_solver|].
  apply reads_check_end; [unfold not_op; naive_solver|]. apply reads_ret.
Qed.

Lemma reads_single fuel shs e : reads_as n primary shs any e -> reads_as n (expr_with primary (S fuel)) shs not_op e.
Proof.
  intros Hp. rewrite <- (app_nil_r shs). eapply reads_bind; [by apply reads_no_compare|apply reads_loop_end|].
  intros ty Hty. apply Hty.
Qed.

Lemma op_type_cases op : op_type op <> None ->
  (exists ty, op_tok op = tok ty op /\ is_compare ty = true) \/
  op_tok op = tok TOKEN_AND "AND" /\ op = "AND" \/ op_tok op = tok TOKEN_OR "OR" /\ op = "OR".
Proof.
  unfold op_tok, op_type. repeat (case_match; try done); intros _; simpl; eauto; left; eexists; split; try reflexivity; done.
Qed.

Lemma reads_binary fuel l op r :
  reads_as n primary (print_operand l) any l -> reads_as n primary (print_operand r) any r -> op_type op <> None ->
  reads_as n (expr_with primary (S (S fuel))) (print_expr (BinaryExpr l op r)) not_op (BinaryExpr l op r).
Proof.
  intros Hl Hr Hop. change (print_expr (BinaryExpr l op r)) with (print_operand l ++ op_tok op :: print_operand r).
  destruct (op_type_cases op Hop) as [(ty & Htok & Hcmp)|Hlogic].
  - rewrite <- (app_nil_r (_ ++ _)). eapply (reads_bind n _ _ _ _ any); [|apply reads_loop_end|done].
    eapply reads_bind; [exact Hl| |done]. rewrite Htok. apply reads_peek. intros t [= Hty Hlit].
    rewrite Hty, Hcmp. apply reads_advance. intros _ _. rewrite <- (app_nil_r (print_operand r)).
    eapply reads_bind; [exact Hr| |done]. rewrite Hlit, to_of_str. apply reads_ret.
  - assert (Htok : exists ty, op_tok op = tok ty op /\ (ty = TOKEN_AND \/ ty = TOKEN_OR) /\ to_str (ToUpper (of_str op)) = op).
    { destruct Hlogic as [[-> ->]|[-> ->]]; eexists; split_and!; try reflexivity; auto. }
    destruct Htok as (ty & -> & Hty & Hup).
    eapply reads_bind; [by apply reads_no_compare| |]; [|by destruct Hty as [->| ->]].
    cbn [expr_loop]. apply reads_check, reads_check.
    assert (Hb : bool_decide ((tok ty op).1 = TOKEN_AND) || bool_decide ((tok ty op).1 = TOKEN_OR) = true)
      by (destruct Hty as [->| ->]; done).
    rewrite Hb. apply reads_advance. intros t [= _ Hlit]. rewrite <- (app_nil_r (print_operand r)).
    eapply reads_bind; [by apply reads_no_compare| |intros ? Hno; apply Hno].
    rewrite Hlit, Hup. apply reads_loop_end.
Qed.
End operators.

Lemma reads_atom n fuel e : expr_ok e -> is_binary e = false -> reads_as n (parsePrimary (S fuel)) (print_expr e) any e.
Proof.
  intros Hok Hb. destruct e as [| name|v|]; [done| | |done]; cbn [parsePrimary print_expr].
  - apply reads_peek. intros t [= Hty Hlit]. rewrite Hty. apply reads_advance. intros _ _.
    rewrite Hlit, to_of_str. apply reads_ret.
  - destruct v as [i|s|[]|]; cbn [print_literal]; apply reads_peek; intros t [= Hty Hlit]; rewrite Hty;
      apply reads_advance; intros _ _; rewrite ?Hlit, ?to_of_str; try apply reads_ret.
    rewrite ParseInt_FormatInt by (simpl in Hok; unfold int64, max_int64, min_int64 in *; lia). apply reads_ret.
Qed.

Lemma print_operand_pos e : (1 <= length (print_operand e))%nat.
Proof. unfold print_operand. destruct e; simpl; lia. Qed.

Lemma reads_operand e fuel n : expr_ok e -> (length (print_operand e) < fuel)%nat ->
  reads_as n (parsePrimary fuel) (print_operand e) any e.
Proof.
  revert fuel n. induction e as [l IHl op r IHr|name|v|]; intros [|fuel] n Hok Hlen; try lia; try by apply reads_atom.
  destruct Hok as (Hl & Hop & Hr).
  change (print_operand (BinaryExpr l op r)) with (lparen :: (print_operand l ++ op_tok op :: print_operand r) ++ [rparen]) in *.
  rewrite length_cons, !length_app, !length_cons in Hlen. cbn [length] in Hlen.
  pose proof (print_operand_pos l). pose proof (print_operand_pos r).
  cbn [parsePrimary]. apply reads_peek. intros t [= Hty _]. rewrite Hty. apply reads_advance. intros _ _.
  destruct fuel as [|[|fuel]]; [lia|lia|].
  eapply (reads_bind n _ _ _ _ not_op).
  - change (print_operand l ++ op_tok op :: print_operand r) with (print_expr (BinaryExpr l op r)).
    apply reads_binary; [apply IHl; [done|lia]|apply IHr; [done|lia]|done].
  - apply reads_expect. intros _ _. apply reads_ret.
  - done.
Qed.

Lemma reads_expr e fuel n : expr_ok e -> (S (length (print_expr e)) < fuel)%nat ->
  reads_as n (parseExpr fuel) (print_expr e) not_op e.
Proof.
  intros Hok Hlen. destruct fuel as [|[|fuel]]; [lia|lia|]. unfold parseExpr.
  destruct (is_binary e) eqn:Hb.
  - destruct e as [l op r| | |]; try done. destruct Hok as (Hl & Hop & Hr).
    change (print_expr (BinaryExpr l op r)) with (print_operand l ++ op_tok op :: print_operand r) in Hlen.
    rewrite !length_app, length_cons in Hlen.
    apply reads_binary; [apply reads_operand; [done|lia]|apply reads_operand; [done|lia]|done].
  - apply reads_single. by apply reads_atom.
Qed.

(** ** Lists *)

Lemma reads_comma_list {A} n fuel (item : parser A) (print : A -> list shape) (ok : TokenType -> Prop) xs :
  xs <> [] -> (length xs <= fuel)%nat -> ok TOKEN_COMMA -> Forall (fun x => reads_as n item (print x) ok x) xs ->
  reads_as n (comma_list fuel item) (print_list print xs) (fun ty => ok ty /\ ty <> TOKEN_COMMA) xs.
Proof.
  intros Hne Hlen Hcomma Hall. revert fuel Hlen. induction Hall as [|x xs Hx Hall IH]; [done|]. clear Hne.
  intros [|fuel] Hlen; simpl in Hlen; [lia|]. cbn [comma_list print_list]. destruct xs as [|y xs].
  - rewrite <- (app_nil_r (print x)). eapply reads_bind; [exact Hx| |by intros ty [? _]].

    assert (Hm : reads_as n (p_match TOKEN_COMMA) [] (fun ty => ok ty /\ ty <> TOKEN_COMMA) false).
    { apply reads_check_end; [naive_solver|]. apply reads_ret. }
    eapply (reads_bind n _ _ [] []); [exact Hm|apply reads_ret|by intros ?].
  - eapply reads_bind; [exact Hx| |done].
    assert (Hm : reads_as n (p_match TOKEN_COMMA) [comma] any true).
    { apply reads_check. apply reads_advance. intros _ _. apply reads_ret. }
    change (comma :: ?l) with ([comma] ++ l). eapply (reads_bind n _ _ [comma]); [exact Hm| |by destruct (print_list _ _)].
    rewrite <- (app_nil_r (print_list print (y :: xs))).
    eapply reads_bind; [apply IH; [done|simpl in *; lia]|apply reads_ret|by intros ?].
Qed.

Lemma print_list_item {A} (print : A -> list shape) xs x : x ∈ xs -> (length (print x) <= length (print_list print xs))%nat.
Proof.
  induction xs as [|y xs IH]; [set_solver|]. intros [->|Hx]%elem_of_cons; cbn [print_list].
  - destruct xs; rewrite ?length_app; lia.
  - destruct xs; [set_solver|]. rewrite length_app, length_cons. specialize (IH Hx). lia.
Qed.

Lemma print_list_length {A} (print : A -> list shape) xs :
  (forall x, (1 <= length (print x))%nat) -> (length xs <= length (print_list print xs))%nat.
Proof.
  intros Hp. induction xs as [|y xs IH]; [done|]. cbn [print_list]. specialize (Hp y).
  destruct xs; [simpl; lia|]. rewrite length_app, !length_cons in *. lia.
Qed.

Lemma print_expr_pos e : (1 <= length (print_expr e))%nat.
Proof. destruct e; simpl; rewrite ?length_app; simpl; lia. Qed.

(** A comma-separated list of items that are read one by one. *)
Lemma reads_items {A} n fuel (item : parser A) print (ok : TokenType -> Prop) xs :
  xs <> [] -> (forall x, (1 <= length (print x))%nat) -> ok TOKEN_COMMA -> (S (length (print_list print xs)) < fuel)%nat ->
  (forall x, x ∈ xs -> (S (length (print x)) < fuel)%nat -> reads_as n item (print x) ok x) ->
  reads_as n (comma_list fuel item) (print_list print xs) (fun ty => ok ty /\ ty <> TOKEN_COMMA) xs.
Proof.
  intros Hne Hpos Hcomma Hlen Hitem. apply reads_comma_list; [done| |done|].
  - pose proof (print_list_length print xs Hpos). lia.
  - apply Forall_forall. intros x Hx. apply Hitem; [done|]. pose proof (print_list_item print xs x Hx). lia.
Qed.

Lemma reads_constraints n fuel c :
  reads_as n (constraints (S (S (S fuel))) false false)
    ((if cdPrimaryKey c then [tok TOKEN_PRIMARY "PRIMARY"; tok TOKEN_KEY "KEY"] else []) ++
     (if cdNotNull c then [tok TOKEN_NOT "NOT"; tok TOKEN_NULL "NULL"] else []))
    (fun ty => ty <> TOKEN_PRIMARY /\ ty <> TOKEN_NOT) (cdPrimaryKey c, cdNotNull c).
Proof.
  assert (Hend : forall f pk nn, reads_as n (constraints (S f) pk nn) [] (fun ty => ty <> TOKEN_PRIMARY /\ ty <> TOKEN_NOT) (pk, nn)).
  { intros f pk nn. cbn [constraints]. do 2 (apply reads_check_end; [naive_solver|]). apply reads_ret. }
  assert (Hnot : forall f pk, reads_as n (constraints (S (S f)) pk false)
    (if cdNotNull c then [tok TOKEN_NOT "NOT"; tok TOKEN_NULL "NULL"] else [])
    (fun ty => ty <> TOKEN_PRIMARY /\ ty <> TOKEN_NOT) (pk, cdNotNull c)).
  { intros f pk. destruct (cdNotNull c); [|apply Hend]. change (constraints (S (S f)) pk false) with
      (parse is_primary <- check TOKEN_PRIMARY;
       if is_primary then parse_ advance; parse_ expect TOKEN_KEY; constraints (S f) true false
       else parse is_not <- check TOKEN_NOT;
            if is_not then parse_ advance; parse_ expect TOKEN_NULL; constraints (S f) pk true else p_ret (pk, false)).
    apply reads_check. rewrite bool_decide_false by done. apply reads_check. rewrite bool_decide_true by done.
    apply reads_advance. intros _ _. apply reads_expect. intros _ _. apply Hend. }
  destruct (cdPrimaryKey c); [|apply Hnot]. cbn [app]. cbn [constraints]. apply reads_check. rewrite bool_decide_true by done.
  apply reads_advance. intros _ _. apply reads_expect. intros _ _. apply (Hnot fuel true).
Qed.

Definition column_end (ty : TokenType) : Prop := ty <> TOKEN_PRIMARY /\ ty <> TOKEN_NOT.

Lemma reads_column n fuel c : name_ok (cdName c) -> (3 <= fuel)%nat ->
  reads_as n (parseColumnDef fuel) (print_column c) column_end c.
Proof.
  intros Hname Hf. destruct fuel as [|[|[|fuel]]]; [lia..|]. unfold parseColumnDef, print_column. apply reads_ident.
  change (print_type (cdType c) :: ?l) with ([print_type (cdType c)] ++ l).
  eapply (reads_bind n _ _ _ _ any _ (cdType c)).
  - unfold parseColumnType. destruct (cdType c) eqn:Hty; (apply reads_advance; intros t [= Ht _]; rewrite Ht; apply reads_ret).
  - rewrite <- (app_nil_r (_ ++ _)). eapply reads_bind; [apply reads_constraints|by destruct c; apply reads_ret|by intros ?].
  - by destruct (cdPrimaryKey c), (cdNotNull c).
Qed.

(** ** Statements *)

Lemma reads_assignment n fuel a :
  expr_ok (asValue a) -> (length (print_assignment a) < fuel)%nat ->
  reads_as n (parseAssignment fuel) (print_assignment a) not_op a.
Proof.
  intros Hok Hlen. unfold parseAssignment, print_assignment in *. simpl in Hlen. apply reads_ident, reads_expect. intros _ _.
  rewrite <- (app_nil_r (print_expr _)). eapply reads_bind; [apply reads_expr; [done|lia]|by destruct a; apply reads_ret|by intros ?].
Qed.

Lemma reads_end {A} n (a : A) : reads_as n (parse_ p_match TOKEN_SEMICOLON; p_ret a) [semicolon] any a.
Proof. apply reads_match_yes, reads_ret. Qed.

Lemma reads_where {A} n fuel e (k : Expr -> parser A) shs a :
  expr_ok e -> (S (length (print_expr e)) < fuel)%nat -> starts not_op shs any -> shs <> [] ->
  reads_as n (k e) shs any a -> reads_as n (parse w <- parseExpr fuel; k w) (print_expr e ++ shs) any a.
Proof. intros Hok Hlen Hst Hne Hk. eapply reads_bind; [by apply reads_expr|done|done]. Qed.

Lemma reads_create n fuel name cols :
  stmt_ok (CreateTableStmt name cols) -> (S (length (print_stmt (CreateTableStmt name cols))) < fuel)%nat ->
  reads_as n (parseCreateTable fuel) (print_stmt (CreateTableStmt name cols)) any (CreateTableStmt name cols).
Proof.
  intros (_ & Hne & Hcols) Hlen. unfold print_stmt in *. cbn [app] in *. unfold parseCreateTable.
  do 2 (apply reads_expect; intros _ _). apply reads_ident, reads_expect. intros _ _.
  simpl in Hlen. rewrite length_app in Hlen. simpl in Hlen.
  eapply reads_bind.
  - apply (reads_items n fuel _ _ column_end); [done|intros x; simpl; lia|done|lia|].
    intros c Hc _. apply reads_column; [by eapply Forall_forall in Hcols|lia].
  - apply reads_expect. intros _ _. apply reads_end.
  - done.
Qed.

Lemma reads_name n name : reads_as n ident [tok TOKEN_IDENT name] any name.
Proof. apply reads_expect. intros t [= _ Hl]. rewrite Hl, to_of_str. apply reads_ret. Qed.

(** The optional column list of an insert. *)
Lemma reads_columns {A} n fuel cols (k : list string -> parser A) lit shs a :
  let printed := if decide (cols = []) then [] else lparen :: print_list (fun c => [tok TOKEN_IDENT c]) cols ++ [rparen] in
  (length printed < fuel)%nat -> reads_as n (k cols) ((TOKEN_VALUES, lit) :: shs) any a ->
  reads_as n
    (parse has_cols <- check TOKEN_LPAREN;
     parse cols <- (if has_cols then
                      parse_ advance; parse cols <- comma_list fuel ident; parse_ expect TOKEN_RPAREN; p_ret cols
                    else p_ret []);
     k cols) (printed ++ (TOKEN_VALUES, lit) :: shs) any a.
Proof.
  cbn zeta. case_decide as Hc; intros Hlen Hk.
  - subst cols. apply reads_check. rewrite bool_decide_false by done. exact Hk.
  - cbn [app]. apply reads_check. rewrite bool_decide_true by done. rewrite length_cons, length_app in Hlen. cbn [length] in Hlen.
    change (lparen :: ?l ++ ?r) with ((lparen :: l) ++ r). eapply (reads_bind n _ _ _ _ any); [|exact Hk|done].
    apply reads_advance. intros _ _. eapply reads_bind.
    + apply (reads_items n fuel _ _ any); [done|simpl; lia|done|lia|]. intros c _ _. apply reads_name.
    + apply reads_expect. intros _ _. apply reads_ret.
    + done.
Qed.

Lemma reads_insert n fuel name cols values :
  stmt_ok (InsertStmt name cols values) -> (S (length (print_stmt (InsertStmt name cols values))) < fuel)%nat ->
  reads_as n (parseInsert fuel) (print_stmt (InsertStmt name cols values)) any (InsertStmt name cols values).
Proof.
  intros (_ & _ & Hne & Hvals) Hlen. unfold print_stmt in *. unfold parseInsert.
  rewrite !length_app in Hlen. cbn [length] in Hlen. cbn [app].
  do 2 (apply reads_expect; intros _ _). apply reads_ident. apply reads_columns; [lia|].
  do 2 (apply reads_expect; intros _ _). eapply reads_bind.
  - apply (reads_items n fuel _ _ not_op); [done|apply print_expr_pos|done|lia|].
    intros e He Hl. apply reads_expr; [by eapply Forall_forall in Hvals|done].
  - apply reads_expect. intros _ _. apply reads_end.
  - done.
Qed.

Lemma reads_select n fuel cols name w :
  stmt_ok (SelectStmt cols name w) -> (S (length (print_stmt (SelectStmt cols name w))) < fuel)%nat ->
  reads_as n (parseSelect fuel) (print_stmt (SelectStmt cols name w)) any (SelectStmt cols name w).
Proof.
  intros (Hcols & _ & Hw) Hlen. unfold print_stmt in *. unfold parseSelect. rewrite length_cons, !length_app in Hlen.
  cbn [length] in Hlen. apply reads_expect. intros _ _.
  assert (Htail : reads_as n
    (parse_ expect TOKEN_FROM; parse name <- ident; parse has_where <- p_match TOKEN_WHERE;
     parse where_ <- (if has_where then parse e <- parseExpr fuel; p_ret (Some e) else p_ret None);
     parse_ p_match TOKEN_SEMICOLON; p_ret (SelectStmt cols name where_))
    ([tok TOKEN_FROM "FROM"; tok TOKEN_IDENT name] ++ print_where w ++ [semicolon]) any (SelectStmt cols name w)).
  { cbn [app]. apply reads_expect. intros _ _. apply reads_ident. destruct w as [e|]; cbn [print_where app] in *.
    - apply reads_match_yes. eapply (reads_bind n _ _ _ _ not_op _ (Some e)); [|apply reads_end|done].
      rewrite <- (app_nil_r (print_expr e)). eapply reads_bind; [apply reads_expr; [done|simpl in Hlen; lia]|apply reads_ret|by intros ?].
    - apply reads_match_no; [done|]. apply reads_end. }
  destruct Hcols as [->|[Hne Hcols]].
  - apply reads_check. rewrite bool_decide_true by done.
    change (print_list print_operand [StarExpr]) with [tok TOKEN_STAR "*"].
    eapply (reads_bind n _ _ [_] _ any _ [StarExpr]); [|exact Htail|done]. apply reads_advance. intros _ _. apply reads_ret.
  - assert (Hstar : exists sh shs, print_list print_operand cols = sh :: shs /\ sh.1 <> TOKEN_STAR).
    { destruct cols as [|e cols]; [done|]. apply Forall_cons in Hcols as [He _].
      assert (Hfirst : exists sh shs, print_operand e = sh :: shs /\ sh.1 <> TOKEN_STAR).
      { destruct e as [| |[| |[]|]|]; [by eexists _, _..|done]. }
      destruct Hfirst as (sh & shs & Hsh & Hne'). exists sh. cbn [print_list]. rewrite Hsh. destruct cols; eauto. }
    destruct Hstar as (sh & shs & Hsh & Hns).
    assert (Hlist : reads_as n (comma_list fuel (parsePrimary fuel)) (print_list print_operand cols) (fun ty => any ty /\ ty <> TOKEN_COMMA) cols).
    { apply reads_items; [done|apply print_operand_pos|done|lia|]. intros e He Hl. apply reads_operand; [by eapply Forall_forall in Hcols|lia]. }
    rewrite Hsh in *. cbn [app]. apply reads_check. rewrite bool_decide_false by done.
    change (sh :: shs ++ ?r) with ((sh :: shs) ++ r). eapply reads_bind; [exact Hlist|exact Htail|done].
Qed.

Lemma reads_update n fuel name assignments w :
  stmt_ok (UpdateStmt name assignments w) -> (S (length (print_stmt (UpdateStmt name assignments w))) < fuel)%nat ->
  reads_as n (parseUpdate fuel) (print_stmt (UpdateStmt name assignments w)) any (UpdateStmt name assignments w).
Proof.
  intros (_ & Hne & Has & Hw) Hlen. unfold print_stmt in *. unfold parseUpdate. rewrite !length_app in Hlen.
  cbn [length] in Hlen. cbn [app]. apply reads_expect. intros _ _. apply reads_ident, reads_expect. intros _ _.
  destruct w as [e|]; [|done]. cbn [print_where] in *. eapply reads_bind.
  - apply (reads_items n fuel _ _ not_op); [done|simpl; lia|done|lia|].
    intros a Ha Hl. apply reads_assignment; [|lia]. eapply Forall_forall in Has; [|done]. apply Has.
  - cbn [app]. apply reads_expect. intros _ _. apply reads_where; [done|simpl in Hlen; lia|done|done|apply reads_end].
  - done.
Qed.

Lemma reads_delete n fuel name w :
  stmt_ok (DeleteStmt name w) -> (S (length (print_stmt (DeleteStmt name w))) < fuel)%nat ->
  reads_as n (parseDelete fuel) (print_stmt (DeleteStmt name w)) any (DeleteStmt name w).
Proof.
  intros (_ & Hw) Hlen. unfold print_stmt in *. unfold parseDelete. rewrite !length_app in Hlen. cbn [app].
  do 2 (apply reads_expect; intros _ _). apply reads_ident. destruct w as [e|]; [|done]. cbn [print_where app] in *.
  apply reads_expect. intros _ _. apply reads_where; [done|simpl in Hlen; lia|done|done|apply reads_end].
Qed.

Lemma reads_statement n fuel st :
  stmt_ok st -> (S (length (print_stmt st)) < fuel)%nat -> reads_as n (parseStatement fuel) (print_stmt st) any st.
Proof.
  intros Hok Hlen. unfold parseStatement.
  destruct st as [name cols|name cols values|cols name w|name assignments w|name w].
  - pose proof (reads_create n fuel name cols Hok Hlen) as Hr. unfold print_stmt in *. cbn [app] in *.
    apply reads_peek. intros t [= Ht _]. by rewrite Ht.
  - pose proof (reads_insert n fuel name cols values Hok Hlen) as Hr. unfold print_stmt in *. cbn [app] in *.
    apply reads_peek. intros t [= Ht _]. by rewrite Ht.
  - pose proof (reads_select n fuel cols name w Hok Hlen) as Hr. unfold print_stmt in *. cbn [app] in *.
    apply reads_peek. intros t [= Ht _]. by rewrite Ht.
  - pose proof (reads_update n fuel name assignments w Hok Hlen) as Hr. unfold print_stmt in *. cbn [app] in *.
    apply reads_peek. intros t [= Ht _]. by rewrite Ht.
  - pose proof (reads_delete n fuel name w Hok Hlen) as Hr. unfold print_stmt in *. cbn [app] in *.
    apply reads_peek. intros t [= Ht _]. by rewrite Ht.
Qed.

(** ** The text is made of tokens *)

Ltac keyword :=
  split; [split; [apply (bool_decide_eq_true_1 _); by vm_compute|eexists _, _; split; [reflexivity|by vm_compute]]|by vm_compute].

Lemma lexeme_op op : op_type op <> None -> lexeme (op_tok op).
Proof. unfold op_tok, op_type. repeat (case_match; try done); intros _; try reflexivity; keyword. Qed.

Lemma lexeme_name name : name_ok name -> lexeme (tok TOKEN_IDENT name).
Proof. done. Qed.

Lemma lexeme_literal v : literal_ok v -> lexeme (print_literal v).
Proof.
  destruct v as [i|s|[]|]; intros Hok; [|done|keyword..].
  simpl in Hok. unfold print_literal, FormatInt. destruct (Z.ltb_spec i 0); [lia|]. split.
  - apply FormatUint_nonempty.
  - apply Forall_forall. intros c Hc. eapply (proj1 (forallb_forall _ _)); [apply (FormatUint_digits i)|by apply list_elem_of_In].
    unfold u64, two64, max_int64 in *. lia.
Qed.

Lemma lexeme_expr e : expr_ok e -> Forall lexeme (print_expr e) /\ Forall lexeme (print_operand e).
Proof.
  assert (Hwrap : forall e, Forall lexeme (print_expr e) -> Forall lexeme (print_expr e) /\ Forall lexeme (print_operand e)).
  { intros x Hx. split; [done|]. unfold print_operand. destruct (is_binary x); [|done].
    constructor; [done|]. apply Forall_app. split; [done|]. by repeat constructor. }
  induction e as [l IHl op r IHr|name|v|]; intros Hok; apply Hwrap; try done.
  - destruct Hok as (Hl & Hop & Hr).
    change (print_expr (BinaryExpr l op r)) with (print_operand l ++ op_tok op :: print_operand r).
    apply Forall_app. split; [by apply IHl|]. constructor; [by apply lexeme_op|by apply IHr].
  - by constructor.
  - constructor; [by apply lexeme_literal|done].
Qed.

Lemma lexeme_list {A} (print : A -> list shape) xs : Forall (fun x => Forall lexeme (print x)) xs -> Forall lexeme (print_list print xs).
Proof.
  induction 1 as [|x xs Hx Hxs IH]; [done|]. cbn [print_list]. destruct xs; [done|]. apply Forall_app. split; [done|].
  by constructor.
Qed.

Lemma lexeme_where w : match w with Some e => expr_ok e | None => True end -> Forall lexeme (print_where w).
Proof. destruct w as [e|]; [|done]. intros He. constructor; [keyword|by apply lexeme_expr]. Qed.

Lemma lexeme_column c : name_ok (cdName c) -> Forall lexeme (print_column c).
Proof.
  intros Hc. unfold print_column. constructor; [done|]. constructor; [destruct (cdType c); keyword|].
  destruct (cdPrimaryKey c), (cdNotNull c); cbn [app]; repeat (apply Forall_cons_2; [keyword|]); apply Forall_nil_2.
Qed.

(** A list of tokens whose lexemes are known: keywords and punctuation are
    evaluated. *)
Ltac lexemes :=
  repeat first
    [ apply Forall_nil_2 | apply Forall_app; split | apply Forall_cons_2; [first [done|keyword]|] ].

Lemma lexeme_stmt st : stmt_ok st -> Forall lexeme (print_stmt st).
Proof.
  destruct st as [name cols|name cols values|cols name w|name assignments w|name w]; unfold print_stmt.
  - intros (Hn & _ & Hcols). lexemes. apply lexeme_list. eapply Forall_impl; [done|]. apply lexeme_column.
  - intros (Hn & Hcols & _ & Hvals). lexemes.
    + case_decide; lexemes. apply lexeme_list. eapply Forall_impl; [done|]. intros c Hc. by apply Forall_singleton.
    + apply lexeme_list. eapply Forall_impl; [done|]. intros e He. by apply lexeme_expr.
  - intros (Hcols & Hn & Hw). lexemes; [|by apply lexeme_where].
    destruct Hcols as [->|[_ Hcols]]; [by apply Forall_singleton|]. apply lexeme_list.
    eapply Forall_impl; [done|]. intros e He. by apply lexeme_expr.
  - intros (Hn & _ & Has & Hw). lexemes; [|apply lexeme_where; by destruct w].
    apply lexeme_list. eapply Forall_impl; [done|]. intros a [Ha He]. unfold print_assignment. lexemes. by apply lexeme_expr.
  - intros (Hn & Hw). lexemes. apply lexeme_where. by destruct w.
Qed.

(** C18: Every statement the grammar can express is read back from its text:
    lexing and parsing are together a left inverse of printing, for every table,
    column and string (quotes included), every non-negative 64-bit number, and
    every nesting of expressions. *)
Theorem Parse_print st : stmt_ok st -> Parse (print_tokens (print_stmt st)) = Ok st.
Proof.
  intros Hok. destruct (Lex_print (print_stmt st) (lexeme_stmt st Hok)) as (ts & Hts & Hsh). unfold Parse. rewrite Hts.
  apply fmap_app_inv in Hsh as (ts1 & ts2 & Hs1 & Hs2 & ->).
  apply (f_equal length) in Hs1 as Hl1. apply (f_equal length) in Hs2 as Hl2. rewrite length_fmap in Hl1, Hl2. simpl in Hl2.
  rewrite (reads_statement (S (length (print_stmt st))) (S (length (ts1 ++ ts2))) st Hok); [done| |done|lia|].
  - rewrite length_app. lia.
  - destruct ts2 as [|t ts2]; [done|]. exact I.
Qed.

(** ** Examples *)

Definition update1 : Statement :=
  UpdateStmt "users" [mkAssignment "name" (Literal (LString "it's"))]
    (Some (BinaryExpr (BinaryExpr (ColumnRef "id") "=" (Literal (LInt 42))) "AND" (ColumnRef "active"))).

Lemma update1_ok : stmt_ok update1.
Proof.
  assert (Hname : forall s, bool_decide (Forall (fun c => isLetterOrDigit c = true) (of_str s)) &&
      match of_str s with c :: _ => isLetter c | [] => false end && bool_decide (word_type (of_str s) = TOKEN_IDENT) = true ->
    name_ok s).
  { intros s [[H1%bool_decide_eq_true_1 H2]%andb_true_iff H3%bool_decide_eq_true_1]%andb_true_iff.
    split; [|done]. split; [done|]. destruct (of_str s) as [|c s']; [done|]. eauto. }
  split; [by apply Hname; vm_compute|]. split; [done|]. split.
  - apply Forall_singleton. split; [by apply Hname; vm_compute|done].
  - split; [|split; [done|by apply Hname; vm_compute]]. split; [by apply Hname; vm_compute|]. split; [done|].
    split; [done|by vm_compute].
Qed.

Lemma Parse_print_witness : Parse (print_tokens (print_stmt update1)) = Ok update1.
Proof. exact (Parse_print update1 update1_ok). Defined.

Lemma update1_text :
  to_str (print_tokens (print_stmt update1)) = "UPDATE users SET name = 'it''s' WHERE ( id = 42 ) AND active ; ".
Proof. by vm_compute. Qed.

(** What follows a complete statement is not looked at. *)
Theorem Parse_ignores_trailing_tokens :
  Parse (of_str "DELETE FROM t WHERE id = 1 VALUES ) (") = Parse (of_str "DELETE FROM t WHERE id = 1") /\
  is_ok (Parse (of_str "DELETE FROM t WHERE id = 1")) = true.
Proof. by vm_compute. Qed.

(** AND binds no tighter than OR: both associate to the left. *)
Theorem Parse_and_or_same_level :
  Parse (of_str "DELETE FROM t WHERE a OR b AND c") =
    Ok (DeleteStmt "t" (Some (BinaryExpr (BinaryExpr (ColumnRef "a") "OR" (ColumnRef "b")) "AND" (ColumnRef "c")))).
Proof. by vm_compute. Qed.

(** There are no negative numbers and no fractions. *)
Theorem Parse_no_negative_numbers :
  Parse (of_str "DELETE FROM t WHERE id = -1") = Fail (PLex (UnexpectedCharacter "-"%char 25)) /\
  Parse (of_str "DELETE FROM t WHERE id = 1.5") = Fail (PLex (UnexpectedCharacter "."%char 26)).
Proof. by vm_compute. Qed.
