(* ===== verification/SqlAnalyzer.v ===== *)
(** The schema catalog and the semantic analysis of SQL statements
    (src/internal/sql/catalog.go and analyzer.go).

    The analyzer is written against the catalog interface ([Catalog], with its
    laws); the in-memory catalog is an instance. *)

From S2P Require Import Prelude SqlParser.

(** ** The catalog *)

Record TableDef := mkTableDef {
  tdName : string;
  tdColumns : list ColumnDef;
  tdPrimaryKey : string;
  tdShardID : string;
}.

Inductive caterr := TableExists (name : string) | TableNotFound (name : string).

Class Catalog (C : Type) := {
  cat_CreateTable : TableDef -> C -> result caterr C;
  cat_GetTable : string -> C -> result caterr TableDef;
  cat_ListTables : C -> list TableDef;
}.

(** A catalog is a set of tables under distinct names. *)
Class CatalogLaws (C : Type) `{Catalog C} : Prop := {
  cat_create_fresh : forall c def e, cat_GetTable (tdName def) c = Fail e -> exists c', cat_CreateTable def c = Ok c';
  cat_create_exists : forall c def def', cat_GetTable (tdName def) c = Ok def' -> exists e, cat_CreateTable def c = Fail e;
  cat_create_get : forall c def c', cat_CreateTable def c = Ok c' ->
    cat_GetTable (tdName def) c' = Ok def /\
    forall name, name <> tdName def -> cat_GetTable name c' = cat_GetTable name c;
  cat_list : forall c def, def ∈ cat_ListTables c <-> exists name, cat_GetTable name c = Ok def;
}.

(** [inMemoryCatalog]: the tables by name. *)
Definition inMemoryCatalog : Type := gmap string TableDef.

Definition NewInMemoryCatalog : inMemoryCatalog := ∅.

Definition CreateTable (def : TableDef) (c : inMemoryCatalog) : result caterr inMemoryCatalog :=
  match c !! tdName def with
  | Some _ => Fail (TableExists (tdName def))
  | None => Ok (<[tdName def := def]> c)
  end.

Definition GetTable (name : string) (c : inMemoryCatalog) : result caterr TableDef :=
  match c !! name with Some def => Ok def | None => Fail (TableNotFound name) end.

(** In some order: Go does not fix one. *)
Definition ListTables (c : inMemoryCatalog) : list TableDef := (map_to_list c).*2.

#[global] Instance inMemoryCatalog_Catalog : Catalog inMemoryCatalog := {|
  cat_CreateTable := CreateTable; cat_GetTable := GetTable; cat_ListTables := ListTables |}.

#[global] Instance inMemoryCatalog_laws : CatalogLaws inMemoryCatalog.
Proof.
  unfold inMemoryCatalog. split; simpl; unfold CreateTable, GetTable, inMemoryCatalog.
  - intros c def e. destruct (c !! tdName def); [done|eauto].
  - intros c def def'. destruct (c !! tdName def); [eauto|done].
  - intros c def c'. destruct (c !! tdName def) eqn:Hd; [done|]. intros [= <-]. rewrite lookup_insert_eq. split; [done|].
    intros name Hne. by rewrite lookup_insert_ne.
  - intros c def. unfold ListTables. rewrite list_elem_of_fmap. split.
    + intros ([name def'] & -> & Hin). apply elem_of_map_to_list in Hin. exists name. simpl. by rewrite Hin.
    + intros [name Hn]. destruct (c !! name) as [def'|] eqn:Hd; [|done]. injection Hn as ->.
      exists (name, def). split; [done|]. by apply elem_of_map_to_list.
Qed.

(** ** Resolved statements *)

Record TypedExpr := mkTypedExpr { teExpr : Expr; teCType : ColumnType }.

Record ResolvedWhere := mkResolvedWhere { rwPKColumn : ColumnDef; rwOp : string; rwValue : TypedExpr }.

Record ResolvedAssignment := mkResolvedAssignment { raColumn : ColumnDef; raValue : TypedExpr }.

(** [ResolvedSelect]: no columns ([nil]) stands for all of them. *)
Inductive ResolvedStatement :=
| ResolvedCreateTable (Def : TableDef)
| ResolvedInsert (Table : TableDef) (Cols : list ColumnDef) (Values : list TypedExpr)
| ResolvedSelect (Table : TableDef) (Columns : list ColumnDef) (Where : option ResolvedWhere)
| ResolvedUpdate (Table : TableDef) (Assignments : list ResolvedAssignment) (Where : option ResolvedWhere)
| ResolvedDelete (Table : TableDef) (Where : option ResolvedWhere).

(** ** The analyzer *)

Inductive anerr :=
| ADuplicateColumn (name : string)
| ANoPrimaryKey
| AManyPrimaryKeys
| ATable (e : caterr)
| AColumn (name : string)
| AValueCount (values columns : nat)
| ATypeMismatch (column : string) (expected actual : ColumnType)
| AUnsupportedExpr
| AColumnExpected
| AStarMixed
| AWhereRequired
| AWhereForm
| APrimaryKeyMissing (name : string).

Definition findColumn (table : TableDef) (name : string) : option ColumnDef :=
  snd <$> list_find (fun col => cdName col = name) (tdColumns table).

(** The default branch, a Go value of another type, cannot occur. *)
Definition resolveLiteral (v : LitValue) : TypedExpr :=
  mkTypedExpr (Literal v)
    match v with
    | LInt _ => TypeInt
    | LString _ => TypeText
    | LBool _ => TypeBool
    | LNull => TypeInt
    end.

Definition resolveExpr (expr : Expr) (table : TableDef) : result anerr TypedExpr :=
  match expr with
  | Literal v => Ok (resolveLiteral v)
  | ColumnRef name =>
      match findColumn table name with
      | Some col => Ok (mkTypedExpr expr (cdType col))
      | None => Fail (AColumn name)
      end
  | _ => Fail AUnsupportedExpr
  end.

Definition checkTypeCompat (actual expected : ColumnType) (colName : string) : result anerr unit :=
  if decide (actual = expected) then Ok tt else Fail (ATypeMismatch colName expected actual).

Definition resolveColumnExpr (expr : Expr) (table : TableDef) : result anerr ColumnDef :=
  match expr with
  | ColumnRef name => match findColumn table name with Some col => Ok col | None => Fail (AColumn name) end
  | _ => Fail AColumnExpected
  end.

Definition resolveWhere (expr : Expr) (table : TableDef) : result anerr ResolvedWhere :=
  match expr with
  | BinaryExpr (ColumnRef name) op rhs =>
      if decide (name <> tdPrimaryKey table) then Fail AWhereForm
      else if decide (op <> "=") then Fail AWhereForm
      else match findColumn table (tdPrimaryKey table) with
           | None => Fail (APrimaryKeyMissing (tdPrimaryKey table))
           | Some pkCol =>
               try tv <- resolveExpr rhs table;
               try _ <- checkTypeCompat (teCType tv) (cdType pkCol) (cdName pkCol);
               Ok (mkResolvedWhere pkCol op tv)
           end
  | _ => Fail AWhereForm
  end.

(** The duplicate check, with the names seen so far. *)
Fixpoint check_duplicates (seen : gset string) (cols : list ColumnDef) : result anerr unit :=
  match cols with
  | [] => Ok tt
  | col :: rest =>
      if decide (cdName col ∈ seen) then Fail (ADuplicateColumn (cdName col))
      else check_duplicates ({[cdName col]} ∪ seen) rest
  end.

Definition analyzeCreateTable (name : string) (cols : list ColumnDef) : result anerr ResolvedStatement :=
  try _ <- check_duplicates ∅ cols;
  match filter (fun col => cdPrimaryKey col = true) cols with
  | [] => Fail ANoPrimaryKey
  | [pk] => Ok (ResolvedCreateTable (mkTableDef name cols (cdName pk) ""))
  | _ => Fail AManyPrimaryKeys
  end.

Fixpoint find_columns (table : TableDef) (names : list string) : result anerr (list ColumnDef) :=
  match names with
  | [] => Ok []
  | name :: rest =>
      match findColumn table name with
      | None => Fail (AColumn name)
      | Some col => try cols <- find_columns table rest; Ok (col :: cols)
      end
  end.

(** The type check of the values; there are as many as columns. *)
Fixpoint check_values (table : TableDef) (cols : list ColumnDef) (values : list Expr) : result anerr (list TypedExpr) :=
  match cols, values with
  | col :: cols', val :: values' =>
      try tv <- resolveExpr val table;
      try _ <- checkTypeCompat (teCType tv) (cdType col) (cdName col);
      try tvs <- check_values table cols' values';
      Ok (tv :: tvs)
  | _, _ => Ok []
  end.

Fixpoint check_assignments (table : TableDef) (assignments : list Assignment) : result anerr (list ResolvedAssignment) :=
  match assignments with
  | [] => Ok []
  | a :: rest =>
      match findColumn table (asColumn a) with
      | None => Fail (AColumn (asColumn a))
      | Some col =>
          try tv <- resolveExpr (asValue a) table;
          try _ <- checkTypeCompat (teCType tv) (cdType col) (cdName col);
          try ras <- check_assignments table rest;
          Ok (mkResolvedAssignment col tv :: ras)
      end
  end.

(** The columns of a select that names more than one. *)
Fixpoint select_columns (table : TableDef) (exprs : list Expr) : result anerr (list ColumnDef) :=
  match exprs with
  | [] => Ok []
  | StarExpr :: _ => Fail AStarMixed
  | e :: rest =>
      try col <- resolveColumnExpr e table;
      try cols <- select_columns table rest;
      Ok (col :: cols)
  end.

Section analyzer.
Context {C : Type} `{Catalog C}.

Definition get_table (name : string) (cat : C) : result anerr TableDef := result_map_err ATable (cat_GetTable name cat).

Definition analyzeInsert (name : string) (columns : list string) (values : list Expr) (cat : C) : result anerr ResolvedStatement :=
  try table <- get_table name cat;
  try cols <- (if decide (columns = []) then Ok (tdColumns table) else find_columns table columns);
  if decide (length values <> length cols) then Fail (AValueCount (length values) (length cols))
  else
    try tvs <- check_values table cols values;
    Ok (ResolvedInsert table cols tvs).

Definition analyzeSelect (columns : list Expr) (name : string) (where_ : option Expr) (cat : C) : result anerr ResolvedStatement :=
  try table <- get_table name cat;
  try cols <- match columns with
              | [] => Ok []
              | [StarExpr] => Ok []
              | [e] => try col <- resolveColumnExpr e table; Ok [col]
              | _ => select_columns table columns
              end;
  try w <- match where_ with
           | None => Ok None
           | Some e => try w <- resolveWhere e table; Ok (Some w)
           end;
  Ok (ResolvedSelect table cols w).

Definition analyzeUpdate (name : string) (assignments : list Assignment) (where_ : option Expr) (cat : C)
    : result anerr ResolvedStatement :=
  try table <- get_table name cat;
  try ras <- check_assignments table assignments;
  match where_ with
  | None => Fail AWhereRequired
  | Some e => try w <- resolveWhere e table; Ok (ResolvedUpdate table ras (Some w))
  end.

Definition analyzeDelete (name : string) (where_ : option Expr) (cat : C) : result anerr ResolvedStatement :=
  try table <- get_table name cat;
  match where_ with
  | None => Fail AWhereRequired
  | Some e => try w <- resolveWhere e table; Ok (ResolvedDelete table (Some w))
  end.

Definition Analyze (stmt : Statement) (cat : C) : result anerr ResolvedStatement :=
  match stmt with
  | CreateTableStmt name cols => analyzeCreateTable name cols
  | InsertStmt name cols values => analyzeInsert name cols values cat
  | SelectStmt cols name w => analyzeSelect cols name w cat
  | UpdateStmt name assignments w => analyzeUpdate name assignments w cat
  | DeleteStmt name w => analyzeDelete name w cat
  end.
End analyzer.

(** ** What analysis means *)

(** The first column of that name. *)
Definition column (table : TableDef) (name : string) (col : ColumnDef) : Prop :=
  exists before after, tdColumns table = before ++ col :: after /\ cdName col = name /\
    Forall (fun c => cdName c <> name) before.

(** Expressions that can be stored, and their types.  NULL counts as an [INT]. *)
Inductive has_type (table : TableDef) : Expr -> ColumnType -> Prop :=
| ht_int n : has_type table (Literal (LInt n)) TypeInt
| ht_string s : has_type table (Literal (LString s)) TypeText
| ht_bool b : has_type table (Literal (LBool b)) TypeBool
| ht_null : has_type table (Literal LNull) TypeInt
| ht_column name col : column table name col -> has_type table (ColumnRef name) (cdType col).

(** The expression as a value of the column's type. *)
Definition value_for (col : ColumnDef) (e : Expr) : TypedExpr := mkTypedExpr e (cdType col).

(** An equality on the primary key with a value of its type. *)
Inductive where_resolves (t : TableDef) : Expr -> ResolvedWhere -> Prop :=
| wr_key rhs pk : column t (tdPrimaryKey t) pk -> has_type t rhs (cdType pk) ->
    where_resolves t (BinaryExpr (ColumnRef (tdPrimaryKey t)) "=" rhs) (mkResolvedWhere pk "=" (value_for pk rhs)).

(** The columns of a select; none stands for all. *)
Definition selection (t : TableDef) (exprs : list Expr) (cols : list ColumnDef) : Prop :=
  (exprs = [] \/ exprs = [StarExpr]) /\ cols = [] \/
  exprs <> [] /\ Forall2 (fun e col => exists name, e = ColumnRef name /\ column t name col) exprs cols.

Definition assigns (t : TableDef) (a : Assignment) (ra : ResolvedAssignment) : Prop :=
  column t (asColumn a) (raColumn ra) /\ has_type t (asValue a) (cdType (raColumn ra)) /\
  raValue ra = value_for (raColumn ra) (asValue a).

Definition primary_key (cols : list ColumnDef) (pk : ColumnDef) : Prop :=
  filter (fun col => cdPrimaryKey col = true) cols = [pk].

Inductive resolves {C : Type} `{Catalog C} (cat : C) : Statement -> ResolvedStatement -> Prop :=
| res_create name cols pk :
    NoDup (cdName <$> cols) -> primary_key cols pk ->
    resolves cat (CreateTableStmt name cols) (ResolvedCreateTable (mkTableDef name cols (cdName pk) ""))
| res_insert name names values t cols :
    cat_GetTable name cat = Ok t -> (if decide (names = []) then cols = tdColumns t else Forall2 (column t) names cols) ->
    Forall2 (fun col e => has_type t e (cdType col)) cols values ->
    resolves cat (InsertStmt name names values) (ResolvedInsert t cols (zip_with value_for cols values))
| res_select name exprs w t cols rw :
    cat_GetTable name cat = Ok t -> selection t exprs cols -> option_Forall2 (where_resolves t) w rw ->
    resolves cat (SelectStmt exprs name w) (ResolvedSelect t cols rw)
| res_update name assignments e t ras rw :
    cat_GetTable name cat = Ok t -> Forall2 (assigns t) assignments ras -> where_resolves t e rw ->
    resolves cat (UpdateStmt name assignments (Some e)) (ResolvedUpdate t ras (Some rw))
| res_delete name e t rw :
    cat_GetTable name cat = Ok t -> where_resolves t e rw ->
    resolves cat (DeleteStmt name (Some e)) (ResolvedDelete t (Some rw)).

(** *** The parts *)

Lemma findColumn_iff t name col : findColumn t name = Some col <-> column t name col.
Proof.
  unfold findColumn, column. generalize (tdColumns t) as l. intros l. rewrite fmap_Some. split.
  - intros ([i c] & Hf & ->). apply list_find_Some in Hf as (Hi & Hn & Hb). exists (take i l), (drop (S i) l). simpl.
    split_and!; [by rewrite take_drop_middle|done|]. apply Forall_forall. intros x (j & Hj)%list_elem_of_lookup_1.
    apply lookup_take_Some in Hj as [Hj Hlt]. by eapply Hb.
  - intros (before & after & -> & Hn & Hb). exists (length before, col). split; [|done]. apply list_find_Some. split_and!.
    + by apply list_lookup_middle.
    + done.
    + intros j y Hj Hlt. rewrite lookup_app_l in Hj by done. apply list_elem_of_lookup_2 in Hj. rewrite Forall_forall in Hb. auto.
Qed.

Lemma findColumn_some t name col : findColumn t name = Some col -> col ∈ tdColumns t /\ cdName col = name.
Proof. intros (before & after & -> & Hn & _)%findColumn_iff. split; [set_solver|done]. Qed.

Lemma resolveExpr_iff e t tv : resolveExpr e t = Ok tv <-> teExpr tv = e /\ has_type t e (teCType tv).
Proof.
  destruct tv as [e' ty]. simpl. split.
  - destruct e as [l op r|name|v|]; simpl; try done.
    + destruct (findColumn t name) as [col|] eqn:Hf; [|done]. intros [= <- <-]. split; [done|]. by constructor; apply findColumn_iff.
    + intros [= <- <-]. destruct v; split; try done; constructor.
  - intros [-> Ht]. inversion Ht as [n Hn|s Hs|b Hb|Hn|name col Hc]; subst; try done.
    simpl. apply findColumn_iff in Hc. by rewrite Hc.
Qed.

(** A value is resolved and of the column's type. *)
Lemma resolve_store e t col tv :
  (resolveExpr e t = Ok tv /\ checkTypeCompat (teCType tv) (cdType col) (cdName col) = Ok tt) <->
  has_type t e (cdType col) /\ tv = value_for col e.
Proof.
  rewrite resolveExpr_iff. unfold checkTypeCompat, value_for. split.
  - intros [[He Ht] Hc]. case_decide as Hd; [|done]. destruct tv. simpl in *. by subst.
  - intros [Ht ->]. simpl. by rewrite decide_True.
Qed.

Lemma resolve_store_bind {B} e t col (k : TypedExpr -> result anerr B) b :
  (try tv <- resolveExpr e t; try _ <- checkTypeCompat (teCType tv) (cdType col) (cdName col); k tv) = Ok b <->
  has_type t e (cdType col) /\ k (value_for col e) = Ok b.
Proof.
  split.
  - intros (tv & Htv & ([] & Hc & Hk)%result_bind_ok)%result_bind_ok.
    by destruct (proj1 (resolve_store e t col tv) (conj Htv Hc)) as [? ->].
  - intros [Ht Hk]. destruct (proj2 (resolve_store e t col (value_for col e)) (conj Ht eq_refl)) as [-> Hc].
    simpl. simpl in Hc. by rewrite Hc.
Qed.

Lemma resolveWhere_iff e t w : resolveWhere e t = Ok w <-> where_resolves t e w.
Proof.
  split.
  - destruct e as [[|name| |] op r| | |]; try done. simpl. destruct (decide (name <> tdPrimaryKey t)) as [|Hn]; [done|].
    destruct (decide (op <> "=")) as [|Ho]; [done|]. apply dec_stable in Hn, Ho. subst name op.
    destruct (findColumn t (tdPrimaryKey t)) as [pk|] eqn:Hpk; [|done]. rewrite resolve_store_bind. intros [Ht [= <-]].
    constructor; [by apply findColumn_iff|done].
  - intros [rhs pk Hpk%findColumn_iff Ht]. simpl. rewrite !decide_False by (intros Hne; by apply Hne). rewrite Hpk.
    by apply resolve_store_bind.
Qed.

Lemma check_duplicates_iff seen cols : check_duplicates seen cols = Ok tt <->
  NoDup (cdName <$> cols) /\ Forall (fun c => cdName c ∉ seen) cols.
Proof.
  revert seen. induction cols as [|c cols IH]; intros seen; cbn [check_duplicates].
  { split; [intros _; by split; constructor|done]. }
  rewrite fmap_cons, NoDup_cons, Forall_cons. case_decide as Hc; [split; [done|]; by intros (_ & ? & _)|].
  rewrite IH, list_elem_of_fmap, !Forall_forall. split.
  - intros [Hnd Hall]. split_and!; [|done|done|intros x Hx; specialize (Hall x Hx); set_solver].
    intros (c' & Heq & Hc'). specialize (Hall c' Hc'). set_solver.
  - intros ([Hn Hnd] & _ & Hall). split; [done|]. intros x Hx [Heq%elem_of_singleton|?]%elem_of_union; [|by eapply Hall].
    apply Hn. by exists x.
Qed.

Lemma find_columns_iff t names cols : find_columns t names = Ok cols <-> Forall2 (column t) names cols.
Proof.
  revert cols. induction names as [|n names IH]; cbn [find_columns]; intros cols.
  { split; [by intros [= <-]|by intros ->%Forall2_nil_inv_l]. }
  split.
  - destruct (findColumn t n) as [c|] eqn:Hc; [|done]. intros (cs & Hcs & [= <-])%result_bind_ok.
    constructor; [by apply findColumn_iff|by apply IH].
  - intros (c & cs & Hc%findColumn_iff & Hcs%IH & ->)%Forall2_cons_inv_l. by rewrite Hc, Hcs.
Qed.

Lemma check_values_iff t cols values tvs : length values = length cols ->
  check_values t cols values = Ok tvs <->
  Forall2 (fun col e => has_type t e (cdType col)) cols values /\ tvs = zip_with value_for cols values.
Proof.
  revert values tvs. induction cols as [|c cols IH]; intros [|v values] tvs; try done; intros Hlen; cbn [check_values zip_with].
  { split; [by intros [= <-]|by intros [_ ->]]. }
  injection Hlen as Hlen. rewrite resolve_store_bind, result_bind_ok, Forall2_cons. split.
  - intros (Ht & tvs' & [Hf ->]%IH & [= <-]); done.
  - intros [[Ht Hf] ->]. split; [done|]. exists (zip_with value_for cols values). split; [by apply IH|done].
Qed.

Lemma check_assignments_iff t assignments ras : check_assignments t assignments = Ok ras <-> Forall2 (assigns t) assignments ras.
Proof.
  revert ras. induction assignments as [|a rest IH]; intros ras; cbn [check_assignments].
  { split; [by intros [= <-]|by intros ->%Forall2_nil_inv_l]. }
  split.
  - destruct (findColumn t (asColumn a)) as [c|] eqn:Hc; [|done]. rewrite resolve_store_bind.
    intros [Ht (ras' & Hr & [= <-])%result_bind_ok]. apply findColumn_iff in Hc. constructor; [done|by apply IH].
  - intros ([c tv] & ras' & (Hc%findColumn_iff & Ht & Hv) & Hr%IH & ->)%Forall2_cons_inv_l. simpl in *. subst tv.
    rewrite Hc. apply resolve_store_bind. by rewrite Hr.
Qed.

Lemma resolveColumnExpr_iff e t col : resolveColumnExpr e t = Ok col <-> exists name, e = ColumnRef name /\ column t name col.
Proof.
  destruct e as [l op r|name|v|]; simpl; try (split; [done|by intros (? & ? & _)]). split.
  - destruct (findColumn t name) eqn:Hc; [|done]. intros [= <-]. exists name. by rewrite <- findColumn_iff.
  - intros (? & [= <-] & Hc%findColumn_iff). by rewrite Hc.
Qed.

Lemma select_columns_iff t exprs cols : select_columns t exprs = Ok cols <->
  Forall2 (fun e col => exists name, e = ColumnRef name /\ column t name col) exprs cols.
Proof.
  revert cols. induction exprs as [|e rest IH]; intros cols; cbn [select_columns].
  { split; [by intros [= <-]|by intros ->%Forall2_nil_inv_l]. }
  assert (Hstep : (try col <- resolveColumnExpr e t; try cols <- select_columns t rest; Ok (col :: cols)) = Ok cols <->
    Forall2 (fun e col => exists name, e = ColumnRef name /\ column t name col) (e :: rest) cols).
  { split.
    - intros (col & Hc & (cs & Hcs & [= <-])%result_bind_ok)%result_bind_ok.
      constructor; [by apply resolveColumnExpr_iff|by apply IH].
    - intros (col & cs & Hc%resolveColumnExpr_iff & Hcs%IH & ->)%Forall2_cons_inv_l. by rewrite Hc, Hcs. }
  destruct e; try exact Hstep. split; [done|]. by intros (? & ? & (? & ? & _) & _)%Forall2_cons_inv_l.
Qed.

Lemma select_one_iff t e cols : (try col <- resolveColumnExpr e t; Ok [col]) = Ok cols <-> select_columns t [e] = Ok cols.
Proof. by destruct e. Qed.

Lemma selection_iff t exprs cols :
  match exprs with
  | [] => Ok []
  | [StarExpr] => Ok []
  | [e] => try col <- resolveColumnExpr e t; Ok [col]
  | _ => select_columns t exprs
  end = Ok cols <-> selection t exprs cols.
Proof.
  unfold selection. assert (Hstar : ~ exists name col, StarExpr = ColumnRef name /\ column t name col) by (by intros (? & ? & ? & _)).
  destruct exprs as [|e [|e' rest]].
  - split; [intros [= <-]; auto|]. by intros [[_ ->]|[? _]].
  - destruct e; rewrite ?select_one_iff, ?select_columns_iff; try (split; [by right|by intros [[[?|?] _]|[_ ?]]]).
    split; [intros [= <-]; auto|]. intros [[_ ->]|[_ Hf]]; [done|].
    apply Forall2_cons_inv_l in Hf as (col & ? & (name & ? & ?) & _). destruct Hstar. eauto.
  - assert (Hmany : select_columns t (e :: e' :: rest) = Ok cols <-> selection t (e :: e' :: rest) cols)
      by (unfold selection; rewrite select_columns_iff; split; [by right|by intros [[[?|?] _]|[_ ?]]]).
    by destruct e.
Qed.

Lemma analyzeCreateTable_iff name cols rs : analyzeCreateTable name cols = Ok rs <->
  exists pk, NoDup (cdName <$> cols) /\ primary_key cols pk /\ rs = ResolvedCreateTable (mkTableDef name cols (cdName pk) "").
Proof.
  unfold analyzeCreateTable, primary_key. rewrite result_bind_ok. split.
  - intros ([] & [Hnd _]%check_duplicates_iff & Hpk). destruct (filter _ cols) as [|pk [|]]; try done.
    injection Hpk as <-. by exists pk.
  - intros (pk & Hnd & -> & ->). exists tt. split; [|done]. apply check_duplicates_iff. split; [done|].
    apply Forall_forall. set_solver.
Qed.

Section specification.
Context {C : Type} `{Catalog C}.
Implicit Types (cat : C).

Lemma get_table_ok name cat t : get_table name cat = Ok t <-> cat_GetTable name cat = Ok t.
Proof. unfold get_table. by destruct (cat_GetTable name cat); split; intros; simplify_eq/=. Qed.

Lemma analyzeInsert_iff name names values cat rs : analyzeInsert name names values cat = Ok rs <->
  resolves cat (InsertStmt name names values) rs.
Proof.
  split.
  - intros (t & Ht%get_table_ok & (cols & Hcols & Hv)%result_bind_ok)%result_bind_ok. case_decide as Hlen; [done|].
    apply result_bind_ok in Hv as (tvs & [Hf ->]%check_values_iff & [= <-]); [|lia]. constructor; [done| |done].
    case_decide; [by injection Hcols|by apply find_columns_iff].
  - inversion 1 as [|name' names' values' t cols Ht Hcols Hf| | |]; subst. unfold analyzeInsert. apply get_table_ok in Ht. rewrite Ht. simpl.
    apply result_bind_ok. exists cols. split; [case_decide; [by subst|by apply find_columns_iff]|].
    pose proof (Forall2_length _ _ _ Hf) as Hlen. rewrite decide_False by lia.
    apply result_bind_ok. exists (zip_with value_for cols values). split; [by apply check_values_iff|done].
Qed.

Lemma analyzeSelect_iff exprs name w cat rs : analyzeSelect exprs name w cat = Ok rs <-> resolves cat (SelectStmt exprs name w) rs.
Proof.
  split.
  - intros (t & Ht%get_table_ok & (cols & Hcols%selection_iff & (rw & Hw & [= <-])%result_bind_ok)%result_bind_ok)%result_bind_ok.
    constructor; [done|done|]. destruct w as [e|]; [|injection Hw as <-; constructor].
    apply result_bind_ok in Hw as (w' & Hw'%resolveWhere_iff & [= <-]). by constructor.
  - inversion 1 as [| |name' exprs' w' t cols rw Ht Hcols Hw| |]; subst. unfold analyzeSelect. apply get_table_ok in Ht. rewrite Ht.
    apply result_bind_ok. exists t. split; [done|]. apply result_bind_ok. exists cols. split; [by apply selection_iff|].
    destruct Hw as [e w' Hw%resolveWhere_iff|]; [|done]. by rewrite Hw.
Qed.

Lemma analyzeUpdate_iff name assignments w cat rs :
  analyzeUpdate name assignments w cat = Ok rs <-> resolves cat (UpdateStmt name assignments w) rs.
Proof.
  split.
  - intros (t & Ht%get_table_ok & (ras & Hras%check_assignments_iff & Hw)%result_bind_ok)%result_bind_ok.
    destruct w as [e|]; [|done]. apply result_bind_ok in Hw as (w' & Hw'%resolveWhere_iff & [= <-]). by constructor.
  - inversion 1 as [| | |name' as' e t ras rw Ht%get_table_ok Hras%check_assignments_iff Hw%resolveWhere_iff|]; subst.
    unfold analyzeUpdate. rewrite Ht. simpl. rewrite Hras. simpl. by rewrite Hw.
Qed.

Lemma analyzeDelete_iff name w cat rs : analyzeDelete name w cat = Ok rs <-> resolves cat (DeleteStmt name w) rs.
Proof.
  split.
  - intros (t & Ht%get_table_ok & Hw)%result_bind_ok. destruct w as [e|]; [|done].
    apply result_bind_ok in Hw as (w' & Hw'%resolveWhere_iff & [= <-]). by constructor.
  - inversion 1 as [| | | |name' e t rw Ht%get_table_ok Hw%resolveWhere_iff]; subst.
    unfold analyzeDelete. rewrite Ht. simpl. by rewrite Hw.
Qed.

(** C27: The analyzer lets a statement through exactly when it makes sense against
    the schema, and resolves it to what it says.  A new table has distinct column
    names and exactly one primary key.  Any other statement is about a table of
    the catalog: an insert has one value for each column it names, or for all of
    them in their order; a select names columns of the table, or a star alone; an
    update assigns to columns of the table; every value is a literal or a column
    of the type of the column it goes to; and a WHERE clause, which updates and
    deletes must have, equates the primary key with a value of its type.  A name
    stands for the first column that has it. *)
Theorem Analyze_spec stmt cat rs : Analyze stmt cat = Ok rs <-> resolves cat stmt rs.
Proof.
  destruct stmt as [name cols|name cols values|cols name w|name assignments w|name w]; cbn [Analyze].
  - rewrite analyzeCreateTable_iff. split; [intros (pk & ? & ? & ->); by constructor|].
    inversion 1 as [name' cols' pk| | | |]; subst. by exists pk.
  - apply analyzeInsert_iff.
  - apply analyzeSelect_iff.
  - apply analyzeUpdate_iff.
  - apply analyzeDelete_iff.
Qed.
End specification.

(** ** What a resolved statement satisfies *)

Definition fits (table : TableDef) (col : ColumnDef) (tv : TypedExpr) : Prop := has_type table (teExpr tv) (cdType col).

(** Distinct column names, exactly one of which is marked as the primary key. *)
Definition table_wf (t : TableDef) : Prop :=
  NoDup (cdName <$> tdColumns t) /\
  exists pk, filter (fun col => cdPrimaryKey col = true) (tdColumns t) = [pk] /\ cdName pk = tdPrimaryKey t.

Definition where_ok (t : TableDef) (w : ResolvedWhere) : Prop :=
  rwOp w = "=" /\ findColumn t (tdPrimaryKey t) = Some (rwPKColumn w) /\ fits t (rwPKColumn w) (rwValue w).

Definition resolved_ok (rs : ResolvedStatement) : Prop :=
  match rs with
  | ResolvedCreateTable def => table_wf def
  | ResolvedInsert t cols values => Forall (fun col => col ∈ tdColumns t) cols /\ Forall2 (fits t) cols values
  | ResolvedSelect t cols w => Forall (fun col => col ∈ tdColumns t) cols /\ from_option (where_ok t) True w
  | ResolvedUpdate t ras w =>
      Forall (fun a => raColumn a ∈ tdColumns t /\ fits t (raColumn a) (raValue a)) ras /\ from_option (where_ok t) False w
  | ResolvedDelete t w => from_option (where_ok t) False w
  end.

(** The value of a resolved WHERE clause is the right operand of the source's. *)
Definition where_from (rw : ResolvedWhere) (e : Expr) : Prop :=
  match e with BinaryExpr _ _ r => teExpr (rwValue rw) = r | _ => False end.

Lemma column_elem t name col : column t name col -> col ∈ tdColumns t.
Proof. intros (before & after & -> & _). set_solver. Qed.

Lemma where_resolves_ok t e w : where_resolves t e w -> where_ok t w /\ where_from w e.
Proof. intros [rhs pk Hpk%findColumn_iff Ht]. done. Qed.

Lemma create_wf name cols rs : analyzeCreateTable name cols = Ok rs ->
  exists pk, rs = ResolvedCreateTable (mkTableDef name cols (cdName pk) "") /\ resolved_ok rs.
Proof. intros (pk & Hnd & Hpk & ->)%analyzeCreateTable_iff. exists pk. split; [done|]. split; [done|]. by exists pk. Qed.

Section resolved.
Context {C : Type} `{Catalog C}.
Implicit Types (cat : C).

Lemma analyzeInsert_ok name columns values cat rs : analyzeInsert name columns values cat = Ok rs ->
  exists t cols tvs, rs = ResolvedInsert t cols tvs /\ cat_GetTable name cat = Ok t /\
    teExpr <$> tvs = values /\ Forall (fun col => col ∈ tdColumns t) cols /\ Forall2 (fits t) cols tvs.
Proof.
  rewrite analyzeInsert_iff. inversion 1 as [|name' names' values' t cols Ht Hcols Hf| | |]; subst.
  eexists t, cols, _. split_and!; [done|done| | |].
  - clear -Hf. induction Hf as [|c e cols values _ _ IH]; [done|]. cbn [zip_with]. by rewrite fmap_cons, IH.
  - case_decide; [subst; by apply Forall_forall|]. clear -Hcols. induction Hcols; constructor; [by eapply column_elem|done].
  - clear -Hf. induction Hf; by constructor.
Qed.

Lemma analyzeSelect_ok columns name w cat rs : analyzeSelect columns name w cat = Ok rs ->
  exists t cols rw, rs = ResolvedSelect t cols rw /\ cat_GetTable name cat = Ok t /\
    Forall (fun col => col ∈ tdColumns t) cols /\
    match rw, w with Some rw, Some e => where_ok t rw /\ where_from rw e | None, None => True | _, _ => False end.
Proof.
  rewrite analyzeSelect_iff. inversion 1 as [| |name' exprs' w' t cols rw Ht Hcols Hw| |]; subst.
  exists t, cols, rw. split_and!; [done|done| |].
  - destruct Hcols as [[_ ->]|[_ Hf]]; [done|]. clear -Hf.
    induction Hf as [|e col es cols (n & _ & Hc) _ IH]; [done|]. constructor; [by eapply column_elem|done].
  - destruct Hw; [by apply where_resolves_ok|done].
Qed.

Lemma analyzeUpdate_ok name assignments w cat rs : analyzeUpdate name assignments w cat = Ok rs ->
  exists t ras rw e, rs = ResolvedUpdate t ras (Some rw) /\ cat_GetTable name cat = Ok t /\ w = Some e /\
    (fun a => teExpr (raValue a)) <$> ras = asValue <$> assignments /\
    Forall (fun a => raColumn a ∈ tdColumns t /\ fits t (raColumn a) (raValue a)) ras /\ where_ok t rw /\ where_from rw e.
Proof.
  rewrite analyzeUpdate_iff. inversion 1 as [| | |name' as' e t ras rw Ht Hras Hw%where_resolves_ok|]; subst.
  exists t, ras, rw, e. split_and!; try done; [| |apply Hw|apply Hw].
  - clear -Hras. induction Hras as [|a [c tv] as' ras' (_ & _ & Hv) _ IH]; [done|]. simpl in Hv. subst tv. by rewrite !fmap_cons, IH.
  - clear -Hras. induction Hras as [|a [c tv] as' ras' (Hc & Ht & Hv) _ IH]; [done|]. simpl in *. subst tv.
    constructor; [|done]. split; [by eapply column_elem|done].
Qed.

Lemma analyzeDelete_ok name w cat rs : analyzeDelete name w cat = Ok rs ->
  exists t rw e, rs = ResolvedDelete t (Some rw) /\ cat_GetTable name cat = Ok t /\ w = Some e /\
    where_ok t rw /\ where_from rw e.
Proof.
  rewrite analyzeDelete_iff. inversion 1 as [| | | |name' e t rw Ht Hw%where_resolves_ok]; subst.
  exists t, rw, e. split_and!; try done; apply Hw.
Qed.
End resolved.

(** Analysis depends on the catalog only through the tables it finds. *)
Lemma Analyze_ext {C1 C2} `{Catalog C1, Catalog C2} stmt (c1 : C1) (c2 : C2) rs :
  (forall name t, cat_GetTable name c1 = Ok t -> cat_GetTable name c2 = Ok t) ->
  Analyze stmt c1 = Ok rs -> Analyze stmt c2 = Ok rs.
Proof.
  intros Hext.
  assert (Hget : forall name (k : TableDef -> result anerr ResolvedStatement),
    result_bind (get_table name c1) k = Ok rs -> result_bind (get_table name c2) k = Ok rs).
  { intros name k (t & Ht%get_table_ok%Hext%get_table_ok & Hk)%result_bind_ok. by rewrite Ht. }
  destruct stmt; simpl; try apply Hget. done.
Qed.

(** ** Examples *)

Definition users : TableDef :=
  mkTableDef "users"
    [mkColumnDef "id" TypeInt true false; mkColumnDef "name" TypeText false true; mkColumnDef "age" TypeInt false true] "id" "".

Definition catalog1 : inMemoryCatalog := {["users" := users]}.

Definition insert1 : Statement :=
  InsertStmt "users" [] [Literal (LInt 7); Literal (LString "alice"); Literal (LInt 30)].

Example insert1_resolved :
  Analyze insert1 catalog1 = Ok (ResolvedInsert users (tdColumns users)
    [mkTypedExpr (Literal (LInt 7)) TypeInt; mkTypedExpr (Literal (LString "alice")) TypeText;
     mkTypedExpr (Literal (LInt 30)) TypeInt]).
Proof. by vm_compute. Qed.

(** NULL passes the type check of an [INT] column even if the column is NOT NULL,
    and is refused by every other column, although it is meant to fit any. *)
Theorem null_is_an_int :
  is_ok (Analyze (InsertStmt "users" [] [Literal (LInt 7); Literal (LString "alice"); Literal LNull]) catalog1) = true /\
  Analyze (InsertStmt "users" [] [Literal (LInt 7); Literal LNull; Literal (LInt 30)]) catalog1 =
    Fail (ATypeMismatch "name" TypeText TypeInt).
Proof. by vm_compute. Qed.

(** A NOT NULL column may also be left out. *)
Theorem not_null_column_omitted :
  is_ok (Analyze (InsertStmt "users" ["id"] [Literal (LInt 7)]) catalog1) = true.
Proof. by vm_compute. Qed.
