(* ===== verification/Float.v ===== *)
(** Floating-point numbers as JSON carries them: [strconv.ParseFloat(s, 64)] on
    the number literals of JSON, and the shortest decimal that
    [strconv.AppendFloat(b, f, fmt, -1, 64)] writes, as [encoding/json] calls it.

    A finite [float64] is a sign, a mantissa and a power of two.  Whole numbers
    below [10^15] are exact and keep their text. *)

From Stdlib Require Import Ascii.
From S2P Require Import Prelude Strconv Json.

(** The value is [fMant * 2 ^ fExp]; the mantissa has 53 bits, or fewer with the
    smallest exponent. *)
Record float64 := mkF64 { fNeg : bool; fMant : Z; fExp : Z }.
#[global] Instance float64_eq_dec : EqDecision float64.
Proof. solve_decision. Defined.

(** ** Reading *)

(** [a / b] to the nearest integer, ties to even. *)
Definition round_div (a b : Z) : Z :=
  let q := a / b in
  let r := a mod b in
  if 2 * r <? b then q else if b <? 2 * r then q + 1 else if Z.even q then q else q + 1.

(** [num / (den * 2 ^ e)] as a fraction. *)
Definition scale2 (num den e : Z) : Z * Z := if e <? 0 then (num * 2 ^ (- e), den) else (num, den * 2 ^ e).

(** [num * 10 ^ x / den] as a fraction. *)
Definition scale10 (num den x : Z) : Z * Z := if x <? 0 then (num, den * 10 ^ (- x)) else (num * 10 ^ x, den).

(** The [k] with [2 ^ k <= num / den < 2 ^ (k + 1)]. *)
Definition ilog2 (num den : Z) : Z :=
  let k := Z.log2 num - Z.log2 den in
  let '(a, b) := scale2 num den k in if a <? b then k - 1 else k.

(** The nearest [float64] to [num / den]; [None] when it overflows. *)
Definition round64 (neg : bool) (num den : Z) : option float64 :=
  if num =? 0 then Some (mkF64 neg 0 (-1074))
  else
    let e := Z.max (-1074) (ilog2 num den - 52) in
    let '(a, b) := scale2 num den e in
    let m := round_div a b in
    let '(m, e) := if m =? 2 ^ 53 then (2 ^ 52, e + 1) else (m, e) in
    if 971 <? e then None else Some (mkF64 neg m e).

(** The parts of a literal: sign, digits, and the power of ten they are scaled
    by. *)
Definition split_number (lit : bytes) : bool * bytes * Z :=
  let '(neg, s) := match lit with
                   | c :: r => if decide (c = "-"%char) then (true, r) else (false, lit)
                   | [] => (false, lit)
                   end in
  let '(whole, s) := span isdigit s in
  let '(frac, s) := match s with
                    | c :: r => if decide (c = "."%char) then span isdigit r else ([], s)
                    | [] => ([], s)
                    end in
  let ex := match s with
            | _ :: c :: r => if decide (c = "-"%char) then - default 0 (dec_val 0 r)
                             else if decide (c = "+"%char) then default 0 (dec_val 0 r)
                             else default 0 (dec_val 0 (c :: r))
            | _ => 0
            end in
  (neg, whole ++ frac, ex - Z.of_nat (length frac)).

(** [None] when the number is out of range. *)
Definition ParseFloat (lit : bytes) : option float64 :=
  let '(neg, digits, x) := split_number lit in
  let '(num, den) := scale10 (default 0 (dec_val 0 digits)) 1 x in
  round64 neg num den.

(** ** Writing *)

(** The value without its sign, as a fraction. *)
Definition f_abs_fraction (f : float64) : Z * Z :=
  if fExp f <? 0 then (fMant f, 2 ^ (- fExp f)) else (fMant f * 2 ^ fExp f, 1).

(** The number of leading zeros after the point of [num / den < 1]. *)
Fixpoint leading_zeros (fuel : nat) (num den : Z) : Z :=
  match fuel with
  | O => 0
  | S fuel' => if den <=? num * 10 then 0 else 1 + leading_zeros fuel' (num * 10) den
  end.

(** The number of digits before the decimal point, negative for small values. *)
Definition dec_point (num den : Z) : Z :=
  if den <=? num then Z.of_nat (length (dec_digits 310 (num / den) []))
  else - leading_zeros 330 num den.

(** The decimal with the fewest digits that reads back as [f], the nearest one if
    there are two: the digits and their power of ten.  [point] is the decimal
    point's place in [num / den], [p] the number of digits to try. *)
Fixpoint shortest_from (fuel : nat) (f : float64) (num den point p : Z) : Z * Z :=
  let x := point - p in
  let '(a, b) := scale10 num den (- x) in
  let lo := a / b in
  match fuel with
  | O => (lo, x)
  | S fuel' =>
      let reads d := bool_decide ((let '(n, k) := scale10 d 1 x in round64 (fNeg f) n k) = Some f) in
      match reads lo, reads (lo + 1) with
      | true, true => (round_div a b, x)
      | true, false => (lo, x)
      | false, true => (lo + 1, x)
      | false, false => shortest_from fuel' f num den point (p + 1)
      end
  end.

(** Rounding up can carry into one more digit, a zero. *)
Definition drop_zero (d x : Z) : Z * Z := if (d mod 10 =? 0) && (0 <? d) then (d / 10, x + 1) else (d, x).

Definition zeros (n : Z) : bytes := replicate (Z.to_nat n) "0"%char.

(** Format ['f']: digits [d] times [10 ^ x]. *)
Definition format_f (d x : Z) : bytes :=
  let s := FormatUint d in
  let len := Z.of_nat (length s) in
  if 0 <=? x then s ++ zeros x
  else if - x <? len then take (Z.to_nat (len + x)) s ++ "."%char :: drop (Z.to_nat (len + x)) s
  else ["0"; "."]%char ++ zeros (- x - len) ++ s.

(** Format ['e'], with the exponent as [encoding/json] leaves it: it removes the
    zero of a one-digit negative exponent, and positive ones have two digits. *)
Definition format_e (d x : Z) : bytes :=
  let s := FormatUint d in
  let ex := x + Z.of_nat (length s) - 1 in
  take 1 s ++ (if decide (drop 1 s = []) then [] else "."%char :: drop 1 s) ++
  "e"%char :: (if ex <? 0 then "-"%char else "+"%char) :: FormatUint (Z.abs ex).

Definition abs_lt (f g : float64) : bool :=
  let '(a, b) := f_abs_fraction f in
  let '(c, d) := f_abs_fraction g in a * d <? c * b.

(** The constants [1e-6] and [1e21] of [floatEncoder]. *)
Definition f_micro : float64 := default (mkF64 false 0 0) (round64 false 1 (10 ^ 6)).
Definition f_e21 : float64 := default (mkF64 false 0 0) (round64 false (10 ^ 21) 1).

(** [floatEncoder]. *)
Definition FormatFloat (f : float64) : bytes :=
  let '(num, den) := f_abs_fraction f in
  (if fNeg f then ["-"%char] else []) ++
  if num =? 0 then ["0"%char]
  else
    let '(d, x) := shortest_from 17 f num den (dec_point num den) 1 in
    let '(d, x) := drop_zero d x in
    if abs_lt f f_micro || negb (abs_lt f f_e21) then format_e d x else format_f d x.

(** ** Whole numbers *)

(** The [float64] of a small positive integer. *)
Definition f_int (n : Z) : float64 := mkF64 false (n * 2 ^ (52 - Z.log2 n)) (Z.log2 n - 52).

Lemma round_div_1 a : round_div a 1 = a.
Proof. unfold round_div. rewrite Z.div_1_r, Z.mod_1_r. done. Qed.

Lemma round64_int n : 0 < n < 2 ^ 53 -> round64 false n 1 = Some (f_int n).
Proof.
  intros Hn. pose proof (Z.log2_spec n ltac:(lia)) as [Hlo Hhi]. pose proof (Z.log2_nonneg n) as Hpos.
  assert (Hlt : Z.log2 n < 53) by (apply Z.log2_lt_pow2; lia).
  assert (Hil : ilog2 n 1 = Z.log2 n).
  { unfold ilog2, scale2. change (Z.log2 1) with 0. rewrite Z.sub_0_r. destruct (Z.ltb_spec (Z.log2 n) 0); [lia|].
    destruct (Z.ltb_spec n (1 * 2 ^ Z.log2 n)); lia. }
  unfold round64. destruct (Z.eqb_spec n 0); [lia|]. rewrite Hil, Z.max_r by lia.
  assert (Hsc : scale2 n 1 (Z.log2 n - 52) = (n * 2 ^ (52 - Z.log2 n), 1)).
  { unfold scale2. destruct (Z.ltb_spec (Z.log2 n - 52) 0).
    - do 3 f_equal. lia.
    - replace (Z.log2 n - 52) with 0 by lia. replace (52 - Z.log2 n) with 0 by lia. f_equal. lia. }
  rewrite Hsc, round_div_1.
  assert (Hm : n * 2 ^ (52 - Z.log2 n) < 2 ^ 53).
  { replace 53 with (Z.succ (Z.log2 n) + (52 - Z.log2 n)) by lia. rewrite Z.pow_add_r by lia.
    apply Z.mul_lt_mono_pos_r; [apply Z.pow_pos_nonneg; lia|lia]. }
  destruct (Z.eqb_spec (n * 2 ^ (52 - Z.log2 n)) (2 ^ 53)); [lia|].
  destruct (Z.ltb_spec 971 (Z.log2 n - 52)); [lia|]. done.
Qed.

Lemma f_int_inj n m : 0 < n < 2 ^ 53 -> 0 < m < 2 ^ 53 -> f_int n = f_int m -> n = m.
Proof.
  intros Hn Hm [= Hmant Hexp]. assert (Hl : Z.log2 n = Z.log2 m) by lia. rewrite Hl in Hmant.
  assert (Z.log2 m < 53) by (apply Z.log2_lt_pow2; lia).
  apply Z.mul_reg_r in Hmant; [done|]. pose proof (Z.pow_pos_nonneg 2 (52 - Z.log2 m)). lia.
Qed.

(** Reading a multiple of a power of ten. *)
Lemma reads_int n d x : 0 < n < 2 ^ 53 -> 0 <= x -> 0 < d * 10 ^ x < 2 ^ 53 ->
  bool_decide ((let '(a, k) := scale10 d 1 x in round64 (fNeg (f_int n)) a k) = Some (f_int n)) = bool_decide (d * 10 ^ x = n).
Proof.
  intros Hn Hx Hd. unfold scale10. destruct (Z.ltb_spec x 0); [lia|]. cbn [fNeg f_int]. rewrite round64_int by done.
  apply bool_decide_ext. split; [|by intros ->]. intros Hf%(inj Some). by apply f_int_inj.
Qed.

(** The number of digits. *)
Lemma dec_digits_bounds fuel n acc : 0 < n < 10 ^ Z.of_nat fuel ->
  let len := Z.of_nat (length (dec_digits fuel n acc)) - Z.of_nat (length acc) in
  1 <= len /\ 10 ^ (len - 1) <= n < 10 ^ len.
Proof.
  revert n acc. induction fuel as [|fuel IH]; intros n acc Hn; [simpl in Hn; lia|]. cbn [dec_digits].
  destruct (Z.ltb_spec n 10).
  - cbn [length]. replace (Z.of_nat (S (length acc)) - Z.of_nat (length acc)) with 1 by lia. simpl. lia.
  - specialize (IH (n / 10) (zb (48 + n mod 10) :: acc)). cbn [length] in IH. cbn zeta in *.
    set (L := Z.of_nat (length (dec_digits fuel _ _))) in *.
    destruct IH as (H1 & H2 & H3).
    { split; [apply Z.div_str_pos; lia|]. apply Z.div_lt_upper_bound; [lia|].
      rewrite <- Z.pow_succ_r, <- Nat2Z.inj_succ by lia. lia. }
    pose proof (Z.mul_div_le n 10 ltac:(lia)). pose proof (Z.mod_pos_bound n 10 ltac:(lia)). pose proof (Z.div_mod n 10 ltac:(lia)).
    replace (L - Z.of_nat (length acc)) with (Z.succ (L - Z.of_nat (S (length acc)))) by lia.
    split; [lia|]. rewrite Z.pow_succ_r by lia.
    replace (Z.succ (L - Z.of_nat (S (length acc))) - 1) with (Z.succ (L - Z.of_nat (S (length acc)) - 1)) by lia.
    rewrite Z.pow_succ_r by lia. lia.
Qed.

Lemma f_int_fraction n : 0 < n < 2 ^ 53 ->
  f_abs_fraction (f_int n) = (n * 2 ^ (52 - Z.log2 n), 2 ^ (52 - Z.log2 n)) /\ 0 < 2 ^ (52 - Z.log2 n).
Proof.
  intros Hn. assert (Z.log2 n < 53) by (apply Z.log2_lt_pow2; lia). split; [|apply Z.pow_pos_nonneg; lia].
  unfold f_abs_fraction. cbn [fExp fMant f_int]. destruct (Z.ltb_spec (Z.log2 n - 52) 0).
  - do 2 f_equal. lia.
  - replace (Z.log2 n - 52) with 0 by lia. replace (52 - Z.log2 n) with 0 by lia. simpl. f_equal. lia.
Qed.

(** The search finds the digits of a whole number without its trailing zeros. *)
Lemma shortest_int fuel n den point p :
  0 < n < 10 ^ 15 -> 0 < den -> point <= 15 -> 10 ^ (point - 1) <= n < 10 ^ point -> 1 <= p <= point ->
  point - p < Z.of_nat fuel ->
  exists d x, shortest_from fuel (f_int n) (n * den) den point p = (d, x) /\ 0 < d /\ 0 <= x /\ d * 10 ^ x = n.
Proof.
  intros Hn Hden Hpoint Hdig. assert (Hn53 : 0 < n < 2 ^ 53) by lia. revert p.
  induction fuel as [|fuel IH]; intros p Hp Hf; [lia|]. cbn [shortest_from].
  set (x := point - p). assert (Hx : 0 <= x) by lia. pose proof (Z.pow_pos_nonneg 10 x ltac:(lia) Hx) as Hpow.
  assert (Hsc : (let '(a, b) := scale10 (n * den) den (- x) in a / b) = n / 10 ^ x).
  { unfold scale10. destruct (Z.ltb_spec (- x) 0).
    - rewrite Z.opp_involutive, (Z.mul_comm n den). by apply Z.div_mul_cancel_l; lia.
    - replace x with 0 by lia. simpl. rewrite Z.mul_1_r, Z.div_1_r. apply Z.div_mul. lia. }
  destruct (scale10 (n * den) den (- x)) as [a b]. rewrite Hsc.
  set (lo := n / 10 ^ x). pose proof (Z.mul_div_le n (10 ^ x) Hpow) as Hle. fold lo in Hle.
  pose proof (Z.mul_succ_div_gt n (10 ^ x) Hpow) as Hgt. fold lo in Hgt.
  assert (Hsplit : 10 ^ point = 10 ^ p * 10 ^ x) by (rewrite <- Z.pow_add_r by lia; f_equal; lia).
  assert (Hlo : 1 <= lo).
  { apply Z.div_le_lower_bound; [lia|]. rewrite Z.mul_1_r. etrans; [|apply Hdig]. apply Z.pow_le_mono_r; lia. }
  assert (Hhi : lo < 10 ^ p) by (apply Z.div_lt_upper_bound; lia).
  assert (H15 : 10 ^ point <= 10 ^ 15) by (apply Z.pow_le_mono_r; lia).
  rewrite !reads_int by nia. rewrite (bool_decide_false ((lo + 1) * _ = n)) by lia.
  case_bool_decide as Hd; [exists lo, x; split_and!; [done|lia|done|done]|].
  apply IH; [|lia]. split; [lia|]. destruct (Z.eq_dec p point) as [->|]; [|lia].
  exfalso. apply Hd. unfold lo, x. rewrite Z.sub_diag, Z.div_1_r. lia.
Qed.

(** ** Text of whole numbers *)

Lemma dec_digits_acc fuel n acc : dec_digits fuel n acc = dec_digits fuel n [] ++ acc.
Proof.
  revert n acc. induction fuel as [|fuel IH]; intros n acc; cbn [dec_digits]; [done|].
  destruct (n <? 10); [done|]. rewrite IH, (IH _ [_]), <- (assoc_L (++)). done.
Qed.

Lemma dec_digits_fuel fuel fuel' n acc :
  0 <= n -> n < 10 ^ Z.of_nat fuel -> n < 10 ^ Z.of_nat fuel' -> (0 < fuel)%nat -> (0 < fuel')%nat ->
  dec_digits fuel n acc = dec_digits fuel' n acc.
Proof.
  revert fuel' n acc. induction fuel as [|fuel IH]; intros [|fuel'] n acc Hn Hf Hf' ??; try lia. cbn [dec_digits].
  destruct (Z.ltb_spec n 10); [done|]. rewrite Nat2Z.inj_succ, Z.pow_succ_r in Hf, Hf' by lia.
  assert (n / 10 < 10 ^ Z.of_nat fuel) by (apply Z.div_lt_upper_bound; lia).
  assert (n / 10 < 10 ^ Z.of_nat fuel') by (apply Z.div_lt_upper_bound; lia).
  pose proof (Z.div_str_pos n 10 ltac:(lia)).
  apply IH; [lia|done|done|destruct fuel; simpl in *; lia|destruct fuel'; simpl in *; lia].
Qed.

Lemma FormatUint_times_10 d : 0 < d -> d * 10 < two64 -> FormatUint (d * 10) = FormatUint d ++ ["0"%char].
Proof.
  intros Hd Hmax. unfold FormatUint.
  change (dec_digits 20 (d * 10) []) with
    (if d * 10 <? 10 then [zb (48 + d * 10)] else dec_digits 19 (d * 10 / 10) [zb (48 + (d * 10) mod 10)]).
  destruct (Z.ltb_spec (d * 10) 10); [lia|].
  rewrite Z.mod_mul, Z.div_mul by lia. change (zb (48 + 0)) with "0"%char. rewrite dec_digits_acc. f_equal.
  unfold two64 in *. apply (dec_digits_fuel 19 20); simpl; lia.
Qed.

Lemma FormatUint_zeros d x : 0 < d -> 0 <= x -> d * 10 ^ x < two64 -> FormatUint d ++ zeros x = FormatUint (d * 10 ^ x).
Proof.
  intros Hd Hx. assert (exists k, x = Z.of_nat k) as [k ->] by (exists (Z.to_nat x); lia). unfold zeros. rewrite Nat2Z.id.
  induction k as [|k IH]; intros Hmax; [by rewrite app_nil_r, Z.pow_0_r, Z.mul_1_r|].
  rewrite Nat2Z.inj_succ, Z.pow_succ_r in * by lia. pose proof (Z.pow_pos_nonneg 10 (Z.of_nat k)).
  replace (d * (10 * 10 ^ Z.of_nat k)) with (d * 10 ^ Z.of_nat k * 10) in * by lia.
  rewrite FormatUint_times_10 by nia. rewrite <- IH by nia. rewrite <- (assoc_L (++)). f_equal.
  by rewrite replicate_S_end.
Qed.

Lemma drop_zero_value d x : 0 < d -> 0 <= x ->
  exists d' x', drop_zero d x = (d', x') /\ 0 < d' /\ 0 <= x' /\ d' * 10 ^ x' = d * 10 ^ x.
Proof.
  intros Hd Hx. unfold drop_zero. destruct (Z.eqb_spec (d mod 10) 0) as [Hm|]; simpl.
  - destruct (Z.ltb_spec 0 d); [|lia]. pose proof (Z.div_mod d 10 ltac:(lia)).
    exists (d / 10), (x + 1). split_and!; [done|lia|lia|]. rewrite Z.pow_add_r by lia. simpl. nia.
  - by exists d, x.
Qed.

Lemma FormatFloat_int n : 0 < n < 10 ^ 15 -> FormatFloat (f_int n) = FormatUint n.
Proof.
  intros Hn. assert (Hn53 : 0 < n < 2 ^ 53) by lia. destruct (f_int_fraction n Hn53) as [Hfr Hden].
  unfold FormatFloat, abs_lt. rewrite Hfr. set (S := 2 ^ (52 - Z.log2 n)) in *. clearbody S. cbn [fNeg f_int app].
  destruct (Z.eqb_spec (n * S) 0); [nia|].
  assert (Hpoint : dec_point (n * S) S = Z.of_nat (length (dec_digits 310 n []))).
  { unfold dec_point. destruct (Z.leb_spec S (n * S)); [|nia]. by rewrite Z.div_mul by lia. }
  destruct (dec_digits_bounds 310 n []) as (Hlen & Hdig); [split; [lia|]; etrans; [apply Hn|by vm_compute]|].
  cbn [length] in Hlen, Hdig. rewrite Z.sub_0_r in Hlen, Hdig. rewrite Hpoint. set (D := Z.of_nat _) in *. clearbody D.
  assert (HD : D <= 15).
  { destruct (Z.le_gt_cases D 15); [done|]. assert (10 ^ 15 <= 10 ^ (D - 1)) by (apply Z.pow_le_mono_r; lia). lia. }
  destruct (shortest_int 17 n S D 1) as (d & x & -> & Hd & Hx & Hdx); try done; try lia.
  destruct (drop_zero_value d x Hd Hx) as (d' & x' & -> & Hd' & Hx' & Hdx').
  assert (Hmicro : f_abs_fraction f_micro = (4722366482869645, 2 ^ 72)) by by vm_compute.
  assert (H21 : f_abs_fraction f_e21 = (10 ^ 21, 1)) by by vm_compute.
  rewrite Hmicro, H21.
  destruct (Z.ltb_spec (n * S * 2 ^ 72) (4722366482869645 * S)); [nia|].
  destruct (Z.ltb_spec (n * S * 1) (10 ^ 21 * S)); [|nia]. cbn [orb negb].
  unfold format_f. destruct (Z.leb_spec 0 x'); [|lia]. rewrite FormatUint_zeros by (unfold two64; lia). f_equal. lia.
Qed.

Definition f_zero : float64 := mkF64 false 0 (-1074).

(** The [float64] of a non-negative integer. *)
Definition f_nat (n : Z) : float64 := if n =? 0 then f_zero else f_int n.

Lemma ParseFloat_digits n : u64 n -> ParseFloat (FormatUint n) = round64 false n 1.
Proof.
  intros Hn. pose proof (FormatUint_val n Hn) as Hval. pose proof (FormatUint_digits n Hn) as Hall.
  pose proof (FormatUint_nonempty n) as Hne. unfold ParseFloat, split_number.
  destruct (FormatUint n) as [|c s] eqn:Hs; [done|]. rewrite <- Hs in *.
  assert (Hc : c <> "-"%char) by (rewrite Hs in Hall; simpl in Hall; intros ->; done).
  rewrite decide_False by done.
  assert (Hspan : span isdigit (FormatUint n) = (FormatUint n, [])).
  { clear -Hall. induction (FormatUint n) as [|d l IH]; [done|]. simpl in *. apply andb_true_iff in Hall as [Hd Hl].
    by rewrite Hd, IH. }
  rewrite Hspan. cbn [length]. rewrite app_nil_r, Hval. cbn [default]. unfold scale10. simpl. f_equal. lia.
Qed.

(** Small whole numbers go through [float64] unchanged, value and text. *)
Lemma float_nat n : 0 <= n < 10 ^ 15 ->
  ParseFloat (FormatInt n) = Some (f_nat n) /\ FormatFloat (f_nat n) = FormatInt n.
Proof.
  intros Hn. assert (Hf : FormatInt n = FormatUint n) by (unfold FormatInt; destruct (Z.ltb_spec n 0); [lia|done]).
  rewrite Hf, ParseFloat_digits by (unfold u64, two64; lia). unfold f_nat. destruct (Z.eqb_spec n 0) as [->|Hne].
  - by vm_compute.
  - split; [apply round64_int; lia|apply FormatFloat_int; lia].
Qed.

Lemma f_nat_inj n m : 0 <= n < 2 ^ 53 -> 0 <= m < 2 ^ 53 -> f_nat n = f_nat m -> n = m.
Proof.
  unfold f_nat. intros Hn Hm. destruct (Z.eqb_spec n 0), (Z.eqb_spec m 0); try lia.
  - intros [= H1 _]. pose proof (Z.pow_pos_nonneg 2 (52 - Z.log2 m)). assert (Z.log2 m < 53) by (apply Z.log2_lt_pow2; lia). nia.
  - intros [= H1 _]. pose proof (Z.pow_pos_nonneg 2 (52 - Z.log2 n)). assert (Z.log2 n < 53) by (apply Z.log2_lt_pow2; lia). nia.
  - apply f_int_inj; lia.
Qed.

(** Beyond [2 ^ 53] neighbours become equal. *)
Lemma float_merges : ParseFloat (FormatInt 9007199254740993) = ParseFloat (FormatInt 9007199254740992).
Proof. by vm_compute. Qed.
