(* ===== verification/SqlPlanner.v ===== *)
(** Physical plans (src/internal/sql/planner.go) and the keys rows are stored
    under ([RowKey], src/internal/sql/catalog.go). *)

From Stdlib Require Import Ascii.
From S2P Require Import Prelude Strconv SqlLexer SqlParser SqlAnalyzer.

Inductive PhysicalPlan :=
| PointGet (Key : string) (Table : TableDef) (Columns : list ColumnDef)
| PointPut (Key : string) (Value : gmap string LitValue) (Table : TableDef)
| PointDelete (Key : string) (Table : TableDef)
| PointUpdate (Key : string) (Table : TableDef) (Assignments : list ResolvedAssignment)
| TableScan (Prefix : string) (Table : TableDef) (Columns : list ColumnDef)
| CreateTablePlan (Def : TableDef)
| InsertPlan (Key : string) (Row : gmap string LitValue) (Table : TableDef).

Inductive planerr :=
| PlPrimaryKeyMissing (name : string)
| PlNotLiteral
| PlNonLiteralColumn (name : string)
| PlWhereRequired
| PlWhereOperator.

Definition RowKey (table pkValue : string) : string := table +:+ "/" +:+ pkValue.

Definition literal_string (v : LitValue) : string :=
  match v with
  | LInt n => to_str (FormatInt n)
  | LString s => s
  | LBool true => "true"
  | LBool false => "false"
  | LNull => "null"
  end.

Definition evalLiteralToString (te : TypedExpr) : result planerr string :=
  match teExpr te with Literal v => Ok (literal_string v) | _ => Fail PlNotLiteral end.

(** [values] has an entry for every column. *)
Fixpoint findPKValue (table : TableDef) (cols : list ColumnDef) (values : list TypedExpr) : result planerr TypedExpr :=
  match cols, values with
  | col :: cols', v :: values' => if decide (cdName col = tdPrimaryKey table) then Ok v else findPKValue table cols' values'
  | _, _ => Fail (PlPrimaryKeyMissing (tdPrimaryKey table))
  end.

(** The row map, filled column by column. *)
Fixpoint build_row (cols : list ColumnDef) (values : list TypedExpr) (row : gmap string LitValue)
    : result planerr (gmap string LitValue) :=
  match cols, values with
  | col :: cols', v :: values' =>
      match teExpr v with
      | Literal lit => build_row cols' values' (<[cdName col := lit]> row)
      | _ => Fail (PlNonLiteralColumn (cdName col))
      end
  | _, _ => Ok row
  end.

Definition planInsert (table : TableDef) (cols : list ColumnDef) (values : list TypedExpr) : result planerr PhysicalPlan :=
  try pkValue <- findPKValue table cols values;
  try pkStr <- evalLiteralToString pkValue;
  try row <- build_row cols values ∅;
  Ok (InsertPlan (RowKey (tdName table) pkStr) row table).

Definition planSelect (table : TableDef) (columns : list ColumnDef) (where_ : option ResolvedWhere) : result planerr PhysicalPlan :=
  match where_ with
  | Some w =>
      if decide (rwOp w = "=") then
        try pkStr <- evalLiteralToString (rwValue w);
        Ok (PointGet (RowKey (tdName table) pkStr) table columns)
      else Ok (TableScan (tdName table +:+ "/") table columns)
  | None => Ok (TableScan (tdName table +:+ "/") table columns)
  end.

(** The key a WHERE clause names; updates and deletes need one. *)
Definition where_key (table : TableDef) (where_ : option ResolvedWhere) : result planerr string :=
  match where_ with
  | None => Fail PlWhereRequired
  | Some w =>
      if decide (rwOp w <> "=") then Fail PlWhereOperator
      else try pkStr <- evalLiteralToString (rwValue w); Ok (RowKey (tdName table) pkStr)
  end.

Definition planUpdate (table : TableDef) (assignments : list ResolvedAssignment) (where_ : option ResolvedWhere)
    : result planerr PhysicalPlan :=
  try key <- where_key table where_; Ok (PointUpdate key table assignments).

Definition planDelete (table : TableDef) (where_ : option ResolvedWhere) : result planerr PhysicalPlan :=
  try key <- where_key table where_; Ok (PointDelete key table).

Definition Plan (rs : ResolvedStatement) : result planerr PhysicalPlan :=
  match rs with
  | ResolvedCreateTable def => Ok (CreateTablePlan def)
  | ResolvedInsert table cols values => planInsert table cols values
  | ResolvedSelect table columns w => planSelect table columns w
  | ResolvedUpdate table assignments w => planUpdate table assignments w
  | ResolvedDelete table w => planDelete table w
  end.

(** ** Keys *)

Definition slash : ascii := "/"%char.
Definition slash_free (s : string) : Prop := slash ∉ of_str s.

(** Literals whose text identifies them: the parser's non-negative numbers. *)
Definition literal_range (v : LitValue) : Prop := match v with LInt n => 0 <= n <= max_int64 | _ => True end.

Definition lit_type (v : LitValue) : ColumnType := teCType (resolveLiteral v).

Lemma has_type_lit t v ty : has_type t (Literal v) ty -> lit_type v = ty.
Proof. by inversion 1. Qed.

Lemma split_unique {A} (c : A) l1 l2 r1 r2 : c ∉ l1 -> c ∉ l2 -> l1 ++ c :: r1 = l2 ++ c :: r2 -> l1 = l2 /\ r1 = r2.
Proof.
  revert l2. induction l1 as [|a l1 IH]; intros [|b l2] H1 H2; simpl; [by intros [= ->]|set_solver|set_solver|].
  intros [= -> Heq]. apply IH in Heq as [-> ->]; set_solver.
Qed.

Lemma of_str_inj s t : of_str s = of_str t -> s = t.
Proof. intros Heq. by rewrite <- (to_of_str s), <- (to_of_str t), Heq. Qed.

Lemma of_RowKey t p : of_str (RowKey t p) = of_str t ++ slash :: of_str p.
Proof. unfold RowKey. by rewrite !of_str_app. Qed.

Lemma RowKey_inj t t' p p' : slash_free t -> slash_free t' -> RowKey t p = RowKey t' p' -> t = t' /\ p = p'.
Proof.
  intros Ht Ht' Heq%(f_equal of_str). rewrite !of_RowKey in Heq.
  apply split_unique in Heq as [?%of_str_inj ?%of_str_inj]; done.
Qed.

Lemma prefix_spec s k : String.prefix s k = true <-> exists r, k = s +:+ r.
Proof.
  revert k. induction s as [|a s IH]; intros k.
  - split; [by exists k|by destruct k].
  - destruct k as [|b k]; [split; [done|by intros (r & ?)]|]. cbn [String.prefix]. destruct (Ascii.ascii_dec a b) as [->|Hne].
    + rewrite IH. split; intros (r & Hr); exists r; [by rewrite Hr|by injection Hr].
    + split; [done|]. intros (r & [= Hr _]). congruence.
Qed.

(** A table's prefix is the prefix of its own keys only. *)
Lemma RowKey_prefix t t' p : slash_free t -> slash_free t' -> String.prefix (t +:+ "/") (RowKey t' p) = true <-> t' = t.
Proof.
  intros Ht Ht'. rewrite prefix_spec. split.
  - intros (r & Hr%(f_equal of_str)). rewrite of_RowKey, !of_str_app, <- app_assoc in Hr.
    by apply split_unique in Hr as [?%of_str_inj _].
  - intros ->. exists p. apply of_str_inj. by rewrite of_RowKey, !of_str_app, <- app_assoc.
Qed.

Lemma FormatInt_not_null n : 0 <= n <= max_int64 -> to_str (FormatInt n) <> "null".
Proof.
  intros Hn Heq%(f_equal of_str). rewrite of_to_str in Heq.
  assert (Hu : u64 n) by (unfold u64, two64, max_int64 in *; lia).
  destruct (FormatUint_head n Hu) as (c & r & Hc & Hd).
  assert (Hf : FormatInt n = FormatUint n) by (unfold FormatInt; destruct (Z.ltb_spec n 0); [lia|done]).
  rewrite Hf, Hc in Heq. injection Heq as -> _. done.
Qed.

Lemma literal_string_inj v w : lit_type v = lit_type w -> literal_range v -> literal_range w ->
  literal_string v = literal_string w -> v = w.
Proof.
  destruct v as [n|s|[]|], w as [m|s'|[]|]; simpl; try done.
  - intros _ Hn Hm Heq%(f_equal of_str). rewrite !of_to_str in Heq. f_equal.
    apply FormatInt_inj; [| |done]; unfold int64, min_int64, max_int64 in *; lia.
  - intros _ Hn _ Heq. by apply FormatInt_not_null in Heq.
  - by intros _ _ _ ->.
  - intros _ _ Hn Heq. symmetry in Heq. by apply FormatInt_not_null in Heq.
Qed.

(** ** What can be planned *)

Definition is_literal (tv : TypedExpr) : Prop := exists v, teExpr tv = Literal v.

(** Values are literals, an insert names the primary key, and updates and deletes
    have a WHERE clause. *)
Definition plannable (rs : ResolvedStatement) : Prop :=
  match rs with
  | ResolvedCreateTable _ => True
  | ResolvedInsert t cols values => tdPrimaryKey t ∈ cdName <$> cols /\ Forall is_literal values
  | ResolvedSelect _ _ w => from_option (fun w => is_literal (rwValue w)) True w
  | ResolvedUpdate _ _ w | ResolvedDelete _ w => from_option (fun w => is_literal (rwValue w)) False w
  end.

(** An insert as columns and literals: a repeated column keeps its last value in
    the row, and its first in the key. *)
Definition insert_row (cols : list ColumnDef) (vs : list LitValue) : gmap string LitValue :=
  list_to_map (reverse (zip (cdName <$> cols) vs)).
Definition insert_key (t : TableDef) (cols : list ColumnDef) (vs : list LitValue) : option LitValue :=
  (list_to_map (zip (cdName <$> cols) vs) : gmap string LitValue) !! tdPrimaryKey t.

Lemma evalLiteral_ok tv s : evalLiteralToString tv = Ok s <-> exists v, teExpr tv = Literal v /\ s = literal_string v.
Proof. unfold evalLiteralToString. destruct (teExpr tv); naive_solver. Qed.

Lemma build_row_ok cols tvs row row' : length tvs = length cols -> build_row cols tvs row = Ok row' ->
  exists vs, teExpr <$> tvs = Literal <$> vs /\ row' = insert_row cols vs ∪ row.
Proof.
  revert tvs row. induction cols as [|c cols IH]; intros [|tv tvs] row; simpl; try done.
  - intros _ [= <-]. exists []. split; [done|]. unfold insert_row. simpl. by rewrite map_empty_union.
  - intros [= Hlen]. destruct (teExpr tv) as [| |v|] eqn:Htv; try done. intros (vs & Hvs & ->)%IH; [|done].
    exists (v :: vs). split; [by csimpl; f_equal|]. unfold insert_row. simpl.
    rewrite reverse_cons, list_to_map_app. simpl. rewrite insert_empty, <- map_union_assoc.
    by rewrite <- insert_union_singleton_l.
Qed.

Lemma findPKValue_ok t cols tvs vs tv : length tvs = length cols -> teExpr <$> tvs = Literal <$> vs ->
  findPKValue t cols tvs = Ok tv -> exists v, teExpr tv = Literal v /\ insert_key t cols vs = Some v.
Proof.
  unfold insert_key. revert tvs vs. induction cols as [|c cols IH]; intros [|tv' tvs] vs Hlen Hvs; simpl in *; try done.
  destruct vs as [|v vs]; [done|]. rewrite !fmap_cons in Hvs. injection Hvs as Hv Hvs. simpl. case_decide as Hd.
  - intros [= ->]. exists v. split; [done|]. by rewrite Hd, lookup_insert_eq.
  - intros Hf. rewrite lookup_insert_ne by done. apply (IH tvs vs); [lia|done|done].
Qed.

Lemma findPKValue_total t cols tvs : length tvs = length cols -> tdPrimaryKey t ∈ cdName <$> cols ->
  exists tv, findPKValue t cols tvs = Ok tv /\ tv ∈ tvs.
Proof.
  revert tvs. induction cols as [|c cols IH]; intros [|tv tvs] Hlen Hin; simpl in *; try done; [set_solver|].
  case_decide; [set_solver|]. destruct (IH tvs) as (tv' & ? & ?); set_solver.
Qed.

Lemma build_row_total cols tvs row : Forall is_literal tvs -> exists row', build_row cols tvs row = Ok row'.
Proof.
  revert tvs row. induction cols as [|c cols IH]; intros tvs row Hall; simpl; [eauto|].
  destruct Hall as [|tv tvs [v Hv] Hall]; [eauto|]. rewrite Hv. by apply IH.
Qed.

(** What an insert plan holds. *)
Lemma planInsert_ok t cols tvs p : length tvs = length cols -> planInsert t cols tvs = Ok p ->
  exists vs v, teExpr <$> tvs = Literal <$> vs /\ insert_key t cols vs = Some v /\
    p = InsertPlan (RowKey (tdName t) (literal_string v)) (insert_row cols vs) t.
Proof.
  intros Hlen (tv & Htv & (s & Hs & (row & Hrow & [= <-])%result_bind_ok)%result_bind_ok)%result_bind_ok.
  apply build_row_ok in Hrow as (vs & Hvs & ->); [|done]. exists vs.
  destruct (findPKValue_ok t cols tvs vs tv) as (v & Hv & Hk); [done..|]. exists v. split_and!; [done..|].
  apply evalLiteral_ok in Hs as (v' & Hv' & ->). rewrite Hv in Hv'. injection Hv' as ->. by rewrite map_union_empty.
Qed.

Lemma where_key_ok t rw key : rwOp rw = "=" -> where_key t (Some rw) = Ok key ->
  exists v, teExpr (rwValue rw) = Literal v /\ key = RowKey (tdName t) (literal_string v).
Proof.
  intros Hop. unfold where_key. rewrite decide_False by auto.
  intros (s & (v & Hv & ->)%evalLiteral_ok & [= <-])%result_bind_ok. eauto.
Qed.

Lemma where_key_total t rw : rwOp rw = "=" -> is_literal (rwValue rw) -> is_ok (where_key t (Some rw)) = true.
Proof.
  intros Hop [v Hv]. unfold where_key, evalLiteralToString. rewrite decide_False by auto. by rewrite Hv.
Qed.

(** The planner refuses only statements that cannot be planned. *)
Lemma Plan_total rs : resolved_ok rs -> plannable rs -> is_ok (Plan rs) = true.
Proof.
  destruct rs as [def|t cols tvs|t cols [w|]|t ras [w|]|t [w|]]; simpl; try done.
  - intros [_ Hfit] [Hpk Hlit]. apply Forall2_length in Hfit. unfold planInsert.
    destruct (findPKValue_total t cols tvs) as (tv & -> & Hin); [done..|]. simpl.
    rewrite Forall_forall in Hlit. destruct (Hlit tv Hin) as [v Hv]. unfold evalLiteralToString. rewrite Hv. simpl.
    destruct (build_row_total cols tvs ∅) as [row ->]; [by apply Forall_forall|done].
  - intros [_ (Hop & _)] [v Hv]. unfold evalLiteralToString. rewrite Hop, Hv. done.
  - intros [_ (Hop & _)] Hl. unfold planUpdate. pose proof (where_key_total t w Hop Hl). by destruct (where_key t (Some w)).
  - intros (Hop & _) Hl. unfold planDelete. pose proof (where_key_total t w Hop Hl). by destruct (where_key t (Some w)).
Qed.
