(* ===== verification/SqlExecutor.v ===== *)
(** The SQL executor (src/internal/sql/executor.go) and the encoding of rows
    (src/internal/sql/catalog.go).

    The executor is written against the key-value interface ([KV], with its
    laws); the store of the tests is an instance. *)

From Stdlib Require Import Ascii.
From stdpp Require Import sorting.
From S2P Require Import Prelude Strconv Fs Json JsonStruct Float SqlLexer SqlParser SqlPrint SqlAnalyzer SqlPlanner.

(** ** Rows *)

(** The Go values a row can hold: literals on the way in, and what
    [json.Unmarshal] makes of a stored row: numbers are [float64], and an array or
    object is kept as the text it would be written as. *)
Inductive any :=
| AInt (n : Z)
| AString (s : string)
| ABool (b : bool)
| ANull
| AFloat (f : float64)
| ANested (j : json).

Abbreviation Row := (gmap string any).

Definition any_of_literal (v : LitValue) : any :=
  match v with LInt n => AInt n | LString s => AString s | LBool b => ABool b | LNull => ANull end.

Definition encode_any (a : any) : json :=
  match a with
  | AInt n => j_int n
  | AString s => j_string s
  | ABool b => JBool b
  | ANull => JNull
  | AFloat f => JNum (FormatFloat f)
  | ANested j => j
  end.

(** [json.Marshal] of a row cannot fail: there are no channels, functions or
    infinities in it. *)
Definition EncodeRow (row : Row) : bytes :=
  print_json (JObj ((fun kv => (of_str kv.1, encode_any kv.2)) <$> sorted_members row)).

(** A decoded array or object, as it is written again: numbers through [float64],
    the last of several members of the same name, names sorted. *)
Fixpoint renormalize (j : json) : option json :=
  match j with
  | JNum lit => f ← ParseFloat lit; Some (JNum (FormatFloat f))
  | JArr l => l' ← foldr (fun x acc => x' ← renormalize x; acc' ← acc; Some (x' :: acc')) (Some []) l; Some (JArr l')
  | JObj ms =>
      ms' ← foldr (fun m acc => x' ← renormalize m.2; acc' ← acc; Some ((to_str m.1, x') :: acc')) (Some []) ms;
      Some (JObj ((fun kv => (of_str kv.1, kv.2)) <$>
                    sorted_members (foldl (fun m kv => <[kv.1 := kv.2]> m) (∅ : gmap string json) ms')))
  | _ => Some j
  end.

Definition decode_any (j : json) : option any :=
  match j with
  | JNull => Some ANull
  | JBool b => Some (ABool b)
  | JNum lit => f ← ParseFloat lit; Some (AFloat f)
  | JStr s => Some (AString (to_str s))
  | JArr _ | JObj _ => j' ← renormalize j; Some (ANested j')
  end.

Fixpoint decode_members (ms : list (bytes * json)) (row : Row) : option Row :=
  match ms with
  | [] => Some row
  | (k, j) :: ms' => a ← decode_any j; decode_members ms' (<[to_str k := a]> row)
  end.

(** The row is [None] for the nil map, which the document [null] decodes to. *)
Definition DecodeRow (data : bytes) : option (option Row) :=
  match parse_json data with
  | Some (JObj ms) => Some <$> decode_members ms ∅
  | Some JNull => Some None
  | _ => None
  end.

(** ** The key-value interface *)

Inductive kverr := ErrNotFound | KVFailure.

Class KV (S : Type) := {
  kv_Get : string -> S -> result kverr string;
  kv_Put : string -> string -> S -> result kverr unit * S;
  kv_Delete : string -> S -> result kverr unit * S;
  kv_Scan : string -> S -> result kverr (list (string * string));
}.

(** A store is a map.  Any operation may fail; a failed write may have taken
    effect all the same. *)
Class KVLaws (S : Type) `{KV S} := {
  kv_map : S -> gmap string string;
  kv_get_ok : forall s k v, kv_Get k s = Ok v -> kv_map s !! k = Some v;
  kv_get_none : forall s k, kv_Get k s = Fail ErrNotFound -> kv_map s !! k = None;
  kv_put_ok : forall s s' k v, kv_Put k v s = (Ok tt, s') -> kv_map s' = <[k := v]> (kv_map s);
  kv_put_fail : forall s s' k v e, kv_Put k v s = (Fail e, s') ->
    kv_map s' = kv_map s \/ kv_map s' = <[k := v]> (kv_map s);
  kv_delete_ok : forall s s' k, kv_Delete k s = (Ok tt, s') -> kv_map s' = delete k (kv_map s);
  kv_delete_fail : forall s s' k e, kv_Delete k s = (Fail e, s') ->
    kv_map s' = kv_map s \/ kv_map s' = delete k (kv_map s);
  kv_scan_ok : forall s p l, kv_Scan p s = Ok l ->
    l ≡ₚ filter (fun kv => String.prefix p kv.1 = true) (map_to_list (kv_map s));
}.

(** ** Execution *)

Record ResultSet := mkResultSet { rsColumns : list string; rsRows : list Row; rsRowsAffected : Z }.

Inductive execerr :=
| EKV (e : kverr)
| EDecode (key : string)
| ENonLiteral (column : string)
| ECatalog (e : caterr)
| ENilMap                      (* a panic: assignment to an entry of a nil map *)
| EUnknownPlan.

Definition resolveColumns (table : TableDef) (cols : list ColumnDef) : list ColumnDef :=
  match cols with [] => tdColumns table | _ => cols end.
Definition columnNamesFromDefs (cols : list ColumnDef) : list string := cdName <$> cols.
Definition columnNames (table : TableDef) (cols : list ColumnDef) : list string :=
  columnNamesFromDefs (resolveColumns table cols).

(** A missing entry reads as nil. *)
Definition projectRow (row : option Row) (cols : list ColumnDef) : Row :=
  foldl (fun result col => <[cdName col := default ANull (default ∅ row !! cdName col)]> result) ∅ cols.

Fixpoint apply_assignments (assignments : list ResolvedAssignment) (row : option Row) : result execerr (option Row) :=
  match assignments with
  | [] => Ok row
  | a :: rest =>
      match teExpr (raValue a) with
      | Literal lit =>
          match row with
          | Some r => apply_assignments rest (Some (<[cdName (raColumn a) := any_of_literal lit]> r))
          | None => Fail ENilMap
          end
      | _ => Fail (ENonLiteral (cdName (raColumn a)))
      end
  end.

Fixpoint decode_entries (entries : list (string * string)) (cols : list ColumnDef) : result execerr (list Row) :=
  match entries with
  | [] => Ok []
  | (k, v) :: rest =>
      match DecodeRow (of_str v) with
      | None => Fail (EDecode k)
      | Some row => try rows <- decode_entries rest cols; Ok (projectRow row cols :: rows)
      end
  end.

Section executor.
Context {S C : Type} `{KV S} `{Catalog C}.

Definition executeCreateTable (def : TableDef) (cat : C) : result execerr ResultSet * C :=
  match cat_CreateTable def cat with
  | Fail e => (Fail (ECatalog e), cat)
  | Ok cat' => (Ok (mkResultSet [] [] 0), cat')
  end.

Definition executeInsert (key : string) (row : gmap string LitValue) (kv : S) : result execerr ResultSet * S :=
  match kv_Put key (to_str (EncodeRow (any_of_literal <$> row))) kv with
  | (Fail e, kv') => (Fail (EKV e), kv')
  | (Ok _, kv') => (Ok (mkResultSet [] [] 1), kv')
  end.

Definition executePointGet (key : string) (table : TableDef) (columns : list ColumnDef) (kv : S) : result execerr ResultSet :=
  match kv_Get key kv with
  | Fail ErrNotFound => Ok (mkResultSet (columnNames table columns) [] 0)
  | Fail e => Fail (EKV e)
  | Ok val =>
      match DecodeRow (of_str val) with
      | None => Fail (EDecode key)
      | Some row =>
          let cols := resolveColumns table columns in
          Ok (mkResultSet (columnNamesFromDefs cols) [projectRow row cols] 0)
      end
  end.

Definition executeTableScan (prefix : string) (table : TableDef) (columns : list ColumnDef) (kv : S) : result execerr ResultSet :=
  match kv_Scan prefix kv with
  | Fail e => Fail (EKV e)
  | Ok entries =>
      let cols := resolveColumns table columns in
      try rows <- decode_entries entries cols;
      Ok (mkResultSet (columnNamesFromDefs cols) rows 0)
  end.

Definition executePointUpdate (key : string) (assignments : list ResolvedAssignment) (kv : S) : result execerr ResultSet * S :=
  match kv_Get key kv with
  | Fail ErrNotFound => (Ok (mkResultSet [] [] 0), kv)
  | Fail e => (Fail (EKV e), kv)
  | Ok val =>
      match DecodeRow (of_str val) with
      | None => (Fail (EDecode key), kv)
      | Some row =>
          match apply_assignments assignments row with
          | Fail e => (Fail e, kv)
          | Ok row' =>
              let data := match row' with Some r => EncodeRow r | None => of_str "null" end in
              match kv_Put key (to_str data) kv with
              | (Fail e, kv') => (Fail (EKV e), kv')
              | (Ok _, kv') => (Ok (mkResultSet [] [] 1), kv')
              end
          end
      end
  end.

Definition executePointDelete (key : string) (kv : S) : result execerr ResultSet * S :=
  match kv_Delete key kv with
  | (Fail e, kv') => (Fail (EKV e), kv')
  | (Ok _, kv') => (Ok (mkResultSet [] [] 1), kv')
  end.

(** [PointPut] is declared by the planner but neither planned nor executed. *)
Definition Execute (plan : PhysicalPlan) (s : S * C) : result execerr ResultSet * (S * C) :=
  let '(kv, cat) := s in
  match plan with
  | CreateTablePlan def => let '(r, cat') := executeCreateTable def cat in (r, (kv, cat'))
  | InsertPlan key row _ => let '(r, kv') := executeInsert key row kv in (r, (kv', cat))
  | PointGet key table columns => (executePointGet key table columns kv, s)
  | TableScan prefix table columns => (executeTableScan prefix table columns kv, s)
  | PointUpdate key _ assignments => let '(r, kv') := executePointUpdate key assignments kv in (r, (kv', cat))
  | PointDelete key _ => let '(r, kv') := executePointDelete key kv in (r, (kv', cat))
  | PointPut _ _ _ => (Fail EUnknownPlan, s)
  end.
End executor.

(** ** The in-memory store *)

(** [inMemoryKV]: the store the tests run against; the order of a scan is some
    order. *)
Definition inMemoryKV : Type := gmap string string.

#[global] Instance inMemoryKV_KV : KV inMemoryKV := {|
  kv_Get := fun key (k : gmap string string) => match k !! key with Some v => Ok v | None => Fail ErrNotFound end;
  kv_Put := fun key value (k : gmap string string) => (Ok tt, <[key := value]> k);
  kv_Delete := fun key (k : gmap string string) => (Ok tt, delete key k);
  kv_Scan := fun prefix (k : gmap string string) =>
    Ok (filter (fun kv => String.prefix prefix kv.1 = true) (map_to_list k));
|}.

#[global] Instance inMemoryKV_laws : KVLaws inMemoryKV.
Proof.
  refine {| kv_map := fun k : inMemoryKV => k |}; simpl.
  - intros s k v. unfold inMemoryKV in *. destruct (s !! k) eqn:Hk; naive_solver.
  - intros s k. unfold inMemoryKV in *. by destruct (s !! k) eqn:Hk.
  - by intros s s' k v [= <-].
  - done.
  - by intros s s' k [= <-].
  - done.
  - by intros s p l [= <-].
Defined.

(** ** Rows survive storage *)

(** Literals JSON keeps: valid UTF-8, and whole numbers [float64] writes as it
    reads them. *)
Definition plain_literal (v : LitValue) : Prop :=
  match v with LInt n => 0 <= n < 10 ^ 15 | LString s => utf8_str s | _ => True end.

Definition plain_row (row : gmap string LitValue) : Prop :=
  map_Forall (fun name v => utf8_str name /\ plain_literal v) row.

(** What a stored literal is read back as. *)
Definition stored (v : LitValue) : any :=
  match v with LInt n => AFloat (f_nat n) | LString s => AString s | LBool b => ABool b | LNull => ANull end.

Lemma plain_range v : plain_literal v -> literal_range v.
Proof. destruct v; simpl; try done. unfold max_int64. lia. Qed.

Lemma decode_literal v : plain_literal v -> decode_any (encode_any (any_of_literal v)) = Some (stored v).
Proof.
  destruct v as [n|s|b|]; simpl; try done.
  - intros Hn. by rewrite (proj1 (float_nat n Hn)).
  - intros _. by rewrite to_of_str.
Qed.

Lemma encode_stored v : plain_literal v -> encode_any (stored v) = encode_any (any_of_literal v).
Proof. destruct v as [n|s|b|]; simpl; try done. intros Hn. unfold j_int. by rewrite (proj2 (float_nat n Hn)). Qed.

Lemma wf_literal v : plain_literal v -> wf_json (encode_any (any_of_literal v)).
Proof.
  destruct v as [n|s|b|]; simpl; try done. intros Hn. apply wf_int. unfold int64, min_int64, max_int64. lia.
Qed.

Lemma sorted_members_fmap {V W} (f : V -> W) (m : gmap string V) :
  sorted_members (f <$> m) = prod_map id f <$> sorted_members m.
Proof.
  assert (Hkeys : forall x y, x ∈ map_to_list (f <$> m) -> y ∈ map_to_list (f <$> m) -> x.1 = y.1 -> x = y).
  { intros [k v] [k' v'] H1%elem_of_map_to_list H2%elem_of_map_to_list. simpl. intros ->. congruence. }
  assert (Hperm : sorted_members (f <$> m) ≡ₚ prod_map id f <$> sorted_members m).
  { by rewrite !sorted_members_perm, map_to_list_fmap. }
  assert (Htrans : forall V', Transitive (@key_le V')).
  { intros V' x y z H1%Is_true_true H2%Is_true_true. apply Is_true_true. change (String.le x.1 z.1). by etrans. }
  assert (Htotal : forall V', Total (@key_le V')).
  { intros V' x y. unfold key_le. apply String.leb_total. }
  apply (StronglySorted_unique_strong key_le); [| | |done].
  - intros x y Hx Hy H1 H2. apply Hkeys; [by rewrite <- (sorted_members_perm (f <$> m))| |by apply String.leb_antisym].
    by rewrite <- (sorted_members_perm (f <$> m)), Hperm.
  - apply Sorted_StronglySorted; [apply _|]. apply Sorted_merge_sort. apply _.
  - apply (StronglySorted_fmap _ key_le); [done|].
    apply Sorted_StronglySorted; [apply _|]. apply Sorted_merge_sort. apply _.
Qed.

(** A row is written by the text of its values. *)
Lemma EncodeRow_ext r1 r2 : encode_any <$> r1 = encode_any <$> r2 -> EncodeRow r1 = EncodeRow r2.
Proof.
  assert (Heq : forall r : Row, EncodeRow r =
    print_json (JObj ((fun kv => (of_str kv.1, kv.2)) <$> sorted_members (encode_any <$> r)))).
  { intros r. unfold EncodeRow. rewrite sorted_members_fmap, <- list_fmap_compose. do 3 f_equal. }
  intros He. by rewrite !Heq, He.
Qed.

Lemma decode_members_literals l (row : Row) :
  Forall (fun kv => plain_literal kv.2) l ->
  decode_members ((fun kv => (of_str kv.1, encode_any (any_of_literal kv.2))) <$> l) row =
    Some (foldl (fun m kv => <[kv.1 := kv.2]> m) row (prod_map id stored <$> l)).
Proof.
  revert row. induction l as [|[k v] l IH]; intros row Hall; [done|]. apply Forall_cons in Hall as [Hv Hall].
  rewrite fmap_cons. cbn [decode_members fst snd]. rewrite decode_literal by done. simpl. by rewrite to_of_str, IH.
Qed.

Lemma plain_members row : plain_row row ->
  Forall (fun kv => utf8_str kv.1 /\ plain_literal kv.2) (sorted_members row).
Proof.
  intros Hrow. apply Forall_forall. intros [k v] Hin. rewrite sorted_members_perm in Hin.
  apply elem_of_map_to_list in Hin. by apply Hrow in Hin.
Qed.

(** A stored row of literals reads back, with its numbers as [float64]. *)
Lemma row_roundtrip row : plain_row row -> DecodeRow (EncodeRow (any_of_literal <$> row)) = Some (Some (stored <$> row)).
Proof.
  intros Hrow%plain_members. unfold EncodeRow, DecodeRow. rewrite sorted_members_fmap, <- list_fmap_compose.
  rewrite parse_print_json.
  - rewrite (decode_members_literals (sorted_members row)).
    + by rewrite <- sorted_members_fmap, foldl_insert_sorted.
    + eapply Forall_impl; [done|]. by intros ? [? ?].
  - apply wf_members, Forall_fmap. eapply Forall_impl; [done|]. intros [k v] [Hk Hv]. split; [done|]. by apply wf_literal.
Qed.

(** ** Projection and assignment *)

Definition literal_at (row : gmap string LitValue) (name : string) : any := from_option stored ANull (row !! name).

(** The row restricted to some columns; what was never set is NULL. *)
Definition project (row : gmap string LitValue) (cols : list ColumnDef) : Row :=
  list_to_map ((fun col => (cdName col, literal_at row (cdName col))) <$> cols).

(** Filling a map from a function of the name. *)
Lemma foldl_named (g : string -> any) (h : ColumnDef -> any) cols (acc : Row) :
  (forall col, h col = g (cdName col)) -> (forall name a, acc !! name = Some a -> a = g name) ->
  foldl (fun r col => <[cdName col := h col]> r) acc cols =
    list_to_map ((fun col => (cdName col, g (cdName col))) <$> cols) ∪ acc.
Proof.
  intros Hh. revert acc. induction cols as [|c cols IH]; intros acc Hacc; simpl; [by rewrite map_empty_union|].
  rewrite Hh, IH.
  - apply map_eq. intros name. rewrite <- insert_union_l. destruct (decide (name = cdName c)) as [->|Hne].
    + rewrite lookup_insert_eq, lookup_union, lookup_insert_eq.
      destruct (list_to_map _ !! cdName c) as [a|] eqn:Ha; [|done]. simpl. f_equal.
      apply elem_of_list_to_map_2, list_elem_of_fmap in Ha as (c' & [= Hc' ->] & _). by rewrite Hc'.
    + rewrite lookup_insert_ne by done. rewrite !lookup_union. by rewrite lookup_insert_ne by done.
  - intros name a. destruct (decide (name = cdName c)) as [->|Hne].
    + rewrite lookup_insert_eq. by intros [= <-].
    + rewrite lookup_insert_ne by done. apply Hacc.
Qed.

Lemma projectRow_spec row cols : projectRow (Some (stored <$> row)) cols = project row cols.
Proof.
  unfold projectRow, project. cbn [default]. rewrite (foldl_named (literal_at row)).
  - by rewrite map_union_empty.
  - intros col. unfold literal_at. simpl. rewrite lookup_fmap. by destruct (row !! cdName col).
  - done.
Qed.

Definition assign (row : gmap string LitValue) (a : ResolvedAssignment) : gmap string LitValue :=
  match teExpr (raValue a) with Literal v => <[cdName (raColumn a) := v]> row | _ => row end.

Definition update_row (ras : list ResolvedAssignment) (row : gmap string LitValue) : gmap string LitValue :=
  foldl assign row ras.

Lemma apply_assignments_spec ras (r : Row) (row : gmap string LitValue) :
  encode_any <$> r = encode_any ∘ any_of_literal <$> row ->
  match apply_assignments ras (Some r) with
  | Ok r' => Forall (fun a => is_literal (raValue a)) ras /\
      exists r'', r' = Some r'' /\ encode_any <$> r'' = encode_any ∘ any_of_literal <$> update_row ras row
  | Fail e => ~ Forall (fun a => is_literal (raValue a)) ras /\ exists name, e = ENonLiteral name
  end.
Proof.
  revert r row. induction ras as [|a ras IH]; intros r row Heq; cbn [apply_assignments].
  { split; [constructor|eauto]. }
  unfold update_row. cbn [foldl]. change (foldl assign ?x ras) with (update_row ras x). unfold assign.
  destruct (teExpr (raValue a)) as [l op r0|name|v|] eqn:Ha;
    try (split; [intros [[v Hv] _]%Forall_cons; congruence|by eexists]).
  specialize (IH (<[cdName (raColumn a) := any_of_literal v]> r) (<[cdName (raColumn a) := v]> row)).
  rewrite !fmap_insert, Heq in IH. specialize (IH eq_refl).
  assert (Hl : is_literal (raValue a)) by (by exists v).
  destruct (apply_assignments _ _) as [r'|e].
  - destruct IH as [? ?]. split; [by constructor|done].
  - destruct IH as [Hn ?]. split; [|done]. by intros [_ ?]%Forall_cons.
Qed.
