(* ===== verification/SqlRefine.v ===== *)
(** SQL over a key-value store as a database: texts run through the lexer, the
    parser, the analyzer, the planner and the executor behave as statements on
    tables of rows under their primary keys.

    [Run] composes the stages as [runSQL] does
    (src/internal/sql/executor_test.go). *)

From Stdlib Require Import Ascii.
From stdpp Require Import sorting.
From S2P Require Import Prelude Strconv Fs Json JsonStruct Float SqlLexer SqlParser SqlAnalyzer SqlPlanner SqlExecutor.

(** ** The pipeline *)

Inductive sqlerr := SParse (e : parseerr) | SAnalyze (e : anerr) | SPlan (e : planerr) | SExec (e : execerr).

Definition Run {S C} `{KV S} `{Catalog C} (text : bytes) (s : S * C) : result sqlerr ResultSet * (S * C) :=
  match Parse text with
  | Fail e => (Fail (SParse e), s)
  | Ok stmt =>
      match Analyze stmt s.2 with
      | Fail e => (Fail (SAnalyze e), s)
      | Ok rs =>
          match Plan rs with
          | Fail e => (Fail (SPlan e), s)
          | Ok plan => let '(r, s') := Execute plan s in (result_map_err SExec r, s')
          end
      end
  end.

Fixpoint run_session {S C} `{KV S} `{Catalog C} (texts : list bytes) (s : S * C)
    : list (result sqlerr ResultSet) * (S * C) :=
  match texts with
  | [] => ([], s)
  | text :: rest =>
      let '(r, s1) := Run text s in
      let '(rs, s2) := run_session rest s1 in (r :: rs, s2)
  end.

(** ** The specification *)

#[global] Instance LitValue_countable : Countable LitValue.
Proof.
  refine (inj_countable'
    (fun v => match v with LInt n => inl n | LString s => inr (inl s) | LBool b => inr (inr (Some b)) | LNull => inr (inr None) end)
    (fun x => match x with inl n => LInt n | inr (inl s) => LString s | inr (inr (Some b)) => LBool b | inr (inr None) => LNull end) _).
  by intros [].
Defined.

(** Tables by name, and rows by table and primary key. *)
Record Db := mkDb {
  dbTables : gmap string TableDef;
  dbRows : gmap (string * LitValue) (gmap string LitValue);
}.
#[global] Instance Db_eta : Eta Db := fun d => mkDb (dbTables d) (dbRows d).

Definition table_rows (db : Db) (name : string) : list (gmap string LitValue) :=
  snd <$> filter (fun kv => kv.1.1 = name) (map_to_list (dbRows db)).

Definition affected (n : Z) : ResultSet := mkResultSet [] [] n.
Definition selected (t : TableDef) (cols : list ColumnDef) (rows : list Row) : ResultSet :=
  mkResultSet (cdName <$> resolveColumns t cols) rows 0.

(** The effect and the result of a statement. *)
Inductive spec_step (db : Db) : ResolvedStatement -> ResultSet -> Db -> Prop :=
| spec_create def :
    dbTables db !! tdName def = None ->
    spec_step db (ResolvedCreateTable def) (affected 0) (db <| dbTables := <[tdName def := def]> (dbTables db) |>)
| spec_insert t cols tvs vs v :
    teExpr <$> tvs = Literal <$> vs -> insert_key t cols vs = Some v ->
    spec_step db (ResolvedInsert t cols tvs) (affected 1)
      (db <| dbRows := <[(tdName t, v) := insert_row cols vs]> (dbRows db) |>)
| spec_get t cols w v :
    teExpr (rwValue w) = Literal v ->
    spec_step db (ResolvedSelect t cols (Some w))
      (selected t cols (option_list ((fun row => project row (resolveColumns t cols)) <$> dbRows db !! (tdName t, v)))) db
| spec_scan t cols rows :
    rows ≡ₚ (fun row => project row (resolveColumns t cols)) <$> table_rows db (tdName t) ->
    spec_step db (ResolvedSelect t cols None) (selected t cols rows) db
| spec_update t ras w v row :
    teExpr (rwValue w) = Literal v -> Forall (fun a => is_literal (raValue a)) ras ->
    dbRows db !! (tdName t, v) = Some row ->
    spec_step db (ResolvedUpdate t ras (Some w)) (affected 1)
      (db <| dbRows := <[(tdName t, v) := update_row ras row]> (dbRows db) |>)
| spec_update_none t ras w v :
    teExpr (rwValue w) = Literal v -> dbRows db !! (tdName t, v) = None ->
    spec_step db (ResolvedUpdate t ras (Some w)) (affected 0) db
| spec_delete t w v :
    teExpr (rwValue w) = Literal v ->
    spec_step db (ResolvedDelete t (Some w)) (affected 1) (db <| dbRows := delete (tdName t, v) (dbRows db) |>).

(** Why a statement that passed the analysis can be refused: its values are not
    literals or it has no key, its table exists, or the store failed. *)
Inductive refused (db : Db) : ResolvedStatement -> sqlerr -> Prop :=
| refused_plan rs e : ~ plannable rs -> refused db rs (SPlan e)
| refused_create def def' e : dbTables db !! tdName def = Some def' -> refused db (ResolvedCreateTable def) (SExec (ECatalog e))
| refused_assignment t ras w name :
    ~ Forall (fun a => is_literal (raValue a)) ras -> refused db (ResolvedUpdate t ras w) (SExec (ENonLiteral name))
| refused_store rs e : refused db rs (SExec (EKV e)).

(** One text: refused, or executed.  A store that fails may do so after the
    effect. *)
Inductive spec_text (db : Db) (text : bytes) : result sqlerr ResultSet -> Db -> Prop :=
| text_parse e : Parse text = Fail e -> spec_text db text (Fail (SParse e)) db
| text_analyze stmt e e' :
    Parse text = Ok stmt -> Analyze stmt (dbTables db : inMemoryCatalog) = Fail e' -> spec_text db text (Fail (SAnalyze e)) db
| text_refused stmt rs e :
    Parse text = Ok stmt -> Analyze stmt (dbTables db : inMemoryCatalog) = Ok rs -> refused db rs e ->
    spec_text db text (Fail e) db
| text_lost stmt rs e res db' :
    Parse text = Ok stmt -> Analyze stmt (dbTables db : inMemoryCatalog) = Ok rs -> spec_step db rs res db' ->
    spec_text db text (Fail (SExec (EKV e))) db'
| text_done stmt rs res db' :
    Parse text = Ok stmt -> Analyze stmt (dbTables db : inMemoryCatalog) = Ok rs -> spec_step db rs res db' ->
    spec_text db text (Ok res) db'.

Inductive spec_session : Db -> list bytes -> list (result sqlerr ResultSet) -> Db -> Prop :=
| session_nil db : spec_session db [] [] db
| session_cons db text texts r rs db1 db2 :
    spec_text db text r db1 -> spec_session db1 texts rs db2 -> spec_session db (text :: texts) (r :: rs) db2.

(** ** Well-formed databases *)

Definition plain_expr (e : Expr) : Prop := match e with Literal v => plain_literal v | _ => True end.
Definition plain_where (w : option Expr) : Prop :=
  match w with Some (BinaryExpr _ _ r) => plain_expr r | _ => True end.

(** Statements whose names and values survive in keys and in JSON. *)
Definition plain_stmt (st : Statement) : Prop :=
  match st with
  | CreateTableStmt name cols => slash_free name /\ Forall (fun c => utf8_str (cdName c)) cols
  | InsertStmt _ _ values => Forall plain_expr values
  | SelectStmt _ _ w => plain_where w
  | UpdateStmt _ assignments w => Forall (fun a => plain_expr (asValue a)) assignments /\ plain_where w
  | DeleteStmt _ w => plain_where w
  end.

Definition table_ok (t : TableDef) : Prop :=
  table_wf t /\ slash_free (tdName t) /\ Forall (fun c => utf8_str (cdName c)) (tdColumns t).

(** A value of the type of the column [name]. *)
Definition value_ok (t : TableDef) (name : string) (v : LitValue) : Prop :=
  plain_literal v /\ exists col, findColumn t name = Some col /\ lit_type v = cdType col.

Definition has_table (db : Db) (t : TableDef) : Prop := dbTables db !! tdName t = Some t.

(** Tables are filed under their names and have one primary key; every row is in
    a table, under a key of its type, with values of the columns' types. *)
Definition db_ok (db : Db) : Prop :=
  (forall name t, dbTables db !! name = Some t -> tdName t = name /\ table_ok t) /\
  (forall name v row, dbRows db !! (name, v) = Some row ->
     exists t, dbTables db !! name = Some t /\ value_ok t (tdPrimaryKey t) v /\ map_Forall (value_ok t) row).

(** ** Analyzed statements *)

Definition typed (t : TableDef) (col : ColumnDef) (tv : TypedExpr) : Prop :=
  forall v, teExpr tv = Literal v -> value_ok t (cdName col) v.
Definition key_ready (t : TableDef) (w : ResolvedWhere) : Prop :=
  rwOp w = "=" /\ forall v, teExpr (rwValue w) = Literal v -> value_ok t (tdPrimaryKey t) v.

(** A statement against the tables of [db], its literals of the right types. *)
Definition ready (db : Db) (rs : ResolvedStatement) : Prop :=
  match rs with
  | ResolvedCreateTable def => table_ok def
  | ResolvedInsert t cols tvs => has_table db t /\ Forall2 (typed t) cols tvs
  | ResolvedSelect t cols w => has_table db t /\ from_option (key_ready t) True w
  | ResolvedUpdate t ras w =>
      has_table db t /\ Forall (fun a => typed t (raColumn a) (raValue a)) ras /\ from_option (key_ready t) False w
  | ResolvedDelete t w => has_table db t /\ from_option (key_ready t) False w
  end.

Lemma findColumn_in t col : NoDup (cdName <$> tdColumns t) -> col ∈ tdColumns t -> findColumn t (cdName col) = Some col.
Proof.
  intros Hnd Hin. unfold findColumn. apply list_elem_of_lookup in Hin as [i Hi].
  destruct (list_find (fun c => cdName c = cdName col) (tdColumns t)) as [[j c]|] eqn:Hf.
  - apply list_find_Some in Hf as (Hj & Hc & _). simpl. f_equal.
    assert (Hij : i = j) by (eapply NoDup_lookup; [done|by rewrite list_lookup_fmap, Hi|by rewrite list_lookup_fmap, Hj; simpl; rewrite Hc]).
    subst. congruence.
  - apply list_find_None in Hf. rewrite Forall_lookup in Hf. by specialize (Hf i col Hi).
Qed.

Lemma typed_fits t col tv : table_ok t -> col ∈ tdColumns t -> fits t col tv -> plain_expr (teExpr tv) -> typed t col tv.
Proof.
  intros ((Hnd & _) & _) Hin Hfit Hplain v Hv. unfold fits in Hfit. rewrite Hv in Hfit, Hplain. split; [done|].
  exists col. split; [by apply findColumn_in|]. by eapply has_type_lit.
Qed.

Lemma where_ready t w e : where_ok t w -> where_from w e -> plain_where (Some e) -> key_ready t w.
Proof.
  intros (Hop & Hpk & Hfit) Hfrom Hplain. split; [done|]. intros v Hv. destruct e as [l op r| | |]; try done.
  simpl in *. rewrite <- Hfrom, Hv in Hplain. split; [done|]. exists (rwPKColumn w). split; [done|].
  eapply has_type_lit. unfold fits in Hfit. by rewrite Hv in Hfit.
Qed.

Lemma GetTable_ok name (c : gmap string TableDef) t : GetTable name c = Ok t <-> c !! name = Some t.
Proof. unfold GetTable, inMemoryCatalog. destruct (c !! name); naive_solver. Qed.

Lemma Analyze_ready db st rs : db_ok db -> plain_stmt st -> Analyze st (dbTables db : inMemoryCatalog) = Ok rs ->
  resolved_ok rs /\ ready db rs.
Proof.
  intros [Htables _].
  assert (Hget : forall name t, cat_GetTable name (dbTables db : inMemoryCatalog) = Ok t -> has_table db t /\ table_ok t).
  { intros name t Ht%GetTable_ok. destruct (Htables name t Ht) as [<- Hok]. by split. }
  destruct st as [name cols|name cols values|cols name w|name assignments w|name w]; simpl.
  - intros [Hs Hu] (pk & -> & Hok)%create_wf. split; [done|]. by split_and!.
  - intros Hp (t & cs & tvs & -> & [Ht Htok]%Hget & Hexp & Hcs & Hv)%analyzeInsert_ok. split; [done|]. split; [done|].
    rewrite <- Hexp, Forall_fmap in Hp. rewrite Forall2_same_length_lookup in Hv |- *. destruct Hv as [Hlen Hv].
    split; [done|]. intros i col tv Hc Htv. eapply typed_fits; [done| |by eauto|].
    + by eapply Forall_lookup_1 in Hcs.
    + by eapply Forall_lookup_1 in Hp.
  - intros Hp (t & cs & rw & -> & [Ht Htok]%Hget & Hcs & Hw)%analyzeSelect_ok.
    destruct rw as [rw|], w as [e|]; try done. destruct Hw as [Hw Hf].
    split; [done|]. split; [done|]. by eapply where_ready.
  - intros [Hp Hpw] (t & ras & rw & e & -> & [Ht Htok]%Hget & -> & Hexp & Hras & Hw & Hf)%analyzeUpdate_ok.
    split; [done|]. split; [done|]. split; [|by eapply where_ready].
    apply (Forall_fmap asValue plain_expr) in Hp. rewrite <- Hexp, Forall_fmap in Hp.
    apply Forall_lookup_2. intros i a Ha. eapply Forall_lookup_1 in Hras, Hp; [|done..]. destruct Hras.
    by apply typed_fits.
  - intros Hp (t & rw & e & -> & [Ht Htok]%Hget & -> & Hw & Hf)%analyzeDelete_ok.
    split; [done|]. split; [done|]. by eapply where_ready.
Qed.

(** ** The specification keeps databases well formed *)

Lemma rows_insert_ok db t v row : db_ok db -> has_table db t -> value_ok t (tdPrimaryKey t) v ->
  map_Forall (value_ok t) row -> db_ok (db <| dbRows := <[(tdName t, v) := row]> (dbRows db) |>).
Proof.
  intros [Htables Hrows] Ht Hv Hrow. split; [done|]. intros name v' row'. cbn.
  destruct (decide ((tdName t, v) = (name, v'))) as [[= <- <-]|Hne].
  - rewrite lookup_insert_eq. intros [= <-]. by exists t.
  - rewrite lookup_insert_ne by done. apply Hrows.
Qed.

Lemma typed_zip t cols tvs vs name v : Forall2 (typed t) cols tvs -> teExpr <$> tvs = Literal <$> vs ->
  (name, v) ∈ zip (cdName <$> cols) vs -> value_ok t name v.
Proof.
  intros Hty Hexp. revert vs Hexp. induction Hty as [|col tv cols tvs Hc _ IH]; intros vs Hexp; [set_solver|].
  destruct vs as [|v' vs]; [done|]. rewrite !fmap_cons in Hexp. injection Hexp as Hv Hexp. simpl.
  intros [[= -> ->]|Hin]%elem_of_cons; [by apply Hc|by eapply IH].
Qed.

Lemma insert_row_ok t cols tvs vs : Forall2 (typed t) cols tvs -> teExpr <$> tvs = Literal <$> vs ->
  map_Forall (value_ok t) (insert_row cols vs).
Proof.
  intros Hty Hexp name v Hl%elem_of_list_to_map_2. rewrite elem_of_reverse in Hl. by eapply typed_zip.
Qed.

Lemma insert_key_ok t cols tvs vs v : Forall2 (typed t) cols tvs -> teExpr <$> tvs = Literal <$> vs ->
  insert_key t cols vs = Some v -> value_ok t (tdPrimaryKey t) v.
Proof. unfold insert_key. intros Hty Hexp Hl%elem_of_list_to_map_2. by eapply typed_zip. Qed.

Lemma update_row_ok t ras row : Forall (fun a => typed t (raColumn a) (raValue a)) ras ->
  map_Forall (value_ok t) row -> map_Forall (value_ok t) (update_row ras row).
Proof.
  unfold update_row. intros Hty. revert row. induction Hty as [|a ras Ha _ IH]; intros row Hrow; [done|]. apply IH.
  unfold assign. destruct (teExpr (raValue a)) eqn:He; try done. apply map_Forall_insert_2; [|done]. by apply Ha.
Qed.

Lemma spec_step_ok db rs res db' : db_ok db -> ready db rs -> spec_step db rs res db' -> db_ok db'.
Proof.
  intros Hok Hready Hstep. pose proof Hok as [Htables Hrows]. destruct Hstep; simpl in Hready; try done.
  - split; cbn.
    + intros name t. destruct (decide (tdName def = name)) as [<-|Hne].
      * rewrite lookup_insert_eq. by intros [= <-].
      * rewrite lookup_insert_ne by done. apply Htables.
    + intros name v row Hr. destruct (Hrows name v row Hr) as (t & Ht & Hv). exists t. split; [|done].
      by rewrite lookup_insert_ne by congruence.
  - destruct Hready as [Ht Hty]. apply rows_insert_ok; [done..|by eapply insert_key_ok|by eapply insert_row_ok].
  - destruct Hready as (Ht & Hty & _ & Hk). destruct (Hrows _ _ _ H1) as (t' & Ht' & _ & Hrow).
    assert (t' = t) as -> by (unfold has_table in Ht; congruence).
    apply rows_insert_ok; [done..|by apply Hk|by apply update_row_ok].
  - split; [done|]. cbn. intros name v' row [_ Hr]%lookup_delete_Some. by apply Hrows.
Qed.

(** ** Representation *)

Definition row_text (row : gmap string LitValue) : string := to_str (EncodeRow (any_of_literal <$> row)).
Definition row_key (name : string) (v : LitValue) : string := RowKey name (literal_string v).

Section refinement.
Context {S C : Type} `{KVS : KV S} `{!KVLaws S} `{CatC : Catalog C} `{!CatalogLaws C}.
Implicit Types (s : S * C) (kv : S).

(** The store holds exactly the rows, each under its key. *)
Definition store_rows kv (db : Db) : Prop := forall k x,
  kv_map kv !! k = Some x <->
  exists name v row, dbRows db !! (name, v) = Some row /\ k = row_key name v /\ x = row_text row.

Definition represents s (db : Db) : Prop :=
  (forall name t, cat_GetTable name s.2 = Ok t <-> dbTables db !! name = Some t) /\ store_rows s.1 db.

(** Keys are unambiguous. *)
Lemma row_key_inj db t name v w row : db_ok db -> has_table db t -> value_ok t (tdPrimaryKey t) v ->
  dbRows db !! (name, w) = Some row -> row_key (tdName t) v = row_key name w -> tdName t = name /\ v = w.
Proof.
  intros [Htables Hrows] Ht (Hpv & col & Hcol & Hv) Hrow Hk. destruct (Hrows _ _ _ Hrow) as (t' & Ht' & (Hpw & col' & Hcol' & Hw) & _).
  destruct (Htables _ _ Ht) as [_ (_ & Hs & _)]. destruct (Htables _ _ Ht') as [<- (_ & Hs' & _)].
  apply RowKey_inj in Hk as [Hname Hlit]; [|done..]. split; [done|].
  assert (t' = t) as -> by (unfold has_table in Ht; congruence).
  apply literal_string_inj; [congruence|by apply plain_range..|done].
Qed.

Lemma store_lookup kv db t v : db_ok db -> store_rows kv db -> has_table db t -> value_ok t (tdPrimaryKey t) v ->
  kv_map kv !! row_key (tdName t) v = row_text <$> dbRows db !! (tdName t, v).
Proof.
  intros Hok Hst Ht Hv. destruct (dbRows db !! (tdName t, v)) as [row|] eqn:Hrow; simpl.
  - apply Hst. eauto 10.
  - destruct (kv_map kv !! row_key (tdName t) v) as [x|] eqn:Hx; [|done].
    apply Hst in Hx as (name & w & row & Hr & Hk & _).
    destruct (row_key_inj db t name v w row) as [<- <-]; [done..|]. congruence.
Qed.

Lemma store_insert kv kv' db t v row : db_ok db -> store_rows kv db -> has_table db t -> value_ok t (tdPrimaryKey t) v ->
  kv_map kv' = <[row_key (tdName t) v := row_text row]> (kv_map kv) ->
  store_rows kv' (db <| dbRows := <[(tdName t, v) := row]> (dbRows db) |>).
Proof.
  intros Hok Hst Ht Hv Hm k x. rewrite Hm, lookup_insert_Some. cbn. split.
  - intros [[<- <-]|[Hne (name & w & row' & Hr & -> & ->)%Hst]].
    + exists (tdName t), v, row. by rewrite lookup_insert_eq.
    + exists name, w, row'. split; [|done]. rewrite lookup_insert_ne; [done|]. by intros [= <- <-].
  - intros (name & w & row' & [[[= <- <-] <-]|[Hne Hr]]%lookup_insert_Some & -> & ->); [by left|]. right.
    split; [|apply Hst; eauto 10]. intros Hk. destruct (row_key_inj db t name v w row') as [<- <-]; done.
Qed.

Lemma store_delete kv kv' db t v : db_ok db -> store_rows kv db -> has_table db t -> value_ok t (tdPrimaryKey t) v ->
  kv_map kv' = delete (row_key (tdName t) v) (kv_map kv) ->
  store_rows kv' (db <| dbRows := delete (tdName t, v) (dbRows db) |>).
Proof.
  intros Hok Hst Ht Hv Hm k x. rewrite Hm, lookup_delete_Some. cbn. split.
  - intros [Hne (name & w & row & Hr & -> & ->)%Hst]. exists name, w, row. split; [|done].
    apply lookup_delete_Some. split; [|done]. by intros [= <- <-].
  - intros (name & w & row & [Hne Hr]%lookup_delete_Some & -> & ->). split; [|apply Hst; eauto 10].
    intros Hk. destruct (row_key_inj db t name v w row) as [<- <-]; done.
Qed.

Lemma row_plain db name v row : db_ok db -> dbRows db !! (name, v) = Some row -> plain_row row.
Proof.
  intros [Htables Hrows] Hr. destruct (Hrows _ _ _ Hr) as (t & Ht & _ & Hrow). intros c w Hw.
  destruct (Hrow c w Hw) as (Hp & col & [Hin <-]%findColumn_some & _). split; [|done].
  destruct (Htables _ _ Ht) as [_ (_ & _ & Hu)]. rewrite Forall_forall in Hu. by apply Hu.
Qed.

(** A stored row decodes. *)
Lemma row_text_decode row : plain_row row -> DecodeRow (of_str (row_text row)) = Some (Some (stored <$> row)).
Proof. intros Hp. unfold row_text. rewrite of_to_str. by apply row_roundtrip. Qed.

(** The entries a scan of a table finds. *)
Lemma scan_entries kv db t l : db_ok db -> store_rows kv db -> has_table db t ->
  kv_Scan (tdName t +:+ "/") kv = Ok l ->
  l ≡ₚ (fun kr => (row_key kr.1.1 kr.1.2, row_text kr.2)) <$> filter (fun kr => kr.1.1 = tdName t) (map_to_list (dbRows db)).
Proof.
  intros Hok Hst Ht ->%kv_scan_ok. pose proof Hok as [Htables Hrows].
  destruct (Htables _ _ Ht) as [_ (_ & Hs & _)].
  apply NoDup_Permutation.
  - apply NoDup_filter, NoDup_map_to_list.
  - apply NoDup_fmap_2_strong; [|apply NoDup_filter, NoDup_map_to_list].
    intros [[n v] r] [[n' v'] r'] [Hn Hr%elem_of_map_to_list]%list_elem_of_filter [Hn' Hr'%elem_of_map_to_list]%list_elem_of_filter [= Hk _].
    simpl in *. subst. destruct (Hrows _ _ _ Hr) as (t' & Ht' & Hv & _).
    assert (t' = t) as -> by (unfold has_table in Ht; congruence).
    destruct (row_key_inj db t (tdName t) v v' r') as [_ <-]; [done..|]. congruence.
  - intros [k x]. rewrite list_elem_of_filter, elem_of_map_to_list, list_elem_of_fmap. rewrite (Hst k x). simpl. split.
    + intros [Hpre (name & v & row & Hr & -> & ->)]. exists ((name, v), row). split; [done|].
      rewrite list_elem_of_filter, elem_of_map_to_list. split; [|done]. simpl.
      destruct (Hrows _ _ _ Hr) as (t' & Ht' & _). destruct (Htables _ _ Ht') as [<- (_ & Hs' & _)].
      by apply RowKey_prefix in Hpre.
    + intros ([[name v] row] & [= -> ->] & [Hn Hr%elem_of_map_to_list]%list_elem_of_filter). simpl in *. subst name.
      split; [by apply RowKey_prefix|eauto 10].
Qed.

Lemma decode_entries_rows (f : (string * LitValue) * gmap string LitValue -> string) l cols l' :
  Forall (fun kr => plain_row kr.2) l -> l' ≡ₚ (fun kr => (f kr, row_text kr.2)) <$> l ->
  exists rows, decode_entries l' cols = Ok rows /\ rows ≡ₚ (fun kr => project kr.2 cols) <$> l.
Proof.
  intros Hall Hperm.
  set (g := fun e : string * string => projectRow (default None (DecodeRow (of_str e.2))) cols).
  assert (Hdec : Forall (fun e : string * string => is_Some (DecodeRow (of_str e.2))) l').
  { rewrite Hperm. apply Forall_fmap. eapply Forall_impl; [done|]. intros [k row] Hp.
    change (is_Some (DecodeRow (of_str (row_text row)))). rewrite row_text_decode by done. eauto. }
  exists (g <$> l'). split.
  - clear Hperm. induction Hdec as [|[k x] l' [row Hx] _ IH]; [done|]. simpl in *. rewrite Hx, IH. unfold g. simpl. by rewrite Hx.
  - rewrite Hperm, <- list_fmap_compose. apply Permutation_refl'. clear Hperm Hdec.
    induction Hall as [|[k row] l Hp _ IH]; [done|]. apply (f_equal2 cons); [|exact IH].
    change (projectRow (default None (DecodeRow (of_str (row_text row)))) cols = project row cols).
    rewrite row_text_decode by done. apply projectRow_spec.
Qed.

(** ** Execution *)

(** A result of a statement and the state after it, against the specification. *)
Definition step_ok (db : Db) (rs : ResolvedStatement) (r : result execerr ResultSet) s : Prop :=
  match r with
  | Ok res => exists db', spec_step db rs res db' /\ represents s db'
  | Fail e =>
      refused db rs (SExec e) /\ represents s db \/
      exists e' res db', e = EKV e' /\ spec_step db rs res db' /\ represents s db'
  end.

(** A write of one row, by a statement whose effect it is. *)
Lemma put_ok db rs t v row kv kv' cat (r : result kverr unit) :
  db_ok db -> represents (kv, cat) db -> has_table db t -> value_ok t (tdPrimaryKey t) v ->
  spec_step db rs (affected 1) (db <| dbRows := <[(tdName t, v) := row]> (dbRows db) |>) ->
  kv_Put (row_key (tdName t) v) (row_text row) kv = (r, kv') ->
  step_ok db rs (match r with Ok _ => Ok (affected 1) | Fail e => Fail (EKV e) end) (kv', cat).
Proof.
  intros Hok [Hcat Hst] Ht Hv Hstep Hput. destruct r as [[]|e]; simpl.
  - eexists. split; [exact Hstep|]. split; [done|]. eapply store_insert; [done..|]. by apply kv_put_ok in Hput.
  - apply kv_put_fail in Hput as [Hm|Hm].
    + left. split; [constructor|]. split; [done|]. unfold store_rows. simpl. by rewrite Hm.
    + right. eexists _, _, _. split; [done|]. split; [exact Hstep|]. split; [done|]. by eapply store_insert.
Qed.

Lemma create_ok db def s : represents s db -> db_ok db ->
  let '(r, cat') := executeCreateTable def s.2 in step_ok db (ResolvedCreateTable def) r (s.1, cat').
Proof.
  intros [Hcat Hst] Hok. unfold executeCreateTable. destruct (cat_CreateTable def s.2) as [cat'|e] eqn:Hc; simpl.
  - destruct (dbTables db !! tdName def) as [def'|] eqn:Hd.
    { apply Hcat in Hd. destruct (cat_create_exists _ _ _ Hd) as [e He]. congruence. }
    eexists. split; [by constructor|]. destruct (cat_create_get _ _ _ Hc) as [Hget Hframe]. split; [|done].
    intros name t. cbn. destruct (decide (name = tdName def)) as [->|Hne].
    + rewrite Hget, lookup_insert_eq. naive_solver.
    + rewrite Hframe, lookup_insert_ne by done. apply Hcat.
  - left. split; [|by split]. destruct (cat_GetTable (tdName def) s.2) as [def'|e'] eqn:Hg.
    + eapply refused_create. by apply Hcat.
    + destruct (cat_create_fresh _ _ _ Hg) as [c Hc']. congruence.
Qed.

Lemma insert_ok db t cols tvs vs v kv cat : represents (kv, cat) db -> db_ok db -> ready db (ResolvedInsert t cols tvs) ->
  teExpr <$> tvs = Literal <$> vs -> insert_key t cols vs = Some v ->
  let '(r, kv') := executeInsert (row_key (tdName t) v) (insert_row cols vs) kv in
  step_ok db (ResolvedInsert t cols tvs) r (kv', cat).
Proof.
  intros Hrep Hok [Ht Hty] Hexp Hkey. unfold executeInsert. destruct (kv_Put _ _ kv) as [r kv'] eqn:Hput.
  pose proof (put_ok db (ResolvedInsert t cols tvs) t v (insert_row cols vs) kv kv' cat r Hok Hrep Ht) as Hp.
  destruct r; apply Hp; try done; try (by eapply insert_key_ok); by eapply spec_insert.
Qed.

Lemma get_ok db t cols w v s : represents s db -> db_ok db -> ready db (ResolvedSelect t cols (Some w)) ->
  teExpr (rwValue w) = Literal v ->
  step_ok db (ResolvedSelect t cols (Some w)) (executePointGet (row_key (tdName t) v) t cols s.1) s.
Proof.
  intros Hrep Hok [Ht [_ Hk]] Hw. pose proof Hrep as [_ Hst]. unfold executePointGet.
  pose proof (store_lookup s.1 db t v Hok Hst Ht (Hk v Hw)) as Hl.
  pose proof (spec_get db t cols w v Hw) as Hstep.
  destruct (kv_Get (row_key (tdName t) v) s.1) as [x|[]] eqn:Hg.
  - apply kv_get_ok in Hg. rewrite Hg in Hl. destruct (dbRows db !! (tdName t, v)) as [row|] eqn:Hrow; [|done].
    injection Hl as ->. rewrite row_text_decode by (by eapply row_plain). rewrite projectRow_spec. by exists db.
  - apply kv_get_none in Hg. rewrite Hg in Hl. destruct (dbRows db !! (tdName t, v)) as [row|] eqn:Hrow; [done|].
    by exists db.
  - left. split; [constructor|done].
Qed.

Lemma scan_ok db t cols s : represents s db -> db_ok db -> ready db (ResolvedSelect t cols None) ->
  step_ok db (ResolvedSelect t cols None) (executeTableScan (tdName t +:+ "/") t cols s.1) s.
Proof.
  intros Hrep Hok [Ht _]. pose proof Hrep as [_ Hst]. unfold executeTableScan.
  destruct (kv_Scan (tdName t +:+ "/") s.1) as [l|e] eqn:Hs; [|left; split; [constructor|done]].
  apply (scan_entries s.1 db t l) in Hs; [|done..].
  apply (decode_entries_rows _ _ (resolveColumns t cols)) in Hs as (rows & -> & Hrows); last first.
  - apply Forall_forall. intros [[name v] row] [_ Hr%elem_of_map_to_list]%list_elem_of_filter. by eapply row_plain.
  - exists db. split; [|done]. apply spec_scan. rewrite Hrows. unfold table_rows. by rewrite <- list_fmap_compose.
Qed.

Lemma update_ok db t ras w v kv cat : represents (kv, cat) db -> db_ok db -> ready db (ResolvedUpdate t ras (Some w)) ->
  teExpr (rwValue w) = Literal v ->
  let '(r, kv') := executePointUpdate (row_key (tdName t) v) ras kv in
  step_ok db (ResolvedUpdate t ras (Some w)) r (kv', cat).
Proof.
  intros Hrep Hok (Ht & Hty & _ & Hk) Hw. pose proof Hrep as [_ Hst]. unfold executePointUpdate.
  pose proof (store_lookup kv db t v Hok Hst Ht (Hk v Hw)) as Hl.
  destruct (kv_Get (row_key (tdName t) v) kv) as [x|[]] eqn:Hg.
  - apply kv_get_ok in Hg. rewrite Hg in Hl. destruct (dbRows db !! (tdName t, v)) as [row|] eqn:Hrow; [|done].
    injection Hl as ->. pose proof (row_plain db _ _ _ Hok Hrow) as Hp. rewrite row_text_decode by done.
    pose proof (apply_assignments_spec ras (stored <$> row) row) as Hasg.
    rewrite <- map_fmap_compose in Hasg. specialize (Hasg (map_fmap_ext _ _ row (fun c a Ha => encode_stored a (proj2 (Hp c a Ha))))).
    destruct (apply_assignments ras (Some (stored <$> row))) as [r'|e].
    + destruct Hasg as (Hlit & r'' & -> & Henc). rewrite map_fmap_compose in Henc. apply EncodeRow_ext in Henc.
      rewrite Henc. destruct (kv_Put _ _ kv) as [r kv'] eqn:Hput.
      pose proof (put_ok db (ResolvedUpdate t ras (Some w)) t v (update_row ras row) kv kv' cat r Hok Hrep Ht (Hk v Hw)) as Hpo.
      destruct r; apply Hpo; try done; by eapply spec_update.
    + destruct Hasg as (Hlit & name & ->). left. split; [by constructor|done].
  - apply kv_get_none in Hg. rewrite Hg in Hl. destruct (dbRows db !! (tdName t, v)) as [row|] eqn:Hrow; [done|].
    exists db. split; [by eapply spec_update_none|done].
  - left. split; [constructor|done].
Qed.

Lemma delete_ok db t w v kv cat : represents (kv, cat) db -> db_ok db -> ready db (ResolvedDelete t (Some w)) ->
  teExpr (rwValue w) = Literal v ->
  let '(r, kv') := executePointDelete (row_key (tdName t) v) kv in
  step_ok db (ResolvedDelete t (Some w)) r (kv', cat).
Proof.
  intros [Hcat Hst] Hok (Ht & _ & Hk) Hw. unfold executePointDelete.
  destruct (kv_Delete (row_key (tdName t) v) kv) as [[[]|e] kv'] eqn:Hd; simpl.
  - eexists. split; [by apply spec_delete|]. split; [done|]. apply kv_delete_ok in Hd. eapply store_delete; eauto.
  - apply kv_delete_fail in Hd as [Hm|Hm].
    + left. split; [constructor|]. split; [done|]. unfold store_rows. simpl. by rewrite Hm.
    + right. eexists _, _, _. split; [done|]. split; [by apply spec_delete|]. split; [done|]. eapply store_delete; eauto.
Qed.

Lemma Execute_ok db rs p s : represents s db -> db_ok db -> resolved_ok rs -> ready db rs -> Plan rs = Ok p ->
  let '(r, s') := Execute p s in step_ok db rs r s'.
Proof.
  destruct s as [kv cat].
  intros Hrep Hok Hres Hready. destruct rs as [def|t cols tvs|t cols [w|]|t ras [w|]|t [w|]]; simpl; try done.
  - intros [= <-]. pose proof (create_ok db def (kv, cat) Hrep Hok) as Hc. simpl in *. by destruct (executeCreateTable def cat).
  - intros (vs & v & Hvs & Hk & ->)%planInsert_ok; [|symmetry; by eapply Forall2_length, Hready].
    pose proof (insert_ok db t cols tvs vs v kv cat Hrep Hok Hready Hvs Hk) as Hi. simpl in *. unfold row_key in Hi.
    by destruct (executeInsert _ _ kv).
  - destruct Hready as [Ht [Hop Hk]]. rewrite Hop. simpl. intros (pk & (v & Hv & ->)%evalLiteral_ok & [= <-])%result_bind_ok.
    by apply (get_ok db t cols w v (kv, cat)).
  - intros [= <-]. by apply (scan_ok db t cols (kv, cat)).
  - intros (key & (v & Hv & ->)%where_key_ok & [= <-])%result_bind_ok; [|by apply Hready].
    pose proof (update_ok db t ras w v kv cat Hrep Hok Hready Hv) as Hu. simpl in *. unfold row_key in Hu.
    by destruct (executePointUpdate _ ras kv).
  - intros (key & (v & Hv & ->)%where_key_ok & [= <-])%result_bind_ok; [|by apply Hready].
    pose proof (delete_ok db t w v kv cat Hrep Hok Hready Hv) as Hd. simpl in *. unfold row_key in Hd.
    by destruct (executePointDelete _ kv).
Qed.

Lemma represents_tables s db name t : represents s db -> cat_GetTable name s.2 = Ok t <-> GetTable name (dbTables db) = Ok t.
Proof. intros [Hcat _]. by rewrite GetTable_ok. Qed.

Lemma Run_ok db text s : represents s db -> db_ok db -> (forall st, Parse text = Ok st -> plain_stmt st) ->
  let '(r, s') := Run text s in exists db', spec_text db text r db' /\ represents s' db' /\ db_ok db'.
Proof.
  intros Hrep Hok Hplain. unfold Run. destruct (Parse text) as [st|e] eqn:Hp; [|exists db; split; [by constructor|done]].
  destruct (Analyze st s.2) as [rs|e] eqn:Ha; last first.
  { exists db. split; [|done]. destruct (Analyze st (dbTables db : inMemoryCatalog)) as [rs|e'] eqn:Ha'; [|by econstructor].
    assert (Analyze st s.2 = Ok rs); [|congruence]. apply (Analyze_ext st (dbTables db : inMemoryCatalog) s.2 rs); [|done]. intros name t. by apply represents_tables. }
  assert (Ha' : Analyze st (dbTables db : inMemoryCatalog) = Ok rs).
  { apply (Analyze_ext st s.2 (dbTables db : inMemoryCatalog) rs); [|done]. intros name t. by apply represents_tables. }
  destruct (Analyze_ready db st rs Hok (Hplain st eq_refl) Ha') as [Hres Hready].
  destruct (Plan rs) as [p|e] eqn:Hpl; last first.
  { exists db. split; [|done]. eapply text_refused; [done..|]. constructor. intros Hpn.
    pose proof (Plan_total rs Hres Hpn) as Ht. by rewrite Hpl in Ht. }
  pose proof (Execute_ok db rs p s Hrep Hok Hres Hready Hpl) as Hex. destruct (Execute p s) as [r s'].
  destruct r as [res|e]; simpl in *.
  - destruct Hex as (db' & Hstep & Hrep'). exists db'. split; [by eapply text_done|]. split; [done|]. by eapply spec_step_ok.
  - destruct Hex as [[Href Hrep']|(e' & res & db' & -> & Hstep & Hrep')].
    + exists db. split; [by eapply text_refused|done].
    + exists db'. split; [by eapply text_lost|]. split; [done|]. by eapply spec_step_ok.
Qed.

(** C6: A session of SQL texts over a key-value store is a session on a database
    of tables and rows.  Every text is refused for a stated reason (it does not
    parse, the analysis rejects it, its values are not literals, its table
    exists, the store failed) and then changes nothing, unless the store failed
    after the write; or it has the effect of its statement and returns its
    result: an insert puts the row under its primary key, a select by primary key
    finds exactly that row and a scan exactly the rows of the table, an update
    changes the assigned columns and no others, a delete removes the row.  No two
    rows share a key and no other table's rows are touched.  The rows stay of
    their columns' types, and no stored row fails to decode.  (Table names are
    without slashes, column names and strings valid UTF-8, and numbers below
    [10 ^ 15], which a float64 carries as they are.) *)
Theorem sql_session_refines texts s db :
  represents s db -> db_ok db -> Forall (fun text => forall st, Parse text = Ok st -> plain_stmt st) texts ->
  let '(outs, s') := run_session texts s in
  exists db', spec_session db texts outs db' /\ represents s' db' /\ db_ok db'.
Proof.
  intros Hrep Hok Hplain. revert s db Hrep Hok. induction Hplain as [|text texts Ht _ IH]; intros s db Hrep Hok; simpl.
  - exists db. split; [constructor|done].
  - pose proof (Run_ok db text s Hrep Hok Ht) as Hrun. destruct (Run text s) as [r s1].
    destruct Hrun as (db1 & Hspec & Hrep1 & Hok1). specialize (IH s1 db1 Hrep1 Hok1).
    destruct (run_session texts s1) as [outs s2]. destruct IH as (db2 & Hs2 & Hrep2 & Hok2).
    exists db2. split; [by econstructor|done].
Qed.
End refinement.

(** ** Examples *)

Definition empty_db : Db := mkDb ∅ ∅.

Lemma empty_db_ok : db_ok empty_db.
Proof. by split; intros; simplify_map_eq. Qed.

Lemma empty_represents : represents (∅ : inMemoryKV, NewInMemoryCatalog) empty_db.
Proof.
  split.
  - intros name t. apply GetTable_ok.
  - intros k x. split; [done|]. by intros (name & v & row & Hr & _).
Qed.

Definition session1 : list bytes := of_str <$>
  ["CREATE TABLE users (id INT PRIMARY KEY, name TEXT NOT NULL, age INT)";
   "INSERT INTO users VALUES (7, 'alice', 30)";
   "INSERT INTO users (id, name) VALUES (12, 'it''s bob')";
   "UPDATE users SET age = 31 WHERE id = 7";
   "DELETE FROM users WHERE id = 12";
   "SELECT * FROM users WHERE id = 7"]%string.

Ltac plain_values :=
  repeat first [done | apply Forall_nil_2 | apply Forall_cons_2 | by unfold utf8_str; simpl; utf8_ascii | split].

Lemma session1_plain : Forall (fun text => forall st, Parse text = Ok st -> plain_stmt st) session1.
Proof.
  assert (Hcheck : forall text st', Parse text = Ok st' -> plain_stmt st' -> forall st, Parse text = Ok st -> plain_stmt st).
  { intros text st' H1 Hp st H2. congruence. }
  repeat apply Forall_cons_2; [..|by apply Forall_nil_2]; (eapply Hcheck; [by vm_compute|]); simpl.
  - split; [by apply (bool_decide_eq_true_1 _); vm_compute|]. plain_values.
  - plain_values.
  - plain_values.
  - plain_values.
  - plain_values.
  - plain_values.
Qed.

Lemma sql_session_refines_witness :
  let '(outs, s') := run_session session1 (∅ : inMemoryKV, NewInMemoryCatalog) in
  exists db', spec_session empty_db session1 outs db' /\ represents s' db' /\ db_ok db'.
Proof. exact (sql_session_refines session1 _ _ empty_represents empty_db_ok session1_plain). Defined.

(** The last statement of the session returns the updated row. *)
Lemma session1_result :
  last (run_session session1 (∅ : inMemoryKV, NewInMemoryCatalog)).1 =
    Some (Ok (mkResultSet ["id"; "name"; "age"]
      [{["id" := AFloat (f_nat 7); "name" := AString "alice"; "age" := AFloat (f_nat 31)]}] 0)).
Proof. by vm_compute. Qed.

Definition run_texts (texts : list string) : list (option (Z * nat)) :=
  (fun r => match r with Ok res => Some (rsRowsAffected res, length (rsRows res)) | Fail _ => None end) <$>
    (run_session (of_str <$> "CREATE TABLE t (id INT PRIMARY KEY, name TEXT)"%string :: texts)
       (∅ : inMemoryKV, NewInMemoryCatalog)).1.

(** Assigning to the primary key leaves the row under its old key. *)
Theorem update_of_the_key_keeps_the_key :
  run_texts ["INSERT INTO t VALUES (1, 'a')"; "UPDATE t SET id = 2 WHERE id = 1";
             "SELECT * FROM t WHERE id = 2"; "SELECT * FROM t WHERE id = 1"]%string =
    [Some (0, 0%nat); Some (1, 0%nat); Some (1, 0%nat); Some (0, 0%nat); Some (0, 1%nat)].
Proof. by vm_compute. Qed.

(** A second insert under the same key overwrites the row, and a delete reports a
    row whether there is one or not. *)
Theorem insert_overwrites_and_delete_counts_nothing :
  run_texts ["INSERT INTO t VALUES (1, 'a')"; "INSERT INTO t VALUES (1, 'b')"; "SELECT * FROM t"; "DELETE FROM t WHERE id = 9"]%string =
    [Some (0, 0%nat); Some (1, 0%nat); Some (1, 0%nat); Some (0, 1%nat); Some (1, 0%nat)].
Proof. by vm_compute. Qed.
